(* ===== verification/_CoqProject ===== *)
-Q . S2P
Prelude.v
Queue.v
BQueue.v
LinkedQueue.v
CString.v
StrMap.v
RBTree.v
HashMap.v
Ring.v
BatchQueue.v
Scheduler.v
IndexedQueue.v
Wire.v
NetBuffer.v
AgentBuffer.v
IpAddr.v
SchedTime.v
KeyStore.v
SecMsg.v
SecChannel.v
RegexMaps.v
OSMatch.v
OSRegex.v
RegexSafe.v
RegexCompile.v
RegexFixed.v
RegexSource.v
Utf8.v
Base64.v
MathOp.v
OSHash.v
