(* ===== verification/Prelude.v ===== *)
(** * Verification of the GuardSarm agent/manager event pipeline

    GuardSarm is a host intrusion detection system: agents collect events, the manager
    receives, decrypts, queues and forwards them.  This library models the C code on
    the way of an event, and the containers below it, as executable Rocq definitions
    with theorems about them.  Paths are relative to src/src/.

    ** The parts and how they interact

    An event enters the ring of the agent ([AgentBuffer], client-agent/src/buffer.c),
    from which one thread takes it to [CreateSecMSG] ([SecMsg],
    shared/os_crypto/shared/msgs.c): it is numbered with two counters, signed,
    compressed, encrypted with the key of the agent and framed for TCP ([Wire],
    shared/os_net/os_net.c).  On the manager the bytes of a connection are collected
    into messages and answers are queued ([NetBuffer], remoted/src/netbuffer.c, over the
    byte queue [BQueue], shared/src/bqueue_op.c); the sender is looked up by identifier
    or address ([KeyStore], shared/os_crypto/shared/keys.c; [IpAddr],
    shared/src/validate_op.c), the message is decrypted and its counters are checked
    ([SecMsg], [SecChannel]).  Control messages go to the indexed queue
    ([IndexedQueue], shared/src/indexed_queue_op.c), events to the per-agent round-robin
    scheduler ([BatchQueue] with its [Ring], shared/src/batch_queue_op.c).  These are
    built on the linked queue ([LinkedQueue], shared/src/queue_linked_op.c), the
    red-black tree ([RBTree], shared/src/rbtree_op.c), the hash map ([HashMap],
    shared/src/hashmap_op.c) and, elsewhere in the program, the bounded queue ([Queue],
    shared/src/queue_op.c).  [SchedTime] models the times and days of scheduled scans
    (shared/src/validate_op.c).

    Where one component uses another through an interface, the client is proved against
    a class: [StrMap] states what a dictionary promises ([RBTree] is an instance;
    [IndexedQueue], [KeyStore], [SecMsg] are clients), [StrTable] what a table promises
    ([HashMap] is an instance, [BatchQueue] the client, [Scheduler] puts them together).
    [Crypto] and [CryptoLaws] of [SecMsg] state what OpenSSL and zlib provide.

    ** How the code is modelled

    A C function is a Rocq function in the monad [outcome] of this file: it returns, or it
    runs into a fault (division by zero, access outside a block, overlapping [memcpy],
    NULL or freed pointer, failed assertion, fuel).  So a theorem that a function
    returns is a theorem of memory safety.  A block of memory is the list of its
    cells, a heap a finite map from addresses, a struct a record, an enum an inductive
    type or its numbers; integers keep their width where the code depends on it
    ([u32], [u64], [wrap_int], the indices of [AgentBuffer]).  [merror_exit] is the
    result [None].  A function that takes a lock is split at the points where it
    releases it: each critical section is a definition, and a step relation ([qstep],
    [lstep], [bstep], [istep] and so on) interleaves the sections of any number of
    threads, with the condition variables of this file.

    Code outside the sources is a parameter: the addresses that [malloc] returns, the
    schedule of [recv] and [send], PCRE2, [inet_pton], MD5, AES, Blowfish, zlib, the
    clock, random numbers and the texts of files.  What the code relies on is a named
    hypothesis of the section, and every theorem that has one is applied in its witness
    to a concrete instance.

    ** What the theorems show

    - [SecChannel]: messages arrive unchanged, in order and at most once over a network
      that loses, repeats and reorders packets; no packet of any content makes the
      manager access memory out of bounds, apart from the over-read that
      [unaligned_packet_overreads] shows; the counters survive a restart; the thread that
      closes counter files finishes every round.
    - [KeyStore]: the store behaves like a list of agents, no freed entry is reached, the
      key file is read back as it was written.
    - [RBTree], [HashMap]: refinement of finite maps, balance and capacity invariants,
      disposal exactly once, iteration over every entry.
    - [BatchQueue], [Queue], [LinkedQueue], [IndexedQueue], [AgentBuffer]: in every
      interleaving the queues are FIFO, lose no wake-up, never fault; the scheduler
      strands no agent and drains completely; resizing keeps the oldest events.
    - [BQueue], [NetBuffer], [Wire]: reassembly and round trips for every segmentation of
      the stream and both byte orders, bounds of every buffer.
    - [IpAddr], [SchedTime]: matching an address and a time agrees with the reference
      definition (agreement in the first bits, minutes of the day).

    Some theorems show where the code does not do what it means to
    ([bqueue_drop_zero_faults], [cluster_tcp_full_command_overflows],
    [agent_reload_miscounts], [ip_found_mixes_families], [unaligned_packet_overreads]).

    ** Bounds and fuel

    Loops that are not structural run on fuel, and the theorems are about results, so
    that too little fuel would falsify them: probing a hash map has the capacity as
    fuel and a map always has an empty bucket; the rebalancing of the tree has the
    depth; [next_pow2] has 64 doublings; the reader of the key file has the length of
    the text, of which every line takes at least one character; the closer of counter
    files has the length of its queue.  Blocks of [OS_MAXSTR] bytes have that length in
    the model.  Counters of messages have 32 bits; the theorems of the channel assume
    that the global one does not pass 2^32, which takes 2^32 * 9997 messages.

    ** Not modelled

    Of the parts above: log messages, statistics, the release of whole containers where
    it only frees, socket set-up and name resolution (system calls), the pacing of the
    agent buffer, the timestamps file of the key store, the readers of internal options.
    Of the rest of the program: the engine, the shared modules, the data providers, the
    inventory and vulnerability modules, the database daemon, file integrity monitoring
    and the log collector are other programs, mostly C++ around SQLite, RocksDB and
    operating system interfaces; the API and the framework are Python services; the XML
    and configuration readers, the regular expressions, active responses and the Windows
    ports do not lie on the way of an event.  None of them shares state with the parts
    above other than through the queues and sockets modelled here. *)

From stdpp Require Import base numbers list gmap strings relations.
From Stdlib Require Import Lia.

(** ** Outcomes of C code

    A C function either returns a value or runs into one of the situations in
    which the language (or an assertion of the source) gives it no result.
    Every model that divides, indexes an array, copies memory or dereferences
    a pointer is written in this monad, so that "the code is memory safe" is
    the statement that it returns. *)
Inductive fault : Type :=
  | DivByZero
  | OutOfBounds
  | Overlap
  | NullDeref
  | AssertFail
  | OutOfFuel.

#[export] Instance fault_eq_dec : EqDecision fault.
Proof. solve_decision. Defined.

Inductive outcome (A : Type) : Type :=
  | Ret (a : A)
  | Stuck (f : fault).
Arguments Ret {A} a.
Arguments Stuck {A} f.

#[export] Instance outcome_eq_dec {A} `{EqDecision A} : EqDecision (outcome A).
Proof. solve_decision. Defined.

#[export] Instance outcome_ret : MRet outcome := @Ret.
#[export] Instance outcome_bind : MBind outcome := λ A B f m,
  match m with Ret a => f a | Stuck e => Stuck e end.
#[export] Instance outcome_fmap : FMap outcome := λ A B f m,
  match m with Ret a => Ret (f a) | Stuck e => Stuck e end.

Lemma outcome_bind_ret {A B} (f : A → outcome B) (a : A) : Ret a ≫= f = f a.
Proof. done. Qed.

Lemma outcome_bind_Ret_inv {A B} (m : outcome A) (f : A → outcome B) (b : B) :
  m ≫= f = Ret b → ∃ a, m = Ret a ∧ f a = Ret b.
Proof. destruct m as [a|e]; [by exists a|done]. Qed.

(** A computation returns one value. *)
Ltac simplify_ret :=
  repeat match goal with
  | H1 : ?x = Ret ?a, H2 : ?x = Ret ?b |- _ =>
      let E := fresh "E" in
      assert (a = b) as E by congruence;
      clear H2; try discriminate E; simplify_eq
  end.

(** Arithmetic and memory primitives that may fault. *)
Definition c_mod (a b : nat) : outcome nat :=
  match b with O => Stuck DivByZero | S _ => Ret (a `mod` b) end.

Definition c_read {A} (l : list A) (i : nat) : outcome A :=
  match l !! i with Some x => Ret x | None => Stuck OutOfBounds end.

Definition c_write {A} (l : list A) (i : nat) (x : A) : outcome (list A) :=
  if decide (i < length l) then Ret (<[i:=x]> l) else Stuck OutOfBounds.

Definition c_assert (b : bool) : outcome unit :=
  if b then Ret tt else Stuck AssertFail.

Definition c_deref {A} (p : option A) : outcome A :=
  match p with Some x => Ret x | None => Stuck NullDeref end.

Lemma c_mod_pos a b : 0 < b → c_mod a b = Ret (a `mod` b).
Proof. by destruct b; [lia|]. Qed.

Lemma c_read_Some {A} (l : list A) i x : l !! i = Some x → c_read l i = Ret x.
Proof. unfold c_read. by intros ->. Qed.

Lemma c_write_lt {A} (l : list A) i x :
  i < length l → c_write l i x = Ret (<[i:=x]> l).
Proof. intros. unfold c_write. by rewrite decide_True. Qed.

Create HintDb gsarm.
Create Rewrite HintDb gsarm.
#[export] Hint Resolve c_mod_pos c_read_Some c_write_lt : gsarm.
#[export] Hint Rewrite @outcome_bind_ret : gsarm.

(** A decidable property that holds somewhere holds somewhere first. *)
Lemma nat_least (P : nat → Prop) `{∀ n, Decision (P n)} d :
  P d → ∃ d0, d0 ≤ d ∧ P d0 ∧ ∀ j, j < d0 → ¬ P j.
Proof.
  induction (lt_wf d) as [d _ IH]. intros Hd.
  destruct (decide (Exists P (seq 0 d))) as [He|Hn].
  - apply Exists_exists in He as (j & [_ Hj]%elem_of_seq & Pj).
    destruct (IH j Hj Pj) as (d0 & ? & ? & ?). exists d0. split_and!; [lia|done..].
  - exists d. split_and!; [lia|done|]. intros j Hj Pj. apply Hn, Exists_exists.
    exists j. split; [|done]. apply elem_of_seq. lia.
Qed.

(** A decidable property of the numbers below a bound holds by computation. *)
Lemma forall_below (P : nat → Prop) `{∀ n, Decision (P n)} N :
  bool_decide (Forall P (seq 0 N)) = true → ∀ n, n < N → P n.
Proof.
  rewrite bool_decide_eq_true, Forall_forall. intros HF n Hn. apply HF, elem_of_seq. lia.
Qed.

(** ** Modular arithmetic on ring indices *)
Lemma mod_add_small a n : a < n → a `mod` n = a.
Proof. apply Nat.mod_small. Qed.

Lemma mod_wrap a n : n ≤ a → a < 2 * n → a `mod` n = a - n.
Proof.
  intros. symmetry. apply (Nat.mod_unique a n 1); lia.
Qed.

Lemma mod_succ_mod a n : 0 < n → (a `mod` n + 1) `mod` n = (a + 1) `mod` n.
Proof. intros. rewrite Nat.Div0.add_mod_idemp_l. done. Qed.

(** Case analysis on a ring index that has gone at most once round. *)
Lemma mod_once a n :
  0 < n → a < 2 * n →
  (a < n ∧ a `mod` n = a) ∨ (n ≤ a ∧ a `mod` n = a - n).
Proof.
  intros. destruct (decide (a < n)).
  - left. by rewrite mod_add_small.
  - right. rewrite mod_wrap by lia. lia.
Qed.

(** Replaces every [a `mod` n] whose operand has gone at most once round. *)
Ltac ring_mod_at a n :=
  let H := fresh "Hmod" in
  let E := fresh "Emod" in
  destruct (mod_once a n) as [[H E]|[H E]]; [lia|lia| |];
  rewrite ?E in *.

(** Splits the conjunctions and existentials of the context. *)
Ltac split_hyps :=
  repeat match goal with
  | H : _ ∧ _ |- _ => destruct H
  | H : ∃ _, _ |- _ => destruct H
  end.

(** ** Blocks of memory

    A block is the list of its cells; an offset past its end is out of
    bounds.  [c_memcpy] within one block is undefined on overlapping ranges,
    [c_memmove] is not. *)
Definition c_slice {A} (l : list A) (off n : nat) : outcome (list A) :=
  if decide (off + n ≤ length l) then Ret (take n (drop off l)) else Stuck OutOfBounds.

Definition splice {A} (l : list A) (off : nat) (xs : list A) : list A :=
  take off l ++ xs ++ drop (off + length xs) l.

Definition c_store {A} (l : list A) (off : nat) (xs : list A) : outcome (list A) :=
  if decide (off + length xs ≤ length l) then Ret (splice l off xs) else Stuck OutOfBounds.

Definition c_memmove {A} (l : list A) (dst src n : nat) : outcome (list A) :=
  xs ← c_slice l src n; c_store l dst xs.

Definition c_memcpy {A} (l : list A) (dst src n : nat) : outcome (list A) :=
  if decide (0 < n ∧ dst < src + n ∧ src < dst + n) then Stuck Overlap
  else c_memmove l dst src n.

(** [realloc]: [uninit i] is the unspecified content of the new cell [i]. *)
Definition c_realloc {A} (uninit : nat → A) (l : list A) (n : nat) : list A :=
  take n l ++ (uninit <$> seq (length l) (n - length l)).

Lemma lookup_app_decide {A} (l1 l2 : list A) i :
  (l1 ++ l2) !! i = if decide (i < length l1) then l1 !! i else l2 !! (i - length l1).
Proof.
  case_decide; [by apply lookup_app_l|]. apply lookup_app_r. lia.
Qed.

Lemma length_splice {A} (l : list A) off xs :
  off + length xs ≤ length l → length (splice l off xs) = length l.
Proof. intros. unfold splice. rewrite !length_app, length_take, length_drop. lia. Qed.

Lemma lookup_splice {A} (l : list A) off xs i :
  off + length xs ≤ length l →
  splice l off xs !! i =
    if decide (off ≤ i < off + length xs) then xs !! (i - off) else l !! i.
Proof.
  intros. unfold splice. rewrite !lookup_app_decide, lookup_take, lookup_drop, length_take.
  repeat case_decide; try lia; f_equal; lia.
Qed.

Lemma length_c_realloc {A} (uninit : nat → A) l n :
  length (c_realloc uninit l n) = n.
Proof. unfold c_realloc. rewrite length_app, length_take, length_fmap, length_seq. lia. Qed.

Lemma lookup_c_realloc {A} (uninit : nat → A) l n i :
  i < n → i < length l → c_realloc uninit l n !! i = l !! i.
Proof.
  intros. unfold c_realloc.
  rewrite lookup_app_decide, lookup_take, length_take. repeat case_decide; (done || lia).
Qed.

Lemma c_slice_ok {A} (l : list A) off n :
  off + n ≤ length l → c_slice l off n = Ret (take n (drop off l)).
Proof. intros. unfold c_slice. by rewrite decide_True. Qed.

Lemma c_store_ok {A} (l : list A) off xs :
  off + length xs ≤ length l → c_store l off xs = Ret (splice l off xs).
Proof. intros. unfold c_store. by rewrite decide_True. Qed.

Lemma length_slice {A} (l : list A) off n :
  off + n ≤ length l → length (take n (drop off l)) = n.
Proof. intros. rewrite length_take, length_drop. lia. Qed.

Lemma c_memmove_ok {A} (l : list A) dst src n :
  dst + n ≤ length l → src + n ≤ length l →
  c_memmove l dst src n = Ret (splice l dst (take n (drop src l))).
Proof.
  intros. unfold c_memmove. rewrite c_slice_ok by done. simpl.
  apply c_store_ok. by rewrite length_slice.
Qed.

Lemma c_memcpy_ok {A} (l : list A) dst src n :
  dst + n ≤ length l → src + n ≤ length l → (dst + n ≤ src ∨ src + n ≤ dst ∨ n = 0) →
  c_memcpy l dst src n = Ret (splice l dst (take n (drop src l))).
Proof.
  intros. unfold c_memcpy. rewrite decide_False by lia. by apply c_memmove_ok.
Qed.

Lemma splice_app {A} (l : list A) off xs ys :
  (off + length xs + length ys ≤ length l) →
  splice (splice l off xs) (off + length xs) ys = splice l off (xs ++ ys).
Proof.
  intros Hl. apply list_eq. intros i.
  rewrite !lookup_splice by (rewrite ?length_splice, ?length_app; lia).
  rewrite length_app, lookup_app_decide. repeat case_decide; try lia; f_equal; lia.
Qed.

Lemma splice_nil {A} (l : list A) off : splice l off [] = l.
Proof. unfold splice. simpl. by rewrite Nat.add_0_r, take_drop. Qed.

(** Arithmetic about the lengths of such lists. *)
Ltac block_len :=
  repeat first
    [ rewrite length_app | rewrite length_take | rewrite length_drop
    | rewrite length_c_realloc | rewrite length_splice by block_len ];
  lia.

(** Proves an equation between lists built from [++], [take], [drop],
    [splice] and [realloc] by comparing them cell by cell. *)
Ltac list_cells :=
  apply list_eq; intros ?;
  repeat first
    [ progress rewrite ?length_app, ?length_take, ?length_drop, ?length_c_realloc
    | rewrite length_splice by block_len
    | rewrite lookup_app_decide | rewrite lookup_take | rewrite lookup_drop
    | rewrite lookup_splice by block_len
    | rewrite lookup_c_realloc by block_len
    | case_decide; try (exfalso; lia) ];
  first [ done | f_equal; lia
        | symmetry; apply lookup_ge_None_2; block_len
        | apply lookup_ge_None_2; block_len ].

(** ** Loops with binary fuel

    A loop that takes many rounds is iterated a number of times that is given in
    binary, and stops at the first result. *)
Section iterate.
Context {S R : Type} (step : S → outcome (S + R)).

Definition chain (m : outcome (S + R)) (k : S → outcome (S + R)) : outcome (S + R) :=
  r ← m; match r with inl s => k s | inr r => Ret (inr r) end.

Fixpoint iterate (p : positive) (s : S) : outcome (S + R) :=
  match p with
  | xH => step s
  | xO p => chain (iterate p s) (iterate p)
  | xI p => chain (step s) (λ s, chain (iterate p s) (iterate p))
  end.

Fixpoint iterate_nat (n : nat) (s : S) : outcome (S + R) :=
  match n with O => Ret (inl s) | Datatypes.S n => chain (step s) (iterate_nat n) end.

Lemma chain_chain m k1 k2 : chain (chain m k1) k2 = chain m (λ s, chain (k1 s) k2).
Proof. by destruct m as [[|]|]. Qed.

Lemma chain_ext m k1 k2 : (∀ s, k1 s = k2 s) → chain m k1 = chain m k2.
Proof. intros H. destruct m as [[s|]|]; [apply H|done..]. Qed.

Lemma iterate_nat_add n m s : iterate_nat (n + m) s = chain (iterate_nat n s) (iterate_nat m).
Proof.
  revert s. induction n as [|n IH]; intros s; [done|]. simpl. rewrite chain_chain.
  by apply chain_ext.
Qed.

Lemma iterate_to_nat p s : iterate p s = iterate_nat (Pos.to_nat p) s.
Proof.
  revert s. induction p as [p IH|p IH|]; intros s; cbn [iterate].
  - rewrite Pos2Nat.inj_xI. simpl. apply chain_ext. intros s'.
    rewrite Nat.add_0_r, iterate_nat_add, IH. by apply chain_ext.
  - rewrite Pos2Nat.inj_xO. simpl. rewrite Nat.add_0_r, iterate_nat_add, IH. by apply chain_ext.
  - change (Pos.to_nat 1) with 1%nat. simpl. by destruct (step s) as [[|]|].
Qed.

(** A loop whose rounds return, keep an invariant and lower a rank gives a result; the
    invariant and the rank may depend on a value [g] that the program does not compute. *)
Lemma iterate_result {G} (I : G → S → Prop) (rank : G → S → Z) (Q : R → Prop) :
  (∀ g s, I g s → (0 ≤ rank g s)%Z) →
  (∀ g s, I g s → ∃ r, step s = Ret r ∧
     match r with
     | inl s' => ∃ g', I g' s' ∧ (rank g' s' < rank g s)%Z
     | inr r => Q r
     end) →
  ∀ p g s, I g s → (rank g s < Zpos p)%Z → ∃ r, iterate p s = Ret (inr r) ∧ Q r.
Proof.
  intros Hpos Hstep p g s HI Hr. rewrite iterate_to_nat.
  assert (rank g s < Z.of_nat (Pos.to_nat p))%Z as Hn by (by rewrite positive_nat_Z).
  clear Hr. revert Hn. generalize (Pos.to_nat p) as n. clear p. intros n. revert g s HI.
  induction n as [|n IH]; intros g s HI Hn; [specialize (Hpos g s HI); lia|].
  destruct (Hstep g s HI) as (r & Hs & Hr). simpl. rewrite Hs. destruct r as [s'|r]; simpl.
  - destruct Hr as (g' & HI' & Hlt). apply (IH g'); [done|lia].
  - by exists r.
Qed.

End iterate.

(** ** Condition variables

    A thread that calls [pthread_cond_wait] is asleep until a signal moves it
    to the signalled ones, which re-enter the loop of the operation once they
    get the mutex.  Only the numbers of such threads matter. *)

Record cond : Type := mk_cond { asleep : nat; signalled : nat }.

Definition w_cond_signal (c : cond) : cond :=
  match asleep c with
  | O => c
  | S n => {| asleep := n; signalled := signalled c + 1 |}
  end.

Definition cond_sleep (c : cond) : cond :=
  {| asleep := asleep c + 1; signalled := signalled c |}.

Definition cond_wake (c : cond) : cond :=
  {| asleep := asleep c; signalled := signalled c - 1 |}.

Definition cond_timeout (c : cond) : cond :=
  {| asleep := asleep c - 1; signalled := signalled c |}.

Definition cond_spurious (c : cond) : cond :=
  {| asleep := asleep c - 1; signalled := signalled c + 1 |}.
