(* ===== verification/Queue.v ===== *)
(** * The bounded circular queue of [shared/src/queue_op.c]

    [w_queue_t] is a ring of [size] pointers that holds at most [size - 1]
    elements.  The sequential operations are functions on a record; the
    [_ex] operations, which run under the queue's mutex and sleep on its two
    condition variables, are critical sections on a record that also counts
    the sleeping and the signalled threads, and threads interleave through
    the step relation [qstep]. *)

From stdpp Require Import base numbers list relations.
From Stdlib Require Import Lia ZArith.
From S2P Require Import Prelude.

Section queue.
Context {A : Type}.

(** A [void *]: [None] is [NULL]. *)
Abbreviation ptr := (option A).

Record w_queue : Type := mk_w_queue {
  data : list ptr;
  size : nat;
  elements : nat;
  begin : nat;
  end_ : nat;
}.

(** [queue_init]; [mem] is what [malloc] happens to return. *)
Definition queue_init (sz : nat) (mem : list ptr) : w_queue :=
  {| data := mem; size := sz; elements := 0; begin := 0; end_ := 0 |}.

Definition queue_full (q : w_queue) : outcome bool :=
  m ← c_mod (begin q + 1) (size q);
  Ret (bool_decide (m = end_ q)).

Definition queue_empty (q : w_queue) : bool := bool_decide (begin q = end_ q).

Definition queue_push (q : w_queue) (d : ptr) : outcome (Z * w_queue) :=
  is_full ← queue_full q;
  if (is_full : bool) then Ret ((-1)%Z, q)
  else
    data' ← c_write (data q) (begin q) d;
    begin' ← c_mod (begin q + 1) (size q);
    Ret (0%Z, {| data := data'; size := size q; elements := elements q + 1;
                 begin := begin'; end_ := end_ q |}).

Definition queue_pop (q : w_queue) : outcome (ptr * w_queue) :=
  if queue_empty q then Ret (None, q)
  else
    d ← c_read (data q) (end_ q);
    end' ← c_mod (end_ q + 1) (size q);
    Ret (d, {| data := data q; size := size q; elements := elements q - 1;
               begin := begin q; end_ := end' |}).

(** ** Abstraction: the queue is the list of the pointers it holds *)

Definition slot (q : w_queue) (k : nat) : nat := (end_ q + k) `mod` size q.

Definition contents (q : w_queue) : list ptr :=
  (λ k, default None (data q !! slot q k)) <$> seq 0 (elements q).

Record queue_wf (q : w_queue) : Prop := {
  wf_size : 0 < size q;
  wf_data : length (data q) = size q;
  wf_end : end_ q < size q;
  wf_elements : elements q < size q;
  wf_begin : begin q = (end_ q + elements q) `mod` size q;
}.

Lemma queue_init_wf sz mem :
  0 < sz → length mem = sz → queue_wf (queue_init sz mem).
Proof. intros. split; simpl; try lia. by rewrite Nat.mod_small. Qed.

Lemma length_contents q : length (contents q) = elements q.
Proof. unfold contents. by rewrite length_fmap, length_seq. Qed.

Lemma queue_begin_lt q : queue_wf q → begin q < size q.
Proof. intros []. rewrite wf_begin0. apply Nat.mod_upper_bound. lia. Qed.

(** The ring is empty exactly when it holds nothing: the slot that is never
    used keeps [begin = end] unambiguous. *)
Lemma queue_empty_spec q :
  queue_wf q → queue_empty q = bool_decide (contents q = []).
Proof.
  intros Hwf. pose proof (length_contents q) as Hl. destruct Hwf.
  unfold queue_empty. apply bool_decide_ext.
  rewrite <- length_zero_iff_nil, Hl, wf_begin0.
  ring_mod_at (end_ q + elements q) (size q); lia.
Qed.

Lemma queue_full_spec q :
  queue_wf q →
  queue_full q = Ret (bool_decide (length (contents q) = size q - 1)).
Proof.
  intros Hwf. rewrite length_contents. pose proof (queue_begin_lt q Hwf).
  destruct Hwf. unfold queue_full. rewrite c_mod_pos by done. simpl. f_equal.
  apply bool_decide_ext. rewrite wf_begin0 in *.
  ring_mod_at (end_ q + elements q) (size q);
    [ring_mod_at (end_ q + elements q + 1) (size q)
    |ring_mod_at (end_ q + elements q - size q + 1) (size q)]; lia.
Qed.

(** The slots in use are pairwise distinct and none of them is [begin]. *)
Lemma slot_ne_begin q k :
  queue_wf q → k < elements q → slot q k ≠ begin q.
Proof.
  intros [] ?. unfold slot. rewrite wf_begin0.
  ring_mod_at (end_ q + k) (size q);
    ring_mod_at (end_ q + elements q) (size q); lia.
Qed.

Lemma queue_push_not_full q d :
  queue_wf q → length (contents q) ≠ size q - 1 →
  ∃ q', queue_push q d = Ret (0%Z, q') ∧ queue_wf q' ∧
        size q' = size q ∧ contents q' = contents q ++ [d].
Proof.
  intros Hwf Hnf. pose proof (queue_begin_lt q Hwf) as Hb.
  unfold queue_push. rewrite queue_full_spec by done.
  rewrite bool_decide_false by done. simpl.
  assert (Hs := wf_size q Hwf). assert (Hd := wf_data q Hwf).
  rewrite c_write_lt by lia. rewrite c_mod_pos by done. simpl.
  rewrite length_contents in Hnf.
  eexists; split; [reflexivity|]. split; [|split; [done|]].
  - destruct Hwf. split; simpl; try lia.
    + by rewrite length_insert.
    + rewrite wf_begin0, mod_succ_mod by done. f_equal. lia.
  - unfold contents; simpl. rewrite Nat.add_comm, seq_S, fmap_app. simpl.
    f_equal.
    + apply list_fmap_ext. intros i k [-> Hk]%lookup_seq.
      unfold slot; simpl. rewrite list_lookup_insert_ne; [done|].
      pose proof (slot_ne_begin q (0 + i) Hwf Hk). unfold slot in *. done.
    + unfold slot; simpl. rewrite <- (wf_begin q Hwf).
      by rewrite list_lookup_insert_eq by lia.
Qed.

Lemma queue_push_full q d :
  queue_wf q → length (contents q) = size q - 1 →
  queue_push q d = Ret ((-1)%Z, q).
Proof.
  intros Hwf Hf. unfold queue_push. rewrite queue_full_spec by done.
  by rewrite bool_decide_true.
Qed.

Lemma queue_pop_nonempty q d ds :
  queue_wf q → contents q = d :: ds →
  ∃ q', queue_pop q = Ret (d, q') ∧ queue_wf q' ∧
        size q' = size q ∧ contents q' = ds.
Proof.
  intros Hwf Hc. unfold queue_pop. rewrite queue_empty_spec by done.
  rewrite bool_decide_false by by rewrite Hc.
  pose proof (length_contents q) as Hl. rewrite Hc in Hl. simpl in Hl.
  assert (Hs := wf_size q Hwf). assert (He := wf_end q Hwf).
  assert (Hd := wf_data q Hwf).
  destruct (lookup_lt_is_Some_2 (data q) (end_ q)) as [x Hx]; [lia|].
  assert (x = d) as ->.
  { unfold contents in Hc. rewrite <- Hl in Hc. simpl in Hc.
    unfold slot at 1 in Hc. rewrite Nat.add_0_r, Nat.mod_small in Hc by done.
    rewrite Hx in Hc. by inversion Hc. }
  rewrite (c_read_Some _ _ _ Hx), c_mod_pos by done. simpl.
  eexists; split; [reflexivity|]. split; [|split; [done|]].
  - destruct Hwf. split; simpl; try lia.
    + apply Nat.mod_upper_bound. lia.
    + rewrite wf_begin0, Nat.Div0.add_mod_idemp_l. f_equal. lia.
  - unfold contents in *; simpl. rewrite <- Hl in Hc |- *.
    remember (length ds) as n eqn:Hn. clear Hn Hl.
    replace (S n - 1) with n by lia. simpl in Hc. injection Hc as _ <-.
    rewrite <- fmap_S_seq, <- list_fmap_compose. apply list_fmap_ext.
    intros i k _. simpl. unfold slot; simpl.
    rewrite Nat.Div0.add_mod_idemp_l. do 3 f_equal. lia.
Qed.

Lemma queue_pop_empty q :
  queue_wf q → contents q = [] → queue_pop q = Ret (None, q).
Proof.
  intros Hwf Hc. unfold queue_pop. rewrite queue_empty_spec by done.
  by rewrite bool_decide_true.
Qed.

(** ** The [_ex] operations: critical sections and condition variables *)

Record qsys : Type := mk_qsys {
  que : w_queue;
  available : cond;
  available_not_empty : cond;
}.

Definition queue_push_ex (s : qsys) (d : ptr) : outcome (Z * qsys) :=
  '(result, q') ← queue_push (que s) d;
  Ret (result,
       {| que := q';
          available := if bool_decide (result = 0%Z)
                       then w_cond_signal (available s) else available s;
          available_not_empty := available_not_empty s |}).

(** One pass through the loop of [queue_push_ex_block]: [None] when the
    thread goes to sleep on [available_not_empty]. *)
Definition queue_push_ex_block (s : qsys) (d : ptr) : outcome (option Z * qsys) :=
  is_full ← queue_full (que s);
  if (is_full : bool) then
    Ret (None, {| que := que s; available := available s;
                  available_not_empty := cond_sleep (available_not_empty s) |})
  else
    '(result, q') ← queue_push (que s) d;
    Ret (Some result,
         {| que := q';
            available := w_cond_signal (available s);
            available_not_empty := w_cond_signal (available_not_empty s) |}).

(** One pass through the loop of [queue_pop_ex]: a [NULL] makes the thread
    sleep. *)
Definition queue_pop_ex (s : qsys) : outcome (ptr * qsys) :=
  '(d, q') ← queue_pop (que s);
  match d with
  | None => Ret (None, {| que := q'; available := cond_sleep (available s);
                          available_not_empty := available_not_empty s |})
  | Some a =>
      Ret (Some a, {| que := q'; available := available s;
                      available_not_empty := w_cond_signal (available_not_empty s) |})
  end.

Definition on_available (f : cond → cond) (s : qsys) : qsys :=
  {| que := que s; available := f (available s);
     available_not_empty := available_not_empty s |}.

Definition on_space (f : cond → cond) (s : qsys) : qsys :=
  {| que := que s; available := available s;
     available_not_empty := f (available_not_empty s) |}.

(** [queue_pop_ex_timedwait]: either one pass through the loop, or, for a
    sleeping thread whose [pthread_cond_timedwait] failed, the early return. *)
Definition queue_pop_ex_timedwait (s : qsys) (wait_failed : bool)
    : outcome (ptr * qsys) :=
  if wait_failed then Ret (None, on_available cond_timeout s)
  else
    '(d, q') ← queue_pop (que s);
    match d with
    | None => Ret (None, {| que := q'; available := cond_sleep (available s);
                            available_not_empty := available_not_empty s |})
    | Some a =>
        Ret (Some a, {| que := q'; available := available s;
                        available_not_empty := w_cond_signal (available_not_empty s) |})
    end.

Definition queue_full_ex (s : qsys) : outcome bool := queue_full (que s).

Definition queue_empty_ex (s : qsys) : bool := queue_empty (que s).

Definition try_queue_pop_ex (s : qsys) : outcome (ptr * qsys) :=
  '(d, q') ← queue_pop (que s);
  Ret (d, {| que := q'; available := available s;
             available_not_empty :=
               match d with
               | Some _ => w_cond_signal (available_not_empty s)
               | None => available_not_empty s
               end |}).

(** What a step delivers into, and out of, the queue. *)
Inductive qlabel : Type :=
  | LPush (a : A)
  | LPop (a : A)
  | LSilent.

Definition pop_label (d : ptr) : qlabel :=
  match d with Some a => LPop a | None => LSilent end.

(** Threads push non-null pointers.  A thread enters an operation at any
    time; a signalled thread re-enters its loop; a thread in a timed wait may
    give up; and a sleeping thread may wake up spuriously. *)
Inductive qstep : qsys → qlabel → qsys → Prop :=
  | step_push_ex s a s' :
      queue_push_ex s (Some a) = Ret (0%Z, s') → qstep s (LPush a) s'
  | step_push_ex_fail s a s' :
      queue_push_ex s (Some a) = Ret ((-1)%Z, s') → qstep s LSilent s'
  | step_push_block s a r s' :
      queue_push_ex_block s (Some a) = Ret (Some r, s') → qstep s (LPush a) s'
  | step_push_block_sleep s a s' :
      queue_push_ex_block s (Some a) = Ret (None, s') → qstep s LSilent s'
  | step_push_block_resume s a r s' :
      0 < signalled (available_not_empty s) →
      queue_push_ex_block (on_space cond_wake s) (Some a) = Ret (Some r, s') →
      qstep s (LPush a) s'
  | step_push_block_resleep s a s' :
      0 < signalled (available_not_empty s) →
      queue_push_ex_block (on_space cond_wake s) (Some a) = Ret (None, s') →
      qstep s LSilent s'
  | step_pop_ex s d s' :
      queue_pop_ex s = Ret (d, s') → qstep s (pop_label d) s'
  | step_pop_ex_resume s d s' :
      0 < signalled (available s) →
      queue_pop_ex (on_available cond_wake s) = Ret (d, s') →
      qstep s (pop_label d) s'
  | step_try_pop_ex s d s' :
      try_queue_pop_ex s = Ret (d, s') → qstep s (pop_label d) s'
  | step_pop_timed s d s' :
      queue_pop_ex_timedwait s false = Ret (d, s') → qstep s (pop_label d) s'
  | step_pop_timed_resume s d s' :
      0 < signalled (available s) →
      queue_pop_ex_timedwait (on_available cond_wake s) false = Ret (d, s') →
      qstep s (pop_label d) s'
  | step_timeout s d s' :
      0 < asleep (available s) →
      queue_pop_ex_timedwait s true = Ret (d, s') → qstep s (pop_label d) s'
  | step_spurious_available s :
      0 < asleep (available s) → qstep s LSilent (on_available cond_spurious s)
  | step_spurious_space s :
      0 < asleep (available_not_empty s) →
      qstep s LSilent (on_space cond_spurious s).

Inductive qexec : qsys → list qlabel → qsys → Prop :=
  | qexec_nil s : qexec s [] s
  | qexec_snoc s tr s' l s'' :
      qexec s tr s' → qstep s' l s'' → qexec s (tr ++ [l]) s''.

Definition pushed (tr : list qlabel) : list A :=
  omap (λ l, match l with LPush a => Some a | _ => None end) tr.

Definition popped (tr : list qlabel) : list A :=
  omap (λ l, match l with LPop a => Some a | _ => None end) tr.

Definition qsys_init (sz : nat) (mem : list ptr) : qsys :=
  {| que := queue_init sz mem; available := mk_cond 0 0;
     available_not_empty := mk_cond 0 0 |}.

(** No wake-up is lost: while a thread sleeps for data (for space), every
    element (every free cell) has a signalled thread on its way to it. *)
Record qsys_inv (s : qsys) : Prop := {
  inv_wf : queue_wf (que s);
  inv_available : asleep (available s) = 0 ∨
                  length (contents (que s)) ≤ signalled (available s);
  inv_space : asleep (available_not_empty s) = 0 ∨
              size (que s) - 1 - length (contents (que s))
                ≤ signalled (available_not_empty s);
}.

(** What each critical section does to a well-formed system, by case. *)
Lemma queue_push_cases q (d : ptr) :
  queue_wf q →
  (length (contents q) = size q - 1 ∧ queue_full q = Ret true ∧
     queue_push q d = Ret ((-1)%Z, q)) ∨
  (length (contents q) < size q - 1 ∧ queue_full q = Ret false ∧
     ∃ q', queue_push q d = Ret (0%Z, q') ∧ queue_wf q' ∧ size q' = size q ∧
           contents q' = contents q ++ [d]).
Proof.
  intros Hwf. rewrite queue_full_spec by done.
  destruct (decide (length (contents q) = size q - 1)) as [Hf|Hnf].
  - left. rewrite bool_decide_true by done. eauto using queue_push_full.
  - right. rewrite bool_decide_false by done.
    pose proof (length_contents q). pose proof (wf_elements q Hwf).
    split; [lia|]. split; [done|]. by apply queue_push_not_full.
Qed.

Lemma queue_pop_cases q :
  queue_wf q →
  (contents q = [] ∧ queue_pop q = Ret (None, q)) ∨
  (∃ d ds q', contents q = d :: ds ∧ queue_pop q = Ret (d, q') ∧
     queue_wf q' ∧ size q' = size q ∧ contents q' = ds).
Proof.
  intros Hwf. destruct (contents q) as [|d ds] eqn:Hc.
  - left. auto using queue_pop_empty.
  - right. destruct (queue_pop_nonempty q d ds Hwf Hc) as (q' & ? & ? & ? & ?).
    eauto 10.
Qed.

(** The effect of a step on the abstract contents. *)
Definition qlabel_effect (l : qlabel) (xs xs' : list A) : Prop :=
  match l with
  | LPush a => xs' = xs ++ [a]
  | LPop a => xs = a :: xs'
  | LSilent => xs' = xs
  end.

#[local] Hint Extern 1 (qlabel_effect _ _ _) => reflexivity : core.

Local Ltac solve_cond :=
  unfold w_cond_signal, cond_sleep, cond_wake, cond_timeout, cond_spurious in *;
  simpl in *;
  repeat match goal with
  | |- context [asleep ?c] => is_var c; destruct c as [[|?] ?]; simpl in *
  end;
  rewrite ?length_app in *; simpl in *; lia.

(** The invariant with one signalled thread of each kind already on its way:
    what holds while an operation runs, whether it was just called or its
    thread was just woken. *)
Record qsys_inv_run (s : qsys) : Prop := {
  run_wf : queue_wf (que s);
  run_available : asleep (available s) = 0 ∨
                  length (contents (que s)) - 1 ≤ signalled (available s);
  run_space : asleep (available_not_empty s) = 0 ∨
              size (que s) - 1 - length (contents (que s)) - 1
                ≤ signalled (available_not_empty s);
}.

Lemma qsys_inv_runs s : qsys_inv s → qsys_inv_run s.
Proof. intros []. split; [done|lia|lia]. Qed.

Lemma qsys_inv_wake_available s :
  qsys_inv s → qsys_inv_run (on_available cond_wake s).
Proof. intros [? Ha Hs]. split; simpl; [done|lia|lia]. Qed.

Lemma qsys_inv_wake_space s :
  qsys_inv s → qsys_inv_run (on_space cond_wake s).
Proof. intros [? Ha Hs]. split; simpl; [done|lia|lia]. Qed.

Lemma push_effect s a q' n2 xs :
  qsys_inv_run s →
  (asleep (available s) = 0 ∨
     length (contents (que s)) ≤ signalled (available s)) →
  contents (que s) = Some <$> xs →
  length (contents (que s)) < size (que s) - 1 →
  queue_wf q' → size q' = size (que s) →
  contents q' = contents (que s) ++ [Some a] →
  n2 = available_not_empty s ∨ n2 = w_cond_signal (available_not_empty s) →
  qsys_inv {| que := q'; available := w_cond_signal (available s);
              available_not_empty := n2 |} ∧
  contents q' = Some <$> (xs ++ [a]).
Proof.
  intros [Hwf _ Hs] Ha Hxs Hlt Hwf' Hsz Hc Hn2.
  split; [|by rewrite Hc, Hxs, fmap_app].
  destruct s as [q av sp]; simpl in *.
  split; simpl; [done| |]; rewrite ?Hc, ?Hsz.
  - solve_cond.
  - destruct Hn2 as [->| ->]; solve_cond.
Qed.

Lemma pop_effect s d ds q' xs :
  qsys_inv_run s →
  (asleep (available_not_empty s) = 0 ∨
     size (que s) - 1 - length (contents (que s))
       ≤ signalled (available_not_empty s)) →
  contents (que s) = Some <$> xs → contents (que s) = d :: ds →
  queue_wf q' → size q' = size (que s) → contents q' = ds →
  qsys_inv {| que := q'; available := available s;
              available_not_empty := w_cond_signal (available_not_empty s) |} ∧
  ∃ a xs', d = Some a ∧ xs = a :: xs' ∧ contents q' = Some <$> xs'.
Proof.
  intros [Hwf Ha _] Hs Hxs Hc Hwf' Hsz Hc'. split.
  - rewrite Hc in *. pose proof (wf_elements _ Hwf) as He.
    rewrite <- length_contents, Hc in He.
    destruct s as [q av sp]; simpl in *.
    split; simpl; [done| |]; rewrite ?Hc', ?Hsz; solve_cond.
  - rewrite Hc in Hxs. destruct xs as [|a xs]; [done|]. simpl in Hxs.
    injection Hxs as -> ->. eauto.
Qed.

(** One pass of the blocking push, from a running state. *)
Lemma push_block_effect s a r s' xs :
  qsys_inv_run s →
  (asleep (available s) = 0 ∨
     length (contents (que s)) ≤ signalled (available s)) →
  contents (que s) = Some <$> xs →
  queue_push_ex_block s (Some a) = Ret (r, s') →
  qsys_inv s' ∧ contents (que s') = Some <$> (match r with Some _ => xs ++ [a] | None => xs end) ∧
  r ≠ Some (-1)%Z.
Proof.
  intros Hrun Ha Hxs. unfold queue_push_ex_block.
  destruct (queue_push_cases (que s) (Some a) (run_wf s Hrun))
    as [(Hl & Hfull & _)|(Hl & Hfull & q' & Hpush & Hwf' & Hsz & Hc)];
    rewrite Hfull; simpl; [|rewrite Hpush; simpl]; intros [= <- <-]; simpl.
  - split; [|done]. destruct Hrun. split; simpl; [done|done|lia].
  - edestruct (push_effect s a q') as [Hinv Hxs']; eauto.
Qed.

(** One pass of the blocking pop, from a running state. *)
Lemma pop_ex_effect s d s' xs :
  qsys_inv_run s →
  (asleep (available_not_empty s) = 0 ∨
     size (que s) - 1 - length (contents (que s))
       ≤ signalled (available_not_empty s)) →
  contents (que s) = Some <$> xs →
  queue_pop_ex s = Ret (d, s') →
  qsys_inv s' ∧ ∃ xs', contents (que s') = Some <$> xs' ∧
                       qlabel_effect (pop_label d) xs xs'.
Proof.
  intros Hrun Hs Hxs. unfold queue_pop_ex.
  destruct (queue_pop_cases (que s) (run_wf s Hrun))
    as [(Hnil & Hpop)|(d0 & ds & q' & Hc & Hpop & Hwf' & Hsz & Hc')];
    rewrite Hpop; simpl.
  - intros [= <- <-]; simpl. split; [|by exists xs].
    destruct Hrun. split; simpl; [done|rewrite Hnil; simpl; lia|done].
  - destruct (pop_effect s d0 ds q' xs) as [Hinv (a & xs' & -> & -> & Hxs')];
      try done.
    intros [= <- <-]; simpl in *. eauto.
Qed.

Lemma qstep_effect s l s' xs :
  qstep s l s' → qsys_inv s → contents (que s) = Some <$> xs →
  qsys_inv s' ∧ ∃ xs', contents (que s') = Some <$> xs' ∧ qlabel_effect l xs xs'.
Proof.
  intros Hstep Hinv Hxs. pose proof (qsys_inv_runs s Hinv) as Hrun.
  pose proof (inv_available s Hinv) as Ha. pose proof (inv_space s Hinv) as Hsp.
  destruct Hstep as [s a s' H|s a s' H|s a r s' H|s a s' H|s a r s' Hw H
                    |s a s' Hw H|s d s' H|s d s' Hw H|s d s' H|s d s' H|s d s' Hw H|s d s' Hw H|s Hw|s Hw].
  1-2: unfold queue_push_ex in H;
    destruct (queue_push_cases (que s) (Some a) (inv_wf s Hinv))
      as [(Hl & _ & Hp)|(Hl & _ & q' & Hp & Hwf' & Hsz & Hc)];
    rewrite Hp in H; simpl in H; simplify_eq; simpl.
  - destruct (push_effect s a q' (available_not_empty s) xs) as [? Hxs']; eauto 10.
  - split; [destruct s; exact Hinv|by exists xs].
  - eapply push_block_effect in H as (? & Hxs' & ?); eauto.
  - eapply push_block_effect in H as (? & Hxs' & ?); eauto.
  - eapply push_block_effect in H as (? & Hxs' & ?);
      eauto using qsys_inv_wake_space.
  - eapply push_block_effect in H as (? & Hxs' & ?);
      eauto using qsys_inv_wake_space.
  - by eapply pop_ex_effect in H.
  - eapply pop_ex_effect in H; eauto using qsys_inv_wake_available.
  - unfold try_queue_pop_ex in H.
    destruct (queue_pop_cases (que s) (inv_wf s Hinv))
      as [(Hnil & Hp)|(d0 & ds & q' & Hc & Hp & Hwf' & Hsz & Hc')];
      rewrite Hp in H; simpl in H; simplify_eq; simpl.
    + split; [destruct s; exact Hinv|by exists xs].
    + destruct (pop_effect s d (contents q') q' xs)
        as [Hinv' (a & xs' & -> & -> & Hxs')]; try done. eauto.
  - by eapply pop_ex_effect in H.
  - eapply pop_ex_effect in H; eauto using qsys_inv_wake_available.
  - injection H as <- <-. split; [|by exists xs]. destruct Hinv.
    split; simpl; [done|lia|lia].
  - split; [|by exists xs]. destruct Hinv. split; simpl; [done|lia|lia].
  - split; [|by exists xs]. destruct Hinv. split; simpl; [done|lia|lia].
Qed.

Lemma qexec_inv sz mem tr s :
  0 < sz → length mem = sz → qexec (qsys_init sz mem) tr s →
  qsys_inv s ∧ ∃ xs, contents (que s) = Some <$> xs ∧
                     pushed tr = popped tr ++ xs.
Proof.
  intros Hsz Hmem Hex. remember (qsys_init sz mem) as s0 eqn:Hs0.
  induction Hex as [s|s tr s' l s'' Hex IH Hstep]; subst.
  - split; [|by exists []].
    split; simpl; [by apply queue_init_wf|by left|by left].
  - destruct (IH eq_refl) as [Hinv (xs & Hxs & Htr)].
    destruct (qstep_effect s' l s'' xs Hstep Hinv Hxs) as [Hinv' (xs' & Hxs' & Heff)].
    split; [done|]. exists xs'. split; [done|].
    unfold pushed, popped in *. rewrite !omap_app, Htr.
    destruct l; simpl in *; subst; simpl; rewrite ?app_nil_r, <- ?app_assoc; done.
Qed.

(** No operation changes the capacity. *)
Lemma queue_push_size q (d : ptr) r q' :
  queue_push q d = Ret (r, q') → size q' = size q.
Proof.
  unfold queue_push. intros (b & _ & H)%outcome_bind_Ret_inv.
  destruct b; [by simplify_eq|].
  apply outcome_bind_Ret_inv in H as (? & _ & H).
  apply outcome_bind_Ret_inv in H as (? & _ & H). by simplify_eq.
Qed.

Lemma queue_pop_size q (d : ptr) q' : queue_pop q = Ret (d, q') → size q' = size q.
Proof.
  unfold queue_pop. destruct (queue_empty q); [by intros; simplify_eq|].
  intros (? & _ & H)%outcome_bind_Ret_inv.
  apply outcome_bind_Ret_inv in H as (? & _ & H). by simplify_eq.
Qed.

Lemma push_ex_block_size s (d : ptr) r s' :
  queue_push_ex_block s d = Ret (r, s') → size (que s') = size (que s).
Proof.
  unfold queue_push_ex_block. intros (b & _ & H)%outcome_bind_Ret_inv.
  destruct b; [by simplify_eq|].
  apply outcome_bind_Ret_inv in H as ([??] & Hp & H).
  simplify_eq. by eapply queue_push_size.
Qed.

Lemma pop_ex_size s (d : ptr) s' :
  queue_pop_ex s = Ret (d, s') → size (que s') = size (que s).
Proof.
  unfold queue_pop_ex. intros ([[]?] & Hp & H)%outcome_bind_Ret_inv;
    simplify_eq; by eapply queue_pop_size.
Qed.

Lemma qstep_size s l s' : qstep s l s' → size (que s') = size (que s).
Proof.
  destruct 1 as [??? H|??? H|???? H|??? H|????? H|???? H|??? H|???? H|??? H
                |??? H|???? H|???? H| | ];
    try done;
    try (apply push_ex_block_size in H; exact H);
    try (apply pop_ex_size in H; exact H).
  1-2: unfold queue_push_ex in H.
  3: unfold try_queue_pop_ex in H.
  4: by simplify_eq/=.
  all: apply outcome_bind_Ret_inv in H as ([??] & Hp & H); simplify_eq; simpl;
    eauto using queue_push_size, queue_pop_size.
Qed.

Lemma qexec_size s tr s' : qexec s tr s' → size (que s') = size (que s).
Proof. induction 1; [done|]. etrans; [by eapply qstep_size|done]. Qed.

(** C31: FIFO, exactly-once delivery.  In every interleaving of producers and
    consumers (blocking, non-blocking and timed) on a queue of [sz] cells, the
    elements pushed so far are exactly the elements popped so far, in the
    order of their pushes, followed by the elements still in the ring, and
    the ring never holds more than [sz - 1] of them. *)
Theorem queue_fifo_delivery sz (mem : list ptr) tr s :
  0 < sz → length mem = sz → qexec (qsys_init sz mem) tr s →
  ∃ xs, contents (que s) = Some <$> xs ∧ pushed tr = popped tr ++ xs ∧
        length xs < sz.
Proof.
  intros Hsz Hmem Hex.
  destruct (qexec_inv sz mem tr s Hsz Hmem Hex) as [Hinv (xs & Hxs & Htr)].
  exists xs. split_and!; [done|done|].
  pose proof (wf_elements _ (inv_wf s Hinv)) as He.
  rewrite <- length_contents, Hxs, length_fmap, (qexec_size _ _ _ Hex) in He.
  exact He.
Qed.

(** C32: no lost wake-up.  In every reachable state, if a consumer sleeps while
    the ring holds data, some consumer has been signalled and will find it; if
    a blocked producer sleeps while the ring has a free cell, some producer
    has been signalled and will find it. *)
Theorem queue_no_lost_wakeup sz (mem : list ptr) tr s :
  0 < sz → length mem = sz → qexec (qsys_init sz mem) tr s →
  (0 < asleep (available s) → contents (que s) ≠ [] →
     0 < signalled (available s)) ∧
  (0 < asleep (available_not_empty s) → queue_full (que s) = Ret false →
     0 < signalled (available_not_empty s)).
Proof.
  intros Hsz Hmem Hex.
  destruct (qexec_inv sz mem tr s Hsz Hmem Hex) as [[Hwf Ha Hs] _]. split.
  - intros Hsl Hne. destruct Ha as [Ha|Ha]; [lia|].
    destruct (contents (que s)); [done|]. simpl in *. lia.
  - intros Hsl Hnf. destruct Hs as [Hs|Hs]; [lia|].
    destruct (queue_push_cases (que s) None Hwf) as [(_ & Hf & _)|(Hlt & _)];
      [congruence|lia].
Qed.

(** Memory safety.  In every reachable state every operation of the queue
    returns: it never divides by zero nor reads or writes outside the ring. *)
Theorem queue_operations_safe sz (mem : list ptr) tr s d :
  0 < sz → length mem = sz → qexec (qsys_init sz mem) tr s →
  (∃ r, queue_push_ex s d = Ret r) ∧ (∃ r, queue_push_ex_block s d = Ret r) ∧
  (∃ r, queue_pop_ex s = Ret r) ∧ (∃ r, try_queue_pop_ex s = Ret r) ∧
  (∀ b, ∃ r, queue_pop_ex_timedwait s b = Ret r).
Proof.
  intros Hsz Hmem Hex.
  destruct (qexec_inv sz mem tr s Hsz Hmem Hex) as [[Hwf _ _] _].
  unfold queue_push_ex, queue_push_ex_block, queue_pop_ex, try_queue_pop_ex,
    queue_pop_ex_timedwait.
  destruct (queue_push_cases (que s) d Hwf)
    as [(_ & Hf & Hp)|(_ & Hf & q' & Hp & _)]; rewrite Hf, Hp; simpl;
  destruct (queue_pop_cases (que s) Hwf) as [(_ & Ho)|(d0 & ds & q0 & _ & Ho & _)];
    rewrite Ho; simpl; try destruct d0; split_and!; eauto; intros []; eauto.
Qed.

End queue.
Arguments w_queue : clear implicits.
Arguments qsys : clear implicits.
Arguments qlabel : clear implicits.

(** *** Witnesses *)

Definition demo_mem : list (option nat) := replicate 3 None.

(** Two pushes, a failed third one, a pop, and a consumer put to sleep. *)
Definition demo_run : qsys nat * list (qlabel nat) :=
  let s0 := qsys_init 3 demo_mem in
  match queue_push_ex s0 (Some 7) with
  | Ret (_, s1) =>
      match queue_pop_ex s1 with
      | Ret (_, s2) =>
          match queue_pop_ex s2 with
          | Ret (_, s3) => (s3, [LPush 7; LPop 7; LSilent])
          | _ => (s0, [])
          end
      | _ => (s0, [])
      end
  | _ => (s0, [])
  end.

Lemma demo_exec : qexec (qsys_init 3 demo_mem) (snd demo_run) (fst demo_run).
Proof.
  change (snd demo_run) with ((([] ++ [LPush 7]) ++ [LPop 7]) ++ [@LSilent nat]).
  eapply qexec_snoc; [eapply qexec_snoc; [eapply qexec_snoc; [apply qexec_nil|]|]|].
  - eapply step_push_ex. reflexivity.
  - eapply (step_pop_ex _ (Some 7)). reflexivity.
  - eapply (step_pop_ex _ None). reflexivity.
Qed.

Lemma queue_fifo_delivery_witness :
  ∃ xs, contents (que (fst demo_run)) = Some <$> xs ∧
        pushed (snd demo_run) = popped (snd demo_run) ++ xs ∧ length xs < 3.
Proof.
  apply (queue_fifo_delivery 3 demo_mem _ _ ltac:(lia) eq_refl demo_exec).
Defined.

Lemma queue_no_lost_wakeup_witness :
  asleep (available (fst demo_run)) = 1 ∧
  (0 < asleep (available (fst demo_run)) → contents (que (fst demo_run)) ≠ [] →
     0 < signalled (available (fst demo_run))).
Proof.
  split; [reflexivity|].
  apply (queue_no_lost_wakeup 3 demo_mem _ _ ltac:(lia) eq_refl demo_exec).
Defined.

Lemma queue_operations_safe_witness :
  ∃ r, queue_push_ex (fst demo_run) (Some 1) = Ret r.
Proof.
  apply (queue_operations_safe 3 demo_mem _ _ (Some 1) ltac:(lia) eq_refl demo_exec).
Defined.
