(* ===== verification/BQueue.v ===== *)
(** * The binary queue of [shared/src/bqueue_op.c]

    [bqueue_t] is a circular byte buffer that grows up to [max_length], gives
    memory back when it empties (and, with [BQUEUE_SHRINK], when less than
    half of it is used), and moves its bytes around with [memcpy] and
    [memmove] when it does.  The pointers [head] and [tail] are offsets from
    [memory]; [NULL] memory is the empty block.  An operation that has to
    wait for the other side of the queue returns no result. *)

From stdpp Require Import base numbers list.
From Stdlib Require Import Lia ZArith NArith.
From S2P Require Import Prelude.

Definition BQUEUE_NOFLAG : N := 0.
Definition BQUEUE_WAIT : N := 1.
Definition BQUEUE_SHRINK : N := 2.

Definition flag_set (flags flag : N) : bool := negb (N.land flags flag =? 0)%N.

Section bqueue.
Context {A : Type} (uninit : nat → A).

Record bqueue : Type := mk_bqueue {
  memory : list A;
  head : nat;
  tail : nat;
  length_ : nat;
  max_length : nat;
  flags : N;
}.

Definition bqueue_init (max_len : nat) (fl : N) : option bqueue :=
  if decide (max_len ≤ 1) then None
  else Some {| memory := []; head := 0; tail := 0; length_ := 0;
               max_length := max_len; flags := fl |}.

Definition _bqueue_used (q : bqueue) : outcome nat :=
  if decide (0 < length_ q)
  then c_mod (tail q + length_ q - head q) (length_ q)
  else Ret 0.

Definition _bqueue_empty (q : bqueue) : bool := bool_decide (head q = tail q).

Definition _bqueue_expand (q : bqueue) (new_length : nat) : outcome bqueue :=
  let mem := c_realloc uninit (memory q) new_length in
  '(mem', tail') ←
    (if decide (tail q < head q) then
       let tail_len := tail q in
       let growth := new_length - length_ q in
       if decide (tail_len ≤ growth) then
         m1 ← c_memcpy mem (length_ q) 0 tail_len;
         t1 ← c_mod (length_ q + tail_len) new_length;
         Ret (m1, t1)
       else
         m1 ← c_memcpy mem (length_ q) 0 growth;
         m2 ← c_memmove m1 0 growth (tail_len - growth);
         Ret (m2, tail q - growth)
     else Ret (mem, tail q));
  Ret {| memory := mem'; head := head q; tail := tail'; length_ := new_length;
         max_length := max_length q; flags := flags q |}.

Definition _bqueue_shrink (q : bqueue) (new_length : nat) : outcome bqueue :=
  '(mem', head', tail') ←
    (if _bqueue_empty q then Ret (memory q, 0, 0)
     else
       let head_len := head q in
       let tail_len := tail q in
       if decide (head_len < tail_len) then
         if decide (new_length ≤ head_len) then
           m1 ← c_memcpy (memory q) 0 head_len (tail q - head q);
           Ret (m1, 0, tail q - head_len)
         else if decide (new_length ≤ tail_len) then
           let chunk_len := tail_len - new_length in
           m1 ← c_memcpy (memory q) 0 (tail q - chunk_len) chunk_len;
           Ret (m1, head q, chunk_len)
         else Ret (memory q, head q, tail q)
       else
         let new_head := head q - (length_ q - new_length) in
         m1 ← (if decide (head_len < new_length)
               then c_memmove (memory q) new_head (head q) (length_ q - head_len)
               else c_memcpy (memory q) new_head (head q) (length_ q - head_len));
         Ret (m1, new_head, tail q));
  Ret {| memory := c_realloc uninit mem' new_length; head := head';
         tail := tail'; length_ := new_length;
         max_length := max_length q; flags := flags q |}.

Definition _bqueue_insert (q : bqueue) (data : list A) : outcome bqueue :=
  let data_len := length data in
  let tail_len := tail q in
  mem' ←
    (if decide (tail_len + data_len ≤ length_ q) then c_store (memory q) (tail q) data
     else
       let chunk_len := length_ q - tail_len in
       m1 ← c_store (memory q) (tail q) (take chunk_len data);
       c_store m1 0 (drop chunk_len data));
  tail' ← c_mod (tail_len + data_len) (length_ q);
  Ret {| memory := mem'; head := head q; tail := tail'; length_ := length_ q;
         max_length := max_length q; flags := flags q |}.

(** The bytes copied to the caller's buffer; the result of the C function is
    their number. *)
Definition _bqueue_extract (q : bqueue) (buffer_len : nat) : outcome (list A) :=
  if decide (tail q < head q) then
    let head_len := length_ q - head q in
    if decide (buffer_len < head_len) then c_slice (memory q) (head q) buffer_len
    else
      b1 ← c_slice (memory q) (head q) head_len;
      let rest := buffer_len - head_len in
      let used := tail q in
      b2 ← c_slice (memory q) 0 (if decide (rest < used) then rest else used);
      Ret (b1 ++ b2)
  else
    let used := tail q - head q in
    c_slice (memory q) (head q) (if decide (buffer_len < used) then buffer_len else used).

Definition _bqueue_trim (q : bqueue) : bqueue :=
  {| memory := []; head := 0; tail := 0; length_ := 0;
     max_length := max_length q; flags := flags q |}.

(** [None]: the calling thread sleeps on [cond_popped]. *)
Definition bqueue_push (q : bqueue) (data : list A) (fl : N) : outcome (option Z * bqueue) :=
  let len := length data in
  if decide (max_length q ≤ len) then Ret (Some (-1)%Z, q)
  else
    used ← _bqueue_used q;
    if decide (max_length q ≤ len + used) then
      if flag_set fl BQUEUE_WAIT then Ret (None, q) else Ret (Some (-1)%Z, q)
    else
      q1 ← (if decide (length_ q ≤ len + used)
            then _bqueue_expand q (len + used + 1) else Ret q);
      q2 ← _bqueue_insert q1 data;
      Ret (Some 0%Z, q2).

(** The common end of [bqueue_pop] and [bqueue_drop]. *)
Definition bqueue_advance (q : bqueue) (n : nat) : outcome bqueue :=
  head' ← c_mod (head q + n) (length_ q);
  let q1 := {| memory := memory q; head := head'; tail := tail q;
               length_ := length_ q; max_length := max_length q; flags := flags q |} in
  if _bqueue_empty q1 then Ret (_bqueue_trim q1)
  else if flag_set (flags q1) BQUEUE_SHRINK then
    used ← _bqueue_used q1;
    if decide (used < length_ q1 `div` 2)
    then _bqueue_shrink q1 (length_ q1 `div` 2) else Ret q1
  else Ret q1.

(** [None]: the calling thread sleeps on [cond_pushed]. *)
Definition bqueue_pop (q : bqueue) (len : nat) (fl : N) : outcome (option (list A) * bqueue) :=
  if _bqueue_empty q then
    if flag_set fl BQUEUE_WAIT then Ret (None, q) else Ret (Some [], q)
  else
    bytes ← _bqueue_extract q len;
    q1 ← bqueue_advance q (length bytes);
    Ret (Some bytes, q1).

Definition bqueue_peek (q : bqueue) (len : nat) (fl : N) : outcome (option (list A)) :=
  if _bqueue_empty q then
    if flag_set fl BQUEUE_WAIT then Ret None else Ret (Some [])
  else bytes ← _bqueue_extract q len; Ret (Some bytes).

Definition bqueue_drop (q : bqueue) (len : nat) : outcome (Z * bqueue) :=
  used ← _bqueue_used q;
  if decide (len ≤ used) then
    q1 ← bqueue_advance q len;
    Ret (0%Z, q1)
  else Ret ((-1)%Z, q).

Definition bqueue_used (q : bqueue) : outcome nat := _bqueue_used q.

Definition bqueue_clear (q : bqueue) : bqueue := _bqueue_trim q.

(** ** Abstraction: the queue is the string of bytes it holds *)

Definition contents (q : bqueue) : list A :=
  if decide (head q ≤ tail q)
  then take (tail q - head q) (drop (head q) (memory q))
  else drop (head q) (memory q) ++ take (tail q) (memory q).

(** The pointers stay inside the block, or the block is [NULL]. *)
Record bqueue_wf (q : bqueue) : Prop := {
  wf_max : 1 < max_length q;
  wf_memory : length (memory q) = length_ q;
  wf_length : length_ q ≤ max_length q;
  wf_ptrs : (length_ q = 0 ∧ head q = 0 ∧ tail q = 0) ∨
            (head q < length_ q ∧ tail q < length_ q);
}.

Lemma bq_length_contents q :
  bqueue_wf q →
  length (contents q) =
    if decide (head q ≤ tail q) then tail q - head q
    else length_ q - head q + tail q.
Proof.
  intros []. unfold contents. case_decide.
  - rewrite length_take, length_drop. lia.
  - rewrite length_app, length_take, length_drop. lia.
Qed.

Lemma bq_used_spec q : bqueue_wf q → _bqueue_used q = Ret (length (contents q)).
Proof.
  intros Hwf. rewrite bq_length_contents by done. destruct Hwf.
  unfold _bqueue_used. case_decide; [|case_decide; f_equal; lia].
  rewrite c_mod_pos by done. f_equal.
  ring_mod_at (tail q + length_ q - head q) (length_ q); case_decide; lia.
Qed.

Lemma bq_empty_spec q : bqueue_wf q → _bqueue_empty q = bool_decide (contents q = []).
Proof.
  intros Hwf. pose proof (bq_length_contents q Hwf) as Hl. destruct Hwf.
  unfold _bqueue_empty. apply bool_decide_ext.
  rewrite <- length_zero_iff_nil, Hl. case_decide; lia.
Qed.

Lemma contents_lt_length q :
  bqueue_wf q → length (contents q) < length_ q ∨ (length_ q = 0 ∧ contents q = []).
Proof.
  intros Hwf. pose proof (bq_length_contents q Hwf) as Hl. destruct Hwf.
  destruct wf_ptrs0 as [(?&?&?)|?].
  - right. split; [done|]. apply length_zero_iff_nil. rewrite Hl. case_decide; lia.
  - left. rewrite Hl. case_decide; lia.
Qed.

Lemma bqueue_init_wf max_len fl q :
  bqueue_init max_len fl = Some q →
  bqueue_wf q ∧ contents q = [] ∧ max_length q = max_len.
Proof.
  unfold bqueue_init. case_decide; intros [= <-].
  split; [|done]. split; simpl; [lia|done|lia|by left].
Qed.

(** Growing the block keeps the bytes in order, wherever they wrap. *)
Lemma expand_spec q n :
  bqueue_wf q → length (contents q) < n → length_ q ≤ n → n ≤ max_length q →
  ∃ q', _bqueue_expand q n = Ret q' ∧ bqueue_wf q' ∧ length_ q' = n ∧
        max_length q' = max_length q ∧ flags q' = flags q ∧
        contents q' = contents q.
Proof.
  intros Hwf Hused Hn Hmax. pose proof (bq_length_contents q Hwf) as Hl.
  destruct Hwf as [Hm Hmem Hlen Hp]. unfold _bqueue_expand.
  destruct (decide (tail q < head q)) as [Hw|Hw].
  - rewrite decide_False in Hl by lia. destruct (decide (tail q ≤ n - length_ q)).
    + rewrite c_memcpy_ok by block_len. rewrite c_mod_pos by lia. simpl.
      eexists; split; [reflexivity|].
      destruct (decide (length_ q + tail q < n)) as [Hlt|Hge].
      * rewrite (Nat.mod_small (length_ q + tail q)) by lia.
        split_and!; try done; [split; simpl; try lia; block_len|].
        unfold contents; simpl. rewrite decide_True by lia.
        rewrite decide_False by lia. list_cells.
      * rewrite mod_wrap by lia.
        split_and!; try done; [split; simpl; try lia; block_len|].
        unfold contents; simpl. rewrite !decide_False by lia. list_cells.
    + rewrite c_memcpy_ok by block_len. simpl.
      assert (splice (c_realloc uninit (memory q) n) (length_ q)
                (take (n - length_ q) (drop 0 (c_realloc uninit (memory q) n)))
              = memory q ++ take (n - length_ q) (memory q)) as -> by list_cells.
      rewrite c_memmove_ok by block_len. simpl. eexists; split; [reflexivity|].
      split_and!; try done; [split; simpl; try lia; block_len|].
      unfold contents; simpl. rewrite !decide_False by lia. list_cells.
  - simpl. eexists; split; [reflexivity|].
    split_and!; try done; [split; simpl; try lia; block_len|].
    unfold contents; simpl. rewrite !decide_True by lia. list_cells.
Qed.

(** Shrinking the block keeps the bytes in order, and every copy it makes is
    between disjoint ranges where the code uses [memcpy]. *)
Lemma shrink_spec q n :
  bqueue_wf q → contents q ≠ [] → length (contents q) < n → n ≤ length_ q →
  ∃ q', _bqueue_shrink q n = Ret q' ∧ bqueue_wf q' ∧ length_ q' = n ∧
        max_length q' = max_length q ∧ flags q' = flags q ∧
        contents q' = contents q.
Proof.
  intros Hwf Hne Hused Hn. pose proof (bq_length_contents q Hwf) as Hl.
  unfold _bqueue_shrink. rewrite bq_empty_spec by done.
  rewrite bool_decide_false by done.
  assert (Hht : head q ≠ tail q).
  { intros E. apply Hne, length_zero_iff_nil. rewrite Hl, E.
    rewrite decide_True by lia. lia. }
  clear Hne. destruct Hwf as [Hm Hmem Hlen Hp].
  destruct (decide (head q < tail q)) as [Hw|Hw].
  - rewrite decide_True in Hl by lia.
    destruct (decide (n ≤ head q)); [|destruct (decide (n ≤ tail q))].
    + rewrite c_memcpy_ok by lia. simpl. eexists; split; [reflexivity|].
      split_and!; try done; [split; simpl; try lia; block_len|].
      unfold contents; simpl. rewrite !decide_True by lia. list_cells.
    + rewrite c_memcpy_ok by lia. simpl. eexists; split; [reflexivity|].
      split_and!; try done; [split; simpl; try lia; block_len|].
      unfold contents; simpl. rewrite decide_False by lia.
      rewrite decide_True by lia. list_cells.
    + simpl. eexists; split; [reflexivity|].
      split_and!; try done; [split; simpl; try lia; block_len|].
      unfold contents; simpl. rewrite !decide_True by lia. list_cells.
  - rewrite decide_False in Hl by lia.
    assert (Hcopy : (if decide (head q < n)
               then c_memmove (memory q) (head q - (length_ q - n)) (head q) (length_ q - head q)
               else c_memcpy (memory q) (head q - (length_ q - n)) (head q) (length_ q - head q))
            = Ret (splice (memory q) (head q - (length_ q - n))
                     (take (length_ q - head q) (drop (head q) (memory q))))).
    { case_decide; [apply c_memmove_ok; lia|apply c_memcpy_ok; lia]. }
    rewrite Hcopy. simpl. eexists; split; [reflexivity|].
    split_and!; try done; [split; simpl; try lia; block_len|].
    unfold contents; simpl. rewrite !decide_False by lia. list_cells.
Qed.

Lemma insert_spec q data :
  bqueue_wf q → length (contents q) + length data < length_ q →
  ∃ q', _bqueue_insert q data = Ret q' ∧ bqueue_wf q' ∧
        max_length q' = max_length q ∧ flags q' = flags q ∧
        contents q' = contents q ++ data.
Proof.
  intros Hwf Hfit. pose proof (bq_length_contents q Hwf) as Hl.
  destruct Hwf as [Hm Hmem Hlen Hp]. unfold _bqueue_insert.
  destruct (decide (tail q + length data ≤ length_ q)) as [Hr|Hr].
  - rewrite c_store_ok by lia. rewrite c_mod_pos by lia. simpl.
    eexists; split; [reflexivity|].
    destruct (mod_once (tail q + length data) (length_ q))
      as [[Hx ->]|[Hx ->]]; [lia|lia| |].
    + split_and!; try done; [split; simpl; try lia; block_len|].
      unfold contents; simpl.
      destruct (decide (head q ≤ tail q)); [rewrite decide_True by lia
                                            |rewrite decide_False by lia]; list_cells.
    + split_and!; try done; [split; simpl; try lia; block_len|].
      unfold contents; simpl. destruct (decide (head q ≤ tail q)); [|lia].
      destruct (decide (head q = 0)); [lia|].
      rewrite decide_False by lia. list_cells.
  - rewrite c_store_ok by block_len. simpl. rewrite c_store_ok by block_len.
    rewrite c_mod_pos by lia. simpl. eexists; split; [reflexivity|].
    rewrite mod_wrap by lia. destruct (decide (head q ≤ tail q)); [|lia].
    split_and!; try done; [split; simpl; try lia; block_len|].
    unfold contents; simpl. rewrite decide_False by lia.
    rewrite decide_True by lia. list_cells.
Qed.

Lemma extract_spec q n :
  bqueue_wf q → _bqueue_extract q n = Ret (take n (contents q)).
Proof.
  intros [Hm Hmem Hlen Hp]. unfold _bqueue_extract, contents.
  destruct (decide (tail q < head q)) as [Hw|Hw].
  - rewrite (decide_False (P := head q ≤ tail q)) by lia.
    destruct (decide (n < length_ q - head q)).
    + rewrite c_slice_ok by lia. f_equal. list_cells.
    + rewrite !c_slice_ok by (repeat case_decide; lia). simpl. f_equal.
      case_decide; list_cells.
  - rewrite (decide_True (P := head q ≤ tail q)) by lia.
    rewrite c_slice_ok by (case_decide; lia).
    f_equal. case_decide; list_cells.
Qed.

(** Moving [head] forward drops a prefix; [length_ q = 0] is the case of a
    queue without memory, where the code divides by zero. *)
Lemma advance_spec q n :
  bqueue_wf q → 0 < length_ q → n ≤ length (contents q) →
  ∃ q', bqueue_advance q n = Ret q' ∧ bqueue_wf q' ∧
        max_length q' = max_length q ∧ flags q' = flags q ∧
        contents q' = drop n (contents q) ∧ (contents q' = [] → length_ q' = 0).
Proof.
  intros Hwf Hpos Hn. pose proof (bq_length_contents q Hwf) as Hl.
  unfold bqueue_advance. rewrite c_mod_pos, outcome_bind_ret by done. cbv zeta.
  set (q1 := mk_bqueue _ _ _ _ _ _).
  assert (Hwf1 : bqueue_wf q1).
  { destruct Hwf. split; simpl; [done..|].
    right. split; [apply Nat.mod_upper_bound; lia|lia]. }
  assert (Hc1 : contents q1 = drop n (contents q)).
  { destruct Hwf as [Hm Hmem Hlen Hp]. unfold contents, q1; simpl.
    destruct (decide (head q ≤ tail q)).
    - rewrite Nat.mod_small by lia. rewrite decide_True by lia. list_cells.
    - destruct (mod_once (head q + n) (length_ q)) as [[Hx ->]|[Hx ->]]; [lia|lia| |].
      + rewrite decide_False by lia. list_cells.
      + rewrite decide_True by lia. list_cells. }
  rewrite bq_empty_spec by done. case_bool_decide as He.
  - eexists; split; [reflexivity|]. destruct Hwf.
    split_and!; try done; [split; simpl; try lia; by left|].
    by rewrite <- Hc1, He.
  - rewrite bq_used_spec, outcome_bind_ret by done.
    destruct (flag_set (flags q1) BQUEUE_SHRINK); [|by exists q1].
    destruct (decide (length (contents q1) < length_ q1 `div` 2)) as [Hs|Hs];
      [|by exists q1].
    destruct (shrink_spec q1 (length_ q1 `div` 2)) as (q' & -> & ? & _ & ? & ? & ?);
      try done.
    + apply Nat.Div0.div_le_upper_bound. lia.
    + exists q'. rewrite <- Hc1. split_and!; try done. congruence.
Qed.

(** ** The operations against the abstract string *)

(** Whether [n] more bytes fit under the limit. *)
Definition fits (q : bqueue) (n : nat) : Prop :=
  length (contents q) + n < max_length q.

Lemma push_ok q data fl :
  bqueue_wf q → fits q (length data) →
  ∃ q', bqueue_push q data fl = Ret (Some 0%Z, q') ∧ bqueue_wf q' ∧
        max_length q' = max_length q ∧ flags q' = flags q ∧
        contents q' = contents q ++ data.
Proof.
  intros Hwf Hfit. unfold fits in Hfit. unfold bqueue_push.
  rewrite decide_False by lia. rewrite bq_used_spec by done. simpl.
  rewrite decide_False by lia.
  assert (∃ q1, (if decide (length_ q ≤ length data + length (contents q))
                 then _bqueue_expand q (length data + length (contents q) + 1)
                 else Ret q) = Ret q1 ∧ bqueue_wf q1 ∧
                length (contents q) + length data < length_ q1 ∧
                max_length q1 = max_length q ∧ flags q1 = flags q ∧
                contents q1 = contents q)
    as (q1 & -> & Hwf1 & Hl1 & Hm1 & Hf1 & Hc1).
  { case_decide.
    - destruct (expand_spec q (length data + length (contents q) + 1))
        as (q1 & -> & ? & ? & ? & ? & ?); [done|lia|lia|lia|].
      exists q1. split_and!; try done. lia.
    - exists q. split_and!; try done. lia. }
  simpl. destruct (insert_spec q1 data) as (q2 & -> & ? & ? & ? & Hc2);
    [done|rewrite Hc1; lia|].
  simpl. exists q2. rewrite Hc2, Hc1. split_and!; try done; congruence.
Qed.

Lemma push_no_room q data fl :
  bqueue_wf q → ¬ fits q (length data) →
  bqueue_push q data fl =
    Ret (if decide (max_length q ≤ length data) then Some (-1)%Z
         else if flag_set fl BQUEUE_WAIT then None else Some (-1)%Z, q).
Proof.
  intros Hwf Hfit. unfold fits in Hfit. unfold bqueue_push.
  case_decide; [done|]. rewrite bq_used_spec by done. simpl.
  rewrite decide_True by lia. by destruct (flag_set fl BQUEUE_WAIT).
Qed.

Lemma nonempty_has_memory q : bqueue_wf q → contents q ≠ [] → 0 < length_ q.
Proof.
  intros Hwf Hne. destruct (contents_lt_length q Hwf) as [|[? ?]]; [lia|done].
Qed.

Lemma pop_nonempty q n fl :
  bqueue_wf q → contents q ≠ [] →
  ∃ q', bqueue_pop q n fl = Ret (Some (take n (contents q)), q') ∧
        bqueue_wf q' ∧ max_length q' = max_length q ∧ flags q' = flags q ∧
        contents q' = drop n (contents q).
Proof.
  intros Hwf Hne. unfold bqueue_pop. rewrite bq_empty_spec by done.
  rewrite bool_decide_false by done. rewrite extract_spec, outcome_bind_ret by done.
  destruct (advance_spec q (length (take n (contents q))))
    as (q' & -> & ? & ? & ? & Hc & ?); [done|by apply nonempty_has_memory
                                   |rewrite length_take; lia|].
  simpl. exists q'. rewrite Hc, length_take. split_and!; try done.
  destruct (decide (n ≤ length (contents q))).
  - by rewrite Nat.min_l.
  - rewrite Nat.min_r, !drop_ge by lia. done.
Qed.

Lemma pop_empty q n fl :
  bqueue_wf q → contents q = [] →
  bqueue_pop q n fl =
    Ret (if flag_set fl BQUEUE_WAIT then None else Some [], q).
Proof.
  intros Hwf He. unfold bqueue_pop. rewrite bq_empty_spec by done.
  rewrite bool_decide_true by done. by destruct (flag_set fl BQUEUE_WAIT).
Qed.

Lemma peek_spec q n fl :
  bqueue_wf q →
  bqueue_peek q n fl =
    Ret (if decide (contents q = []) then
           if flag_set fl BQUEUE_WAIT then None else Some []
         else Some (take n (contents q))).
Proof.
  intros Hwf. unfold bqueue_peek. rewrite bq_empty_spec by done.
  destruct (decide (contents q = [])).
  - rewrite bool_decide_true by done. by destruct (flag_set fl BQUEUE_WAIT).
  - rewrite bool_decide_false by done. by rewrite extract_spec.
Qed.

Lemma drop_ok q n :
  bqueue_wf q → 0 < length_ q → n ≤ length (contents q) →
  ∃ q', bqueue_drop q n = Ret (0%Z, q') ∧ bqueue_wf q' ∧
        max_length q' = max_length q ∧ flags q' = flags q ∧
        contents q' = drop n (contents q).
Proof.
  intros Hwf Hpos Hn. unfold bqueue_drop. rewrite bq_used_spec by done. simpl.
  rewrite decide_True by done.
  destruct (advance_spec q n) as (q' & -> & ? & ? & ? & ? & ?); try done.
  simpl. by exists q'.
Qed.

Lemma drop_too_many q n :
  bqueue_wf q → length (contents q) < n → bqueue_drop q n = Ret ((-1)%Z, q).
Proof.
  intros Hwf Hn. unfold bqueue_drop. rewrite bq_used_spec by done. simpl.
  by rewrite decide_False by lia.
Qed.

(** A queue without memory divides by zero when asked to drop nothing. *)
Lemma drop_zero_no_memory q :
  bqueue_wf q → length_ q = 0 → bqueue_drop q 0 = Stuck DivByZero.
Proof.
  intros Hwf Hl. unfold bqueue_drop. rewrite bq_used_spec by done. simpl.
  unfold bqueue_advance. by rewrite Hl.
Qed.

Lemma trim_spec q :
  bqueue_wf q → bqueue_wf (bqueue_clear q) ∧ contents (bqueue_clear q) = [].
Proof. intros []. split; [|done]. split; simpl; [done|done|lia|by left]. Qed.

(** ** Sequences of operations against the specification *)

Inductive bop : Type :=
  | OpPush (data : list A) (fl : N)
  | OpPop (n : nat) (fl : N)
  | OpPeek (n : nat) (fl : N)
  | OpDrop (n : nat)
  | OpUsed
  | OpClear.

Inductive bres : Type :=
  | RInt (z : Z)
  | RBytes (bs : list A)
  | RSize (n : nat)
  | RDone
  | RWait.

Definition int_res (r : option Z) : bres := from_option RInt RWait r.
Definition bytes_res (r : option (list A)) : bres := from_option RBytes RWait r.

Definition bq_exec (q : bqueue) (op : bop) : outcome (bres * bqueue) :=
  match op with
  | OpPush data fl => '(r, q') ← bqueue_push q data fl; Ret (int_res r, q')
  | OpPop n fl => '(r, q') ← bqueue_pop q n fl; Ret (bytes_res r, q')
  | OpPeek n fl => r ← bqueue_peek q n fl; Ret (bytes_res r, q)
  | OpDrop n => '(r, q') ← bqueue_drop q n; Ret (RInt r, q')
  | OpUsed => n ← bqueue_used q; Ret (RSize n, q)
  | OpClear => Ret (RDone, bqueue_clear q)
  end.

Fixpoint bq_run (q : bqueue) (ops : list bop) : outcome (list bres * bqueue) :=
  match ops with
  | [] => Ret ([], q)
  | op :: ops =>
      '(r, q1) ← bq_exec q op;
      '(rs, q2) ← bq_run q1 ops;
      Ret (r :: rs, q2)
  end.

(** The contract: a string of at most [max - 1] bytes. *)
Definition spec_exec (max : nat) (xs : list A) (op : bop) : bres * list A :=
  match op with
  | OpPush data fl =>
      if decide (length xs + length data < max) then (RInt 0, xs ++ data)
      else if decide (max ≤ length data) then (RInt (-1), xs)
      else if flag_set fl BQUEUE_WAIT then (RWait, xs) else (RInt (-1), xs)
  | OpPop n fl =>
      match xs with
      | [] => if flag_set fl BQUEUE_WAIT then (RWait, []) else (RBytes [], [])
      | _ => (RBytes (take n xs), drop n xs)
      end
  | OpPeek n fl =>
      match xs with
      | [] => if flag_set fl BQUEUE_WAIT then (RWait, []) else (RBytes [], [])
      | _ => (RBytes (take n xs), xs)
      end
  | OpDrop n => if decide (n ≤ length xs) then (RInt 0, drop n xs) else (RInt (-1), xs)
  | OpUsed => (RSize (length xs), xs)
  | OpClear => (RDone, [])
  end.

Fixpoint spec_run (max : nat) (xs : list A) (ops : list bop) : list bres * list A :=
  match ops with
  | [] => ([], xs)
  | op :: ops =>
      let '(r, xs1) := spec_exec max xs op in
      let '(rs, xs2) := spec_run max xs1 ops in
      (r :: rs, xs2)
  end.

(** An operation the code can be asked to do: [bqueue_drop (q, 0)] is not one
    (see [bqueue_drop_zero_faults]). *)
Definition op_allowed (op : bop) : Prop :=
  match op with OpDrop n => 0 < n | _ => True end.

Lemma bq_exec_refines q op :
  bqueue_wf q → op_allowed op →
  ∃ q', bq_exec q op = Ret (fst (spec_exec (max_length q) (contents q) op), q') ∧
        bqueue_wf q' ∧ max_length q' = max_length q ∧
        contents q' = snd (spec_exec (max_length q) (contents q) op).
Proof.
  intros Hwf Hop. destruct op as [data fl|n fl|n fl|n| |]; simpl in *.
  - case_decide as Hfit.
    + destruct (push_ok q data fl Hwf Hfit) as (q' & -> & ? & ? & ? & ?).
      simpl. by exists q'.
    + rewrite (push_no_room q data fl Hwf Hfit). simpl.
      destruct (decide (max_length q ≤ length data));
        [|destruct (flag_set fl BQUEUE_WAIT)]; by exists q.
  - destruct (contents q) as [|x xs] eqn:Hc.
    + rewrite pop_empty by done. destruct (flag_set fl BQUEUE_WAIT); by exists q.
    + destruct (pop_nonempty q n fl Hwf) as (q' & -> & ? & ? & ? & Hc');
        [by rewrite Hc|]. rewrite Hc in *. by exists q'.
  - rewrite peek_spec by done. destruct (contents q) as [|x xs] eqn:Hc.
    + rewrite decide_True by done. destruct (flag_set fl BQUEUE_WAIT); by exists q.
    + rewrite decide_False by done. by exists q.
  - case_decide as Hn.
    + destruct (drop_ok q n Hwf) as (q' & -> & ? & ? & ? & ?); [|done|by exists q'].
      apply nonempty_has_memory; [done|]. destruct (contents q); [simpl in *; lia|done].
    + rewrite drop_too_many by (done || lia). by exists q.
  - unfold bqueue_used. rewrite bq_used_spec by done. by exists q.
  - destruct (trim_spec q Hwf). by exists (bqueue_clear q).
Qed.

Lemma bq_run_refines q ops :
  bqueue_wf q → Forall op_allowed ops →
  ∃ q', bq_run q ops = Ret (fst (spec_run (max_length q) (contents q) ops), q') ∧
        bqueue_wf q' ∧ max_length q' = max_length q ∧
        contents q' = snd (spec_run (max_length q) (contents q) ops).
Proof.
  intros Hwf Hops. revert q Hwf. induction Hops as [|op ops Hop _ IH]; intros q Hwf.
  - by exists q.
  - destruct (bq_exec_refines q op Hwf Hop) as (q1 & He & Hwf1 & Hm1 & Hc1).
    destruct (IH q1 Hwf1) as (q2 & Hr & Hwf2 & Hm2 & Hc2). exists q2. simpl.
    rewrite He. simpl. rewrite Hr. simpl. rewrite Hc1, Hm1 in *.
    destruct (spec_exec (max_length q) (contents q) op) as [r xs1]; simpl in *.
    destruct (spec_run (max_length q) xs1 ops) as [rs xs2]; simpl in *.
    split_and!; try done.
Qed.

Lemma contents_lt_max q : bqueue_wf q → length (contents q) < max_length q.
Proof.
  intros Hwf. destruct (contents_lt_length q Hwf) as [?|[_ ->]]; destruct Hwf; simpl; lia.
Qed.


(** [bqueue_pop] is [bqueue_peek] followed by [bqueue_drop], as its
    documentation says: the same bytes and the same resulting queue. *)
Theorem bqueue_pop_peek_drop max_len fl q0 ops rs q n pfl :
  bqueue_init max_len fl = Some q0 → Forall op_allowed ops →
  bq_run q0 ops = Ret (rs, q) → contents q ≠ [] →
  ∃ bytes q', bqueue_peek q n pfl = Ret (Some bytes) ∧
              bqueue_drop q (length bytes) = Ret (0%Z, q') ∧
              bqueue_pop q n pfl = Ret (Some bytes, q').
Proof.
  intros Hinit Hops Hrun Hne. destruct (bqueue_init_wf _ _ _ Hinit) as (Hwf0 & _).
  destruct (bq_run_refines q0 ops Hwf0 Hops) as (q1 & Hr & Hwf & _).
  rewrite Hrun in Hr. injection Hr as _ <-.
  unfold bqueue_peek, bqueue_pop, bqueue_drop.
  rewrite bq_empty_spec, bool_decide_false, extract_spec, bq_used_spec, !outcome_bind_ret by done.
  destruct (advance_spec q (length (take n (contents q))) Hwf) as (q' & Ha & _);
    [by apply nonempty_has_memory|rewrite length_take; lia|].
  exists (take n (contents q)), q'. rewrite outcome_bind_ret.
  rewrite decide_True by (rewrite length_take; lia). by rewrite Ha.
Qed.

(** C34: [bqueue_drop] with a length of zero, which its contract allows ("the
    queue contains at least length bytes"), divides by zero whenever the queue
    has no memory: right after [bqueue_init], and after any pop that took the
    last byte. *)
Theorem bqueue_drop_zero_faults max_len fl q0 ops rs q n pfl bytes q' :
  bqueue_init max_len fl = Some q0 → Forall op_allowed ops →
  bq_run q0 ops = Ret (rs, q) →
  bqueue_pop q n pfl = Ret (Some bytes, q') → bytes ≠ [] → contents q' = [] →
  bqueue_drop q0 0 = Stuck DivByZero ∧ bqueue_drop q' 0 = Stuck DivByZero.
Proof.
  intros Hinit Hops Hrun Hpop Hb Hc'.
  destruct (bqueue_init_wf _ _ _ Hinit) as (Hwf0 & _). split.
  - apply drop_zero_no_memory; [done|].
    revert Hinit. unfold bqueue_init. case_decide; [done|]. by intros [= <-].
  - destruct (bq_run_refines q0 ops Hwf0 Hops) as (q1 & Hr & Hwf & _).
    rewrite Hrun in Hr. injection Hr as _ <-.
    destruct (decide (contents q = [])) as [He|Hne].
    { rewrite pop_empty in Hpop by done.
      destruct (flag_set pfl BQUEUE_WAIT); simplify_eq. }
    unfold bqueue_pop in Hpop. rewrite bq_empty_spec, bool_decide_false in Hpop by done.
    rewrite extract_spec, outcome_bind_ret in Hpop by done.
    destruct (advance_spec q (length (take n (contents q))) Hwf)
      as (q2 & Ha & ? & _ & _ & _ & Hz);
      [by apply nonempty_has_memory|rewrite length_take; lia|].
    rewrite Ha in Hpop. simpl in Hpop. simplify_eq.
    apply drop_zero_no_memory; auto.
Qed.

End bqueue.
Arguments bqueue : clear implicits.
Arguments bop : clear implicits.
Arguments bres : clear implicits.

(** *** Witnesses *)

Definition demo_bq : bqueue nat :=
  {| memory := []; head := 0; tail := 0; length_ := 0; max_length := 8;
     flags := BQUEUE_SHRINK |}.

(** Fills the ring, wraps it round, grows it and shrinks it. *)
Definition demo_ops : list (bop nat) :=
  [OpPush [1; 2; 3; 4] 0; OpPop 3 0; OpPush [5; 6] 0; OpPush [7; 8; 9; 10] 0;
   OpPush [11] 0; OpPop 6 0; OpPeek 9 0].

Lemma demo_ops_allowed : Forall op_allowed demo_ops.
Proof. repeat constructor. Qed.


Definition demo_bq_one : bqueue nat :=
  {| memory := [1; 2; 0]; head := 0; tail := 2; length_ := 3;
     max_length := 8; flags := BQUEUE_SHRINK |}.

Lemma demo_push_allowed : Forall op_allowed [OpPush [1; 2] 0].
Proof. repeat constructor. Qed.

Lemma bqueue_pop_peek_drop_witness :
  ∃ bytes q', bqueue_peek demo_bq_one 9 0 = Ret (Some bytes) ∧
              bqueue_drop (λ _, 0) demo_bq_one (length bytes) = Ret (0%Z, q') ∧
              bqueue_pop (λ _, 0) demo_bq_one 9 0 = Ret (Some bytes, q').
Proof.
  refine (bqueue_pop_peek_drop (λ _, 0) 8 BQUEUE_SHRINK demo_bq [OpPush [1; 2] 0]
            [RInt 0] demo_bq_one 9 0 eq_refl demo_push_allowed eq_refl _).
  discriminate.
Defined.

Lemma bqueue_drop_zero_faults_witness :
  bqueue_drop (λ _, 0) demo_bq 0 = Stuck DivByZero ∧
  bqueue_drop (λ _, 0) (_bqueue_trim demo_bq_one) 0 = Stuck DivByZero.
Proof.
  refine (bqueue_drop_zero_faults (λ _, 0) 8 BQUEUE_SHRINK demo_bq [OpPush [1; 2] 0]
            [RInt 0] demo_bq_one 9 0 [1; 2] (_bqueue_trim demo_bq_one)
            eq_refl demo_push_allowed eq_refl eq_refl _ eq_refl).
  discriminate.
Defined.
