(* ===== verification/LinkedQueue.v ===== *)
(** * The linked queue of [shared/src/queue_linked_op.c]

    [w_linked_queue_t] is a doubly linked list of heap nodes.  The queue owns
    its nodes, so its part of the heap is a finite map from addresses to
    nodes; the address that [malloc] returned is an argument of the operations
    that allocate.  A dereference of an address the queue does not own faults,
    which covers [NULL] and use after [free]. *)

From stdpp Require Import base numbers list gmap.
From Stdlib Require Import Lia.
From S2P Require Import Prelude.

Abbreviation loc := positive.

Section linked_queue.
Context {A : Type}.
Abbreviation ptr := (option A).

Record lnode : Type := mk_lnode {
  nd_data : ptr;
  nd_prev : option loc;
  nd_next : option loc;
}.

Record linked_queue : Type := mk_linked_queue {
  nodes : gmap loc lnode;
  first : option loc;
  last : option loc;
  elements : nat;
}.

(** Reads and writes through a node pointer. *)
Definition node_at (h : gmap loc lnode) (p : option loc) : outcome lnode :=
  a ← c_deref p; c_deref (h !! a).

Definition set_next (h : gmap loc lnode) (p : option loc) (v : option loc)
    : outcome (gmap loc lnode) :=
  a ← c_deref p; n ← c_deref (h !! a);
  Ret (<[a := mk_lnode (nd_data n) (nd_prev n) v]> h).

Definition set_prev (h : gmap loc lnode) (p : option loc) (v : option loc)
    : outcome (gmap loc lnode) :=
  a ← c_deref p; n ← c_deref (h !! a);
  Ret (<[a := mk_lnode (nd_data n) v (nd_next n)]> h).

Definition set_data (h : gmap loc lnode) (p : option loc) (d : ptr)
    : outcome (gmap loc lnode) :=
  a ← c_deref p; n ← c_deref (h !! a);
  Ret (<[a := mk_lnode d (nd_prev n) (nd_next n)]> h).

Definition free_node (h : gmap loc lnode) (p : option loc) : outcome (gmap loc lnode) :=
  a ← c_deref p; _ ← c_deref (h !! a); Ret (delete a h).

Definition linked_queue_init : linked_queue :=
  {| nodes := ∅; first := None; last := None; elements := 0 |}.

Definition linked_queue_append_node (q : linked_queue) (node : option loc)
    : outcome linked_queue :=
  match first q with
  | None =>
      h1 ← set_prev (nodes q) node None;
      h2 ← set_next h1 node None;
      Ret {| nodes := h2; first := node; last := node; elements := elements q + 1 |}
  | Some _ =>
      h1 ← set_next (nodes q) (last q) node;
      h2 ← set_prev h1 node (last q);
      h3 ← set_next h2 node None;
      Ret {| nodes := h3; first := first q; last := node; elements := elements q + 1 |}
  end.

(** [p] is the address of the new node. *)
Definition linked_queue_push (q : linked_queue) (p : loc) (d : ptr)
    : outcome (option loc * linked_queue) :=
  q' ← linked_queue_append_node
         {| nodes := <[p := mk_lnode d None None]> (nodes q);
            first := first q; last := last q; elements := elements q |} (Some p);
  Ret (Some p, q').

Definition linked_queue_pop_node (q : linked_queue) : outcome linked_queue :=
  let tmp := first q in
  n ← node_at (nodes q) (first q);
  let first' := nd_next n in
  '(h, last') ← match first' with
                | Some _ => h ← set_prev (nodes q) first' None; Ret (h, last q)
                | None => Ret (nodes q, None)
                end;
  h' ← free_node h tmp;
  Ret {| nodes := h'; first := first'; last := last'; elements := elements q - 1 |}.

Definition linked_queue_pop (q : linked_queue) : outcome (ptr * linked_queue) :=
  match first q with
  | None => Ret (None, q)
  | Some _ =>
      n ← node_at (nodes q) (first q);
      q' ← linked_queue_pop_node q;
      Ret (nd_data n, q')
  end.

Definition linked_queue_unlink_and_push_node (q : linked_queue) (node : option loc)
    : outcome linked_queue :=
  n ← node_at (nodes q) node;
  match nd_next n with
  | None => Ret q
  | Some _ =>
      h1 ← set_prev (nodes q) (nd_next n) (nd_prev n);
      '(h2, first') ← match nd_prev n with
                      | Some _ => h ← set_next h1 (nd_prev n) (nd_next n); Ret (h, first q)
                      | None => Ret (h1, nd_next n)
                      end;
      h3 ← set_prev h2 node None;
      h4 ← set_next h3 node None;
      linked_queue_append_node
        {| nodes := h4; first := first'; last := last q; elements := elements q - 1 |} node
  end.

(** ** Abstraction: the list of the nodes, with their data *)

Definition head_loc (l : list (loc * ptr)) (nxt : option loc) : option loc :=
  match l with [] => nxt | (p, _) :: _ => Some p end.

Fixpoint last_loc (prv : option loc) (l : list (loc * ptr)) : option loc :=
  match l with [] => prv | (p, _) :: l' => last_loc (Some p) l' end.

(** [l] is a doubly linked segment between [prv] and [nxt]. *)
Fixpoint dll (h : gmap loc lnode) (prv : option loc) (l : list (loc * ptr))
    (nxt : option loc) : Prop :=
  match l with
  | [] => True
  | (p, d) :: l' =>
      h !! p = Some (mk_lnode d prv (head_loc l' nxt)) ∧ dll h (Some p) l' nxt
  end.

Record repr (q : linked_queue) (l : list (loc * ptr)) : Prop := {
  repr_nodup : NoDup l.*1;
  repr_dll : dll (nodes q) None l None;
  repr_first : first q = head_loc l None;
  repr_last : last q = last_loc None l;
  repr_elements : elements q = length l;
  repr_dom : dom (nodes q) = list_to_set l.*1;
}.

Lemma head_loc_app l1 l2 nxt : head_loc (l1 ++ l2) nxt = head_loc l1 (head_loc l2 nxt).
Proof. by destruct l1 as [|[]]. Qed.

Lemma last_loc_app prv l1 l2 : last_loc prv (l1 ++ l2) = last_loc (last_loc prv l1) l2.
Proof. revert prv. induction l1 as [|[p d] l1 IH]; intros prv; [done|apply IH]. Qed.

Lemma last_loc_snoc prv l p d : last_loc prv (l ++ [(p, d)]) = Some p.
Proof. by rewrite last_loc_app. Qed.

Lemma dll_app h prv l1 l2 nxt :
  dll h prv (l1 ++ l2) nxt ↔
  dll h prv l1 (head_loc l2 nxt) ∧ dll h (last_loc prv l1) l2 nxt.
Proof.
  revert prv. induction l1 as [|[p d] l1 IH]; intros prv; simpl; [tauto|].
  rewrite IH, head_loc_app. tauto.
Qed.

Lemma dll_insert_ne h prv l nxt p n :
  p ∉ l.*1 → dll (<[p:=n]> h) prv l nxt ↔ dll h prv l nxt.
Proof.
  revert prv. induction l as [|[p' d] l IH]; intros prv Hp; simpl in *; [done|].
  apply not_elem_of_cons in Hp as [Hne Hp].
  rewrite IH by done. by rewrite lookup_insert_ne by congruence.
Qed.

Lemma dll_delete_ne h prv l nxt p :
  p ∉ l.*1 → dll (delete p h) prv l nxt ↔ dll h prv l nxt.
Proof.
  revert prv. induction l as [|[p' d] l IH]; intros prv Hp; simpl in *; [done|].
  apply not_elem_of_cons in Hp as [Hne Hp].
  rewrite IH by done. by rewrite lookup_delete_ne by congruence.
Qed.

Lemma dll_frame h h' prv l nxt :
  (∀ k, k ∈ l.*1 → h' !! k = h !! k) → dll h prv l nxt → dll h' prv l nxt.
Proof.
  revert prv. induction l as [|[p d] l IH]; intros prv Hf; simpl in *; [done|].
  intros [Hp Hl]. split.
  - rewrite Hf; [done|]. apply elem_of_cons. by left.
  - apply IH; [|done]. intros k Hk. apply Hf, elem_of_cons. by right.
Qed.

Lemma dll_lookup h prv l1 p d l2 nxt :
  dll h prv (l1 ++ (p, d) :: l2) nxt →
  h !! p = Some (mk_lnode d (last_loc prv l1) (head_loc l2 nxt)).
Proof. rewrite dll_app. simpl. tauto. Qed.

(** [h'] differs from [h] at [p] only, which both map. *)
Definition only_at (p : loc) (h h' : gmap loc lnode) : Prop :=
  (∀ k, k ≠ p → h' !! k = h !! k) ∧ dom h' = dom h.

Lemma only_at_insert p h n n' : h !! p = Some n → only_at p h (<[p:=n']> h).
Proof.
  intros Hp. split.
  - intros k Hk. by rewrite lookup_insert_ne.
  - rewrite dom_insert_L. apply elem_of_dom_2 in Hp. set_solver.
Qed.

Lemma dll_only_at p h h' prv l nxt :
  only_at p h h' → p ∉ l.*1 → dll h prv l nxt → dll h' prv l nxt.
Proof.
  intros [Hf _] Hp. apply dll_frame. intros k Hk. apply Hf. by intros ->.
Qed.

(** Rewiring the back pointer of the first node of a segment. *)
Lemma set_prev_head h prv prv' p d l nxt :
  dll h prv ((p, d) :: l) nxt → p ∉ l.*1 →
  ∃ h', set_prev h (Some p) prv' = Ret h' ∧ only_at p h h' ∧
        dll h' prv' ((p, d) :: l) nxt.
Proof.
  simpl. intros [Hp Hl] Hni. unfold set_prev. simpl. rewrite Hp. simpl.
  eexists; split; [reflexivity|]. split; [by eapply only_at_insert|].
  split; [by rewrite lookup_insert_eq|]. by apply dll_insert_ne.
Qed.

(** Rewiring the forward pointer of the last node of a segment. *)
Lemma set_next_last h prv l p d nxt nxt' :
  dll h prv (l ++ [(p, d)]) nxt → p ∉ l.*1 →
  ∃ h', set_next h (Some p) nxt' = Ret h' ∧ only_at p h h' ∧
        dll h' prv (l ++ [(p, d)]) nxt'.
Proof.
  rewrite !dll_app. simpl. intros (Hl & Hp & _) Hni. unfold set_next. simpl.
  rewrite Hp. simpl. eexists; split; [reflexivity|].
  split; [by eapply only_at_insert|]. apply dll_app. simpl.
  split; [by apply dll_insert_ne|]. by rewrite lookup_insert_eq.
Qed.

Lemma set_prev_lookup h p n v :
  h !! p = Some n →
  set_prev h (Some p) v = Ret (<[p := mk_lnode (nd_data n) v (nd_next n)]> h).
Proof. intros Hp. unfold set_prev. simpl. by rewrite Hp. Qed.

Lemma set_next_lookup h p n v :
  h !! p = Some n →
  set_next h (Some p) v = Ret (<[p := mk_lnode (nd_data n) (nd_prev n) v]> h).
Proof. intros Hp. unfold set_next. simpl. by rewrite Hp. Qed.

Lemma last_loc_cases prv l :
  (l = [] ∧ last_loc prv l = prv) ∨
  ∃ l' p d, l = l' ++ [(p, d)] ∧ last_loc prv l = Some p.
Proof.
  induction l as [|[p d] l' _] using rev_ind; [by left|].
  right. exists l', p, d. by rewrite last_loc_snoc.
Qed.

(** Appending an unlinked node of the heap. *)
Lemma append_node_spec h f la n l p nd :
  NoDup (p :: l.*1) → dll h None l None →
  f = head_loc l None → la = last_loc None l → n = length l →
  h !! p = Some nd → dom h = list_to_set (p :: l.*1) →
  ∃ q', linked_queue_append_node (mk_linked_queue h f la n) (Some p) = Ret q' ∧
        repr q' (l ++ [(p, nd_data nd)]).
Proof.
  intros [Hni Hnd]%NoDup_cons Hl -> -> -> Hp Hdom.
  unfold linked_queue_append_node; simpl.
  assert (Hnd' : NoDup (l ++ [(p, nd_data nd)]).*1).
  { rewrite fmap_app. apply NoDup_app. split; [done|]. split; [|apply NoDup_singleton].
    intros x Hx ->%list_elem_of_singleton. done. }
  assert (Hset : list_to_set (C:=gset loc) (l ++ [(p, nd_data nd)]).*1 = dom h).
  { rewrite Hdom, fmap_app, list_to_set_app_L. simpl. set_solver. }
  destruct l as [|[p0 d0] l]; simpl head_loc; cbv iota.
  - rewrite (set_prev_lookup _ _ _ _ Hp). simpl.
    erewrite set_next_lookup by by rewrite lookup_insert_eq. simpl.
    eexists; split; [reflexivity|]. split; simpl; try done.
    + split; [|done]. by rewrite lookup_insert_eq.
    + rewrite insert_insert_eq, dom_insert_L. simpl in Hset. set_solver.
  - destruct (last_loc_cases None ((p0, d0) :: l)) as [[? _]|(l' & pl & dl & El & ->)];
      [done|].
    assert (Some p0 = head_loc (l' ++ [(pl, dl)]) None) as -> by by rewrite <- El.
    rewrite El in *. clear El p0 d0 l.
    rewrite fmap_app in Hni, Hnd. simpl in Hni, Hnd.
    apply NoDup_app in Hnd as (Hnd & Hdis & _).
    destruct (set_next_last h None l' pl dl None (Some p)) as (h1 & -> & Hoa & Hl1); [done| |].
    { intros Hin. apply (Hdis pl Hin). apply list_elem_of_here. }
    simpl. assert (Hp1 : h1 !! p = Some nd).
    { rewrite (proj1 Hoa); [done|]. intros ->. apply Hni. set_solver. }
    rewrite (set_prev_lookup _ _ _ _ Hp1). simpl.
    erewrite set_next_lookup by by rewrite lookup_insert_eq. simpl.
    eexists; split; [reflexivity|]. split; simpl; try done.
    + rewrite insert_insert_eq. rewrite dll_app. split.
      * apply dll_insert_ne; [by rewrite fmap_app|]. exact Hl1.
      * simpl. rewrite lookup_insert_eq, last_loc_snoc. done.
    + rewrite !head_loc_app. by destruct l' as [|[]].
    + by rewrite !last_loc_snoc.
    + rewrite !length_app. simpl. lia.
    + rewrite insert_insert_eq, dom_insert_L, (proj2 Hoa), Hset. 
      apply elem_of_dom_2 in Hp. set_solver.
Qed.

Lemma push_spec q l p d :
  repr q l → nodes q !! p = None →
  ∃ q', linked_queue_push q p d = Ret (Some p, q') ∧ repr q' (l ++ [(p, d)]).
Proof.
  intros [Hnd Hl Hf Hla He Hdom] Hp. unfold linked_queue_push.
  apply not_elem_of_dom_2 in Hp as Hp'. rewrite Hdom in Hp'.
  assert (Hni : p ∉ l.*1) by set_solver.
  edestruct (append_node_spec (<[p:=mk_lnode d None None]> (nodes q))
    (first q) (last q) (elements q) l p (mk_lnode d None None)) as (q' & -> & Hr); try done.
  - by apply NoDup_cons.
  - by apply dll_insert_ne.
  - by rewrite lookup_insert_eq.
  - rewrite dom_insert_L, Hdom. done.
  - simpl. by exists q'.
Qed.

Lemma node_at_spec q l1 p d l2 :
  repr q (l1 ++ (p, d) :: l2) →
  node_at (nodes q) (Some p) =
    Ret (mk_lnode d (last_loc None l1) (head_loc l2 None)).
Proof.
  intros Hr. unfold node_at. simpl.
  by rewrite (dll_lookup _ _ _ _ _ _ _ (repr_dll _ _ Hr)).
Qed.

Lemma pop_node_spec q p d l :
  repr q ((p, d) :: l) →
  ∃ q', linked_queue_pop_node q = Ret q' ∧ repr q' l.
Proof.
  intros Hr. pose proof (node_at_spec q [] p d l Hr) as Hn.
  destruct Hr as [Hnd Hl Hf Hla He Hdom]. csimpl in *.
  apply NoDup_cons in Hnd as [Hni Hnd]. destruct Hl as [Hp Hl].
  unfold linked_queue_pop_node. rewrite Hf, Hn. simpl.
  destruct l as [|[p2 d2] l]; simpl head_loc; cbv iota.
  - simpl. unfold free_node. simpl. rewrite Hp. simpl.
    eexists; split; [reflexivity|]. split; simpl; try done; [csimpl in *; lia|].
    rewrite dom_delete_L, Hdom. simpl. set_solver.
  - csimpl in Hni. csimpl in Hnd. apply NoDup_cons in Hnd as [Hni2 Hnd].
    destruct (set_prev_head (nodes q) (Some p) None p2 d2 l None Hl Hni2)
      as (h' & -> & [Hoa Hd] & Hl'). simpl.
    unfold free_node. simpl.
    assert (p ≠ p2) by set_solver. rewrite Hoa by done. rewrite Hp. simpl.
    eexists; split; [reflexivity|]. split; simpl; try done.
    + by apply NoDup_cons.
    + apply (dll_delete_ne _ None ((p2, d2) :: l)); done.
    + simpl in He. lia.
    + rewrite dom_delete_L, Hd, Hdom. simpl.
      apply set_eq. intros x. set_solver.
Qed.

Lemma pop_spec q p d l :
  repr q ((p, d) :: l) →
  ∃ q', linked_queue_pop q = Ret (d, q') ∧ repr q' l.
Proof.
  intros Hr. unfold linked_queue_pop.
  pose proof (node_at_spec q [] p d l Hr) as Hn.
  rewrite (repr_first _ _ Hr). simpl. rewrite Hn. simpl.
  destruct (pop_node_spec q p d l Hr) as (q' & -> & Hr'). simpl. by exists q'.
Qed.

Lemma pop_nil_spec q : repr q [] → linked_queue_pop q = Ret (None, q).
Proof. intros Hr. unfold linked_queue_pop. by rewrite (repr_first _ _ Hr). Qed.

Lemma repr_nodup_mid q l1 p d l2 :
  repr q (l1 ++ (p, d) :: l2) →
  NoDup (l1 ++ l2).*1 ∧ (p ∉ l1.*1) ∧ (p ∉ l2.*1) ∧
  NoDup l1.*1 ∧ NoDup l2.*1 ∧ (∀ x, x ∈ (l1.*1) → x ∉ (l2.*1)).
Proof.
  intros Hr. pose proof (repr_nodup _ _ Hr) as Hnd. rewrite !fmap_app in *. csimpl in *.
  apply NoDup_app in Hnd as (H1 & Hdis & H2). apply NoDup_cons in H2 as [Hp H2].
  assert (p ∉ l1.*1) by (intros Hin; apply (Hdis p Hin), list_elem_of_here).
  assert (∀ x, x ∈ (l1.*1) → x ∉ (l2.*1)) as Hd.
  { intros x Hx Hx2. apply (Hdis x Hx). by right. }
  split_and!; try done. apply NoDup_app. split_and!; done.
Qed.

(** Rewiring both neighbours of a node, in either order, bypasses it. *)
Lemma bypass_next h l1 p d l2 :
  dll h None (l1 ++ (p, d) :: l2) None → NoDup (l1 ++ (p, d) :: l2).*1 →
  ∃ h', match l2 with
        | [] => Ret h
        | _ => set_prev h (head_loc l2 None) (last_loc None l1)
        end = Ret h' ∧ dom h' = dom h ∧ h' !! p = h !! p ∧
        dll h' None l1 (Some p) ∧ dll h' (last_loc None l1) l2 None.
Proof.
  intros Hl Hnd. rewrite dll_app in Hl. simpl in Hl. destruct Hl as (Hl1 & Hp & Hl2).
  rewrite fmap_app in Hnd. csimpl in Hnd. apply NoDup_app in Hnd as (H1 & Hdis & H2).
  apply NoDup_cons in H2 as [Hpn H2].
  destruct l2 as [|[p2 d2] l2]; [by exists h|]. csimpl in *.
  apply NoDup_cons in H2 as [Hni2 H2].
  destruct (set_prev_head h (Some p) (last_loc None l1) p2 d2 l2 None Hl2 Hni2)
    as (h' & -> & Hoa & Hl'). exists h'. split; [done|]. split; [apply Hoa|].
  split; [apply Hoa; set_solver|]. split; [|done].
  eapply dll_only_at; [done| |done]. intros Hin. apply (Hdis p2 Hin). set_solver.
Qed.

Lemma bypass_prev h l1 p l2 :
  dll h None l1 (Some p) → dll h (last_loc None l1) l2 None →
  NoDup l1.*1 → p ∉ l1.*1 → (∀ x, x ∈ (l1.*1) → x ∉ (l2.*1)) →
  ∃ h', match l1 with
        | [] => Ret h
        | _ => set_next h (last_loc None l1) (head_loc l2 None)
        end = Ret h' ∧ dom h' = dom h ∧ h' !! p = h !! p ∧
        dll h' None (l1 ++ l2) None.
Proof.
  intros Hl1 Hl2 Hnd Hp Hdis.
  destruct (last_loc_cases None l1) as [[-> _]|(l' & pl & dl & -> & Hla)].
  - by exists h.
  - rewrite Hla in *. rewrite fmap_app in Hnd, Hp, Hdis. csimpl in *.
    apply NoDup_app in Hnd as (Hnd & Hd & _).
    destruct (set_next_last h None l' pl dl (Some p) (head_loc l2 None)) as (h' & Heq & Hoa & Hl');
      [done|by intros Hin; apply (Hd pl Hin), list_elem_of_here|].
    exists h'. rewrite Heq. split; [by destruct l' as [|[]]|]. split; [apply Hoa|].
    split; [apply Hoa; set_solver|]. apply dll_app. split; [done|].
    rewrite Hla. eapply dll_only_at; [done| |done].
    apply Hdis. set_solver.
Qed.

Lemma head_loc_None l : head_loc l None = None ↔ l = [].
Proof. destruct l as [|[]]; done. Qed.

Lemma last_loc_None l : last_loc None l = None ↔ l = [].
Proof.
  destruct (last_loc_cases None l) as [[-> ->]|(l' & p & d & -> & ->)]; [done|].
  split; [done|]. by destruct l'.
Qed.

Lemma unlink_and_push_spec q l1 p d l2 :
  repr q (l1 ++ (p, d) :: l2) →
  ∃ q', linked_queue_unlink_and_push_node q (Some p) = Ret q' ∧
        repr q' (l1 ++ l2 ++ [(p, d)]).
Proof.
  intros Hr. unfold linked_queue_unlink_and_push_node.
  rewrite (node_at_spec _ _ _ _ _ Hr). simpl.
  destruct l2 as [|x2 l2'] eqn:El2.
  { simpl. exists q. by split. }
  assert (∃ p2, head_loc (x2 :: l2') None = Some p2) as [p2 Hp2].
  { destruct x2. by eexists. }
  rewrite Hp2. rewrite <- Hp2. rewrite <- El2 in *.
  destruct (repr_nodup_mid _ _ _ _ _ Hr) as (Hnd & Hp1 & Hpl2 & Hn1 & Hn2 & Hdis).
  destruct Hr as [Hnd0 Hl Hf Hla He Hdom].
  destruct (bypass_next (nodes q) l1 p d l2 Hl Hnd0) as (h1 & Hb1 & Hd1 & Hk1 & Ha1 & Ha2).
  rewrite El2 in Hb1. rewrite <- El2 in Hb1. rewrite Hb1. simpl.
  destruct (bypass_prev h1 l1 p l2 Ha1 Ha2 Hn1 Hp1 Hdis) as (h2 & Hb2 & Hd2 & Hk2 & Hl2).
  assert (match last_loc None l1 with
          | Some _ => h ← set_next h1 (last_loc None l1) (head_loc l2 None); Ret (h, first q)
          | None => Ret (h1, head_loc l2 None)
          end = Ret (h2, head_loc (l1 ++ l2) None)) as ->.
  { rewrite Hf, !head_loc_app. destruct l1 as [|[pa da] l1'].
    - csimpl in *. congruence.
    - rewrite Hb2. destruct (last_loc None ((pa, da) :: l1')) eqn:E; [done|].
      by apply last_loc_None in E. }
  simpl.
  assert (Hpn : h2 !! p = Some (mk_lnode d (last_loc None l1) (head_loc l2 None))).
  { rewrite Hk2, Hk1. by eapply dll_lookup. }
  rewrite (set_prev_lookup _ _ _ _ Hpn). simpl.
  erewrite set_next_lookup by by rewrite lookup_insert_eq. simpl.
  rewrite insert_insert_eq. rewrite app_assoc.
  apply (append_node_spec _ _ _ _ (l1 ++ l2) p (mk_lnode d None None)); try done.
  - apply NoDup_cons. split; [|done]. rewrite fmap_app. set_solver.
  - apply dll_insert_ne; [|done]. rewrite fmap_app. set_solver.
  - rewrite Hla. rewrite !last_loc_app. simpl. by rewrite El2; destruct x2.
  - rewrite He, !length_app. simpl. lia.
  - by rewrite lookup_insert_eq.
  - rewrite dom_insert_L, Hd2, Hd1, Hdom, !fmap_app. simpl.
    rewrite !list_to_set_app_L. simpl. set_solver.
Qed.

Lemma set_data_spec q l1 p d l2 d' :
  repr q (l1 ++ (p, d) :: l2) →
  ∃ h', set_data (nodes q) (Some p) d' = Ret h' ∧
        repr {| nodes := h'; first := first q; last := last q; elements := elements q |}
             (l1 ++ (p, d') :: l2).
Proof.
  intros Hr. destruct (repr_nodup_mid _ _ _ _ _ Hr) as (_ & Hp1 & Hp2 & _).
  pose proof (dll_lookup _ _ _ _ _ _ _ (repr_dll _ _ Hr)) as Hk.
  unfold set_data. simpl. rewrite Hk. simpl. eexists; split; [reflexivity|].
  destruct Hr as [Hnd Hl Hf Hla He Hdom]. rewrite fmap_app in Hnd, Hdom. csimpl in *.
  split; simpl; rewrite ?fmap_app; csimpl; try done.
  - rewrite dll_app in Hl |- *. simpl in *. destruct Hl as (Hl1 & _ & Hl2).
    split; [by apply dll_insert_ne|].
    split; [by rewrite lookup_insert_eq|]. by apply dll_insert_ne.
  - rewrite Hf. by destruct l1 as [|[]].
  - rewrite Hla, !last_loc_app. done.
  - rewrite He, !length_app. done.
  - rewrite dom_insert_L, Hdom. rewrite !list_to_set_app_L. csimpl. set_solver.
Qed.

Lemma init_spec : repr linked_queue_init [].
Proof. split; simpl; try done. apply NoDup_nil_2. Qed.

Lemma repr_fresh q l p : repr q l → p ∉ l.*1 → nodes q !! p = None.
Proof.
  intros Hr Hp. apply not_elem_of_dom. rewrite (repr_dom _ _ Hr).
  by rewrite elem_of_list_to_set.
Qed.

(** ** Sequences of operations against the specification *)

Inductive lop : Type :=
  | OpPush (p : loc) (d : ptr)
  | OpPop
  | OpMoveLast (p : loc).

Definition lq_exec (q : linked_queue) (op : lop) : outcome (ptr * linked_queue) :=
  match op with
  | OpPush p d => '(_, q') ← linked_queue_push q p d; Ret (None, q')
  | OpPop => linked_queue_pop q
  | OpMoveLast p => q' ← linked_queue_unlink_and_push_node q (Some p); Ret (None, q')
  end.

Fixpoint lq_run (q : linked_queue) (ops : list lop) : outcome (list ptr * linked_queue) :=
  match ops with
  | [] => Ret ([], q)
  | op :: ops =>
      '(r, q1) ← lq_exec q op;
      '(rs, q2) ← lq_run q1 ops;
      Ret (r :: rs, q2)
  end.

Definition lq_spec (l : list (loc * ptr)) (op : lop) : ptr * list (loc * ptr) :=
  match op with
  | OpPush p d => (None, l ++ [(p, d)])
  | OpPop => match l with [] => (None, []) | (_, d) :: l' => (d, l') end
  | OpMoveLast p => (None, filter (λ x, x.1 ≠ p) l ++ filter (λ x, x.1 = p) l)
  end.

(** [malloc] returns an address not in use; a node is moved while in the queue. *)
Definition lop_ok (l : list (loc * ptr)) (op : lop) : Prop :=
  match op with
  | OpPush p _ => p ∉ l.*1
  | OpPop => True
  | OpMoveLast p => p ∈ l.*1
  end.

Fixpoint lops_ok (l : list (loc * ptr)) (ops : list lop) : Prop :=
  match ops with
  | [] => True
  | op :: ops => lop_ok l op ∧ lops_ok (lq_spec l op).2 ops
  end.

Fixpoint lq_spec_run (l : list (loc * ptr)) (ops : list lop)
    : list ptr * list (loc * ptr) :=
  match ops with
  | [] => ([], l)
  | op :: ops =>
      let '(r, l1) := lq_spec l op in
      let '(rs, l2) := lq_spec_run l1 ops in
      (r :: rs, l2)
  end.

Lemma filter_key_split (l1 l2 : list (loc * ptr)) p d :
  p ∉ l1.*1 → p ∉ l2.*1 →
  filter (λ x, x.1 ≠ p) (l1 ++ (p, d) :: l2) ++ filter (λ x, x.1 = p) (l1 ++ (p, d) :: l2)
  = l1 ++ l2 ++ [(p, d)].
Proof.
  intros H1 H2.
  assert (Hkeep : ∀ l : list (loc * ptr), p ∉ l.*1 →
            filter (λ x, x.1 ≠ p) l = l ∧ filter (λ x, x.1 = p) l = []).
  { intros l. induction l as [|[k v] l IH]; intros Hp; [done|].
    csimpl in Hp. apply not_elem_of_cons in Hp as [Hne Hp]. destruct (IH Hp) as [E1 E2].
    rewrite !filter_cons. simpl. rewrite decide_True, decide_False by congruence.
    by rewrite E1, E2. }
  destruct (Hkeep l1 H1) as [E1 E2]. destruct (Hkeep l2 H2) as [E3 E4].
  rewrite !filter_app, !filter_cons. simpl. rewrite decide_False by (by intros []).
  rewrite decide_True by done. by rewrite E1, E2, E3, E4, <- app_assoc.
Qed.

Lemma lq_exec_refines q l op :
  repr q l → lop_ok l op →
  ∃ q', lq_exec q op = Ret ((lq_spec l op).1, q') ∧ repr q' (lq_spec l op).2.
Proof.
  intros Hr Hok. destruct op as [p d| |p]; simpl in *.
  - destruct (push_spec q l p d Hr) as (q' & -> & Hr'); [by eapply repr_fresh|].
    by exists q'.
  - destruct l as [|[p d] l]; [rewrite pop_nil_spec by done; by exists q|].
    by apply pop_spec in Hr.
  - apply list_elem_of_fmap in Hok as ([p' d] & -> & Hin). simpl.
    apply list_elem_of_split in Hin as (l1 & l2 & ->).
    destruct (repr_nodup_mid _ _ _ _ _ Hr) as (_ & Hp1 & Hp2 & _).
    destruct (unlink_and_push_spec _ _ _ _ _ Hr) as (q' & -> & Hr').
    exists q'. split; [done|]. by rewrite filter_key_split.
Qed.

Lemma lq_run_refines q l ops :
  repr q l → lops_ok l ops →
  ∃ q', lq_run q ops = Ret ((lq_spec_run l ops).1, q') ∧ repr q' (lq_spec_run l ops).2.
Proof.
  revert q l. induction ops as [|op ops IH]; intros q l Hr Hok; simpl in *.
  - by exists q.
  - destruct Hok as [Hop Hops].
    destruct (lq_exec_refines q l op Hr Hop) as (q1 & -> & Hr1). simpl.
    destruct (IH q1 _ Hr1 Hops) as (q2 & -> & Hr2). simpl.
    destruct (lq_spec l op) as [r l1]; simpl in *.
    destruct (lq_spec_run l1 ops) as [rs l2]; simpl in *. by exists q2.
Qed.

(** ** The [_ex] operations under concurrency *)

Record lsys : Type := mk_lsys {
  lque : linked_queue;
  lavailable : cond;
}.

(** The critical section of [linked_queue_push_ex], and its signal. *)
Definition linked_queue_push_ex (s : lsys) (p : loc) (d : ptr) : outcome lsys :=
  '(_, q') ← linked_queue_push (lque s) p d;
  Ret (mk_lsys q' (w_cond_signal (lavailable s))).

(** One pass through the loop of [linked_queue_pop_ex]: a [NULL] makes the thread
    sleep. *)
Definition linked_queue_pop_ex (s : lsys) : outcome (ptr * lsys) :=
  '(d, q') ← linked_queue_pop (lque s);
  Ret (d, mk_lsys q' (match d with
                      | None => cond_sleep (lavailable s)
                      | Some _ => lavailable s
                      end)).

Inductive llabel : Type :=
  | LPush (a : A)
  | LPop (a : A)
  | LSilent.

Definition lpop_label (d : ptr) : llabel :=
  match d with Some a => LPop a | None => LSilent end.

(** Threads push non-null data in freshly allocated nodes, pop, re-queue a node
    of the queue, and wake up, after a signal or spuriously. *)
Inductive lstep : lsys → llabel → lsys → Prop :=
  | lstep_push s p a s' :
      nodes (lque s) !! p = None →
      linked_queue_push_ex s p (Some a) = Ret s' → lstep s (LPush a) s'
  | lstep_pop s d s' :
      linked_queue_pop_ex s = Ret (d, s') → lstep s (lpop_label d) s'
  | lstep_resume s d s' :
      0 < signalled (lavailable s) →
      linked_queue_pop_ex (mk_lsys (lque s) (cond_wake (lavailable s))) = Ret (d, s') →
      lstep s (lpop_label d) s'
  | lstep_move s p q' :
      is_Some (nodes (lque s) !! p) →
      linked_queue_unlink_and_push_node (lque s) (Some p) = Ret q' →
      lstep s LSilent (mk_lsys q' (lavailable s))
  | lstep_spurious s :
      0 < asleep (lavailable s) →
      lstep s LSilent (mk_lsys (lque s) (cond_spurious (lavailable s))).

Inductive lexec : lsys → list llabel → lsys → Prop :=
  | lexec_nil s : lexec s [] s
  | lexec_snoc s tr s' l s'' :
      lexec s tr s' → lstep s' l s'' → lexec s (tr ++ [l]) s''.

Definition lpushed (tr : list llabel) : list A :=
  omap (λ l, match l with LPush a => Some a | _ => None end) tr.

Definition lpopped (tr : list llabel) : list A :=
  omap (λ l, match l with LPop a => Some a | _ => None end) tr.

Definition lsys_init : lsys := mk_lsys linked_queue_init (mk_cond 0 0).

(** The nodes of the queue carry the data [xs], and while a thread sleeps every
    one of them has a signalled thread on its way. *)
Definition lsys_inv (s : lsys) (xs : list A) : Prop :=
  (∃ l, repr (lque s) l ∧ l.*2 = Some <$> xs) ∧
  (asleep (lavailable s) = 0 ∨ length xs ≤ signalled (lavailable s)).

(** What a step does to the data in the queue. *)
Definition llabel_effect (lab : llabel) (xs ys : list A) : Prop :=
  match lab with
  | LPush a => ys = xs ++ [a]
  | LPop a => xs = a :: ys
  | LSilent => ys ≡ₚ xs
  end.

(** A pass of [linked_queue_pop_ex] by a running thread: one element may be
    short of a signalled thread. *)
Lemma lpop_effect s l xs d s' :
  repr (lque s) l → l.*2 = Some <$> xs →
  asleep (lavailable s) = 0 ∨ length xs - 1 ≤ signalled (lavailable s) →
  linked_queue_pop_ex s = Ret (d, s') →
  ∃ ys, lsys_inv s' ys ∧ llabel_effect (lpop_label d) xs ys.
Proof.
  intros Hr Hd Ha. unfold linked_queue_pop_ex. destruct l as [|[p d'] l].
  - rewrite pop_nil_spec by done. simpl. intros [= <- <-]. exists [].
    destruct xs; [|by csimpl in Hd]. split; [|by simpl]. split; [by exists []|simpl; lia].
  - destruct (pop_spec _ _ _ _ Hr) as (q' & -> & Hr'). simpl. intros [= <- <-].
    destruct xs as [|a xs]; [by csimpl in Hd|]. csimpl in Hd. injection Hd as -> Hd. exists xs.
    split; [|done]. split; [by exists l|simpl in *; lia].
Qed.

Lemma lstep_effect s lab s' xs :
  lstep s lab s' → lsys_inv s xs → ∃ ys, lsys_inv s' ys ∧ llabel_effect lab xs ys.
Proof.
  intros Hstep [(l & Hr & Hd) Ha].
  destruct Hstep as [s p a s' Hp H|s d s' H|s d s' Hw H|s p q' [n Hp] H|s Hw].
  - unfold linked_queue_push_ex in H.
    destruct (push_spec _ _ p (Some a) Hr Hp) as (q' & Hq & Hr'). rewrite Hq in H.
    simplify_eq/=. exists (xs ++ [a]). split; [|done]. split.
    + exists (l ++ [(p, Some a)]). split; [done|]. by rewrite !fmap_app, Hd.
    + unfold w_cond_signal. rewrite length_app. simpl.
      destruct (lavailable s) as [[|n] m]; simpl in *; lia.
  - eapply lpop_effect in H; eauto. lia.
  - eapply lpop_effect in H; eauto. simpl. lia.
  - apply elem_of_dom_2 in Hp. rewrite (repr_dom _ _ Hr), elem_of_list_to_set in Hp.
    apply list_elem_of_fmap in Hp as ([p' d] & -> & Hin).
    apply list_elem_of_split in Hin as (l1 & l2 & ->). simpl in H.
    destruct (unlink_and_push_spec _ _ _ _ _ Hr) as (q1 & Hq & Hr'). rewrite Hq in H. injection H as ->.
    rewrite fmap_app in Hd. apply symmetry, fmap_app_inv in Hd as (x1 & x2 & H1 & H2 & ->).
    csimpl in H2. destruct x2 as [|a x2]; [done|]. csimpl in H2. injection H2 as -> H2.
    exists (x1 ++ x2 ++ [a]). split; [split|].
    + exists (l1 ++ l2 ++ [(p', Some a)]). split; [done|].
      by rewrite !fmap_app, H1, H2.
    + simpl. rewrite !length_app in *. simpl in *. lia.
    + simpl. solve_Permutation.
  - exists xs. split; [|by simpl]. split; [by exists l|]. simpl. lia.
Qed.

Lemma lexec_inv tr s :
  lexec lsys_init tr s → ∃ xs, lsys_inv s xs ∧ lpushed tr ≡ₚ lpopped tr ++ xs.
Proof.
  remember lsys_init as s0 eqn:Hs0. induction 1 as [s|s tr s' lab s'' Hex IH Hstep]; subst.
  - exists []. split; [|done]. split; [exists []; split; [apply init_spec|done]|by left].
  - destruct (IH eq_refl) as (xs & Hinv & Htr).
    destruct (lstep_effect _ _ _ _ Hstep Hinv) as (ys & Hinv' & Heff).
    exists ys. split; [done|]. unfold lpushed, lpopped in *. rewrite !omap_app, Htr.
    destruct lab; simpl in *; subst; rewrite ?app_nil_r; [solve_Permutation..|by rewrite Heff].
Qed.

(** C35: the linked queue is a FIFO list.  Any sequence of pushes (at fresh
    addresses), pops and re-queuings of a node returns, gives the results of
    the list it stands for, counts its elements right, and at the end owns
    exactly the nodes of that list: none leaked, none freed too early. *)
Theorem linked_queue_refines_list ops :
  lops_ok [] ops →
  ∃ q', lq_run linked_queue_init ops = Ret ((lq_spec_run [] ops).1, q') ∧
        repr q' (lq_spec_run [] ops).2.
Proof. apply lq_run_refines, init_spec. Qed.

(** C36: concurrent use of the linked queue.  In every interleaving of producers,
    consumers and threads that re-queue a node, every operation returns, the data
    pushed are the data popped and those still in the queue, and a consumer that
    sleeps while the queue holds data is owed a signal already sent. *)
Theorem linked_queue_concurrent tr s :
  lexec lsys_init tr s →
  ∃ l xs, repr (lque s) l ∧ l.*2 = Some <$> xs ∧ lpushed tr ≡ₚ lpopped tr ++ xs ∧
    (0 < asleep (lavailable s) → xs ≠ [] → 0 < signalled (lavailable s)) ∧
    (∃ r, linked_queue_pop_ex s = Ret r) ∧
    (∀ p d, nodes (lque s) !! p = None → ∃ s', linked_queue_push_ex s p d = Ret s') ∧
    (∀ p, p ∈ l.*1 → ∃ q', linked_queue_unlink_and_push_node (lque s) (Some p) = Ret q').
Proof.
  intros Hex. destruct (lexec_inv tr s Hex) as (xs & [(l & Hr & Hd) Ha] & Htr).
  exists l, xs. split_and!; [done..| | | |].
  - intros Hs Hne. destruct xs; [done|]. simpl in *. lia.
  - unfold linked_queue_pop_ex. destruct l as [|[p d] l]; [rewrite pop_nil_spec; eauto|].
    destruct (pop_spec _ _ _ _ Hr) as (q' & -> & _). simpl. eauto.
  - intros p d Hp. unfold linked_queue_push_ex.
    destruct (push_spec _ _ p d Hr Hp) as (q' & -> & _). simpl. eauto.
  - intros p Hp. apply list_elem_of_fmap in Hp as ([p' d] & -> & Hin).
    apply list_elem_of_split in Hin as (l1 & l2 & ->).
    destruct (unlink_and_push_spec _ _ _ _ _ Hr) as (q1 & Hq & _). eauto.
Qed.

End linked_queue.
Arguments llabel : clear implicits.
Arguments lsys : clear implicits.
Arguments lop : clear implicits.
Arguments linked_queue : clear implicits.
Arguments lnode : clear implicits.

(** *** Witness *)

Definition demo_lops : list (lop nat) :=
  [OpPush 1%positive (Some 10); OpPush 2%positive (Some 20); OpPush 3%positive (Some 30);
   OpMoveLast 2%positive; OpPop; OpMoveLast 3%positive; OpPop].

Lemma linked_queue_refines_list_witness :
  ∃ q', lq_run linked_queue_init demo_lops =
          Ret ([None; None; None; None; Some 10; None; Some 20], q') ∧
        repr q' [(3%positive, Some 30)].
Proof.
  apply (linked_queue_refines_list demo_lops).
  simpl. repeat split; vm_compute; set_solver.
Defined.

(** A consumer goes to sleep, a producer wakes it, and it gets the element. *)
Lemma demo_lexec :
  lexec lsys_init [LSilent; LPush 7] (mk_lsys (mk_linked_queue {[1%positive := mk_lnode (Some 7) None None]}
    (Some 1%positive) (Some 1%positive) 1) (mk_cond 0 1)).
Proof.
  change [@LSilent nat; LPush 7] with (([] ++ [@LSilent nat]) ++ [LPush 7]).
  eapply lexec_snoc; [eapply lexec_snoc; [apply lexec_nil|]|].
  - apply (lstep_pop _ None). reflexivity.
  - eapply (lstep_push _ 1%positive); reflexivity.
Qed.

Lemma linked_queue_concurrent_witness :
  ∃ l xs, [Some 7] = l.*2 ∧ lpushed [LSilent; LPush 7] ≡ₚ lpopped [LSilent; LPush 7] ++ xs ∧
    @repr nat (mk_linked_queue {[1%positive := mk_lnode (Some 7) None None]}
      (Some 1%positive) (Some 1%positive) 1) l.
Proof.
  destruct (linked_queue_concurrent _ _ demo_lexec) as (l & xs & Hr & Hd & Htr & _).
  exists l, xs. split_and!; [|exact Htr|exact Hr].
  rewrite Hd. assert (xs = [7]) as -> by (by symmetry; apply Permutation_singleton_l). done.
Defined.
