(* ===== verification/CString.v ===== *)
(** * C strings

    A NUL-terminated string is the [string] of the characters before its NUL;
    [strcmp] compares them as [unsigned char]s.  In the components that handle raw
    memory it is a block of bytes that contains a NUL. *)

From stdpp Require Import base numbers list strings pretty.
From Stdlib Require Import Lia ZArith Ascii String.
From Stdlib Require Import Strings.Byte.
From S2P Require Import Prelude.

(** The sign of [strcmp (s1, s2)]. *)
Definition strcmp (s1 s2 : string) : comparison := String.compare s1 s2.

Definition str_lt (s1 s2 : string) : Prop := strcmp s1 s2 = Lt.

Lemma strcmp_eq s1 s2 : strcmp s1 s2 = Eq ↔ s1 = s2.
Proof.
  split; [apply String.compare_eq_iff|intros ->].
  unfold strcmp. induction s2 as [|a s IH]; [done|]. simpl.
  unfold Ascii.compare. by rewrite N.compare_refl.
Qed.

Lemma strcmp_refl s : strcmp s s = Eq.
Proof. by apply strcmp_eq. Qed.

Lemma strcmp_antisym s1 s2 : strcmp s1 s2 = CompOpp (strcmp s2 s1).
Proof. apply String.compare_antisym. Qed.

Lemma strcmp_gt s1 s2 : strcmp s1 s2 = Gt ↔ str_lt s2 s1.
Proof. unfold str_lt. rewrite strcmp_antisym. by destruct (strcmp s2 s1). Qed.

Lemma str_lt_irrefl s : ¬ str_lt s s.
Proof. unfold str_lt. by rewrite strcmp_refl. Qed.

Lemma ascii_compare_eq a b : Ascii.compare a b = Eq ↔ a = b.
Proof.
  split; [apply Ascii.compare_eq_iff|intros ->]. apply N.compare_refl.
Qed.

Lemma str_lt_trans s1 s2 s3 : str_lt s1 s2 → str_lt s2 s3 → str_lt s1 s3.
Proof.
  unfold str_lt, strcmp. revert s2 s3.
  induction s1 as [|a s1 IH]; intros [|b s2] [|c s3]; simpl; try done.
  destruct (Ascii.compare a b) eqn:Hab; try done;
  destruct (Ascii.compare b c) eqn:Hbc; try done; intros H1 H2.
  - apply ascii_compare_eq in Hab as ->. rewrite Hbc. by eapply IH.
  - apply ascii_compare_eq in Hab as ->. by rewrite Hbc.
  - apply ascii_compare_eq in Hbc as ->. by rewrite Hab.
  - assert (Ascii.compare a c = Lt) as ->; [|done].
    unfold Ascii.compare in *. rewrite N.compare_lt_iff in *. by etrans.
Qed.

Lemma str_lt_asym s1 s2 : str_lt s1 s2 → ¬ str_lt s2 s1.
Proof. intros H1 H2. by apply (str_lt_irrefl s1), (str_lt_trans s1 s2). Qed.

Lemma str_lt_ne s1 s2 : str_lt s1 s2 → s1 ≠ s2.
Proof. intros H ->. by apply (str_lt_irrefl s2). Qed.

#[export] Instance str_lt_strict : StrictOrder str_lt.
Proof. split; [exact str_lt_irrefl|exact str_lt_trans]. Qed.

#[export] Hint Resolve str_lt_ne str_lt_trans : gsarm.

(** ** Strings in memory *)

#[export] Instance byte_eq_decision : EqDecision byte := Strings.Byte.byte_eq_dec.

(** [strlen] of the block that starts with these bytes. *)
Fixpoint strlen (s : list byte) : outcome nat :=
  match s with
  | [] => Stuck OutOfBounds
  | b :: s => if decide (b = Byte.x00) then Ret 0 else n ← strlen s; Ret (S n)
  end.

Lemma strlen_spec (s rest : list byte) :
  Byte.x00 ∉ s → strlen (app s (Byte.x00 :: rest)) = Ret (Datatypes.length s).
Proof.
  induction s as [|b s IH]; intros Hn; [done|]. apply not_elem_of_cons in Hn as [Hb Hn].
  cbn [app strlen Datatypes.length]. rewrite decide_False by done. by rewrite (IH Hn).
Qed.

(** ** Concatenation *)

Lemma append_nil_r (s : string) : (s ++ EmptyString)%string = s.
Proof. induction s as [|c s IH]; [done|]. exact (f_equal (String c) IH). Qed.

Lemma append_assoc (s1 s2 s3 : string) : (s1 ++ (s2 ++ s3) = (s1 ++ s2) ++ s3)%string.
Proof. induction s1 as [|c s IH]; [done|]. exact (f_equal (String c) IH). Qed.

Lemma append_length (s1 s2 : string) :
  String.length (s1 ++ s2)%string = (String.length s1 + String.length s2)%nat.
Proof. induction s1 as [|c s IH]; [done|]. exact (f_equal S IH). Qed.

#[local] Open Scope Z_scope.

(** ** Characters and numbers in strings *)

Definition is_digit (c : ascii) : bool :=
  let n := nat_of_ascii c in (48 <=? n)%nat && (n <=? 57)%nat.

Definition is_space (c : ascii) : bool :=
  let n := nat_of_ascii c in ((9 <=? n)%nat && (n <=? 13)%nat) || (n =? 32)%nat.

(** The digits at the start of [s], read after the value [acc]. *)
Fixpoint digits_value (s : string) (acc : Z) : Z :=
  match s with
  | String c s' =>
      if is_digit c then digits_value s' (acc * 10 + Z.of_nat (nat_of_ascii c - 48))
      else acc
  | EmptyString => acc
  end.

Fixpoint skip_spaces (s : string) : string :=
  match s with
  | String c s' => if is_space c then skip_spaces s' else s
  | EmptyString => s
  end.

(** [strtol] saturates at the bounds of a 64-bit [long], [atoi] keeps the low
    32 bits of its result. *)
Definition strtol_clamp (z : Z) : Z :=
  Z.max (- 2 ^ 63) (Z.min (2 ^ 63 - 1) z).

Definition wrap_int (z : Z) : Z :=
  (z + 2 ^ 31) mod 2 ^ 32 - 2 ^ 31.

Definition atoi (s : string) : Z :=
  wrap_int (strtol_clamp
    match skip_spaces s with
    | String "-" s' => - digits_value s' 0
    | String "+" s' => digits_value s' 0
    | s' => digits_value s' 0
    end).

(** What a buffer of [n + 1] bytes keeps of a string. *)
Definition str_trunc (n : nat) (s : string) : string := String.substring 0 n s.

Definition starts_with (c : ascii) (s : string) : bool :=
  match s with String c' _ => bool_decide (c = c') | EmptyString => false end.

(** Skips one leading exclamation mark. *)
Definition strip_bang (s : string) : string :=
  match s with String "!" s' => s' | _ => s end.

(** [snprintf (string, size, ...)] of the text [s]: what is stored, and whether it
    was not cut. *)
Definition snprintf (size : nat) (s : string) : string * bool :=
  (str_trunc (size - 1) s, bool_decide (String.length s < size)%nat).

Fixpoint has_char (c : ascii) (s : string) : bool :=
  match s with
  | String c' s => bool_decide (c = c') || has_char c s
  | EmptyString => false
  end.

Lemma str_trunc_fits n s : (String.length s ≤ n)%nat → str_trunc n s = s.
Proof.
  unfold str_trunc. revert n. induction s as [|c s IH]; intros n Hl; [by destruct n|].
  destruct n as [|n]; [simpl in Hl; lia|]. cbn. f_equal. apply IH. simpl in Hl. lia.
Qed.

Lemma snprintf_fits size s : (String.length s < size)%nat → snprintf size s = (s, true).
Proof.
  intros H. unfold snprintf. rewrite bool_decide_eq_true_2 by done.
  by rewrite str_trunc_fits by lia.
Qed.

(** ** Strings in a block of characters *)

Definition NUL : ascii := "000".

(** The C string that starts at the pointer. *)
Fixpoint mem_string (m : list ascii) : string :=
  match m with
  | [] => EmptyString
  | c :: m => if bool_decide (c = NUL) then EmptyString else String c (mem_string m)
  end.

Fixpoint chars (s : string) : list ascii :=
  match s with EmptyString => [] | String c s => c :: chars s end.

(** The buffer of a string that was duplicated. *)
Definition c_str (s : string) : list ascii := app (chars s) [NUL].

(** The pointer [n] characters further. *)
Definition advance (m : list ascii) (n : nat) : outcome (list ascii) :=
  if decide (n ≤ Datatypes.length m)%nat then Ret (drop n m) else Stuck OutOfBounds.

Lemma advance_app (a b : list ascii) n : n = Datatypes.length a → advance (app a b) n = Ret b.
Proof.
  intros ->. unfold advance. rewrite decide_True by (rewrite length_app; lia).
  by rewrite drop_app_length.
Qed.

Lemma advance_1 c m : advance (c :: m) 1 = Ret m.
Proof. exact (advance_app [c] m 1%nat eq_refl). Qed.

Lemma length_chars s : Datatypes.length (chars s) = String.length s.
Proof. induction s as [|c s IH]; [done|]. exact (f_equal S IH). Qed.

Lemma chars_append s t : chars (s ++ t)%string = app (chars s) (chars t).
Proof. induction s as [|c s IH]; [done|]. exact (f_equal (cons c) IH). Qed.

Lemma mem_string_chars s m :
  has_char NUL s = false → mem_string (app (chars s) m) = (s ++ mem_string m)%string.
Proof.
  induction s as [|c s IH]; [done|]. cbn [has_char chars app mem_string].
  intros [Hc Hs]%orb_false_iff. apply bool_decide_eq_false in Hc.
  rewrite bool_decide_eq_false_2 by congruence. exact (f_equal (String c) (IH Hs)).
Qed.

(** ** Printed numbers *)

(** [%u]. *)
Definition print_u (z : Z) : string := pretty (Z.to_N z).

Fixpoint zeros (n : nat) (s : string) : string :=
  match n with O => s | S n => String "0" (zeros n s) end.

(** [%0<w>u]. *)
Definition print_u0 (w : nat) (z : Z) : string :=
  zeros (w - String.length (print_u z)) (print_u z).

Fixpoint all_digits (s : string) : bool :=
  match s with EmptyString => true | String c s => is_digit c && all_digits s end.

Lemma pretty_N_char_spec x :
  (x < 10)%N → is_digit (pretty_N_char x) = true ∧
    Z.of_nat (nat_of_ascii (pretty_N_char x) - 48) = Z.of_N x.
Proof.
  intros Hx. rewrite <-(N2Nat.id x). assert (N.to_nat x < 10)%nat as Hn by lia.
  revert Hn. generalize (N.to_nat x). apply (forall_below _ 10). vm_compute. reflexivity.
Qed.

(** Digits in front of [s], and the value they give it. *)
Lemma pretty_N_go_spec x s :
  all_digits s = true →
  all_digits (pretty_N_go x s) = true ∧
  ∀ t, digits_value (pretty_N_go x s ++ t)%string 0 = digits_value (s ++ t)%string (Z.of_N x).
Proof.
  revert s. induction (N.lt_wf_0 x) as [x _ IH]; intros s Hs.
  destruct (decide (x = 0%N)) as [->|Hx]; [by rewrite pretty_N_go_0|].
  rewrite pretty_N_go_step by lia.
  destruct (pretty_N_char_spec (x mod 10)%N) as [Hd Hv]; [by apply N.mod_lt|].
  destruct (IH (x / 10)%N) with (s := String (pretty_N_char (x mod 10)) s) as [Ha Hval].
  - apply N.div_lt; lia.
  - cbn [all_digits]. by rewrite Hd.
  - split; [done|]. intros t. rewrite Hval.
    change (String ?c s ++ t)%string with (String c (s ++ t)). cbn [digits_value].
    rewrite Hd, Hv. f_equal. pose proof (N.div_mod x 10). lia.
Qed.

Lemma pretty_N_go_length x s k :
  (x < 10 ^ N.of_nat k)%N → (String.length (pretty_N_go x s) ≤ k + String.length s)%nat.
Proof.
  revert x s. induction k as [|k IH]; intros x s Hx.
  - assert (x = 0)%N as -> by (simpl in Hx; lia). by rewrite pretty_N_go_0.
  - destruct (decide (x = 0%N)) as [->|Hn]; [rewrite pretty_N_go_0; lia|].
    rewrite pretty_N_go_step by lia. etrans; [apply IH|simpl; lia].
    apply N.Div0.div_lt_upper_bound. by rewrite Nat2N.inj_succ, N.pow_succ_r' in Hx.
Qed.

Lemma print_u_spec z t :
  0 ≤ z → digits_value (print_u z ++ t)%string 0 = digits_value t z.
Proof.
  intros Hz. unfold print_u, pretty, pretty_N. case_decide as Hd.
  - assert (z = 0) as -> by lia. done.
  - destruct (pretty_N_go_spec (Z.to_N z) EmptyString eq_refl) as [_ Hv]. rewrite Hv.
    by rewrite Z2N.id.
Qed.

Lemma print_u_digits z : all_digits (print_u z) = true ∧ print_u z ≠ EmptyString.
Proof.
  unfold print_u, pretty, pretty_N. case_decide as Hd; [done|].
  destruct (pretty_N_go_spec (Z.to_N z) EmptyString eq_refl) as [Ha Hv]. split; [done|].
  intros E. specialize (Hv EmptyString). rewrite E in Hv. simpl in Hv. lia.
Qed.

Lemma print_u_length z k :
  (0 < k)%nat → z < 10 ^ Z.of_nat k → (String.length (print_u z) ≤ k)%nat.
Proof.
  intros Hk Hz. unfold print_u, pretty, pretty_N. case_decide; [simpl; lia|].
  etrans; [apply (pretty_N_go_length _ _ k)|simpl; lia].
  destruct (decide (0 ≤ z)); [|lia].
  apply N2Z.inj_lt. rewrite Z2N.id, N2Z.inj_pow, nat_N_Z by done. exact Hz.
Qed.

Lemma zeros_digits n s : all_digits s = true → all_digits (zeros n s) = true.
Proof. intros Hs. by induction n. Qed.

Lemma zeros_value n s t : digits_value (zeros n s ++ t)%string 0 = digits_value (s ++ t)%string 0.
Proof. induction n as [|n IH]; [done|]. exact IH. Qed.

Lemma zeros_length n s : String.length (zeros n s) = (n + String.length s)%nat.
Proof. induction n as [|n IH]; [done|]. exact (f_equal S IH). Qed.

Lemma print_u0_spec w z t :
  0 ≤ z → digits_value (print_u0 w z ++ t)%string 0 = digits_value t z.
Proof. intros Hz. unfold print_u0. by rewrite zeros_value, print_u_spec. Qed.

Lemma print_u0_digits w z : all_digits (print_u0 w z) = true ∧ print_u0 w z ≠ EmptyString.
Proof.
  destruct (print_u_digits z) as [Hd Hn]. unfold print_u0. split; [by apply zeros_digits|].
  by destruct (w - _)%nat.
Qed.

Lemma print_u0_length w z :
  (0 < w)%nat → z < 10 ^ Z.of_nat w → String.length (print_u0 w z) = w.
Proof.
  intros Hw Hz. unfold print_u0. rewrite zeros_length.
  pose proof (print_u_length z w Hw Hz). lia.
Qed.

Lemma digit_plain c :
  is_digit c = true → is_space c = false ∧ c ≠ "-"%char ∧ c ≠ "+"%char ∧ c ≠ NUL.
Proof.
  intros H. destruct c as [[] [] [] [] [] [] [] []]; try discriminate H; done.
Qed.

Lemma digits_no_nul s : all_digits s = true → has_char NUL s = false.
Proof.
  induction s as [|c s IH]; [done|]. cbn [all_digits has_char].
  intros [Hc Hs]%andb_true_iff. rewrite IH by done. rewrite bool_decide_eq_false_2; [done|].
  destruct (digit_plain c Hc) as (_ & _ & _ & Hn). congruence.
Qed.

(** A text that starts with a digit has neither a space nor a sign to skip. *)
Lemma digits_start s t :
  all_digits s = true → s ≠ EmptyString → ∃ c u, (s ++ t)%string = String c u ∧ is_digit c = true ∧
    skip_spaces (s ++ t)%string = (s ++ t)%string.
Proof.
  destruct s as [|c s]; [done|]. cbn [all_digits]. intros [Hc Hs]%andb_true_iff _.
  exists c, (s ++ t)%string. split; [done|]. split; [done|].
  change (String c s ++ t)%string with (String c (s ++ t)). cbn [skip_spaces].
  by destruct (digit_plain c Hc) as (-> & _).
Qed.

Lemma atoi_digits s t :
  all_digits s = true → s ≠ EmptyString →
  atoi (s ++ t)%string = wrap_int (strtol_clamp (digits_value (s ++ t)%string 0)).
Proof.
  intros Hs Hn. destruct (digits_start s t Hs Hn) as (c & u & E & Hc & Hk).
  unfold atoi. rewrite Hk, E. destruct (digit_plain c Hc) as (_ & Hm & Hp & _).
  f_equal. f_equal. destruct c as [[] [] [] [] [] [] [] []]; done.
Qed.

(** The low 32 bits of what [atoi] reads from a printed number. *)
Lemma atoi_print_u0 w z t :
  0 ≤ z < 2 ^ 32 → digits_value t z = z →
  atoi (print_u0 w z ++ t)%string mod 2 ^ 32 = z.
Proof.
  intros Hz Ht. destruct (print_u0_digits w z) as [Hd Hn]. rewrite atoi_digits by done.
  rewrite print_u0_spec, Ht by lia. unfold strtol_clamp, wrap_int.
  rewrite Z.min_r, Z.max_r by lia. rewrite Zminus_mod_idemp_l.
  rewrite Z.add_simpl_r. by apply Z.mod_small.
Qed.
