(* ===== verification/StrMap.v ===== *)
(** * String maps

    What the dictionary of a component promises to its clients: the operations
    of [rbtree_op.h] and their laws, stated on the finite map a dictionary
    represents.  [RBTree] implements the class; [IndexedQueue] and [KeyStore] are
    proved against it. *)

From stdpp Require Import base numbers list gmap strings sorting.
From Stdlib Require Import Lia.
From S2P Require Import Prelude CString.

(** ** Sorted association lists *)

Definition sorted_keys {A} (l : list (string * A)) : Prop := StronglySorted str_lt l.*1.

Lemma sorted_NoDup (l : list string) : StronglySorted str_lt l → NoDup l.
Proof.
  induction 1 as [|a l Hl IH Ha]; constructor; [|done].
  intros Hin. rewrite Forall_forall in Ha. by apply (str_lt_irrefl a), Ha.
Qed.

Lemma sorted_keys_NoDup {A} (l : list (string * A)) : sorted_keys l → NoDup l.*1.
Proof. apply sorted_NoDup. Qed.

(** A sorted list split at a key. *)
Lemma sorted_split (l1 l2 : list string) k :
  StronglySorted str_lt (l1 ++ k :: l2) ↔
  StronglySorted str_lt l1 ∧ StronglySorted str_lt l2 ∧
  Forall (λ x, str_lt x k) l1 ∧ Forall (str_lt k) l2.
Proof.
  rewrite StronglySorted_app, StronglySorted_cons, !Forall_forall. split.
  - intros (H & H1 & H2 & H3). split_and!; [done..| |done]. intros x Hx. apply H; [done|].
    apply elem_of_cons. by left.
  - intros (H1 & H2 & H3 & H4). split_and!; [|done..].
    intros x y Hx Hy. apply elem_of_cons in Hy as [->|Hy]; [by apply H3|].
    by eapply str_lt_trans; [apply H3|apply H4].
Qed.

Lemma sorted_remove_mid (l1 l2 : list string) k :
  StronglySorted str_lt (l1 ++ k :: l2) → StronglySorted str_lt (l1 ++ l2).
Proof.
  rewrite !StronglySorted_app, StronglySorted_cons. intros (H & H1 & _ & H2).
  split_and!; [|done..]. intros x y Hx Hy. apply H; [done|]. apply elem_of_cons. by right.
Qed.

Lemma not_elem_of_below k (l : list string) : Forall (λ x, str_lt x k) l → k ∉ l.
Proof. rewrite Forall_forall. intros H Hk. by apply (str_lt_irrefl k), H. Qed.

Lemma not_elem_of_above k (l : list string) : Forall (str_lt k) l → k ∉ l.
Proof. rewrite Forall_forall. intros H Hk. by apply (str_lt_irrefl k), H. Qed.

(** ** Association lists as maps *)

Section assoc.
Context {K A : Type} `{Countable K}.
Implicit Types l : list (K * A).

Lemma list_to_map_mid l1 l2 k v :
  NoDup (l1 ++ (k, v) :: l2).*1 →
  (list_to_map (l1 ++ (k, v) :: l2) : gmap K A) = <[k := v]> (list_to_map (l1 ++ l2)).
Proof.
  intros Hd. rewrite (list_to_map_proper _ ((k, v) :: l1 ++ l2)); [done..|].
  by rewrite Permutation_middle.
Qed.

Lemma list_to_map_mid_None l1 l2 k v :
  NoDup (l1 ++ (k, v) :: l2).*1 → (list_to_map (l1 ++ l2) : gmap K A) !! k = None.
Proof.
  rewrite fmap_app, fmap_cons. simpl. rewrite <-Permutation_middle, <-fmap_app.
  intros [Hk _]%NoDup_cons. by apply not_elem_of_list_to_map_1.
Qed.

Lemma list_to_map_delete_mid l1 l2 k v :
  NoDup (l1 ++ (k, v) :: l2).*1 →
  (list_to_map (l1 ++ l2) : gmap K A) = delete k (list_to_map (l1 ++ (k, v) :: l2)).
Proof.
  intros Hd. rewrite list_to_map_mid by done.
  by rewrite delete_insert_id by (by eapply list_to_map_mid_None).
Qed.

Lemma list_to_map_replace_mid l1 l2 k v v' :
  NoDup (l1 ++ (k, v) :: l2).*1 →
  (list_to_map (l1 ++ (k, v') :: l2) : gmap K A) =
  <[k := v']> (list_to_map (l1 ++ (k, v) :: l2)).
Proof.
  intros Hd. rewrite !list_to_map_mid; [|done|].
  - by rewrite insert_insert_eq.
  - revert Hd. by rewrite !fmap_app, !fmap_cons.
Qed.

End assoc.

(** ** The keys of a map in order *)

Definition str_le (s1 s2 : string) : Prop := strcmp s1 s2 ≠ Gt.

#[export] Instance str_le_dec s1 s2 : Decision (str_le s1 s2).
Proof. unfold str_le. destruct (strcmp s1 s2); [left|left|right]; congruence. Defined.

Lemma str_le_lt_or_eq s1 s2 : str_le s1 s2 ↔ str_lt s1 s2 ∨ s1 = s2.
Proof.
  unfold str_le, str_lt. rewrite <-strcmp_eq. destruct (strcmp s1 s2); naive_solver.
Qed.

Lemma not_str_le s1 s2 : ¬ str_le s1 s2 ↔ str_lt s2 s1.
Proof. rewrite <-strcmp_gt. unfold str_le. destruct (strcmp s1 s2); naive_solver. Qed.

#[export] Instance str_le_trans : Transitive str_le.
Proof.
  intros x y z. rewrite !str_le_lt_or_eq. intros [H1| ->] [H2| ->]; auto.
  left. by eapply str_lt_trans.
Qed.

#[export] Instance str_le_total : Total str_le.
Proof.
  intros x y. destruct (decide (str_le x y)) as [H|H%not_str_le]; [by left|].
  right. apply str_le_lt_or_eq. by left.
Qed.

#[export] Instance str_le_antisymm : AntiSymm eq str_le.
Proof.
  intros x y. rewrite !str_le_lt_or_eq. intros [H1| ->] [H2|H2]; auto.
  by apply str_lt_asym in H2.
Qed.

Definition sorted_dom {A} (m : gmap string A) : list string :=
  merge_sort str_le (map_to_list m).*1.

Lemma sorted_dom_unique {A} (m : gmap string A) (l : list string) :
  StronglySorted str_lt l → l ≡ₚ (map_to_list m).*1 → l = sorted_dom m.
Proof.
  intros Hl Hp. apply (StronglySorted_unique str_le).
  - clear Hp. induction Hl as [|a l Hl IH Ha]; constructor; [done|].
    eapply Forall_impl; [done|]. intros x Hx. apply str_le_lt_or_eq. by left.
  - apply StronglySorted_merge_sort; apply _.
  - unfold sorted_dom. by rewrite Hp, merge_sort_Permutation.
Qed.

Lemma elems_sorted_dom {A} (l : list (string * A)) :
  sorted_keys l → l.*1 = sorted_dom (list_to_map l : gmap string A).
Proof.
  intros Hl. apply sorted_dom_unique; [done|].
  by rewrite map_to_list_to_map by (by apply sorted_keys_NoDup).
Qed.

(** ** The interface *)

(** [T] holds dictionaries with values [void *], that is [option V].  Every
    operation that takes a well-formed dictionary returns.  [sm_dispose] tells
    whether a disposal function is set; deletion and destruction list the
    pointers handed to it. *)
Class StrMap (V T : Type) := {
  sm_wf : T → Prop;
  sm_map : T → gmap string (option V);
  sm_dispose : T → bool;
  sm_empty : T;
  sm_set_dispose : T → bool → T;
  sm_get : T → string → option V;
  sm_insert : T → string → option V → outcome (T * bool);
  sm_replace : T → string → option V → T;
  sm_delete : T → string → outcome (T * bool * list V);
  sm_destroy : T → list V;
  sm_keys : T → list string;
}.

Class StrMapLaws V T `{StrMap V T} := {
  sm_empty_wf : sm_wf sm_empty;
  sm_empty_map : sm_map sm_empty = ∅;
  sm_empty_dispose : sm_dispose sm_empty = false;
  sm_set_dispose_spec t b :
    sm_wf t → sm_wf (sm_set_dispose t b) ∧ sm_map (sm_set_dispose t b) = sm_map t ∧
    sm_dispose (sm_set_dispose t b) = b;
  sm_get_spec t k : sm_wf t → sm_get t k = mjoin (sm_map t !! k);
  sm_insert_dup t k v :
    sm_wf t → is_Some (sm_map t !! k) → sm_insert t k v = Ret (t, false);
  sm_insert_new t k v :
    sm_wf t → sm_map t !! k = None →
    ∃ t', sm_insert t k v = Ret (t', true) ∧ sm_wf t' ∧ sm_dispose t' = sm_dispose t ∧
      sm_map t' = <[k := v]> (sm_map t);
  sm_replace_spec t k v :
    sm_wf t → is_Some (sm_map t !! k) →
    sm_wf (sm_replace t k v) ∧ sm_dispose (sm_replace t k v) = sm_dispose t ∧
    sm_map (sm_replace t k v) = <[k := v]> (sm_map t);
  sm_delete_absent t k :
    sm_wf t → sm_map t !! k = None → sm_delete t k = Ret (t, false, []);
  sm_delete_present t k v :
    sm_wf t → sm_map t !! k = Some v →
    ∃ t', sm_delete t k = Ret (t', true, if sm_dispose t then option_list v else []) ∧
      sm_wf t' ∧ sm_dispose t' = sm_dispose t ∧ sm_map t' = delete k (sm_map t);
  sm_destroy_spec t :
    sm_wf t → sm_dispose t = true → sm_destroy t ≡ₚ omap snd (map_to_list (sm_map t));
  sm_keys_spec t k : sm_wf t → k ∈ sm_keys t ↔ is_Some (sm_map t !! k);
  sm_keys_sorted t : sm_wf t → StronglySorted str_lt (sm_keys t);
}.

(** [T] holds tables in the style of [hashmap_op.h]: [put] inserts or replaces,
    and tells which. *)
Class StrTable (V T : Type) := {
  st_wf : T → Prop;
  st_map : T → gmap string (option V);
  st_get : T → string → outcome (option (option V));
  st_put : T → string → option V → outcome (Z * T);
  st_del : T → string → outcome (Z * T);
  st_iter : T → outcome (list (string * option V));
}.

Class StrTableLaws V T `{StrTable V T} := {
  st_get_spec t k : st_wf t → st_get t k = Ret (st_map t !! k);
  st_put_spec t k v :
    st_wf t →
    ∃ t', st_put t k v = Ret ((if decide (is_Some (st_map t !! k)) then 1 else 0)%Z, t') ∧
      st_wf t' ∧ st_map t' = <[k := v]> (st_map t);
  st_del_spec t k :
    st_wf t →
    ∃ t', st_del t k = Ret ((if decide (is_Some (st_map t !! k)) then 1 else 0)%Z, t') ∧
      st_wf t' ∧ st_map t' = delete k (st_map t);
  st_iter_spec t : st_wf t → ∃ l, st_iter t = Ret l ∧ l ≡ₚ map_to_list (st_map t);
}.
