(* ===== verification/RBTree.v ===== *)
(** * Red-black tree (shared/src/rbtree_op.c)

    A pointer to a node is a position of the tree: the subtree whose root is the
    node, together with the path that leads from it to the root of the tree.
    [node->parent] is the first frame of the path, so the parent pointers are
    consistent with the child pointers by construction.  Dereferencing NULL and
    a failed assertion are faults of the [outcome] monad. *)

From stdpp Require Import base numbers list gmap strings sorting.
From Stdlib Require Import Lia.
From S2P Require Import Prelude CString StrMap.

Inductive rb_color := RB_RED | RB_BLACK.

#[export] Instance rb_color_eq_dec : EqDecision rb_color.
Proof. solve_decision. Defined.

Section rbtree.
Context {V : Type}.

(** The subtree below a [rb_node] pointer; [Leaf] is NULL. *)
Inductive rb_node :=
| Leaf
| Node (color : rb_color) (left : rb_node) (key : string) (value : option V) (right : rb_node).

(** One step up: the parent of a position, which is its left or right child. *)
Inductive frame :=
| IsLeft (color : rb_color) (key : string) (value : option V) (right : rb_node)
| IsRight (color : rb_color) (left : rb_node) (key : string) (value : option V).

Abbreviation path := (list frame).

Record rb_tree := mk_tree {
  root : rb_node;
  has_dispose : bool;
}.

(** The node reached by [->parent] once the position holds [t]. *)
Definition plug (f : frame) (t : rb_node) : rb_node :=
  match f with
  | IsLeft c k v r => Node c t k v r
  | IsRight c l k v => Node c l k v t
  end.

(** The whole tree when the position [p] holds [t]. *)
Fixpoint zip (t : rb_node) (p : path) : rb_node :=
  match p with
  | [] => t
  | f :: p => zip (plug f t) p
  end.

Definition is_red (t : rb_node) : bool :=
  match t with
  | Node RB_RED _ _ _ _ => true
  | _ => false
  end.

Definition is_null (t : rb_node) : bool :=
  match t with
  | Leaf => true
  | _ => false
  end.

(** [node->color = c], through a pointer that may be NULL. *)
Definition set_color (c : rb_color) (t : rb_node) : outcome rb_node :=
  match t with
  | Leaf => Stuck NullDeref
  | Node _ l k v r => Ret (Node c l k v r)
  end.

(** [if (node != NULL) node->color = RB_BLACK;] *)
Definition blacken (t : rb_node) : rb_node :=
  match t with
  | Leaf => Leaf
  | Node _ l k v r => Node RB_BLACK l k v r
  end.

Definition frame_color (f : frame) : rb_color :=
  match f with
  | IsLeft c _ _ _ => c
  | IsRight c _ _ _ => c
  end.

Definition frame_set_color (c : rb_color) (f : frame) : frame :=
  match f with
  | IsLeft _ k v r => IsLeft c k v r
  | IsRight _ l k v => IsRight c l k v
  end.

(** The other child of the parent. *)
Definition sibling (f : frame) : rb_node :=
  match f with
  | IsLeft _ _ _ r => r
  | IsRight _ l _ _ => l
  end.

Definition frame_set_sibling (s : rb_node) (f : frame) : frame :=
  match f with
  | IsLeft c k v _ => IsLeft c k v s
  | IsRight c _ k v => IsRight c s k v
  end.

Definition rb_init (key : string) (value : option V) : rb_node :=
  Node RB_RED Leaf key value Leaf.

(** The values handed to [dispose], in order. *)
Fixpoint rb_destroy (node : rb_node) (dispose : bool) : list V :=
  match node with
  | Leaf => []
  | Node _ l _ v r =>
      rb_destroy l dispose ++ rb_destroy r dispose
        ++ (if dispose then option_list v else [])
  end.

(** The position of the node that stores [key], below the position [p]. *)
Fixpoint rb_get (node : rb_node) (p : path) (key : string) : option (rb_node * path) :=
  match node with
  | Leaf => None
  | Node c l k v r =>
      match strcmp key k with
      | Eq => Some (node, p)
      | Lt => rb_get l (IsLeft c k v r :: p) key
      | Gt => rb_get r (IsRight c l k v :: p) key
      end
  end.

Fixpoint rb_min (node : rb_node) (p : path) : outcome (rb_node * path) :=
  match node with
  | Leaf => Stuck NullDeref
  | Node c l k v r =>
      if is_null l then Ret (node, p) else rb_min l (IsLeft c k v r :: p)
  end.

Fixpoint rb_max (node : rb_node) (p : path) : outcome (rb_node * path) :=
  match node with
  | Leaf => Stuck NullDeref
  | Node c l k v r =>
      if is_null r then Ret (node, p) else rb_max r (IsRight c l k v :: p)
  end.

(** [rb_uncle] of a node whose path is [p]. *)
Definition rb_uncle (p : path) : rb_node :=
  match p with
  | _ :: fg :: _ => sibling fg
  | _ => Leaf
  end.

Definition rb_rotate_left (node : rb_node) : outcome rb_node :=
  match node with
  | Node c l k v (Node tc tl tk tv tr) => Ret (Node tc (Node c l k v tl) tk tv tr)
  | _ => Stuck NullDeref
  end.

Definition rb_rotate_right (node : rb_node) : outcome rb_node :=
  match node with
  | Node c (Node tc tl tk tv tr) k v r => Ret (Node tc tl tk tv (Node c tr k v r))
  | _ => Stuck NullDeref
  end.

(** The loop of [rb_balance_insert]: [node] is at path [p].  After a rotation
    the parent of the node is black, so the loop ends. *)
Fixpoint rb_fix_insert (node : rb_node) (p : path) : outcome rb_node :=
  match p with
  | [] => Ret node
  | fp :: p1 =>
      if decide (frame_color fp = RB_BLACK) then Ret (zip node p)
      else
        match p1 with
        | [] => Stuck NullDeref
        | fg :: p2 =>
            let uncle := rb_uncle p in
            if is_red uncle then
              let parent := plug (frame_set_color RB_BLACK fp) node in
              let fg' := frame_set_sibling (blacken uncle) (frame_set_color RB_RED fg) in
              rb_fix_insert (plug fg' parent) p2
            else
              match fg with
              | IsLeft _ gk gv gr =>
                  parent ← match fp with
                           | IsRight _ _ _ _ => rb_rotate_left (plug fp node)
                           | IsLeft _ _ _ _ => Ret (plug fp node)
                           end;
                  parent ← set_color RB_BLACK parent;
                  top ← rb_rotate_right (Node RB_RED parent gk gv gr);
                  Ret (zip top p2)
              | IsRight _ gl gk gv =>
                  parent ← match fp with
                           | IsLeft _ _ _ _ => rb_rotate_right (plug fp node)
                           | IsRight _ _ _ _ => Ret (plug fp node)
                           end;
                  parent ← set_color RB_BLACK parent;
                  top ← rb_rotate_left (Node RB_RED gl gk gv parent);
                  Ret (zip top p2)
              end
        end
  end.

Definition rb_balance_insert (node : rb_node) (p : path) : outcome rb_node :=
  t ← rb_fix_insert node p;
  set_color RB_BLACK t.

(** What one pass of the loop of [rb_balance_delete] leads to. *)
Inductive pass :=
| Again (node : rb_node) (p : path)   (* the next test of the condition *)
| Break (tree : rb_node).             (* [break], the tree once [node] is black *)

(** Cases 2 to 4 for a left child: [node] is the left child of the parent
    [(pc, pk, pv)], whose right child is [sib] and whose path is [p]. *)
Definition delete_left_cases (node : rb_node) (pc : rb_color) (pk : string) (pv : option V)
    (sib : rb_node) (p : path) : outcome pass :=
  match sib with
  | Leaf => Stuck NullDeref
  | Node _ sl sk sv sr =>
      if negb (is_red sib) && negb (is_red sl) && negb (is_red sr) then
        Ret (Again (Node pc node pk pv (Node RB_RED sl sk sv sr)) p)
      else
        sib ← (if negb (is_red sr) then
                 sl' ← set_color RB_BLACK sl;
                 rb_rotate_right (Node RB_RED sl' sk sv sr)
               else Ret sib);
        match sib with
        | Leaf => Stuck NullDeref
        | Node _ sl sk sv sr =>
            c_assert (negb (is_null sr));;
            sr' ← set_color RB_BLACK sr;
            top ← rb_rotate_left (Node RB_BLACK (blacken node) pk pv (Node pc sl sk sv sr'));
            Ret (Break (zip top p))
        end
  end.

(** The branch for a left child.  In case 1 the red sibling becomes the parent
    of the parent, and its left child the new sibling. *)
Definition delete_left (node : rb_node) (pc : rb_color) (pk : string) (pv : option V)
    (sib : rb_node) (p : path) : outcome pass :=
  c_assert (negb (is_null sib));;
  match sib with
  | Node RB_RED sl sk sv sr =>
      delete_left_cases node RB_RED pk pv sl (IsLeft RB_BLACK sk sv sr :: p)
  | _ => delete_left_cases node pc pk pv sib p
  end.

(** Cases 2b to 4b for a right child. *)
Definition delete_right_cases (node : rb_node) (pc : rb_color) (pk : string) (pv : option V)
    (sib : rb_node) (p : path) : outcome pass :=
  match sib with
  | Leaf => Stuck NullDeref
  | Node _ sl sk sv sr =>
      if negb (is_red sib) && negb (is_red sl) && negb (is_red sr) then
        Ret (Again (Node pc (Node RB_RED sl sk sv sr) pk pv node) p)
      else
        sib ← (if negb (is_red sl) then
                 sr' ← set_color RB_BLACK sr;
                 rb_rotate_left (Node RB_RED sl sk sv sr')
               else Ret sib);
        match sib with
        | Leaf => Stuck NullDeref
        | Node _ sl sk sv sr =>
            c_assert (negb (is_null sl));;
            sl' ← set_color RB_BLACK sl;
            top ← rb_rotate_right (Node RB_BLACK (Node pc sl' sk sv sr) pk pv (blacken node));
            Ret (Break (zip top p))
        end
  end.

(** The branch for a right child. *)
Definition delete_right (node : rb_node) (pc : rb_color) (pk : string) (pv : option V)
    (sib : rb_node) (p : path) : outcome pass :=
  c_assert (negb (is_null sib));;
  match sib with
  | Node RB_RED sl sk sv sr =>
      delete_right_cases node RB_RED pk pv sr (IsRight RB_BLACK sl sk sv :: p)
  | _ => delete_right_cases node pc pk pv sib p
  end.

(** One pass: [node == parent->left] compares pointers, so it also holds of a
    NULL right child whose sibling is NULL. *)
Definition delete_pass (node : rb_node) (f : frame) (p : path) : outcome pass :=
  match f with
  | IsLeft pc pk pv r => delete_left node pc pk pv r p
  | IsRight pc l pk pv =>
      if is_null node && is_null l then delete_left l pc pk pv node p
      else delete_right node pc pk pv l p
  end.

Fixpoint rb_balance_delete (fuel : nat) (node : rb_node) (p : path) : outcome rb_node :=
  match fuel with
  | 0 => Stuck OutOfFuel
  | S fuel =>
      match p with
      | [] => Ret (blacken node)
      | f :: p' =>
          if is_red node then Ret (zip (blacken node) p)
          else
            r ← delete_pass node f p';
            match r with
            | Again node p => rb_balance_delete fuel node p
            | Break t => Ret t
            end
      end
  end.

(** In-order keys, as [rb_keys] appends them to the array. *)
Fixpoint rb_keys (node : rb_node) (array : list string) : list string :=
  match node with
  | Leaf => array
  | Node _ l k _ r => rb_keys r (rb_keys l array ++ [k])
  end.

Fixpoint rb_range (node : rb_node) (min max : string) (array : list string) : list string :=
  match node with
  | Leaf => array
  | Node _ l k _ r =>
      let cmp_min := strcmp k min in
      let cmp_max := strcmp k max in
      let array := match cmp_min with Gt => rb_range l min max array | _ => array end in
      let array := match cmp_min, cmp_max with
                   | Lt, _ | _, Gt => array
                   | _, _ => array ++ [k]
                   end in
      match cmp_max with Lt => rb_range r min max array | _ => array end
  end.

Fixpoint rb_black_depth (node : rb_node) : Z :=
  match node with
  | Leaf => 1
  | Node c l _ _ r =>
      let d_left := rb_black_depth l in
      let d_right := rb_black_depth r in
      if decide (d_left ≠ d_right) then -1
      else (d_left + (if decide (c = RB_BLACK) then 1 else 0))%Z
  end%Z.

Fixpoint rb_size (node : rb_node) : nat :=
  match node with
  | Leaf => 0
  | Node _ l _ _ r => rb_size l + 1 + rb_size r
  end.

Definition rbtree_init : rb_tree := mk_tree Leaf false.

Definition rbtree_destroy (tree : rb_tree) : list V :=
  rb_destroy (root tree) (has_dispose tree).

Definition rbtree_set_dispose (tree : rb_tree) (dispose : bool) : rb_tree :=
  mk_tree (root tree) dispose.

(** The descent of [rbtree_insert]: the path of the NULL pointer the new node
    replaces, [None] for a duplicate key. *)
Fixpoint insert_position (t : rb_node) (p : path) (key : string) : option path :=
  match t with
  | Leaf => Some p
  | Node c l k v r =>
      match strcmp key k with
      | Eq => None
      | Lt => insert_position l (IsLeft c k v r :: p) key
      | Gt => insert_position r (IsRight c l k v :: p) key
      end
  end.

(** The tree, and whether the returned node is not NULL. *)
Definition rbtree_insert (tree : rb_tree) (key : string) (value : option V)
    : outcome (rb_tree * bool) :=
  match insert_position (root tree) [] key with
  | None => Ret (tree, false)
  | Some p =>
      t ← rb_balance_insert (rb_init key value) p;
      Ret (mk_tree t (has_dispose tree), true)
  end.

Definition dispose_value (tree : rb_tree) (v : option V) : list V :=
  if has_dispose tree then option_list v else [].

(** The tree, the returned pointer and the values disposed. *)
Definition rbtree_replace (tree : rb_tree) (key : string) (value : option V)
    : rb_tree * option V * list V :=
  match rb_get (root tree) [] key with
  | Some (Node c l k v r, p) =>
      (mk_tree (zip (Node c l k value r) p) (has_dispose tree), value, dispose_value tree v)
  | _ => (tree, None, [])
  end.

Definition rbtree_get (tree : rb_tree) (key : string) : option V :=
  match rb_get (root tree) [] key with
  | Some (Node _ _ _ v _, _) => v
  | _ => None
  end.

(** [s->left] if it is not NULL, [s->right] otherwise. *)
Definition only_child (l r : rb_node) : rb_node :=
  if is_null l then r else l.

(** The end of [rbtree_delete]: the node of colour [c] at path [p] has been
    replaced by its child [t]. *)
Definition unlink (c : rb_color) (t : rb_node) (p : path) : outcome rb_node :=
  if decide (c = RB_BLACK) then rb_balance_delete (length p + 2) t p
  else Ret (zip t p).

(** The node of colour [c] at path [p], with children [l] and [r], goes away:
    with two children its successor [s] is unlinked, and the key and value of [s]
    are copied into the node. *)
Definition delete_node (c : rb_color) (l r : rb_node) (p : path) : outcome rb_node :=
  if negb (is_null l) && negb (is_null r) then
    '(s, q) ← rb_min r [];
    match s with
    | Leaf => Stuck NullDeref
    | Node sc sl sk sv sr =>
        unlink sc (only_child sl sr) (q ++ IsRight c l sk sv :: p)
    end
  else unlink c (only_child l r) p.

Definition rbtree_delete (tree : rb_tree) (key : string) : outcome (rb_tree * bool * list V) :=
  match rb_get (root tree) [] key with
  | Some (Node c l _ v r, p) =>
      t ← delete_node c l r p;
      Ret (mk_tree t (has_dispose tree), true, dispose_value tree v)
  | _ => Ret (tree, false, [])
  end.

Definition node_key (t : rb_node) : option string :=
  match t with
  | Leaf => None
  | Node _ _ k _ _ => Some k
  end.

Definition rbtree_minimum (tree : rb_tree) : outcome (option string) :=
  if is_null (root tree) then Ret None
  else '(n, _) ← rb_min (root tree) []; Ret (node_key n).

Definition rbtree_maximum (tree : rb_tree) : outcome (option string) :=
  if is_null (root tree) then Ret None
  else '(n, _) ← rb_max (root tree) []; Ret (node_key n).

Definition rbtree_keys (tree : rb_tree) : list string := rb_keys (root tree) [].

Definition rbtree_range (tree : rb_tree) (min max : string) : list string :=
  rb_range (root tree) min max [].

Definition rbtree_black_depth (tree : rb_tree) : Z :=
  match root tree with
  | Leaf => 0
  | Node c l _ _ r =>
      if decide (c = RB_RED) then -1
      else
        let d_left := rb_black_depth l in
        let d_right := rb_black_depth r in
        if decide (d_left = -1 ∨ d_right = -1 ∨ d_left ≠ d_right) then -1 else d_left
  end%Z.

Definition rbtree_size (tree : rb_tree) : nat := rb_size (root tree).

Definition rbtree_empty (tree : rb_tree) : bool := is_null (root tree).

(** ** The red-black invariant *)

(** [rbt t n]: no red node has a red child, and every path of [t] to a leaf has
    [n] black nodes, the leaf included. *)
Inductive rbt : rb_node → nat → Prop :=
| rbt_leaf : rbt Leaf 1
| rbt_red l k v r n :
    rbt l n → rbt r n → is_red l = false → is_red r = false →
    rbt (Node RB_RED l k v r) n
| rbt_black l k v r n :
    rbt l n → rbt r n → rbt (Node RB_BLACK l k v r) (S n).

(** [rbp p a n]: the path [p] expects a subtree of black height [n], whose root
    may be red iff [a]; the root of the whole tree is black. *)
Inductive rbp : path → bool → nat → Prop :=
| rbp_top n : rbp [] false n
| rbp_red_left k v r p n :
    rbt r n → is_red r = false → rbp p true n → rbp (IsLeft RB_RED k v r :: p) false n
| rbp_red_right l k v p n :
    rbt l n → is_red l = false → rbp p true n → rbp (IsRight RB_RED l k v :: p) false n
| rbp_black_left k v r p a n :
    rbt r n → rbp p a (S n) → rbp (IsLeft RB_BLACK k v r :: p) true n
| rbp_black_right l k v p a n :
    rbt l n → rbp p a (S n) → rbp (IsRight RB_BLACK l k v :: p) true n.

#[local] Hint Constructors rbt rbp : core.

(** The key-value pairs in order. *)
Fixpoint elems (t : rb_node) : list (string * option V) :=
  match t with
  | Leaf => []
  | Node _ l k v r => elems l ++ (k, v) :: elems r
  end.

(** The pairs to the left and to the right of a position. *)
Fixpoint before (p : path) : list (string * option V) :=
  match p with
  | [] => []
  | IsLeft _ _ _ _ :: p => before p
  | IsRight _ l k v :: p => before p ++ elems l ++ [(k, v)]
  end.

Fixpoint after (p : path) : list (string * option V) :=
  match p with
  | [] => []
  | IsLeft _ k v r :: p => (k, v) :: elems r ++ after p
  | IsRight _ _ _ _ :: p => after p
  end.

Lemma elems_zip t p : elems (zip t p) = before p ++ elems t ++ after p.
Proof.
  revert t. induction p as [|[] p IH]; intros t; simpl; rewrite ?IH; simpl.
  - by rewrite app_nil_r.
  - by rewrite <-!app_assoc.
  - by rewrite <-!app_assoc.
Qed.

Lemma rbt_pos t n : rbt t n → ∃ m, n = S m.
Proof. induction 1; naive_solver. Qed.

Lemma rbt_blacken t n : rbt t n → ∃ m, rbt (blacken t) m.
Proof. inversion 1; simpl; eauto. Qed.

Lemma is_red_blacken t : is_red (blacken t) = false.
Proof. by destruct t. Qed.

Lemma elems_blacken t : elems (blacken t) = elems t.
Proof. by destruct t. Qed.

Lemma blacken_black t : is_red t = false → blacken t = t.
Proof. by destruct t as [|[]]. Qed.

Lemma zip_rbt t p a n :
  rbt t n → rbp p a n → (is_red t = true → a = true) →
  ∃ m, rbt (zip t p) m ∧ is_red (zip t p) = false.
Proof.
  intros Ht Hp. revert t Ht. induction Hp; intros t Ht Ha; simpl.
  - exists n. split; [done|]. by destruct (is_red t); [specialize (Ha eq_refl)|].
  - apply IHHp; [|done]. constructor; [done..| |done].
    by destruct (is_red t); [specialize (Ha eq_refl)|].
  - apply IHHp; [|done]. constructor; [done..|].
    by destruct (is_red t); [specialize (Ha eq_refl)|].
  - apply IHHp; [by constructor|done].
  - apply IHHp; [by constructor|done].
Qed.

(** Tactics: take apart what the invariant says about nodes in sight. *)
Ltac rb_inv :=
  repeat match goal with
  | H : rbt (Node _ _ _ _ _) _ |- _ => inversion H; clear H; subst
  | H : rbt Leaf _ |- _ => inversion H; clear H; subst
  | H : rbp (_ :: _) _ _ |- _ => inversion H; clear H; subst
  | H : is_red (Node ?c _ _ _ _) = _ |- _ => is_var c; destruct c
  | H : is_red (Node RB_RED _ _ _ _) = false |- _ => discriminate H
  | H : is_red (Node RB_BLACK _ _ _ _) = true |- _ => discriminate H
  | H : is_red Leaf = true |- _ => discriminate H
  end.

Ltac rb_elems :=
  rewrite ?elems_zip; simpl; rewrite ?elems_blacken; repeat (rewrite <-app_assoc; simpl).

Lemma fix_insert_spec node p a n :
  rbt node n → is_red node = true → rbp p a n →
  ∃ t m, rb_fix_insert node p = Ret t ∧ rbt t m ∧ elems t = elems (zip node p).
Proof.
  revert node a n.
  induction p as [p IH] using (well_founded_induction (well_founded_ltof _ (@length frame))).
  intros node a n Hn Hred Hp. destruct p as [|fp p1]; [by exists node, n|]. simpl.
  destruct (decide (frame_color fp = RB_BLACK)) as [Hb|Hb].
  { destruct (zip_rbt node (fp :: p1) a n) as (m & Hm & _); [done..| |by eexists _, m].
    inversion Hp; simplify_eq/=; done. }
  assert (Hp1 : rbp p1 true n) by (inversion Hp; simplify_eq/=; done).
  destruct p1 as [|fg p2]; [inversion Hp1|].
  destruct (is_red (sibling fg)) eqn:Hu.
  - assert (∃ a, rbp p2 a (S n)) as [a' Hp2] by (inversion Hp1; subst; eauto).
    set (node' := plug _ _).
    destruct (IH p2) with (node := node') (a := a') (n := S n) as (t & m & -> & Hm & He).
    + unfold ltof. simpl. lia.
    + subst node'. destruct (sibling fg) as [|[] ul uk uv ur] eqn:Hs; try done.
      destruct fg, fp; rb_inv; simplify_eq/=; rb_inv; eauto 10.
    + by subst node'; destruct fg.
    + done.
    + exists t, m. split_and!; [done..|]. rewrite He. subst node'.
      destruct fg, fp; rb_elems; done.
  - assert (∃ a, rbp p2 a (S n)) as [a' Hp2] by (inversion Hp1; subst; eauto).
    destruct node as [|[] nl nk nv nr]; try done.
    assert (Hr : ∀ top, rbt top (S n) → is_red top = false →
              elems top = elems (plug fg (plug fp (Node RB_RED nl nk nv nr))) →
              ∃ t m, Ret (zip top p2) = Ret t ∧ rbt t m ∧
                elems t = elems (zip (plug fp (Node RB_RED nl nk nv nr)) (fg :: p2))).
    { intros top Ht Hb' He. destruct (zip_rbt top p2 a' (S n)) as (m & Hm & _); [done..|by rewrite Hb'|].
      exists (zip top p2), m. split_and!; [done..|]. simpl. by rewrite !elems_zip, He. }
    destruct fg, fp; simplify_eq/=; rb_inv; simplify_eq/=; rb_inv; apply Hr;
      first [by auto|by rb_elems].
Qed.

(** A position that lost one black node: a red root makes up for it by turning
    black. *)
Definition deficient (t : rb_node) (n : nat) : Prop :=
  if is_red t then rbt (blacken t) (S n) else rbt t n.

(** What a pass must establish for the position [node], [f :: p]: the pairs do
    not change, and either the tree is repaired or the next pass starts closer to
    the root, or at a red node. *)
Definition pass_ok (node : rb_node) (f : frame) (p : path) (r : pass) : Prop :=
  match r with
  | Break t => (∃ m, rbt t m) ∧ is_red t = false ∧ elems t = elems (zip node (f :: p))
  | Again t q =>
      (∃ n a, deficient t n ∧ rbp q a (S n)) ∧ elems (zip t q) = elems (zip node (f :: p)) ∧
      (length q ≤ length p ∨ is_red t = true)
  end.

Lemma rbt_deficient t n : rbt t n → deficient t n.
Proof. unfold deficient. inversion 1; subst; simpl; auto. Qed.

Lemma pass_break node f p top a n :
  rbt top n → rbp p a n → (is_red top = true → a = true) →
  elems top = elems (plug f node) → pass_ok node f p (Break (zip top p)).
Proof.
  intros Ht Hp Ha He. destruct (zip_rbt top p a n) as (m & Hm & Hb); [done..|].
  split_and!; [by exists m|done|]. simpl. by rewrite !elems_zip, He.
Qed.

Lemma pass_again node f p t a n :
  deficient t n → rbp p a (S n) → elems t = elems (plug f node) →
  pass_ok node f p (Again t p).
Proof.
  intros Ht Hp He. split_and!; [by exists n, a| |by left]. simpl. by rewrite !elems_zip, He.
Qed.

(** After cases 2 to 4 the loop ends or goes on at the parent. *)
Definition at_parent (pc : rb_color) (p : path) (r : pass) : Prop :=
  ∀ t q, r = Again t q → q = p ∧ (pc = RB_RED → is_red t = true).

Ltac rb_cases Hb :=
  eexists; split_and!; [reflexivity|..];
  [ first [ eapply pass_break; [|eassumption|..] | eapply pass_again; [|eassumption|..] ];
    [ unfold deficient; simpl; rewrite ?(blacken_black _ Hb); by auto
    | first [done|by rb_elems]..]
  | intros ? ? ?; simplify_eq; by split ].

Lemma delete_left_cases_spec node pc pk pv sib p a n :
  rbt node n → is_red node = false → is_red sib = false →
  rbp (IsLeft pc pk pv sib :: p) a (S n) →
  ∃ r, delete_left_cases node pc pk pv sib p = Ret r ∧
    pass_ok node (IsLeft pc pk pv sib) p r ∧ at_parent pc p r.
Proof.
  intros Hn Hb Hs Hp. destruct sib as [|[] sl sk sv sr]; [|done|].
  { exfalso. destruct (rbt_pos _ _ Hn) as [m ->]. inversion Hp; subst; rb_inv. }
  unfold delete_left_cases. rb_inv.
  all: destruct (is_red sl) eqn:Hsl, (is_red sr) eqn:Hsr; simpl; rewrite ?Hsl, ?Hsr; simpl.
  all: try (destruct sr as [|[] ? ? ? ?]; try done; rb_inv; simpl).
  all: try (destruct sl as [|[] ? ? ? ?]; try done; rb_inv; simpl).
  all: rb_cases Hb.
Qed.

Lemma delete_right_cases_spec node pc pk pv sib p a n :
  rbt node n → is_red node = false → is_red sib = false →
  rbp (IsRight pc sib pk pv :: p) a (S n) →
  ∃ r, delete_right_cases node pc pk pv sib p = Ret r ∧
    pass_ok node (IsRight pc sib pk pv) p r ∧ at_parent pc p r.
Proof.
  intros Hn Hb Hs Hp. destruct sib as [|[] sl sk sv sr]; [|done|].
  { exfalso. destruct (rbt_pos _ _ Hn) as [m ->]. inversion Hp; subst; rb_inv. }
  unfold delete_right_cases. rb_inv.
  all: destruct (is_red sl) eqn:Hsl, (is_red sr) eqn:Hsr; simpl; rewrite ?Hsl, ?Hsr; simpl.
  all: try (destruct sr as [|[] ? ? ? ?]; try done; rb_inv; simpl).
  all: try (destruct sl as [|[] ? ? ? ?]; try done; rb_inv; simpl).
  all: rb_cases Hb.
Qed.

(** Case 1: the pass below the rotation is a pass of the original position. *)
Lemma pass_ok_rotate node f f1 f2 p r :
  elems (plug f2 (plug f1 node)) = elems (plug f node) →
  pass_ok node f1 (f2 :: p) r → at_parent RB_RED (f2 :: p) r → pass_ok node f p r.
Proof.
  intros He Hr Hq. destruct r as [t q|t]; simpl in *.
  - destruct Hr as (Hd & Ht & _). destruct (Hq _ _ eq_refl) as [-> Hred].
    split_and!; [done| |by right; apply Hred]. by rewrite Ht, !elems_zip, He.
  - destruct Hr as (Hd & Ht & Ht'). split_and!; [done..|]. by rewrite Ht', !elems_zip, He.
Qed.

Lemma delete_pass_spec node f p a n :
  rbt node n → is_red node = false → rbp (f :: p) a (S n) →
  ∃ r, delete_pass node f p = Ret r ∧ pass_ok node f p r.
Proof.
  intros Hn Hb Hp.
  assert (Hs : rbt (sibling f) (S n)) by (inversion Hp; done).
  assert (Hs' : is_null (sibling f) = false).
  { destruct (sibling f); [|done]. destruct (rbt_pos _ _ Hn) as [m ->]. inversion Hs. }
  destruct f as [pc pk pv sib|pc sib pk pv]; simpl in *.
  - unfold delete_left. rewrite Hs'. simpl.
    destruct sib as [|[] sl sk sv sr]; [done|..].
    + edestruct delete_left_cases_spec as (r & -> & Hr & Hq); [exact Hn|exact Hb| |..].
      3: { exists r. split; [done|]. eapply pass_ok_rotate; [|done..]. by rb_elems. }
      all: rb_inv; eauto.
    + edestruct delete_left_cases_spec as (r & -> & Hr & Hq); [exact Hn|exact Hb|done|done|].
      by exists r.
  - rewrite Hs', andb_false_r. unfold delete_right. rewrite Hs'. simpl.
    destruct sib as [|[] sl sk sv sr]; [done|..].
    + edestruct delete_right_cases_spec as (r & -> & Hr & Hq); [exact Hn|exact Hb| |..].
      3: { exists r. split; [done|]. eapply pass_ok_rotate; [|done..]. by rb_elems. }
      all: rb_inv; eauto.
    + edestruct delete_right_cases_spec as (r & -> & Hr & Hq); [exact Hn|exact Hb|done|done|].
      by exists r.
Qed.

Lemma balance_delete_red fuel node p a n :
  is_red node = true → deficient node n → rbp p a (S n) →
  ∃ t m, rb_balance_delete (S fuel) node p = Ret t ∧ rbt t m ∧ is_red t = false ∧
    elems t = elems (zip node p).
Proof.
  intros Hr Hd Hp. unfold deficient in Hd. rewrite Hr in Hd.
  destruct p as [|f p]; cbn [rb_balance_delete]; rewrite ?Hr.
  - exists (blacken node), (S n).
    split_and!; [done..|apply is_red_blacken|apply elems_blacken].
  - destruct (zip_rbt (blacken node) (f :: p) a (S n)) as (m & Hm & Hb);
      [done..|by rewrite is_red_blacken|].
    exists (zip (blacken node) (f :: p)), m. split_and!; [done..|].
    by rewrite !elems_zip, elems_blacken.
Qed.

(** Each pass ends the loop or moves it one node up; one more pass is needed
    after case 1. *)
Lemma balance_delete_spec fuel node p a n :
  length p + 2 ≤ fuel → deficient node n → rbp p a (S n) →
  ∃ t m, rb_balance_delete fuel node p = Ret t ∧ rbt t m ∧ is_red t = false ∧
    elems t = elems (zip node p).
Proof.
  revert node p a n. induction fuel as [|fuel IH]; intros node p a n Hf Hd Hp; [lia|].
  destruct (is_red node) eqn:Hr; [by eapply balance_delete_red|].
  pose proof Hd as Hn. unfold deficient in Hn. rewrite Hr in Hn.
  destruct p as [|f p]; cbn [rb_balance_delete]; rewrite ?Hr.
  { exists node, n. by rewrite blacken_black. }
  destruct (delete_pass_spec node f p a n Hn Hr Hp) as ([t q|t] & -> & Ho); simpl in Ho |- *.
  - destruct Ho as ((n' & a' & Hd' & Hp') & He & Hq). rewrite <-He. simpl in Hf.
    destruct Hq as [Hq|Hq]; [eapply IH; [lia|done..]|].
    destruct fuel; [lia|]. by eapply balance_delete_red.
  - destruct Ho as ((m & Hm) & Hb & He). by exists t, m.
Qed.

(** ** Search trees *)

Definition keys (t : rb_node) : list string := (elems t).*1.

Definition bst (t : rb_node) : Prop := sorted_keys (elems t).

Lemma bst_node c l k v r :
  bst (Node c l k v r) ↔
  bst l ∧ bst r ∧ Forall (λ x, str_lt x k) (keys l) ∧ Forall (str_lt k) (keys r).
Proof. unfold bst, sorted_keys, keys. simpl. rewrite fmap_app. apply sorted_split. Qed.

Lemma keys_node c l k v r : keys (Node c l k v r) = keys l ++ k :: keys r.
Proof. unfold keys. simpl. by rewrite fmap_app. Qed.

Lemma strcmp_lt_not_above key k (l : list string) :
  strcmp key k = Lt → Forall (str_lt k) l → key ∉ l.
Proof.
  intros Hlt Hl. apply not_elem_of_above. eapply Forall_impl; [done|]. simpl.
  intros x Hx. by eapply str_lt_trans.
Qed.

Lemma strcmp_gt_not_below key k (l : list string) :
  strcmp key k = Gt → Forall (λ x, str_lt x k) l → key ∉ l.
Proof.
  intros Hgt%strcmp_gt Hl. apply not_elem_of_below. eapply Forall_impl; [done|]. simpl.
  intros x Hx. by eapply str_lt_trans.
Qed.

Lemma get_Some t p key n q :
  rb_get t p key = Some (n, q) →
  (∃ c l v r, n = Node c l key v r) ∧ zip n q = zip t p.
Proof.
  revert p. induction t as [|c l IHl k v r IHr]; intros p; simpl; [done|].
  destruct (strcmp key k) eqn:Hc.
  - intros [= <- <-]. apply strcmp_eq in Hc as ->. naive_solver.
  - apply IHl.
  - apply IHr.
Qed.

Lemma get_None t p key : bst t → rb_get t p key = None → key ∉ keys t.
Proof.
  revert p. induction t as [|c l IHl k v r IHr]; intros p.
  { intros _ _. apply not_elem_of_nil. }
  rewrite bst_node, keys_node. intros (Hl & Hr & Hlk & Hkr). simpl.
  rewrite not_elem_of_app, not_elem_of_cons.
  destruct (strcmp key k) eqn:Hc; [done|..]; intros Hg; split_and!.
  - by eapply IHl.
  - by apply str_lt_ne.
  - by eapply strcmp_lt_not_above.
  - by eapply strcmp_gt_not_below.
  - apply strcmp_gt in Hc. by apply not_eq_sym, str_lt_ne.
  - by eapply IHr.
Qed.

Lemma insert_position_None t p key : insert_position t p key = None → key ∈ keys t.
Proof.
  revert p. induction t as [|c l IHl k v r IHr]; intros p; simpl; [done|].
  rewrite keys_node, elem_of_app, elem_of_cons.
  destruct (strcmp key k) eqn:Hc; intros H; eauto. apply strcmp_eq in Hc. auto.
Qed.

(** The new node goes between the smaller and the greater keys. *)
Lemma insert_position_Some t p key q :
  bst t → insert_position t p key = Some q →
  zip Leaf q = zip t p ∧
  (Forall (λ x, str_lt x key) (before p).*1 → Forall (λ x, str_lt x key) (before q).*1) ∧
  (Forall (str_lt key) (after p).*1 → Forall (str_lt key) (after q).*1).
Proof.
  revert p. induction t as [|c l IHl k v r IHr]; intros p; [by intros _ [= <-]|].
  rewrite bst_node. intros (Hl & Hr & Hlk & Hkr). simpl.
  destruct (strcmp key k) eqn:Hc; [done|..]; intros Hq.
  - destruct (IHl _ Hl Hq) as (-> & H1 & H2). split_and!; [done|by apply H1|].
    intros Hp. apply H2. simpl. rewrite fmap_app. constructor; [done|].
    apply Forall_app. split; [|done]. eapply Forall_impl; [done|]. simpl. intros x Hx.
    by eapply str_lt_trans.
  - apply strcmp_gt in Hc. destruct (IHr _ Hr Hq) as (-> & H1 & H2).
    split_and!; [done| |by apply H2].
    intros Hp. apply H1. simpl. rewrite !fmap_app. apply Forall_app. split; [done|].
    apply Forall_app. split; [|by repeat constructor].
    eapply Forall_impl; [done|]. simpl. intros x Hx. by eapply str_lt_trans.
Qed.

Lemma rbp_down_left c l k v r p a n :
  rbt (Node c l k v r) n → rbp p a n → (c = RB_RED → a = true) →
  ∃ a' n', rbt l n' ∧ rbp (IsLeft c k v r :: p) a' n' ∧ (is_red l = true → a' = true).
Proof.
  intros Ht Hp Ha. inversion Ht; subst.
  - rewrite (Ha eq_refl) in Hp. exists false, n. split_and!; [done|auto|congruence].
  - eexists true, _. eauto.
Qed.

Lemma rbp_down_right c l k v r p a n :
  rbt (Node c l k v r) n → rbp p a n → (c = RB_RED → a = true) →
  ∃ a' n', rbt r n' ∧ rbp (IsRight c l k v :: p) a' n' ∧ (is_red r = true → a' = true).
Proof.
  intros Ht Hp Ha. inversion Ht; subst.
  - rewrite (Ha eq_refl) in Hp. exists false, n. split_and!; [done|auto|congruence].
  - eexists true, _. eauto.
Qed.

(** Every position of a red-black tree has a red-black path. *)
Lemma insert_position_rbp t p key q a n :
  rbt t n → rbp p a n → (is_red t = true → a = true) →
  insert_position t p key = Some q → ∃ a', rbp q a' 1.
Proof.
  revert p a n. induction t as [|c l IHl k v r IHr]; intros p a n Ht Hp Ha; simpl.
  { inversion Ht; subst. intros [= <-]. eauto. }
  assert (c = RB_RED → a = true) as Ha' by (by intros ->; apply Ha).
  destruct (strcmp key k); [done|..]; intros Hq.
  - destruct (rbp_down_left _ _ _ _ _ _ _ _ Ht Hp Ha') as (a' & n' & ? & ? & ?). eauto.
  - destruct (rbp_down_right _ _ _ _ _ _ _ _ Ht Hp Ha') as (a' & n' & ? & ? & ?). eauto.
Qed.

Lemma get_rbp t p key m q a n :
  rbt t n → rbp p a n → (is_red t = true → a = true) →
  rb_get t p key = Some (m, q) → ∃ a' n', rbt m n' ∧ rbp q a' n' ∧ (is_red m = true → a' = true).
Proof.
  revert p a n. induction t as [|c l IHl k v r IHr]; intros p a n Ht Hp Ha; simpl; [done|].
  assert (c = RB_RED → a = true) as Ha' by (by intros ->; apply Ha).
  destruct (strcmp key k); intros Hq.
  - simplify_eq. eauto.
  - destruct (rbp_down_left _ _ _ _ _ _ _ _ Ht Hp Ha') as (a' & n' & ? & ? & ?). eauto.
  - destruct (rbp_down_right _ _ _ _ _ _ _ _ Ht Hp Ha') as (a' & n' & ? & ? & ?). eauto.
Qed.

(** ** The leftmost and the rightmost node *)

Lemma zip_app t q p : zip t (q ++ p) = zip (zip t q) p.
Proof. revert t. induction q as [|f q IH]; intros t; simpl; [done|apply IH]. Qed.

Lemma before_app q p : before (q ++ p) = before p ++ before q.
Proof.
  induction q as [|[] q IH]; simpl; [by rewrite app_nil_r|done|]. by rewrite IH, <-app_assoc.
Qed.

Lemma after_app q p : after (q ++ p) = after q ++ after p.
Proof.
  induction q as [|[] q IH]; simpl; [done| |done]. by rewrite IH, <-app_assoc.
Qed.

Lemma rb_min_spec t :
  t ≠ Leaf →
  ∃ c k v r q, (∀ p, rb_min t p = Ret (Node c Leaf k v r, q ++ p)) ∧
    zip (Node c Leaf k v r) q = t ∧ before q = [].
Proof.
  induction t as [|c l IHl k v r _]; intros Hne; [done|]. simpl.
  destruct l as [|lc ll lk lv lr]; [by exists c, k, v, r, []|]. cbn [is_null].
  destruct IHl as (c' & k' & v' & r' & q & Hq & Hz & Hb); [done|].
  exists c', k', v', r', (q ++ [IsLeft c k v r]). split_and!.
  - intros p. by rewrite Hq, <-app_assoc.
  - by rewrite zip_app, Hz.
  - by rewrite before_app, Hb.
Qed.

Lemma rb_max_spec t :
  t ≠ Leaf →
  ∃ c l k v q, (∀ p, rb_max t p = Ret (Node c l k v Leaf, q ++ p)) ∧
    zip (Node c l k v Leaf) q = t ∧ after q = [].
Proof.
  induction t as [|c l _ k v r IHr]; intros Hne; [done|]. simpl.
  destruct r as [|rc rl rk rv rr]; [by exists c, l, k, v, []|]. cbn [is_null].
  destruct IHr as (c' & l' & k' & v' & q & Hq & Hz & Hb); [done|].
  exists c', l', k', v', (q ++ [IsRight c l k v]). split_and!.
  - intros p. by rewrite Hq, <-app_assoc.
  - by rewrite zip_app, Hz.
  - by rewrite after_app, Hb.
Qed.

Lemma rb_min_rbp t p s q a n :
  rbt t n → rbp p a n → (is_red t = true → a = true) → rb_min t p = Ret (s, q) →
  ∃ a' n', rbt s n' ∧ rbp q a' n' ∧ (is_red s = true → a' = true).
Proof.
  revert p a n. induction t as [|c l IHl k v r _]; intros p a n Ht Hp Ha; simpl; [done|].
  destruct (is_null l); [intros; simplify_eq; eauto|]. intros Hq.
  assert (c = RB_RED → a = true) as Ha' by (by intros ->; apply Ha).
  destruct (rbp_down_left _ _ _ _ _ _ _ _ Ht Hp Ha') as (a' & n' & ? & ? & ?). eauto.
Qed.

(** The invariant does not look at keys and values. *)
Lemma rbp_rename q c l k v k' v' p a n :
  rbp (q ++ IsRight c l k v :: p) a n → rbp (q ++ IsRight c l k' v' :: p) a n.
Proof.
  revert a n. induction q as [|f q IH]; intros a n; simpl.
  - inversion 1; subst; eauto.
  - inversion 1; subst; eauto.
Qed.

(** ** The well-formed trees and the map they represent *)

Definition rb_wf (t : rb_node) : Prop := (∃ n, rbt t n) ∧ is_red t = false ∧ bst t.

Definition wf (tree : rb_tree) : Prop := rb_wf (root tree).

Definition to_map (tree : rb_tree) : gmap string (option V) := list_to_map (elems (root tree)).

(** Taking a node with at most one child out of its place. *)
Lemma unlink_spec c l k v r p a n :
  rbt (Node c l k v r) n → rbp p a n → (c = RB_RED → a = true) → l = Leaf ∨ r = Leaf →
  ∃ t m, unlink c (only_child l r) p = Ret t ∧ rbt t m ∧ is_red t = false ∧
    elems t = before p ++ elems l ++ elems r ++ after p.
Proof.
  intros Ht Hp Ha Hlr. assert (He : elems (only_child l r) = elems l ++ elems r).
  { destruct Hlr as [->| ->]; [done|]. destruct l; [done|]. by rewrite app_nil_r. }
  unfold unlink. inversion Ht; subst; simpl.
  - assert (rbt (only_child l r) n ∧ is_red (only_child l r) = false) as [Ho Hb].
    { unfold only_child. by destruct l. }
    destruct (zip_rbt (only_child l r) p a n) as (m & Hm & Hz); [done..|congruence|].
    exists (zip (only_child l r) p), m. split_and!; [done..|].
    by rewrite elems_zip, He, <-app_assoc.
  - edestruct (balance_delete_spec (length p + 2) (only_child l r) p) as (t & m & -> & Hm & Hb & Ht');
      [lia|apply rbt_deficient|done|].
    { unfold only_child. by destruct (is_null l). }
    exists t, m. split_and!; [done..|]. by rewrite Ht', elems_zip, He, <-app_assoc.
Qed.

Lemma elem_of_to_map tree key : key ∈ keys (root tree) ↔ is_Some (to_map tree !! key).
Proof.
  unfold to_map, keys. split.
  - intros Hk. destruct (list_to_map (elems (root tree)) !! key) eqn:He; [done|].
    by apply not_elem_of_list_to_map in He.
  - intros [v Hv]. apply elem_of_list_to_map_2 in Hv.
    apply list_elem_of_fmap. by exists (key, v).
Qed.

Lemma to_map_None tree key : key ∉ keys (root tree) ↔ to_map tree !! key = None.
Proof. rewrite elem_of_to_map, eq_None_not_Some. done. Qed.

Lemma wf_NoDup tree : wf tree → NoDup (elems (root tree)).*1.
Proof. intros (_ & _ & H). by apply sorted_keys_NoDup. Qed.

Lemma insert_new tree key value :
  wf tree → to_map tree !! key = None →
  ∃ tree', rbtree_insert tree key value = Ret (tree', true) ∧ wf tree' ∧
    has_dispose tree' = has_dispose tree ∧ to_map tree' = <[key := value]> (to_map tree).
Proof.
  intros Hwf Hk. pose proof Hwf as ((n & Hn) & Hb & Hs). apply to_map_None in Hk.
  unfold rbtree_insert. destruct (insert_position _ _ _) as [q|] eqn:Hq;
    [|by apply insert_position_None in Hq].
  destruct (insert_position_rbp (root tree) [] key q false n) as [a Ha]; [auto|auto|congruence|done|].
  destruct (insert_position_Some _ _ _ _ Hs Hq) as (Hz & Hlo & Hhi).
  destruct (fix_insert_spec (rb_init key value) q a 1) as (t & m & Hf & Ht & He);
    [by repeat constructor|done..|].
  apply (f_equal elems) in Hz. rewrite elems_zip in Hz. simpl in Hz.
  rewrite elems_zip in He. simpl in He.
  assert (rb_balance_insert (rb_init key value) q = Ret (blacken t)) as ->.
  { unfold rb_balance_insert. rewrite Hf. simpl. destruct t; [|done].
    by destruct (before q). }
  eexists. split; [done|].
  assert (Hbst : sorted_keys (before q ++ (key, value) :: after q)).
  { unfold sorted_keys. unfold bst in Hs. rewrite <-Hz in Hs. unfold sorted_keys in Hs.
    rewrite fmap_app in Hs |- *. apply StronglySorted_app in Hs as (_ & H1 & H2).
    apply sorted_split. split_and!; [done..|by apply Hlo|by apply Hhi]. }
  split_and!; [|done|].
  - split_and!; simpl; [by eapply rbt_blacken|apply is_red_blacken|].
    unfold bst. by rewrite elems_blacken, He.
  - unfold to_map. simpl. rewrite elems_blacken, He, <-Hz.
    apply list_to_map_mid. by apply sorted_keys_NoDup.
Qed.

Lemma insert_dup tree key value :
  wf tree → is_Some (to_map tree !! key) → rbtree_insert tree key value = Ret (tree, false).
Proof.
  intros (Hn & Hb & Hs) Hk. apply elem_of_to_map in Hk. unfold rbtree_insert.
  destruct (insert_position _ _ _) as [q|] eqn:Hq; [|done]. exfalso.
  destruct (insert_position_Some _ _ _ _ Hs Hq) as (Hz & Hlo & Hhi).
  unfold keys in Hk. apply (f_equal elems) in Hz. rewrite elems_zip in Hz. simpl in Hz.
  rewrite <-Hz, fmap_app in Hk. apply elem_of_app in Hk as [Hk|Hk].
  - by apply not_elem_of_below in Hk; [|apply Hlo; constructor].
  - by apply not_elem_of_above in Hk; [|apply Hhi; constructor].
Qed.

(** The node found, and the pairs around it. *)
Lemma get_found tree key :
  wf tree → is_Some (to_map tree !! key) →
  ∃ c l v r q a n, rb_get (root tree) [] key = Some (Node c l key v r, q) ∧
    rbt (Node c l key v r) n ∧ rbp q a n ∧ (c = RB_RED → a = true) ∧
    zip (Node c l key v r) q = root tree ∧ to_map tree !! key = Some v.
Proof.
  intros Hwf Hk. pose proof Hwf as ((n & Hn) & Hb & Hs).
  destruct (rb_get (root tree) [] key) as [[m q]|] eqn:Hg.
  - destruct (get_rbp (root tree) [] key m q false n) as (a & n' & ? & ? & Ha);
      [auto|auto|congruence|done|].
    destruct (get_Some _ _ _ _ _ Hg) as ((c & l & v & r & ->) & Hz).
    exists c, l, v, r, q, a, n'. split_and!; [done..|by intros ->; apply Ha|done|].
    unfold to_map. apply elem_of_list_to_map_1; [by apply wf_NoDup|].
    apply (f_equal elems) in Hz. rewrite elems_zip in Hz. simpl in Hz. rewrite <-Hz.
    set_solver.
  - apply get_None in Hg; [|done]. by apply elem_of_to_map in Hk.
Qed.

Lemma get_not_found tree key :
  wf tree → to_map tree !! key = None → rb_get (root tree) [] key = None.
Proof.
  intros Hwf Hk. destruct (rb_get (root tree) [] key) as [[m q]|] eqn:Hg; [|done]. exfalso.
  destruct (get_Some _ _ _ _ _ Hg) as ((c & l & v & r & ->) & Hz).
  apply to_map_None in Hk. apply Hk. unfold keys.
  apply (f_equal elems) in Hz. rewrite elems_zip in Hz. simpl in Hz. rewrite <-Hz.
  rewrite !fmap_app, fmap_cons. set_solver.
Qed.

Lemma rb_get_map tree key : wf tree → rbtree_get tree key = mjoin (to_map tree !! key).
Proof.
  intros Hwf. unfold rbtree_get. destruct (to_map tree !! key) as [v|] eqn:Hk.
  - destruct (get_found tree key) as (c & l & v' & r & q & a & n & -> & _ & _ & _ & _ & Hv); [done..|].
    by rewrite Hv in Hk; simplify_eq.
  - by rewrite get_not_found.
Qed.

Lemma replace_found tree key value v :
  wf tree → to_map tree !! key = Some v →
  ∃ tree', rbtree_replace tree key value = (tree', value, dispose_value tree v) ∧ wf tree' ∧
    has_dispose tree' = has_dispose tree ∧ to_map tree' = <[key := value]> (to_map tree).
Proof.
  intros Hwf Hk.
  destruct (get_found tree key) as (c & l & v' & r & q & a & n & Hg & Hn & Hq & Hc & Hz & Hv);
    [done..|].
  rewrite Hk in Hv. simplify_eq. unfold rbtree_replace. rewrite Hg.
  eexists. split; [done|]. pose proof Hwf as (_ & _ & Hs).
  pose proof (f_equal elems Hz) as He. rewrite elems_zip in He. simpl in He.
  rewrite <-app_assoc in He. simpl in He. rewrite app_assoc in He.
  assert (He' : elems (zip (Node c l key value r) q) =
                (before q ++ elems l) ++ (key, value) :: elems r ++ after q).
  { rewrite elems_zip. simpl. by rewrite <-!app_assoc. }
  split_and!; [|done|].
  - destruct (zip_rbt (Node c l key value r) q a n) as (m & Hm & Hb); [|done|by destruct c; eauto|].
    { inversion Hn; auto. }
    split_and!; [by eexists|done|]. unfold bst. simpl. rewrite He'.
    unfold bst, sorted_keys in Hs |- *. rewrite <-He in Hs. revert Hs.
    by rewrite !fmap_app, !fmap_cons.
  - unfold to_map. simpl. rewrite He', <-He. apply list_to_map_replace_mid. rewrite He.
    by apply wf_NoDup.
Qed.

Lemma replace_not_found tree key value :
  wf tree → to_map tree !! key = None → rbtree_replace tree key value = (tree, None, []).
Proof. intros Hwf Hk. unfold rbtree_replace. by rewrite get_not_found. Qed.

#[local] Instance leaf_dec (t : rb_node) : Decision (t = Leaf).
Proof. destruct t; [by left|by right]. Defined.

Lemma delete_node_spec c l k v r p a n :
  rbt (Node c l k v r) n → rbp p a n → (c = RB_RED → a = true) →
  ∃ t m, delete_node c l r p = Ret t ∧ rbt t m ∧ is_red t = false ∧
    elems t = before p ++ elems l ++ elems r ++ after p.
Proof.
  intros Hn Hp Ha. unfold delete_node.
  destruct (decide (l = Leaf ∨ r = Leaf)) as [Hlr|Hlr].
  { replace (_ && _) with false by (by destruct Hlr as [->| ->]; rewrite ?andb_false_r).
    by eapply unlink_spec. }
  replace (_ && _) with true by (destruct l, r; naive_solver).
  destruct (rb_min_spec r) as (sc & sk & sv & sr & q & Hq & Hz & Hb); [naive_solver|].
  rewrite Hq, app_nil_r, outcome_bind_ret.
  destruct (rbp_down_right _ _ _ _ _ _ _ _ Hn Hp Ha) as (a1 & n1 & Hr & Hp1 & Ha1).
  destruct (rb_min_rbp r _ _ _ _ _ Hr Hp1 Ha1 (Hq _)) as (a2 & n2 & Hs & Hp2 & Ha2).
  destruct (unlink_spec sc Leaf sk sv sr (q ++ IsRight c l sk sv :: p) a2 n2)
    as (t & m & -> & Hm & Hred & He); [done|by eapply rbp_rename|by intros ->; apply Ha2|by left|].
  exists t, m. split_and!; [done..|]. rewrite He, before_app, after_app, Hb, <-Hz, elems_zip, Hb.
  simpl. by rewrite !app_nil_r, <-!app_assoc.
Qed.

Lemma delete_present tree key v :
  wf tree → to_map tree !! key = Some v →
  ∃ tree', rbtree_delete tree key = Ret (tree', true, dispose_value tree v) ∧ wf tree' ∧
    has_dispose tree' = has_dispose tree ∧ to_map tree' = delete key (to_map tree).
Proof.
  intros Hwf Hk.
  destruct (get_found tree key) as (c & l & v' & r & q & a & n & Hg & Hn & Hq & Hc & Hz & Hv);
    [done..|].
  rewrite Hk in Hv. simplify_eq. unfold rbtree_delete. rewrite Hg.
  destruct (delete_node_spec _ _ _ _ _ _ _ _ Hn Hq Hc) as (t & m & -> & Ht & Hb & He).
  eexists. split; [done|]. pose proof Hwf as (_ & _ & Hs).
  rewrite app_assoc in He. unfold bst in Hs.
  assert (Hz' : elems (root tree) = (before q ++ elems l) ++ (key, v') :: elems r ++ after q).
  { rewrite <-Hz, elems_zip. simpl. by rewrite <-!app_assoc. }
  split_and!; [|done|].
  - split_and!; simpl; [by eexists|done|]. unfold bst, sorted_keys. rewrite He, fmap_app.
    eapply sorted_remove_mid. unfold sorted_keys in Hs. rewrite Hz', fmap_app in Hs. exact Hs.
  - unfold to_map. simpl. rewrite He, Hz'. apply list_to_map_delete_mid. rewrite <-Hz'.
    by apply wf_NoDup.
Qed.

Lemma delete_absent tree key :
  wf tree → to_map tree !! key = None → rbtree_delete tree key = Ret (tree, false, []).
Proof. intros Hwf Hk. unfold rbtree_delete. by rewrite get_not_found. Qed.

(** ** Queries *)

Lemma rb_keys_spec t array : rb_keys t array = array ++ keys t.
Proof.
  revert array. induction t as [|c l IHl k v r IHr]; intros array.
  { by rewrite app_nil_r. }
  cbn [rb_keys]. by rewrite IHr, IHl, keys_node, <-!app_assoc.
Qed.

Definition in_range (min max k : string) : Prop := str_le min k ∧ str_le k max.

#[export] Instance in_range_dec min max k : Decision (in_range min max k).
Proof. unfold in_range. apply _. Defined.

Lemma filter_none min max (l : list string) :
  Forall (λ k, ¬ in_range min max k) l → filter (in_range min max) l = [].
Proof.
  induction 1 as [|k l Hk Hl IH]; [done|]. by rewrite filter_cons_False.
Qed.

Lemma below_range min max k (l : list string) :
  strcmp k min ≠ Gt → Forall (λ x, str_lt x k) l → filter (in_range min max) l = [].
Proof.
  intros Hk Hl. apply filter_none. eapply Forall_impl; [done|]. simpl.
  intros x Hx [Hlo _]. apply str_le_lt_or_eq in Hk as [Hk| ->].
  - assert (str_lt x min) as Hxm by (by eapply str_lt_trans). by apply not_str_le in Hxm.
  - by apply not_str_le in Hx.
Qed.

Lemma above_range min max k (l : list string) :
  strcmp k max ≠ Lt → Forall (str_lt k) l → filter (in_range min max) l = [].
Proof.
  intros Hk Hl. apply filter_none. eapply Forall_impl; [done|]. simpl.
  intros x Hx [_ Hhi]. destruct (strcmp k max) eqn:Hc; [|done|].
  - apply strcmp_eq in Hc as ->. by apply not_str_le in Hx.
  - apply strcmp_gt in Hc. assert (str_lt max x) as Hm by (by eapply str_lt_trans).
    by apply not_str_le in Hm.
Qed.

(** The pruned traversal finds all keys of the range. *)
Lemma rb_range_spec t min max array :
  bst t → rb_range t min max array = array ++ filter (in_range min max) (keys t).
Proof.
  revert array. induction t as [|c l IHl k v r IHr]; intros array.
  { intros _. by rewrite app_nil_r. }
  rewrite bst_node. intros (Hl & Hr & Hlk & Hkr).
  cbn [rb_range]. rewrite keys_node, filter_app, filter_cons.
  assert (∀ arr, match strcmp k min with Gt => rb_range l min max arr | _ => arr end =
                 arr ++ filter (in_range min max) (keys l)) as ->.
  { intros arr. destruct (strcmp k min) eqn:Hc; [..|by apply IHl].
    all: rewrite (below_range min max k) by (by rewrite ?Hc); by rewrite app_nil_r. }
  assert (∀ arr, match strcmp k max with Lt => rb_range r min max arr | _ => arr end =
                 arr ++ filter (in_range min max) (keys r)) as ->.
  { intros arr. destruct (strcmp k max) eqn:Hc; [|by apply IHr|].
    all: rewrite (above_range min max k) by (by rewrite ?Hc); by rewrite app_nil_r. }
  destruct (decide (in_range min max k)) as [[Hlo Hhi]|Hno].
  - unfold str_le in Hlo, Hhi. rewrite strcmp_antisym in Hlo.
    destruct (strcmp k min), (strcmp k max); try done; by rewrite <-!app_assoc.
  - rewrite app_assoc. f_equal. unfold in_range, str_le in Hno. rewrite strcmp_antisym in Hno.
    destruct (strcmp k min), (strcmp k max); try done; exfalso; apply Hno; split; done.
Qed.

Lemma minimum_spec tree : rbtree_minimum tree = Ret (head (keys (root tree))).
Proof.
  unfold rbtree_minimum. destruct (root tree) as [|c l k v r] eqn:Hr; [done|].
  rewrite <-Hr at 2. cbn [is_null].
  destruct (rb_min_spec (root tree)) as (c' & k' & v' & r' & q & Hq & Hz & Hb); [congruence|].
  rewrite <-Hr, Hq. simpl. unfold keys. rewrite <-Hz, elems_zip, Hb. done.
Qed.

Lemma maximum_spec tree : rbtree_maximum tree = Ret (last (keys (root tree))).
Proof.
  unfold rbtree_maximum. destruct (root tree) as [|c l k v r] eqn:Hr; [done|].
  cbn [is_null].
  destruct (rb_max_spec (root tree)) as (c' & l' & k' & v' & q & Hq & Hz & Hb); [congruence|].
  rewrite <-Hr, Hq. simpl. unfold keys. rewrite <-Hz, elems_zip, Hb, app_nil_r. simpl.
  rewrite !fmap_app, app_assoc. simpl. by rewrite last_snoc.
Qed.

Lemma rb_size_spec t : rb_size t = length (elems t).
Proof. induction t as [|c l IHl k v r IHr]; simpl; [done|]. rewrite length_app. simpl. lia. Qed.

Lemma rb_map_size tree : wf tree → rbtree_size tree = size (to_map tree).
Proof.
  intros Hwf. unfold rbtree_size, to_map. rewrite rb_size_spec.
  by rewrite <-length_map_to_list, map_to_list_to_map by (by apply wf_NoDup).
Qed.

Lemma rb_empty_spec tree : wf tree → rbtree_empty tree = bool_decide (to_map tree = ∅).
Proof.
  intros Hwf. unfold rbtree_empty. destruct (root tree) as [|c l k v r] eqn:Hr.
  - unfold to_map. by rewrite Hr.
  - symmetry. apply bool_decide_false. intros He.
    assert (k ∈ keys (root tree)) as Hk by (rewrite Hr, keys_node; set_solver).
    apply elem_of_to_map in Hk. rewrite He, lookup_empty in Hk. by destruct Hk.
Qed.

Lemma rb_sorted_keys tree : wf tree → keys (root tree) = sorted_dom (to_map tree).
Proof. intros (_ & _ & Hs). by apply elems_sorted_dom. Qed.

(** ** Balance *)

Fixpoint depth (t : rb_node) : nat :=
  match t with
  | Leaf => 0
  | Node _ l _ _ r => S (Nat.max (depth l) (depth r))
  end.

Lemma rbt_depth t n : rbt t (S n) → depth t ≤ 2 * n + (if is_red t then 1 else 0).
Proof.
  remember (S n) as m eqn:Hm. intros Ht. revert n Hm.
  induction Ht as [|l k v r m Hl IHl Hr IHr Hbl Hbr|l k v r m Hl IHl Hr IHr]; intros n Hm.
  - simpl. lia.
  - specialize (IHl n Hm). specialize (IHr n Hm). rewrite Hbl in IHl. rewrite Hbr in IHr.
    simpl. lia.
  - destruct (rbt_pos _ _ Hl) as [j ->]. specialize (IHl j eq_refl). specialize (IHr j eq_refl).
    simpl. destruct (is_red l), (is_red r); lia.
Qed.

Lemma rbt_size t n : rbt t (S n) → 2 ^ n ≤ rb_size t + 1.
Proof.
  remember (S n) as m eqn:Hm. intros Ht. revert n Hm.
  induction Ht as [|l k v r m Hl IHl Hr IHr Hbl Hbr|l k v r m Hl IHl Hr IHr]; intros n Hm.
  - simplify_eq. simpl. lia.
  - specialize (IHl n Hm). simpl. lia.
  - destruct (rbt_pos _ _ Hl) as [j ->]. specialize (IHl j eq_refl). specialize (IHr j eq_refl).
    simplify_eq. simpl. lia.
Qed.

Lemma rbt_black_depth t n : rbt t n → rb_black_depth t = Z.of_nat n.
Proof.
  induction 1 as [|l k v r m Hl IHl Hr IHr _ _|l k v r m Hl IHl Hr IHr];
    [done|..]; cbn [rb_black_depth]; rewrite IHl, IHr, decide_False by auto.
  - rewrite decide_False by done. lia.
  - rewrite decide_True by done. lia.
Qed.

Lemma rb_destroy_spec t : rb_destroy t true ≡ₚ omap snd (elems t).
Proof.
  induction t as [|c l IHl k v r IHr]; simpl; [done|].
  rewrite IHl, IHr, omap_app. cbn [omap list_omap].
  destruct v as [v|]; simpl; [|by rewrite app_nil_r]. solve_Permutation.
Qed.

(** ** Sequences of operations *)

Inductive rop :=
| OInsert (key : string) (value : option V)
| OReplace (key : string) (value : option V)
| ODelete (key : string)
| OGet (key : string)
| OMinimum
| OMaximum
| OKeys
| ORange (min max : string)
| OSize
| OEmpty.

Inductive rres :=
| RBool (b : bool)
| RPtr (v : option V)
| RKey (k : option string)
| RKeys (l : list string)
| RSize (n : nat).

Definition rb_exec (tree : rb_tree) (op : rop) : outcome (rb_tree * rres * list V) :=
  match op with
  | OInsert k v => '(tree, b) ← rbtree_insert tree k v; Ret (tree, RBool b, [])
  | OReplace k v => let '(tree, r, d) := rbtree_replace tree k v in Ret (tree, RPtr r, d)
  | ODelete k => '(tree, b, d) ← rbtree_delete tree k; Ret (tree, RBool b, d)
  | OGet k => Ret (tree, RPtr (rbtree_get tree k), [])
  | OMinimum => k ← rbtree_minimum tree; Ret (tree, RKey k, [])
  | OMaximum => k ← rbtree_maximum tree; Ret (tree, RKey k, [])
  | OKeys => Ret (tree, RKeys (rbtree_keys tree), [])
  | ORange min max => Ret (tree, RKeys (rbtree_range tree min max), [])
  | OSize => Ret (tree, RSize (rbtree_size tree), [])
  | OEmpty => Ret (tree, RBool (rbtree_empty tree), [])
  end.

Fixpoint rb_run (tree : rb_tree) (ops : list rop) : outcome (rb_tree * list rres * list V) :=
  match ops with
  | [] => Ret (tree, [], [])
  | op :: ops =>
      '(tree, r, d) ← rb_exec tree op;
      '(tree, rs, ds) ← rb_run tree ops;
      Ret (tree, r :: rs, d ++ ds)
  end.

(** The dictionary the operations are meant to be: a finite map, whose owner
    disposes of the values that leave it. *)
Definition map_exec (dispose : bool) (m : gmap string (option V)) (op : rop)
    : gmap string (option V) * rres * list V :=
  let gone (v : option V) := if dispose then option_list v else [] in
  match op with
  | OInsert k v =>
      match m !! k with
      | None => (<[k := v]> m, RBool true, [])
      | Some _ => (m, RBool false, [])
      end
  | OReplace k v =>
      match m !! k with
      | None => (m, RPtr None, [])
      | Some old => (<[k := v]> m, RPtr v, gone old)
      end
  | ODelete k =>
      match m !! k with
      | None => (m, RBool false, [])
      | Some old => (delete k m, RBool true, gone old)
      end
  | OGet k => (m, RPtr (mjoin (m !! k)), [])
  | OMinimum => (m, RKey (head (sorted_dom m)), [])
  | OMaximum => (m, RKey (last (sorted_dom m)), [])
  | OKeys => (m, RKeys (sorted_dom m), [])
  | ORange min max => (m, RKeys (filter (in_range min max) (sorted_dom m)), [])
  | OSize => (m, RSize (size m), [])
  | OEmpty => (m, RBool (bool_decide (m = ∅)), [])
  end.

Fixpoint map_run (dispose : bool) (m : gmap string (option V)) (ops : list rop)
    : gmap string (option V) * list rres * list V :=
  match ops with
  | [] => (m, [], [])
  | op :: ops =>
      let '(m, r, d) := map_exec dispose m op in
      let '(m, rs, ds) := map_run dispose m ops in
      (m, r :: rs, d ++ ds)
  end.

Lemma rb_exec_refines tree op :
  wf tree →
  ∃ tree' r d, rb_exec tree op = Ret (tree', r, d) ∧ wf tree' ∧
    has_dispose tree' = has_dispose tree ∧
    map_exec (has_dispose tree) (to_map tree) op = (to_map tree', r, d).
Proof.
  intros Hwf.
  assert (Hq : ∀ (r : rres) (d : list V), ∃ tree' r' d', Ret (tree, r, d) = Ret (tree', r', d') ∧ wf tree' ∧
    has_dispose tree' = has_dispose tree ∧ (to_map tree, r, d) = (to_map tree', r', d')).
  { intros r d. by exists tree, r, d. }
  destruct op as [k v|k v|k|k| | | |min max| |]; simpl.
  - destruct (to_map tree !! k) as [old|] eqn:Hk.
    + rewrite insert_dup by done. apply Hq.
    + destruct (insert_new tree k v) as (tree' & -> & Hw & Hd & Hm); [done..|].
      exists tree', (RBool true), []. by rewrite Hm.
  - destruct (to_map tree !! k) as [old|] eqn:Hk.
    + destruct (replace_found tree k v old) as (tree' & -> & Hw & Hd & Hm); [done..|].
      exists tree', (RPtr v), (dispose_value tree old). by rewrite Hm.
    + rewrite replace_not_found by done. apply Hq.
  - destruct (to_map tree !! k) as [old|] eqn:Hk.
    + destruct (delete_present tree k old) as (tree' & -> & Hw & Hd & Hm); [done..|].
      exists tree', (RBool true), (dispose_value tree old). by rewrite Hm.
    + rewrite delete_absent by done. apply Hq.
  - rewrite rb_get_map by done. apply Hq.
  - rewrite minimum_spec, rb_sorted_keys by done. apply Hq.
  - rewrite maximum_spec, rb_sorted_keys by done. apply Hq.
  - unfold rbtree_keys. rewrite rb_keys_spec, rb_sorted_keys by done. apply Hq.
  - unfold rbtree_range. rewrite rb_range_spec, rb_sorted_keys by (done || apply Hwf). apply Hq.
  - rewrite rb_map_size by done. apply Hq.
  - rewrite rb_empty_spec by done. apply Hq.
Qed.

Lemma rb_run_refines tree ops :
  wf tree →
  ∃ tree' rs ds, rb_run tree ops = Ret (tree', rs, ds) ∧ wf tree' ∧
    has_dispose tree' = has_dispose tree ∧
    map_run (has_dispose tree) (to_map tree) ops = (to_map tree', rs, ds).
Proof.
  revert tree. induction ops as [|op ops IH]; intros tree Hwf; [by exists tree, [], []|].
  simpl. destruct (rb_exec_refines tree op Hwf) as (t1 & r & d & -> & Hw1 & Hd1 & ->). simpl.
  destruct (IH t1 Hw1) as (t2 & rs & ds & -> & Hw2 & Hd2 & Hm). rewrite Hd1 in Hm, Hd2. simpl.
  exists t2, (r :: rs), (d ++ ds). by rewrite Hm.
Qed.

Lemma rb_init_wf d : wf (rbtree_set_dispose rbtree_init d).
Proof. split_and!; [by exists 1; constructor|done|constructor]. Qed.

(** The values the tree takes over: those inserted, and those that replace the
    value of a key. *)
Definition taken (op : rop) (r : rres) : list V :=
  match op, r with
  | OInsert _ v, RBool true => option_list v
  | OReplace _ _, RPtr v => option_list v
  | _, _ => []
  end.

Definition values (m : gmap string (option V)) : list V := omap snd (map_to_list m).

Lemma values_insert m k v :
  m !! k = None → values (<[k := v]> m) ≡ₚ option_list v ++ values m.
Proof.
  intros Hk. unfold values. rewrite map_to_list_insert by done. by destruct v.
Qed.

Lemma values_delete m k v :
  m !! k = Some v → values m ≡ₚ option_list v ++ values (delete k m).
Proof.
  intros Hk. rewrite <-(insert_delete_id m k v) at 1 by done.
  apply values_insert, lookup_delete_eq.
Qed.

Lemma values_replace m k v old :
  m !! k = Some old →
  option_list old ++ values (<[k := v]> m) ≡ₚ option_list v ++ values m.
Proof.
  intros Hk. rewrite <-insert_delete_eq, values_insert by apply lookup_delete_eq.
  rewrite (values_delete m k old Hk). solve_Permutation.
Qed.

Lemma map_exec_values m op m' r d :
  map_exec true m op = (m', r, d) → d ++ values m' ≡ₚ taken op r ++ values m.
Proof.
  destruct op; simpl; try (by intros; simplify_eq/=);
    destruct (m !! key) as [old|] eqn:Hk; intros; simplify_eq/=.
  - done.
  - by apply values_insert.
  - by apply values_replace.
  - done.
  - by rewrite <-values_delete.
  - done.
Qed.

Lemma map_run_values m ops m' rs ds :
  map_run true m ops = (m', rs, ds) →
  ds ++ values m' ≡ₚ concat (zip_with taken ops rs) ++ values m.
Proof.
  revert m m' rs ds. induction ops as [|op ops IH]; intros m m' rs ds; simpl.
  { intros; simplify_eq. done. }
  destruct (map_exec true m op) as [[m1 r] d] eqn:He.
  destruct (map_run true m1 ops) as [[m2 rs'] ds'] eqn:Hr. intros; simplify_eq. simpl.
  apply map_exec_values in He. apply IH in Hr.
  rewrite <-app_assoc, Hr, app_assoc, (Permutation_app_comm d), <-app_assoc, He.
  solve_Permutation.
Qed.

(** ** The interface *)

#[export] Instance rbtree_str_map : StrMap V rb_tree := {
  sm_wf := wf;
  sm_map := to_map;
  sm_dispose := has_dispose;
  sm_empty := rbtree_init;
  sm_set_dispose := rbtree_set_dispose;
  sm_get := rbtree_get;
  sm_insert := rbtree_insert;
  sm_replace t k v := (rbtree_replace t k v).1.1;
  sm_delete := rbtree_delete;
  sm_destroy := rbtree_destroy;
  sm_keys := rbtree_keys;
}.

#[export] Instance rbtree_str_map_laws : StrMapLaws V rb_tree.
Proof.
  split; simpl.
  - apply (rb_init_wf false).
  - done.
  - done.
  - done.
  - intros. by apply rb_get_map.
  - intros. by apply insert_dup.
  - intros. by apply insert_new.
  - intros t k v Hw [old Hk]. destruct (replace_found t k v old) as (t' & -> & ? & ? & ?); eauto.
  - intros. by apply delete_absent.
  - intros. by apply delete_present.
  - intros t (_ & _ & Hs) Hd. unfold rbtree_destroy. rewrite Hd, rb_destroy_spec. unfold to_map.
    by rewrite map_to_list_to_map by (by apply sorted_keys_NoDup).
  - intros t k Hw. unfold rbtree_keys. rewrite rb_keys_spec. apply elem_of_to_map.
  - intros t (_ & _ & Hs). unfold rbtree_keys. by rewrite rb_keys_spec.
Qed.

(** ** Properties *)

(** C11: A red-black tree is a dictionary: on every sequence of operations from
    the empty tree no assertion fails and no NULL pointer is followed, and the
    results and the values disposed of are those of a finite map with the same
    operations (insertion refuses a key that is there, deletion and replacement
    act on a key that is, minimum, maximum, keys and range list the keys in
    [strcmp] order). *)
Theorem rbtree_refines_map (dispose : bool) (ops : list rop) :
  ∃ tree rs ds,
    rb_run (rbtree_set_dispose rbtree_init dispose) ops = Ret (tree, rs, ds) ∧
    map_run dispose ∅ ops = (to_map tree, rs, ds).
Proof.
  destruct (rb_run_refines (rbtree_set_dispose rbtree_init dispose) ops (rb_init_wf dispose))
    as (tree & rs & ds & Hr & _ & _ & Hm).
  by exists tree, rs, ds.
Qed.

(** C12: The tree stays balanced: after every sequence of operations it is a
    red-black tree with a black root, its depth is at most [2 * log2 (size + 1)],
    and the self-check [rbtree_black_depth] does not report an imbalance. *)
Theorem rbtree_balanced (dispose : bool) (ops : list rop) :
  ∃ tree rs ds,
    rb_run (rbtree_set_dispose rbtree_init dispose) ops = Ret (tree, rs, ds) ∧
    (∃ n, rbt (root tree) n) ∧ is_red (root tree) = false ∧
    depth (root tree) ≤ 2 * Nat.log2 (rbtree_size tree + 1) ∧
    (0 ≤ rbtree_black_depth tree)%Z.
Proof.
  destruct (rb_run_refines (rbtree_set_dispose rbtree_init dispose) ops (rb_init_wf dispose))
    as (tree & rs & ds & Hr & ((n & Hn) & Hb & _) & _).
  exists tree, rs, ds. split_and!; [done|by exists n|done|..].
  - destruct (rbt_pos _ _ Hn) as [m ->]. pose proof (rbt_depth _ _ Hn) as Hd.
    rewrite Hb in Hd. pose proof (rbt_size _ _ Hn) as Hs.
    apply Nat.log2_le_pow2 in Hs; unfold rbtree_size; lia.
  - unfold rbtree_black_depth. destruct (root tree) as [|[] l k v r]; [done..|].
    rewrite decide_False by done. inversion Hn; subst.
    erewrite !rbt_black_depth by done. rewrite decide_False; lia.
Qed.

(** C13: Every value the tree takes over is disposed of exactly once: the values
    disposed of by deletions and replacements, followed by those [rbtree_destroy]
    disposes of at the end, are a permutation of the values taken over. *)
Theorem rbtree_disposes_once (ops : list rop) :
  ∃ tree rs ds,
    rb_run (rbtree_set_dispose rbtree_init true) ops = Ret (tree, rs, ds) ∧
    ds ++ rbtree_destroy tree ≡ₚ concat (zip_with taken ops rs).
Proof.
  destruct (rb_run_refines (rbtree_set_dispose rbtree_init true) ops (rb_init_wf true))
    as (tree & rs & ds & Hr & Hwf & Hd & Hm).
  exists tree, rs, ds. split; [done|]. apply map_run_values in Hm.
  unfold rbtree_destroy. rewrite Hd. simpl. rewrite rb_destroy_spec.
  assert (values (to_map tree) ≡ₚ omap snd (elems (root tree))) as <-.
  { unfold values, to_map. by rewrite map_to_list_to_map by (by apply wf_NoDup). }
  rewrite Hm. by rewrite app_nil_r.
Qed.

End rbtree.

Arguments rb_node : clear implicits.
Arguments rb_tree : clear implicits.
Arguments frame : clear implicits.
Arguments rop : clear implicits.
Arguments rres : clear implicits.

(** The self-check misses imbalances: [rb_black_depth] adds the black node
    itself to the -1 its subtrees return, so that a tree which is not a red-black
    tree passes with the black depth 0. *)
Theorem rbtree_black_depth_masks_imbalance :
  ∃ tree : rb_tree unit,
    ¬ (∃ n, rbt (root tree) n) ∧ rbtree_black_depth tree = 0%Z.
Proof.
  set (b l r := Node RB_BLACK l "k" (@None unit) r).
  set (w := b (b Leaf Leaf) Leaf). set (u := b w w).
  exists (mk_tree (b u u) false). split; [|reflexivity].
  intros [n Hn]. inversion Hn; subst.
  match goal with H : rbt u _ |- _ => rename H into Hu end.
  pose proof (rbt_black_depth _ _ Hu) as Hd. destruct (rbt_pos _ _ Hu) as [m ->].
  discriminate Hd.
Qed.
