(* ===== verification/HashMap.v ===== *)
(** * Open-addressing hash map (shared/src/hashmap_op.c)

    The bucket array is a list; the three states of the key pointer of a bucket
    are constructors.  The probing loops run on fuel: the capacity is enough,
    because a map always has an empty bucket.  Sizes and bucket indices are
    unbounded naturals ([os_calloc] ends the program long before a table of
    2^60 buckets); the hash and [next_pow2] are computed on 64 bits. *)

From stdpp Require Import base numbers list gmap strings.
From Stdlib Require Import Lia Ascii.
From S2P Require Import Prelude CString StrMap.

(** ** Hash and helpers *)

Definition HM_LOAD_NUM : nat := 3.
Definition HM_LOAD_DEN : nat := 4.
Definition HM_MIN_CAP : N := 16.

Definition wrap64 (n : N) : N := (n mod 2 ^ 64)%N.

Fixpoint fnv1a64_loop (h : N) (s : string) : N :=
  match s with
  | EmptyString => h
  | String c s => fnv1a64_loop (wrap64 (N.lxor h (N_of_ascii c) * 1099511628211)) s
  end.

Definition fnv1a64 (s : string) : N := fnv1a64_loop 1469598103934665603 s.

Fixpoint next_pow2_loop (fuel : nat) (p x : N) : outcome N :=
  match fuel with
  | 0 => Stuck OutOfFuel
  | S fuel => if (p <? x)%N then next_pow2_loop fuel (wrap64 (N.shiftl p 1)) x else Ret p
  end.

Definition next_pow2 (x : N) : outcome N := next_pow2_loop 64 HM_MIN_CAP x.

Section hashmap.
Context {V : Type}.

(** A bucket: [key == NULL], [key == (char * )-1], or a key and its value. *)
Inductive hm_entry :=
| Empty
| Tomb
| Occ (key : string) (value : option V).

Record hashmap := mk_hashmap {
  entries : list hm_entry;
  capacity : nat;
  hm_count : nat;        (* the field [size] *)
  tombstones : nat;
}.

Definition is_empty (e : hm_entry) : bool :=
  match e with Empty => true | _ => false end.

Definition is_tomb (e : hm_entry) : bool :=
  match e with Tomb => true | _ => false end.

Definition is_occupied (e : hm_entry) : bool :=
  match e with Occ _ _ => true | _ => false end.

(** [(size_t)(h & m)] for the hash of [key]. *)
Definition home (key : string) (m : nat) : nat := N.to_nat (N.land (fnv1a64 key) (N.of_nat m)).

(** The loop of [hm_rehash] that looks for an empty bucket. *)
Fixpoint free_loop (fuel : nat) (neu : list hm_entry) (m idx : nat) : outcome nat :=
  match fuel with
  | 0 => Stuck OutOfFuel
  | S fuel =>
      e ← c_read neu idx;
      if is_empty e then Ret idx else free_loop fuel neu m (Nat.land (idx + 1) m)
  end.

(** The body of the [for] loop of [hm_rehash], for the buckets [old]; the second
    component is [hm->size]. *)
Fixpoint rehash_loop (old neu : list hm_entry) (size new_cap : nat)
    : outcome (list hm_entry * nat) :=
  match old with
  | [] => Ret (neu, size)
  | Occ key value :: old =>
      let m := new_cap - 1 in
      idx ← free_loop new_cap neu m (home key m);
      neu ← c_write neu idx (Occ key value);
      rehash_loop old neu (size + 1) new_cap
  | _ :: old => rehash_loop old neu size new_cap
  end.

Definition hm_rehash (hm : hashmap) (new_cap : nat) : outcome hashmap :=
  '(neu, size) ← rehash_loop (entries hm) (replicate new_cap Empty) 0 new_cap;
  Ret (mk_hashmap neu new_cap size 0).

Definition hm_init (initial_capacity : N) : outcome hashmap :=
  cap ← next_pow2 (if (initial_capacity =? 0)%N then HM_MIN_CAP else initial_capacity);
  Ret (mk_hashmap (replicate (N.to_nat cap) Empty) (N.to_nat cap) 0 0).

Definition hm_destroy (hm : hashmap) : hashmap := mk_hashmap [] 0 0 0.

Definition hm_maybe_grow (hm : hashmap) : outcome hashmap :=
  if decide (capacity hm * HM_LOAD_NUM ≤ (hm_count hm + tombstones hm) * HM_LOAD_DEN) then
    hm_rehash hm (capacity hm * 2)
  else Ret hm.

(** The loop of [hm_get] and [hm_del]: the bucket that holds [key]. *)
Fixpoint find_loop (fuel : nat) (es : list hm_entry) (m idx : nat) (key : string)
    : outcome (option nat) :=
  match fuel with
  | 0 => Stuck OutOfFuel
  | S fuel =>
      e ← c_read es idx;
      match e with
      | Empty => Ret None
      | Occ k _ =>
          if decide (strcmp k key = Eq) then Ret (Some idx)
          else find_loop fuel es m (Nat.land (idx + 1) m) key
      | Tomb => find_loop fuel es m (Nat.land (idx + 1) m) key
      end
  end.

(** [None]: not found; [Some v]: found, [*out_value = v]. *)
Definition hm_get (hm : hashmap) (key : string) : outcome (option (option V)) :=
  if decide (capacity hm = 0) then Ret None
  else
    let m := capacity hm - 1 in
    r ← find_loop (capacity hm) (entries hm) m (home key m) key;
    match r with
    | None => Ret None
    | Some idx =>
        e ← c_read (entries hm) idx;
        Ret (match e with Occ _ v => Some v | _ => None end)
    end.

(** How the loop of [hm_put] ends: the key is in bucket [idx], or the bucket
    [idx] is empty and [first_tomb] was seen on the way. *)
Inductive put_place :=
| PutUpdate (idx : nat)
| PutInsert (first_tomb : option nat) (idx : nat).

Fixpoint put_loop (fuel : nat) (es : list hm_entry) (m idx : nat) (key : string)
    (first_tomb : option nat) : outcome put_place :=
  match fuel with
  | 0 => Stuck OutOfFuel
  | S fuel =>
      e ← c_read es idx;
      match e with
      | Empty => Ret (PutInsert first_tomb idx)
      | Tomb =>
          put_loop fuel es m (Nat.land (idx + 1) m) key
            (match first_tomb with None => Some idx | _ => first_tomb end)
      | Occ k _ =>
          if decide (strcmp k key = Eq) then Ret (PutUpdate idx)
          else put_loop fuel es m (Nat.land (idx + 1) m) key first_tomb
      end
  end.

Definition hm_put (hm : hashmap) (key : string) (value : option V) : outcome (Z * hashmap) :=
  hm ← hm_maybe_grow hm;
  let m := capacity hm - 1 in
  r ← put_loop (capacity hm) (entries hm) m (home key m) key None;
  match r with
  | PutInsert first_tomb idx =>
      let target := default idx first_tomb in
      let tombs := match first_tomb with
                   | Some _ => if decide (0 < tombstones hm) then tombstones hm - 1 else tombstones hm
                   | None => tombstones hm
                   end in
      es ← c_write (entries hm) target (Occ key value);
      Ret (0%Z, mk_hashmap es (capacity hm) (hm_count hm + 1) tombs)
  | PutUpdate idx =>
      e ← c_read (entries hm) idx;
      es ← c_write (entries hm) idx
             (match e with Occ k _ => Occ k value | e => e end);
      Ret (1%Z, mk_hashmap es (capacity hm) (hm_count hm) (tombstones hm))
  end.

Definition hm_del (hm : hashmap) (key : string) : outcome (Z * hashmap) :=
  if decide (hm_count hm = 0) then Ret (0%Z, hm)
  else
    let m := capacity hm - 1 in
    r ← find_loop (capacity hm) (entries hm) m (home key m) key;
    match r with
    | None => Ret (0%Z, hm)
    | Some idx =>
        es ← c_write (entries hm) idx Tomb;
        Ret (1%Z, mk_hashmap es (capacity hm) (hm_count hm - 1) (tombstones hm + 1))
    end.

Definition hm_size (hm : hashmap) : nat := hm_count hm.

(** The iterator is its index. *)
Fixpoint iter_loop (fuel : nat) (hm : hashmap) (idx : nat)
    : outcome (nat * option (string * option V)) :=
  if decide (idx < capacity hm) then
    match fuel with
    | 0 => Stuck OutOfFuel
    | S fuel =>
        e ← c_read (entries hm) idx;
        match e with
        | Occ k v => Ret (idx + 1, Some (k, v))
        | _ => iter_loop fuel hm (idx + 1)
        end
    end
  else Ret (idx, None).

Definition hm_iter_next (hm : hashmap) (idx : nat)
    : outcome (nat * option (string * option V)) :=
  if decide (capacity hm < idx) then Ret (idx, None) else iter_loop (capacity hm) hm idx.

(** ** Tables *)

(** The live entries, in bucket order. *)
Definition live1 (e : hm_entry) : list (string * option V) :=
  match e with Occ k v => [(k, v)] | _ => [] end.

Definition live (es : list hm_entry) : list (string * option V) := es ≫= live1.

Definition tombs (es : list hm_entry) : nat := length (filter (λ e, is_tomb e) es).

Definition probe (cap base j : nat) : nat := (base + j) `mod` cap.

(** The buckets probed before the [d]-th for [key] are in use. *)
Definition in_use (es : list hm_entry) (cap : nat) (key : string) (d : nat) : Prop :=
  ∀ j, j < d → ∃ e, es !! probe cap (home key (cap - 1)) j = Some e ∧ is_empty e = false.

(** Every key is found by probing from its home, and is stored once. *)
Record table_ok (es : list hm_entry) (cap : nat) : Prop := {
  tb_pow : ∃ k, cap = 2 ^ k ∧ 4 ≤ k;
  tb_length : length es = cap;
  tb_nodup : NoDup (live es).*1;
  tb_probe : ∀ i k v, es !! i = Some (Occ k v) →
    ∃ d, d < cap ∧ i = probe cap (home k (cap - 1)) d ∧ in_use es cap k d;
}.

Lemma land_mask k n : Nat.land n (2 ^ k - 1) = n `mod` 2 ^ k.
Proof. by rewrite <-Nat.land_ones, Nat.ones_equiv, Nat.sub_1_r. Qed.

Lemma home_lt key k : home key (2 ^ k - 1) < 2 ^ k.
Proof.
  unfold home. replace (N.of_nat (2 ^ k - 1)) with (N.ones (N.of_nat k)).
  - rewrite N.land_ones. pose proof (N.mod_lt (fnv1a64 key) (2 ^ N.of_nat k)) as H.
    assert (2 ^ N.of_nat k ≠ 0)%N as Hz by (by apply N.pow_nonzero).
    specialize (H Hz).
    assert (N.to_nat (2 ^ N.of_nat k) = 2 ^ k) as <- by (rewrite N2Nat.inj_pow, Nat2N.id; done).
    lia.
  - rewrite N.ones_equiv. apply N2Nat.inj.
    rewrite N2Nat.inj_pred, N2Nat.inj_pow, !Nat2N.id. change (N.to_nat 2) with 2. lia.
Qed.

Section table.
Context {es : list hm_entry} {cap : nat} (Hok : table_ok es cap).

Lemma tb_pos : 16 ≤ cap.
Proof.
  destruct (tb_pow _ _ Hok) as (k & -> & Hk).
  change 16 with (2 ^ 4). by apply Nat.pow_le_mono_r.
Qed.

Lemma tb_home key : home key (cap - 1) < cap.
Proof. destruct (tb_pow _ _ Hok) as (k & -> & Hk). apply home_lt. Qed.

Lemma tb_next base j : Nat.land (probe cap base j + 1) (cap - 1) = probe cap base (j + 1).
Proof.
  pose proof tb_pos. unfold probe.
  destruct (tb_pow _ _ Hok) as (k & Hc & Hk). rewrite Hc at 2.
  rewrite land_mask, <-Hc, mod_succ_mod by lia. f_equal. lia.
Qed.

Lemma tb_start key : home key (cap - 1) = probe cap (home key (cap - 1)) 0.
Proof. unfold probe. rewrite Nat.add_0_r, Nat.mod_small; [done|apply tb_home]. Qed.

Lemma tb_probe_lt base j : probe cap base j < cap.
Proof. pose proof tb_pos. unfold probe. apply Nat.mod_upper_bound. lia. Qed.

(** Every bucket is probed within [cap] steps. *)
Lemma tb_reach base i : base < cap → i < cap → ∃ d, d < cap ∧ i = probe cap base d.
Proof.
  intros Hb Hi. unfold probe. destruct (decide (base ≤ i)).
  - exists (i - base). split; [lia|]. rewrite Nat.mod_small; lia.
  - exists (cap - base + i). split; [lia|].
    rewrite mod_wrap; lia.
Qed.

Lemma tb_probe_inj base i j : i < cap → j < cap → probe cap base i = probe cap base j → i = j.
Proof.
  intros Hi Hj He. unfold probe in He.
  rewrite <-(Nat.Div0.add_mod_idemp_l base i), <-(Nat.Div0.add_mod_idemp_l base j) in He.
  assert (base `mod` cap < cap) by (apply Nat.mod_upper_bound; lia).
  destruct (mod_once (base `mod` cap + i) cap) as [[??]|[??]];
  destruct (mod_once (base `mod` cap + j) cap) as [[??]|[??]]; lia.
Qed.

End table.

(** *** Updating one bucket *)

Lemma live_app es1 es2 : live (es1 ++ es2) = live es1 ++ live es2.
Proof. unfold live. by rewrite bind_app. Qed.

Lemma live_split es i e0 :
  es !! i = Some e0 → live es = live (take i es) ++ live1 e0 ++ live (drop (S i) es).
Proof.
  intros Hi. rewrite <-(take_drop_middle es i e0 Hi) at 1. by rewrite live_app.
Qed.

Lemma live_insert es i e :
  i < length es →
  live (<[i := e]> es) = live (take i es) ++ live1 e ++ live (drop (S i) es).
Proof. intros Hi. rewrite insert_take_drop by done. by rewrite live_app. Qed.

Lemma tombs_insert es i e e0 :
  es !! i = Some e0 →
  tombs (<[i := e]> es) + (if is_tomb e0 then 1 else 0) = tombs es + (if is_tomb e then 1 else 0).
Proof.
  intros Hi. pose proof (lookup_lt_Some _ _ _ Hi) as Hl. unfold tombs.
  rewrite insert_take_drop by done.
  rewrite <-(take_drop_middle es i e0 Hi) at 3.
  rewrite !filter_app, !filter_cons, !length_app.
  destruct e, e0; simpl; lia.
Qed.

Lemma elem_of_live es k v : (k, v) ∈ live es ↔ ∃ i, es !! i = Some (Occ k v).
Proof.
  unfold live. rewrite list_elem_of_bind. split.
  - intros (e & He & Hin). apply list_elem_of_lookup_1 in Hin as [i Hi].
    destruct e; simpl in He; [by apply elem_of_nil in He..|].
    apply list_elem_of_singleton in He. simplify_eq. eauto.
  - intros [i Hi]. exists (Occ k v). split; [by apply list_elem_of_singleton|].
    by eapply list_elem_of_lookup_2.
Qed.

Lemma elem_of_live_keys es k : k ∈ (live es).*1 ↔ ∃ i v, es !! i = Some (Occ k v).
Proof.
  rewrite list_elem_of_fmap. split.
  - intros ([k' v] & -> & Hin). apply elem_of_live in Hin as [i Hi]. eauto.
  - intros (i & v & Hi). exists (k, v). split; [done|]. apply elem_of_live. eauto.
Qed.

Lemma live_unique es i j k v w :
  NoDup (live es).*1 → es !! i = Some (Occ k v) → es !! j = Some (Occ k w) → i = j.
Proof.
  intros Hd Hi Hj. destruct (decide (i = j)) as [|Hne]; [done|]. exfalso.
  rewrite (live_split _ _ _ Hi), !fmap_app in Hd. simpl in Hd.
  apply NoDup_app in Hd as (_ & H1 & H2). apply NoDup_cons in H2 as [H2 _].
  destruct (decide (j < i)).
  - apply (H1 k); [|by left]. apply elem_of_live_keys. exists j, w.
    by rewrite lookup_take_lt.
  - apply H2. apply elem_of_live_keys. exists (j - S i), w. rewrite lookup_drop.
    by replace (S i + (j - S i)) with j by lia.
Qed.

Lemma length_live es : length (live es) = length (filter (λ e, is_occupied e) es).
Proof.
  induction es as [|[] es IH]; [done|..]; rewrite filter_cons; simpl; rewrite <-?IH; done.
Qed.

Lemma exists_empty es :
  length (live es) + tombs es < length es → ∃ i, i < length es ∧ es !! i = Some Empty.
Proof.
  intros Hl. destruct (decide (Exists (λ e, is_empty e = true) es)) as [He|He].
  - apply Exists_exists in He as ([] & Hin & ?); try done.
    apply list_elem_of_lookup_1 in Hin as [i Hi]. eauto using lookup_lt_Some.
  - exfalso. apply not_Exists_Forall in He; [|apply _].
    unfold live, tombs in Hl. induction He as [|e es He _ IH]; [simpl in Hl; lia|].
    apply IH. revert Hl. csimpl. rewrite filter_cons, length_app.
    destruct e; simpl in *; [done|lia|lia].
Qed.

(** *** Probing *)

(** The first [d] buckets probed for [key] are in use, by other keys. *)
Definition passes (es : list hm_entry) (cap : nat) (key : string) (d : nat) : Prop :=
  ∀ j, j < d → ∃ e, es !! probe cap (home key (cap - 1)) j = Some e ∧
    is_empty e = false ∧ ∀ v, e ≠ Occ key v.

(** A table with an empty bucket: probing ends at the key, or at an empty bucket
    when the key is not in the table. *)
Lemma locate es cap key :
  table_ok es cap → length (live es) + tombs es < cap →
  (∃ d v, d < cap ∧ passes es cap key d ∧
     es !! probe cap (home key (cap - 1)) d = Some (Occ key v)) ∨
  (∃ d, d < cap ∧ passes es cap key d ∧
     es !! probe cap (home key (cap - 1)) d = Some Empty ∧ key ∉ (live es).*1).
Proof.
  intros Hok Hfree. destruct (decide (key ∈ (live es).*1)) as [Hin|Hout].
  - left. apply elem_of_live_keys in Hin as (i & v & Hi).
    destruct (tb_probe _ _ Hok _ _ _ Hi) as (d & Hd & -> & Huse).
    exists d, v. split_and!; [done| |done]. intros j Hj.
    destruct (Huse j Hj) as (e & He & Hne). exists e. split_and!; [done..|].
    intros w ->. pose proof (live_unique _ _ _ _ _ _ (tb_nodup _ _ Hok) Hi He) as Heq.
    apply tb_probe_inj in Heq; lia.
  - right. destruct (exists_empty es) as (i & Hi & He); [by rewrite (tb_length _ _ Hok)|].
    rewrite (tb_length _ _ Hok) in Hi.
    destruct (tb_reach (cap := cap) (home key (cap - 1)) i) as (d' & Hd' & ->); [apply (tb_home Hok)|done|].
    destruct (nat_least (λ d, (is_empty <$> es !! probe cap (home key (cap - 1)) d) = Some true) d')
      as (d & Hle & Hd & Hmin); [by rewrite He|].
    destruct (es !! probe cap (home key (cap - 1)) d) as [[]|] eqn:Hed; try done.
    exists d. split_and!; [lia| |done..]. intros j Hj. specialize (Hmin j Hj).
    destruct (lookup_lt_is_Some_2 es (probe cap (home key (cap - 1)) j)) as [e Hej].
    { rewrite (tb_length _ _ Hok). apply (tb_probe_lt Hok). }
    exists e. rewrite Hej in Hmin. split_and!; [done|by destruct e|].
    intros v ->. apply Hout, elem_of_live_keys. eauto.
Qed.

Section probing.
Context {es : list hm_entry} {cap : nat} (Hok : table_ok es cap) (key : string).
Abbreviation at_ j := (probe cap (home key (cap - 1)) j).

(** One step of a probing loop over a bucket in use. *)
Lemma passes_read d j :
  passes es cap key d → j < d →
  ∃ e, c_read es (at_ j) = Ret e ∧ is_empty e = false ∧ ∀ v, e ≠ Occ key v.
Proof.
  intros Hp Hj. destruct (Hp j Hj) as (e & He & ?). exists e. by rewrite (c_read_Some _ _ _ He).
Qed.

Lemma strcmp_other k v : Occ k v ≠ Occ key v → strcmp k key ≠ Eq.
Proof. intros Hne He. apply strcmp_eq in He. congruence. Qed.

Lemma find_hit fuel d j v :
  passes es cap key d → es !! at_ d = Some (Occ key v) → j ≤ d → d - j < fuel →
  find_loop fuel es (cap - 1) (at_ j) key = Ret (Some (at_ d)).
Proof.
  intros Hp Hd. revert j. induction fuel as [|fuel IH]; intros j Hj Hf; [lia|]. simpl.
  destruct (decide (j = d)) as [->|Hne].
  - rewrite (c_read_Some _ _ _ Hd). simpl. by rewrite decide_True by apply strcmp_refl.
  - destruct (passes_read d j Hp) as (e & -> & He & Hk); [lia|]. simpl.
    rewrite (tb_next Hok). destruct e as [| |k w]; [done|apply IH; lia|].
    rewrite decide_False by (eapply strcmp_other, Hk). apply IH; lia.
Qed.

Lemma find_miss fuel d j :
  passes es cap key d → es !! at_ d = Some Empty → j ≤ d → d - j < fuel →
  find_loop fuel es (cap - 1) (at_ j) key = Ret None.
Proof.
  intros Hp Hd. revert j. induction fuel as [|fuel IH]; intros j Hj Hf; [lia|]. simpl.
  destruct (decide (j = d)) as [->|Hne].
  - by rewrite (c_read_Some _ _ _ Hd).
  - destruct (passes_read d j Hp) as (e & -> & He & Hk); [lia|]. simpl.
    rewrite (tb_next Hok). destruct e as [| |k w]; [done|apply IH; lia|].
    rewrite decide_False by (eapply strcmp_other, Hk). apply IH; lia.
Qed.

Lemma put_hit fuel d j v ft :
  passes es cap key d → es !! at_ d = Some (Occ key v) → j ≤ d → d - j < fuel →
  put_loop fuel es (cap - 1) (at_ j) key ft = Ret (PutUpdate (at_ d)).
Proof.
  intros Hp Hd. revert j ft. induction fuel as [|fuel IH]; intros j ft Hj Hf; [lia|]. simpl.
  destruct (decide (j = d)) as [->|Hne].
  - rewrite (c_read_Some _ _ _ Hd). simpl. by rewrite decide_True by apply strcmp_refl.
  - destruct (passes_read d j Hp) as (e & -> & He & Hk); [lia|]. simpl.
    rewrite (tb_next Hok). destruct e as [| |k w]; [done|apply IH; lia|].
    rewrite decide_False by (eapply strcmp_other, Hk). apply IH; lia.
Qed.

(** A tombstone [hm_put] remembers is one it probed. *)
Definition tomb_before (d : nat) (ft : option nat) : Prop :=
  match ft with
  | None => True
  | Some t => ∃ j, j < d ∧ t = at_ j ∧ es !! t = Some Tomb
  end.

Lemma put_miss fuel d j ft :
  passes es cap key d → es !! at_ d = Some Empty → j ≤ d → d - j < fuel → tomb_before d ft →
  ∃ ft', put_loop fuel es (cap - 1) (at_ j) key ft = Ret (PutInsert ft' (at_ d)) ∧
    tomb_before d ft'.
Proof.
  intros Hp Hd. revert j ft. induction fuel as [|fuel IH]; intros j ft Hj Hf Hft; [lia|]. simpl.
  destruct (decide (j = d)) as [->|Hne].
  - rewrite (c_read_Some _ _ _ Hd). simpl. eauto.
  - destruct (Hp j) as (e & He & Hempty & Hk); [lia|]. rewrite (c_read_Some _ _ _ He). simpl.
    rewrite (tb_next Hok). destruct e as [| |k w]; [done|..].
    + apply IH; [lia|lia|]. destruct ft as [t|]; [done|]. exists j. split_and!; [lia|done..].
    + rewrite decide_False by (eapply strcmp_other, Hk). apply IH; [lia|lia|done].
Qed.

Lemma free_hit fuel d j :
  passes es cap key d → es !! at_ d = Some Empty → j ≤ d → d - j < fuel →
  free_loop fuel es (cap - 1) (at_ j) = Ret (at_ d).
Proof.
  intros Hp Hd. revert j. induction fuel as [|fuel IH]; intros j Hj Hf; [lia|]. simpl.
  destruct (decide (j = d)) as [->|Hne].
  - by rewrite (c_read_Some _ _ _ Hd).
  - destruct (passes_read d j Hp) as (e & -> & He & Hk); [lia|]. simpl.
    rewrite He, (tb_next Hok). apply IH; lia.
Qed.

End probing.

(** *** The three updates of a table *)

Lemma in_use_insert es cap key d i e :
  is_empty e = false → in_use es cap key d → in_use (<[i := e]> es) cap key d.
Proof.
  intros He Hu j Hj. destruct (Hu j Hj) as (e' & He' & Hne).
  destruct (decide (i = probe cap (home key (cap - 1)) j)) as [->|Hi].
  - exists e. split; [|done]. apply list_lookup_insert_eq. by eapply lookup_lt_Some.
  - exists e'. by rewrite list_lookup_insert_ne.
Qed.

Lemma table_insert es cap key v d e0 :
  table_ok es cap → key ∉ (live es).*1 → d < cap → passes es cap key d →
  es !! probe cap (home key (cap - 1)) d = Some e0 → is_occupied e0 = false →
  table_ok (<[probe cap (home key (cap - 1)) d := Occ key v]> es) cap.
Proof.
  intros Hok Hk Hd Hp He0 Hocc. set (i := probe _ _ _) in *.
  pose proof (lookup_lt_Some _ _ _ He0) as Hi.
  assert (Hu : in_use es cap key d).
  { intros j Hj. destruct (Hp j Hj) as (e & ? & ? & _). eauto. }
  split; [apply Hok|by rewrite length_insert, (tb_length _ _ Hok)|..].
  - rewrite live_insert by done. pose proof (tb_nodup _ _ Hok) as Hnd.
    rewrite (live_split _ _ _ He0) in Hk, Hnd. destruct e0; try done; simpl in Hk, Hnd;
      rewrite !fmap_app in *; simpl;
      apply not_elem_of_app in Hk as [Hk1 Hk2]; rewrite <-Permutation_middle;
      (apply NoDup_cons; split; [by apply not_elem_of_app|done]).
  - intros i' k w. destruct (decide (i' = i)) as [->|Hne].
    + rewrite list_lookup_insert_eq by done. intros [= <- <-].
      exists d. split_and!; [done..|]. by apply in_use_insert.
    + rewrite list_lookup_insert_ne by done. intros Hl.
      destruct (tb_probe _ _ Hok _ _ _ Hl) as (d' & ? & ? & ?).
      exists d'. split_and!; [done..|]. by apply in_use_insert.
Qed.

Lemma table_update es cap i key v w :
  table_ok es cap → es !! i = Some (Occ key v) → table_ok (<[i := Occ key w]> es) cap.
Proof.
  intros Hok He. pose proof (lookup_lt_Some _ _ _ He) as Hi.
  split; [apply Hok|by rewrite length_insert, (tb_length _ _ Hok)|..].
  - rewrite live_insert by done. pose proof (tb_nodup _ _ Hok) as Hnd.
    rewrite (live_split _ _ _ He) in Hnd. rewrite !fmap_app in *. done.
  - intros i' k x. destruct (decide (i' = i)) as [->|Hne].
    + rewrite list_lookup_insert_eq by done. intros [= <- <-].
      destruct (tb_probe _ _ Hok _ _ _ He) as (d' & ? & ? & ?).
      exists d'. split_and!; [done..|]. by apply in_use_insert.
    + rewrite list_lookup_insert_ne by done. intros Hl.
      destruct (tb_probe _ _ Hok _ _ _ Hl) as (d' & ? & ? & ?).
      exists d'. split_and!; [done..|]. by apply in_use_insert.
Qed.

Lemma table_delete es cap i key v :
  table_ok es cap → es !! i = Some (Occ key v) → table_ok (<[i := Tomb]> es) cap.
Proof.
  intros Hok He. pose proof (lookup_lt_Some _ _ _ He) as Hi.
  split; [apply Hok|by rewrite length_insert, (tb_length _ _ Hok)|..].
  - rewrite live_insert by done. pose proof (tb_nodup _ _ Hok) as Hnd.
    rewrite (live_split _ _ _ He) in Hnd. rewrite !fmap_app in *. simpl in *.
    rewrite <-Permutation_middle in Hnd. by apply NoDup_cons in Hnd as [_ ?].
  - intros i' k x. destruct (decide (i' = i)) as [->|Hne].
    + by rewrite list_lookup_insert_eq.
    + rewrite list_lookup_insert_ne by done. intros Hl.
      destruct (tb_probe _ _ Hok _ _ _ Hl) as (d' & ? & ? & ?).
      exists d'. split_and!; [done..|]. by apply in_use_insert.
Qed.

Lemma live_insert_new es i key v e0 :
  es !! i = Some e0 → is_occupied e0 = false →
  live (<[i := Occ key v]> es) ≡ₚ (key, v) :: live es.
Proof.
  intros He Hocc. rewrite live_insert by (by eapply lookup_lt_Some).
  rewrite (live_split _ _ _ He). destruct e0; try done; simpl; by rewrite Permutation_middle.
Qed.

Lemma live_replicate n : live (replicate n Empty) = [].
Proof. by induction n. Qed.

Lemma table_empty k : 4 ≤ k → table_ok (replicate (2 ^ k) Empty) (2 ^ k).
Proof.
  intros Hk. split; [by exists k|by rewrite length_replicate|..].
  - rewrite live_replicate. constructor.
  - intros i key v Hi. apply lookup_replicate in Hi as [? _]. done.
Qed.

Lemma tombs_replicate n : tombs (replicate n Empty) = 0.
Proof. by induction n. Qed.

(** *** Rehashing *)

(** The bucket [hm_rehash] finds for a new key. *)
Lemma free_loop_spec es cap key :
  table_ok es cap → length (live es) + tombs es < cap → key ∉ (live es).*1 →
  ∃ d, d < cap ∧ passes es cap key d ∧
    es !! probe cap (home key (cap - 1)) d = Some Empty ∧
    free_loop cap es (cap - 1) (home key (cap - 1)) = Ret (probe cap (home key (cap - 1)) d).
Proof.
  intros Hok Hfree Hk. destruct (locate es cap key Hok Hfree) as [(d & v & _ & _ & He)|(d & Hd & Hp & He & _)].
  - exfalso. apply Hk, elem_of_live_keys. eauto.
  - exists d. split_and!; [done..|]. rewrite (tb_start Hok) at 1.
    eapply free_hit; [done..|lia|lia].
Qed.

Lemma rehash_loop_spec old neu cap :
  table_ok neu cap → tombs neu = 0 → length (live old) + length (live neu) < cap →
  NoDup (live old ++ live neu).*1 →
  ∃ neu', rehash_loop old neu (length (live neu)) cap = Ret (neu', length (live neu')) ∧
    table_ok neu' cap ∧ tombs neu' = 0 ∧ live neu' ≡ₚ live old ++ live neu.
Proof.
  revert neu. induction old as [|e old IH]; intros neu Hok Ht Hl Hnd; [by exists neu|].
  destruct e as [| |key v]; [by apply IH..|]. simpl in Hl, Hnd |- *. csimpl in Hnd.
  apply NoDup_cons in Hnd as [Hk Hnd].
  assert (key ∉ (live neu).*1) as Hk'.
  { rewrite fmap_app, not_elem_of_app in Hk. tauto. }
  destruct (free_loop_spec neu cap key Hok) as (d & Hd & Hp & He & ->); [lia|done|].
  simpl. pose proof (lookup_lt_Some _ _ _ He) as Hi.
  rewrite c_write_lt, outcome_bind_ret by done.
  pose proof (live_insert_new neu _ key v _ He eq_refl) as Hlive.
  set (neu' := <[_ := _]> neu) in *.
  assert (length (live neu) + 1 = length (live neu')) as ->.
  { rewrite Hlive. simpl. lia. }
  destruct (IH neu') as (neu2 & Hr & Hok2 & Ht2 & Hl2).
  - by eapply table_insert.
  - pose proof (tombs_insert neu _ (Occ key v) _ He) as H. simpl in H. fold neu' in H. lia.
  - rewrite Hlive. simpl. lia.
  - rewrite Hlive. rewrite <-Permutation_middle. csimpl. by apply NoDup_cons.
  - exists neu2. split_and!; [done..|]. rewrite Hl2, Hlive. by rewrite <-Permutation_middle.
Qed.

(** ** Well-formed maps *)

Record hm_wf (hm : hashmap) : Prop := {
  hm_table : table_ok (entries hm) (capacity hm);
  hm_counted : hm_count hm = length (live (entries hm));
  hm_tombs : tombstones hm = tombs (entries hm);
  hm_free : hm_count hm + tombstones hm < capacity hm;
}.

Definition hm_map (hm : hashmap) : gmap string (option V) := list_to_map (live (entries hm)).

Lemma hm_map_elem hm key : key ∈ (live (entries hm)).*1 ↔ is_Some (hm_map hm !! key).
Proof.
  unfold hm_map. split.
  - intros Hk. destruct (list_to_map (live (entries hm)) !! key) eqn:He; [done|].
    by apply not_elem_of_list_to_map in He.
  - intros [v Hv]. apply elem_of_list_to_map_2 in Hv.
    apply list_elem_of_fmap. by exists (key, v).
Qed.

Lemma hm_map_lookup hm i key v :
  hm_wf hm → entries hm !! i = Some (Occ key v) → hm_map hm !! key = Some v.
Proof.
  intros Hwf Hi. apply elem_of_list_to_map_1; [apply (tb_nodup _ _ (hm_table _ Hwf))|].
  apply elem_of_live. eauto.
Qed.

(** Where the probing for a key ends in a well-formed map. *)
Lemma hm_locate hm key :
  hm_wf hm →
  (∃ d v, d < capacity hm ∧ passes (entries hm) (capacity hm) key d ∧
     entries hm !! probe (capacity hm) (home key (capacity hm - 1)) d = Some (Occ key v) ∧
     hm_map hm !! key = Some v) ∨
  (∃ d, d < capacity hm ∧ passes (entries hm) (capacity hm) key d ∧
     entries hm !! probe (capacity hm) (home key (capacity hm - 1)) d = Some Empty ∧
     hm_map hm !! key = None).
Proof.
  intros Hwf. destruct (locate (entries hm) (capacity hm) key (hm_table _ Hwf))
    as [(d & v & ? & ? & ?)|(d & ? & ? & ? & Hk)].
  - rewrite <-(hm_counted _ Hwf), <-(hm_tombs _ Hwf). apply Hwf.
  - left. exists d, v. split_and!; [done..|]. by eapply hm_map_lookup.
  - right. exists d. split_and!; [done..|]. apply eq_None_not_Some. by rewrite <-hm_map_elem.
Qed.

Lemma rehash_spec hm :
  hm_wf hm →
  ∃ hm', hm_rehash hm (capacity hm * 2) = Ret hm' ∧ hm_wf hm' ∧ hm_map hm' = hm_map hm ∧
    capacity hm' = capacity hm * 2 ∧ hm_count hm' = hm_count hm ∧ tombstones hm' = 0.
Proof.
  intros Hwf. destruct (tb_pow _ _ (hm_table _ Hwf)) as (k & Hc & Hk).
  assert (Hc2 : capacity hm * 2 = 2 ^ S k) by (rewrite Hc; simpl; lia).
  unfold hm_rehash. rewrite Hc2.
  pose proof (hm_free _ Hwf) as Hfree. pose proof (hm_counted _ Hwf) as Hcount.
  pose proof (tb_nodup _ _ (hm_table _ Hwf)) as Hnd.
  destruct (rehash_loop_spec (entries hm) (replicate (2 ^ S k) Empty) (2 ^ S k))
    as (neu & Hr & Hok & Ht & Hl).
  - apply table_empty. lia.
  - apply tombs_replicate.
  - rewrite live_replicate, <-Hc2. simpl. lia.
  - by rewrite live_replicate, app_nil_r.
  - rewrite live_replicate in Hr, Hl. rewrite app_nil_r in Hl. cbn [length] in Hr. rewrite Hr.
    cbn [mbind outcome_bind].
    eexists. split; [done|]. split_and!; [|..|done]; cbn [entries capacity hm_count tombstones].
    + split; cbn [entries capacity hm_count tombstones]; [done..|]. rewrite Hl, <-Hcount, <-Hc2. lia.
    + unfold hm_map. simpl. apply list_to_map_proper; [|done]. by rewrite Hl.
    + done.
    + by rewrite Hl, <-Hcount.
Qed.

(** Before an insertion there is room for one more entry than needed. *)
Lemma maybe_grow_spec hm :
  hm_wf hm →
  ∃ hm', hm_maybe_grow hm = Ret hm' ∧ hm_wf hm' ∧ hm_map hm' = hm_map hm ∧
    hm_count hm' + tombstones hm' + 1 < capacity hm'.
Proof.
  intros Hwf. pose proof (tb_pos (hm_table _ Hwf)) as Hc.
  pose proof (hm_free _ Hwf). unfold hm_maybe_grow, HM_LOAD_NUM, HM_LOAD_DEN.
  case_decide.
  - destruct (rehash_spec hm Hwf) as (hm' & ? & ? & ? & H1 & H2 & H3).
    exists hm'. split_and!; [done..|]. lia.
  - exists hm. split_and!; [done..|]. lia.
Qed.

Lemma hm_get_spec hm key : hm_wf hm → hm_get hm key = Ret (hm_map hm !! key).
Proof.
  intros Hwf. pose proof (hm_table _ Hwf) as Hok. pose proof (tb_pos Hok).
  unfold hm_get. rewrite decide_False by lia. cbv zeta. rewrite (tb_start Hok) at 1.
  destruct (hm_locate hm key Hwf) as [(d & v & Hd & Hp & He & ->)|(d & Hd & Hp & He & ->)].
  - erewrite find_hit by (done || lia). rewrite outcome_bind_ret.
    by rewrite (c_read_Some _ _ _ He).
  - by erewrite find_miss by (done || lia).
Qed.

(** Writing a key into a bucket that is not occupied. *)
Lemma write_new_wf hm key v d e0 t :
  hm_wf hm → hm_map hm !! key = None → d < capacity hm →
  passes (entries hm) (capacity hm) key d →
  entries hm !! probe (capacity hm) (home key (capacity hm - 1)) d = Some e0 →
  is_occupied e0 = false → hm_count hm + tombstones hm + 1 < capacity hm →
  t + (if is_tomb e0 then 1 else 0) = tombstones hm →
  let es := <[probe (capacity hm) (home key (capacity hm - 1)) d := Occ key v]> (entries hm) in
  let hm' := mk_hashmap es (capacity hm) (hm_count hm + 1) t in
  hm_wf hm' ∧ hm_map hm' = <[key := v]> (hm_map hm).
Proof.
  intros Hwf Hk Hd Hp He Hocc Hroom Ht es hm'.
  assert (Hk' : key ∉ (live (entries hm)).*1) by (by rewrite hm_map_elem, Hk; intros []).
  pose proof (table_insert _ _ key v d e0 (hm_table _ Hwf) Hk' Hd Hp He Hocc) as Hok'.
  pose proof (live_insert_new _ _ key v _ He Hocc) as Hl. fold es in Hl, Hok'. split.
  - split; simpl; [done|..].
    + rewrite Hl. simpl. rewrite (hm_counted _ Hwf). lia.
    + pose proof (tombs_insert _ _ (Occ key v) _ He) as H. fold es in H.
      pose proof (hm_tombs _ Hwf). simpl in H. lia.
    + destruct (is_tomb e0); lia.
  - unfold hm_map. simpl. change (<[key := v]> (list_to_map (live (entries hm))))
      with (list_to_map ((key, v) :: live (entries hm)) : gmap string (option V)).
    apply list_to_map_proper; [|done]. apply (tb_nodup _ _ Hok').
Qed.

Lemma hm_put_spec hm key v :
  hm_wf hm →
  ∃ hm', hm_put hm key v =
      Ret ((if decide (is_Some (hm_map hm !! key)) then 1 else 0)%Z, hm') ∧
    hm_wf hm' ∧ hm_map hm' = <[key := v]> (hm_map hm).
Proof.
  intros Hwf0. unfold hm_put.
  destruct (maybe_grow_spec hm Hwf0) as (hm1 & -> & Hwf & <- & Hroom).
  rewrite outcome_bind_ret. cbv beta zeta. clear Hwf0 hm. rename hm1 into hm.
  pose proof (hm_table _ Hwf) as Hok.
  destruct (hm_locate hm key Hwf) as [(d & w & Hd & Hp & He & Hm)|(d & Hd & Hp & He & Hm)].
  - pose proof (put_hit Hok key (capacity hm) d 0 w None) as Hr. rewrite <-(tb_start Hok) in Hr.
    rewrite Hr, outcome_bind_ret by (done || lia).
    pose proof (lookup_lt_Some _ _ _ He) as Hi.
    rewrite (c_read_Some _ _ _ He), outcome_bind_ret, c_write_lt, outcome_bind_ret by done.
    eexists. rewrite decide_True by (by rewrite Hm). split; [done|].
    pose proof (table_update _ _ _ key w v Hok He) as Hok'. split.
    + split; simpl; [done|..|apply Hwf].
      * rewrite (hm_counted _ Hwf), live_insert, (live_split _ _ _ He), !length_app by done. done.
      * pose proof (tombs_insert _ _ (Occ key v) _ He) as H. simpl in H.
        rewrite (hm_tombs _ Hwf). lia.
    + unfold hm_map. simpl. rewrite live_insert, (live_split (entries hm) _ _ He) by done.
      apply list_to_map_replace_mid. pose proof (tb_nodup _ _ Hok) as Hnd.
      by rewrite (live_split _ _ _ He) in Hnd.
  - destruct (put_miss Hok key (capacity hm) d 0 None) as (ft & Hr & Hft); [done|done|lia|lia|done|].
    rewrite <-(tb_start Hok) in Hr. rewrite Hr, outcome_bind_ret. pose proof (lookup_lt_Some _ _ _ He) as Hi.
    rewrite (decide_False (P := is_Some (hm_map hm !! key))) by (by rewrite Hm; intros []).
    destruct ft as [t|]; cbn [default from_option].
    + destruct Hft as (j & Hj & -> & Ht).
      assert (0 < tombstones hm).
      { rewrite (hm_tombs _ Hwf). pose proof (tombs_insert _ _ Empty _ Ht) as H. simpl in H. lia. }
      rewrite decide_True by done.
      rewrite c_write_lt, outcome_bind_ret by (by eapply lookup_lt_Some).
      eexists. split; [done|]. eapply (write_new_wf hm key v j);
        [done..|lia|intros j' Hj'; apply Hp; lia|exact Ht|done|done|simpl; lia].
    + rewrite c_write_lt, outcome_bind_ret by done.
      eexists. split; [done|]. eapply write_new_wf; [done..|simpl; lia].
Qed.

Lemma hm_del_spec hm key :
  hm_wf hm →
  ∃ hm', hm_del hm key =
      Ret ((if decide (is_Some (hm_map hm !! key)) then 1 else 0)%Z, hm') ∧
    hm_wf hm' ∧ hm_map hm' = delete key (hm_map hm).
Proof.
  intros Hwf. unfold hm_del. pose proof (hm_table _ Hwf) as Hok.
  destruct (decide (hm_count hm = 0)) as [Hz|Hz].
  { assert (hm_map hm = ∅) as Hm.
    { unfold hm_map. rewrite (hm_counted _ Hwf) in Hz. by apply nil_length_inv in Hz as ->. }
    exists hm. rewrite Hm, lookup_empty, decide_False by (by intros []).
    by rewrite delete_empty. }
  destruct (hm_locate hm key Hwf) as [(d & w & Hd & Hp & He & Hm)|(d & Hd & Hp & He & Hm)].
  - pose proof (find_hit Hok key (capacity hm) d 0 w) as Hr. rewrite <-(tb_start Hok) in Hr.
    rewrite Hr, outcome_bind_ret by (done || lia).
    pose proof (lookup_lt_Some _ _ _ He) as Hi.
    rewrite c_write_lt, outcome_bind_ret by done.
    rewrite decide_True by (by rewrite Hm). eexists. split; [done|].
    pose proof (table_delete _ _ _ key w Hok He) as Hok'.
    pose proof (tombs_insert _ _ Tomb _ He) as Ht. simpl in Ht.
    pose proof (live_insert _ _ Tomb Hi) as Hl. pose proof (live_split _ _ _ He) as Hl0.
    simpl in Hl, Hl0. split.
    + split; simpl; [done|..].
      * rewrite (hm_counted _ Hwf), Hl, Hl0, !length_app. simpl. lia.
      * rewrite (hm_tombs _ Hwf). lia.
      * pose proof (hm_free _ Hwf). lia.
    + unfold hm_map. simpl. rewrite Hl, Hl0. apply list_to_map_delete_mid.
      rewrite <-Hl0. apply (tb_nodup _ _ Hok).
  - pose proof (find_miss Hok key (capacity hm) d 0) as Hr. rewrite <-(tb_start Hok) in Hr.
    rewrite Hr, outcome_bind_ret by (done || lia).
    exists hm. rewrite (decide_False (P := is_Some (hm_map hm !! key))) by (by rewrite Hm; intros []).
    split_and!; [done..|]. by rewrite delete_id.
Qed.

(** *** Iteration *)

(** The loop of a caller: [while (hm_iter_next (&it, &key, &value))]. *)
Fixpoint hm_iterate (fuel : nat) (hm : hashmap) (idx : nat)
    : outcome (list (string * option V)) :=
  match fuel with
  | 0 => Stuck OutOfFuel
  | S fuel =>
      '(idx, r) ← hm_iter_next hm idx;
      match r with
      | None => Ret []
      | Some kv => rest ← hm_iterate fuel hm idx; Ret (kv :: rest)
      end
  end.

Lemma iter_loop_spec fuel hm idx :
  length (entries hm) = capacity hm → idx ≤ capacity hm → capacity hm - idx ≤ fuel →
  match live (drop idx (entries hm)) with
  | [] => iter_loop fuel hm idx = Ret (capacity hm, None)
  | kv :: rest =>
      ∃ idx', iter_loop fuel hm idx = Ret (idx', Some kv) ∧ idx < idx' ≤ capacity hm ∧
        live (drop idx' (entries hm)) = rest
  end.
Proof.
  intros Hl. revert idx. induction fuel as [|fuel IH]; intros idx Hi Hf; simpl.
  { rewrite decide_False by lia. rewrite drop_ge by lia. simpl.
    by replace idx with (capacity hm) by lia. }
  destruct (decide (idx < capacity hm)) as [Hlt|Hge].
  - destruct (lookup_lt_is_Some_2 (entries hm) idx) as [e He]; [lia|].
    rewrite (c_read_Some _ _ _ He), (drop_S _ _ _ He), outcome_bind_ret.
    destruct e as [| |k v]; cbn [live1 live mbind list_bind app].
    1-2: specialize (IH (idx + 1)); replace (idx + 1) with (S idx) in * by lia;
      fold (live (drop (S idx) (entries hm))); destruct (live (drop (S idx) (entries hm)));
      [apply IH; lia|];
      destruct IH as (idx' & ? & ? & ?); [lia..|]; exists idx'; split_and!; [done|lia|lia|done].
    exists (idx + 1). split_and!; [done|lia|lia|]. by replace (idx + 1) with (S idx) by lia.
  - rewrite drop_ge by lia. simpl. by replace idx with (capacity hm) by lia.
Qed.

Lemma hm_iterate_spec fuel hm idx :
  length (entries hm) = capacity hm → idx ≤ capacity hm → capacity hm - idx < fuel →
  hm_iterate fuel hm idx = Ret (live (drop idx (entries hm))).
Proof.
  intros Hl. revert idx. induction fuel as [|fuel IH]; intros idx Hi Hf; [lia|]. simpl.
  unfold hm_iter_next. rewrite decide_False by lia.
  pose proof (iter_loop_spec (capacity hm) hm idx Hl Hi) as Hs.
  destruct (live (drop idx (entries hm))) as [|kv rest].
  - by rewrite Hs by lia.
  - destruct Hs as (idx' & -> & Hr & Hd); [lia|]. simpl.
    by rewrite IH, Hd by lia.
Qed.

(** The whole iteration, in bucket order. *)
Lemma hm_iterate_map hm :
  hm_wf hm → ∃ l, hm_iterate (S (capacity hm)) hm 0 = Ret l ∧ l ≡ₚ map_to_list (hm_map hm).
Proof.
  intros Hwf. pose proof (hm_table _ Hwf) as Hok. exists (live (entries hm)). split.
  - rewrite hm_iterate_spec; [by rewrite drop_0|apply (tb_length _ _ Hok)|lia|lia].
  - unfold hm_map. by rewrite map_to_list_to_map by apply (tb_nodup _ _ Hok).
Qed.

(** ** Initialisation *)

Lemma pow2_double j : (N.shiftl (2 ^ j) 1 = 2 ^ (j + 1))%N.
Proof. rewrite N.shiftl_mul_pow2, <-N.pow_add_r. done. Qed.

Lemma wrap64_small n : (n < 2 ^ 64)%N → wrap64 n = n.
Proof. apply N.mod_small. Qed.

Lemma next_pow2_loop_spec fuel j x :
  (j ≤ 63)%N → (x ≤ 2 ^ 63)%N → (63 - j < N.of_nat fuel)%N →
  ∃ k, next_pow2_loop fuel (2 ^ j) x = Ret (2 ^ k)%N ∧ (j ≤ k ≤ 63)%N ∧ (x ≤ 2 ^ k)%N ∧
    (k = j ∨ 2 ^ k < 2 * x)%N.
Proof.
  revert j. induction fuel as [|fuel IH]; intros j Hj Hx Hf; [lia|]. cbn [next_pow2_loop].
  destruct (N.ltb_spec (2 ^ j) x) as [Hlt|Hge]; [|exists j; split_and!; [done|lia..|by left]].
  assert (j < 63)%N as Hj'.
  { destruct (N.eq_dec j 63%N) as [->|]; [|lia]. exfalso. revert Hlt Hx. lia. }
  rewrite pow2_double, wrap64_small by (apply N.pow_lt_mono_r; lia).
  destruct (IH (j + 1)%N) as (k & -> & Hk & Hxk & Hmin); [lia|done|lia|].
  exists k. split_and!; [done|lia|lia|done|]. right.
  destruct Hmin as [->|]; [|done]. rewrite N.pow_add_r. lia.
Qed.

(** Above the largest power of two the shifts reach 0 and the loop never ends. *)
Lemma next_pow2_loop_diverges fuel p x :
  (2 ^ 63 < x)%N → p = 0%N ∨ (∃ j, p = 2 ^ j ∧ j ≤ 63)%N →
  next_pow2_loop fuel p x = Stuck OutOfFuel.
Proof.
  intros Hx. revert p. induction fuel as [|fuel IH]; intros p Hp; [done|]. simpl.
  assert (p < x)%N as Hlt.
  { destruct Hp as [->|(j & -> & Hj)]; [lia|].
    eapply N.le_lt_trans; [|done]. apply N.pow_le_mono_r; lia. }
  apply N.ltb_lt in Hlt as ->. apply IH.
  destruct Hp as [->|(j & -> & Hj)]; [by left|].
  rewrite pow2_double. destruct (N.eq_dec j 63%N) as [->|]; [by left|].
  right. exists (j + 1)%N. split; [|lia].
  apply wrap64_small, N.pow_lt_mono_r; lia.
Qed.

Lemma hm_init_spec cap0 :
  (cap0 ≤ 2 ^ 63)%N →
  ∃ hm, hm_init cap0 = Ret hm ∧ hm_wf hm ∧ hm_map hm = ∅ ∧
    (cap0 ≤ N.of_nat (capacity hm))%N ∧
    (capacity hm = 16 ∨ (N.of_nat (capacity hm) < 2 * cap0)%N).
Proof.
  intros Hc. unfold hm_init, next_pow2.
  set (x := if (cap0 =? 0)%N then HM_MIN_CAP else cap0).
  assert (Hx : (cap0 ≤ x ≤ 2 ^ 63)%N ∧ (x = cap0 ∨ x = 16%N)).
  { unfold x, HM_MIN_CAP. destruct (N.eqb_spec cap0 0) as [->|]; [|lia]. split; [|by right]. done. }
  destruct (next_pow2_loop_spec 64 4 x) as (k & Hk & Hr & Hxk & Hmin); [done|lia|done|].
  change (2 ^ 4)%N with HM_MIN_CAP in Hk. rewrite Hk, outcome_bind_ret.
  eexists. split; [done|].
  assert (Hpow : N.to_nat (2 ^ k) = 2 ^ N.to_nat k) by (by rewrite N2Nat.inj_pow).
  split_and!; cbn [entries capacity hm_count tombstones].
  - rewrite Hpow. split; cbn [entries capacity hm_count tombstones].
    + apply table_empty. lia.
    + by rewrite live_replicate.
    + by rewrite tombs_replicate.
    + pose proof (Nat.pow_nonzero 2 (N.to_nat k)). lia.
  - unfold hm_map. simpl. by rewrite live_replicate.
  - rewrite N2Nat.id. lia.
  - destruct Hmin as [->|Hmin]; [by left|]. rewrite N2Nat.id.
    destruct Hx as [_ [-> | ->]]; [by right|]. left.
    assert (k < 5)%N as Hk5.
    { apply (N.pow_lt_mono_r_iff 2); [lia|]. change (2 ^ 5)%N with 32%N. lia. }
    by replace k with 4%N by lia.
Qed.

(** ** Sequences of operations *)

Inductive hop :=
| OpGet (key : string)
| OpPut (key : string) (value : option V)
| OpDel (key : string)
| OpSize.

Inductive hres :=
| RFound (v : option (option V))
| RInt (z : Z)
| RCount (n : nat).

Definition hm_exec (hm : hashmap) (op : hop) : outcome (hres * hashmap) :=
  match op with
  | OpGet k => r ← hm_get hm k; Ret (RFound r, hm)
  | OpPut k v => '(r, hm) ← hm_put hm k v; Ret (RInt r, hm)
  | OpDel k => '(r, hm) ← hm_del hm k; Ret (RInt r, hm)
  | OpSize => Ret (RCount (hm_size hm), hm)
  end.

Fixpoint hm_run (hm : hashmap) (ops : list hop) : outcome (list hres * hashmap) :=
  match ops with
  | [] => Ret ([], hm)
  | op :: ops =>
      '(r, hm) ← hm_exec hm op;
      '(rs, hm) ← hm_run hm ops;
      Ret (r :: rs, hm)
  end.

Definition map_exec (m : gmap string (option V)) (op : hop) : hres * gmap string (option V) :=
  match op with
  | OpGet k => (RFound (m !! k), m)
  | OpPut k v => (RInt (if decide (is_Some (m !! k)) then 1 else 0), <[k := v]> m)
  | OpDel k => (RInt (if decide (is_Some (m !! k)) then 1 else 0), delete k m)
  | OpSize => (RCount (size m), m)
  end.

Fixpoint map_run (m : gmap string (option V)) (ops : list hop)
    : list hres * gmap string (option V) :=
  match ops with
  | [] => ([], m)
  | op :: ops =>
      let '(r, m) := map_exec m op in
      let '(rs, m) := map_run m ops in
      (r :: rs, m)
  end.

Lemma hm_size_spec hm : hm_wf hm → hm_size hm = size (hm_map hm).
Proof.
  intros Hwf. unfold hm_size, hm_map. rewrite (hm_counted _ Hwf).
  rewrite <-length_map_to_list, map_to_list_to_map; [done|].
  apply (tb_nodup _ _ (hm_table _ Hwf)).
Qed.

Lemma hm_exec_refines hm op :
  hm_wf hm →
  ∃ hm', hm_exec hm op = Ret ((map_exec (hm_map hm) op).1, hm') ∧ hm_wf hm' ∧
    hm_map hm' = (map_exec (hm_map hm) op).2.
Proof.
  intros Hwf. destruct op as [k|k v|k|]; simpl.
  - rewrite hm_get_spec by done. simpl. eauto.
  - destruct (hm_put_spec hm k v Hwf) as (hm' & -> & ? & ?). simpl. eauto.
  - destruct (hm_del_spec hm k Hwf) as (hm' & -> & ? & ?). simpl. eauto.
  - rewrite hm_size_spec by done. eauto.
Qed.

Lemma hm_run_refines hm ops :
  hm_wf hm →
  ∃ hm', hm_run hm ops = Ret ((map_run (hm_map hm) ops).1, hm') ∧ hm_wf hm' ∧
    hm_map hm' = (map_run (hm_map hm) ops).2.
Proof.
  revert hm. induction ops as [|op ops IH]; intros hm Hwf; simpl; [eauto|].
  destruct (hm_exec_refines hm op Hwf) as (hm1 & -> & Hwf1 & Hm1). simpl.
  destruct (IH hm1 Hwf1) as (hm2 & -> & Hwf2 & Hm2). simpl. rewrite Hm1 in Hm2 |- *.
  destruct (map_exec (hm_map hm) op) as [r m]. simpl in *.
  destruct (map_run m ops) as [rs m']. simpl in *. eauto.
Qed.

#[export] Instance hashmap_str_table : StrTable V hashmap := {
  st_wf := hm_wf;
  st_map := hm_map;
  st_get := hm_get;
  st_put := hm_put;
  st_del := hm_del;
  st_iter hm := hm_iterate (S (capacity hm)) hm 0;
}.

#[export] Instance hashmap_str_table_laws : StrTableLaws V hashmap.
Proof.
  split; simpl.
  - exact hm_get_spec.
  - exact hm_put_spec.
  - exact hm_del_spec.
  - exact hm_iterate_map.
Qed.

(** ** Properties *)

(** C20: The hash map is a dictionary: from [hm_init], every sequence of get, put,
    delete and size returns (no probing loop runs forever, no bucket outside the
    array is touched) with the results of a finite map, whatever collisions,
    tombstones and rehashings happen on the way. *)
Theorem hashmap_refines_map (initial_capacity : N) (ops : list hop) :
  (initial_capacity ≤ 2 ^ 63)%N →
  ∃ hm hm', hm_init initial_capacity = Ret hm ∧
    hm_run hm ops = Ret ((map_run ∅ ops).1, hm') ∧ hm_map hm' = (map_run ∅ ops).2.
Proof.
  intros Hc. destruct (hm_init_spec initial_capacity Hc) as (hm & Hi & Hwf & Hm & _).
  destruct (hm_run_refines hm ops Hwf) as (hm' & Hr & _ & Hm'). rewrite Hm in Hr, Hm'. eauto.
Qed.

(** Iterating a map that operations have built yields each live entry exactly
    once and then ends. *)
Theorem hashmap_iterates_all (initial_capacity : N) (ops : list hop) :
  (initial_capacity ≤ 2 ^ 63)%N →
  ∃ hm rs hm' l, hm_init initial_capacity = Ret hm ∧ hm_run hm ops = Ret (rs, hm') ∧
    hm_iterate (S (capacity hm')) hm' 0 = Ret l ∧ l ≡ₚ map_to_list (map_run ∅ ops).2.
Proof.
  intros Hc. destruct (hm_init_spec initial_capacity Hc) as (hm & Hi & Hwf & Hm & _).
  destruct (hm_run_refines hm ops Hwf) as (hm' & Hr & Hwf' & Hm'). rewrite Hm in Hr, Hm'.
  destruct (hm_iterate_map hm' Hwf') as (l & Hl & Hp). rewrite Hm' in Hp.
  by exists hm, (map_run ∅ ops).1, hm', l.
Qed.

(** C21: The documented invariants hold in every reachable map: the capacity is a
    power of two and at least 16, [size] counts the live keys and [tombstones] the
    deleted buckets, and at least one bucket is empty. *)
Theorem hashmap_invariant (initial_capacity : N) (ops : list hop) hm rs hm' :
  hm_init initial_capacity = Ret hm → hm_run hm ops = Ret (rs, hm') →
  (∃ k, capacity hm' = 2 ^ k ∧ 4 ≤ k) ∧ length (entries hm') = capacity hm' ∧
  hm_count hm' = length (filter (λ e, is_occupied e) (entries hm')) ∧
  tombstones hm' = length (filter (λ e, is_tomb e) (entries hm')) ∧
  ∃ i, entries hm' !! i = Some Empty.
Proof.
  intros Hi Hr. assert (Hc : (initial_capacity ≤ 2 ^ 63)%N).
  { destruct (N.le_gt_cases initial_capacity (2 ^ 63)) as [|Hgt]; [done|]. exfalso.
    unfold hm_init, next_pow2 in Hi.
    assert ((initial_capacity =? 0)%N = false) as He by (apply N.eqb_neq; lia).
    rewrite He, next_pow2_loop_diverges in Hi; [done..|].
    right. by exists 4%N. }
  destruct (hm_init_spec initial_capacity Hc) as (hm0 & Hi0 & Hwf & _). simplify_eq.
  rewrite Hi in Hi0. injection Hi0 as <-.
  destruct (hm_run_refines hm ops Hwf) as (hm2 & Hr2 & Hwf2 & _). rewrite Hr in Hr2.
  injection Hr2 as _ <-. pose proof (hm_table _ Hwf2) as Hok.
  split_and!; [apply (tb_pow _ _ Hok)|apply (tb_length _ _ Hok)|..].
  - rewrite (hm_counted _ Hwf2). apply length_live.
  - apply (hm_tombs _ Hwf2).
  - destruct (exists_empty (entries hm')) as (i & _ & ?); [|by exists i].
    rewrite (tb_length _ _ Hok), <-(hm_counted _ Hwf2), <-(hm_tombs _ Hwf2). apply Hwf2.
Qed.

End hashmap.

Arguments hashmap : clear implicits.
Arguments hop : clear implicits.
Arguments hres : clear implicits.
Arguments hm_entry : clear implicits.

(** [hm_init] rounds up to the next power of two, with a floor of 16, for
    every capacity up to 2^63; for a greater one the doubling in [next_pow2] wraps
    to 0 and the call never returns. *)
Theorem hm_init_capacity (V : Type) (cap0 : N) :
  ((cap0 ≤ 2 ^ 63)%N →
     ∃ hm : hashmap V, hm_init cap0 = Ret hm ∧ (cap0 ≤ N.of_nat (capacity hm))%N ∧
       (capacity hm = 16 ∨ (N.of_nat (capacity hm) < 2 * cap0)%N)) ∧
  ((2 ^ 63 < cap0)%N → ∀ fuel, next_pow2_loop fuel HM_MIN_CAP cap0 = Stuck OutOfFuel).
Proof.
  split.
  - intros Hc. destruct (hm_init_spec (V := V) cap0 Hc) as (hm & ? & _ & _ & ? & ?). eauto.
  - intros Hc fuel. apply next_pow2_loop_diverges; [done|]. right. by exists 4%N.
Qed.

(** *** Witnesses *)

Definition demo_hops : list (hop nat) :=
  [OpPut "001" (Some 1); OpPut "002" (Some 2); OpDel "001"; OpGet "001"; OpGet "002";
   OpPut "002" (Some 5); OpPut "001" None; OpSize; OpGet "002"].

Lemma hashmap_refines_map_witness :
  ∃ hm hm' : hashmap nat, hm_init 0 = Ret hm ∧
    hm_run hm demo_hops =
      Ret ([RInt 0; RInt 0; RInt 1; RFound None; RFound (Some (Some 2)); RInt 1; RInt 0;
            RCount 2; RFound (Some (Some 5))], hm').
Proof.
  destruct (hashmap_refines_map 0 demo_hops ltac:(lia)) as (hm & hm' & Hi & Hr & _).
  exists hm, hm'. split; [exact Hi|exact Hr].
Defined.

Lemma hashmap_iterates_all_witness :
  ∃ (hm : hashmap nat) l, hm_iterate (S (capacity hm)) hm 0 = Ret l ∧
    l ≡ₚ map_to_list (map_run ∅ demo_hops).2.
Proof.
  destruct (hashmap_iterates_all 0 demo_hops ltac:(lia)) as (_ & _ & hm' & l & _ & _ & Hl & Hp).
  exists hm', l. split; [exact Hl|exact Hp].
Defined.

Definition demo_hm : hashmap nat :=
  match hm_init 16 with Ret hm => hm | _ => mk_hashmap [] 0 0 0 end.

Definition demo_hm' : hashmap nat :=
  match hm_run demo_hm demo_hops with Ret (_, hm) => hm | _ => demo_hm end.

Lemma hashmap_invariant_witness : ∃ i, entries demo_hm' !! i = Some Empty.
Proof.
  apply (hashmap_invariant 16 demo_hops demo_hm
    match hm_run demo_hm demo_hops with Ret (rs, _) => rs | _ => [] end demo_hm');
    reflexivity.
Defined.

Lemma hm_init_capacity_witness :
  (∃ hm : hashmap nat, hm_init 100 = Ret hm ∧ (100 ≤ N.of_nat (capacity hm))%N ∧
     (capacity hm = 16 ∨ (N.of_nat (capacity hm) < 200)%N)) ∧
  ∀ fuel, next_pow2_loop fuel HM_MIN_CAP (2 ^ 63 + 1) = Stuck OutOfFuel.
Proof.
  split.
  - apply (hm_init_capacity nat 100). lia.
  - apply (hm_init_capacity nat (2 ^ 63 + 1)). lia.
Defined.
