(* ===== verification/Ring.v ===== *)
(** * The ring of active agents (shared/src/batch_queue_op.c)

    A singly linked circular list of agent slots.  The fields [next] and
    [in_ring] of [w_rr_agent_slot_t] are kept in the heap [links]; the other
    fields of a slot belong to [BatchQueue].  A pointer that is not in the heap
    is NULL or has been freed, and following it is a fault. *)

From stdpp Require Import base numbers list gmap.
From Stdlib Require Import Lia.
From S2P Require Import Prelude LinkedQueue.

Record rnode := mk_rnode {
  r_next : option loc;
  r_in_ring : bool;
}.

Record ring := mk_ring {
  links : gmap loc rnode;
  ring_head : option loc;
  ring_tail : option loc;
  cursor : option loc;
  prev_cursor : option loc;
  ring_slots : nat;
}.

Definition ring_init : ring := mk_ring ∅ None None None None 0.

(** Reads and writes through a slot pointer. *)
Definition slot_next (h : gmap loc rnode) (p : option loc) : outcome (option loc) :=
  a ← c_deref p; n ← c_deref (h !! a); Ret (r_next n).

Definition set_slot_next (h : gmap loc rnode) (p v : option loc) : outcome (gmap loc rnode) :=
  a ← c_deref p; n ← c_deref (h !! a); Ret (<[a := mk_rnode v (r_in_ring n)]> h).

Definition set_in_ring (h : gmap loc rnode) (p : option loc) (b : bool)
    : outcome (gmap loc rnode) :=
  a ← c_deref p; n ← c_deref (h !! a); Ret (<[a := mk_rnode (r_next n) b]> h).

Definition ring_append (r : ring) (s : option loc) : outcome ring :=
  r ← match ring_head r with
      | None =>
          h ← set_slot_next (links r) s s;
          Ret (mk_ring h s s s s (ring_slots r))
      | Some _ =>
          h ← set_slot_next (links r) s (ring_head r);
          h ← set_slot_next h (ring_tail r) s;
          Ret (mk_ring h (ring_head r) s (cursor r)
                 (if decide (cursor r = ring_head r) then s else prev_cursor r) (ring_slots r))
      end;
  h ← set_in_ring (links r) s true;
  Ret (mk_ring h (ring_head r) (ring_tail r) (cursor r) (prev_cursor r) (ring_slots r + 1)).

Definition ring_remove_node (r : ring) (node prev : option loc) : outcome ring :=
  if decide (ring_head r = None ∨ node = None ∨ prev = None) then Ret r
  else if decide (node = prev) then
    h ← set_in_ring (links r) node false;
    h ← set_slot_next h node None;
    Ret (mk_ring h None None None None 0)
  else
    next ← slot_next (links r) node;
    h ← set_slot_next (links r) prev next;
    let head' := if decide (node = ring_head r) then next else ring_head r in
    let tail' := if decide (node = ring_tail r) then prev else ring_tail r in
    let cursor' := if decide (cursor r = node) then next else cursor r in
    let prev' := if decide (prev_cursor r = node) then prev else prev_cursor r in
    h ← set_in_ring h node false;
    h ← set_slot_next h node None;
    Ret (mk_ring h head' tail' cursor' prev' (ring_slots r - 1)).

(** The loop of [ring_find_prev], at the slot [p]. *)
Fixpoint find_prev_loop (fuel : nat) (r : ring) (slot p : option loc) : outcome (option loc) :=
  match fuel with
  | 0 => Stuck OutOfFuel
  | S fuel =>
      nx ← slot_next (links r) p;
      if decide (nx = slot) then Ret p
      else if decide (nx = None ∨ nx = ring_head r) then Ret None
      else find_prev_loop fuel r slot nx
  end.

Definition ring_find_prev (r : ring) (slot : option loc) : outcome (option loc) :=
  if decide (ring_head r = None ∨ slot = None) then Ret None
  else find_prev_loop (ring_slots r) r slot (ring_head r).

(** The part of [batch_queue_drain_next_ex] that takes the slot at the cursor
    out of the ring. *)
Definition ring_take (r : ring) : outcome (option loc * ring) :=
  let slot := cursor r in
  let prev := match prev_cursor r with Some _ => prev_cursor r | None => ring_tail r end in
  next ← slot_next (links r) slot;
  r ← ring_remove_node
        (mk_ring (links r) (ring_head r) (ring_tail r) next prev (ring_slots r)) slot prev;
  Ret (slot, r).

(** ** The list a ring stands for *)

Definition next_or (l : list loc) (nxt : option loc) : option loc :=
  match l with [] => nxt | p :: _ => Some p end.

(** [l] is linked, and its last slot leads to [nxt]. *)
Fixpoint seg (h : gmap loc rnode) (l : list loc) (nxt : option loc) : Prop :=
  match l with
  | [] => True
  | p :: l => h !! p = Some (mk_rnode (next_or l nxt) true) ∧ seg h l nxt
  end.

(** The ring holds the slots [rs], in the order in which they will be drained. *)
Record ring_ok (r : ring) (rs : list loc) : Prop := {
  rg_nodup : NoDup rs;
  rg_seg : seg (links r) rs (head rs);
  rg_out : ∀ p n, links r !! p = Some n → p ∉ rs → n = mk_rnode None false;
  rg_head : ring_head r = head rs;
  rg_tail : ring_tail r = list.last rs;
  rg_cursor : cursor r = head rs;
  rg_prev : prev_cursor r = list.last rs;
  rg_count : ring_slots r = length rs;
}.

Lemma next_or_app l1 l2 nxt : next_or (l1 ++ l2) nxt = next_or l1 (next_or l2 nxt).
Proof. by destruct l1. Qed.

Lemma seg_app h l1 l2 nxt :
  seg h (l1 ++ l2) nxt ↔ seg h l1 (next_or l2 nxt) ∧ seg h l2 nxt.
Proof.
  induction l1 as [|p l1 IH]; simpl; [tauto|]. rewrite IH, next_or_app. tauto.
Qed.

Lemma seg_insert_ne h l nxt p n : p ∉ l → seg (<[p := n]> h) l nxt ↔ seg h l nxt.
Proof.
  induction l as [|a l IH]; simpl; [done|]. rewrite not_elem_of_cons. intros [Hne Hp].
  rewrite lookup_insert_ne by done. by rewrite IH.
Qed.

Lemma seg_lookup h l nxt p : seg h l nxt → p ∈ l → ∃ nx, h !! p = Some (mk_rnode nx true).
Proof.
  induction l as [|a l IH]; simpl; [by rewrite elem_of_nil|].
  intros [Ha Hl] [->|Hp]%elem_of_cons; [eauto|by apply IH].
Qed.

Lemma ring_init_ok : ring_ok ring_init [].
Proof. split; simpl; try done. constructor. Qed.

Lemma ring_in_ring r rs p n :
  ring_ok r rs → links r !! p = Some n → r_in_ring n = bool_decide (p ∈ rs).
Proof.
  intros Hok Hp. destruct (decide (p ∈ rs)) as [Hin|Hout].
  - rewrite bool_decide_true by done.
    destruct (seg_lookup _ _ _ _ (rg_seg _ _ Hok) Hin) as [nx Hx]. by simplify_eq.
  - rewrite bool_decide_false by done. by rewrite (rg_out _ _ Hok _ _ Hp Hout).
Qed.

Lemma set_slot_next_eq h a n v :
  h !! a = Some n → set_slot_next h (Some a) v = Ret (<[a := mk_rnode v (r_in_ring n)]> h).
Proof. intros Ha. unfold set_slot_next. simpl. by rewrite Ha. Qed.

Lemma set_in_ring_eq h a n b :
  h !! a = Some n → set_in_ring h (Some a) b = Ret (<[a := mk_rnode (r_next n) b]> h).
Proof. intros Ha. unfold set_in_ring. simpl. by rewrite Ha. Qed.

Lemma slot_next_eq h a n : h !! a = Some n → slot_next h (Some a) = Ret (r_next n).
Proof. intros Ha. unfold slot_next. simpl. by rewrite Ha. Qed.

Lemma dom_insert_same {A} (h : gmap loc A) a n : is_Some (h !! a) → dom (<[a := n]> h) =@{gset loc} dom h.
Proof. intros Ha. apply elem_of_dom in Ha. rewrite dom_insert_L. set_solver. Qed.

(** The new slot goes to the end of the round. *)
Lemma ring_append_spec r rs s :
  ring_ok r rs → s ∉ rs → is_Some (links r !! s) →
  ∃ r', ring_append r (Some s) = Ret r' ∧ ring_ok r' (rs ++ [s]) ∧ dom (links r') =@{gset loc} dom (links r).
Proof.
  intros Hok Hs [n Hn]. pose proof (rg_out _ _ Hok _ _ Hn Hs) as ->. unfold ring_append.
  destruct Hok as [Hnd Hseg Hout Hh Ht Hc Hp Hl]. rewrite Hh.
  destruct rs as [|h0 t0] using rev_ind.
  - simpl. rewrite (set_slot_next_eq _ _ _ _ Hn). simpl.
    erewrite set_in_ring_eq by apply lookup_insert_eq. simpl.
    eexists. split; [done|]. rewrite insert_insert_eq. split; [split; simpl; try done|].
    + apply NoDup_singleton.
    + by rewrite lookup_insert_eq.
    + intros p n. destruct (decide (p = s)) as [->|Hne]; [set_solver|].
      rewrite lookup_insert_ne by done. intros Hp' _. apply (Hout p); [done|by apply not_elem_of_nil].
    + by rewrite Hl.
    + apply dom_insert_same. eauto.
  - clear IHt0. rename t0 into l, h0 into z. rewrite last_snoc in Ht, Hp.
    assert (Hhd : ∃ h, head (l ++ [z]) = Some h) by (destruct l; simpl; eauto).
    destruct Hhd as [h Hhd]. rewrite Hhd in *.
    apply seg_app in Hseg as [Hseg1 [Hz _]]. simpl in Hz, Hseg1.
    rewrite not_elem_of_app, list_elem_of_singleton in Hs. destruct Hs as [Hsl Hsz].
    rewrite (set_slot_next_eq _ _ _ _ Hn). simpl. rewrite Ht.
    erewrite set_slot_next_eq by (rewrite lookup_insert_ne by done; exact Hz). simpl.
    erewrite set_in_ring_eq by (rewrite lookup_insert_ne by done; apply lookup_insert_eq). simpl.
    eexists. split; [done|]. split; [split; simpl|].
    + apply NoDup_app. split_and!; [done| |apply NoDup_singleton].
      intros x Hx ->%list_elem_of_singleton. apply elem_of_app in Hx as [?|?%list_elem_of_singleton]; done.
    + assert (head ((l ++ [z]) ++ [s]) = Some h) as -> by (by destruct l).
      apply seg_app. split; [apply seg_app; split|]; simpl.
      * apply NoDup_app in Hnd as (_ & Hd & _).
        rewrite !seg_insert_ne; [done|done| |done]. intros Hzl. apply (Hd z Hzl). by left.
      * split; [|done]. rewrite lookup_insert_ne by done. by rewrite lookup_insert_eq.
      * split; [|done]. by rewrite lookup_insert_eq.
    + intros p n. rewrite !not_elem_of_app, !list_elem_of_singleton. intros Hp' [[Hpl Hpz] Hps].
      rewrite !lookup_insert_ne in Hp' by done. apply (Hout p); [done|].
      by rewrite not_elem_of_app, list_elem_of_singleton.
    + by destruct l.
    + by rewrite last_snoc.
    + rewrite Hc. by destruct l.
    + rewrite decide_True by done. by rewrite last_snoc.
    + rewrite !length_app in *. simpl in *. lia.
    + simpl. rewrite !dom_insert_same; [done|eauto|rewrite lookup_insert_ne by done; eauto|].
      rewrite lookup_insert_ne by done. rewrite lookup_insert_eq. eauto.
Qed.

(** [ring_find_prev] walks from [p] over [m] to the slot before [slot]. *)
Lemma find_prev_loop_spec fuel r slot hd p m :
  seg (links r) (p :: m) (Some slot) → ring_head r = Some hd →
  slot ∉ m → hd ∉ m → length m < fuel →
  find_prev_loop fuel r (Some slot) (Some p) = Ret (list.last (p :: m)).
Proof.
  revert p m. induction fuel as [|fuel IH]; intros p m Hseg Hh Hs Hhd Hf; [lia|].
  cbn [find_prev_loop]. destruct Hseg as [Hp Hm]. rewrite (slot_next_eq _ _ _ Hp). simpl.
  destruct m as [|a m]; simpl.
  - by rewrite decide_True.
  - rewrite not_elem_of_cons in Hs, Hhd. destruct Hs as [Hs1 Hs2], Hhd as [Hd1 Hd2].
    rewrite decide_False by congruence. rewrite decide_False by (rewrite Hh; naive_solver congruence).
    simpl in Hf. rewrite (IH a m); [done..|lia].
Qed.

(** Taking out the slot after [z], where [z] ends the ring and the slot starts it. *)
Lemma ring_remove_head r node l z c pc :
  ring_ok r (node :: l ++ [z]) → c = Some node ∨ c = next_or l (Some z) → pc = Some z →
  ∃ r', ring_remove_node (mk_ring (links r) (ring_head r) (ring_tail r) c pc (ring_slots r))
          (Some node) (Some z) = Ret r' ∧
    ring_ok r' (l ++ [z]) ∧ dom (links r') =@{gset loc} dom (links r).
Proof.
  intros [Hnd [Hn Hseg] Hout Hh Ht _ _ Hl] Hc Hpc. simpl in Hh, Hn.
  rewrite next_or_app in Hn. simpl in Hn.
  apply NoDup_cons in Hnd as [Hnl Hnd]. rewrite not_elem_of_app, list_elem_of_singleton in Hnl.
  destruct Hnl as [Hnl Hnz]. apply seg_app in Hseg as [Hseg [Hz _]]. simpl in Hz, Hseg.
  assert (Hzl : z ∉ l).
  { apply NoDup_app in Hnd as (_ & Hd & _). intros Hzl. apply (Hd z Hzl). by left. }
  assert (Htl : list.last (node :: l ++ [z]) = Some z) by (by rewrite app_comm_cons, last_snoc).
  assert (Hc' : (if decide (c = Some node) then next_or l (Some z) else c) = next_or l (Some z)).
  { destruct Hc as [->| ->]; [by rewrite decide_True|]. by case_decide. }
  unfold ring_remove_node. cbn [ring_head ring_tail cursor prev_cursor links ring_slots].
  rewrite Hh, decide_False by naive_solver. rewrite decide_False by congruence.
  rewrite (slot_next_eq _ _ _ Hn), outcome_bind_ret.
  rewrite (set_slot_next_eq _ _ _ _ Hz), outcome_bind_ret. cbv zeta.
  erewrite set_in_ring_eq by (rewrite lookup_insert_ne by done; exact Hn).
  rewrite outcome_bind_ret. cbn [r_next r_in_ring].
  erewrite set_slot_next_eq by apply lookup_insert_eq. rewrite outcome_bind_ret.
  cbn [r_next r_in_ring]. rewrite insert_insert_eq, Hc'. rewrite (decide_True (P := Some node = Some node)) by done.
  eexists. split; [done|]. split; [split; cbn [links ring_head ring_tail cursor prev_cursor ring_slots]|].
  - done.
  - assert (head (l ++ [z]) = next_or l (Some z)) as -> by (by destruct l).
    apply seg_app. simpl. rewrite seg_insert_ne, seg_insert_ne by done. split; [done|].
    split; [|done]. rewrite lookup_insert_ne by done. by rewrite lookup_insert_eq.
  - intros p n. destruct (decide (p = node)) as [->|Hpn]; [rewrite lookup_insert_eq; congruence|].
    rewrite not_elem_of_app, list_elem_of_singleton. rewrite lookup_insert_ne by done. intros Hp [Hpl Hpz].
    rewrite lookup_insert_ne in Hp by done. apply (Hout p); [done|].
    by rewrite not_elem_of_cons, not_elem_of_app, list_elem_of_singleton.
  - by destruct l.
  - rewrite Ht, Htl, last_snoc. by rewrite decide_False by congruence.
  - by destruct l.
  - rewrite Hpc, last_snoc. by rewrite decide_False by congruence.
  - rewrite Hl. simpl. lia.
  - cbn [links]. rewrite !dom_insert_same; [done|eauto|]. rewrite lookup_insert_ne by done. eauto.
Qed.

(** Taking out a slot that does not start the ring. *)
Lemma ring_remove_mid r l1 prev node l2 :
  ring_ok r (l1 ++ prev :: node :: l2) →
  ∃ r', ring_remove_node r (Some node) (Some prev) = Ret r' ∧
    ring_ok r' (l1 ++ prev :: l2) ∧ dom (links r') =@{gset loc} dom (links r).
Proof.
  intros [Hnd Hseg Hout Hh Ht Hc Hp Hl]. apply seg_app in Hseg as (Hseg1 & Hprev & Hnode & Hseg2).
  set (hd := head (l1 ++ prev :: node :: l2)) in *. simpl in Hprev, Hnode, Hseg1.
  assert (Hhd : hd = head (l1 ++ prev :: l2)) by (by destruct l1).
  apply NoDup_app in Hnd as (Hnd1 & Hd & Hnd2). apply NoDup_cons in Hnd2 as [Hpn Hnd2].
  apply NoDup_cons in Hnd2 as [Hn2 Hnd2]. rewrite not_elem_of_cons in Hpn. destruct Hpn as [Hpn Hp2].
  assert (Hp1 : prev ∉ l1) by (intros Hx; apply (Hd _ Hx); by left).
  assert (Hn1 : node ∉ l1) by (intros Hx; apply (Hd _ Hx); by right; left).
  assert (Hhn : hd ≠ Some node).
  { unfold hd. destruct l1 as [|a l1]; simpl; [congruence|]. intros [= ->]. apply Hn1. by left. }
  assert (Htail : (if decide (list.last (l1 ++ prev :: node :: l2) = Some node) then Some prev
                   else list.last (l1 ++ prev :: node :: l2)) = list.last (l1 ++ prev :: l2)).
  { destruct l2 as [|z l2 _] using rev_ind.
    - replace (l1 ++ [prev; node]) with ((l1 ++ [prev]) ++ [node]) by (by rewrite <-app_assoc).
      rewrite !last_snoc. by rewrite decide_True.
    - rewrite !app_comm_cons, !app_assoc, !last_snoc.
      rewrite decide_False; [done|]. intros [= ->]. apply Hn2. set_solver. }
  unfold ring_remove_node. rewrite Hh, Ht, Hc, Hp, decide_False by (unfold hd; destruct l1; naive_solver).
  rewrite decide_False by congruence.
  rewrite (slot_next_eq _ _ _ Hnode), outcome_bind_ret.
  rewrite (set_slot_next_eq _ _ _ _ Hprev), outcome_bind_ret. cbv zeta.
  erewrite set_in_ring_eq by (rewrite lookup_insert_ne by done; exact Hnode).
  rewrite outcome_bind_ret. cbn [r_next r_in_ring].
  erewrite set_slot_next_eq by apply lookup_insert_eq. rewrite outcome_bind_ret.
  cbn [r_next r_in_ring]. rewrite insert_insert_eq.
  rewrite (decide_False (P := Some node = hd)), (decide_False (P := hd = Some node)) by congruence.
  assert (∀ a b c : option loc, (if decide (a = b) then c else b) = (if decide (b = a) then c else b))
    as Hsym by (intros a b c; repeat case_decide; congruence).
  rewrite Hsym, Htail.
  eexists. split; [done|]. split; [split; cbn [links ring_head ring_tail cursor prev_cursor ring_slots]|].
  - apply NoDup_app. split_and!; [done| |by constructor]. intros x Hx [->|Hx2]%elem_of_cons; [done|].
    apply (Hd x Hx). set_solver.
  - rewrite <-Hhd. apply seg_app. simpl. rewrite !seg_insert_ne by done.
    split_and!; [done| |by apply (Hseg2)]. rewrite lookup_insert_ne by done. by rewrite lookup_insert_eq.
  - intros p n. destruct (decide (p = node)) as [->|Hpn']; [rewrite lookup_insert_eq; congruence|].
    rewrite not_elem_of_app, not_elem_of_cons. rewrite lookup_insert_ne by done. intros Hpp (Hpl & Hpp' & Hpl2).
    rewrite lookup_insert_ne in Hpp by done. apply (Hout p); [done|]. set_solver.
  - done.
  - done.
  - done.
  - done.
  - rewrite Hl, !length_app. simpl. lia.
  - cbn [links]. rewrite !dom_insert_same; [done|eauto|]. rewrite lookup_insert_ne by done. eauto.
Qed.

(** The last slot of a ring of one. *)
Lemma ring_remove_single r s c pc :
  ring_ok r [s] →
  ∃ r', ring_remove_node (mk_ring (links r) (ring_head r) (ring_tail r) c pc (ring_slots r))
          (Some s) (Some s) = Ret r' ∧
    ring_ok r' [] ∧ dom (links r') =@{gset loc} dom (links r).
Proof.
  intros [_ [Hs _] Hout Hh _ _ _ _]. simpl in Hh, Hs. unfold ring_remove_node.
  cbn [ring_head ring_tail cursor prev_cursor links ring_slots].
  rewrite Hh, decide_False by naive_solver. rewrite decide_True by done.
  rewrite (set_in_ring_eq _ _ _ _ Hs), outcome_bind_ret.
  erewrite set_slot_next_eq by apply lookup_insert_eq. rewrite outcome_bind_ret, insert_insert_eq.
  eexists. split; [done|]. split; [split; simpl; try done; [constructor|]|].
  - intros p n. destruct (decide (p = s)) as [->|Hne]; [rewrite lookup_insert_eq; congruence|].
    rewrite lookup_insert_ne by done. intros Hp _. apply (Hout p); [done|].
    by rewrite list_elem_of_singleton.
  - cbn [links]. apply dom_insert_same. eauto.
Qed.

(** The consumer takes the first slot of the round. *)
Lemma ring_take_spec r s rs :
  ring_ok r (s :: rs) →
  ∃ r', ring_take r = Ret (Some s, r') ∧ ring_ok r' rs ∧
    dom (links r') =@{gset loc} dom (links r).
Proof.
  intros Hok. pose proof (rg_seg _ _ Hok) as [Hs _]. pose proof (rg_cursor _ _ Hok) as Hc.
  pose proof (rg_prev _ _ Hok) as Hp. simpl in Hc, Hs. unfold ring_take.
  rewrite Hc, (slot_next_eq _ _ _ Hs), outcome_bind_ret. cbn [r_next].
  destruct rs as [|z l _] using rev_ind.
  - simpl in Hp |- *. rewrite Hp.
    destruct (ring_remove_single r s (Some s) (Some s) Hok) as (r' & -> & ?). by exists r'.
  - rewrite app_comm_cons, last_snoc in Hp. rewrite Hp.
    destruct (ring_remove_head r s l z (next_or (l ++ [z]) (Some s)) (Some z)) as (r' & Hr & ?); [done| |done|].
    { right. by rewrite next_or_app. }
    exists r'. simpl in Hr |- *. by rewrite Hr.
Qed.

(** A slot is found and taken out wherever it is in the round. *)
Lemma ring_drop_spec r rs s :
  ring_ok r rs → s ∈ rs →
  ∃ prev r', ring_find_prev r (Some s) = Ret (Some prev) ∧
    ring_remove_node r (Some s) (Some prev) = Ret r' ∧
    ring_ok r' (filter (λ p, p ≠ s) rs) ∧ dom (links r') =@{gset loc} dom (links r).
Proof.
  intros Hok Hin. pose proof (rg_nodup _ _ Hok) as Hnd.
  apply list_elem_of_split in Hin as (l1 & l2 & ->).
  assert (Hf : filter (λ p, p ≠ s) (l1 ++ s :: l2) = l1 ++ l2).
  { assert (∀ l : list loc, s ∉ l → filter (λ p, p ≠ s) l = l) as Hkeep.
    { intros l. induction l as [|a l IH]; [done|]. rewrite not_elem_of_cons. intros [? ?].
      rewrite filter_cons_True by done. by rewrite IH. }
    apply NoDup_app in Hnd as (_ & Hd & [Hs _]%NoDup_cons).
    rewrite filter_app, filter_cons_False by naive_solver.
    rewrite !Hkeep; [done..|]. intros Hs1. apply (Hd _ Hs1). by left. }
  rewrite Hf. clear Hf. pose proof (rg_seg _ _ Hok) as Hseg.
  unfold ring_find_prev. rewrite (rg_head _ _ Hok), (rg_count _ _ Hok).
  assert (Hr : r = mk_ring (links r) (ring_head r) (ring_tail r) (cursor r) (prev_cursor r) (ring_slots r))
    by (by destruct r).
  destruct l1 as [|prev l1 _] using rev_ind.
  - cbn [head app length seg] in *. rewrite decide_False by naive_solver. apply NoDup_cons in Hnd as [Hs Hnd].
    rewrite (find_prev_loop_spec _ r s s s l2); [|done|apply (rg_head _ _ Hok)|done|done|lia].
    destruct l2 as [|z l _] using rev_ind.
    + destruct (ring_remove_single r s (cursor r) (prev_cursor r) Hok) as (r' & Hr' & ? & ?).
      rewrite <-Hr in Hr'. exists s, r'. by split_and!.
    + rewrite app_comm_cons, last_snoc.
      destruct (ring_remove_head r s l z (cursor r) (prev_cursor r) Hok) as (r' & Hr' & ? & ?).
      * left. apply (rg_cursor _ _ Hok).
      * by rewrite (rg_prev _ _ Hok), app_comm_cons, last_snoc.
      * rewrite <-Hr in Hr'. exists z, r'. by split_and!.
  - rewrite <-app_assoc in *. cbn [app] in *.
    destruct (ring_remove_mid r l1 prev s l2 Hok) as (r' & Hr' & Hok' & Hdom).
    exists prev, r'. split_and!; [|done|by rewrite <-app_assoc|done].
    replace (l1 ++ prev :: s :: l2) with ((l1 ++ [prev]) ++ s :: l2) in * by (by rewrite <-app_assoc).
    apply seg_app in Hseg as [Hseg _]. simpl in Hseg. apply NoDup_app in Hnd as (Hnd1 & Hd & _).
    pose proof (rg_head _ _ Hok) as Hh.
    assert (Hs : s ∉ l1 ++ [prev]) by (intros Hs; apply (Hd _ Hs); by left).
    destruct (l1 ++ [prev]) as [|p m] eqn:Hm; [by destruct l1|]. cbn [head app length] in Hh |- *.
    rewrite decide_False by naive_solver. apply NoDup_cons in Hnd1 as [Hpm _].
    rewrite not_elem_of_cons in Hs. destruct Hs as [_ Hs].
    rewrite (find_prev_loop_spec _ r s p p m); [|done..|rewrite length_app; lia].
    by rewrite <-Hm, last_snoc.
Qed.

(** A slot outside the round may come and go. *)
Lemma seg_frame h h' l nxt : (∀ p, p ∈ l → h' !! p = h !! p) → seg h l nxt → seg h' l nxt.
Proof.
  induction l as [|a l IH]; simpl; [done|]. intros Hh [Ha Hl]. split.
  - by rewrite Hh by (by left).
  - apply IH; [|done]. intros p Hp. apply Hh. by right.
Qed.

Lemma ring_ok_frame r rs h :
  ring_ok r rs → (∀ p, p ∈ rs → h !! p = links r !! p) →
  (∀ p n, h !! p = Some n → p ∉ rs → n = mk_rnode None false) →
  ring_ok (mk_ring h (ring_head r) (ring_tail r) (cursor r) (prev_cursor r) (ring_slots r)) rs.
Proof.
  intros [Hnd Hseg Hout ? ? ? ? ?] Hin Ho. split; simpl; try done. by eapply seg_frame.
Qed.
