(* ===== verification/BatchQueue.v ===== *)
(** * Batch queue (shared/src/batch_queue_op.c)

    The per-agent round-robin scheduler.  Each agent has a slot with its own
    queue and mutex; the slots with work are in the [Ring].  The agent index is
    any table that satisfies [StrTableLaws] ([HashMap] does).

    Every operation takes and releases [ring_mu] and the mutex of a queue several
    times.  A definition below is one critical section, that is what happens
    between two points where the thread may be preempted with its locks
    released; a thread between two sections is a value of [thread], and [bstep]
    interleaves the threads. *)

From stdpp Require Import base numbers list gmap strings.
From Stdlib Require Import Lia.
From S2P Require Import Prelude StrMap LinkedQueue Ring.

Section batch_queue.
Context {A T : Type} `{StrTable loc T}.
Abbreviation ptr := (option A).

(** The fields [key] and [q] of [w_rr_agent_slot_t], and whether [q->mutex] is
    held; [next] and [in_ring] are in the [links] of the ring. *)
Record slot := mk_slot {
  s_key : string;
  s_q : linked_queue A;
  s_locked : bool;
}.

Record sched := mk_sched {
  s_ring : ring;
  slots : gmap loc slot;
  agent_index : T;
  max_items_global : nat;
  max_items_per_agent : nat;
  items_global : Z;
  any_available : cond;
  has_dispose : bool;          (* whether [dispose] is set *)
}.

Definition set_ring (sc : sched) (r : ring) : sched :=
  mk_sched r (slots sc) (agent_index sc) (max_items_global sc) (max_items_per_agent sc)
    (items_global sc) (any_available sc) (has_dispose sc).

Definition set_slots (sc : sched) (h : gmap loc slot) : sched :=
  mk_sched (s_ring sc) h (agent_index sc) (max_items_global sc) (max_items_per_agent sc)
    (items_global sc) (any_available sc) (has_dispose sc).

Definition set_index (sc : sched) (t : T) : sched :=
  mk_sched (s_ring sc) (slots sc) t (max_items_global sc) (max_items_per_agent sc)
    (items_global sc) (any_available sc) (has_dispose sc).

Definition add_items (sc : sched) (n : Z) : sched :=
  mk_sched (s_ring sc) (slots sc) (agent_index sc) (max_items_global sc) (max_items_per_agent sc)
    (items_global sc + n) (any_available sc) (has_dispose sc).

Definition on_available (sc : sched) (f : cond → cond) : sched :=
  mk_sched (s_ring sc) (slots sc) (agent_index sc) (max_items_global sc) (max_items_per_agent sc)
    (items_global sc) (f (any_available sc)) (has_dispose sc).

Definition batch_queue_init (index : T) (max_items_global : nat) : sched :=
  mk_sched ring_init ∅ index max_items_global 0 0 (mk_cond 0 0) false.

Definition batch_queue_set_agent_max (sc : sched) (n : nat) : sched :=
  mk_sched (s_ring sc) (slots sc) (agent_index sc) (max_items_global sc) n
    (items_global sc) (any_available sc) (has_dispose sc).

Definition batch_queue_set_dispose (sc : sched) (dispose : bool) : sched :=
  mk_sched (s_ring sc) (slots sc) (agent_index sc) (max_items_global sc) (max_items_per_agent sc)
    (items_global sc) (any_available sc) dispose.

Definition slot_at (sc : sched) (p : option loc) : outcome slot :=
  a ← c_deref p; c_deref (slots sc !! a).

Definition put_slot (sc : sched) (p : option loc) (s : slot) : outcome sched :=
  a ← c_deref p; _ ← c_deref (slots sc !! a); Ret (set_slots sc (<[a := s]> (slots sc))).

Definition lock_queue (sc : sched) (p : option loc) (b : bool) : outcome sched :=
  s ← slot_at sc p; put_slot sc p (mk_slot (s_key s) (s_q s) b).

(** [make_slot], at the address [p] the allocation returned. *)
Definition make_slot (sc : sched) (p : loc) (agent_key : string) : sched :=
  let r := s_ring sc in
  set_ring (set_slots sc (<[p := mk_slot agent_key linked_queue_init false]> (slots sc)))
    (mk_ring (<[p := mk_rnode None false]> (links r)) (ring_head r) (ring_tail r) (cursor r)
       (prev_cursor r) (ring_slots r)).

(** The slot at [p] leaves the shared heap: its last reference is handed over. *)
Definition take_slot (sc : sched) (p : option loc) : outcome (slot * sched) :=
  a ← c_deref p;
  s ← c_deref (slots sc !! a);
  let r := s_ring sc in
  Ret (s, set_ring (set_slots sc (delete a (slots sc)))
            (mk_ring (delete a (links r)) (ring_head r) (ring_tail r) (cursor r)
               (prev_cursor r) (ring_slots r))).

(** The data along a chain of nodes, which is freed on the way. *)
Fixpoint chain_walk (fuel : nat) (h : gmap loc (lnode A)) (p : option loc) : outcome (list ptr) :=
  match p with
  | None => Ret []
  | Some _ =>
      match fuel with
      | 0 => Stuck OutOfFuel
      | S fuel =>
          n ← node_at h p;
          h' ← free_node h p;
          rest ← chain_walk fuel h' (nd_next n);
          Ret (nd_data n :: rest)
      end
  end.

(** [steal_chain]: the chain, its length, and the empty queue. *)
Definition steal_chain (q : linked_queue A)
    : gmap loc (lnode A) * option loc * nat * linked_queue A :=
  (nodes q, first q, elements q, linked_queue_init).

(** [free_slot] on a slot nobody else can reach: the items disposed of, and the
    adjusted scheduler. *)
Definition free_slot (sc : sched) (s : slot) (adjust_global : bool)
    : outcome (list ptr * sched) :=
  let '(h, chain, n, _) := steal_chain (s_q s) in
  ds ← chain_walk (size h) h chain;
  Ret (ds, if adjust_global && negb (bool_decide (n = 0)) then add_items sc (- Z.of_nat n) else sc).

(** *** batch_queue_enqueue_ex *)

(** Step 0: whether the global limit lets the item in. *)
Definition enqueue_reserve (sc : sched) : bool * sched :=
  let prev := items_global sc in
  (negb (bool_decide (max_items_global sc ≠ 0 ∧
                      (Z.of_nat (max_items_global sc) < prev + 1)%Z)),
   add_items sc 1).

Inductive lookup_res :=
| QueueBusy                                        (* blocked on [slot->q->mutex] *)
| NoMemory (sc : sched)                            (* [hm_put] failed *)
| QueueLocked (slot : option loc) (max : nat) (sc : sched).

(** Steps 1 to 3; a new slot goes to the address [p]. *)
Definition enqueue_lookup (sc : sched) (agent_key : string) (p : loc) : outcome lookup_res :=
  found ← st_get (agent_index sc) agent_key;
  match found with
  | Some slot =>
      s ← slot_at sc slot;
      if s_locked s then Ret QueueBusy
      else sc ← lock_queue sc slot true; Ret (QueueLocked slot (max_items_per_agent sc) sc)
  | None =>
      let sc := make_slot sc p agent_key in
      '(z, index) ← st_put (agent_index sc) agent_key (Some p);
      let sc := set_index sc index in
      if decide (z ≠ 0%Z) then
        '(s, sc) ← take_slot sc (Some p);
        '(_, sc) ← free_slot sc s false; Ret (NoMemory sc)
      else sc ← lock_queue sc (Some p) true; Ret (QueueLocked (Some p) (max_items_per_agent sc) sc)
  end.

(** The new node, at address [n], at the end of the queue. *)
Definition slot_push (q : linked_queue A) (n : loc) (data : ptr) : outcome (linked_queue A) :=
  match last q with
  | Some _ =>
      let h := <[n := mk_lnode data (last q) None]> (nodes q) in
      h ← set_next h (last q) (Some n);
      Ret (mk_linked_queue h (first q) (Some n) (elements q + 1))
  | None =>
      let h := <[n := mk_lnode data None None]> (nodes q) in
      Ret (mk_linked_queue h (Some n) (Some n) (elements q + 1))
  end.

(** Step 4: [None] for a rejected item, [Some need_ring_append] otherwise. *)
Definition enqueue_push (sc : sched) (slot : option loc) (max : nat) (n : loc) (data : ptr)
    : outcome (option bool * sched) :=
  s ← slot_at sc slot;
  let need_ring_append := bool_decide (elements (s_q s) = 0) in
  if decide (max ≠ 0 ∧ max ≤ elements (s_q s)) then
    sc ← put_slot sc slot (mk_slot (s_key s) (s_q s) false); Ret (None, sc)
  else
    q ← slot_push (s_q s) n data;
    sc ← put_slot sc slot (mk_slot (s_key s) q false); Ret (Some need_ring_append, sc).

(** Step 5. *)
Definition enqueue_ring (sc : sched) (agent_key : string) (slot : option loc) : outcome sched :=
  found ← st_get (agent_index sc) agent_key;
  if decide (found = Some slot) then
    a ← c_deref slot;
    l ← c_deref (links (s_ring sc) !! a);
    if r_in_ring l then Ret sc
    else
      r ← ring_append (s_ring sc) slot;
      Ret (on_available (set_ring sc r) w_cond_signal)
  else Ret sc.

(** The roll-back of a refused item. *)
Definition enqueue_rollback (sc : sched) : sched := add_items sc (-1).

(** *** batch_queue_drain_next_ex *)

Inductive drain_res :=
| DrainWaits (sc : sched)                   (* asleep on [any_available] *)
| DrainBusy                                 (* blocked on [slot->q->mutex] *)
| DrainTaken (slot : option loc) (sc : sched).

(** The critical section of [ring_mu], by a thread that is not asleep. *)
Definition drain_select (sc : sched) : outcome drain_res :=
  match cursor (s_ring sc) with
  | None => Ret (DrainWaits (on_available sc cond_sleep))
  | Some _ =>
      '(slot, r) ← ring_take (s_ring sc);
      s ← slot_at sc slot;
      if s_locked s then Ret DrainBusy
      else sc ← lock_queue (set_ring sc r) slot true; Ret (DrainTaken slot sc)
  end.

(** The critical section of the queue, which it leaves empty and unlocked. *)
Definition drain_detach (sc : sched) (slot : option loc)
    : outcome (gmap loc (lnode A) * option loc * sched) :=
  s ← slot_at sc slot;
  sc ← put_slot sc slot (mk_slot (s_key s) linked_queue_init false);
  Ret (nodes (s_q s), first (s_q s), sc).

(** The items consumed, in order. *)
Definition drain_process (h : gmap loc (lnode A)) (head : option loc) : outcome (list ptr) :=
  chain_walk (size h) h head.

Definition drain_finish (sc : sched) (drained : nat) : sched :=
  if decide (drained = 0) then sc else add_items sc (- Z.of_nat drained).

(** *** The other operations *)

Definition batch_queue_empty (sc : sched) : bool := bool_decide (cursor (s_ring sc) = None).

Definition batch_queue_size (sc : sched) : Z := items_global sc.

Definition batch_queue_ring_size (sc : sched) : nat := ring_slots (s_ring sc).

Definition batch_queue_agent_size (sc : sched) (agent_key : string) : outcome nat :=
  found ← st_get (agent_index sc) agent_key;
  match found with
  | None => Ret 0
  | Some slot => s ← slot_at sc slot; Ret (elements (s_q s))
  end.

Inductive drop_res :=
| DropAbsent                                (* no such agent *)
| DropNoPrev                                (* in the ring, but not found there *)
| DropBusy                                  (* blocked on [slot->q->mutex] *)
| DropTaken (s : slot) (sc : sched).

(** [batch_queue_drop_agent] up to the release of [ring_mu]; [free_slot] follows,
    on the slot that is now out of the ring and the index. *)
Definition drop_select (sc : sched) (agent_key : string) : outcome drop_res :=
  found ← st_get (agent_index sc) agent_key;
  match found with
  | None => Ret DropAbsent
  | Some slot =>
      a ← c_deref slot;
      l ← c_deref (links (s_ring sc) !! a);
      r ← (if r_in_ring l then
             prev ← ring_find_prev (s_ring sc) slot;
             match prev with
             | None => Ret None
             | Some _ => r ← ring_remove_node (s_ring sc) slot prev; Ret (Some r)
             end
           else Ret (Some (s_ring sc)));
      match r with
      | None => Ret DropNoPrev
      | Some r =>
          '(_, index) ← st_del (agent_index sc) agent_key;
          s ← slot_at sc slot;
          if s_locked s then Ret DropBusy
          else
            '(s, sc) ← take_slot (set_index (set_ring sc r) index) slot;
            Ret (DropTaken s sc)
      end
  end.

(** The loop of [batch_queue_free] over the index. *)
Fixpoint free_slots (sc : sched) (l : list (string * option loc)) : outcome (list ptr) :=
  match l with
  | [] => Ret []
  | (_, slot) :: l =>
      '(s, sc) ← take_slot sc slot;
      '(ds, sc) ← free_slot sc s false;
      rest ← free_slots sc l;
      Ret (ds ++ rest)
  end.

(** The items disposed of when the scheduler is freed. *)
Definition batch_queue_free (sc : sched) : outcome (list ptr) :=
  l ← st_iter (agent_index sc);
  free_slots sc l.

(** [batch_queue_drain_next_ex] run by one thread without interference: the agent
    and the items consumed; [None] when it has to wait. *)
Definition batch_queue_drain_next_ex (sc : sched)
    : outcome (option (string * list ptr * sched)) :=
  r ← drain_select sc;
  match r with
  | DrainTaken slot sc =>
      s ← slot_at sc slot;
      '(h, hd, sc) ← drain_detach sc slot;
      ds ← drain_process h hd;
      Ret (Some (s_key s, ds, drain_finish sc (length ds)))
  | _ => Ret None
  end.

(** [n] turns of the consumer. *)
Fixpoint drain_turns (n : nat) (sc : sched) : outcome (list (string * list ptr) * sched) :=
  match n with
  | 0 => Ret ([], sc)
  | S n =>
      r ← batch_queue_drain_next_ex sc;
      match r with
      | None => Ret ([], sc)
      | Some (k, ds, sc) =>
          '(out, sc) ← drain_turns n sc;
          Ret ((k, ds) :: out, sc)
      end
  end.

(** ** Threads and interleavings *)

(** A thread between two critical sections. *)
Inductive thread :=
| PReserved (key : string) (a : A)                        (* before step 1 *)
| PLocked (key : string) (slot : option loc) (max : nat) (a : A)  (* before step 4 *)
| PRefused (a : A)                                        (* before the roll-back *)
| PAppend (key : string) (slot : option loc)              (* before step 5 *)
| DLocked (slot : option loc)                             (* consumer, queue locked *)
| DProcess (h : gmap loc (lnode A)) (head : option loc)   (* consumer, chain detached *)
| RFree (s : slot).                                       (* drop_agent, slot unlinked *)

Inductive blabel :=
| LPush (key : string) (a : A)            (* the item is in the queue of the agent *)
| LTake (key : string) (ds : list ptr)    (* a batch leaves the queue of the agent *)
| LOther.

(** Any number of producers, consumers and droppers.  Allocations return addresses
    that are not in use. *)
Inductive bstep : sched → list thread → blabel → sched → list thread → Prop :=
| step_reserve sc ts key a ok sc' :
    enqueue_reserve sc = (ok, sc') →
    bstep sc ts LOther sc' ((if (ok : bool) then PReserved key a else PRefused a) :: ts)
| step_lookup sc ts key a rest p slot max sc' :
    ts ≡ₚ PReserved key a :: rest → slots sc !! p = None →
    enqueue_lookup sc key p = Ret (QueueLocked slot max sc') →
    bstep sc ts LOther sc' (PLocked key slot max a :: rest)
| step_no_memory sc ts key a rest p sc' :
    ts ≡ₚ PReserved key a :: rest → slots sc !! p = None →
    enqueue_lookup sc key p = Ret (NoMemory sc') →
    bstep sc ts LOther sc' (PRefused a :: rest)
| step_push sc ts key slot max a rest n need sc' :
    ts ≡ₚ PLocked key slot max a :: rest →
    (∀ s, slot_at sc slot = Ret s → nodes (s_q s) !! n = None) →
    enqueue_push sc slot max n (Some a) = Ret (Some need, sc') →
    bstep sc ts (LPush key a) sc' (if (need : bool) then PAppend key slot :: rest else rest)
| step_reject sc ts key slot max a rest n sc' :
    ts ≡ₚ PLocked key slot max a :: rest →
    enqueue_push sc slot max n (Some a) = Ret (None, sc') →
    bstep sc ts LOther sc' (PRefused a :: rest)
| step_rollback sc ts a rest :
    ts ≡ₚ PRefused a :: rest → bstep sc ts LOther (enqueue_rollback sc) rest
| step_append sc ts key slot rest sc' :
    ts ≡ₚ PAppend key slot :: rest → enqueue_ring sc key slot = Ret sc' →
    bstep sc ts LOther sc' rest
| step_drain sc ts slot sc' :
    drain_select sc = Ret (DrainTaken slot sc') → bstep sc ts LOther sc' (DLocked slot :: ts)
| step_sleep sc ts sc' :
    drain_select sc = Ret (DrainWaits sc') → bstep sc ts LOther sc' ts
| step_resume sc ts slot sc' :
    0 < signalled (any_available sc) →
    drain_select (on_available sc cond_wake) = Ret (DrainTaken slot sc') →
    bstep sc ts LOther sc' (DLocked slot :: ts)
| step_resleep sc ts sc' :
    0 < signalled (any_available sc) →
    drain_select (on_available sc cond_wake) = Ret (DrainWaits sc') →
    bstep sc ts LOther sc' ts
| step_timeout sc ts :
    0 < asleep (any_available sc) → bstep sc ts LOther (on_available sc cond_timeout) ts
| step_spurious sc ts :
    0 < asleep (any_available sc) → bstep sc ts LOther (on_available sc cond_spurious) ts
| step_detach sc ts slot rest s h hd ds sc' :
    ts ≡ₚ DLocked slot :: rest → slot_at sc slot = Ret s →
    drain_detach sc slot = Ret (h, hd, sc') → drain_process h hd = Ret ds →
    bstep sc ts (LTake (s_key s) ds) sc' (DProcess h hd :: rest)
| step_process sc ts h hd rest ds :
    ts ≡ₚ DProcess h hd :: rest → drain_process h hd = Ret ds →
    bstep sc ts LOther (drain_finish sc (length ds)) rest
| step_drop sc ts key s sc' ds :
    drop_select sc key = Ret (DropTaken s sc') →
    drain_process (nodes (s_q s)) (first (s_q s)) = Ret ds →
    bstep sc ts (LTake key ds) sc' (RFree s :: ts)
| step_free sc ts s rest ds sc' :
    ts ≡ₚ RFree s :: rest → free_slot sc s true = Ret (ds, sc') →
    bstep sc ts LOther sc' rest
| step_set_max sc ts n : bstep sc ts LOther (batch_queue_set_agent_max sc n) ts
| step_set_dispose sc ts b : bstep sc ts LOther (batch_queue_set_dispose sc b) ts.

Inductive bexec : sched → list thread → list blabel → sched → list thread → Prop :=
| bexec_nil sc ts : bexec sc ts [] sc ts
| bexec_snoc sc ts tr sc' ts' lab sc'' ts'' :
    bexec sc ts tr sc' ts' → bstep sc' ts' lab sc'' ts'' →
    bexec sc ts (tr ++ [lab]) sc'' ts''.

(** The items that went into, and came out of, the queue of an agent. *)
Definition pushed (k : string) (tr : list blabel) : list ptr :=
  concat ((λ l, match l with LPush k' a => if decide (k' = k) then [Some a] else [] | _ => [] end) <$> tr).

Definition taken (k : string) (tr : list blabel) : list ptr :=
  concat ((λ l, match l with LTake k' ds => if decide (k' = k) then ds else [] | _ => [] end) <$> tr).

(** ** The abstract scheduler: the queue of each agent *)

Context `{!StrTableLaws loc T}.

Definition queue_is (q : linked_queue A) (xs : list A) : Prop :=
  ∃ l, repr q l ∧ l.*2 = Some <$> xs.

Abbreviation agents := (gmap string (list A)).

(** The slot of agent [k] is at [p] and its queue holds [xs]. *)
Definition agent_at (sc : sched) (k : string) (p : loc) (xs : list A) : Prop :=
  st_map (agent_index sc) !! k = Some (Some p) ∧
  ∃ s, slots sc !! p = Some s ∧ s_key s = k ∧ queue_is (s_q s) xs.

Record view (sc : sched) (Q : agents) : Prop := {
  vw_index : st_wf (agent_index sc);
  vw_links : dom (links (s_ring sc)) =@{gset loc} dom (slots sc);
  vw_known : ∀ k v, st_map (agent_index sc) !! k = Some v →
    ∃ p xs, v = Some p ∧ Q !! k = Some xs ∧ agent_at sc k p xs;
  vw_agent : ∀ k xs, Q !! k = Some xs → ∃ p, agent_at sc k p xs;
  vw_slot : ∀ p s, slots sc !! p = Some s →
    st_map (agent_index sc) !! s_key s = Some (Some p);
}.

Lemma dll_inj h prv (l1 l2 : list (loc * ptr)) :
  dll h prv l1 None → dll h prv l2 None → head_loc l1 None = head_loc l2 None →
  length l1 = length l2 → l1 = l2.
Proof.
  revert prv l2. induction l1 as [|[p d] l1 IH]; intros prv [|[p2 d2] l2]; try done.
  simpl. intros [Hp1 Hd1] [Hp2 Hd2] [= <-] [= Hl]. rewrite Hp1 in Hp2. injection Hp2 as <- Hh.
  f_equal. by apply (IH (Some p)).
Qed.

Lemma queue_is_inj q xs ys : queue_is q xs → queue_is q ys → xs = ys.
Proof.
  intros (l1 & [_ Hd1 Hf1 _ He1 _] & H1) (l2 & [_ Hd2 Hf2 _ He2 _] & H2).
  assert (l1 = l2) as -> by (eapply dll_inj; [done..|congruence|congruence]).
  rewrite H1 in H2. by apply (inj (fmap Some)) in H2.
Qed.

Lemma queue_is_elements q xs : queue_is q xs → elements q = length xs.
Proof.
  intros (l & Hr & Hl). rewrite (repr_elements _ _ Hr), <-(length_fmap snd l), Hl.
  by rewrite length_fmap.
Qed.

Lemma queue_is_init : queue_is linked_queue_init [].
Proof. exists []. split; [apply init_spec|done]. Qed.

(** [slot_push] is [linked_queue_push], written out in the source. *)
Lemma slot_push_spec q xs n a :
  queue_is q xs → nodes q !! n = None →
  ∃ q', slot_push q n (Some a) = Ret q' ∧ queue_is q' (xs ++ [a]).
Proof.
  intros (l & Hr & Hl) Hn. destruct (push_spec q l n (Some a) Hr Hn) as (q' & Hp & Hr').
  exists q'. split; [|exists (l ++ [(n, Some a)]); split; [done|by rewrite !fmap_app, Hl]].
  revert Hp. unfold linked_queue_push, linked_queue_append_node, slot_push.
  cbn [first last nodes elements]. rewrite (repr_last _ _ Hr), (repr_first _ _ Hr).
  destruct (last_loc_cases None l) as [[-> _]|(l' & z & d & -> & ->)].
  - simpl. unfold set_prev, set_next. simpl. rewrite !lookup_insert_eq. simpl.
    rewrite lookup_insert_eq. simpl. rewrite !insert_insert_eq. by intros [= <-].
  - pose proof (dll_lookup _ _ _ _ _ _ _ (repr_dll _ _ Hr)) as Hz. simpl in Hz.
    assert (z ≠ n) by congruence.
    assert (∃ h, head_loc (l' ++ [(z, d)]) None = Some h) as [h ->] by (destruct l' as [|[]]; simpl; eauto).
    unfold set_prev, set_next. simpl. rewrite !lookup_insert_ne by done. rewrite Hz. simpl.
    rewrite !lookup_insert_ne by done. rewrite lookup_insert_eq. simpl. rewrite lookup_insert_eq. simpl.
    intros [= <-]. do 2 f_equal. rewrite insert_insert_eq.
    by rewrite (insert_insert_ne _ n z), insert_insert_eq by done.
Qed.

Lemma chain_walk_dll h (l : list (loc * ptr)) prv fuel :
  dll h prv l None → NoDup l.*1 → length l ≤ fuel →
  chain_walk fuel h (head_loc l None) = Ret (l.*2).
Proof.
  revert h prv fuel. induction l as [|[p d] l IH]; intros h prv fuel; [by destruct fuel|].
  csimpl. intros [Hp Hl] [Hpl Hnd]%NoDup_cons Hf. destruct fuel as [|fuel]; [lia|].
  simpl. unfold node_at, free_node. simpl. rewrite Hp. simpl.
  rewrite (IH (delete p h) (Some p)); [done| |done|lia].
  by apply dll_delete_ne.
Qed.

Lemma repr_size (q : linked_queue A) l : repr q l → size (nodes q) = length l.
Proof.
  intros Hr. rewrite <-(size_dom (D := gset loc)), (repr_dom _ _ Hr).
  rewrite size_list_to_set by apply Hr. by rewrite length_fmap.
Qed.

Lemma chain_walk_spec q xs :
  queue_is q xs → chain_walk (size (nodes q)) (nodes q) (first q) = Ret (Some <$> xs).
Proof.
  intros (l & Hr & Hl). rewrite (repr_size _ _ Hr), (repr_first _ _ Hr), <-Hl.
  eapply chain_walk_dll; [apply Hr|apply Hr|done].
Qed.

Lemma queue_is_size q xs : queue_is q xs → size (nodes q) = length xs.
Proof.
  intros Hq. rewrite <-(queue_is_elements _ _ Hq). destruct Hq as (l & Hr & _).
  by rewrite (repr_size _ _ Hr), (repr_elements _ _ Hr).
Qed.

(** *** How the critical sections change the view *)

Lemma view_at sc Q p s :
  view sc Q → slots sc !! p = Some s →
  ∃ xs, Q !! s_key s = Some xs ∧ queue_is (s_q s) xs ∧ agent_at sc (s_key s) p xs.
Proof.
  intros Hv Hp. pose proof (vw_slot _ _ Hv _ _ Hp) as Hk.
  destruct (vw_known _ _ Hv _ _ Hk) as (p' & xs & [= <-] & HQ & Ha). exists xs.
  split_and!; [done| |done]. destruct Ha as (_ & s' & Hs' & _ & Hq). by simplify_eq.
Qed.

Lemma view_found sc Q k v :
  view sc Q → st_map (agent_index sc) !! k = Some v →
  ∃ p s xs, v = Some p ∧ slots sc !! p = Some s ∧ s_key s = k ∧ Q !! k = Some xs ∧
    queue_is (s_q s) xs ∧ is_Some (links (s_ring sc) !! p).
Proof.
  intros Hv Hk. destruct (vw_known _ _ Hv _ _ Hk) as (p & xs & -> & HQ & _ & s & Hs & Hsk & Hq).
  exists p, s, xs. split_and!; [done..|]. apply elem_of_dom. rewrite (vw_links _ _ Hv).
  apply elem_of_dom. eauto.
Qed.

Lemma view_ext sc sc' Q :
  view sc Q → slots sc' = slots sc → agent_index sc' = agent_index sc →
  dom (links (s_ring sc')) =@{gset loc} dom (links (s_ring sc)) → view sc' Q.
Proof.
  intros [H1 H2 H3 H4 H5] Hs Hi Hl. unfold agent_at in *.
  split; unfold agent_at; rewrite ?Hs, ?Hi, ?Hl; done.
Qed.

Lemma view_set_slot sc Q p s q' b xs' :
  view sc Q → slots sc !! p = Some s → queue_is q' xs' →
  view (set_slots sc (<[p := mk_slot (s_key s) q' b]> (slots sc))) (<[s_key s := xs']> Q).
Proof.
  intros Hv Hp Hq. destruct (view_at _ _ _ _ Hv Hp) as (xs & HQ & _ & Hk & _).
  assert (Hother : ∀ k p0 xs0, k ≠ s_key s → agent_at sc k p0 xs0 →
    agent_at (set_slots sc (<[p := mk_slot (s_key s) q' b]> (slots sc))) k p0 xs0).
  { intros k p0 xs0 Hne (Hk0 & s0 & Hs0 & Hsk & Hq0). split; [done|]. exists s0. simpl.
    rewrite lookup_insert_ne; [done|]. intros ->. by simplify_eq. }
  assert (Hhere : agent_at (set_slots sc (<[p := mk_slot (s_key s) q' b]> (slots sc)))
                    (s_key s) p xs').
  { split; [done|]. eexists. simpl. by rewrite lookup_insert_eq. }
  split; simpl.
  - apply Hv.
  - rewrite dom_insert_same by eauto. apply Hv.
  - intros k v Hkv. destruct (decide (k = s_key s)) as [->|Hne].
    + exists p, xs'. rewrite lookup_insert_eq. split_and!; [by simplify_eq|done..].
    + destruct (vw_known _ _ Hv _ _ Hkv) as (p0 & xs0 & -> & HQ0 & Ha).
      exists p0, xs0. rewrite lookup_insert_ne by done. auto.
  - intros k ys. destruct (decide (k = s_key s)) as [->|Hne].
    + rewrite lookup_insert_eq. intros [= <-]. by exists p.
    + rewrite lookup_insert_ne by done. intros HQk.
      destruct (vw_agent _ _ Hv _ _ HQk) as [p0 Ha]. exists p0. auto.
  - intros p0 s0. destruct (decide (p0 = p)) as [->|Hne].
    + rewrite lookup_insert_eq. intros [= <-]. done.
    + rewrite lookup_insert_ne by done. apply Hv.
Qed.

(** A change of the mutex only. *)
Lemma view_lock sc Q p s b :
  view sc Q → slots sc !! p = Some s →
  view (set_slots sc (<[p := mk_slot (s_key s) (s_q s) b]> (slots sc))) Q.
Proof.
  intros Hv Hp. destruct (view_at _ _ _ _ Hv Hp) as (xs & HQ & Hq & _).
  rewrite <-(insert_id Q (s_key s) xs) by done. by apply view_set_slot.
Qed.

Lemma view_new sc Q k p t :
  view sc Q → st_map (agent_index sc) !! k = None → slots sc !! p = None →
  st_wf t → st_map t = <[k := Some p]> (st_map (agent_index sc)) →
  view (set_index (make_slot sc p k) t) (<[k := []]> Q).
Proof.
  intros Hv Hk Hp Ht Hm.
  assert (Hother : ∀ k' p0 xs0, k' ≠ k → agent_at sc k' p0 xs0 →
    agent_at (set_index (make_slot sc p k) t) k' p0 xs0).
  { intros k' p0 xs0 Hne (Hk0 & s0 & Hs0 & Hsk & Hq0). unfold agent_at. simpl. rewrite Hm.
    rewrite !lookup_insert_ne by congruence. eauto. }
  assert (Hhere : agent_at (set_index (make_slot sc p k) t) k p []).
  { unfold agent_at. simpl. rewrite Hm, !lookup_insert_eq. split; [done|].
    eexists. split_and!; [done..|apply queue_is_init]. }
  split; simpl.
  - done.
  - rewrite !dom_insert_L. by rewrite (vw_links _ _ Hv).
  - intros k' v. rewrite Hm. destruct (decide (k' = k)) as [->|Hne].
    + rewrite !lookup_insert_eq. intros [= <-]. by exists p, [].
    + rewrite !lookup_insert_ne by done. intros Hkv.
      destruct (vw_known _ _ Hv _ _ Hkv) as (p0 & xs0 & -> & HQ0 & Ha). exists p0, xs0. auto.
  - intros k' ys. destruct (decide (k' = k)) as [->|Hne].
    + rewrite lookup_insert_eq. intros [= <-]. by exists p.
    + rewrite lookup_insert_ne by done. intros HQk.
      destruct (vw_agent _ _ Hv _ _ HQk) as [p0 Ha]. exists p0. auto.
  - intros p0 s0. rewrite Hm. destruct (decide (p0 = p)) as [->|Hne].
    + rewrite lookup_insert_eq. intros [= <-]. simpl. by rewrite lookup_insert_eq.
    + rewrite lookup_insert_ne by done. intros Hs0. pose proof (vw_slot _ _ Hv _ _ Hs0) as Hk0.
      rewrite lookup_insert_ne; [done|]. congruence.
Qed.

Lemma view_take sc Q k p s t r :
  view sc Q → st_map (agent_index sc) !! k = Some (Some p) → slots sc !! p = Some s →
  dom (links r) =@{gset loc} dom (links (s_ring sc)) →
  st_wf t → st_map t = delete k (st_map (agent_index sc)) →
  ∃ sc', take_slot (set_index (set_ring sc r) t) (Some p) = Ret (s, sc') ∧
    view sc' (delete k Q) ∧ slots sc' = delete p (slots sc) ∧
    links (s_ring sc') = delete p (links r) ∧ items_global sc' = items_global sc ∧
    any_available sc' = any_available sc ∧ agent_index sc' = t ∧
    cursor (s_ring sc') = cursor r ∧ prev_cursor (s_ring sc') = prev_cursor r ∧
    ring_head (s_ring sc') = ring_head r ∧ ring_tail (s_ring sc') = ring_tail r ∧
    ring_slots (s_ring sc') = ring_slots r.
Proof.
  intros Hv Hk Hp Hdom Ht Hm. unfold take_slot. simpl. rewrite Hp. simpl.
  eexists. split; [done|]. split; [|by repeat split].
  assert (Hsk : s_key s = k).
  { destruct (view_found _ _ _ _ Hv Hk) as (p' & s' & ? & [= <-] & ? & ? & _). by simplify_eq. }
  assert (Hother : ∀ k' p0 xs0, k' ≠ k → agent_at sc k' p0 xs0 →
    p0 ≠ p ∧ st_map t !! k' = Some (Some p0)).
  { intros k' p0 xs0 Hne (Hk0 & s0 & Hs0 & Hsk0 & Hq0). rewrite Hm, lookup_delete_ne by done.
    split; [|done]. intros ->. by simplify_eq. }
  assert (Hkeep : ∀ k' p0 xs0, k' ≠ k → agent_at sc k' p0 xs0 → ∀ r',
    agent_at (set_ring (set_slots (set_index (set_ring sc r) t) (delete p (slots sc))) r') k' p0 xs0).
  { intros k' p0 xs0 Hne Ha r'. destruct (Hother _ _ _ Hne Ha) as [Hpp Hk'].
    destruct Ha as (_ & s0 & Hs0 & ?). split; [done|]. exists s0. simpl.
    by rewrite lookup_delete_ne by done. }
  split; simpl.
  - done.
  - rewrite !dom_delete_L, Hdom. by rewrite (vw_links _ _ Hv).
  - intros k' v. rewrite Hm. destruct (decide (k' = k)) as [->|Hne]; [by rewrite lookup_delete_eq|].
    rewrite !lookup_delete_ne by done. intros Hkv.
    destruct (vw_known _ _ Hv _ _ Hkv) as (p0 & xs0 & -> & HQ0 & Ha).
    exists p0, xs0. split_and!; [done..|]. by apply Hkeep.
  - intros k' ys. destruct (decide (k' = k)) as [->|Hne]; [by rewrite lookup_delete_eq|].
    rewrite lookup_delete_ne by done. intros HQk. destruct (vw_agent _ _ Hv _ _ HQk) as [p0 Ha].
    exists p0. by apply Hkeep.
  - intros p0 s0. destruct (decide (p0 = p)) as [->|Hne]; [by rewrite lookup_delete_eq|].
    rewrite lookup_delete_ne by done. intros Hs0. pose proof (vw_slot _ _ Hv _ _ Hs0) as Hk0.
    rewrite Hm, lookup_delete_ne; [done|]. congruence.
Qed.

(** ** The invariant *)

Definition holder (t : thread) : option (option loc) :=
  match t with
  | PLocked _ slot _ _ => Some slot
  | DLocked slot => Some slot
  | _ => None
  end.

(** The slot [h] is live, locked, and belongs to agent [k]. *)
Definition locked_slot (sc : sched) (h : option loc) (k : string → Prop) : Prop :=
  ∃ p s, h = Some p ∧ slots sc !! p = Some s ∧ s_locked s = true ∧ k (s_key s).

Definition thread_ok (sc : sched) (t : thread) : Prop :=
  match t with
  | PLocked key slot _ _ => locked_slot sc slot (λ k, k = key)
  | DLocked slot => locked_slot sc slot (λ _, True)
  | DProcess h hd => ∃ q xs, queue_is q xs ∧ nodes q = h ∧ first q = hd
  | RFree s => ∃ xs, queue_is (s_q s) xs
  | _ => True
  end.

(** The items a thread accounts for in [items_global]. *)
Definition inflight (t : thread) : nat :=
  match t with
  | PReserved _ _ | PLocked _ _ _ _ | PRefused _ => 1
  | PAppend _ _ | DLocked _ => 0
  | DProcess h _ => size h
  | RFree s => elements (s_q s)
  end.

Definition qsum (Q : agents) : nat := map_fold (λ _ xs n, length xs + n) 0 Q.

Record binv (sc : sched) (ts : list thread) (rs : list loc) (Q : agents) : Prop := {
  bi_ring : ring_ok (s_ring sc) rs;
  bi_view : view sc Q;
  bi_rs : ∀ p, p ∈ rs → is_Some (slots sc !! p);
  bi_threads : Forall (thread_ok sc) ts;
  bi_holders : NoDup (omap holder ts);
  bi_locked : ∀ p s, slots sc !! p = Some s → s_locked s = true → Some p ∈ omap holder ts;
  bi_pending : ∀ k p xs, agent_at sc k p xs → xs ≠ [] → p ∉ rs →
    PAppend k (Some p) ∈ ts ∨ DLocked (Some p) ∈ ts;
  bi_items : items_global sc = Z.of_nat (qsum Q + sum_list (inflight <$> ts));
  bi_cond : asleep (any_available sc) = 0 ∨ length rs ≤ signalled (any_available sc);
}.

Lemma binv_perm sc ts ts' rs Q : ts ≡ₚ ts' → binv sc ts rs Q → binv sc ts' rs Q.
Proof.
  intros Hp [H1 H2 H3 H4 H5 Hlk H6 H7 H8]. split; try done.
  - by rewrite <-Hp.
  - by rewrite <-Hp.
  - intros p s. rewrite <-Hp. apply Hlk.
  - intros k p xs. rewrite <-Hp. apply H6.
  - rewrite H7. do 2 f_equal. by rewrite Hp.
Qed.

Lemma qsum_insert Q k xs : Q !! k = None → qsum (<[k := xs]> Q) = length xs + qsum Q.
Proof.
  intros Hk. unfold qsum. rewrite map_fold_insert_L; [done| |done]. intros. lia.
Qed.

Lemma qsum_delete Q k xs : Q !! k = Some xs → qsum Q = length xs + qsum (delete k Q).
Proof.
  intros Hk. rewrite <-(insert_delete_id Q k xs) at 1 by done.
  apply qsum_insert, lookup_delete_eq.
Qed.

Lemma qsum_update Q k xs ys :
  Q !! k = Some xs → qsum (<[k := ys]> Q) + length xs = qsum Q + length ys.
Proof.
  intros Hk. rewrite (qsum_delete Q k xs) by done.
  rewrite <-insert_delete_eq, qsum_insert by apply lookup_delete_eq. lia.
Qed.

(** What a step does to the abstract scheduler. *)
Definition blabel_effect (lab : blabel) (Q Q' : agents) : Prop :=
  match lab with
  | LPush k a => ∃ xs, Q !! k = Some xs ∧ Q' = <[k := xs ++ [a]]> Q
  | LTake k ds => ∃ xs, Q !! k = Some xs ∧ ds = Some <$> xs ∧
      ∀ k', default [] (Q' !! k') = if decide (k' = k) then [] else default [] (Q !! k')
  | LOther => ∀ k, default [] (Q' !! k) = default [] (Q !! k)
  end.

(** The holders of the queue mutexes, before and after a mutex changes. *)
Lemma threads_frame sc sc' ts :
  Forall (thread_ok sc) ts →
  (∀ p s, Some p ∈ omap holder ts → slots sc !! p = Some s →
     ∃ s', slots sc' !! p = Some s' ∧ s_locked s' = s_locked s ∧ s_key s' = s_key s) →
  Forall (thread_ok sc') ts.
Proof.
  intros Hts Hs. apply Forall_forall. intros t Ht. rewrite Forall_forall in Hts.
  specialize (Hts t Ht).
  assert (Hl : ∀ h P, holder t = Some h → locked_slot sc h P → locked_slot sc' h P).
  { intros h P Hh (p & s & -> & Hp & Hlk & Hk).
    destruct (Hs p s) as (s' & Hs' & Hlk' & Hk'); [|done|].
    - apply list_elem_of_omap. eauto.
    - exists p, s'. rewrite Hlk', Hk'. done. }
  destruct t; simpl in *; try done; by apply Hl.
Qed.

(** An unlocked slot has no holder. *)
Lemma unlocked_no_holder sc ts p s :
  Forall (thread_ok sc) ts → slots sc !! p = Some s → s_locked s = false →
  Some p ∉ omap holder ts.
Proof.
  intros Hts Hp Hl Hin. apply list_elem_of_omap in Hin as (t & Ht & Hh).
  rewrite Forall_forall in Hts. specialize (Hts t Ht).
  destruct t; simplify_eq/=; destruct Hts as (p' & s' & ? & ? & ? & _); simplify_eq; congruence.
Qed.

Lemma agent_at_set sc Q p s q' b xs' k p0 ys :
  view sc Q → slots sc !! p = Some s → queue_is q' xs' →
  agent_at (set_slots sc (<[p := mk_slot (s_key s) q' b]> (slots sc))) k p0 ys →
  (p0 = p ∧ k = s_key s ∧ ys = xs') ∨ (p0 ≠ p ∧ agent_at sc k p0 ys).
Proof.
  intros Hv Hp Hq (Hk & s0 & Hs0 & Hsk & Hq0). simpl in *.
  destruct (decide (p0 = p)) as [->|Hne].
  - rewrite lookup_insert_eq in Hs0. simplify_eq/=. left. split_and!; [done..|].
    by eapply queue_is_inj.
  - rewrite lookup_insert_ne in Hs0 by done. right. split; [done|]. split; [done|]. eauto.
Qed.

Lemma put_slot_eq sc p s s' :
  slots sc !! p = Some s → put_slot sc (Some p) s' = Ret (set_slots sc (<[p := s']> (slots sc))).
Proof. intros Hp. unfold put_slot. simpl. by rewrite Hp. Qed.

Lemma slot_at_eq sc p s : slots sc !! p = Some s → slot_at sc (Some p) = Ret s.
Proof. intros Hp. unfold slot_at. simpl. by rewrite Hp. Qed.

Lemma lock_queue_eq sc p s b :
  slots sc !! p = Some s →
  lock_queue sc (Some p) b = Ret (set_slots sc (<[p := mk_slot (s_key s) (s_q s) b]> (slots sc))).
Proof.
  intros Hp. unfold lock_queue. rewrite (slot_at_eq _ _ _ Hp). simpl.
  by apply put_slot_eq with s.
Qed.

(** A thread, now [t1], takes the mutex of a free queue. *)
Lemma acquire_parts sc rest Q p s t1 :
  view sc Q → Forall (thread_ok sc) rest → NoDup (omap holder rest) →
  slots sc !! p = Some s → s_locked s = false → holder t1 = Some (Some p) →
  (∀ sc', locked_slot sc' (Some p) (λ k, k = s_key s) → thread_ok sc' t1) →
  let sc' := set_slots sc (<[p := mk_slot (s_key s) (s_q s) true]> (slots sc)) in
  view sc' Q ∧ (∀ p', is_Some (slots sc !! p') → is_Some (slots sc' !! p')) ∧
  Forall (thread_ok sc') (t1 :: rest) ∧ NoDup (omap holder (t1 :: rest)) ∧
  ((∀ p s, slots sc !! p = Some s → s_locked s = true → Some p ∈ omap holder rest) →
   ∀ p s, slots sc' !! p = Some s → s_locked s = true → Some p ∈ omap holder (t1 :: rest)) ∧
  (∀ k p0 xs, agent_at sc' k p0 xs → agent_at sc k p0 xs).
Proof.
  intros Hv Hts Hnd Hp Hl Hh Hok sc'.
  destruct (view_at _ _ _ _ Hv Hp) as (xs & HQ & Hq & Hat).
  pose proof (unlocked_no_holder _ _ _ _ Hts Hp Hl) as Hno.
  split_and!.
  - by apply view_lock.
  - intros p' Hp'. unfold sc'. simpl. destruct (decide (p' = p)) as [->|Hne].
    + rewrite lookup_insert_eq. eauto.
    + by rewrite lookup_insert_ne by done.
  - constructor.
    + apply Hok. exists p. unfold sc'. simpl. rewrite lookup_insert_eq. eauto 10.
    + eapply threads_frame; [done|]. intros p' s' Hin Hs'. exists s'. unfold sc'. simpl.
      rewrite lookup_insert_ne; [done|]. by intros ->.
  - simpl. rewrite Hh. by constructor.
  - intros Hlocked p' s'. unfold sc'. simpl. rewrite Hh. destruct (decide (p' = p)) as [->|Hne].
    + intros _ _. by left.
    + rewrite lookup_insert_ne by done. intros Hs' Hl'. right. by eapply Hlocked.
  - intros k p0 ys Ha. apply (agent_at_set _ Q _ _ _ _ xs) in Ha as [(-> & -> & ->)|[_ ?]]; done.
Qed.

(** The thread that releases a mutex was its only holder. *)
Lemma release_parts sc t0 rest p s s' :
  Forall (thread_ok sc) (t0 :: rest) → NoDup (omap holder (t0 :: rest)) →
  holder t0 = Some (Some p) → slots sc !! p = Some s →
  s_locked s' = false →
  (∀ p s, slots sc !! p = Some s → s_locked s = true → Some p ∈ omap holder (t0 :: rest)) →
  let sc' := set_slots sc (<[p := s']> (slots sc)) in
  Forall (thread_ok sc') rest ∧ NoDup (omap holder rest) ∧
  (∀ p s, slots sc' !! p = Some s → s_locked s = true → Some p ∈ omap holder rest).
Proof.
  intros [_ Hts]%Forall_cons Hnd Hh Hp Hl' Hlocked sc'. simpl in Hnd, Hlocked.
  rewrite Hh in Hnd, Hlocked. apply NoDup_cons in Hnd as [Hno Hnd]. split_and!; [|done|].
  2: { intros p' s0. unfold sc'. simpl. destruct (decide (p' = p)) as [->|Hne].
       - rewrite lookup_insert_eq. congruence.
       - rewrite lookup_insert_ne by done. intros Hs0 Hl0.
         destruct (proj1 (elem_of_cons _ _ _) (Hlocked _ _ Hs0 Hl0)); [congruence|done]. }
  eapply threads_frame; [done|]. intros p' s0 Hin Hs'. exists s0. unfold sc'. simpl.
  rewrite lookup_insert_ne; [done|]. by intros ->.
Qed.

Lemma st_get_eq sc Q k : view sc Q → st_get (agent_index sc) k = Ret (st_map (agent_index sc) !! k).
Proof. intros Hv. apply st_get_spec, Hv. Qed.

Lemma view_absent sc Q k : view sc Q → st_map (agent_index sc) !! k = None → Q !! k = None.
Proof.
  intros Hv Hk. destruct (Q !! k) as [xs|] eqn:HQ; [|done].
  destruct (vw_agent _ _ Hv _ _ HQ) as (p & Hk' & _). congruence.
Qed.

(** The new slot of an agent, before its queue is locked. *)
Lemma binv_new sc ts rs Q k p t :
  binv sc ts rs Q → st_map (agent_index sc) !! k = None → slots sc !! p = None →
  st_wf t → st_map t = <[k := Some p]> (st_map (agent_index sc)) →
  binv (set_index (make_slot sc p k) t) ts rs (<[k := []]> Q).
Proof.
  intros [Hring Hv Hrs Hts Hnd Hlocked Hpend Hitems Hcond] Hk Hp Ht Hm.
  assert (Hprs : p ∉ rs) by (intros [? Hx]%Hrs; congruence).
  split; simpl; try done.
  - apply ring_ok_frame; [done|..].
    + intros p' Hp'. rewrite lookup_insert_ne; [done|]. by intros ->.
    + intros p' n. destruct (decide (p' = p)) as [->|Hne].
      * rewrite lookup_insert_eq. congruence.
      * rewrite lookup_insert_ne by done. apply Hring.
  - by apply view_new.
  - intros p' Hp'. rewrite lookup_insert_ne by (by intros ->). auto.
  - eapply threads_frame; [done|]. intros p' s' _ Hs'. exists s'. simpl.
    rewrite lookup_insert_ne; [done|]. congruence.
  - intros p' s'. destruct (decide (p' = p)) as [->|Hne].
    + rewrite lookup_insert_eq. by intros [= <-].
    + rewrite lookup_insert_ne by done. apply Hlocked.
  - intros k' p' xs (Hk' & s' & Hs' & Hsk & Hq) Hne Hout. simpl in *.
    destruct (decide (p' = p)) as [->|Hnp].
    + rewrite lookup_insert_eq in Hs'. simplify_eq/=. exfalso. apply Hne.
      eapply queue_is_inj; [done|apply queue_is_init].
    + rewrite lookup_insert_ne in Hs' by done. apply (Hpend k' p' xs); [|done..].
      split; [|eauto]. rewrite Hm in Hk'. destruct (decide (k' = k)) as [->|Hnk].
      * rewrite lookup_insert_eq in Hk'. congruence.
      * by rewrite lookup_insert_ne in Hk' by done.
  - rewrite qsum_insert by (by eapply view_absent). done.
Qed.

Lemma lookup_lock sc rest rs Q key a p s max :
  binv sc (PReserved key a :: rest) rs Q →
  slots sc !! p = Some s → s_locked s = false → s_key s = key →
  binv (set_slots sc (<[p := mk_slot (s_key s) (s_q s) true]> (slots sc)))
    (PLocked key (Some p) max a :: rest) rs Q.
Proof.
  intros [Hring Hv Hrs Hts Hnd Hlocked Hpend Hitems Hcond] Hs Hl Hk.
  apply Forall_cons in Hts as [_ Hts]. simpl in Hnd.
  destruct (acquire_parts sc rest Q p s (PLocked key (Some p) max a))
    as (Hv' & Hrs' & Hts' & Hnd' & Hlk' & Hat); [done..|by rewrite <-Hk|].
  split; try done; [by auto|by apply Hlk'|].
  intros k p0 ys Ha Hne Hout. destruct (Hpend _ _ _ (Hat _ _ _ Ha) Hne Hout) as [Hx|Hx];
    apply elem_of_cons in Hx as [Hx|Hx]; [done|left; by right|done|right; by right].
Qed.

Lemma lookup_step sc rest rs Q key a p :
  binv sc (PReserved key a :: rest) rs Q → slots sc !! p = None →
  enqueue_lookup sc key p = Ret QueueBusy ∨
  ∃ slot max sc' Q', enqueue_lookup sc key p = Ret (QueueLocked slot max sc') ∧
    binv sc' (PLocked key slot max a :: rest) rs Q' ∧ blabel_effect LOther Q Q'.
Proof.
  intros Hinv Hp. pose proof (bi_view _ _ _ _ Hinv) as Hv.
  unfold enqueue_lookup. rewrite (st_get_eq _ _ _ Hv), outcome_bind_ret.
  destruct (st_map (agent_index sc) !! key) as [v|] eqn:Hk.
  - destruct (view_found _ _ _ _ Hv Hk) as (p0 & s & xs & -> & Hs & Hsk & HQ & Hq & _).
    rewrite (slot_at_eq _ _ _ Hs), outcome_bind_ret. destruct (s_locked s) eqn:Hl; [by left|right].
    rewrite (lock_queue_eq _ _ _ _ Hs), outcome_bind_ret.
    eexists _, _, _, Q. split; [done|]. split; [|done]. by apply lookup_lock.
  - right. destruct (st_put_spec (agent_index sc) key (Some p) (vw_index _ _ Hv)) as (t & Hput & Ht & Hm).
    rewrite Hk in Hput. rewrite decide_False in Hput by (by intros []).
    change (agent_index (make_slot sc p key)) with (agent_index sc). rewrite Hput, outcome_bind_ret.
    rewrite decide_False by congruence. cbv zeta.
    set (sc1 := set_index (make_slot sc p key) t).
    assert (Hs : slots sc1 !! p = Some (mk_slot key linked_queue_init false))
      by apply lookup_insert_eq.
    rewrite (lock_queue_eq _ _ _ _ Hs), outcome_bind_ret.
    eexists _, _, _, (<[key := []]> Q). split; [done|]. split.
    + apply (lookup_lock sc1 _ _ _ _ _ p (mk_slot key linked_queue_init false)); [|done..].
      by apply binv_new.
    + intros k. destruct (decide (k = key)) as [->|Hne].
      * rewrite lookup_insert_eq. by rewrite (view_absent _ _ _ Hv Hk).
      * by rewrite lookup_insert_ne.
Qed.

Lemma push_step sc rest rs Q key slot max a n :
  binv sc (PLocked key slot max a :: rest) rs Q →
  (∀ s, slot_at sc slot = Ret s → nodes (s_q s) !! n = None) →
  ∃ r sc', enqueue_push sc slot max n (Some a) = Ret (r, sc') ∧
    match r with
    | None => binv sc' (PRefused a :: rest) rs Q
    | Some need =>
        ∃ Q', binv sc' (if need then PAppend key slot :: rest else rest) rs Q' ∧
          blabel_effect (LPush key a) Q Q'
    end.
Proof.
  intros [Hring Hv Hrs Hts Hnd Hlocked Hpend Hitems Hcond] Hn.
  pose proof Hts as [(p & s & -> & Hs & Hl & Hk) _]%Forall_cons.
  specialize (Hn s (slot_at_eq _ _ _ Hs)).
  destruct (view_at _ _ _ _ Hv Hs) as (xs & HQ & Hq & Hat). rewrite Hk in HQ, Hat.
  pose proof (queue_is_elements _ _ Hq) as Hlen.
  unfold enqueue_push. rewrite (slot_at_eq _ _ _ Hs), outcome_bind_ret. cbv zeta.
  destruct (decide (max ≠ 0 ∧ max ≤ elements (s_q s))) as [Hrej|Hacc].
  - rewrite (put_slot_eq _ _ _ _ Hs), outcome_bind_ret. eexists None, _. split; [done|].
    destruct (release_parts _ _ _ _ _ (mk_slot (s_key s) (s_q s) false) Hts Hnd eq_refl Hs eq_refl Hlocked)
      as (Hts' & Hnd' & Hlk').
    split; simpl; try done.
    + by apply view_lock.
    + intros p' Hp'. destruct (decide (p' = p)) as [->|Hne];
        [rewrite lookup_insert_eq; eauto|rewrite lookup_insert_ne by done; auto].
    + by constructor.
    + intros k p0 ys Ha Hne Hout. apply (agent_at_set _ Q _ _ _ _ xs) in Ha; [|done..].
      assert (agent_at sc k p0 ys) as Ha' by (destruct Ha as [(-> & -> & ->)|[_ ?]]; by rewrite ?Hk).
      destruct (Hpend _ _ _ Ha' Hne Hout) as [Hx|Hx]; apply elem_of_cons in Hx as [Hx|Hx];
        [done|left; by right|done|right; by right].
  - destruct (slot_push_spec _ _ n a Hq Hn) as (q' & -> & Hq'). rewrite outcome_bind_ret.
    rewrite (put_slot_eq _ _ _ _ Hs), outcome_bind_ret. eexists (Some _), _. split; [done|].
    exists (<[key := xs ++ [a]]> Q). split; [|by exists xs]. cbn beta iota.
    destruct (release_parts _ _ _ _ _ (mk_slot (s_key s) q' false) Hts Hnd eq_refl Hs eq_refl Hlocked)
      as (Hts' & Hnd' & Hlk').
    assert (Hv' : view (set_slots sc (<[p := mk_slot (s_key s) q' false]> (slots sc)))
                    (<[key := xs ++ [a]]> Q)).
    { rewrite <-Hk. by apply view_set_slot. }
    set (need := bool_decide (elements (s_q s) = 0)) in *.
    assert (Hsum : qsum (<[key := xs ++ [a]]> Q) = qsum Q + 1).
    { pose proof (qsum_update Q key xs (xs ++ [a]) HQ) as H1. rewrite length_app in H1. simpl in H1. lia. }
    split; simpl; try done.
    + intros p' Hp'. destruct (decide (p' = p)) as [->|Hne];
        [rewrite lookup_insert_eq; eauto|rewrite lookup_insert_ne by done; auto].
    + destruct need; [by constructor|done].
    + by destruct need.
    + by destruct need.
    + intros k p0 ys Ha Hne Hout. apply (agent_at_set _ Q _ _ _ _ (xs ++ [a])) in Ha; [|done..].
      destruct Ha as [(-> & -> & ->)|[Hpp Ha]].
      * rewrite Hk. destruct (decide (xs = [])) as [->|Hxs].
        { left. unfold need. rewrite bool_decide_true by done. by left. }
        destruct (Hpend _ _ _ Hat Hxs Hout) as [Hx|Hx]; apply elem_of_cons in Hx as [Hx|Hx]; try done;
          [left|right]; destruct need; (done || by right).
      * destruct (Hpend _ _ _ Ha Hne Hout) as [Hx|Hx]; apply elem_of_cons in Hx as [Hx|Hx]; try done;
          [left|right]; destruct need; (done || by right).
    + rewrite Hitems, Hsum. destruct need; csimpl; lia.
Qed.

Lemma append_step sc rest rs Q key slot :
  binv sc (PAppend key slot :: rest) rs Q →
  ∃ sc' rs', enqueue_ring sc key slot = Ret sc' ∧ binv sc' rest rs' Q.
Proof.
  intros [Hring Hv Hrs Hts Hnd Hlocked Hpend Hitems Hcond].
  apply Forall_cons in Hts as [_ Hts]. simpl in Hnd.
  unfold enqueue_ring. rewrite (st_get_eq _ _ _ Hv), outcome_bind_ret.
  assert (Hdrop : (∀ p, slot = Some p → st_map (agent_index sc) !! key = Some slot → p ∈ rs) →
    binv sc rest rs Q).
  { intros Hin. split; try done. intros k p xs Ha Hne Hout.
    destruct (Hpend _ _ _ Ha Hne Hout) as [Hx|Hx]; apply elem_of_cons in Hx as [Hx|Hx];
      [|by left|done|by right]. simplify_eq. exfalso. apply Hout, Hin; [done|apply Ha]. }
  case_decide as Hf; [|exists sc, rs; split; [done|apply Hdrop; congruence]].
  destruct (view_found _ _ _ _ Hv Hf) as (p & s & xs & -> & Hs & Hsk & HQ & Hq & [l Hlp]).
  simpl. rewrite Hlp. simpl. rewrite (ring_in_ring _ _ _ _ Hring Hlp).
  destruct (decide (p ∈ rs)) as [Hin|Hout].
  - rewrite bool_decide_true by done. exists sc, rs. split; [done|]. apply Hdrop. naive_solver.
  - rewrite bool_decide_false by done.
    destruct (ring_append_spec _ _ p Hring Hout) as (r & -> & Hring' & Hdom); [eauto|]. simpl.
    eexists _, (rs ++ [p]). split; [done|]. split; simpl; try done.
    + by eapply view_ext.
    + intros p' [Hx|Hx%list_elem_of_singleton]%elem_of_app; [auto|subst; eauto].
    + intros k p0 ys Ha Hne Hout'. rewrite not_elem_of_app, list_elem_of_singleton in Hout'.
      destruct Hout' as [Ho Hn]. change (agent_at sc k p0 ys) in Ha.
      destruct (Hpend _ _ _ Ha Hne Ho) as [Hx|Hx]; apply elem_of_cons in Hx as [Hx|Hx];
        [by simplify_eq|by left|done|by right].
    + rewrite length_app. unfold w_cond_signal. simpl.
      destruct (any_available sc) as [[|m] k]; simpl in *; lia.
Qed.

(** The consumer, with the ring it sees; [m] signals have been used up by threads
    that run. *)
Lemma drain_step sc ts rs Q :
  binv sc ts rs Q →
  match rs with
  | [] => drain_select sc = Ret (DrainWaits (on_available sc cond_sleep)) ∧
          binv (on_available sc cond_sleep) ts [] Q
  | p :: rs =>
      drain_select sc = Ret DrainBusy ∨
      ∃ sc', drain_select sc = Ret (DrainTaken (Some p) sc') ∧
        any_available sc' = any_available sc ∧
        ∀ f, asleep (f (any_available sc)) = 0 ∨ length rs ≤ signalled (f (any_available sc)) →
          binv (on_available sc' f) (DLocked (Some p) :: ts) rs Q
  end.
Proof.
  intros [Hring Hv Hrs Hts Hnd Hlocked Hpend Hitems Hcond]. unfold drain_select.
  rewrite (rg_cursor _ _ Hring). destruct rs as [|p rs]; cbn [head].
  - split; [done|]. split; simpl in *; try done; [by eapply view_ext|right; lia].
  - destruct (ring_take_spec _ _ _ Hring) as (r & -> & Hring' & Hdom). rewrite outcome_bind_ret.
    destruct (Hrs p) as [s Hs]; [by left|]. rewrite (slot_at_eq _ _ _ Hs), outcome_bind_ret.
    destruct (s_locked s) eqn:Hl; [by left|right].
    assert (Hs' : slots (set_ring sc r) !! p = Some s) by done.
    rewrite (lock_queue_eq _ _ _ _ Hs'), outcome_bind_ret. eexists. split; [done|].
    split; [done|]. intros f Hf.
    destruct (acquire_parts (set_ring sc r) ts Q p s (DLocked (Some p)))
      as (Hv' & Hrs' & Hts' & Hnd' & Hlk' & Hat'); try done.
    { by eapply view_ext. }
    { intros sc0 (p0 & s0 & ? & ? & ? & ?). by exists p0, s0. }
    split; try done.
    + by eapply view_ext.
    + intros p' Hp'. apply Hrs', Hrs. by right.
    + by apply Hlk'.
    + intros k p0 ys Ha Hne Hout. apply Hat' in Ha. change (agent_at sc k p0 ys) in Ha.
      destruct (decide (p0 = p)) as [->|Hpp]; [right; by left|].
      destruct (Hpend _ _ _ Ha Hne) as [Hx|Hx]; [by rewrite not_elem_of_cons|left; by right|right; by right].
Qed.

Lemma detach_step sc rest rs Q slot :
  binv sc (DLocked slot :: rest) rs Q →
  ∃ s h hd sc' xs, slot_at sc slot = Ret s ∧ drain_detach sc slot = Ret (h, hd, sc') ∧
    drain_process h hd = Ret (Some <$> xs) ∧
    Q !! s_key s = Some xs ∧ binv sc' (DProcess h hd :: rest) rs (<[s_key s := []]> Q).
Proof.
  intros [Hring Hv Hrs Hts Hnd Hlocked Hpend Hitems Hcond].
  pose proof Hts as [(p & s & -> & Hs & Hl & _) _]%Forall_cons.
  destruct (view_at _ _ _ _ Hv Hs) as (xs & HQ & Hq & Hat).
  exists s, (nodes (s_q s)), (first (s_q s)). unfold drain_detach, drain_process.
  rewrite (slot_at_eq _ _ _ Hs), outcome_bind_ret, (put_slot_eq _ _ _ _ Hs), outcome_bind_ret.
  eexists _, xs. split_and!; [done..|by apply chain_walk_spec|done|].
  destruct (release_parts _ _ _ _ _ (mk_slot (s_key s) linked_queue_init false) Hts Hnd eq_refl Hs eq_refl Hlocked)
      as (Hts' & Hnd' & Hlk').
  split; simpl; try done.
  - apply view_set_slot; [done..|apply queue_is_init].
  - intros p' Hp'. destruct (decide (p' = p)) as [->|Hne];
      [rewrite lookup_insert_eq; eauto|rewrite lookup_insert_ne by done; auto].
  - constructor; [|done]. by exists (s_q s), xs.
  - intros k p0 ys Ha Hne Hout.
    apply (agent_at_set _ Q _ _ _ _ []) in Ha; [|done|done|apply queue_is_init].
    destruct Ha as [(_ & _ & ->)|[Hpp Ha]]; [done|].
    destruct (Hpend _ _ _ Ha Hne Hout) as [Hx|Hx]; apply elem_of_cons in Hx as [Hx|Hx];
      [done|left; by right|by simplify_eq|right; by right].
  - rewrite Hitems. csimpl. rewrite (queue_is_size _ _ Hq).
    pose proof (qsum_update Q (s_key s) xs [] HQ) as Hu. simpl in Hu. lia.
Qed.

Lemma process_step sc rest rs Q h hd :
  binv sc (DProcess h hd :: rest) rs Q →
  ∃ ds, drain_process h hd = Ret ds ∧ binv (drain_finish sc (length ds)) rest rs Q.
Proof.
  intros [Hring Hv Hrs Hts Hnd Hlocked Hpend Hitems Hcond].
  apply Forall_cons in Hts as [(q & xs & Hq & <- & <-) Hts]. simpl in Hnd.
  exists (Some <$> xs). split; [by apply chain_walk_spec|].
  rewrite length_fmap. csimpl in Hitems. rewrite (queue_is_size _ _ Hq) in Hitems.
  assert (Hsc : drain_finish sc (length xs) = add_items sc (- Z.of_nat (length xs)) ∨
                (length xs = 0 ∧ drain_finish sc (length xs) = sc)).
  { unfold drain_finish. case_decide; auto. }
  destruct Hsc as [->|[Hz ->]]; split; simpl; try done; try (by eapply view_ext).
  1, 3: intros k p0 ys Ha Hne Hout; destruct (Hpend _ _ _ Ha Hne Hout) as [Hx|Hx];
    apply elem_of_cons in Hx as [Hx|Hx]; [done|by left|done|by right].
  - rewrite Hitems. lia.
  - rewrite Hitems. lia.
Qed.

Lemma free_step sc rest rs Q s :
  binv sc (RFree s :: rest) rs Q →
  ∃ ds sc', free_slot sc s true = Ret (ds, sc') ∧ binv sc' rest rs Q.
Proof.
  intros [Hring Hv Hrs Hts Hnd Hlocked Hpend Hitems Hcond].
  apply Forall_cons in Hts as [(xs & Hq) Hts]. simpl in Hnd. csimpl in Hitems.
  unfold free_slot, steal_chain. rewrite (chain_walk_spec _ _ Hq), outcome_bind_ret.
  eexists _, _. split; [done|].
  destruct (bool_decide (elements (s_q s) = 0)) eqn:Hz; [apply bool_decide_eq_true in Hz|];
    simpl; split; simpl; try done; try (by eapply view_ext).
  1, 3: intros k p0 ys Ha Hne Hout; destruct (Hpend _ _ _ Ha Hne Hout) as [Hx|Hx];
    apply elem_of_cons in Hx as [Hx|Hx]; [done|by left|done|by right].
  - rewrite Hitems. lia.
  - rewrite Hitems. lia.
Qed.

Lemma drop_step sc ts rs Q key :
  binv sc ts rs Q →
  (drop_select sc key = Ret DropAbsent ∧ Q !! key = None) ∨ drop_select sc key = Ret DropBusy ∨
  ∃ s sc' xs rs', drop_select sc key = Ret (DropTaken s sc') ∧
    drain_process (nodes (s_q s)) (first (s_q s)) = Ret (Some <$> xs) ∧
    Q !! key = Some xs ∧ binv sc' (RFree s :: ts) rs' (delete key Q).
Proof.
  intros [Hring Hv Hrs Hts Hnd Hlocked Hpend Hitems Hcond]. unfold drop_select.
  rewrite (st_get_eq _ _ _ Hv), outcome_bind_ret.
  destruct (st_map (agent_index sc) !! key) as [v|] eqn:Hk;
    [|left; split; [done|by eapply view_absent]].
  right. destruct (view_found _ _ _ _ Hv Hk) as (p & s & xs & -> & Hs & Hsk & HQ & Hq & [l Hlp]).
  cbn [c_deref]. rewrite outcome_bind_ret, Hlp. cbn [c_deref]. rewrite outcome_bind_ret.
  rewrite (ring_in_ring _ _ _ _ Hring Hlp).
  assert (∃ r rs', (if bool_decide (p ∈ rs) then
             prev ← ring_find_prev (s_ring sc) (Some p);
             match prev with
             | None => Ret None
             | Some _ => r ← ring_remove_node (s_ring sc) (Some p) prev; Ret (Some r)
             end
           else Ret (Some (s_ring sc))) = Ret (Some r) ∧ ring_ok r rs' ∧
      dom (links r) =@{gset loc} dom (links (s_ring sc)) ∧
      rs' = filter (λ x, x ≠ p) rs) as (r & rs' & -> & Hring' & Hdom & Hrs').
  { destruct (decide (p ∈ rs)) as [Hin|Hout].
    - rewrite bool_decide_true by done.
      destruct (ring_drop_spec _ _ _ Hring Hin) as (prev & r & -> & Hr & ? & ?).
      rewrite outcome_bind_ret, Hr. eauto 10.
    - rewrite bool_decide_false by done. eexists _, rs. split_and!; [done..|].
      clear -Hout. induction rs as [|x rs IH]; [done|]. rewrite not_elem_of_cons in Hout.
      destruct Hout. rewrite filter_cons_True by done. by rewrite <-IH. }
  rewrite outcome_bind_ret.
  destruct (st_del_spec (agent_index sc) key (vw_index _ _ Hv)) as (t & -> & Ht & Hm).
  rewrite outcome_bind_ret, (slot_at_eq _ _ _ Hs), outcome_bind_ret.
  destruct (s_locked s) eqn:Hl; [by left|right].
  destruct (view_take sc Q key p s t r) as (sc' & -> & Hv' & Hsl & Hlk & Hit & Hav & Hix & Hc & Hpc & Hh & Htl & Hn);
    [done..|].
  rewrite outcome_bind_ret. exists s, sc', xs, rs'. split_and!; [done|by apply chain_walk_spec|done|].
  pose proof (unlocked_no_holder _ _ _ _ Hts Hs Hl) as Hno.
  assert (Hp' : p ∉ rs') by (rewrite Hrs', list_elem_of_filter; naive_solver).
  assert (Hring2 : ring_ok (s_ring sc') rs').
  { replace (s_ring sc') with (mk_ring (delete p (links r)) (ring_head r) (ring_tail r) (cursor r)
      (prev_cursor r) (ring_slots r)) by (destruct (s_ring sc'); simpl in *; congruence).
    apply ring_ok_frame; [done|..].
    - intros p' Hp2. rewrite lookup_delete_ne; [done|]. by intros ->.
    - intros p' n. destruct (decide (p' = p)) as [->|Hne]; [by rewrite lookup_delete_eq|].
      rewrite lookup_delete_ne by done. apply Hring'. }
  split; try done.
  - intros p' Hp2. rewrite Hsl. rewrite lookup_delete_ne by (by intros ->).
    apply Hrs. rewrite Hrs' in Hp2. apply list_elem_of_filter in Hp2. tauto.
  - constructor; [by exists xs|]. eapply threads_frame; [done|]. intros p' s' Hin Hs'. exists s'.
    rewrite Hsl. rewrite lookup_delete_ne; [done|]. by intros ->.
  - intros p' s'. rewrite Hsl. intros [_ Hs']%lookup_delete_Some. by apply Hlocked.
  - intros k p0 ys (Hk0 & s0 & Hs0 & Hsk0 & Hq0) Hne Hout. rewrite Hix, Hm in Hk0. rewrite Hsl in Hs0.
    assert (p0 ≠ p) as Hpp by (intros ->; by rewrite lookup_delete_eq in Hs0).
    rewrite lookup_delete_ne in Hs0 by done.
    assert (k ≠ key) as Hkk by (intros ->; by rewrite lookup_delete_eq in Hk0).
    rewrite lookup_delete_ne in Hk0 by done.
    destruct (Hpend k p0 ys) as [Hx|Hx]; [split; eauto|done| |left; by right|right; by right].
    intros Hin. apply Hout. rewrite Hrs'. apply list_elem_of_filter. done.
  - rewrite Hit, Hitems. csimpl. rewrite (queue_is_elements _ _ Hq), (qsum_delete Q key xs HQ). lia.
  - rewrite Hav. destruct Hcond as [?|Hc']; [by left|right].
    rewrite Hrs'. etrans; [|done]. apply length_filter.
Qed.

(** The critical section of the consumer looks at [any_available] only to sleep. *)
Lemma drain_select_on sc f slot sc' :
  drain_select sc = Ret (DrainTaken slot sc') →
  drain_select (on_available sc f) = Ret (DrainTaken slot (on_available sc' f)).
Proof.
  unfold drain_select. simpl. destruct (cursor (s_ring sc)) as [?|]; [|done].
  intros ([p1 r] & -> & Hr)%outcome_bind_Ret_inv. simpl.
  apply outcome_bind_Ret_inv in Hr as (s & Hs & Hr).
  assert (slot_at (on_available sc f) p1 = Ret s) as -> by done. simpl.
  destruct (s_locked s); [done|]. apply outcome_bind_Ret_inv in Hr as (sc1 & Hl & Hr). simplify_eq.
  revert Hl. unfold lock_queue, slot_at, put_slot. destruct slot as [a|]; [|done]. simpl.
  destruct (slots sc !! a) as [s0|] eqn:Ha; [|done]. simpl. by intros [= <-].
Qed.

Lemma on_available_id sc : on_available sc (λ c, c) = sc.
Proof. by destruct sc. Qed.

(** A thread that accounts for one item appears. *)
Lemma reserve_step sc ts rs Q t :
  binv sc ts rs Q → inflight t = 1 → holder t = None → (∀ sc, thread_ok sc t) →
  binv (add_items sc 1) (t :: ts) rs Q.
Proof.
  intros [Hring Hv Hrs Hts Hnd Hlocked Hpend Hitems Hcond] Ht Hh Hok.
  split; try done.
  - by eapply view_ext.
  - by constructor.
  - simpl. by rewrite Hh.
  - simpl. by rewrite Hh.
  - intros k p0 xs Ha Hne Hout. destruct (Hpend k p0 xs Ha Hne Hout); [left|right]; by right.
  - cbn [items_global add_items]. rewrite Hitems. csimpl. lia.
Qed.

Lemma rollback_step sc rest rs Q a :
  binv sc (PRefused a :: rest) rs Q → binv (enqueue_rollback sc) rest rs Q.
Proof.
  intros [Hring Hv Hrs Hts Hnd Hlocked Hpend Hitems Hcond].
  apply Forall_cons in Hts as [_ Hts]. csimpl in Hitems. split; simpl; try done.
  - by eapply view_ext.
  - intros k p0 ys Ha Hne Hout. destruct (Hpend _ _ _ Ha Hne Hout) as [Hx|Hx];
      apply elem_of_cons in Hx as [Hx|Hx]; [done|by left|done|by right].
  - rewrite Hitems. lia.
Qed.

(** A full queue rejects whatever node the allocation would have returned. *)
Lemma reject_step sc rest rs Q key slot max a n sc' :
  binv sc (PLocked key slot max a :: rest) rs Q →
  enqueue_push sc slot max n (Some a) = Ret (None, sc') → binv sc' (PRefused a :: rest) rs Q.
Proof.
  intros Hinv Hr. pose proof (bi_threads _ _ _ _ Hinv) as [(p & s & -> & Hs & _) _]%Forall_cons.
  destruct (push_step _ _ _ _ _ _ _ _ (fresh (dom (nodes (s_q s)))) Hinv) as (r & sc1 & Hr' & Hm).
  { intros s' Hs'. rewrite (slot_at_eq _ _ _ Hs) in Hs'. simplify_eq. apply not_elem_of_dom, is_fresh. }
  unfold enqueue_push in Hr, Hr'. rewrite (slot_at_eq _ _ _ Hs) in Hr, Hr'. simpl in Hr, Hr'.
  destruct (decide _) as [Hd|Hd].
  - rewrite Hr in Hr'. by injection Hr' as <- <-.
  - by apply outcome_bind_Ret_inv in Hr as (? & _ & (? & _ & ?)%outcome_bind_Ret_inv).
Qed.

(** Threads that come and go at the condition variable. *)
Lemma cond_step sc ts rs Q f :
  binv sc ts rs Q →
  asleep (f (any_available sc)) = 0 ∨ length rs ≤ signalled (f (any_available sc)) →
  binv (on_available sc f) ts rs Q.
Proof.
  intros [Hring Hv Hrs Hts Hnd Hlocked Hpend Hitems Hcond] Hf.
  split; simpl; try done. by eapply view_ext.
Qed.

(** A running consumer, which may have used up a signal by [f]. *)
Lemma taken_step sc ts rs Q f slot sc' :
  binv sc ts rs Q → drain_select (on_available sc f) = Ret (DrainTaken slot sc') →
  asleep (f (any_available sc)) = 0 ∨ length rs ≤ signalled (f (any_available sc)) + 1 →
  ∃ rs', binv sc' (DLocked slot :: ts) rs' Q.
Proof.
  intros Hinv Hr Hf. pose proof (drain_step _ _ _ _ Hinv) as Hd.
  assert (Hback : ∃ sc1, drain_select sc = Ret (DrainTaken slot sc1)).
  { revert Hr. unfold drain_select. simpl. destruct (cursor (s_ring sc)); [|done].
    destruct (ring_take (s_ring sc)) as [[p' r]|]; [|done]. simpl.
    change (slot_at (on_available sc f) p') with (slot_at sc p').
    destruct (slot_at sc p') as [s|] eqn:Hs; [|done]. simpl. destruct (s_locked s); [done|].
    destruct p' as [p'|]; [|done]. unfold slot_at in Hs. simpl in Hs.
    destruct (slots sc !! p') as [s'|] eqn:Hp; [|done]. simplify_eq.
    rewrite (lock_queue_eq (set_ring (on_available sc f) r) p' _ true Hp).
    rewrite (lock_queue_eq (set_ring sc r) p' _ true Hp). intros [= <- <-]. simpl. eauto. }
  destruct Hback as [sc1 Hs]. rewrite (drain_select_on _ _ _ _ Hs) in Hr. injection Hr as <-.
  destruct rs as [|p rs]; [destruct Hd; congruence|].
  destruct Hd as [Hd|(sc2 & Hd & _ & Hb)]; [congruence|]. rewrite Hs in Hd. injection Hd as -> ->.
  exists rs. apply Hb. simpl in Hf. lia.
Qed.

(** A consumer goes to sleep only on an empty ring. *)
Lemma waits_step sc ts rs Q f sc' :
  binv sc ts rs Q → drain_select (on_available sc f) = Ret (DrainWaits sc') →
  binv sc' ts [] Q.
Proof.
  intros Hinv Hr. assert (Hring := bi_ring _ _ _ _ Hinv).
  assert (rs = []) as ->.
  { destruct rs as [|p rs]; [done|]. unfold drain_select in Hr. simpl in Hr.
    rewrite (rg_cursor _ _ Hring) in Hr. cbn [head] in Hr.
    apply outcome_bind_Ret_inv in Hr as ([? ?] & _ & (s & _ & Hr)%outcome_bind_Ret_inv).
    destruct (s_locked s); [done|]. by apply outcome_bind_Ret_inv in Hr as (? & _ & ?). }
  unfold drain_select in Hr. simpl in Hr. rewrite (rg_cursor _ _ Hring) in Hr. simpl in Hr.
  injection Hr as <-. apply (cond_step sc _ _ _ (λ c, cond_sleep (f c))); [done|]. right. simpl. lia.
Qed.

Lemma effect_take Q Q' k xs (ds : list ptr) :
  Q !! k = Some xs → ds = Some <$> xs → Q' = <[k := []]> Q ∨ Q' = delete k Q →
  blabel_effect (LTake k ds) Q Q'.
Proof.
  intros HQ Hd HQ'. exists xs. split_and!; [done..|]. intros k'.
  destruct HQ' as [->| ->]; case_decide; subst;
    rewrite ?lookup_insert_eq, ?lookup_delete_eq, ?lookup_insert_ne, ?lookup_delete_ne by done; done.
Qed.

Lemma bstep_effect sc ts lab sc' ts' rs Q :
  bstep sc ts lab sc' ts' → binv sc ts rs Q →
  ∃ rs' Q', binv sc' ts' rs' Q' ∧ blabel_effect lab Q Q'.
Proof.
  intros Hstep Hinv.
  assert (Hother : ∀ sc ts rs, binv sc ts rs Q →
    ∃ rs' Q', binv sc ts rs' Q' ∧ blabel_effect LOther Q Q').
  { intros ? ? ? ?. eexists _, Q. by split. }
  pose proof (bi_cond _ _ _ _ Hinv) as Hcond.
  destruct Hstep as [sc ts key a ok sc' Hr|sc ts key a rest p slot max sc' Hts Hp Hr
    |sc ts key a rest p sc' Hts Hp Hr|sc ts key slot max a rest n need sc' Hts Hn Hr
    |sc ts key slot max a rest n sc' Hts Hr|sc ts a rest Hts|sc ts key slot rest sc' Hts Hr
    |sc ts slot sc' Hr|sc ts sc' Hr|sc ts slot sc' Hw Hr|sc ts sc' Hw Hr|sc ts Hw|sc ts Hw
    |sc ts slot rest s h hd ds sc' Hts Hs Hr Hd|sc ts h hd rest ds Hts Hd
    |sc ts key s sc' ds Hr Hd|sc ts s rest ds sc' Hts Hr|sc ts n|sc ts b];
    try (apply (binv_perm _ _ _ _ _ Hts) in Hinv).
  - injection Hr as <- <-. eapply Hother, reserve_step; [done|..]; by destruct (negb _).
  - destruct (lookup_step _ _ _ _ _ _ _ Hinv Hp) as [Hr'|(? & ? & ? & Q' & Hr' & ? & ?)];
      simplify_ret; eauto.
  - destruct (lookup_step _ _ _ _ _ _ _ Hinv Hp) as [Hr'|(? & ? & ? & Q' & Hr' & _)]; simplify_ret.
  - destruct (push_step _ _ _ _ _ _ _ _ n Hinv Hn) as (r & sc1 & Hr' & Hm).
    rewrite Hr in Hr'. injection Hr' as <- <-. destruct Hm as (Q' & ? & ?). eauto.
  - by eapply Hother, reject_step.
  - by eapply Hother, rollback_step.
  - destruct (append_step _ _ _ _ _ _ Hinv) as (sc1 & rs' & Hr' & ?). simplify_ret. by eapply Hother.
  - rewrite <-(on_available_id sc) in Hr. destruct (taken_step _ _ _ _ _ _ _ Hinv Hr); [lia|].
    by eapply Hother.
  - rewrite <-(on_available_id sc) in Hr. by eapply Hother, waits_step.
  - destruct (taken_step _ _ _ _ _ _ _ Hinv Hr) as [rs' ?]; [simpl; lia|]. by eapply Hother.
  - by eapply Hother, waits_step.
  - eapply Hother, cond_step; [done|]. simpl. lia.
  - eapply Hother, cond_step; [done|]. simpl. lia.
  - destruct (detach_step _ _ _ _ _ Hinv) as (s' & h' & hd' & sc1 & xs & Hs' & Hr' & Hd' & HQ & Hb).
    simplify_ret. eexists _, _. split; [done|]. eapply effect_take; [done|congruence|by left].
  - destruct (process_step _ _ _ _ _ _ Hinv) as (ds' & Hd' & Hb). simplify_ret. by eapply Hother.
  - destruct (drop_step _ _ _ _ key Hinv) as [[Hx _]|[Hx|(s' & sc1 & xs & rs' & Hr' & Hd' & HQ & Hb)]];
      simplify_ret. eexists _, _. split; [done|].
    eapply effect_take; [done|congruence|by right].
  - destruct (free_step _ _ _ _ _ Hinv) as (ds' & sc1 & Hr' & Hb). simplify_ret. by eapply Hother.
  - eapply Hother. destruct Hinv as [? Hv ? ? ? ? ? ? ?]. split; simpl; try done. by eapply view_ext.
  - eapply Hother. destruct Hinv as [? Hv ? ? ? ? ? ? ?]. split; simpl; try done. by eapply view_ext.
Qed.

(** ** Reachable states *)

Lemma init_binv t n : st_wf t → st_map t = ∅ → binv (batch_queue_init t n) [] [] ∅.
Proof.
  intros Ht Hm. split; simpl; try done.
  - apply ring_init_ok.
  - split; simpl; try done.
    + intros k v. by rewrite Hm, lookup_empty.
  - by intros ? []%elem_of_nil.
  - constructor.
  - intros k p xs (Hk & _). simpl in Hk. by rewrite Hm, lookup_empty in Hk.
  - by left.
Qed.

Definition accounts (tr : list blabel) (Q : agents) : Prop :=
  ∀ k, pushed k tr = taken k tr ++ (Some <$> default [] (Q !! k)).

Lemma accounts_step tr Q lab Q' :
  accounts tr Q → blabel_effect lab Q Q' → accounts (tr ++ [lab]) Q'.
Proof.
  intros Ha He k. specialize (Ha k). unfold pushed, taken in Ha |- *.
  rewrite !fmap_app, !concat_app, Ha. simpl.
  rewrite !app_nil_r. destruct lab as [k' a|k' ds|]; simpl in *.
  - destruct He as (xs & HQ & ->). rewrite app_nil_r. case_decide as Hk; [subst k'|].
    + rewrite lookup_insert_eq, HQ. simpl. by rewrite fmap_app, <-app_assoc.
    + by rewrite lookup_insert_ne, app_nil_r by done.
  - destruct He as (xs & HQ & -> & HQ'). rewrite HQ'. case_decide as Hk.
    + subst k'. rewrite decide_True by done. rewrite HQ. simpl. by rewrite !app_nil_r.
    + rewrite decide_False by congruence. by rewrite !app_nil_r.
  - by rewrite He, !app_nil_r.
Qed.

Lemma bexec_inv t n tr sc ts :
  st_wf t → st_map t = ∅ → bexec (batch_queue_init t n) [] tr sc ts →
  ∃ rs Q, binv sc ts rs Q ∧ accounts tr Q.
Proof.
  intros Ht Hm Hex. remember (batch_queue_init t n) as sc0 eqn:Hsc0.
  remember [] as ts0 eqn:Hts0.
  induction Hex as [sc ts|sc ts tr sc' ts' lab sc'' ts'' Hex IH Hstep]; subst.
  - exists [], ∅. split; [by apply init_binv|]. intros k. by rewrite lookup_empty.
  - destruct (IH eq_refl eq_refl) as (rs & Q & Hinv & Ha).
    destruct (bstep_effect _ _ _ _ _ _ _ Hstep Hinv) as (rs' & Q' & Hinv' & He).
    exists rs', Q'. split; [done|]. by eapply accounts_step.
Qed.

Lemma agent_size_spec sc ts rs Q k :
  binv sc ts rs Q → batch_queue_agent_size sc k = Ret (length (default [] (Q !! k))).
Proof.
  intros Hinv. pose proof (bi_view _ _ _ _ Hinv) as Hv. unfold batch_queue_agent_size.
  rewrite (st_get_eq _ _ _ Hv), outcome_bind_ret.
  destruct (st_map (agent_index sc) !! k) as [v|] eqn:Hk.
  - destruct (view_found _ _ _ _ Hv Hk) as (p & s & xs & -> & Hs & _ & -> & Hq & _).
    rewrite (slot_at_eq _ _ _ Hs). simpl. by rewrite (queue_is_elements _ _ Hq).
  - by rewrite (view_absent _ _ _ Hv Hk).
Qed.

(** One undisturbed turn: the first agent of the round loses its whole queue. *)
Lemma drain_next_quiet sc p rs Q :
  binv sc [] (p :: rs) Q →
  ∃ k xs sc', agent_at sc k p xs ∧ Q !! k = Some xs ∧
    batch_queue_drain_next_ex sc = Ret (Some (k, Some <$> xs, sc')) ∧
    binv sc' [] rs (<[k := []]> Q) ∧ agent_index sc' = agent_index sc.
Proof.
  intros Hinv. destruct (bi_rs _ _ _ _ Hinv p) as [s Hs]; [by left|].
  pose proof (bi_view _ _ _ _ Hinv) as Hv.
  destruct (view_at _ _ _ _ Hv Hs) as (xs & HQ & Hq & Hat).
  destruct (drain_step _ _ _ _ Hinv) as [Hbusy|(sc1 & Hd & Hav & Hb)].
  { exfalso. revert Hbusy. unfold drain_select. rewrite (rg_cursor _ _ (bi_ring _ _ _ _ Hinv)).
    cbn [head]. destruct (ring_take_spec _ _ _ (bi_ring _ _ _ _ Hinv)) as (r & -> & _).
    rewrite outcome_bind_ret, (slot_at_eq _ _ _ Hs), outcome_bind_ret.
    destruct (s_locked s) eqn:Hl; [|by rewrite (lock_queue_eq (set_ring sc r) p s)].
    pose proof (bi_locked _ _ _ _ Hinv _ _ Hs Hl) as Hx. by apply elem_of_nil in Hx. }
  specialize (Hb (λ c, c)). rewrite on_available_id in Hb.
  destruct (detach_step sc1 [] rs Q (Some p)) as (s' & h & hd & sc2 & ys & Hs' & Hdt & Hpr & HQ' & Hinv2).
  { apply Hb. destruct (bi_cond _ _ _ _ Hinv) as [?|Hc]; [by left|right]. simpl in Hc. lia. }
  assert (Hss : s_key s' = s_key s ∧ slots sc2 = <[p := mk_slot (s_key s) linked_queue_init false]> (slots sc)
                ∧ agent_index sc2 = agent_index sc).
  { revert Hd. unfold drain_select. rewrite (rg_cursor _ _ (bi_ring _ _ _ _ Hinv)). cbn [head].
    destruct (ring_take_spec _ _ _ (bi_ring _ _ _ _ Hinv)) as (r & -> & _).
    rewrite outcome_bind_ret, (slot_at_eq _ _ _ Hs), outcome_bind_ret.
    destruct (s_locked s); [done|]. rewrite (lock_queue_eq (set_ring sc r) p s) by done.
    intros [= <-]. revert Hs' Hdt. unfold drain_detach, slot_at, put_slot. simpl.
    rewrite lookup_insert_eq. simpl. intros [= <-] [= _ _ <-]. simpl.
    by rewrite insert_insert_eq. }
  destruct Hss as (Hkk & Hsl & Hix). rewrite Hkk in *. rewrite HQ in HQ'. injection HQ' as <-.
  destruct (process_step _ _ _ _ _ _ Hinv2) as (ds & Hds & Hinv3).
  assert (ds = Some <$> xs) as -> by congruence.
  exists (s_key s), xs, (drain_finish sc2 (length (Some <$> xs))). split_and!; [done..| |done|].
  - unfold batch_queue_drain_next_ex. rewrite Hd, outcome_bind_ret, Hs', outcome_bind_ret.
    rewrite Hdt, outcome_bind_ret, Hds, outcome_bind_ret. by rewrite Hkk.
  - rewrite <-Hix. unfold drain_finish. by case_decide.
Qed.

(** What the turns [out] delivered to agent [k]. *)
Definition delivered (k : string) (out : list (string * list ptr)) : list ptr :=
  concat ((λ o, if decide (o.1 = k) then o.2 else []) <$> out).

Lemma quiet_empty sc Q k : binv sc [] [] Q → default [] (Q !! k) = [].
Proof.
  intros Hinv. destruct (Q !! k) as [xs|] eqn:HQ; [|done]. simpl.
  destruct (decide (xs = [])) as [|Hne]; [done|]. exfalso.
  destruct (vw_agent _ _ (bi_view _ _ _ _ Hinv) _ _ HQ) as [p Ha].
  destruct (bi_pending _ _ _ _ Hinv k p xs Ha Hne) as [Hx|Hx]; [apply not_elem_of_nil|..];
    by apply elem_of_nil in Hx.
Qed.

Lemma drain_turns_spec rs sc Q :
  binv sc [] rs Q →
  ∃ out sc' Q', drain_turns (length rs) sc = Ret (out, sc') ∧ binv sc' [] [] Q' ∧
    length out = length rs ∧ NoDup out.*1 ∧
    (∀ k, k ∈ out.*1 → ∃ p, p ∈ rs ∧ st_map (agent_index sc) !! k = Some (Some p)) ∧
    ∀ k, delivered k out = Some <$> default [] (Q !! k).
Proof.
  revert sc Q. induction rs as [|p rs IH]; intros sc Q Hinv.
  { exists [], sc, Q. split_and!; [done..|constructor|by intros ? []%elem_of_nil|].
    intros k. by rewrite (quiet_empty _ _ _ Hinv). }
  destruct (drain_next_quiet _ _ _ _ Hinv) as (k & xs & sc1 & [Hkp _] & HQ & Hr & Hinv1 & Hix).
  destruct (IH _ _ Hinv1) as (out & sc2 & Q2 & Ho & Hinv2 & Hl & Hnd & Hks & Hdel).
  exists ((k, Some <$> xs) :: out), sc2, Q2. rewrite Hix in Hks. simpl.
  rewrite Hr. simpl. rewrite Ho. split_and!; [done|done|by rewrite <-Hl|..].
  - constructor; [|done]. intros (p' & Hp' & Hk)%Hks. simplify_eq.
    pose proof (rg_nodup _ _ (bi_ring _ _ _ _ Hinv)) as Hn. by apply NoDup_cons in Hn as [? _].
  - intros k' [->|Hk']%elem_of_cons; [exists p; split; [by left|done]|].
    destruct (Hks k' Hk') as (p' & ? & ?). exists p'. split; [by right|done].
  - intros k'. unfold delivered in *. simpl. rewrite Hdel. case_decide as Hk.
    + subst k'. rewrite lookup_insert_eq, HQ. simpl. by rewrite app_nil_r.
    + by rewrite lookup_insert_ne.
Qed.

Lemma free_slots_spec sc (Q : agents) l :
  NoDup l.*1 →
  (∀ k v, (k, v) ∈ l → ∃ p s xs, v = Some p ∧ slots sc !! p = Some s ∧ s_key s = k ∧
     Q !! k = Some xs ∧ queue_is (s_q s) xs) →
  free_slots sc l = Ret (l.*1 ≫= λ k, Some <$> default [] (Q !! k)).
Proof.
  revert sc. induction l as [|[k v] l IH]; intros sc Hnd Hl; [done|]. csimpl in Hnd.
  apply NoDup_cons in Hnd as [Hk Hnd].
  destruct (Hl k v) as (p & s & xs & -> & Hs & Hsk & HQ & Hq); [by left|].
  simpl. unfold take_slot. simpl. rewrite Hs. simpl.
  unfold free_slot, steal_chain. rewrite (chain_walk_spec _ _ Hq). simpl.
  rewrite IH; [simpl; by rewrite HQ|done|]. intros k' v' Hin.
  destruct (Hl k' v') as (p' & s' & xs' & -> & Hs' & Hsk' & ? & ?); [by right|].
  exists p', s', xs'. split_and!; try done. simpl. rewrite lookup_delete_ne; [done|].
  intros ->. simplify_eq. apply Hk. apply list_elem_of_fmap. by eexists (_, _).
Qed.

(** All queued items, agent by agent. *)
Definition queued (Q : agents) : list ptr := map_to_list Q ≫= λ kx, Some <$> kx.2.

Lemma queued_keys (Q : agents) :
  ((map_to_list Q).*1 ≫= λ k, Some <$> default [] (Q !! k)) = queued Q.
Proof.
  assert (∀ l, (∀ kx, kx ∈ l → kx ∈ map_to_list Q) →
    (l.*1 ≫= λ k, Some <$> default [] (Q !! k)) = l ≫= λ kx, Some <$> kx.2) as Hl; [|by apply Hl].
  intros l. induction l as [|[k xs] l IH]; intros Hin; [done|]. csimpl. rewrite IH.
  - f_equal. assert (Q !! k = Some xs) as -> by (by apply elem_of_map_to_list, Hin; left). done.
  - intros kx Hx. apply Hin. by right.
Qed.

Lemma queued_length (Q : agents) : length (queued Q) = qsum Q.
Proof.
  induction Q as [|k xs Q Hk IH] using map_ind; [done|]. unfold queued in *.
  rewrite map_to_list_insert, qsum_insert by done. csimpl. by rewrite length_app, length_fmap, IH.
Qed.

(** ** Properties *)

(** C16: In every interleaving of producers, consumers and droppers, the items of an
    agent leave its queue in the order in which they entered it, none is lost and
    none is duplicated; [batch_queue_agent_size] is the number still queued. *)
Theorem batch_queue_fifo t n tr sc ts :
  st_wf t → st_map t = ∅ → bexec (batch_queue_init t n) [] tr sc ts →
  ∀ k, ∃ xs : list A, pushed k tr = taken k tr ++ (Some <$> xs) ∧
    batch_queue_agent_size sc k = Ret (length xs).
Proof.
  intros Ht Hm Hex k. destruct (bexec_inv _ _ _ _ _ Ht Hm Hex) as (rs & Q & Hinv & Ha).
  exists (default [] (Q !! k)). split; [apply Ha|by eapply agent_size_spec].
Qed.

(** C17: No agent is stranded.  In every reachable state an agent with queued items
    is in the ring, or a producer is about to put it there, or a consumer is about
    to take its items; and a consumer that sleeps while the ring is not empty is
    owed a signal already sent. *)
Theorem batch_queue_never_strands t n tr sc ts k m :
  st_wf t → st_map t = ∅ → bexec (batch_queue_init t n) [] tr sc ts →
  batch_queue_agent_size sc k = Ret (S m) →
  (∃ p l, st_map (agent_index sc) !! k = Some (Some p) ∧ links (s_ring sc) !! p = Some l ∧
     (r_in_ring l = true ∨ PAppend k (Some p) ∈ ts ∨ DLocked (Some p) ∈ ts)) ∧
  (0 < asleep (any_available sc) → batch_queue_empty sc = false →
     0 < signalled (any_available sc)).
Proof.
  intros Ht Hm Hex Hs. destruct (bexec_inv _ _ _ _ _ Ht Hm Hex) as (rs & Q & Hinv & _).
  rewrite (agent_size_spec _ _ _ _ _ Hinv) in Hs. injection Hs as Hs.
  destruct (Q !! k) as [xs|] eqn:HQ; [|done]. simpl in Hs.
  destruct (vw_agent _ _ (bi_view _ _ _ _ Hinv) _ _ HQ) as [p Ha].
  destruct (view_found _ _ _ _ (bi_view _ _ _ _ Hinv) (proj1 Ha)) as (p' & _ & _ & [= <-] & _ & _ & _ & _ & [l Hl]).
  split.
  - exists p, l. split_and!; [apply Ha|done|]. rewrite (ring_in_ring _ _ _ _ (bi_ring _ _ _ _ Hinv) Hl).
    destruct (decide (p ∈ rs)) as [Hin|Hout]; [left; by apply bool_decide_true|right].
    eapply bi_pending; [done..| |done]. by intros ->.
  - intros Has He. apply bool_decide_eq_false in He.
    rewrite (rg_cursor _ _ (bi_ring _ _ _ _ Hinv)) in He.
    destruct (bi_cond _ _ _ _ Hinv) as [Hc|Hc]; [lia|]. destruct rs; [done|]. simpl in Hc. lia.
Qed.

(** C19: When no operation is under way, one turn of the consumer per slot in the
    ring delivers everything: each agent is served at most once, its items in
    order, and afterwards the ring is empty and the item count is zero. *)
Theorem batch_queue_drains_all t n tr sc :
  st_wf t → st_map t = ∅ → bexec (batch_queue_init t n) [] tr sc [] →
  ∃ out sc', drain_turns (batch_queue_ring_size sc) sc = Ret (out, sc') ∧
    length out = batch_queue_ring_size sc ∧ NoDup out.*1 ∧
    (∀ k, pushed k tr = taken k tr ++ delivered k out) ∧
    batch_queue_empty sc' = true ∧ batch_queue_size sc' = 0%Z.
Proof.
  intros Ht Hm Hex. destruct (bexec_inv _ _ _ _ _ Ht Hm Hex) as (rs & Q & Hinv & Ha).
  destruct (drain_turns_spec _ _ _ Hinv) as (out & sc' & Q' & Ho & Hinv' & Hl & Hnd & _ & Hdel).
  exists out, sc'. unfold batch_queue_ring_size. rewrite (rg_count _ _ (bi_ring _ _ _ _ Hinv)).
  split_and!; [done..| | |].
  - intros k. rewrite Hdel. apply Ha.
  - apply bool_decide_true. by rewrite (rg_cursor _ _ (bi_ring _ _ _ _ Hinv')).
  - unfold batch_queue_size. rewrite (bi_items _ _ _ _ Hinv'). simpl. rewrite Nat.add_0_r.
    assert (qsum Q' = 0) as ->; [|done]. pose proof (λ k, quiet_empty _ _ k Hinv') as He. clear -He.
    induction Q' as [|k xs Q' Hk IH] using map_ind; [done|]. rewrite qsum_insert by done.
    pose proof (He k) as Hx. rewrite lookup_insert_eq in Hx. simpl in Hx. subst xs. simpl. apply IH.
    intros k'. specialize (He k'). destruct (decide (k' = k)) as [->|Hne]; [by rewrite Hk|].
    by rewrite lookup_insert_ne in He.
Qed.

(** The global item count is exact: in every reachable state it is the number of
    queued items plus those of the operations under way, so it is never negative,
    and [batch_queue_free] at rest disposes of exactly the queued items. *)
Theorem batch_queue_counts t n tr sc ts :
  st_wf t → st_map t = ∅ → bexec (batch_queue_init t n) [] tr sc ts →
  ∃ Q : agents, (∀ k, pushed k tr = taken k tr ++ (Some <$> default [] (Q !! k))) ∧
    batch_queue_size sc = Z.of_nat (qsum Q + sum_list (inflight <$> ts)) ∧
    ∃ ds, batch_queue_free sc = Ret ds ∧ length ds = qsum Q ∧ ds ≡ₚ queued Q.
Proof.
  intros Ht Hm Hex. destruct (bexec_inv _ _ _ _ _ Ht Hm Hex) as (rs & Q & Hinv & Ha).
  exists Q. split_and!; [done|apply Hinv|]. pose proof (bi_view _ _ _ _ Hinv) as Hv.
  destruct (st_iter_spec (agent_index sc) (vw_index _ _ Hv)) as (l & Hl & Hp).
  unfold batch_queue_free. rewrite Hl, outcome_bind_ret.
  assert (Hkeys : l.*1 ≡ₚ (map_to_list Q).*1).
  { rewrite Hp. apply NoDup_Permutation; [apply NoDup_fst_map_to_list..|]. intros k.
    rewrite !list_elem_of_fmap. split; intros ([k' v] & -> & Hin); apply elem_of_map_to_list in Hin.
    - destruct (vw_known _ _ Hv _ _ Hin) as (p & xs & -> & HQ & _). exists (k', xs).
      split; [done|]. by apply elem_of_map_to_list.
    - destruct (vw_agent _ _ Hv _ _ Hin) as (p & Hk & _). exists (k', Some p).
      split; [done|]. by apply elem_of_map_to_list. }
  rewrite (free_slots_spec _ Q).
  - assert (Hd : (l.*1 ≫= λ k, Some <$> default [] (Q !! k)) ≡ₚ queued Q).
    { by rewrite <-queued_keys, Hkeys. }
    eexists. split_and!; [done| |done]. by rewrite Hd, queued_length.
  - rewrite Hp. apply NoDup_fst_map_to_list.
  - intros k v Hin. rewrite Hp in Hin. apply elem_of_map_to_list in Hin.
    destruct (view_found _ _ _ _ Hv Hin) as (p & s & xs & ? & ? & ? & ? & ? & _). eauto 10.
Qed.

(** The next critical section of a thread returns. *)
Definition section_returns (sc : sched) (t : thread) : Prop :=
  match t with
  | PReserved key _ => ∀ p, slots sc !! p = None → ∃ r, enqueue_lookup sc key p = Ret r
  | PLocked _ slot max a => ∃ s, slot_at sc slot = Ret s ∧
      ∀ n, nodes (s_q s) !! n = None → ∃ r, enqueue_push sc slot max n (Some a) = Ret r
  | PRefused _ => True
  | PAppend key slot => ∃ sc', enqueue_ring sc key slot = Ret sc'
  | DLocked slot => ∃ r, drain_detach sc slot = Ret r
  | DProcess h hd => ∃ ds, drain_process h hd = Ret ds
  | RFree s => ∃ r, free_slot sc s true = Ret r
  end.

(** C18: Memory safety and absence of deadlock.  In every reachable state the next
    critical section of every operation under way, and of every operation that
    could start, returns: no pointer to a freed slot or node is followed, although
    agents are dropped while producers and consumers use them.  A consumer that
    finds the queue of its agent locked waits for a thread that holds only that
    lock. *)
Theorem batch_queue_safe t n tr sc ts :
  st_wf t → st_map t = ∅ → bexec (batch_queue_init t n) [] tr sc ts →
  Forall (section_returns sc) ts ∧ (∃ r, drain_select sc = Ret r) ∧
  (∀ key, ∃ r, drop_select sc key = Ret r) ∧
  (drain_select sc = Ret DrainBusy → ∃ th, th ∈ ts ∧ is_Some (holder th)).
Proof.
  intros Ht Hm Hex. destruct (bexec_inv _ _ _ _ _ Ht Hm Hex) as (rs & Q & Hinv & _).
  split_and!.
  - apply Forall_forall. intros th Hin. apply list_elem_of_split in Hin as (ts1 & ts2 & ->).
    apply (binv_perm _ _ (th :: ts1 ++ ts2)) in Hinv; [|by rewrite Permutation_middle].
    destruct th; simpl.
    + intros p Hp. destruct (lookup_step _ _ _ _ _ _ _ Hinv Hp) as [->|(? & ? & ? & ? & -> & _)]; eauto.
    + pose proof (bi_threads _ _ _ _ Hinv) as [(p & s & -> & Hs & _) _]%Forall_cons.
      exists s. split; [by apply slot_at_eq|]. intros m Hm'.
      destruct (push_step _ _ _ _ _ _ _ _ m Hinv) as (r & sc1 & -> & _); [|eauto].
      intros s' Hs'. rewrite (slot_at_eq _ _ _ Hs) in Hs'. by simplify_eq.
    + done.
    + destruct (append_step _ _ _ _ _ _ Hinv) as (? & ? & ? & _). eauto.
    + destruct (detach_step _ _ _ _ _ Hinv) as (? & ? & ? & ? & ? & _ & ? & _). eauto.
    + destruct (process_step _ _ _ _ _ _ Hinv) as (? & ? & _). eauto.
    + destruct (free_step _ _ _ _ _ Hinv) as (? & ? & ? & _). eauto.
  - pose proof (drain_step _ _ _ _ Hinv) as Hd. destruct rs as [|p rs]; [destruct Hd; eauto|].
    destruct Hd as [?|(? & ? & _)]; eauto.
  - intros key. destruct (drop_step _ _ _ _ key Hinv) as [[? _]|[?|(? & ? & ? & ? & ? & _)]]; eauto.
  - intros Hb. pose proof (drain_step _ _ _ _ Hinv) as Hd. destruct rs as [|p rs]; [destruct Hd; congruence|].
    destruct (bi_rs _ _ _ _ Hinv p) as [s Hs]; [by left|].
    destruct (s_locked s) eqn:Hl.
    + pose proof (bi_locked _ _ _ _ Hinv _ _ Hs Hl) as Hx.
      apply list_elem_of_omap in Hx as (th & ? & Hh). exists th. rewrite Hh. eauto.
    + exfalso. revert Hb. unfold drain_select. rewrite (rg_cursor _ _ (bi_ring _ _ _ _ Hinv)).
      cbn [head]. destruct (ring_take_spec _ _ _ (bi_ring _ _ _ _ Hinv)) as (r & -> & _).
      rewrite outcome_bind_ret, (slot_at_eq _ _ _ Hs), outcome_bind_ret, Hl.
      by rewrite (lock_queue_eq (set_ring sc r) p s).
Qed.

End batch_queue.

Arguments sched : clear implicits.
Arguments thread : clear implicits.
Arguments blabel : clear implicits.
