(* ===== verification/Scheduler.v ===== *)
(** * The batch queue over the hash map

    [batch_queue_init] creates the agent index with [hm_init (64)].  The theorems
    of [BatchQueue] hold for every table with the laws of [StrTable]; here they
    are applied to the [HashMap]. *)

From stdpp Require Import base numbers list gmap strings.
From Stdlib Require Import Lia.
From S2P Require Import Prelude StrMap LinkedQueue Ring HashMap BatchQueue.

(** The index of a new scheduler. *)
Definition agent_index_init : hashmap loc :=
  match hm_init 64 with Ret hm => hm | Stuck _ => mk_hashmap [] 0 0 0 end.

Lemma agent_index_init_ok : st_wf agent_index_init ∧ st_map agent_index_init = ∅.
Proof.
  destruct (hm_init_spec (V := loc) 64 ltac:(lia)) as (hm & Hi & Hwf & Hm & _).
  unfold agent_index_init. by rewrite Hi.
Qed.

Definition new_scheduler (max_items_global : nat) : sched nat (hashmap loc) :=
  batch_queue_init agent_index_init max_items_global.

(** ** A run: two items for agent 001, one for agent 002, one turn of the consumer *)

(** One item is enqueued without interference: its slot, if it is new, is at [p]
    and its node at [n]. *)
Definition enqueue_alone (sc : sched nat (hashmap loc)) (key : string) (a : nat) (p n : loc)
    : outcome (sched nat (hashmap loc)) :=
  let sc := (enqueue_reserve sc).2 in
  r ← enqueue_lookup sc key p;
  match r with
  | QueueLocked slot max sc =>
      '(r, sc) ← enqueue_push sc slot max n (Some a);
      match r with
      | Some true => enqueue_ring sc key slot
      | _ => Ret sc
      end
  | _ => Ret sc
  end.

Lemma enqueue_alone_bexec s0 tr sc (Hex : bexec s0 [] tr sc [])
    key a p n slot max sc1 need sc2 sc3 :
  (enqueue_reserve sc).1 = true → slots sc !! p = None →
  enqueue_lookup (enqueue_reserve sc).2 key p = Ret (QueueLocked slot max sc1) →
  (∀ s, slot_at sc1 slot = Ret s → nodes (s_q s) !! n = None) →
  enqueue_push sc1 slot max n (Some a) = Ret (Some need, sc2) →
  (if need then enqueue_ring sc2 key slot = Ret sc3 else sc2 = sc3) →
  enqueue_alone sc key a p n = Ret sc3 ∧
  bexec s0 [] (tr ++ [LOther; LOther; LPush key a] ++ if need then [LOther] else []) sc3 [].
Proof.
  intros Hr Hp Hl Hn Hpush Hring. split.
  { unfold enqueue_alone. rewrite Hl. simpl. rewrite Hpush. simpl.
    destruct need; [done|by subst]. }
  destruct (enqueue_reserve sc) as [ok sc0] eqn:Hres. simpl in *. subst ok.
  pose proof (step_reserve sc [] key a true sc0 Hres) as S1.
  pose proof (bexec_snoc _ _ _ _ _ _ _ _ Hex S1) as E1.
  assert (Hp0 : slots sc0 !! p = None).
  { unfold enqueue_reserve in Hres. simplify_eq. done. }
  pose proof (step_lookup sc0 _ key a [] p slot max sc1 (Permutation_refl [PReserved key a]) Hp0 Hl) as S2.
  pose proof (bexec_snoc _ _ _ _ _ _ _ _ E1 S2) as E2.
  pose proof (step_push sc1 _ key slot max a [] n need sc2 (Permutation_refl [PLocked key slot max a]) Hn Hpush) as S3.
  pose proof (bexec_snoc _ _ _ _ _ _ _ _ E2 S3) as E3. rewrite <-!app_assoc in E3. simpl in E3.
  destruct need; [|by subst].
  pose proof (step_append sc2 _ key slot [] sc3 (Permutation_refl [PAppend key slot]) Hring) as S4.
  pose proof (bexec_snoc _ _ _ _ _ _ _ _ E3 S4) as E4. by rewrite <-!app_assoc in E4.
Qed.

Definition demo_sched : sched nat (hashmap loc) :=
  match (sc ← enqueue_alone (new_scheduler 10) "001" 7 1 1;
         sc ← enqueue_alone sc "002" 8 2 1;
         enqueue_alone sc "001" 9 3 2)
  with Ret sc => sc | Stuck _ => new_scheduler 10 end.

Definition demo_trace : list (blabel nat) :=
  [LOther; LOther; LPush "001" 7; LOther; LOther; LOther; LPush "002" 8; LOther; LOther; LOther;
   LPush "001" 9].

Lemma demo_bexec : bexec (new_scheduler 10) [] demo_trace demo_sched [].
Proof.
  unfold demo_sched.
  edestruct (enqueue_alone_bexec _ _ _ (bexec_nil (new_scheduler 10) []) "001" 7 1 1) as [H1 E1];
    [vm_compute; reflexivity..| | | |].
  1: vm_compute; intros s [= <-]; reflexivity.
  1: vm_compute; reflexivity.
  1: vm_compute; reflexivity.
  rewrite H1, outcome_bind_ret.
  edestruct (enqueue_alone_bexec _ _ _ E1 "002" 8 2 1) as [H2 E2];
    [vm_compute; reflexivity..| | | |].
  1: vm_compute; intros s [= <-]; reflexivity.
  1: vm_compute; reflexivity.
  1: vm_compute; reflexivity.
  rewrite H2, outcome_bind_ret.
  edestruct (enqueue_alone_bexec _ _ _ E2 "001" 9 3 2) as [H3 E3];
    [vm_compute; reflexivity..| | | |].
  1: vm_compute; intros s [= <-]; reflexivity.
  1: vm_compute; reflexivity.
  1: vm_compute; reflexivity.
  rewrite H3. exact E3.
Qed.

(** *** Witnesses *)

Lemma batch_queue_fifo_witness :
  ∃ xs : list nat, pushed "001" demo_trace = taken "001" demo_trace ++ (Some <$> xs) ∧
    batch_queue_agent_size demo_sched "001" = Ret (length xs).
Proof.
  destruct agent_index_init_ok as [Ht Hm].
  apply (batch_queue_fifo agent_index_init 10 demo_trace demo_sched [] Ht Hm demo_bexec).
Defined.

Lemma batch_queue_never_strands_witness :
  ∃ p l, st_map (agent_index demo_sched) !! "001" = Some (Some p) ∧
    links (s_ring demo_sched) !! p = Some l ∧ r_in_ring l = true.
Proof.
  destruct agent_index_init_ok as [Ht Hm].
  destruct (batch_queue_never_strands agent_index_init 10 demo_trace demo_sched [] "001" 1
    Ht Hm demo_bexec) as [(p & l & Hk & Hl & Hin) _]; [vm_compute; reflexivity|].
  exists p, l. split_and!; [exact Hk|exact Hl|].
  destruct Hin as [Hin|[Hin|Hin]]; [exact Hin|inversion Hin|inversion Hin].
Defined.

Lemma batch_queue_drains_all_witness :
  ∃ out sc', drain_turns 2 demo_sched = Ret (out, sc') ∧ length out = 2 ∧
    delivered "001" out = [Some 7; Some 9] ∧ batch_queue_size sc' = 0%Z.
Proof.
  destruct agent_index_init_ok as [Ht Hm].
  destruct (batch_queue_drains_all agent_index_init 10 demo_trace demo_sched Ht Hm demo_bexec)
    as (out & sc' & Ho & Hl & _ & Hk & _ & Hs).
  exists out, sc'. split_and!; [exact Ho|exact Hl| |exact Hs].
  symmetry. exact (Hk "001").
Defined.

Lemma batch_queue_counts_witness :
  ∃ Q : gmap string (list nat), batch_queue_size demo_sched = Z.of_nat (qsum Q + 0) ∧
    ∃ ds, batch_queue_free demo_sched = Ret ds ∧ length ds = qsum Q.
Proof.
  destruct agent_index_init_ok as [Ht Hm].
  destruct (batch_queue_counts agent_index_init 10 demo_trace demo_sched [] Ht Hm demo_bexec)
    as (Q & _ & Hs & ds & Hf & Hl & _).
  exists Q. split; [exact Hs|]. exists ds. split; [exact Hf|exact Hl].
Defined.

Lemma batch_queue_safe_witness : ∃ r, drop_select demo_sched "002" = Ret r.
Proof.
  destruct agent_index_init_ok as [Ht Hm].
  apply (batch_queue_safe agent_index_init 10 demo_trace demo_sched [] Ht Hm demo_bexec).
Defined.
