(* ===== verification/IndexedQueue.v ===== *)
(** * The indexed queue of [shared/src/indexed_queue_op.c]

    A FIFO queue whose elements are also reachable by key: a linked queue of the
    data, and a dictionary from the keys to heap-allocated entries, each of which
    points at the data and at the queue node.  The linked queue is the heap model
    of [LinkedQueue]; the dictionary is any implementation of the class [StrMap],
    which [RBTree] provides.  The entries are a part of the heap of their own, so
    that the three structures can get out of step, and the theorems show that
    they do not. *)

From stdpp Require Import base numbers list gmap strings.
From Stdlib Require Import Lia ZArith.
From S2P Require Import Prelude LinkedQueue CString StrMap RBTree.

Section indexed_queue.
Context {A : Type} `{EqDecision A} {T : Type} `{StrMapLaws loc T}.

(** [malloc], for the queue nodes and for the entries: the address depends on the
    ones in use. *)
Context (malloc_node malloc_entry : gset loc → loc).

(** ** Data *)

Record entry : Type := mk_entry {
  en_key : string;
  en_data : A;
  en_node : option loc;
}.

Record indexed_queue : Type := mk_iq {
  iqueue : linked_queue A;
  index : T;
  entries : gmap loc entry;
  max_size : nat;
  current_size : nat;
  dispose : bool;
  get_key : option (A → option string);
}.

Definition set_iqueue (q : indexed_queue) (lq : linked_queue A) : indexed_queue :=
  mk_iq lq (index q) (entries q) (max_size q) (current_size q) (dispose q) (get_key q).

Definition set_entries (q : indexed_queue) (es : gmap loc entry) : indexed_queue :=
  mk_iq (iqueue q) (index q) es (max_size q) (current_size q) (dispose q) (get_key q).

Definition set_index (q : indexed_queue) (t : T) : indexed_queue :=
  mk_iq (iqueue q) t (entries q) (max_size q) (current_size q) (dispose q) (get_key q).

Definition set_current_size (q : indexed_queue) (n : nat) : indexed_queue :=
  mk_iq (iqueue q) (index q) (entries q) (max_size q) n (dispose q) (get_key q).

(** [atomic_fetch_sub] on a [size_t]. *)
Definition fetch_sub (n : nat) : nat :=
  match n with O => 2 ^ 64 - 1 | S m => m end.

(** ** Operations *)

(** The disposal function of the index. *)
Definition indexed_queue_entry_free (es : gmap loc entry) (e : loc) : outcome (gmap loc entry) :=
  _ ← c_deref (es !! e); Ret (delete e es).

Fixpoint free_entries (es : gmap loc entry) (gone : list loc) : outcome (gmap loc entry) :=
  match gone with
  | [] => Ret es
  | e :: gone => es' ← indexed_queue_entry_free es e; free_entries es' gone
  end.

Definition indexed_queue_init (max : nat) : indexed_queue :=
  mk_iq linked_queue_init (sm_set_dispose sm_empty true) ∅ max 0 false None.

Definition indexed_queue_set_dispose (q : indexed_queue) (d : bool) : indexed_queue :=
  mk_iq (iqueue q) (index q) (entries q) (max_size q) (current_size q) d (get_key q).

Definition indexed_queue_set_get_key (q : indexed_queue) (f : option (A → option string))
    : indexed_queue :=
  mk_iq (iqueue q) (index q) (entries q) (max_size q) (current_size q) (dispose q) f.

Definition indexed_queue_empty (q : indexed_queue) : bool :=
  bool_decide (current_size q = 0).

Definition indexed_queue_full (q : indexed_queue) : bool :=
  if decide (max_size q = 0) then false else bool_decide (max_size q ≤ current_size q).

Definition indexed_queue_size (q : indexed_queue) : nat := current_size q.

(** [rbtree_delete] on the index, which frees the entry. *)
Definition index_delete (q : indexed_queue) (key : string) : outcome indexed_queue :=
  '(t, _, gone) ← sm_delete (index q) key;
  es ← free_entries (entries q) gone;
  Ret (set_entries (set_index q t) es).

(** [dup] tells whether [strdup] found memory. *)
Definition indexed_queue_push (q : indexed_queue) (key : option string) (data : option A)
    (dup : bool) : outcome (Z * indexed_queue) :=
  match key, data with
  | Some k, Some a =>
      if indexed_queue_full q then Ret ((-1)%Z, q)
      else match sm_get (index q) k with
      | Some _ => Ret ((-1)%Z, q)
      | None =>
          if dup then
            let e := malloc_entry (dom (entries q)) in
            '(node, lq) ← linked_queue_push (iqueue q) (malloc_node (dom (nodes (iqueue q)))) (Some a);
            let es := <[e := mk_entry k a node]> (entries q) in
            '(t, ok) ← sm_insert (index q) k (Some e);
            if (ok : bool) then
              Ret (0%Z, mk_iq lq t es (max_size q) (current_size q + 1) (dispose q) (get_key q))
            else
              '(_, lq') ← linked_queue_pop lq;
              Ret ((-1)%Z, set_iqueue q lq')
          else Ret ((-1)%Z, q)
      end
  | _, _ => Ret ((-1)%Z, q)
  end.

(** [entry->data = data; entry->queue_node->data = data]. *)
Definition entry_set_data (q : indexed_queue) (e : loc) (a : A) : outcome indexed_queue :=
  en ← c_deref (entries q !! e);
  let es := <[e := mk_entry (en_key en) a (en_node en)]> (entries q) in
  h ← set_data (nodes (iqueue q)) (en_node en) (Some a);
  Ret (set_entries (set_iqueue q (mk_linked_queue h (first (iqueue q)) (last (iqueue q))
                                    (elements (iqueue q)))) es).

Definition dispose_data (q : indexed_queue) (a : A) : list A :=
  if dispose q then [a] else [].

(** The update of an existing entry, with the data disposed of. *)
Definition upsert_found (q : indexed_queue) (e : loc) (a : A) : outcome (list A * indexed_queue) :=
  en ← c_deref (entries q !! e);
  q' ← entry_set_data q e a;
  Ret (dispose_data q (en_data en), q').

Definition indexed_queue_upsert (q : indexed_queue) (key : option string) (data : option A)
    (dup : bool) : outcome (Z * list A * indexed_queue) :=
  match key, data with
  | Some k, Some a =>
      match sm_get (index q) k with
      | Some e => '(gone, q') ← upsert_found q e a; Ret (0%Z, gone, q')
      | None => '(r, q') ← indexed_queue_push q key data dup; Ret (r, [], q')
      end
  | _, _ => Ret ((-1)%Z, [], q)
  end.

Definition indexed_queue_get (q : indexed_queue) (key : option string) : outcome (option A) :=
  match key with
  | None => Ret None
  | Some k =>
      match sm_get (index q) k with
      | Some e => en ← c_deref (entries q !! e); Ret (Some (en_data en))
      | None => Ret None
      end
  end.

Definition indexed_queue_peek (q : indexed_queue) : outcome (option A) :=
  if indexed_queue_empty q then Ret None
  else match first (iqueue q) with
       | Some _ => n ← node_at (nodes (iqueue q)) (first (iqueue q)); Ret (nd_data n)
       | None => Ret None
       end.

(** The search of [indexed_queue_pop] without a callback. *)
Fixpoint find_key (q : indexed_queue) (keys : list string) (a : A) : outcome (option string) :=
  match keys with
  | [] => Ret None
  | k :: keys =>
      match sm_get (index q) k with
      | None => find_key q keys a
      | Some e =>
          en ← c_deref (entries q !! e);
          if decide (en_data en = a) then Ret (Some k) else find_key q keys a
      end
  end.

Definition indexed_queue_pop (q : indexed_queue) : outcome (option A * indexed_queue) :=
  if indexed_queue_empty q then Ret (None, q)
  else
    '(data, lq) ← linked_queue_pop (iqueue q);
    match data with
    | None => Ret (None, set_iqueue q lq)
    | Some a =>
        let q1 := set_iqueue q lq in
        key ← match get_key q1 with
              | Some f => Ret (f a)
              | None => find_key q1 (sm_keys (index q1)) a
              end;
        q2 ← match key with Some k => index_delete q1 k | None => Ret q1 end;
        Ret (Some a, set_current_size q2 (fetch_sub (current_size q2)))
    end.

(** The unlinking of a node that [indexed_queue_delete] does by hand. *)
Definition unlink_node (lq : linked_queue A) (node : option loc) : outcome (linked_queue A) :=
  n ← node_at (nodes lq) node;
  '(h1, first') ← match nd_prev n with
                  | Some _ => h ← set_next (nodes lq) (nd_prev n) (nd_next n); Ret (h, first lq)
                  | None => Ret (nodes lq, nd_next n)
                  end;
  n1 ← node_at h1 node;
  '(h2, last') ← match nd_next n1 with
                 | Some _ => h ← set_prev h1 (nd_next n1) (nd_prev n1); Ret (h, last lq)
                 | None => Ret (h1, nd_prev n1)
                 end;
  h3 ← free_node h2 node;
  Ret (mk_linked_queue h3 first' last' (elements lq - 1)).

Definition indexed_queue_delete (q : indexed_queue) (key : option string)
    : outcome (Z * list A * indexed_queue) :=
  match key with
  | None => Ret (0%Z, [], q)
  | Some k =>
      match sm_get (index q) k with
      | None => Ret (0%Z, [], q)
      | Some e =>
          en ← c_deref (entries q !! e);
          lq ← unlink_node (iqueue q) (en_node en);
          q' ← index_delete (set_iqueue q lq) k;
          Ret (1%Z, dispose_data q (en_data en),
               set_current_size q' (fetch_sub (current_size q')))
      end
  end.

Definition indexed_queue_update (q : indexed_queue) (key : option string) (data : option A)
    : outcome (option A * indexed_queue) :=
  match key, data with
  | Some k, Some a =>
      match sm_get (index q) k with
      | None => Ret (None, q)
      | Some e =>
          en ← c_deref (entries q !! e);
          q' ← entry_set_data q e a;
          Ret (Some (en_data en), q')
      end
  | _, _ => Ret (None, q)
  end.

(** The loops of [indexed_queue_free], with the data in the order of removal. *)
Fixpoint pop_all (fuel : nat) (lq : linked_queue A) : outcome (list A * linked_queue A) :=
  match fuel with
  | O => Stuck OutOfFuel
  | S fuel =>
      '(d, lq1) ← linked_queue_pop lq;
      match d with
      | None => Ret ([], lq1)
      | Some a => '(gone, lq2) ← pop_all fuel lq1; Ret (a :: gone, lq2)
      end
  end.

(** The data disposed of, the nodes and the entries that stay allocated. *)
Definition indexed_queue_free (q : indexed_queue)
    : outcome (list A * gmap loc (lnode A) * gmap loc entry) :=
  '(gone, lq) ← pop_all (elements (iqueue q) + 1) (iqueue q);
  es ← free_entries (entries q) (sm_destroy (index q));
  Ret (if dispose q then gone else [], nodes lq, es).

(** ** The [_ex] operations

    Their critical sections.  A call that has to wait gives [None] and counts as
    asleep on its condition variable. *)

Record isys : Type := mk_isys {
  ique : indexed_queue;
  available : cond;
  available_not_full : cond;
}.

(** One pass through the loop of [indexed_queue_push_ex]. *)
Definition indexed_queue_push_ex (s : isys) (key : option string) (data : option A) (dup : bool)
    : outcome (option Z * isys) :=
  match key, data with
  | Some _, Some _ =>
      if indexed_queue_full (ique s) then
        Ret (None, mk_isys (ique s) (available s) (cond_sleep (available_not_full s)))
      else
        '(r, q') ← indexed_queue_push (ique s) key data dup;
        Ret (Some r, mk_isys q' (if decide (r = 0%Z) then w_cond_signal (available s)
                                 else available s) (available_not_full s))
  | _, _ => Ret (Some (-1)%Z, s)
  end.

(** The first pass of [indexed_queue_upsert_ex].  A thread that wakes up in its
    loop is in the one of [indexed_queue_push_ex]: the lookup is not repeated. *)
Definition indexed_queue_upsert_ex (s : isys) (key : option string) (data : option A) (dup : bool)
    : outcome (option Z * list A * isys) :=
  match key, data with
  | Some k, Some a =>
      match sm_get (index (ique s)) k with
      | Some e =>
          '(gone, q') ← upsert_found (ique s) e a;
          Ret (Some 1%Z, gone, mk_isys q' (available s) (available_not_full s))
      | None => '(r, s') ← indexed_queue_push_ex s key data dup; Ret (r, [], s')
      end
  | _, _ => Ret (Some (-1)%Z, [], s)
  end.

Definition indexed_queue_get_ex (s : isys) (key : option string) : outcome (option A) :=
  indexed_queue_get (ique s) key.

Definition indexed_queue_peek_ex (s : isys) : outcome (option A) := indexed_queue_peek (ique s).

(** One pass through the loop of [indexed_queue_pop_ex]. *)
Definition indexed_queue_pop_ex (s : isys) : outcome (option (option A) * isys) :=
  if indexed_queue_empty (ique s) then
    Ret (None, mk_isys (ique s) (cond_sleep (available s)) (available_not_full s))
  else
    '(d, q') ← indexed_queue_pop (ique s);
    Ret (Some d, mk_isys q' (available s) (w_cond_signal (available_not_full s))).

(** The same pass of [indexed_queue_pop_ex_timedwait], and its return when the
    wait times out. *)
Definition indexed_queue_pop_ex_timedwait (s : isys) (timed_out : bool)
    : outcome (option (option A) * isys) :=
  if timed_out then
    Ret (Some None, mk_isys (ique s) (cond_timeout (available s)) (available_not_full s))
  else indexed_queue_pop_ex s.

Definition indexed_queue_delete_ex (s : isys) (key : option string)
    : outcome (Z * list A * isys) :=
  match key with
  | None => Ret (0%Z, [], s)
  | Some _ =>
      '(r, gone, q') ← indexed_queue_delete (ique s) key;
      Ret (r, gone, mk_isys q' (available s)
             (if decide (r = 0%Z) then available_not_full s
              else w_cond_signal (available_not_full s)))
  end.

Definition indexed_queue_update_ex (s : isys) (key : option string) (data : option A)
    : outcome (option A * isys) :=
  '(old, q') ← indexed_queue_update (ique s) key data;
  Ret (old, mk_isys q' (available s) (available_not_full s)).

(** ** Unlinking a node *)

Lemma unlink_prev (h : gmap loc (lnode A)) l1 p d l2 :
  dll h None (l1 ++ (p, d) :: l2) None → NoDup (l1 ++ (p, d) :: l2).*1 →
  ∃ h', match l1 with
        | [] => Ret h
        | _ => set_next h (last_loc None l1) (head_loc l2 None)
        end = Ret h' ∧ dom h' = dom h ∧ h' !! p = h !! p ∧
        dll h' None l1 (head_loc l2 None) ∧ dll h' (Some p) l2 None.
Proof.
  intros Hl Hnd. rewrite dll_app in Hl. simpl in Hl. destruct Hl as (Hl1 & Hp & Hl2).
  rewrite fmap_app in Hnd. csimpl in Hnd. apply NoDup_app in Hnd as (H1 & Hdis & H2).
  destruct (last_loc_cases None l1) as [[-> _]|(l' & pl & dl & -> & Hla)]; [by exists h|].
  rewrite Hla. rewrite fmap_app in H1, Hdis. csimpl in *.
  apply NoDup_app in H1 as (H1 & Hd & _).
  destruct (set_next_last h None l' pl dl (Some p) (head_loc l2 None)) as (h' & Heq & Hoa & Hl');
    [done|by intros Hin; apply (Hd pl Hin), list_elem_of_here|].
  exists h'. rewrite Heq. split; [by destruct l' as [|[]]|]. split; [apply Hoa|].
  assert (Hpl : pl ∉ p :: l2.*1) by (apply Hdis; set_solver).
  split; [apply Hoa; set_solver|]. split; [done|].
  eapply dll_only_at; [done| |done]. set_solver.
Qed.

Lemma unlink_next (h : gmap loc (lnode A)) l1 p l2 :
  dll h None l1 (head_loc l2 None) → dll h (Some p) l2 None →
  NoDup (p :: l2.*1) → (∀ x, x ∈ (l1.*1) → x ∉ (l2.*1)) →
  ∃ h', match l2 with
        | [] => Ret h
        | _ => set_prev h (head_loc l2 None) (last_loc None l1)
        end = Ret h' ∧ dom h' = dom h ∧ h' !! p = h !! p ∧ dll h' None (l1 ++ l2) None.
Proof.
  intros Hl1 Hl2 [Hp Hnd]%NoDup_cons Hdis. destruct l2 as [|[p2 d2] l2].
  { exists h. by rewrite app_nil_r. }
  csimpl in *. apply NoDup_cons in Hnd as [Hni Hnd].
  destruct (set_prev_head h (Some p) (last_loc None l1) p2 d2 l2 None Hl2 Hni)
    as (h' & -> & Hoa & Hl'). exists h'. split; [done|]. split; [apply Hoa|].
  split; [apply Hoa; set_solver|]. rewrite dll_app. split; [|done].
  eapply dll_only_at; [done| |done]. intros Hin. apply (Hdis p2 Hin). set_solver.
Qed.

Lemma unlink_node_spec (lq : linked_queue A) l1 p d l2 :
  repr lq (l1 ++ (p, d) :: l2) →
  ∃ lq', unlink_node lq (Some p) = Ret lq' ∧ repr lq' (l1 ++ l2).
Proof.
  intros Hr. destruct (repr_nodup_mid _ _ _ _ _ Hr) as (Hnd & Hp1 & Hp2 & Hn1 & Hn2 & Hdis).
  unfold unlink_node. rewrite (node_at_spec _ _ _ _ _ Hr). cbn [outcome_bind mbind nd_prev nd_next].
  destruct Hr as [Hnd0 Hl Hf Hla He Hdom].
  destruct (unlink_prev _ _ _ _ _ Hl Hnd0) as (h1 & Hb1 & Hd1 & Hk1 & Ha1 & Ha2).
  assert (match last_loc None l1 with
          | Some _ => h ← set_next (nodes lq) (last_loc None l1) (head_loc l2 None); Ret (h, first lq)
          | None => Ret (nodes lq, head_loc l2 None)
          end = Ret (h1, head_loc (l1 ++ l2) None)) as ->.
  { rewrite Hf, !head_loc_app. destruct l1 as [|[pa da] l1']; [csimpl in *; congruence|].
    rewrite Hb1. destruct (last_loc None ((pa, da) :: l1')) eqn:E; [done|].
    by apply last_loc_None in E. }
  rewrite outcome_bind_ret. unfold node_at. cbn [c_deref mbind outcome_bind].
  rewrite Hk1, (dll_lookup _ _ _ _ _ _ _ Hl). cbn [c_deref mbind outcome_bind nd_prev nd_next].
  destruct (unlink_next h1 l1 p l2) as (h2 & Hb2 & Hd2 & Hk2 & Hl2);
    [done|done|by apply NoDup_cons|done|].
  assert (match head_loc l2 None with
          | Some _ => h ← set_prev h1 (head_loc l2 None) (last_loc None l1); Ret (h, last lq)
          | None => Ret (h1, last_loc None l1)
          end = Ret (h2, last_loc None (l1 ++ l2))) as ->.
  { rewrite Hla, !last_loc_app. destruct l2 as [|[pa da] l2']; [csimpl in *; congruence|].
    simpl head_loc in *. by rewrite Hb2. }
  rewrite outcome_bind_ret. unfold free_node. cbn [c_deref mbind outcome_bind].
  rewrite Hk2, Hk1, (dll_lookup _ _ _ _ _ _ _ Hl). cbn [c_deref mbind outcome_bind].
  eexists; split; [reflexivity|]. split; simpl; try done.
  - apply dll_delete_ne; [|done]. rewrite fmap_app. set_solver.
  - rewrite He, !length_app. simpl. lia.
  - rewrite dom_delete_L, Hd2, Hd1, Hdom, !fmap_app. csimpl.
    rewrite !list_to_set_app_L. csimpl. apply set_eq. intros x. set_solver.
Qed.

(** ** Abstraction: the list of the elements, oldest first *)

(** An element with the addresses of its node and of its entry. *)
Record cell : Type := mk_cell {
  c_key : string;
  c_data : A;
  c_node : loc;
  c_entry : loc;
}.

Definition node_of (c : cell) : loc * option A := (c_node c, Some (c_data c)).
Definition slot_of (c : cell) : string * option loc := (c_key c, Some (c_entry c)).
Definition entry_of (c : cell) : loc * entry :=
  (c_entry c, mk_entry (c_key c) (c_data c) (Some (c_node c))).
Definition kv (c : cell) : string * A := (c_key c, c_data c).

(** The three structures hold the same elements. *)
Record view (q : indexed_queue) (l : list cell) : Prop := {
  view_nodes : repr (iqueue q) (node_of <$> l);
  view_wf : sm_wf (index q);
  view_dispose : sm_dispose (index q) = true;
  view_index : sm_map (index q) = list_to_map (slot_of <$> l);
  view_entries : entries q = list_to_map (entry_of <$> l);
  view_keys : NoDup (c_key <$> l);
  view_addrs : NoDup (c_entry <$> l);
  view_size : current_size q = length l;
}.

Lemma slot_keys l : (slot_of <$> l).*1 = c_key <$> l.
Proof. by rewrite <-list_fmap_compose. Qed.
Lemma entry_keys l : (entry_of <$> l).*1 = c_entry <$> l.
Proof. by rewrite <-list_fmap_compose. Qed.
Lemma kv_keys l : (kv <$> l).*1 = c_key <$> l.
Proof. by rewrite <-list_fmap_compose. Qed.
Lemma kv_data l : (kv <$> l).*2 = c_data <$> l.
Proof. by rewrite <-list_fmap_compose. Qed.

Lemma head_kv (l : list cell) : snd <$> head (kv <$> l) = c_data <$> head l.
Proof. by destruct l. Qed.

Lemma NoDup_mid {B} (f : cell → B) l1 c l2 :
  NoDup (f <$> l1 ++ c :: l2) → NoDup (f <$> l1 ++ l2) ∧ (f c ∉ f <$> l1) ∧ (f c ∉ f <$> l2).
Proof.
  rewrite !fmap_app, fmap_cons. rewrite <-Permutation_middle.
  intros [Hn Hd]%NoDup_cons. rewrite elem_of_app in Hn. tauto.
Qed.

(** What the lookup of a key finds. *)
Lemma view_lookup q l k :
  view q l →
  (∃ l1 c l2, l = l1 ++ c :: l2 ∧ c_key c = k ∧ sm_get (index q) k = Some (c_entry c) ∧
     entries q !! c_entry c = Some (mk_entry k (c_data c) (Some (c_node c)))) ∨
  (k ∉ (c_key <$> l) ∧ sm_get (index q) k = None ∧ sm_map (index q) !! k = None).
Proof.
  intros [Hr Hw Hd Hi He Hk Ha Hs].
  rewrite sm_get_spec, Hi, He by done. destruct (decide (k ∈ (c_key <$> l))) as [Hin|Hin].
  - left. apply list_elem_of_fmap in Hin as (c & -> & Hc).
    apply list_elem_of_split in Hc as (l1 & l2 & ->). exists l1, c, l2. split_and!; [done..| |].
    + rewrite (elem_of_list_to_map_1 _ (c_key c) (Some (c_entry c))); [done|by rewrite slot_keys|].
      apply (list_elem_of_fmap_2 slot_of). set_solver.
    + apply elem_of_list_to_map_1; [by rewrite entry_keys|].
      apply (list_elem_of_fmap_2 entry_of). set_solver.
  - right. rewrite not_elem_of_list_to_map_1; [done|by rewrite slot_keys].
Qed.

(** Deleting the key of an element from the index frees its entry. *)
Lemma index_delete_spec q l1 c l2 :
  view q (l1 ++ c :: l2) →
  ∃ q', index_delete q (c_key c) = Ret q' ∧
    sm_wf (index q') ∧ sm_dispose (index q') = true ∧
    sm_map (index q') = list_to_map (slot_of <$> l1 ++ l2) ∧
    entries q' = list_to_map (entry_of <$> l1 ++ l2) ∧
    q' = set_entries (set_index q (index q')) (entries q').
Proof.
  intros [Hr Hw Hd Hi He Hk Ha Hs]. unfold index_delete.
  rewrite <-slot_keys, fmap_app, fmap_cons in Hk. rewrite <-entry_keys, fmap_app, fmap_cons in Ha.
  rewrite fmap_app, fmap_cons in Hi. rewrite fmap_app, fmap_cons in He.
  destruct (sm_delete_present (index q) (c_key c) (Some (c_entry c))) as (t & -> & Hw' & Hd' & Hm');
    [done|rewrite Hi; unfold slot_of at 2; rewrite list_to_map_mid by done; apply lookup_insert_eq|].
  rewrite Hd. simpl. unfold indexed_queue_entry_free.
  assert (entries q !! c_entry c = Some (entry_of c).2) as ->.
  { rewrite He. unfold entry_of at 2. rewrite list_to_map_mid by done. apply lookup_insert_eq. }
  simpl. eexists; split; [reflexivity|]. simpl. rewrite !fmap_app. split_and!; try done.
  - congruence.
  - rewrite Hm', Hi. symmetry. by apply list_to_map_delete_mid.
  - rewrite He. symmetry. by apply list_to_map_delete_mid.
Qed.

Definition same_config (q q' : indexed_queue) : Prop :=
  max_size q' = max_size q ∧ dispose q' = dispose q ∧ get_key q' = get_key q.

(** Taking an element out of all three structures. *)
Lemma view_remove q l1 c l2 lq :
  view q (l1 ++ c :: l2) → repr lq (node_of <$> l1 ++ l2) →
  ∃ q', index_delete (set_iqueue q lq) (c_key c) = Ret q' ∧
    view (set_current_size q' (fetch_sub (current_size q'))) (l1 ++ l2) ∧
    same_config q q'.
Proof.
  intros Hv Hr. destruct (NoDup_mid _ _ _ _ (view_keys _ _ Hv)) as (Hk & _).
  destruct (NoDup_mid _ _ _ _ (view_addrs _ _ Hv)) as (Ha & _).
  pose proof (view_size _ _ Hv) as Hs.
  destruct (index_delete_spec q l1 c l2 Hv) as (q' & Hq & Hw & Hd & Hi & He & Heq).
  exists (set_iqueue q' lq). split_and!.
  - unfold index_delete in *. simpl. destruct (sm_delete _ _) as [[[t ?] gone]|]; [|done].
    simpl in *. destruct (free_entries _ _); [|done]. simpl in *. by simplify_eq.
  - rewrite Heq. split; simpl; try done.
    rewrite Hs, length_app. simpl. rewrite length_app, Nat.add_succ_r. done.
  - by rewrite Heq.
Qed.

(** Changing the data of an element. *)
Lemma entry_set_data_spec q l1 c l2 a :
  view q (l1 ++ c :: l2) →
  ∃ q', entry_set_data q (c_entry c) a = Ret q' ∧
    view q' (l1 ++ mk_cell (c_key c) a (c_node c) (c_entry c) :: l2) ∧
    same_config q q'.
Proof.
  intros [Hr Hw Hd Hi He Hk Ha Hs]. unfold entry_set_data.
  assert (NoDup ((entry_of <$> l1) ++ entry_of c :: (entry_of <$> l2)).*1) as Hn.
  { by rewrite <-fmap_cons, <-fmap_app, entry_keys. }
  rewrite fmap_app, fmap_cons in He. rewrite fmap_app, fmap_cons in Hr.
  assert (entries q !! c_entry c = Some (entry_of c).2) as ->.
  { rewrite He. unfold entry_of at 2. rewrite list_to_map_mid by done. apply lookup_insert_eq. }
  simpl. destruct (set_data_spec _ _ _ _ _ (Some a) Hr) as (h & Hset & Hr'). rewrite Hset. simpl.
  eexists; split; [reflexivity|]. split; [|done]. split; simpl; try done.
  - by rewrite fmap_app.
  - by rewrite Hi, !fmap_app.
  - rewrite He, fmap_app, fmap_cons. symmetry. by apply list_to_map_replace_mid.
  - by rewrite fmap_app in *.
  - by rewrite fmap_app in *.
  - by rewrite Hs, !length_app.
Qed.

(** ** The specification *)

(** The queue as the list of its keys and data, oldest first. *)
Abbreviation contents := (list (string * A)).

Definition assoc (s : contents) (k : string) : option A := (list_to_map s : gmap string A) !! k.

Definition remove_key (s : contents) (k : string) : contents := filter (λ x, x.1 ≠ k) s.

Definition set_key (s : contents) (k : string) (a : A) : contents :=
  (λ x, if decide (x.1 = k) then (k, a) else x) <$> s.

Inductive iop : Type :=
  | OPush (key : option string) (data : option A) (dup : bool)
  | OUpsert (key : option string) (data : option A) (dup : bool)
  | OGet (key : option string)
  | OPeek
  | OPop
  | ODelete (key : option string)
  | OUpdate (key : option string) (data : option A)
  | OSize.

Inductive ires : Type := RInt (z : Z) | RPtr (p : option A) | RSize (n : nat).

(** The result and the data disposed of. *)
Definition iexec (q : indexed_queue) (op : iop) : outcome (ires * list A * indexed_queue) :=
  match op with
  | OPush k d dup => '(r, q') ← indexed_queue_push q k d dup; Ret (RInt r, [], q')
  | OUpsert k d dup => '(r, gone, q') ← indexed_queue_upsert q k d dup; Ret (RInt r, gone, q')
  | OGet k => r ← indexed_queue_get q k; Ret (RPtr r, [], q)
  | OPeek => r ← indexed_queue_peek q; Ret (RPtr r, [], q)
  | OPop => '(r, q') ← indexed_queue_pop q; Ret (RPtr r, [], q')
  | ODelete k => '(r, gone, q') ← indexed_queue_delete q k; Ret (RInt r, gone, q')
  | OUpdate k d => '(r, q') ← indexed_queue_update q k d; Ret (RPtr r, [], q')
  | OSize => Ret (RSize (indexed_queue_size q), [], q)
  end.

Definition is_full (max : nat) (s : contents) : Prop := max ≠ 0 ∧ max ≤ length s.

Definition spec_push (max : nat) (s : contents) (k : string) (a : A) (dup : bool)
    : Z * contents :=
  if decide (is_full max s ∨ is_Some (assoc s k) ∨ dup = false) then ((-1)%Z, s)
  else (0%Z, s ++ [(k, a)]).

Definition ispec (max : nat) (disp : bool) (s : contents) (op : iop)
    : ires * list A * contents :=
  match op with
  | OPush (Some k) (Some a) dup =>
      let '(r, s') := spec_push max s k a dup in (RInt r, [], s')
  | OUpsert (Some k) (Some a) dup =>
      match assoc s k with
      | Some old => (RInt 0, if disp then [old] else [], set_key s k a)
      | None => let '(r, s') := spec_push max s k a dup in (RInt r, [], s')
      end
  | OPush _ _ _ | OUpsert _ _ _ => (RInt (-1), [], s)
  | OGet k => (RPtr (k ≫= assoc s), [], s)
  | OPeek => (RPtr (snd <$> head s), [], s)
  | OPop => (RPtr (snd <$> head s), [], tail s)
  | ODelete k =>
      match k ≫= assoc s, k with
      | Some old, Some k => (RInt 1, if disp then [old] else [], remove_key s k)
      | _, _ => (RInt 0, [], s)
      end
  | OUpdate (Some k) (Some a) =>
      match assoc s k with
      | Some old => (RPtr (Some old), [], set_key s k a)
      | None => (RPtr None, [], s)
      end
  | OUpdate _ _ => (RPtr None, [], s)
  | OSize => (RSize (length s), [], s)
  end.

(** [pop] finds the key of the data it has taken: the callback knows it, or, for
    the search, no two elements have the same data pointer. *)
Definition keys_ok (gk : option (A → option string)) (s : contents) : Prop :=
  match gk with
  | Some f => Forall (λ x, f x.2 = Some x.1) s
  | None => NoDup s.*2
  end.

Definition data_ok (gk : option (A → option string)) (s : contents) (k : string) (a : A) : Prop :=
  match gk with
  | Some f => f a = Some k
  | None => a ∉ s.*2
  end.

Definition iop_ok (gk : option (A → option string)) (s : contents) (op : iop) : Prop :=
  match op with
  | OPush (Some k) (Some a) _ | OUpsert (Some k) (Some a) _ | OUpdate (Some k) (Some a) =>
      data_ok gk s k a
  | _ => True
  end.

Section spec_lemmas.
Context (l1 l2 : list cell) (c : cell).
Hypothesis Hnd : NoDup (c_key <$> l1 ++ c :: l2).

Lemma assoc_mid : assoc (kv <$> l1 ++ c :: l2) (c_key c) = Some (c_data c).
Proof.
  unfold assoc. apply elem_of_list_to_map_1; [by rewrite kv_keys|].
  apply (list_elem_of_fmap_2 kv). set_solver.
Qed.

Lemma filter_kv_ne (l : list cell) k : k ∉ (c_key <$> l) → filter (λ x, x.1 ≠ k) (kv <$> l) = kv <$> l.
Proof.
  induction l as [|x l IH]; [done|]. rewrite !fmap_cons, filter_cons. intros Hn.
  apply not_elem_of_cons in Hn as [Hne Hn]. rewrite decide_True by (simpl; congruence).
  by rewrite IH.
Qed.

Lemma remove_key_mid : remove_key (kv <$> l1 ++ c :: l2) (c_key c) = kv <$> l1 ++ l2.
Proof.
  apply NoDup_mid in Hnd as (_ & H1 & H2). unfold remove_key.
  rewrite !fmap_app, fmap_cons, filter_app, filter_cons, decide_False by (simpl; tauto).
  by rewrite !filter_kv_ne.
Qed.

Lemma set_key_ne (l : list cell) k a : k ∉ (c_key <$> l) → set_key (kv <$> l) k a = kv <$> l.
Proof.
  unfold set_key. induction l as [|x l IH]; [done|]. rewrite !fmap_cons. intros Hn.
  apply not_elem_of_cons in Hn as [Hne Hn]. rewrite decide_False by (simpl; congruence).
  by rewrite IH.
Qed.

Lemma set_key_mid a :
  set_key (kv <$> l1 ++ c :: l2) (c_key c) a =
  kv <$> l1 ++ mk_cell (c_key c) a (c_node c) (c_entry c) :: l2.
Proof.
  apply NoDup_mid in Hnd as (_ & H1 & H2).
  rewrite !fmap_app. unfold set_key. rewrite fmap_app.
  pose proof (set_key_ne l1 _ a H1) as E1. pose proof (set_key_ne l2 _ a H2) as E2.
  unfold set_key in E1, E2. rewrite E1. rewrite !fmap_cons, E2. rewrite decide_True by done.
  done.
Qed.

Lemma keys_ok_remove gk : keys_ok gk (kv <$> l1 ++ c :: l2) → keys_ok gk (kv <$> l1 ++ l2).
Proof.
  destruct gk as [f|]; simpl.
  - rewrite !fmap_app, fmap_cons, !Forall_app, Forall_cons. tauto.
  - rewrite !kv_data. intros H'. by apply NoDup_mid in H' as [??].
Qed.

Lemma keys_ok_update gk a :
  keys_ok gk (kv <$> l1 ++ c :: l2) → data_ok gk (kv <$> l1 ++ c :: l2) (c_key c) a →
  keys_ok gk (kv <$> l1 ++ mk_cell (c_key c) a (c_node c) (c_entry c) :: l2).
Proof.
  clear Hnd. destruct gk as [f|]; simpl.
  - rewrite !fmap_app, !fmap_cons, !Forall_app, !Forall_cons. simpl. tauto.
  - rewrite !kv_data. intros [H' _]%NoDup_mid Hn. rewrite fmap_app, fmap_cons.
    rewrite <-Permutation_middle, <-fmap_app. apply NoDup_cons. split; [|done]. simpl.
    rewrite fmap_app, fmap_cons in Hn. rewrite fmap_app. set_solver.
Qed.
End spec_lemmas.

Lemma assoc_none (l : list cell) k : k ∉ (c_key <$> l) → assoc (kv <$> l) k = None.
Proof. intros Hn. unfold assoc. apply not_elem_of_list_to_map_1. by rewrite kv_keys. Qed.

Lemma keys_ok_snoc gk s k a :
  keys_ok gk s → data_ok gk s k a → keys_ok gk (s ++ [(k, a)]).
Proof.
  destruct gk as [f|]; simpl.
  - rewrite Forall_app, Forall_singleton. tauto.
  - rewrite fmap_app. simpl. rewrite NoDup_app. intros Hd Hn.
    split_and!; [done|set_solver|apply NoDup_singleton].
Qed.

(** ** Every operation against the specification *)

Hypothesis malloc_node_fresh : ∀ X, malloc_node X ∉ X.
Hypothesis malloc_entry_fresh : ∀ X, malloc_entry X ∉ X.

Lemma full_spec q l : view q l → indexed_queue_full q = true ↔ is_full (max_size q) (kv <$> l).
Proof.
  intros Hv. unfold indexed_queue_full, is_full. rewrite length_fmap, (view_size _ _ Hv).
  case_decide; [naive_solver|]. rewrite bool_decide_eq_true. tauto.
Qed.

Lemma view_push q l k a lq t :
  let p := malloc_node (dom (nodes (iqueue q))) in
  let e := malloc_entry (dom (entries q)) in
  view q l → k ∉ (c_key <$> l) → repr lq ((node_of <$> l) ++ [(p, Some a)]) →
  sm_wf t → sm_dispose t = sm_dispose (index q) →
  sm_map t = <[k := Some e]> (sm_map (index q)) →
  view (mk_iq lq t (<[e := mk_entry k a (Some p)]> (entries q)) (max_size q)
          (current_size q + 1) (dispose q) (get_key q)) (l ++ [mk_cell k a p e]).
Proof.
  intros p e [Hr Hw Hd Hi He Hk Ha Hs] Hn Hr' Hw' Hd' Hm'.
  assert (Hen : e ∉ (c_entry <$> l)).
  { pose proof (malloc_entry_fresh (dom (entries q))) as Hf. fold e in Hf. clearbody e.
    by rewrite He, dom_list_to_map_L, elem_of_list_to_set, entry_keys in Hf. }
  assert (Hk' : NoDup (c_key <$> l ++ [mk_cell k a p e])).
  { rewrite fmap_app. apply NoDup_app. split_and!; [done| |apply NoDup_singleton].
    csimpl. set_solver. }
  assert (Ha' : NoDup (c_entry <$> l ++ [mk_cell k a p e])).
  { rewrite fmap_app. apply NoDup_app. split_and!; [done| |apply NoDup_singleton].
    csimpl. set_solver. }
  split; simpl; try done.
  - by rewrite fmap_app.
  - congruence.
  - rewrite Hm', Hi, fmap_app, fmap_cons. unfold slot_of at 3. simpl.
    rewrite list_to_map_mid, app_nil_r; [done|].
    by rewrite <-slot_keys, fmap_app in Hk'.
  - rewrite He, fmap_app, fmap_cons. unfold entry_of at 3. simpl.
    rewrite list_to_map_mid, app_nil_r; [done|].
    by rewrite <-entry_keys, fmap_app in Ha'.
  - rewrite Hs, length_app. simpl. lia.
Qed.

Lemma push_refines q l k a dup :
  view q l → keys_ok (get_key q) (kv <$> l) → data_ok (get_key q) (kv <$> l) k a →
  ∃ r q' l', indexed_queue_push q (Some k) (Some a) dup = Ret (r, q') ∧
    spec_push (max_size q) (kv <$> l) k a dup = (r, kv <$> l') ∧
    view q' l' ∧ keys_ok (get_key q) (kv <$> l') ∧ same_config q q'.
Proof.
  intros Hv Hko Hda. unfold indexed_queue_push, spec_push.
  destruct (indexed_queue_full q) eqn:Hf.
  { apply (full_spec q l Hv) in Hf. rewrite decide_True by tauto.
    by eexists _, q, l. }
  assert (¬ is_full (max_size q) (kv <$> l)) as Hnf.
  { rewrite <-(full_spec q l Hv). by rewrite Hf. }
  destruct (view_lookup q l k Hv) as [(l1 & c & l2 & -> & <- & -> & _)|(Hn & -> & Hnone)].
  { rewrite decide_True by (right; left; rewrite assoc_mid; [done|by eapply view_keys]).
    by eexists _, q, _. }
  rewrite (assoc_none l k Hn). destruct dup.
  2:{ rewrite decide_True by tauto. by eexists _, q, l. }
  rewrite decide_False by (intros [?|[[? ?]|?]]; done).
  destruct (push_spec _ _ (malloc_node (dom (nodes (iqueue q)))) (Some a) (view_nodes _ _ Hv))
    as (lq & -> & Hr); [by apply not_elem_of_dom|].
  simpl. destruct (sm_insert_new (index q) k (Some (malloc_entry (dom (entries q)))))
    as (t & -> & Hw & Hd & Hm); [by eapply view_wf|done|]. simpl.
  eexists _, _, (l ++ [mk_cell k a _ _]). split; [reflexivity|].
  rewrite fmap_app. split; [reflexivity|].
  split; [by apply view_push|]. split; [by apply keys_ok_snoc|done].
Qed.

Lemma NoDup_fmap_eq {B} (f : cell → B) l c c' :
  NoDup (f <$> l) → c ∈ l → c' ∈ l → f c = f c' → c = c'.
Proof.
  intros Hd (l1 & l2 & ->)%list_elem_of_split Hc' Hf. apply NoDup_mid in Hd as (_ & H1 & H2).
  rewrite elem_of_app, elem_of_cons in Hc'. destruct Hc' as [Hc'|[->|Hc']]; [|done|].
  - destruct H1. rewrite Hf. by apply list_elem_of_fmap_2.
  - destruct H2. rewrite Hf. by apply list_elem_of_fmap_2.
Qed.

(** The search finds the key of the data. *)
Lemma find_key_spec q l c ks lq :
  view q l → NoDup (c_data <$> l) → c ∈ l → c_key c ∈ ks →
  find_key (set_iqueue q lq) ks (c_data c) = Ret (Some (c_key c)).
Proof.
  intros Hv Hnd Hc. induction ks as [|k ks IH]; intros Hk; [by apply elem_of_nil in Hk|]. simpl.
  destruct (view_lookup q l k Hv) as [(l1 & c' & l2 & Hl & Hkc & -> & He)|(Hn & -> & _)].
  - rewrite He. simpl. case_decide as Hdata.
    + assert (c' = c) as ->; [|by rewrite Hkc].
      apply (NoDup_fmap_eq c_data l); [done| |done|done]. rewrite Hl. set_solver.
    + apply elem_of_cons in Hk as [Hk|Hk]; [|by apply IH]. destruct Hdata. f_equal.
      apply (NoDup_fmap_eq c_key l); [by eapply view_keys| |done|congruence].
      rewrite Hl. set_solver.
  - apply elem_of_cons in Hk as [Hk|Hk]; [|by apply IH]. destruct Hn. rewrite <-Hk.
    by apply list_elem_of_fmap_2.
Qed.

(** The key under which [pop] deletes is the key of the data it took. *)
Lemma pop_key_spec q c l lq :
  view q (c :: l) → keys_ok (get_key q) (kv <$> c :: l) →
  match get_key q with
  | Some f => Ret (f (c_data c))
  | None => find_key (set_iqueue q lq) (sm_keys (index q)) (c_data c)
  end = Ret (Some (c_key c)).
Proof.
  intros Hv Hko. destruct (get_key q) as [f|]; simpl in Hko.
  - apply Forall_cons in Hko as [Hf _]. simpl in Hf. by rewrite Hf.
  - eapply find_key_spec; [done|by rewrite <-kv_data|set_solver|].
    apply sm_keys_spec; [by eapply view_wf|]. rewrite (view_index _ _ Hv). simpl.
    by rewrite lookup_insert_eq.
Qed.

Lemma pop_refines q l :
  view q l → keys_ok (get_key q) (kv <$> l) →
  ∃ q', indexed_queue_pop q = Ret (c_data <$> head l, q') ∧
    view q' (tail l) ∧ keys_ok (get_key q) (kv <$> tail l) ∧ same_config q q'.
Proof.
  intros Hv Hko. unfold indexed_queue_pop, indexed_queue_empty. rewrite (view_size _ _ Hv).
  destruct l as [|c l]; [by exists q|]. rewrite bool_decide_eq_false_2 by done.
  destruct (pop_spec _ _ _ _ (view_nodes _ _ Hv)) as (lq & -> & Hr). simpl.
  rewrite (pop_key_spec q c l lq Hv Hko). simpl.
  destruct (view_remove q [] c l lq Hv Hr) as (q' & -> & Hv' & Hc). simpl.
  eexists; split; [reflexivity|]. split; [done|]. split; [|done].
  by apply (keys_ok_remove [] l c).
Qed.

Lemma iq_peek_spec q l : view q l → indexed_queue_peek q = Ret (c_data <$> head l).
Proof.
  intros Hv. unfold indexed_queue_peek, indexed_queue_empty. rewrite (view_size _ _ Hv).
  destruct l as [|c l]; [done|]. rewrite bool_decide_eq_false_2 by done.
  pose proof (view_nodes _ _ Hv) as Hr. rewrite (repr_first _ _ Hr). simpl.
  by rewrite (node_at_spec _ [] _ _ _ Hr).
Qed.

Lemma iq_get_spec q l k : view q l → indexed_queue_get q k = Ret (k ≫= assoc (kv <$> l)).
Proof.
  intros Hv. destruct k as [k|]; [|done]. simpl.
  destruct (view_lookup q l k Hv) as [(l1 & c & l2 & -> & <- & -> & ->)|(Hn & -> & _)]; simpl.
  - rewrite assoc_mid; [done|by eapply view_keys].
  - by rewrite assoc_none.
Qed.

Lemma iq_delete_spec q l1 c l2 :
  view q (l1 ++ c :: l2) → keys_ok (get_key q) (kv <$> l1 ++ c :: l2) →
  ∃ q', indexed_queue_delete q (Some (c_key c)) = Ret (1%Z, dispose_data q (c_data c), q') ∧
    view q' (l1 ++ l2) ∧ keys_ok (get_key q) (kv <$> l1 ++ l2) ∧ same_config q q'.
Proof.
  intros Hv Hko. simpl.
  destruct (view_lookup q _ (c_key c) Hv) as [(l1' & c' & l2' & Hl & Hk & -> & ->)|(Hn & _)].
  2:{ destruct Hn. apply list_elem_of_fmap_2. set_solver. }
  assert (c' = c) as ->.
  { apply (NoDup_fmap_eq c_key (l1 ++ c :: l2)); [by eapply view_keys| |set_solver|done].
    rewrite Hl. set_solver. }
  simpl. pose proof (view_nodes _ _ Hv) as Hr. rewrite fmap_app, fmap_cons in Hr.
  destruct (unlink_node_spec _ _ _ _ _ Hr) as (lq & -> & Hr'). simpl.
  rewrite <-fmap_app in Hr'.
  destruct (view_remove q l1 c l2 lq Hv Hr') as (q' & -> & Hv' & Hc). simpl.
  eexists; split; [reflexivity|]. split_and!; [done|by eapply keys_ok_remove|done].
Qed.

(** The updates of [upsert] and [update], which differ in what they report. *)
Lemma update_found q l1 c l2 a :
  view q (l1 ++ c :: l2) → keys_ok (get_key q) (kv <$> l1 ++ c :: l2) →
  data_ok (get_key q) (kv <$> l1 ++ c :: l2) (c_key c) a →
  ∃ q' l', entry_set_data q (c_entry c) a = Ret q' ∧
    kv <$> l' = set_key (kv <$> l1 ++ c :: l2) (c_key c) a ∧
    view q' l' ∧ keys_ok (get_key q) (kv <$> l') ∧ same_config q q'.
Proof.
  intros Hv Hko Hda. destruct (entry_set_data_spec q l1 c l2 a Hv) as (q' & Hq & Hv' & Hc).
  eexists q', _. split_and!; [done| |done| |done].
  - symmetry. apply set_key_mid. by eapply view_keys.
  - by apply keys_ok_update.
Qed.

#[local] Arguments indexed_queue_push : simpl never.

Lemma iexec_refines q l op :
  view q l → keys_ok (get_key q) (kv <$> l) → iop_ok (get_key q) (kv <$> l) op →
  ∃ r gone q' l', iexec q op = Ret (r, gone, q') ∧
    ispec (max_size q) (dispose q) (kv <$> l) op = (r, gone, kv <$> l') ∧
    view q' l' ∧ keys_ok (get_key q) (kv <$> l') ∧ same_config q q'.
Proof.
  intros Hv Hko Hok. pose proof (view_keys _ _ Hv) as Hnd.
  assert (Hstay : ∀ (r : ires) (gone : list A), ∃ r' gone' q' l', Ret (r, gone, q) = Ret (r', gone', q') ∧
    (r, gone, kv <$> l) = (r', gone', kv <$> l') ∧
    view q' l' ∧ keys_ok (get_key q) (kv <$> l') ∧ same_config q q') by (intros; by eexists _, _, _, l).
  destruct op as [[k|] [a|] dup|[k|] [a|] dup|k| | |[k|]|[k|] [a|]|]; simpl in *;
    try apply Hstay.
  - destruct (push_refines q l k a dup Hv Hko Hok) as (r & q' & l' & -> & -> & ?).
    simpl. by eexists _, _, _, l'.
  - destruct (view_lookup q l k Hv) as [(l1 & c & l2 & -> & <- & -> & He)|(Hn & -> & _)].
    + rewrite assoc_mid by done. unfold upsert_found. rewrite He. simpl.
      destruct (update_found q l1 c l2 a Hv Hko Hok) as (q' & l' & -> & <- & ?). simpl.
      by eexists _, _, _, l'.
    + rewrite (assoc_none l k Hn).
      destruct (push_refines q l k a dup Hv Hko Hok) as (r & q' & l' & -> & -> & ?).
      simpl. by eexists _, _, _, l'.
  - rewrite (iq_get_spec q l k Hv). apply Hstay.
  - rewrite (iq_peek_spec q l Hv), head_kv. apply Hstay.
  - destruct (pop_refines q l Hv Hko) as (q' & -> & ?). simpl.
    rewrite head_kv, <-fmap_tail. by eexists _, _, _, (tail l).
  - destruct (view_lookup q l k Hv) as [(l1 & c & l2 & -> & <- & Hg & _)|(Hn & -> & _)].
    + destruct (iq_delete_spec q l1 c l2 Hv Hko) as (q' & Hq & ?). simpl in Hq. rewrite Hq.
      rewrite assoc_mid, remove_key_mid by done. by eexists _, _, _, (l1 ++ l2).
    + rewrite (assoc_none l k Hn). apply Hstay.
  - destruct (view_lookup q l k Hv) as [(l1 & c & l2 & -> & <- & -> & He)|(Hn & -> & _)].
    + rewrite assoc_mid, He by done. simpl.
      destruct (update_found q l1 c l2 a Hv Hko Hok) as (q' & l' & -> & <- & ?). simpl.
      by eexists _, _, _, l'.
    + rewrite (assoc_none l k Hn). apply Hstay.
  - unfold indexed_queue_size. rewrite (view_size _ _ Hv), length_fmap. apply Hstay.
Qed.

(** ** Destruction *)

Lemma pop_all_spec l lq fuel :
  repr lq (node_of <$> l) → length l < fuel →
  ∃ lq', pop_all fuel lq = Ret (c_data <$> l, lq') ∧ repr lq' [].
Proof.
  revert lq fuel. induction l as [|c l IH]; intros lq fuel Hr Hf; (destruct fuel; [simpl in *; lia|]).
  - simpl. rewrite (pop_nil_spec _ Hr). simpl. by exists lq.
  - simpl. destruct (pop_spec _ _ _ _ Hr) as (lq1 & -> & Hr1). simpl.
    destruct (IH lq1 fuel Hr1) as (lq' & -> & Hr'); [simpl in *; lia|]. by exists lq'.
Qed.

Lemma free_entries_all gone es :
  NoDup gone → dom es = list_to_set gone → free_entries es gone = Ret ∅.
Proof.
  revert es. induction gone as [|e gone IH]; intros es Hnd Hdom; simpl.
  - f_equal. apply dom_empty_inv_L. by rewrite Hdom.
  - apply NoDup_cons in Hnd as [Hn Hnd]. unfold indexed_queue_entry_free.
    assert (is_Some (es !! e)) as [en Hen] by (apply elem_of_dom; rewrite Hdom; set_solver).
    rewrite Hen. simpl. apply IH; [done|]. rewrite dom_delete_L, Hdom. simpl.
    apply set_eq. intros x. set_solver.
Qed.

Lemma free_spec q l :
  view q l → indexed_queue_free q = Ret (if dispose q then c_data <$> l else [], ∅, ∅).
Proof.
  intros [Hr Hw Hd Hi He Hk Ha Hs]. unfold indexed_queue_free.
  destruct (pop_all_spec l (iqueue q) (elements (iqueue q) + 1) Hr) as (lq & -> & Hr').
  { rewrite (repr_elements _ _ Hr), length_fmap. lia. }
  cbn [mbind outcome_bind].
  assert (sm_destroy (index q) ≡ₚ c_entry <$> l) as Hp.
  { rewrite sm_destroy_spec by done. rewrite Hi, map_to_list_to_map by (by rewrite slot_keys).
    clear. induction l as [|c l IH]; [done|]. csimpl. by rewrite IH. }
  rewrite free_entries_all.
  - assert (nodes lq = ∅) as -> by (apply dom_empty_inv_L; by rewrite (repr_dom _ _ Hr')).
    done.
  - by rewrite Hp.
  - rewrite He, dom_list_to_map_L, entry_keys. apply set_eq. intros x.
    by rewrite !elem_of_list_to_set, Hp.
Qed.

Lemma init_view max disp gk :
  view (indexed_queue_set_get_key (indexed_queue_set_dispose (indexed_queue_init max) disp) gk) [].
Proof.
  destruct (sm_set_dispose_spec (sm_empty : T) true sm_empty_wf) as (Hw & Hm & Hd).
  split; simpl; try done; [apply init_spec|by rewrite Hm, sm_empty_map|apply NoDup_nil_2..].
Qed.

(** ** Sequences of operations *)

Definition new_queue (max : nat) (disp : bool) (gk : option (A → option string))
    : indexed_queue :=
  indexed_queue_set_get_key (indexed_queue_set_dispose (indexed_queue_init max) disp) gk.

Fixpoint irun (q : indexed_queue) (ops : list iop)
    : outcome (list (ires * list A) * indexed_queue) :=
  match ops with
  | [] => Ret ([], q)
  | op :: ops =>
      '(r, gone, q1) ← iexec q op;
      '(rs, q2) ← irun q1 ops;
      Ret ((r, gone) :: rs, q2)
  end.

Fixpoint ispec_run (max : nat) (disp : bool) (s : contents) (ops : list iop)
    : list (ires * list A) * contents :=
  match ops with
  | [] => ([], s)
  | op :: ops =>
      let '(r, gone, s1) := ispec max disp s op in
      let '(rs, s2) := ispec_run max disp s1 ops in
      ((r, gone) :: rs, s2)
  end.

Fixpoint iops_ok (max : nat) (disp : bool) (gk : option (A → option string)) (s : contents)
    (ops : list iop) : Prop :=
  match ops with
  | [] => True
  | op :: ops => iop_ok gk s op ∧ iops_ok max disp gk (ispec max disp s op).2 ops
  end.

Lemma irun_refines q l ops :
  view q l → keys_ok (get_key q) (kv <$> l) →
  iops_ok (max_size q) (dispose q) (get_key q) (kv <$> l) ops →
  ∃ q' l', irun q ops = Ret ((ispec_run (max_size q) (dispose q) (kv <$> l) ops).1, q') ∧
    (ispec_run (max_size q) (dispose q) (kv <$> l) ops).2 = kv <$> l' ∧ view q' l' ∧
    same_config q q'.
Proof.
  revert q l. induction ops as [|op ops IH]; intros q l Hv Hko Hok; simpl in *; [by exists q, l|].
  destruct Hok as [Hop Hok].
  destruct (iexec_refines q l op Hv Hko Hop) as (r & gone & q1 & l1 & -> & Hs & Hv1 & Hko1 & Hc).
  simpl. rewrite Hs in *. simpl in Hok. destruct Hc as (Hm & Hd & Hg).
  destruct (IH q1 l1) as (q2 & l2 & Hr & Hs2 & Hv2 & Hc2);
    [done|by rewrite Hg|by rewrite Hm, Hd, Hg|].
  rewrite Hm, Hd in Hr, Hs2. rewrite Hr. simpl.
  destruct (ispec_run _ _ (kv <$> l1) ops) as [rs s2]. simpl in *. exists q2, l2.
  unfold same_config in *. naive_solver congruence.
Qed.

(** ** Threads *)

(** What a critical section does to the contents: nothing visible, a sequential
    operation, or the update of [indexed_queue_upsert_ex], which returns 1. *)
Inductive ilabel : Type :=
  | LTau
  | LCall (op : iop) (r : ires) (gone : list A)
  | LUpdated (k : string) (a : A) (gone : list A).

Definition push_label (k : string) (a : A) (r : option Z) : ilabel :=
  match r with
  | Some z => LCall (OPush (Some k) (Some a) true) (RInt z) []
  | None => LTau
  end.

Definition pop_label (r : option (option A)) : ilabel :=
  match r with
  | Some d => LCall OPop (RPtr d) []
  | None => LTau
  end.

(** A signalled thread takes the mutex back. *)
Definition wake_consumer (s : isys) : isys :=
  mk_isys (ique s) (cond_wake (available s)) (available_not_full s).

Definition wake_producer (s : isys) : isys :=
  mk_isys (ique s) (available s) (cond_wake (available_not_full s)).

(** The callback knows the key of the data, or the data are not in the queue. *)
Definition data_known (gk : option (A → option string)) (s : isys) (k : string) (a : A) : Prop :=
  match gk with
  | Some f => f a = Some k
  | None => ∀ p n, nodes (iqueue (ique s)) !! p = Some n → nd_data n ≠ Some a
  end.

(** [istep gk]: the threads call the [_ex] operations, with data whose key is
    known; [strdup] finds memory. *)
Inductive istep (gk : option (A → option string)) : isys → ilabel → isys → Prop :=
  | istep_push s k a r s' :
      data_known gk s k a →
      indexed_queue_push_ex s (Some k) (Some a) true = Ret (r, s') →
      istep gk s (push_label k a r) s'
  | istep_resume_push s k a r s' :
      data_known gk s k a → 0 < signalled (available_not_full s) →
      indexed_queue_push_ex (wake_producer s) (Some k) (Some a) true = Ret (r, s') →
      istep gk s (push_label k a r) s'
  | istep_upsert_new s k a r gone s' :
      data_known gk s k a → sm_get (index (ique s)) k = None →
      indexed_queue_upsert_ex s (Some k) (Some a) true = Ret (r, gone, s') →
      istep gk s (push_label k a r) s'
  | istep_upsert_found s k a e r gone s' :
      data_known gk s k a → sm_get (index (ique s)) k = Some e →
      indexed_queue_upsert_ex s (Some k) (Some a) true = Ret (r, gone, s') →
      istep gk s (LUpdated k a gone) s'
  | istep_pop s r s' :
      indexed_queue_pop_ex s = Ret (r, s') → istep gk s (pop_label r) s'
  | istep_resume_pop s r s' :
      0 < signalled (available s) →
      indexed_queue_pop_ex_timedwait (wake_consumer s) false = Ret (r, s') →
      istep gk s (pop_label r) s'
  | istep_timeout s r s' :
      0 < asleep (available s) →
      indexed_queue_pop_ex_timedwait s true = Ret (r, s') → istep gk s LTau s'
  | istep_delete s k r gone s' :
      indexed_queue_delete_ex s k = Ret (r, gone, s') →
      istep gk s (LCall (ODelete k) (RInt r) gone) s'
  | istep_update s k a r s' :
      data_known gk s k a →
      indexed_queue_update_ex s (Some k) (Some a) = Ret (r, s') →
      istep gk s (LCall (OUpdate (Some k) (Some a)) (RPtr r) []) s'
  | istep_get s k r :
      indexed_queue_get_ex s k = Ret r → istep gk s (LCall (OGet k) (RPtr r) []) s
  | istep_peek s r :
      indexed_queue_peek_ex s = Ret r → istep gk s (LCall OPeek (RPtr r) []) s
  | istep_spurious_consumer s :
      0 < asleep (available s) →
      istep gk s LTau (mk_isys (ique s) (cond_spurious (available s)) (available_not_full s))
  | istep_spurious_producer s :
      0 < asleep (available_not_full s) →
      istep gk s LTau (mk_isys (ique s) (available s) (cond_spurious (available_not_full s))).

Inductive itrace (gk : option (A → option string)) (s : isys) : list ilabel → isys → Prop :=
  | itrace_nil : itrace gk s [] s
  | itrace_snoc tr s' lab s'' :
      itrace gk s tr s' → istep gk s' lab s'' → itrace gk s (tr ++ [lab]) s''.

Definition label_spec (max : nat) (disp : bool) (lab : ilabel) (s s' : contents) : Prop :=
  match lab with
  | LTau => s' = s
  | LCall op r gone => ispec max disp s op = (r, gone, s')
  | LUpdated k a gone => ∃ r, ispec max disp s (OUpsert (Some k) (Some a) true) = (r, gone, s') ∧
      is_Some (assoc s k)
  end.

Inductive spec_trace (max : nat) (disp : bool) : list ilabel → contents → Prop :=
  | spec_trace_nil : spec_trace max disp [] []
  | spec_trace_snoc tr lab s s' :
      spec_trace max disp tr s → label_spec max disp lab s s' →
      spec_trace max disp (tr ++ [lab]) s'.

(** While a consumer sleeps every element has a signalled consumer on its way;
    while a producer sleeps the queue holds an element, whose removal will signal,
    or a producer is signalled. *)
Definition wakeups_ok (s : isys) (n : nat) : Prop :=
  (asleep (available s) = 0 ∨ n ≤ signalled (available s)) ∧
  (asleep (available_not_full s) = 0 ∨ 0 < n ∨ 0 < signalled (available_not_full s)).

Definition isys_inv (max : nat) (disp : bool) (gk : option (A → option string)) (s : isys)
    (l : list cell) : Prop :=
  view (ique s) l ∧ keys_ok gk (kv <$> l) ∧
  max_size (ique s) = max ∧ dispose (ique s) = disp ∧ get_key (ique s) = gk ∧
  wakeups_ok s (length l).

Lemma data_known_ok gk s l k a :
  view (ique s) l → data_known gk s k a → data_ok gk (kv <$> l) k a.
Proof.
  intros Hv. destruct gk as [f|]; [done|]. simpl. rewrite kv_data. intros Hn Hin.
  apply list_elem_of_fmap in Hin as (c & -> & (l1 & l2 & ->)%list_elem_of_split).
  pose proof (view_nodes _ _ Hv) as Hr. rewrite fmap_app, fmap_cons in Hr.
  by eapply Hn; [eapply dll_lookup, (repr_dll _ _ Hr)|].
Qed.

Lemma signal_cases c : asleep (w_cond_signal c) = 0 ∨ 0 < signalled (w_cond_signal c).
Proof. destruct c as [[|n] m]; simpl; [by left|right; lia]. Qed.

(** After a pass of a producer the queue is not empty. *)
Lemma push_pass max disp gk s l k a r s' :
  view (ique s) l → keys_ok gk (kv <$> l) → max_size (ique s) = max → dispose (ique s) = disp →
  get_key (ique s) = gk → data_ok gk (kv <$> l) k a →
  asleep (available s) = 0 ∨ length l ≤ signalled (available s) →
  indexed_queue_push_ex s (Some k) (Some a) true = Ret (r, s') →
  ∃ l', isys_inv max disp gk s' l' ∧ label_spec max disp (push_label k a r) (kv <$> l) (kv <$> l').
Proof.
  intros Hv Hko <- <- <- Hda Hc. unfold indexed_queue_push_ex.
  destruct (indexed_queue_full (ique s)) eqn:Hf.
  - intros [= <- <-]. exists l. split; [|done]. apply (full_spec _ _ Hv) in Hf as [Hm Hl].
    rewrite length_fmap in Hl. split_and!; try done. split; simpl; [done|right; left; lia].
  - destruct (push_refines (ique s) l k a true Hv Hko Hda)
      as (z & q' & l' & -> & Hs & Hv' & Hko' & Hm & Hd & Hg). simpl. intros [= <- <-].
    exists l'. split; [|simpl; by rewrite Hs]. split_and!; try done; simpl.
    revert Hs. unfold spec_push. case_decide as Hx; intros [= <- Hs];
      apply (f_equal length) in Hs; rewrite ?length_app, !length_fmap in Hs; simpl in Hs.
    + destruct Hx as [Hx|[[x Hx]|?]]; [apply (full_spec _ _ Hv) in Hx; congruence| |done].
      destruct l as [|c l]; [done|]. simpl in *. split; simpl; [lia|right; left; lia].
    + split; simpl; [|right; left; lia].
      unfold w_cond_signal. destruct (available s) as [[|n] m]; simpl in *; lia.
Qed.

Lemma pop_pass max disp gk s l r s' :
  view (ique s) l → keys_ok gk (kv <$> l) → max_size (ique s) = max → dispose (ique s) = disp →
  get_key (ique s) = gk →
  asleep (available s) = 0 ∨ length l - 1 ≤ signalled (available s) →
  asleep (available_not_full s) = 0 ∨ 0 < length l ∨ 0 < signalled (available_not_full s) →
  indexed_queue_pop_ex s = Ret (r, s') →
  ∃ l', isys_inv max disp gk s' l' ∧ label_spec max disp (pop_label r) (kv <$> l) (kv <$> l').
Proof.
  intros Hv Hko <- <- <- Hc Hp. unfold indexed_queue_pop_ex, indexed_queue_empty.
  rewrite (view_size _ _ Hv). destruct l as [|c l].
  - intros [= <- <-]. exists []. split; [|done]. split_and!; try done. split; simpl in *; lia.
  - rewrite bool_decide_eq_false_2 by done.
    destruct (pop_refines _ _ Hv Hko) as (q' & -> & Hv' & Hko' & Hm & Hd & Hg).
    simpl. intros [= <- <-]. exists l. split; [|done]. split_and!; try done. split; simpl in *.
    + lia.
    + destruct (signal_cases (available_not_full s)); lia.
Qed.

(** A step that leaves the condition variables alone and does not shrink or grow
    the queue. *)
Lemma sequential_inv max disp gk s l op r gone q' :
  isys_inv max disp gk s l → iop_ok gk (kv <$> l) op → iexec (ique s) op = Ret (r, gone, q') →
  ∃ l', view q' l' ∧ keys_ok gk (kv <$> l') ∧ max_size q' = max ∧ dispose q' = disp ∧
    get_key q' = gk ∧ ispec max disp (kv <$> l) op = (r, gone, kv <$> l').
Proof.
  intros (Hv & Hko & <- & <- & <- & _) Hop He.
  destruct (iexec_refines _ _ _ Hv Hko Hop) as (r' & g' & q1 & l' & He' & Hs & Hv' & Hko' & Hm & Hd & Hg).
  rewrite He' in He. simplify_eq. by exists l'.
Qed.

Lemma length_set_key s k a : length (set_key s k a) = length s.
Proof. apply length_fmap. Qed.

Lemma upsert_found_inv max disp gk s l k a e r gone s' :
  isys_inv max disp gk s l → data_ok gk (kv <$> l) k a →
  sm_get (index (ique s)) k = Some e →
  indexed_queue_upsert_ex s (Some k) (Some a) true = Ret (r, gone, s') →
  ∃ l', isys_inv max disp gk s' l' ∧
    label_spec max disp (LUpdated k a gone) (kv <$> l) (kv <$> l').
Proof.
  intros Hinv Hda Hg. unfold indexed_queue_upsert_ex. rewrite Hg.
  destruct (upsert_found (ique s) e a) as [[g q']|] eqn:Hu; [|done]. simpl. intros [= <- <- <-].
  destruct (sequential_inv max disp gk s l (OUpsert (Some k) (Some a) true) (RInt 0) g q')
    as (l' & Hv & Hko & Hm & Hd & Hk & Hs); [done|done|simpl; by rewrite Hg, Hu|].
  exists l'. destruct Hinv as (Hv0 & _ & _ & _ & _ & Hw).
  assert (is_Some (assoc (kv <$> l) k)) as [old Hold].
  { destruct (view_lookup _ _ k Hv0) as [(l1 & c & l2 & -> & <- & _)|(_ & Hn & _)]; [|congruence].
    rewrite assoc_mid; [done|by eapply view_keys]. }
  split; [|simpl; eauto]. split_and!; try done. simpl in Hs. rewrite Hold in Hs.
  injection Hs as _ Hs. apply (f_equal length) in Hs.
  rewrite length_set_key, !length_fmap in Hs. unfold wakeups_ok in *. simpl. by rewrite <-Hs.
Qed.

Lemma delete_inv max disp gk s l k r gone s' :
  isys_inv max disp gk s l → indexed_queue_delete_ex s k = Ret (r, gone, s') →
  ∃ l', isys_inv max disp gk s' l' ∧
    label_spec max disp (LCall (ODelete k) (RInt r) gone) (kv <$> l) (kv <$> l').
Proof.
  intros Hinv. destruct k as [k|]; [|intros [= <- <- <-]; by exists l].
  unfold indexed_queue_delete_ex.
  destruct (indexed_queue_delete (ique s) (Some k)) as [[[z g] q']|] eqn:Hu; [|done].
  cbn [mbind outcome_bind]. intros [= <- <- <-].
  destruct (sequential_inv max disp gk s l (ODelete (Some k)) (RInt z) g q')
    as (l' & Hv & Hko & Hm & Hd & Hk & Hs); [done|done|unfold iexec; by rewrite Hu|].
  exists l'. split; [|done]. destruct Hinv as (_ & _ & _ & _ & _ & Hc & Hp).
  split_and!; try done. simpl in Hs. destruct (assoc (kv <$> l) k).
  - injection Hs as <- _ Hs. rewrite decide_False by done. split; simpl.
    + apply (f_equal length) in Hs. rewrite length_fmap in Hs. unfold remove_key in Hs.
      pose proof (length_filter (λ x, x.1 ≠ k) (kv <$> l)). rewrite length_fmap in *. lia.
    + destruct (signal_cases (available_not_full s)); lia.
  - injection Hs as <- _ Hs. apply (f_equal length) in Hs. rewrite !length_fmap in Hs.
    split; simpl; by rewrite <-Hs.
Qed.

Lemma update_inv max disp gk s l k a r s' :
  isys_inv max disp gk s l → data_ok gk (kv <$> l) k a →
  indexed_queue_update_ex s (Some k) (Some a) = Ret (r, s') →
  ∃ l', isys_inv max disp gk s' l' ∧
    label_spec max disp (LCall (OUpdate (Some k) (Some a)) (RPtr r) []) (kv <$> l) (kv <$> l').
Proof.
  intros Hinv Hda. unfold indexed_queue_update_ex.
  destruct (indexed_queue_update (ique s) (Some k) (Some a)) as [[z q']|] eqn:Hu; [|done].
  cbn [mbind outcome_bind]. intros [= <- <-].
  destruct (sequential_inv max disp gk s l (OUpdate (Some k) (Some a)) (RPtr z) [] q')
    as (l' & Hv & Hko & Hm & Hd & Hk & Hs); [done|done|unfold iexec; by rewrite Hu|].
  exists l'. split; [|done]. destruct Hinv as (_ & _ & _ & _ & _ & Hw).
  split_and!; try done. unfold wakeups_ok in *. simpl.
  assert (length l' = length l) as ->; [|done].
  rewrite <-(length_fmap kv l'), <-(length_fmap kv l). simpl in Hs.
  destruct (assoc (kv <$> l) k); injection Hs as _ <-; [apply length_set_key|done].
Qed.

Lemma istep_inv max disp gk s l lab s' :
  isys_inv max disp gk s l → istep gk s lab s' →
  ∃ l', isys_inv max disp gk s' l' ∧ label_spec max disp lab (kv <$> l) (kv <$> l').
Proof.
  intros Hinv Hstep. pose proof Hinv as (Hv & Hko & Hm & Hd & Hg & Hc & Hp).
  destruct Hstep as [s k a r s' Hda H'|s k a r s' Hda Hw H'|s k a r gone s' Hda Hn H'
    |s k a e r gone s' Hda Hn H'|s r s' H'|s r s' Hw H'|s r s' Hw H'|s k r gone s' H'
    |s k a r s' Hda H'|s k r H'|s r H'|s Hw|s Hw];
    try (apply (data_known_ok gk s l k a Hv) in Hda).
  - by eapply push_pass.
  - by eapply (push_pass _ _ _ (wake_producer s)).
  - unfold indexed_queue_upsert_ex in H'. rewrite Hn in H'.
    apply outcome_bind_Ret_inv in H' as ([r1 s1] & H' & [= -> <- ->]). by eapply push_pass.
  - by eapply upsert_found_inv.
  - eapply pop_pass; try done. lia.
  - eapply (pop_pass _ _ _ (wake_consumer s)); try done. simpl. lia.
  - injection H' as <- <-. exists l. split; [|done]. split_and!; try done. split; simpl; lia.
  - by eapply delete_inv.
  - by eapply update_inv.
  - unfold indexed_queue_get_ex in H'. rewrite (iq_get_spec _ _ _ Hv) in H'. injection H' as <-.
    by exists l.
  - unfold indexed_queue_peek_ex in H'. rewrite (iq_peek_spec _ _ Hv) in H'. injection H' as <-.
    exists l. split; [done|]. simpl. by rewrite head_kv.
  - exists l. split; [|done]. split_and!; try done. split; simpl; lia.
  - exists l. split; [|done]. split_and!; try done. split; simpl; lia.
Qed.

Definition new_system (max : nat) (disp : bool) (gk : option (A → option string)) : isys :=
  mk_isys (new_queue max disp gk) (mk_cond 0 0) (mk_cond 0 0).

Lemma itrace_inv max disp gk tr s :
  itrace gk (new_system max disp gk) tr s →
  ∃ l, isys_inv max disp gk s l ∧ spec_trace max disp tr (kv <$> l).
Proof.
  induction 1 as [|tr s' lab s'' _ (l & Hinv & Htr) Hstep].
  - exists []. split; [|constructor]. split_and!; try done.
    + apply init_view.
    + destruct gk; [constructor|apply NoDup_nil_2].
    + split; by left.
  - destruct (istep_inv _ _ _ _ _ _ _ Hinv Hstep) as (l' & Hinv' & Hlab).
    exists l'. split; [done|]. by eapply spec_trace_snoc.
Qed.

Lemma ispec_bound max disp s op :
  max ≠ 0 → length s ≤ max → length (ispec max disp s op).2 ≤ max.
Proof.
  intros Hm Hs.
  assert (Hp : ∀ k a dup, length (spec_push max s k a dup).2 ≤ max).
  { intros k a dup. unfold spec_push. case_decide as Hn; cbn [snd]; [done|]. rewrite length_app. simpl.
    unfold is_full in Hn. lia. }
  destruct op as [[k|] [a|] dup|[k|] [a|] dup|k| | |[k|]|[k|] [a|]|]; simpl; try done.
  - specialize (Hp k a dup). by destruct (spec_push _ _ _ _ _).
  - specialize (Hp k a dup). destruct (assoc s k); [simpl; by rewrite length_set_key|].
    by destruct (spec_push _ _ _ _ _).
  - destruct s; simpl in *; lia.
  - destruct (assoc s k); [|done]. simpl. unfold remove_key.
    pose proof (length_filter (λ x, x.1 ≠ k) s). lia.
  - destruct (assoc s k); [|done]. simpl. by rewrite length_set_key.
Qed.

Lemma spec_trace_bound max disp tr s :
  spec_trace max disp tr s → max ≠ 0 → length s ≤ max.
Proof.
  intros Htr Hm. induction Htr as [|tr lab s s' _ IH Hlab]; [simpl; lia|].
  destruct lab as [|op r gone|k a gone]; cbn [label_spec] in Hlab.
  - by subst.
  - pose proof (ispec_bound max disp s op Hm IH) as Hb. by rewrite Hlab in Hb.
  - destruct Hlab as (r & Hs & _).
    pose proof (ispec_bound max disp s (OUpsert (Some k) (Some a) true) Hm IH) as Hb.
    by rewrite Hs in Hb.
Qed.

(** The indexed queue is a bounded FIFO list with access by key.  Every
    sequence of operations on a new queue returns with the results of that list and
    disposes of the data it says, whatever key lookup [pop] uses, so long as the
    callback knows the keys or, without one, no data pointer is queued twice; and
    destroying the queue disposes of the remaining data and leaves neither a node
    nor an entry allocated. *)
Theorem indexed_queue_refines_list max disp gk ops :
  iops_ok max disp gk [] ops →
  ∃ q', irun (new_queue max disp gk) ops = Ret ((ispec_run max disp [] ops).1, q') ∧
    indexed_queue_free q' = Ret (if disp then (ispec_run max disp [] ops).2.*2 else [], ∅, ∅).
Proof.
  intros Hok. destruct (irun_refines (new_queue max disp gk) [] ops) as (q' & l' & Hr & Hs & Hv & _ & Hd & _);
    [apply init_view|by destruct gk; [constructor|apply NoDup_nil_2]|done|].
  exists q'. split; [exact Hr|]. rewrite (free_spec _ _ Hv), Hd. cbn [new_queue dispose] in *.
  change (max_size _) with max in Hs. change (dispose _) with disp in Hs |- *.
  cbn [fmap list_fmap] in Hs. rewrite Hs, kv_data. done.
Qed.


End indexed_queue.
Arguments indexed_queue : clear implicits.
Arguments isys : clear implicits.
Arguments iop : clear implicits.
Arguments ires : clear implicits.
Arguments ilabel : clear implicits.

(** ** Instances: the index is the red-black tree *)

Abbreviation tree := (rb_tree loc).
Abbreviation malloc := (fresh : gset loc → loc).

Lemma malloc_fresh (X : gset loc) : malloc X ∉ X.
Proof. apply is_fresh. Qed.

#[local] Open Scope string_scope.
#[local] Open Scope list_scope.
#[local] Open Scope nat_scope.

Definition demo_iops : list (iop nat) :=
  [OPush (Some "a") (Some 1) true; OPush (Some "b") (Some 2) true; OPush (Some "a") (Some 3) true;
   OUpsert (Some "a") (Some 4) true; OPush (Some "c") (Some 5) true; OPush (Some "d") (Some 6) true;
   ODelete (Some "b"); OUpdate (Some "c") (Some 7); OPop; OGet (Some "c"); OPeek; OSize].

Lemma indexed_queue_refines_list_witness :
  ∃ q', irun malloc malloc (new_queue 3 true None : indexed_queue nat tree) demo_iops =
      Ret ([(RInt 0, []); (RInt 0, []); (RInt (-1), []); (RInt 0, [1]); (RInt 0, []);
            (RInt (-1), []); (RInt 1, [2]); (RPtr (Some 5), []); (RPtr (Some 4), []);
            (RPtr (Some 7), []); (RPtr (Some 7), []); (RSize 1, [])], q') ∧
    indexed_queue_free q' = Ret ([7], ∅, ∅).
Proof.
  apply (indexed_queue_refines_list malloc malloc malloc_fresh malloc_fresh 3 true None demo_iops).
  vm_compute. repeat split; intros Hin;
    repeat (apply elem_of_cons in Hin as [?|Hin]; [done|]); by apply elem_of_nil in Hin.
Defined.

(** Data are numbers and the callback knows their keys. *)
Definition demo_key (n : nat) : option string :=
  Some (match n with 1 => "x" | 2 => "y" | 3 => "y" | 4 => "z" | _ => "a" end).

Abbreviation demo_system := (new_system 2 false (Some demo_key) : isys nat tree).

(** The queue is filled and a third producer goes to sleep. *)
Definition demo_full : isys nat tree :=
  match indexed_queue_push_ex malloc malloc demo_system (Some "x") (Some 1) true with
  | Ret (_, s) =>
      match indexed_queue_push_ex malloc malloc s (Some "y") (Some 2) true with
      | Ret (_, s) => s
      | Stuck _ => demo_system
      end
  | Stuck _ => demo_system
  end.

Abbreviation demo_itrace := (itrace malloc malloc (Some demo_key)).
Abbreviation pushed k a := (LCall (OPush (Some k) (Some a) true) (RInt 0) []).

Lemma demo_full_trace : demo_itrace demo_system [pushed "x" 1; pushed "y" 2] demo_full.
Proof.
  change [pushed "x" 1; pushed "y" 2] with
    (([] ++ [push_label "x" 1 (Some 0%Z)]) ++ [push_label "y" 2 (Some 0%Z)]).
  eapply itrace_snoc; [eapply itrace_snoc; [apply itrace_nil|]|].
  - eapply istep_push; [reflexivity|]. vm_compute. reflexivity.
  - eapply istep_push; [reflexivity|]. vm_compute. reflexivity.
Qed.


(** A pass of the loop of a demo producer, and of a consumer. *)
Definition after {R} (o : outcome (R * isys nat tree)) (s : isys nat tree) : isys nat tree :=
  match o with Ret (_, s') => s' | Stuck _ => s end.

Definition demo_waiting : isys nat tree :=
  after (indexed_queue_upsert_ex malloc malloc demo_full (Some "a") (Some 10) true) demo_full.

Definition demo_popped (s : isys nat tree) : isys nat tree := after (indexed_queue_pop_ex s) s.

Definition demo_overtaken : isys nat tree :=
  let s := demo_popped (demo_popped demo_waiting) in
  after (indexed_queue_upsert_ex malloc malloc s (Some "a") (Some 20) true) s.

Lemma demo_overtaken_trace :
  demo_itrace demo_waiting [LCall OPop (RPtr (Some 1)) []; LCall OPop (RPtr (Some 2)) [];
    pushed "a" 20] demo_overtaken.
Proof.
  change (demo_itrace demo_waiting ((([] ++ [pop_label (Some (Some 1))]) ++
    [pop_label (Some (Some 2))]) ++ [push_label "a" 20 (Some 0%Z)]) demo_overtaken).
  eapply itrace_snoc; [eapply itrace_snoc; [eapply itrace_snoc; [apply itrace_nil|]|]|].
  - eapply istep_pop. vm_compute. reflexivity.
  - eapply istep_pop. vm_compute. reflexivity.
  - eapply istep_upsert_new; vm_compute; reflexivity.
Qed.

(** a thread in [indexed_queue_upsert_ex] that waits for room does not look
    its key up again.  The queue of this run is full when the thread calls it, so it
    sleeps; two elements are popped, which signals it; another thread inserts the
    same key; then the first thread, with room in the queue, returns -1 and its data
    are not in the queue, although the key could have been updated. *)
Theorem indexed_queue_upsert_ex_drops_update :
  ∃ tr1 s1 s2 tr2 s3 s4,
    demo_itrace demo_system tr1 s1 ∧
    indexed_queue_upsert_ex malloc malloc s1 (Some "a") (Some 10) true = Ret (None, [], s2) ∧
    demo_itrace s2 tr2 s3 ∧ signalled (available_not_full s3) = 1 ∧
    indexed_queue_full (ique s3) = false ∧
    indexed_queue_push_ex malloc malloc (wake_producer s3) (Some "a") (Some 10) true =
      Ret (Some (-1)%Z, s4) ∧
    indexed_queue_get (ique s4) (Some "a") = Ret (Some 20).
Proof.
  eexists _, demo_full, demo_waiting, _, demo_overtaken, _.
  split_and!; [exact demo_full_trace|vm_compute; reflexivity|exact demo_overtaken_trace| | | |];
    vm_compute; reflexivity.
Qed.

Definition demo_two_waiting : isys nat tree :=
  let s := after (indexed_queue_push_ex malloc malloc demo_full (Some "y") (Some 3) true) demo_full in
  after (indexed_queue_push_ex malloc malloc s (Some "z") (Some 4) true) s.

Definition demo_stranded : isys nat tree :=
  let s := demo_popped demo_two_waiting in
  after (indexed_queue_push_ex malloc malloc (wake_producer s) (Some "y") (Some 3) true) s.

Lemma demo_stranded_trace :
  demo_itrace demo_full [LTau; LTau; LCall OPop (RPtr (Some 1)) [];
    LCall (OPush (Some "y") (Some 3) true) (RInt (-1)) []] demo_stranded.
Proof.
  change (demo_itrace demo_full (((([] ++ [push_label "y" 3 None]) ++ [push_label "z" 4 None]) ++
    [pop_label (Some (Some 1))]) ++ [push_label "y" 3 (Some (-1)%Z)]) demo_stranded).
  eapply itrace_snoc; [eapply itrace_snoc; [eapply itrace_snoc; [eapply itrace_snoc; [apply itrace_nil|]|]|]|].
  - eapply istep_push; [reflexivity|]. vm_compute. reflexivity.
  - eapply istep_push; [reflexivity|]. vm_compute. reflexivity.
  - eapply istep_pop. vm_compute. reflexivity.
  - eapply istep_resume_push; [reflexivity|vm_compute; lia|]. vm_compute. reflexivity.
Qed.

(** a producer that is woken for a free slot and then fails, because its key
    is in the queue, does not pass the signal on.  In this run one producer stays
    asleep beside a queue with a free slot, and nobody is signalled; C23 shows that
    the next removal wakes it. *)
Theorem indexed_queue_failed_push_keeps_signal :
  ∃ tr1 s1 tr2 s2,
    demo_itrace demo_system tr1 s1 ∧ demo_itrace s1 tr2 s2 ∧
    indexed_queue_full (ique s2) = false ∧ 0 < asleep (available_not_full s2) ∧
    signalled (available_not_full s2) = 0.
Proof.
  eexists _, demo_full, _, demo_stranded.
  split_and!; [exact demo_full_trace|exact demo_stranded_trace|..]; vm_compute; (reflexivity || lia).
Qed.
