(* ===== verification/Wire.v ===== *)
(** * Message framing on stream sockets ([shared/os_net/os_net.c])

    Agents and manager exchange messages over TCP as a 4-byte little-endian
    length followed by the payload; the nodes of a cluster use a 20-byte header
    with a big-endian length and a padded command.  This file models the byte
    order conversions, the blocking receive loop and both pairs of send and
    receive functions.  [recv] is the kernel's: it returns at least one and at
    most the requested number of the bytes that are pending, in order; how many is
    up to a schedule, so the theorems hold for every segmentation. *)

From stdpp Require Import base numbers list.
From Stdlib Require Import Lia ZArith Strings.Byte.
From coqutil Require Import Byte Word.LittleEndianList.
From S2P Require Import Prelude CString.

#[local] Open Scope Z_scope.

Definition OS_SOCKTERR : Z := -6.

(** ** Byte order *)

Definition u32 (z : Z) : Z := z mod 2 ^ 32.

Definition byte_swap (value : Z) : Z :=
  Z.lor (Z.lor (Z.lor (Z.shiftr value 24) (u32 (Z.shiftl value 24)))
               (Z.shiftr (Z.land value 0xFF0000) 8))
        (u32 (Z.shiftl (Z.land value 0xFF00) 8)).

(** [big]: the host is big-endian. *)
Definition wnet_order (big : bool) (value : Z) : Z :=
  if big then byte_swap value else value.

Definition wnet_order_big (big : bool) (value : Z) : Z :=
  if big then value else byte_swap value.

(** A [uint32_t] in memory, and the value read from four bytes. *)
Definition host_bytes (big : bool) (v : Z) : list byte :=
  if big then rev (le_split 4 v) else le_split 4 v.

Definition host_word (big : bool) (bs : list byte) : Z :=
  le_combine (if big then rev bs else bs).

(** ** The socket *)

Inductive recv_end : Type := Disconnected | RecvError.

(** The bytes the peer has sent and that were not received yet; how many the next
    calls of [recv] return at most; and what happens after them. *)
Record socket : Type := mk_socket {
  stream : list byte;
  schedule : list nat;
  at_end : recv_end;
}.

Definition recv (s : socket) (n : nat) : Z * list byte * socket :=
  match stream s with
  | [] => (match at_end s with Disconnected => 0 | RecvError => -1 end, [], s)
  | _ =>
      let k := Nat.min n (Nat.max 1 (default n (head (schedule s)))) in
      let got := take k (stream s) in
      (Z.of_nat (length got), got, mk_socket (drop k (stream s)) (tail (schedule s)) (at_end s))
  end.

(** The loop of [os_recv_waitall]: every turn receives at least one byte, so
    [size] turns are enough. *)
Fixpoint recv_loop (fuel : nat) (s : socket) (buf : list byte) (offset size : nat)
    : outcome (Z * list byte * socket) :=
  if decide (size ≤ offset)%nat then Ret (Z.of_nat offset, buf, s)
  else match fuel with
  | O => Stuck OutOfFuel
  | S fuel =>
      let '(recvb, got, s') := recv s (size - offset) in
      if decide (recvb ≤ 0) then Ret (recvb, buf, s')
      else
        buf' ← c_store buf offset got;
        recv_loop fuel s' buf' (offset + length got) size
  end.

Definition os_recv_waitall (s : socket) (buf : list byte) (size : nat)
    : outcome (Z * list byte * socket) := recv_loop size s buf 0 size.

(** ** Secure messages *)

(** The buffer of [OS_SendSecureTCP] and its result, given that of [send]. *)
Definition secure_frame (big : bool) (size : nat) (msg : list byte) : outcome (list byte) :=
  payload ← c_slice msg 0 size;
  Ret (host_bytes big (wnet_order big (Z.of_nat size)) ++ payload).

Definition OS_SendSecureTCP (big : bool) (send : list byte → Z) (sock : Z) (size : nat)
    (msg : list byte) : outcome (Z * list byte) :=
  if decide (sock < 0) then Ret (OS_SOCKTERR, [])
  else
    buffer ← secure_frame big size msg;
    Ret (if decide (send buffer = Z.of_nat (length buffer)) then 0 else OS_SOCKTERR, buffer).

(** [(int32_t)] of an unsigned value. *)
Definition int32 (z : Z) : Z :=
  if decide (u32 z < 2 ^ 31) then u32 z else u32 z - 2 ^ 32.

Definition OS_RecvSecureTCP (big : bool) (s : socket) (ret : list byte) (size : nat)
    : outcome (Z * list byte * socket) :=
  '(recvval, hdr, s1) ← os_recv_waitall s (replicate 4 Byte.x00) 4;
  if decide (recvval = -1 ∨ recvval = 0) then Ret (recvval, ret, s1)
  else
    let msgsize := wnet_order big (host_word big hdr) in
    if decide (Z.of_nat size < msgsize) then Ret (OS_SOCKTERR, ret, s1)
    else
      '(recvb, ret1, s2) ← os_recv_waitall s1 ret (Z.to_nat msgsize);
      ret2 ← (if decide (recvb = int32 msgsize ∧ msgsize < Z.of_nat size)
              then c_write ret1 (Z.to_nat msgsize) Byte.x00 else Ret ret1);
      Ret (recvb, ret2, s2).

(** ** Cluster messages *)

Definition COMMAND_SIZE : nat := 12.
Definition HEADER_SIZE : nat := 8.
Definition MAX_PAYLOAD_SIZE : nat := Pos.to_nat 1000000.

(** [COMMAND_SIZE - cmd_length - 1], on [size_t]. *)
Definition pad_length (cmd_length : nat) : Z :=
  (Z.of_nat COMMAND_SIZE - Z.of_nat cmd_length - 1) mod 2 ^ 64.

(** [memset]: [n] bytes at an offset of a block. *)
Definition c_memset (l : list byte) (off : nat) (b : byte) (n : Z) : outcome (list byte) :=
  if decide (Z.of_nat off + n ≤ Z.of_nat (length l))
  then c_store l off (replicate (Z.to_nat n) b) else Stuck OutOfBounds.

(** The message that [OS_SendSecureTCPCluster] builds; [mem] is the content of the
    fresh buffer. *)
Definition cluster_frame (big : bool) (counter : Z) (mem : nat → byte)
    (command payload : list byte) : outcome (list byte) :=
  let len := length payload in
  let cmd_length := length command in
  let b0 := mem <$> seq 0 (HEADER_SIZE + COMMAND_SIZE + len) in
  b1 ← c_store b0 0 (host_bytes big (wnet_order_big big counter));
  b2 ← c_store b1 4 (host_bytes big (wnet_order_big big (Z.of_nat len)));
  b3 ← c_store b2 HEADER_SIZE command;
  b4 ← c_write b3 (HEADER_SIZE + cmd_length) Byte.x20;
  b5 ← c_memset b4 (HEADER_SIZE + cmd_length + 1) Byte.x2d (pad_length cmd_length);
  c_store b5 (HEADER_SIZE + COMMAND_SIZE) payload.

Definition OS_SendSecureTCPCluster (big : bool) (counter : Z) (mem : nat → byte)
    (send : list byte → Z) (command : option (list byte)) (payload : list byte)
    : outcome (Z * list byte) :=
  match command with
  | None => Ret (-1, [])
  | Some command =>
      if decide (MAX_PAYLOAD_SIZE < length payload)%nat then Ret (-1, [])
      else if decide (COMMAND_SIZE < length command)%nat then Ret (-1, [])
      else
        buffer ← cluster_frame big counter mem command payload;
        Ret (if decide (send buffer = Z.of_nat (length buffer)) then 0 else OS_SOCKTERR, buffer)
  end.

(** The bytes of [err --------]. *)
Definition err_command : list byte :=
  [Byte.x65; Byte.x72; Byte.x72; Byte.x20] ++ replicate 8 Byte.x2d.

Definition OS_RecvSecureClusterTCP (big : bool) (s : socket) (ret : list byte) (len : nat)
    : outcome (Z * list byte * socket) :=
  '(recvval, hdr, s1) ← os_recv_waitall s (replicate 20 Byte.x00) 20;
  if decide (recvval = -1 ∨ recvval = 0) then Ret (recvval, ret, s1)
  else if decide (u32 recvval ≠ 20) then Ret (-1, ret, s1)
  else
    w ← c_slice hdr 4 4;
    let size := wnet_order_big big (host_word big w) in
    if decide (Z.of_nat len < size) then Ret (-1, ret, s1)
    else
      '(recv_size, ret1, s2) ← os_recv_waitall s1 ret (Z.to_nat size);
      if decide (take 12 (drop 8 hdr) = err_command) then Ret (-2, ret1, s2)
      else Ret (recv_size, ret1, s2).

(** ** Byte order: what goes over the wire does not depend on the host *)

Lemma of_Z_bits (a b : Z) :
  (∀ i, 0 ≤ i < 8 → Z.testbit a i = Z.testbit b i) → byte.of_Z a = byte.of_Z b.
Proof.
  intros Hab. apply byte.unsigned_inj. rewrite !byte.unsigned_of_Z. unfold byte.wrap.
  rewrite <-!Z.land_ones by lia. apply Z.bits_inj'. intros n Hn. rewrite !Z.land_spec.
  destruct (Z.ltb_spec n 8); [by rewrite Hab by lia|].
  rewrite Z.ones_spec_high by lia. by rewrite !andb_false_r.
Qed.

Lemma testbit_u32 v i : 0 ≤ v < 2 ^ 32 → 32 ≤ i → Z.testbit v i = false.
Proof.
  intros Hv Hi. destruct (decide (v = 0)) as [->|]; [apply Z.bits_0|].
  apply Z.bits_above_log2; [lia|]. apply Z.log2_lt_pow2; [lia|].
  apply Z.lt_le_trans with (2 ^ 32); [lia|]. apply Z.pow_le_mono_r; lia.
Qed.

Lemma le_split_4 w :
  le_split 4 w = [byte.of_Z w; byte.of_Z (Z.shiftr w 8); byte.of_Z (Z.shiftr w 16);
                  byte.of_Z (Z.shiftr w 24)].
Proof. unfold le_split. rewrite !Z.shiftr_shiftr by lia. done. Qed.

Lemma byte_swap_bytes v :
  0 ≤ v < 2 ^ 32 → le_split 4 (byte_swap v) = rev (le_split 4 v).
Proof.
  intros Hv. rewrite !le_split_4. cbn [rev app]. unfold byte_swap, u32.
  rewrite <-!Z.land_ones by lia.
  repeat match goal with |- _ :: _ = _ :: _ => f_equal end; apply of_Z_bits; intros i Hi;
  assert (i = 0 ∨ i = 1 ∨ i = 2 ∨ i = 3 ∨ i = 4 ∨ i = 5 ∨ i = 6 ∨ i = 7) as Hc by lia;
  destruct_or! Hc; subst i;
  rewrite ?Z.shiftr_spec, ?Z.lor_spec, ?Z.shiftr_spec, ?Z.land_spec, ?Z.shiftl_spec,
    ?Z.shiftr_spec, ?Z.land_spec by lia;
  rewrite ?Z.ones_spec_low, ?(testbit_u32 v (_ + _)) by lia; cbn;
  rewrite ?andb_false_r, ?andb_true_r, ?orb_false_r; cbn;
  rewrite ?(testbit_u32 v) by lia; reflexivity.
Qed.

Lemma byte_swap_bound v : 0 ≤ v < 2 ^ 32 → 0 ≤ byte_swap v < 2 ^ 32.
Proof.
  intros Hv. assert (byte_swap v = byte_swap v mod 2 ^ 32) as ->; [|by apply Z.mod_pos_bound].
  rewrite <-Z.land_ones by lia. unfold byte_swap, u32. rewrite <-!Z.land_ones by lia.
  apply Z.bits_inj'. intros i Hi. rewrite Z.land_spec.
  destruct (Z.ltb_spec i 32); [by rewrite Z.ones_spec_low, andb_true_r by lia|].
  rewrite (Z.ones_spec_high 32 i), andb_false_r by lia.
  rewrite !Z.lor_spec, !Z.shiftr_spec, !Z.land_spec, Z.ones_spec_high by lia.
  by rewrite !(testbit_u32 v) by lia; rewrite !andb_false_r.
Qed.

Lemma le_combine_range bs : length bs = 4%nat → 0 ≤ le_combine bs < 2 ^ 32.
Proof.
  intros Hl. rewrite <-(split_le_combine bs), le_combine_split, Hl. by apply Z.mod_pos_bound.
Qed.

Lemma le_combine_byte_swap v :
  0 ≤ v < 2 ^ 32 → byte_swap v = le_combine (rev (le_split 4 v)).
Proof.
  intros Hv. rewrite <-byte_swap_bytes, le_combine_split by done.
  rewrite Z.mod_small; [done|by apply byte_swap_bound].
Qed.

Lemma split_combine_4 bs : length bs = 4%nat → le_split 4 (le_combine bs) = bs.
Proof. intros Hl. rewrite <-Hl. apply split_le_combine. Qed.

(** Writing a length and reading it back, on any host. *)
Lemma host_bytes_wnet big v :
  0 ≤ v < 2 ^ 32 → host_bytes big (wnet_order big v) = le_split 4 v.
Proof.
  intros Hv. unfold host_bytes, wnet_order. destruct big; [|done]. by rewrite byte_swap_bytes, rev_involutive.
Qed.

Lemma wnet_host_word big bs :
  length bs = 4%nat → wnet_order big (host_word big bs) = le_combine bs.
Proof.
  intros Hl. unfold wnet_order, host_word. destruct big; [|done].
  assert (length (rev bs) = 4%nat) by by rewrite length_rev.
  rewrite le_combine_byte_swap, split_combine_4, rev_involutive by (by apply le_combine_range || done).
  done.
Qed.

Lemma host_bytes_wnet_big big v :
  0 ≤ v < 2 ^ 32 → host_bytes big (wnet_order_big big v) = rev (le_split 4 v).
Proof.
  intros Hv. unfold host_bytes, wnet_order_big. destruct big; [done|]. by rewrite byte_swap_bytes.
Qed.

Lemma wnet_big_host_word big bs :
  length bs = 4%nat → wnet_order_big big (host_word big bs) = le_combine (rev bs).
Proof.
  intros Hl. unfold wnet_order_big, host_word. destruct big; [done|].
  by rewrite le_combine_byte_swap, split_combine_4 by (by apply le_combine_range || done).
Qed.

Lemma le_combine_le_split_4 v : 0 ≤ v < 2 ^ 32 → le_combine (le_split 4 v) = v.
Proof. intros Hv. rewrite le_combine_split. by apply Z.mod_small. Qed.

(** ** The receive loop *)

Lemma recv_pending s n :
  stream s ≠ [] → (0 < n)%nat →
  ∃ got s', recv s n = (Z.of_nat (length got), got, s') ∧ got ≠ [] ∧ (length got ≤ n)%nat ∧
    stream s = got ++ stream s' ∧ at_end s' = at_end s.
Proof.
  intros Hs Hn. unfold recv. destruct (stream s) as [|b bs] eqn:E; [done|].
  eexists _, _. split; [reflexivity|]. cbn [stream at_end].
  set (k := Nat.min n _). assert (0 < k ≤ n)%nat by lia. split_and!; try done.
  - destruct k; [lia|done].
  - rewrite length_take. lia.
  - by rewrite take_drop.
Qed.

(** All the bytes arrive, in whatever pieces. *)
Lemma recv_loop_full fuel s buf off size xs rest :
  stream s = xs ++ rest → (off + length xs = size)%nat → (size ≤ length buf)%nat →
  (length xs ≤ fuel)%nat →
  ∃ s', recv_loop fuel s buf off size = Ret (Z.of_nat size, splice buf off xs, s') ∧
    stream s' = rest ∧ at_end s' = at_end s.
Proof.
  revert s buf off xs. induction fuel as [|fuel IH]; intros s buf off xs Hs Hsz Hb Hf.
  - destruct xs; [|simpl in *; lia]. exists s. simpl in *. rewrite decide_True by lia.
    rewrite splice_nil. split_and!; [|done..]. do 3 f_equal. lia.
  - simpl. case_decide.
    { destruct xs; [|simpl in *; lia]. exists s. rewrite splice_nil. simpl in *.
      split_and!; [|done..]. do 3 f_equal. lia. }
    destruct (recv_pending s (size - off)) as (got & s1 & -> & Hne & Hlen & Hst & Hend);
      [destruct xs; [simpl in *; lia|by rewrite Hs]|lia|].
    assert (length got ≠ 0)%nat by (by destruct got).
    rewrite decide_False by lia. rewrite c_store_ok by lia. rewrite outcome_bind_ret.
    rewrite Hs in Hst. assert (xs = got ++ drop (length got) xs) as Hxs.
    { apply (f_equal (take (length got))) in Hst as Ht.
      rewrite take_app_le, take_app_length in Ht by lia.
      rewrite <-Ht at 1. by rewrite take_drop. }
    destruct (IH s1 (splice buf off got) (off + length got)%nat (drop (length got) xs))
      as (s' & -> & Hr & He).
    + rewrite Hxs, <-app_assoc in Hst. by apply app_inv_head in Hst.
    + rewrite length_drop. lia.
    + rewrite length_splice; lia.
    + rewrite length_drop. lia.
    + exists s'. rewrite splice_app, <-Hxs by (rewrite length_drop; lia).
      split_and!; [done..|congruence].
Qed.

(** On any stream the loop ends and stays inside the buffer. *)
Lemma recv_loop_total fuel s buf off size :
  (off ≤ size ≤ length buf)%nat → (size - off ≤ fuel)%nat →
  ∃ r buf' s', recv_loop fuel s buf off size = Ret (r, buf', s') ∧ length buf' = length buf ∧
    (r = Z.of_nat size ∨ r = 0 ∨ r = -1).
Proof.
  revert s buf off. induction fuel as [|fuel IH]; intros s buf off Ho Hf; simpl.
  - rewrite decide_True by lia. eexists _, _, _. split_and!; [done..|]. left. lia.
  - case_decide; [eexists _, _, _; split_and!; [done..|]; left; lia|].
    destruct (decide (stream s = [])) as [E|Hne].
    { unfold recv. rewrite E. destruct (at_end s); rewrite decide_True by lia;
        eexists _, _, _; split_and!; [done|done|lia|done|done|lia]. }
    destruct (recv_pending s (size - off)) as (got & s1 & -> & Hg & Hlen & _); [done|lia|].
    assert (length got ≠ 0)%nat by (by destruct got).
    rewrite decide_False by lia. rewrite c_store_ok by lia. rewrite outcome_bind_ret.
    destruct (IH s1 (splice buf off got) (off + length got)%nat) as (r & b & s' & -> & Hb & Hr);
      [rewrite length_splice; lia|lia|].
    eexists _, _, _. split_and!; [done| |done]. by rewrite Hb, length_splice by lia.
Qed.

Lemma waitall_full s buf xs rest :
  stream s = xs ++ rest → (length xs ≤ length buf)%nat →
  ∃ s', os_recv_waitall s buf (length xs) = Ret (Z.of_nat (length xs), splice buf 0 xs, s') ∧
    stream s' = rest.
Proof.
  intros Hs Hl. destruct (recv_loop_full (length xs) s buf 0 (length xs) xs rest)
    as (s' & Hr & ? & _); [done|lia|done|done|]. by exists s'.
Qed.

Lemma waitall_total s buf size :
  (size ≤ length buf)%nat →
  ∃ r buf' s', os_recv_waitall s buf size = Ret (r, buf', s') ∧ length buf' = length buf ∧
    (r = Z.of_nat size ∨ r = 0 ∨ r = -1).
Proof. intros Hl. apply recv_loop_total; lia. Qed.

Definition end_code (e : recv_end) : Z := match e with Disconnected => 0 | RecvError => -1 end.

(** The peer stops before the last byte. *)
Lemma recv_loop_short fuel s buf off size :
  (off + length (stream s) < size ≤ length buf)%nat → (size - off ≤ fuel)%nat →
  ∃ buf' s', recv_loop fuel s buf off size = Ret (end_code (at_end s), buf', s') ∧ stream s' = [].
Proof.
  revert s buf off. induction fuel as [|fuel IH]; intros s buf off Ho Hf; [lia|]. simpl.
  rewrite decide_False by lia. destruct (decide (stream s = [])) as [E|Hne].
  { unfold recv. rewrite E. destruct (at_end s); rewrite decide_True by lia;
      eexists _, _; by split. }
  destruct (recv_pending s (size - off)) as (got & s1 & -> & Hg & Hlen & Hs & He); [done|lia|].
  assert (length got ≠ 0)%nat by (by destruct got). rewrite Hs, length_app in Ho.
  rewrite decide_False by lia. rewrite c_store_ok by lia. rewrite outcome_bind_ret, <-He.
  apply IH; [rewrite length_splice; lia|lia].
Qed.

(** ** Secure messages *)

Definition frame (msg : list byte) : list byte :=
  le_split 4 (Z.of_nat (length msg)) ++ msg.

Lemma secure_frame_spec big msg :
  Z.of_nat (length msg) < 2 ^ 32 → secure_frame big (length msg) msg = Ret (frame msg).
Proof.
  intros Hl. unfold secure_frame. rewrite c_slice_ok by lia. rewrite outcome_bind_ret.
  rewrite host_bytes_wnet by lia. rewrite drop_0, firstn_all. done.
Qed.

Lemma splice_0_full {A} (l xs : list A) : length xs = length l → splice l 0 xs = xs.
Proof.
  intros Hl. unfold splice. rewrite take_0, Nat.add_0_l, drop_ge by lia. by rewrite app_nil_r.
Qed.

(** The header of a message, on any host. *)
Lemma recv_header big s bs rest :
  length bs = 4%nat → stream s = bs ++ rest →
  ∃ s', os_recv_waitall s (replicate 4 Byte.x00) 4 = Ret (4, bs, s') ∧ stream s' = rest ∧
    wnet_order big (host_word big bs) = le_combine bs.
Proof.
  intros Hl Hs. destruct (waitall_full s (replicate 4 Byte.x00) bs rest Hs) as (s' & Hw & Hr);
    [by rewrite Hl|].
  rewrite Hl, splice_0_full in Hw by done. exists s'. split_and!; [done..|].
  by apply wnet_host_word.
Qed.

(** What [OS_RecvSecureTCP] leaves in the buffer. *)
Definition received (ret msg : list byte) (size : nat) : list byte :=
  if decide (length msg < size)%nat then <[length msg := Byte.x00]> (splice ret 0 msg)
  else splice ret 0 msg.

Lemma int32_small z : 0 ≤ z < 2 ^ 31 → int32 z = z.
Proof.
  intros Hz. unfold int32, u32. rewrite Z.mod_small by lia. by rewrite decide_True by lia.
Qed.

Lemma recv_secure_ok big s ret size msg rest :
  stream s = frame msg ++ rest → (length msg ≤ size ≤ length ret)%nat →
  Z.of_nat size < 2 ^ 31 →
  ∃ s', OS_RecvSecureTCP big s ret size =
      Ret (Z.of_nat (length msg), received ret msg size, s') ∧ stream s' = rest.
Proof.
  intros Hs Hl Hz. unfold OS_RecvSecureTCP, frame in *. rewrite <-app_assoc in Hs.
  destruct (recv_header big s _ _ (length_le_split 4 _) Hs) as (s1 & -> & Hs1 & Hw).
  rewrite outcome_bind_ret, Hw, le_combine_le_split_4 by lia.
  rewrite decide_False by lia. rewrite decide_False by lia. rewrite Nat2Z.id.
  destruct (waitall_full s1 ret msg rest Hs1) as (s2 & -> & Hs2); [lia|].
  rewrite outcome_bind_ret, int32_small by lia. unfold received. exists s2.
  case_decide as Hd; case_decide; try lia; [|done].
  rewrite c_write_lt by (rewrite length_splice; lia). done.
Qed.

Lemma recv_secure_too_long big s ret size msg rest :
  stream s = frame msg ++ rest → (size < length msg)%nat → Z.of_nat (length msg) < 2 ^ 32 →
  ∃ s', OS_RecvSecureTCP big s ret size = Ret (OS_SOCKTERR, ret, s') ∧ stream s' = msg ++ rest.
Proof.
  intros Hs Hl Hz. unfold OS_RecvSecureTCP, frame in *. rewrite <-app_assoc in Hs.
  destruct (recv_header big s _ _ (length_le_split 4 _) Hs) as (s1 & -> & Hs1 & Hw).
  rewrite outcome_bind_ret, Hw, le_combine_le_split_4 by lia.
  rewrite decide_False by lia. rewrite decide_True by lia. by exists s1.
Qed.

Lemma wnet_host_word_range big bs :
  length bs = 4%nat → 0 ≤ wnet_order big (host_word big bs) < 2 ^ 32.
Proof. intros Hl. rewrite wnet_host_word by done. by apply le_combine_range. Qed.

Lemma recv_secure_total big s ret size :
  (size ≤ length ret)%nat →
  ∃ r ret' s', OS_RecvSecureTCP big s ret size = Ret (r, ret', s') ∧
    length ret' = length ret ∧ r ≤ Z.of_nat size.
Proof.
  intros Hl. unfold OS_RecvSecureTCP.
  destruct (waitall_total s (replicate 4 Byte.x00) 4) as (r & hdr & s1 & -> & Hh & Hr); [done|].
  rewrite outcome_bind_ret. case_decide; [eexists _, _, _; split_and!; [done..|lia]|].
  pose proof (wnet_host_word_range big hdr Hh) as Hw.
  set (m := wnet_order big (host_word big hdr)) in *. clearbody m.
  case_decide; [eexists _, _, _; split_and!; [done..|unfold OS_SOCKTERR; lia]|].
  destruct (waitall_total s1 ret (Z.to_nat m)) as (r2 & ret2 & s2 & -> & Hl2 & Hr2); [lia|].
  rewrite outcome_bind_ret. case_decide.
  - rewrite c_write_lt by lia. eexists _, _, _. rewrite outcome_bind_ret.
    split_and!; [done| |lia]. by rewrite length_insert.
  - eexists _, _, _. rewrite outcome_bind_ret. split_and!; [done..|lia].
Qed.

(** Several messages in a row, each sent whole. *)
Fixpoint send_all (big : bool) (sock : Z) (msgs : list (list byte)) : outcome (list Z * list byte) :=
  match msgs with
  | [] => Ret ([], [])
  | msg :: msgs =>
      '(r, out) ← OS_SendSecureTCP big (λ b, Z.of_nat (length b)) sock (length msg) msg;
      '(rs, outs) ← send_all big sock msgs;
      Ret (r :: rs, out ++ outs)
  end.

(** The results of [n] calls, each with the bytes it reports. *)
Fixpoint receive_n (big : bool) (n : nat) (s : socket) (ret : list byte) (size : nat)
    : outcome (list (Z * list byte) * socket) :=
  match n with
  | O => Ret ([], s)
  | S n =>
      '(r, ret', s1) ← OS_RecvSecureTCP big s ret size;
      '(rs, s2) ← receive_n big n s1 ret' size;
      Ret ((r, take (Z.to_nat r) ret') :: rs, s2)
  end.

Lemma send_all_spec big sock msgs :
  0 ≤ sock → Forall (λ m, Z.of_nat (length m) < 2 ^ 32) msgs →
  send_all big sock msgs = Ret ((λ _, 0) <$> msgs, concat (frame <$> msgs)).
Proof.
  intros Hs. induction 1 as [|m msgs Hm _ IH]; [done|]. cbn [send_all]. unfold OS_SendSecureTCP.
  rewrite decide_False by lia. rewrite secure_frame_spec by done. rewrite outcome_bind_ret.
  rewrite decide_True by done. rewrite outcome_bind_ret, IH. done.
Qed.

Lemma length_received ret msg size :
  (length msg ≤ length ret)%nat → length (received ret msg size) = length ret.
Proof.
  intros Hl. unfold received. case_decide; rewrite ?length_insert; by rewrite length_splice by lia.
Qed.

Lemma take_received ret msg size :
  (length msg ≤ length ret)%nat → take (length msg) (received ret msg size) = msg.
Proof.
  intros Hl. assert (take (length msg) (splice ret 0 msg) = msg) as E.
  { unfold splice. rewrite take_0. cbn [app]. by rewrite take_app_length. }
  unfold received. case_decide; [|done]. by rewrite take_insert_ge by lia.
Qed.

Lemma receive_n_frames big msgs s ret size rest :
  Forall (λ m, (length m ≤ size)%nat) msgs → (size ≤ length ret)%nat → Z.of_nat size < 2 ^ 31 →
  stream s = concat (frame <$> msgs) ++ rest →
  ∃ s', receive_n big (length msgs) s ret size =
      Ret ((λ m, (Z.of_nat (length m), m)) <$> msgs, s') ∧ stream s' = rest.
Proof.
  intros Hm. revert s ret. induction Hm as [|m msgs Hm _ IH]; intros s ret Hr Hz Hs; [by exists s|].
  cbn [concat fmap list_fmap] in Hs. rewrite <-app_assoc in Hs. cbn [length receive_n].
  destruct (recv_secure_ok big s ret size m _ Hs) as (s1 & -> & Hs1); [lia|done|].
  rewrite outcome_bind_ret.
  destruct (IH s1 (received ret m size)) as (s2 & -> & Hs2);
    [by rewrite length_received by lia|done|done|].
  rewrite outcome_bind_ret, Nat2Z.id, take_received by lia. by exists s2.
Qed.

(** ** Cluster messages *)

Lemma slice_mid {A} (a b c : list A) off n :
  length a = off → length b = n → take n (drop off (a ++ b ++ c)) = b.
Proof. intros <- <-. by rewrite drop_app_length, take_app_length. Qed.

Lemma c_store_at {A} (a b b' c : list A) off :
  length a = off → length b' = length b → c_store (a ++ b ++ c) off b' = Ret (a ++ b' ++ c).
Proof.
  intros <- Hl. rewrite c_store_ok by (rewrite !length_app; lia). f_equal. unfold splice.
  rewrite take_app_length. do 2 f_equal. rewrite drop_app_ge by lia.
  replace (length a + length b' - length a)%nat with (length b) by lia. by rewrite drop_app_length.
Qed.

Lemma c_write_at {A} (a c : list A) x y off :
  length a = off → c_write (a ++ x :: c) off y = Ret (a ++ y :: c).
Proof.
  intros <-. rewrite c_write_lt by (rewrite length_app; simpl; lia). f_equal.
  by rewrite insert_app_r_alt, Nat.sub_diag by lia.
Qed.

Lemma c_memset_at (a b c : list byte) off x n :
  length a = off → Z.of_nat (length b) = n →
  c_memset (a ++ b ++ c) off x n = Ret (a ++ replicate (length b) x ++ c).
Proof.
  intros Ha <-. unfold c_memset. rewrite decide_True by (rewrite !length_app; lia).
  rewrite Nat2Z.id. apply c_store_at; [done|apply length_replicate].
Qed.

(** The header of a command shorter than the command field, then the payload. *)
Definition cluster_bytes (counter : Z) (command payload : list byte) : list byte :=
  rev (le_split 4 counter) ++ rev (le_split 4 (Z.of_nat (length payload))) ++
  command ++ Byte.x20 :: replicate (COMMAND_SIZE - length command - 1) Byte.x2d ++ payload.

Lemma split_at {A} (l : list A) n :
  (n ≤ length l)%nat → ∃ l1 l2, l = l1 ++ l2 ∧ length l1 = n ∧ length l2 = (length l - n)%nat.
Proof.
  intros Hn. exists (take n l), (drop n l). rewrite take_drop, length_take, length_drop.
  split_and!; lia || done.
Qed.

Lemma pad_length_small n :
  (n < COMMAND_SIZE)%nat → pad_length n = Z.of_nat (COMMAND_SIZE - n - 1).
Proof. intros Hn. unfold pad_length, COMMAND_SIZE in *. rewrite Z.mod_small; lia. Qed.

Lemma cluster_frame_spec big counter mem command payload :
  0 ≤ counter < 2 ^ 32 → (length command < COMMAND_SIZE)%nat →
  (length payload ≤ MAX_PAYLOAD_SIZE)%nat →
  cluster_frame big counter mem command payload = Ret (cluster_bytes counter command payload).
Proof.
  intros Hc Hcmd Hp.
  assert (Z.of_nat (length payload) ≤ 1000000) as Hp' by (unfold MAX_PAYLOAD_SIZE in Hp; lia). clear Hp.
  unfold cluster_frame. rewrite !host_bytes_wnet_big by lia.
  set (b0 := mem <$> _). assert (length b0 = (20 + length payload)%nat) as Hb0.
  { subst b0. by rewrite length_fmap, length_seq. }
  clearbody b0.
  destruct (split_at b0 4) as (m1 & b1 & -> & H1 & Hb1); [lia|]. rewrite Hb0 in Hb1.
  destruct (split_at b1 4) as (m2 & b2 & -> & H2 & Hb2); [lia|]. rewrite Hb1 in Hb2.
  unfold COMMAND_SIZE in Hcmd.
  destruct (split_at b2 (length command)) as (m3 & b3 & -> & H3 & Hb3); [lia|]. rewrite Hb2 in Hb3.
  destruct (split_at b3 1) as (m4 & b4 & -> & H4 & Hb4); [lia|]. rewrite Hb3 in Hb4.
  destruct (split_at b4 (11 - length command)) as (m5 & b5 & -> & H5 & Hb5); [lia|].
  rewrite Hb4 in Hb5. destruct m4 as [|x [|]]; [done| |done]. cbn [app]. clear Hb0 Hb1 Hb2 Hb3 Hb4.
  unfold cluster_bytes.
  set (h1 := rev (le_split 4 counter)). set (h2 := rev (le_split 4 (Z.of_nat (length payload)))).
  assert (length h1 = 4%nat) as Hh1 by (subst h1; by rewrite length_rev, length_le_split).
  assert (length h2 = 4%nat) as Hh2 by (subst h2; by rewrite length_rev, length_le_split).
  clearbody h1 h2.
  rewrite <-(app_nil_l (m1 ++ _)), (c_store_at [] m1 h1) by (simpl; lia). rewrite outcome_bind_ret. cbn [app].
  rewrite (c_store_at h1 m2 h2) by (simpl; lia). rewrite outcome_bind_ret, (app_assoc h1 h2).
  rewrite (c_store_at (h1 ++ h2) m3 command) by (rewrite ?length_app; unfold HEADER_SIZE; lia).
  rewrite outcome_bind_ret, (app_assoc (h1 ++ h2) command).
  rewrite (c_write_at ((h1 ++ h2) ++ command)) by (rewrite !length_app; unfold HEADER_SIZE; lia).
  rewrite outcome_bind_ret, (cons_middle Byte.x20 _ (m5 ++ b5)).
  rewrite (app_assoc ((h1 ++ h2) ++ command)).
  rewrite (c_memset_at _ m5 b5) by (rewrite ?pad_length_small, ?length_app by done;
    unfold HEADER_SIZE, COMMAND_SIZE; simpl; lia).
  rewrite outcome_bind_ret, (app_assoc _ _ b5), <-(app_nil_r b5).
  rewrite (c_store_at _ b5 payload []) by (rewrite ?length_app, ?length_replicate;
    unfold HEADER_SIZE, COMMAND_SIZE; simpl; lia).
  rewrite app_nil_r, <-!app_assoc, H5. unfold COMMAND_SIZE.
  by replace (12 - length command - 1)%nat with (11 - length command)%nat by lia.
Qed.

(** The command field of a message reads [err --------] for the command [err] only. *)
Lemma err_command_iff command :
  (length command < COMMAND_SIZE)%nat →
  command ++ Byte.x20 :: replicate (COMMAND_SIZE - length command - 1) Byte.x2d = err_command ↔
  command = [Byte.x65; Byte.x72; Byte.x72].
Proof.
  intros Hl. unfold COMMAND_SIZE in *. split; [|by intros ->].
  destruct command as [|c1 [|c2 [|c3 [|c4 command]]]]; [done..| |].
  - by intros [= -> -> ->].
  - unfold err_command. cbn [app]. intros [= -> -> -> -> E].
    exfalso. cbn [length] in *. assert (Byte.x20 ∈ replicate 8 Byte.x2d) as Hin.
    { change (replicate 8 Byte.x2d) with [Byte.x2d; Byte.x2d; Byte.x2d; Byte.x2d; Byte.x2d;
        Byte.x2d; Byte.x2d; Byte.x2d]. rewrite <-E. apply elem_of_app. right. apply list_elem_of_here. }
    apply elem_of_replicate in Hin as [? _]. done.
Qed.

Lemma recv_cluster_ok big s ret len counter command payload rest :
  0 ≤ counter < 2 ^ 32 → (length command < COMMAND_SIZE)%nat →
  (length payload ≤ MAX_PAYLOAD_SIZE)%nat → (length payload ≤ len ≤ length ret)%nat →
  stream s = cluster_bytes counter command payload ++ rest →
  ∃ s', OS_RecvSecureClusterTCP big s ret len =
      Ret (if decide (command = [Byte.x65; Byte.x72; Byte.x72]) then -2
           else Z.of_nat (length payload), splice ret 0 payload, s') ∧ stream s' = rest.
Proof.
  intros Hc Hcmd Hp Hlen Hs.
  assert (Z.of_nat (length payload) ≤ 1000000) as Hp' by (unfold MAX_PAYLOAD_SIZE in Hp; lia). clear Hp.
  set (field := command ++ Byte.x20 :: replicate (COMMAND_SIZE - length command - 1) Byte.x2d).
  assert (length field = 12%nat) as Hf.
  { subst field. rewrite length_app. cbn [length]. rewrite length_replicate.
    unfold COMMAND_SIZE in *. lia. }
  set (h1 := rev (le_split 4 counter)). set (h2 := rev (le_split 4 (Z.of_nat (length payload)))).
  assert (length h1 = 4%nat) as Hh1 by (subst h1; by rewrite length_rev, length_le_split).
  assert (length h2 = 4%nat) as Hh2 by (subst h2; by rewrite length_rev, length_le_split).
  assert (stream s = (h1 ++ h2 ++ field) ++ payload ++ rest) as Hs'.
  { rewrite Hs. unfold cluster_bytes. subst field. rewrite <-!app_assoc. cbn [app].
    by rewrite <-!app_assoc. }
  assert (length (h1 ++ h2 ++ field) = 20%nat) as Hh by (rewrite !length_app; lia).
  unfold OS_RecvSecureClusterTCP.
  destruct (waitall_full s (replicate 20 Byte.x00) _ _ Hs') as (s1 & Hw & Hs1);
    [by rewrite Hh, length_replicate|].
  rewrite Hh, splice_0_full in Hw by (by rewrite length_replicate). rewrite Hw, outcome_bind_ret.
  rewrite decide_False by lia. rewrite decide_False by (by intros []).
  rewrite c_slice_ok, outcome_bind_ret by lia.
  rewrite (slice_mid h1 h2 field) by done.
  rewrite wnet_big_host_word by done. subst h2. rewrite rev_involutive, le_combine_le_split_4 by lia.
  rewrite decide_False by lia. rewrite Nat2Z.id.
  destruct (waitall_full s1 ret payload rest Hs1) as (s2 & -> & Hs2); [lia|].
  rewrite outcome_bind_ret. exists s2. split; [|done].
  rewrite (app_assoc h1), <-(app_nil_r field).
  rewrite (slice_mid _ field []) by (rewrite ?length_app; lia).
  pose proof (err_command_iff command Hcmd) as Hiff. fold field in Hiff.
  repeat case_decide; tauto || done.
Qed.

(** C28: secure messages survive the stream.  What [OS_SendSecureTCP] writes on a
    host of either byte order, [OS_RecvSecureTCP] on a host of either byte order
    gives back message by message, however the stream is cut into pieces, and
    leaves what follows in the stream. *)
Theorem secure_tcp_roundtrip big1 big2 sock msgs s ret size rest :
  0 ≤ sock → Forall (λ m, (length m ≤ size)%nat) msgs →
  (size ≤ length ret)%nat → Z.of_nat size < 2 ^ 31 →
  ∃ out, send_all big1 sock msgs = Ret ((λ _, 0) <$> msgs, out) ∧
    (stream s = out ++ rest →
     ∃ s', receive_n big2 (length msgs) s ret size =
         Ret ((λ m, (Z.of_nat (length m), m)) <$> msgs, s') ∧ stream s' = rest).
Proof.
  intros Hs Hm Hr Hz. exists (concat (frame <$> msgs)). split.
  - apply send_all_spec; [done|]. eapply Forall_impl; [done|]. simpl. lia.
  - by apply receive_n_frames.
Qed.

(** [OS_RecvSecureTCP] on any stream, well formed or not, returns at most the
    size of the buffer and writes only inside it; a message longer than the buffer
    is refused before anything is written, and a message that stops before its end
    gives the result of the last [recv]. *)
Theorem recv_secure_tcp_safe big s ret size :
  (size ≤ length ret)%nat →
  (∃ r ret' s', OS_RecvSecureTCP big s ret size = Ret (r, ret', s') ∧
     length ret' = length ret ∧ r ≤ Z.of_nat size) ∧
  (∀ msg rest, stream s = frame msg ++ rest → (size < length msg)%nat →
     Z.of_nat (length msg) < 2 ^ 32 →
     ∃ s', OS_RecvSecureTCP big s ret size = Ret (OS_SOCKTERR, ret, s')) ∧
  ((length (stream s) < 4)%nat →
     ∃ s', OS_RecvSecureTCP big s ret size = Ret (end_code (at_end s), ret, s')).
Proof.
  intros Hl. split_and!; [by apply recv_secure_total| |].
  - intros msg rest Hs Hm Hz. destruct (recv_secure_too_long big s ret size msg rest)
      as (s' & ? & _); eauto.
  - intros Hs. unfold OS_RecvSecureTCP, os_recv_waitall.
    destruct (recv_loop_short 4 s (replicate 4 Byte.x00) 0 4) as (b & s' & -> & _);
      [rewrite length_replicate; lia|lia|]. exists s'. rewrite outcome_bind_ret.
    by destruct (at_end s).
Qed.

(** C29: cluster messages round-trip between hosts of either byte order when the
    command is shorter than its 12-byte field: the receiver gets the payload, or -2
    with it for the command [err], however the stream is cut. *)
Theorem cluster_tcp_roundtrip big1 big2 counter mem command payload s ret len rest :
  0 ≤ counter < 2 ^ 32 → (length command < COMMAND_SIZE)%nat →
  (length payload ≤ MAX_PAYLOAD_SIZE)%nat → (length payload ≤ len ≤ length ret)%nat →
  ∃ out, OS_SendSecureTCPCluster big1 counter mem (λ b, Z.of_nat (length b)) (Some command) payload
      = Ret (0, out) ∧
    (stream s = out ++ rest →
     ∃ s' ret', OS_RecvSecureClusterTCP big2 s ret len =
         Ret (if decide (command = [Byte.x65; Byte.x72; Byte.x72]) then -2
              else Z.of_nat (length payload), ret', s') ∧
       take (length payload) ret' = payload ∧ stream s' = rest).
Proof.
  intros Hc Hcmd Hp Hl. exists (cluster_bytes counter command payload). split.
  - unfold OS_SendSecureTCPCluster. rewrite decide_False by lia. rewrite decide_False by lia.
    rewrite cluster_frame_spec by done. rewrite outcome_bind_ret. by rewrite decide_True.
  - intros Hs. destruct (recv_cluster_ok big2 s ret len counter command payload rest)
      as (s' & Hr & Hs'); [done..|]. eexists s', _. split_and!; [exact Hr| |done].
    unfold splice. rewrite take_0. cbn [app]. by rewrite take_app_length.
Qed.

(** A store or write stays inside the block or is out of bounds. *)
Lemma c_store_cases {A} (l xs : list A) off :
  (∃ l', c_store l off xs = Ret l' ∧ length l' = length l) ∨ c_store l off xs = Stuck OutOfBounds.
Proof.
  unfold c_store. case_decide; [left|by right]. eexists. split; [done|]. by apply length_splice.
Qed.

Lemma c_write_cases {A} (l : list A) i x :
  (∃ l', c_write l i x = Ret l' ∧ length l' = length l) ∨ c_write l i x = Stuck OutOfBounds.
Proof.
  unfold c_write. case_decide; [left|by right]. eexists. split; [done|]. apply length_insert.
Qed.

(** A command of exactly 12 bytes, which the length check of
    [OS_SendSecureTCPCluster] lets through, makes the padding length wrap around to
    [SIZE_MAX], and the function writes out of its buffer, whatever the payload. *)
Theorem cluster_tcp_full_command_overflows big counter mem send command payload :
  length command = COMMAND_SIZE → (length payload ≤ MAX_PAYLOAD_SIZE)%nat →
  OS_SendSecureTCPCluster big counter mem send (Some command) payload = Stuck OutOfBounds.
Proof.
  intros Hcmd Hp. unfold OS_SendSecureTCPCluster.
  rewrite decide_False by lia. rewrite decide_False by lia. unfold cluster_frame.
  set (b0 := mem <$> _). assert (length b0 = (20 + length payload)%nat) as Hb0.
  { subst b0. by rewrite length_fmap, length_seq. }
  clearbody b0. rewrite Hcmd.
  destruct (c_store_cases b0 (host_bytes big (wnet_order_big big counter)) 0)
    as [(b1 & -> & H1)| ->]; [rewrite outcome_bind_ret|done].
  destruct (c_store_cases b1 (host_bytes big (wnet_order_big big (Z.of_nat (length payload)))) 4)
    as [(b2 & -> & H2)| ->]; [rewrite outcome_bind_ret|done].
  destruct (c_store_cases b2 command HEADER_SIZE) as [(b3 & -> & H3)| ->];
    [rewrite outcome_bind_ret|done].
  destruct (c_write_cases b3 (HEADER_SIZE + COMMAND_SIZE) Byte.x20) as [(b4 & -> & H4)| ->];
    [rewrite outcome_bind_ret|done].
  unfold c_memset. change (pad_length COMMAND_SIZE) with (2 ^ 64 - 1).
  rewrite decide_False; [done|]. unfold MAX_PAYLOAD_SIZE in Hp. lia.
Qed.

(** *** Witnesses *)

Definition demo_msgs : list (list byte) := [[Byte.x41; Byte.x42]; []; [Byte.x43]].

Lemma secure_tcp_roundtrip_witness :
  ∃ out, send_all true 3 demo_msgs = Ret ([0; 0; 0], out) ∧
    (out = out ++ [] →
     ∃ s', receive_n false 3 (mk_socket out [1; 2; 1; 1; 5]%nat Disconnected)
             (replicate 8 Byte.xff) 8 =
         Ret ([(2, [Byte.x41; Byte.x42]); (0, []); (1, [Byte.x43])], s') ∧ stream s' = []).
Proof.
  destruct (secure_tcp_roundtrip true false 3 demo_msgs
    (mk_socket (concat (frame <$> demo_msgs)) [1; 2; 1; 1; 5]%nat Disconnected)
    (replicate 8 Byte.xff) 8 []) as (out & Hs & Hr).
  - lia.
  - repeat constructor; simpl; lia.
  - simpl. lia.
  - lia.
  - exists out. split; [exact Hs|]. intros _.
    assert (out = concat (frame <$> demo_msgs)) as -> by (vm_compute in Hs; by injection Hs as <-).
    apply Hr. by rewrite app_nil_r.
Defined.

Lemma recv_secure_tcp_safe_witness :
  ∃ s', OS_RecvSecureTCP false (mk_socket [Byte.x41; Byte.x42] [] RecvError)
          (replicate 8 Byte.xff) 8 = Ret (-1, replicate 8 Byte.xff, s').
Proof.
  refine (proj2 (proj2 (recv_secure_tcp_safe false (mk_socket [Byte.x41; Byte.x42] [] RecvError)
    (replicate 8 Byte.xff) 8 _)) _); simpl; lia.
Defined.

Lemma cluster_tcp_roundtrip_witness :
  ∃ out, OS_SendSecureTCPCluster false 7 (λ _, Byte.xff) (λ b, Z.of_nat (length b))
      (Some [Byte.x64; Byte.x61]) [Byte.x41; Byte.x42] = Ret (0, out) ∧ length out = 22%nat.
Proof.
  destruct (cluster_tcp_roundtrip false true 7 (λ _, Byte.xff) [Byte.x64; Byte.x61]
    [Byte.x41; Byte.x42] (mk_socket [] [] Disconnected) (replicate 8 Byte.xff) 8 [])
    as (out & Hs & _).
  - lia.
  - unfold COMMAND_SIZE. simpl. lia.
  - unfold MAX_PAYLOAD_SIZE. simpl length. lia.
  - simpl. lia.
  - exists out. split; [exact Hs|]. vm_compute in Hs. by injection Hs as <-.
Defined.

Lemma cluster_tcp_full_command_overflows_witness :
  OS_SendSecureTCPCluster false 7 (λ _, Byte.xff) (λ b, Z.of_nat (length b))
    (Some (replicate 12 Byte.x61)) [] = Stuck OutOfBounds.
Proof.
  apply cluster_tcp_full_command_overflows; [reflexivity|]. unfold MAX_PAYLOAD_SIZE. simpl length. lia.
Defined.
