(* ===== verification/NetBuffer.v ===== *)
(** * The network buffers of the manager ([remoted/src/netbuffer.c])

    For every TCP client the manager keeps the bytes received of a message that is
    not complete yet, and a binary queue ([BQueue]) of the bytes to send.  The model
    has the table of socket buffers, indexed by descriptor, with cells that
    [realloc] has left uninitialised; the allocation of the receive buffer next to
    its recorded size; and the dispatch loop over it.  [recv] is the one of [Wire];
    the answers of [send] are arbitrary; a dispatched message is an output. *)

From stdpp Require Import base numbers list gmap.
From Stdlib Require Import Lia ZArith NArith.
From coqutil Require Import Byte Word.LittleEndianList.
From S2P Require Import Prelude BQueue Wire.

#[local] Open Scope Z_scope.

Definition OS_MAXSTR : Z := 65536.

Section netbuffer.
Context {peer : Type} (no_peer : peer).

(** The configuration of remoted, and the byte order of the host. *)
Context (receive_chunk send_chunk send_buffer_size : nat) (buffer_relax : Z) (big : bool).

(** The content of memory that was not written. *)
Context (uninit : nat → byte).

(** ** Data *)

Record sockbuffer : Type := mk_sockbuffer {
  peer_info : peer;
  data : list byte;
  data_size : nat;
  data_len : nat;
  sb_bqueue : option (bqueue byte);
}.

Record netbuffer : Type := mk_netbuffer {
  max_fd : nat;
  buffers : list (option sockbuffer);
}.

(** The effect of [memset (..., 0, sizeof(sockbuffer_t))]. *)
Definition zero_sockbuffer : sockbuffer := mk_sockbuffer no_peer [] 0 0 None.

(** [buffer->buffers[sock]]: a cell that exists and has been written. *)
Definition get_buffer (nb : netbuffer) (sock : nat) : outcome sockbuffer :=
  c ← c_read (buffers nb) sock; c_deref c.

Definition set_buffer (nb : netbuffer) (sock : nat) (sb : sockbuffer) : outcome netbuffer :=
  bs ← c_write (buffers nb) sock (Some sb); Ret (mk_netbuffer (max_fd nb) bs).

(** ** Operations *)

Definition nb_open (nb : netbuffer) (sock : nat) (p : peer) : outcome netbuffer :=
  let nb1 := if decide (max_fd nb ≤ sock)%nat
             then mk_netbuffer sock (c_realloc (λ _, None) (buffers nb) (sock + 1))
             else nb in
  set_buffer nb1 sock (mk_sockbuffer p [] 0 0 (bqueue_init send_buffer_size BQUEUE_SHRINK)).

Definition nb_close (nb : netbuffer) (sock : nat) : outcome netbuffer :=
  _ ← get_buffer nb sock; set_buffer nb sock zero_sockbuffer.

(** The dispatch loop: the messages pushed, and the offset at which it stops or
    [None] on a corrupt header.  Every turn advances by at least four bytes. *)
Fixpoint dispatch (fuel : nat) (mem : list byte) (len i : nat)
    : outcome (list (list byte) * option nat) :=
  if decide (len < i + 4)%nat then Ret ([], Some i)
  else match fuel with
  | O => Stuck OutOfFuel
  | S fuel =>
      w ← c_slice mem i 4;
      let cur_len := wnet_order big (host_word big w) in
      if decide (OS_MAXSTR < cur_len) then Ret ([], None)
      else
        let cur_offset := (i + 4)%nat in
        if decide (Z.of_nat len < Z.of_nat cur_offset + cur_len) then Ret ([], Some i)
        else
          msg ← c_slice mem cur_offset (Z.to_nat cur_len);
          '(msgs, stop) ← dispatch fuel mem len (cur_offset + Z.to_nat cur_len);
          Ret (msg :: msgs, stop)
  end.

(** The end of [nb_recv]: what is left moves to the front, and memory is given back
    according to [buffer_relax]. *)
Definition compact (sb : sockbuffer) (i : nat) : outcome sockbuffer :=
  if decide (0 < i)%nat then
    mem ← (if decide (i < data_len sb)%nat
           then c_memmove (data sb) 0 i (data_len sb - i) else Ret (data sb));
    let len := (data_len sb - i)%nat in
    Ret (if decide (buffer_relax = 0) then
           mk_sockbuffer (peer_info sb) mem (data_size sb) len (sb_bqueue sb)
         else if decide (buffer_relax = 1) then
           let size := if decide (receive_chunk < len)%nat then len else receive_chunk in
           mk_sockbuffer (peer_info sb) (c_realloc uninit mem size) size len (sb_bqueue sb)
         else
           mk_sockbuffer (peer_info sb) (c_realloc uninit mem len) len len (sb_bqueue sb))
  else Ret sb.

Definition extend (sb : sockbuffer) : sockbuffer :=
  let data_ext := (data_len sb + receive_chunk)%nat in
  if decide (data_size sb < data_ext)%nat then
    mk_sockbuffer (peer_info sb) (c_realloc uninit (data sb) data_ext) data_ext (data_len sb)
      (sb_bqueue sb)
  else sb.

(** The result, the messages pushed, the buffers and the socket. *)
Definition nb_recv (nb : netbuffer) (sock : nat) (s : socket)
    : outcome (Z * list (list byte) * netbuffer * socket) :=
  sb0 ← get_buffer nb sock;
  let sb := extend sb0 in
  let '(recv_len, got, s') := recv s receive_chunk in
  if decide (recv_len ≤ 0) then
    nb' ← set_buffer nb sock sb; Ret (recv_len, [], nb', s')
  else
    mem ← c_store (data sb) (data_len sb) got;
    let len := (data_len sb + length got)%nat in
    let sb1 := mk_sockbuffer (peer_info sb) mem (data_size sb) len (sb_bqueue sb) in
    '(msgs, stop) ← dispatch len mem len 0;
    match stop with
    | None => nb' ← set_buffer nb sock sb1; Ret (-2, msgs, nb', s')
    | Some i =>
        sb2 ← compact sb1 i;
        nb' ← set_buffer nb sock sb2; Ret (recv_len, msgs, nb', s')
    end.

(** What a call asks of the notifier: to watch for writing or not. *)
Inductive interest : Type := WO_READ | WO_READ_WRITE.

Definition set_bqueue (nb : netbuffer) (sock : nat) (sb : sockbuffer) (q : bqueue byte)
    : outcome netbuffer :=
  set_buffer nb sock (mk_sockbuffer (peer_info sb) (data sb) (data_size sb) (data_len sb) (Some q)).

(** The result, the bytes handed to the socket, the request to the notifier. *)
Definition nb_send (nb : netbuffer) (sock : nat) (send : list byte → Z)
    : outcome (Z * list byte * option interest * netbuffer) :=
  sb ← get_buffer nb sock;
  match sb_bqueue sb with
  | None => Ret (0, [], None, nb)
  | Some q =>
      peeked ← bqueue_peek q send_chunk BQUEUE_NOFLAG;
      let bytes := default [] peeked in
      let sent := if decide (0 < length bytes)%nat then send bytes else 0 in
      q1 ← (if decide (0 < sent)
            then '(_, q1) ← bqueue_drop uninit q (Z.to_nat sent); Ret q1 else Ret q);
      used ← bqueue_used q1;
      nb' ← set_bqueue nb sock sb q1;
      Ret (sent, take (Z.to_nat sent) bytes,
           if decide (length bytes = 0%nat ∨ used = 0%nat) then Some WO_READ else None, nb')
  end.

(** One attempt of [nb_queue]: [Some 0] when the message was appended, [Some (-1)]
    when the connection is closed, [None] when there is no room. *)
Definition nb_queue_try (nb : netbuffer) (sock : nat) (msg : list byte)
    : outcome (option Z * option interest * netbuffer) :=
  let bytes := host_bytes big (wnet_order big (u32 (Z.of_nat (length msg)))) in
  let frm := bytes ++ msg in
  sb ← get_buffer nb sock;
  match sb_bqueue sb with
  | None => Ret (Some (-1), None, nb)
  | Some q =>
      '(r, q1) ← bqueue_push uninit q frm BQUEUE_NOFLAG;
      nb' ← set_bqueue nb sock sb q1;
      if decide (r = Some 0) then
        used ← bqueue_used q1;
        Ret (Some 0, if decide (used = (length msg + 4)%nat) then Some WO_READ_WRITE else None, nb')
      else Ret (None, None, nb')
  end.

(** The second attempt, after the sleep. *)
Definition nb_queue_retry (nb : netbuffer) (sock : nat) (msg : list byte)
    : outcome (Z * option interest * netbuffer) :=
  '(r, w, nb') ← nb_queue_try nb sock msg;
  Ret (default (-1) r, w, nb').

(** ** Frames *)

Definition header (bs : list byte) : Z := le_combine (take 4 bs).

(** No complete message, and nothing wrong so far. *)
Definition incomplete (bs : list byte) : Prop :=
  (length bs < 4)%nat ∨ (header bs ≤ OS_MAXSTR ∧ Z.of_nat (length bs) < 4 + header bs).

Definition corrupt (bs : list byte) : Prop :=
  (4 ≤ length bs)%nat ∧ OS_MAXSTR < header bs.

Definition fits_maxstr (msg : list byte) : Prop := Z.of_nat (length msg) ≤ OS_MAXSTR.

Lemma header_range bs : (4 ≤ length bs)%nat → 0 ≤ header bs < 2 ^ 32.
Proof. intros Hl. apply le_combine_range. rewrite length_take. lia. Qed.

(** A complete message at the front of the bytes. *)
Lemma frame_split bs :
  (4 ≤ length bs)%nat → 4 + header bs ≤ Z.of_nat (length bs) →
  let msg := take (Z.to_nat (header bs)) (drop 4 bs) in
  bs = frame msg ++ drop (4 + Z.to_nat (header bs)) bs ∧
  Z.of_nat (length msg) = header bs.
Proof.
  intros Hl Hc msg. pose proof (header_range bs Hl) as Hh.
  assert (Z.of_nat (length msg) = header bs) as Hm.
  { subst msg. rewrite length_take, length_drop. lia. }
  split; [|done]. unfold frame. rewrite Hm. unfold header at 1.
  rewrite split_combine_4 by (rewrite length_take; lia). subst msg.
  rewrite <-app_assoc, <-drop_drop, take_drop. by rewrite take_drop.
Qed.

Lemma header_frame msg rest :
  Z.of_nat (length msg) < 2 ^ 32 → header (frame msg ++ rest) = Z.of_nat (length msg).
Proof.
  intros Hl. unfold header, frame. rewrite <-app_assoc, take_app_le by (by rewrite length_le_split).
  rewrite take_ge by (by rewrite length_le_split). apply le_combine_le_split_4. lia.
Qed.

Lemma length_frame msg : length (frame msg) = (4 + length msg)%nat.
Proof. unfold frame. by rewrite length_app, length_le_split. Qed.

Lemma frame_not_incomplete msg rest :
  fits_maxstr msg → ¬ incomplete (frame msg ++ rest) ∧ ¬ corrupt (frame msg ++ rest).
Proof.
  unfold fits_maxstr, incomplete, corrupt, OS_MAXSTR. intros Hm.
  rewrite header_frame, length_app, length_frame by lia. split; [intros [?|?]; lia|lia].
Qed.

Lemma incomplete_not_corrupt bs : incomplete bs → ¬ corrupt bs.
Proof. unfold incomplete, corrupt. lia. Qed.

(** Bytes split in one way into complete messages and a rest. *)
Lemma frames_unique msgs1 msgs2 r1 r2 :
  Forall fits_maxstr msgs1 → Forall fits_maxstr msgs2 →
  incomplete r1 ∨ corrupt r1 → incomplete r2 ∨ corrupt r2 →
  concat (frame <$> msgs1) ++ r1 = concat (frame <$> msgs2) ++ r2 → msgs1 = msgs2 ∧ r1 = r2.
Proof.
  intros H1. revert msgs2. induction H1 as [|m1 msgs1 Hm1 _ IH]; intros msgs2 H2 Hr1 Hr2 E.
  - destruct H2 as [|m2 msgs2 Hm2 _]; [done|]. cbn [concat fmap list_fmap app] in E. subst r1.
    rewrite <-app_assoc in Hr1. pose proof (frame_not_incomplete m2 (concat (frame <$> msgs2) ++ r2) Hm2).
    tauto.
  - destruct H2 as [|m2 msgs2 Hm2 H2].
    + cbn [concat fmap list_fmap app] in E. subst r2. rewrite <-app_assoc in Hr2.
      pose proof (frame_not_incomplete m1 (concat (frame <$> msgs1) ++ r1) Hm1). tauto.
    + cbn [concat fmap list_fmap] in E. rewrite <-!app_assoc in E.
      pose proof (f_equal header E) as Eh. unfold fits_maxstr, OS_MAXSTR in *.
      rewrite !header_frame in Eh by lia.
      unfold frame at 1 3 in E. rewrite <-!app_assoc, Eh in E. apply app_inv_head in E.
      apply app_inj_1 in E as [<- E]; [|lia]. by destruct (IH msgs2 H2 Hr1 Hr2 E) as [<- <-].
Qed.

(** ** The dispatch loop *)

Lemma dispatch_spec fuel (mem : list byte) len i :
  (i ≤ len ≤ length mem)%nat → (len - i ≤ fuel)%nat →
  ∃ msgs stop, dispatch fuel mem len i = Ret (msgs, stop) ∧ Forall fits_maxstr msgs ∧
    match stop with
    | Some j => (i ≤ j ≤ len)%nat ∧ incomplete (drop j (take len mem)) ∧
        drop i (take len mem) = concat (frame <$> msgs) ++ drop j (take len mem)
    | None => ∃ rest, corrupt rest ∧ drop i (take len mem) = concat (frame <$> msgs) ++ rest
    end.
Proof.
  revert i. induction fuel as [|fuel IH]; intros i Hi Hf.
  - simpl. rewrite decide_True by lia. eexists [], (Some i). split_and!; try done; [lia|].
    left. rewrite length_drop, length_take. lia.
  - cbn [dispatch]. set (D := drop i (take len mem)).
    assert (length D = len - i)%nat as HD by (subst D; rewrite length_drop, length_take; lia).
    case_decide as H4.
    { eexists [], (Some i). split_and!; try done; [lia|]. left. fold D. lia. }
    rewrite c_slice_ok by lia. rewrite outcome_bind_ret.
    assert (take 4 (drop i mem) = take 4 D) as ->.
    { subst D. rewrite skipn_firstn_comm, take_take. f_equal. lia. }
    rewrite wnet_host_word by (rewrite length_take; lia). fold (header D).
    pose proof (header_range D ltac:(lia)) as Hh. remember (header D) as h eqn:Eh.
    case_decide as Hbig; [eexists [], None; split_and!; try done; exists D; split; [split; lia|done]|].
    case_decide as Hin.
    { eexists [], (Some i). split_and!; try done; [lia|]. right. fold D. lia. }
    rewrite c_slice_ok, outcome_bind_ret by lia.
    assert (take (Z.to_nat h) (drop (i + 4) mem) = take (Z.to_nat h) (drop 4 D)) as ->.
    { clear Eh. subst D. rewrite skipn_firstn_comm, skipn_firstn_comm, drop_drop, take_take.
      f_equal. lia. }
    destruct (IH (i + 4 + Z.to_nat h)%nat) as (msgs & stop & -> & Hm & Hstop); [lia|lia|].
    rewrite outcome_bind_ret. destruct (frame_split D) as [HD' Hlen]; [lia|lia|].
    rewrite <-Eh in HD', Hlen.
    eexists _, stop. split; [done|].
    split; [constructor; [unfold fits_maxstr; lia|done]|].
    assert (drop (4 + Z.to_nat h) D = drop (i + 4 + Z.to_nat h) (take len mem)) as Ed.
    { clear -Hi. subst D. rewrite drop_drop. f_equal. lia. }
    rewrite Ed in HD'. clear Eh Ed. clearbody D. set (msg := take (Z.to_nat h) (drop 4 D)) in *.
    clearbody msg. rewrite HD'. cbn [fmap list_fmap concat].
    destruct stop as [j|].
    + destruct Hstop as (Hj & Hi' & E). split_and!; [lia|lia|done|by rewrite E, app_assoc].
    + destruct Hstop as (rest & Hc & E). exists rest. by rewrite E, app_assoc.
Qed.

(** Complete messages at the front of a byte string are the first ones of any
    split of it. *)
Lemma frames_prefix m1 msgs X rest :
  Forall fits_maxstr m1 → Forall fits_maxstr msgs → incomplete rest ∨ corrupt rest →
  concat (frame <$> m1) ++ X = concat (frame <$> msgs) ++ rest →
  ∃ m2, msgs = m1 ++ m2 ∧ X = concat (frame <$> m2) ++ rest.
Proof.
  intros H1. revert msgs. induction H1 as [|m m1 Hm _ IH]; intros msgs H2 Hr E; [by exists msgs|].
  destruct H2 as [|m' msgs Hm' H2]; cbn [concat fmap list_fmap app] in E.
  - rewrite <-app_assoc in E. rewrite <-E in Hr.
    pose proof (frame_not_incomplete m (concat (frame <$> m1) ++ X) Hm). tauto.
  - rewrite <-!app_assoc in E. pose proof (f_equal header E) as Eh.
    unfold fits_maxstr, OS_MAXSTR in *. rewrite !header_frame in Eh by lia.
    unfold frame at 1 3 in E. rewrite <-!app_assoc, Eh in E. apply app_inv_head in E.
    apply app_inj_1 in E as [<- E]; [|lia].
    destruct (IH msgs H2 Hr E) as (m2 & -> & ->). by exists m2.
Qed.

Lemma corrupt_app bs X : corrupt bs → corrupt (bs ++ X).
Proof.
  unfold corrupt, header. intros [Hl Hh]. rewrite length_app, take_app_le by done. split; [lia|done].
Qed.

Lemma frames_at_front msgs bs rest :
  Forall fits_maxstr msgs → bs = concat (frame <$> msgs) ++ rest →
  incomplete bs ∨ corrupt bs → msgs = [] ∧ bs = rest.
Proof.
  intros [|m msgs' Hm _] -> Hb; [done|]. cbn [concat fmap list_fmap] in Hb.
  rewrite <-app_assoc in Hb.
  pose proof (frame_not_incomplete m (concat (frame <$> msgs') ++ rest) Hm). tauto.
Qed.

(** ** Receiving *)

Definition sb_ok (sb : sockbuffer) : Prop :=
  length (data sb) = data_size sb ∧ (data_len sb ≤ data_size sb)%nat.

Definition buffered (sb : sockbuffer) : list byte := take (data_len sb) (data sb).

Definition has_buffer (nb : netbuffer) (sock : nat) (sb : sockbuffer) : Prop :=
  buffers nb !! sock = Some (Some sb).

Lemma get_buffer_spec nb sock sb : has_buffer nb sock sb → get_buffer nb sock = Ret sb.
Proof. unfold has_buffer, get_buffer, c_read. by intros ->. Qed.

Lemma set_buffer_spec nb sock sb sb' :
  has_buffer nb sock sb →
  set_buffer nb sock sb' = Ret (mk_netbuffer (max_fd nb) (<[sock := Some sb']> (buffers nb))) ∧
  has_buffer (mk_netbuffer (max_fd nb) (<[sock := Some sb']> (buffers nb))) sock sb'.
Proof.
  unfold has_buffer, set_buffer. intros Hl. apply lookup_lt_Some in Hl.
  rewrite c_write_lt by done. split; [done|]. by apply list_lookup_insert_eq.
Qed.

Lemma take_c_realloc {A} (u : nat → A) (l : list A) n k :
  (k ≤ n)%nat → (k ≤ length l)%nat → take k (c_realloc u l n) = take k l.
Proof.
  intros Hn Hl. apply list_eq. intros i. rewrite !lookup_take. case_decide; [|done].
  apply lookup_c_realloc; lia.
Qed.

Lemma extend_spec sb :
  sb_ok sb →
  sb_ok (extend sb) ∧ buffered (extend sb) = buffered sb ∧ data_len (extend sb) = data_len sb ∧
  (data_len sb + receive_chunk ≤ data_size (extend sb))%nat ∧ sb_bqueue (extend sb) = sb_bqueue sb.
Proof.
  intros [Hl Hs]. unfold extend. case_decide; [|split_and!; (done || lia)].
  split_and!; cbn; [split; cbn; [apply length_c_realloc|lia]| |done|lia|done].
  unfold buffered. cbn. apply take_c_realloc; lia.
Qed.

Lemma compact_spec sb i :
  sb_ok sb → (i ≤ data_len sb)%nat →
  ∃ sb', compact sb i = Ret sb' ∧ sb_ok sb' ∧ buffered sb' = drop i (buffered sb) ∧
    data_len sb' = (data_len sb - i)%nat ∧ sb_bqueue sb' = sb_bqueue sb.
Proof.
  intros [Hl Hs] Hi. unfold compact, buffered. case_decide as H0.
  2:{ exists sb. assert (i = 0%nat) as -> by lia. rewrite drop_0, Nat.sub_0_r. by split_and!. }
  assert (∃ mem, (if decide (i < data_len sb)%nat
           then c_memmove (data sb) 0 i (data_len sb - i) else Ret (data sb)) = Ret mem ∧
      length mem = data_size sb ∧
      take (data_len sb - i) mem = drop i (take (data_len sb) (data sb))) as (mem & -> & Hm & Ht).
  { case_decide.
    - rewrite c_memmove_ok by lia. eexists. split; [done|].
      rewrite length_splice by (rewrite length_slice; lia). split; [done|].
      unfold splice. rewrite take_0. cbn [app].
      rewrite take_app_le by (rewrite length_slice; lia).
      rewrite take_take, skipn_firstn_comm. f_equal. lia.
    - exists (data sb). replace (data_len sb - i)%nat with 0%nat by lia. split_and!; [done..|].
      rewrite take_0, drop_ge; [done|]. rewrite length_take. lia. }
  rewrite outcome_bind_ret. eexists. split; [reflexivity|]. rewrite <-Ht.
  repeat case_decide; cbn; split_and!; try done; try (split; cbn; [apply length_c_realloc|lia]);
    try (split; cbn; [done|lia]); apply take_c_realloc; lia.
Qed.

Lemma length_buffered sb : sb_ok sb → length (buffered sb) = data_len sb.
Proof. intros [Hl Hs]. unfold buffered. rewrite length_take. lia. Qed.

(** The effect of one call, when something is pending. *)
Lemma nb_recv_spec nb sock sb s :
  (0 < receive_chunk)%nat → has_buffer nb sock sb → sb_ok sb → stream s ≠ [] →
  ∃ got r msgs nb' sb' s', nb_recv nb sock s = Ret (r, msgs, nb', s') ∧
    stream s = got ++ stream s' ∧ got ≠ [] ∧ at_end s' = at_end s ∧
    has_buffer nb' sock sb' ∧ sb_ok sb' ∧ sb_bqueue sb' = sb_bqueue sb ∧
    Forall fits_maxstr msgs ∧
    ((r = Z.of_nat (length got) ∧ incomplete (buffered sb') ∧
      buffered sb ++ got = concat (frame <$> msgs) ++ buffered sb') ∨
     (r = -2 ∧ ∃ rest, corrupt rest ∧ buffered sb ++ got = concat (frame <$> msgs) ++ rest)).
Proof.
  intros Hch Hb Hok Hs. unfold nb_recv. rewrite (get_buffer_spec _ _ _ Hb), outcome_bind_ret.
  destruct (extend_spec sb Hok) as ([Hl1 Hs1] & Hbuf & Hlen & Hroom & Hq).
  set (sb1 := extend sb) in *. clearbody sb1.
  destruct (recv_pending s receive_chunk Hs Hch) as (got & s' & -> & Hne & Hg & Hst & He).
  assert (length got ≠ 0)%nat by (by destruct got). rewrite decide_False by lia.
  rewrite c_store_ok, outcome_bind_ret by lia.
  set (mem := splice (data sb1) (data_len sb1) got). set (len := (data_len sb1 + length got)%nat).
  assert (length mem = data_size sb1) as Hmem by (subst mem; rewrite length_splice; lia).
  assert (take len mem = buffered sb ++ got) as Htk.
  { rewrite <-Hbuf. unfold buffered. subst mem len. unfold splice.
    rewrite app_assoc, take_app_le by (rewrite length_app, length_take; lia).
    apply take_ge. rewrite length_app, length_take. lia. }
  destruct (dispatch_spec len mem len 0) as (msgs & stop & -> & Hm & Hstop); [lia|lia|].
  rewrite outcome_bind_ret. set (sb2 := mk_sockbuffer _ mem _ len _).
  assert (sb_ok sb2) as Hok2 by (split; cbn; lia). destruct stop as [j|].
  - destruct Hstop as (Hj & Hinc & E). rewrite drop_0, Htk in E.
    destruct (compact_spec sb2 j Hok2) as (sb3 & -> & Hok3 & Hb3 & _ & Hq3); [cbn; lia|].
    rewrite outcome_bind_ret. destruct (set_buffer_spec nb sock sb sb3 Hb) as [-> Hb'].
    rewrite outcome_bind_ret. eexists got, _, msgs, _, sb3, s'. split_and!; try done.
    + by rewrite Hq3.
    + left. change (buffered sb2) with (take len mem) in Hb3. rewrite Htk in Hb3, Hinc.
      rewrite Hb3. by split_and!.
  - destruct Hstop as (rest & Hc & E). rewrite drop_0, Htk in E.
    destruct (set_buffer_spec nb sock sb sb2 Hb) as [-> Hb']. rewrite outcome_bind_ret.
    eexists got, _, msgs, _, sb2, s'. split_and!; try done. right. split; [done|]. by exists rest.
Qed.

Lemma nb_recv_end nb sock sb s :
  has_buffer nb sock sb → stream s = [] →
  ∃ nb', nb_recv nb sock s = Ret (end_code (at_end s), [], nb', s).
Proof.
  intros Hb Hs. unfold nb_recv. rewrite (get_buffer_spec _ _ _ Hb), outcome_bind_ret.
  unfold recv. rewrite Hs. destruct (set_buffer_spec nb sock sb (extend sb) Hb) as [-> _].
  rewrite outcome_bind_ret. destruct (at_end s); by rewrite decide_True by lia; eexists.
Qed.

(** The manager calls [nb_recv] while it returns a positive number, and closes the
    connection otherwise: the messages it gets, and the last result. *)
Fixpoint recv_run (fuel : nat) (nb : netbuffer) (sock : nat) (s : socket)
    : outcome (list (list byte) * Z) :=
  match fuel with
  | O => Stuck OutOfFuel
  | S fuel =>
      '(r, msgs, nb', s') ← nb_recv nb sock s;
      if decide (0 < r) then
        '(more, r') ← recv_run fuel nb' sock s'; Ret (msgs ++ more, r')
      else Ret (msgs, r)
  end.

Lemma recv_run_spec fuel nb sock sb s msgs rest :
  (0 < receive_chunk)%nat → has_buffer nb sock sb → sb_ok sb → incomplete (buffered sb) →
  Forall fits_maxstr msgs → incomplete rest ∨ corrupt rest →
  buffered sb ++ stream s = concat (frame <$> msgs) ++ rest → (length (stream s) < fuel)%nat →
  ∃ r, recv_run fuel nb sock s = Ret (msgs, r) ∧
    (incomplete rest ∧ r = end_code (at_end s) ∨ corrupt rest ∧ r = -2).
Proof.
  intros Hch. revert nb sb s msgs. induction fuel as [|fuel IH];
    intros nb sb s msgs Hb Hok Hinc Hm Hr E Hf; [lia|]. cbn [recv_run].
  destruct (decide (stream s = [])) as [Hs|Hs].
  { destruct (nb_recv_end nb sock sb s Hb Hs) as (nb' & ->). rewrite outcome_bind_ret.
    rewrite Hs, app_nil_r in E. destruct (frames_at_front _ _ _ Hm E) as [-> <-]; [by left|].
    exists (end_code (at_end s)). rewrite decide_False by (destruct (at_end s); cbn; lia). eauto. }
  destruct (nb_recv_spec nb sock sb s Hch Hb Hok Hs) as
    (got & r & m1 & nb' & sb' & s' & -> & Hst & Hg & He & Hb' & Hok' & _ & Hm1 & Hcase).
  rewrite outcome_bind_ret. rewrite Hst, app_assoc in E.
  assert (length got ≠ 0)%nat by (by destruct got).
  destruct Hcase as [(-> & Hinc' & E')|(-> & r0 & Hc0 & E')]; rewrite E', <-app_assoc in E;
    destruct (frames_prefix _ _ _ _ Hm1 Hm Hr E) as (m2 & -> & E2).
  - rewrite decide_True by lia. apply Forall_app in Hm as [_ Hm2].
    destruct (IH nb' sb' s' m2) as (r & -> & Hres); try done.
    + rewrite Hst, length_app in Hf. lia.
    + rewrite He in Hres. by exists r.
  - rewrite decide_False by lia. apply Forall_app in Hm as [_ Hm2].
    destruct (frames_at_front _ _ _ Hm2 E2) as [-> <-]; [right; by apply corrupt_app|].
    rewrite app_nil_r. eexists. split; [done|]. right. split; [by apply corrupt_app|done].
Qed.

(** ** Sending *)

(** The threads of the manager queue messages (the first attempt of [nb_queue] and
    the second one are the same step) and the network thread sends. *)
Inductive send_op : Type :=
  | SQueue (msg : list byte)
  | SSend (send : list byte → Z).

(** The messages accepted, the bytes sent, and whether the notifier watches the
    socket for writing. *)
Record sender : Type := mk_sender {
  sd_nb : netbuffer;
  sd_accepted : list (list byte);
  sd_sent : list byte;
  sd_watched : bool;
}.

Definition watch (w : bool) (i : option interest) : bool :=
  match i with Some WO_READ => false | Some WO_READ_WRITE => true | None => w end.

Definition send_step (sock : nat) (st : sender) (op : send_op) : outcome (Z * sender) :=
  match op with
  | SQueue msg =>
      '(r, i, nb') ← nb_queue_retry (sd_nb st) sock msg;
      Ret (r, mk_sender nb' (if decide (r = 0) then sd_accepted st ++ [msg] else sd_accepted st)
                (sd_sent st) (watch (sd_watched st) i))
  | SSend send =>
      '(r, bytes, i, nb') ← nb_send (sd_nb st) sock send;
      Ret (r, mk_sender nb' (sd_accepted st) (sd_sent st ++ bytes) (watch (sd_watched st) i))
  end.

Fixpoint send_run (sock : nat) (st : sender) (ops : list send_op) : outcome (list Z * sender) :=
  match ops with
  | [] => Ret ([], st)
  | op :: ops =>
      '(r, st1) ← send_step sock st op;
      '(rs, st2) ← send_run sock st1 ops;
      Ret (r :: rs, st2)
  end.

(** [send] never reports more bytes than it was given. *)
Definition send_ok (op : send_op) : Prop :=
  match op with
  | SQueue _ => True
  | SSend send => ∀ bs, send bs ≤ Z.of_nat (length bs)
  end.

Definition send_inv (sock : nat) (st : sender) (pending : list byte) : Prop :=
  ∃ sb q, has_buffer (sd_nb st) sock sb ∧ sb_bqueue sb = Some q ∧ bqueue_wf q ∧
    max_length q = send_buffer_size ∧ contents q = pending ∧
    concat (frame <$> sd_accepted st) = sd_sent st ++ pending ∧
    Forall (λ m, Z.of_nat (length m) < 2 ^ 32) (sd_accepted st) ∧
    (sd_watched st = true ↔ pending ≠ []).

Lemma set_bqueue_spec nb sock sb q :
  has_buffer nb sock sb →
  ∃ nb' sb', set_bqueue nb sock sb q = Ret nb' ∧ has_buffer nb' sock sb' ∧
    sb_bqueue sb' = Some q.
Proof.
  intros Hb. unfold set_bqueue.
  destruct (set_buffer_spec nb sock sb (mk_sockbuffer (peer_info sb) (data sb) (data_size sb)
    (data_len sb) (Some q)) Hb) as [-> Hb']. by eexists _, _.
Qed.

Lemma queue_step sock st pending msg :
  Z.of_nat send_buffer_size ≤ 2 ^ 32 → send_inv sock st pending →
  ∃ st', send_step sock st (SQueue msg) =
      Ret (if decide (length pending + (4 + length msg) < send_buffer_size)%nat then 0 else -1, st') ∧
    send_inv sock st' (if decide (length pending + (4 + length msg) < send_buffer_size)%nat
                       then pending ++ frame msg else pending).
Proof.
  intros Hsz (sb & q & Hb & Hq & Hwf & Hm & Hc & Hacc & Hfit & Hw).
  unfold send_step, nb_queue_retry, nb_queue_try.
  set (frm := host_bytes _ _ ++ msg).
  assert (length frm = 4 + length msg)%nat as Hfrm.
  { subst frm. rewrite length_app. unfold host_bytes. destruct big;
      by rewrite ?length_rev, length_le_split. }
  rewrite (get_buffer_spec _ _ _ Hb), outcome_bind_ret, Hq.
  destruct (decide (length pending + (4 + length msg) < send_buffer_size)%nat) as [Hr|Hr].
  - assert (frm = frame msg) as ->.
    { subst frm. unfold u32. rewrite Z.mod_small by lia. by rewrite host_bytes_wnet by lia. }
    destruct (push_ok uninit q (frame msg) BQUEUE_NOFLAG Hwf) as (q' & -> & Hwf' & Hm' & _ & Hc').
    { unfold fits. rewrite Hc, Hm. lia. }
    rewrite outcome_bind_ret.
    destruct (set_bqueue_spec (sd_nb st) sock sb q' Hb) as (nb' & sb' & -> & Hb' & Hq').
    rewrite outcome_bind_ret. rewrite decide_True by done. unfold bqueue_used.
    rewrite (bq_used_spec q' Hwf'), !outcome_bind_ret.
    eexists. split; [reflexivity|]. exists sb', q'. cbn [sd_nb sd_accepted sd_sent sd_watched].
    rewrite decide_True by done. rewrite Hc', Hc. split_and!; try done.
    + congruence.
    + rewrite fmap_app, concat_app, Hacc. cbn. by rewrite app_nil_r, app_assoc.
    + apply Forall_app. split; [done|]. constructor; [lia|done].
    + split; [intros _; by destruct pending|intros _]. rewrite length_app, length_frame.
      case_decide; [done|]. cbn. apply Hw. intros ->. cbn in *. lia.
  - rewrite (push_no_room uninit q frm BQUEUE_NOFLAG Hwf) by (unfold fits; rewrite Hc, Hm; lia).
    rewrite outcome_bind_ret.
    destruct (set_bqueue_spec (sd_nb st) sock sb q Hb) as (nb' & sb' & -> & Hb' & Hq').
    rewrite outcome_bind_ret. rewrite decide_False by (case_decide; done). rewrite !outcome_bind_ret.
    eexists. split; [reflexivity|]. exists sb', q. cbn. by split_and!.
Qed.

Lemma send_step_inv sock st pending send :
  (0 < send_chunk)%nat → send_inv sock st pending → (∀ bs, send bs ≤ Z.of_nat (length bs)) →
  ∃ r st' k, send_step sock st (SSend send) = Ret (r, st') ∧ send_inv sock st' (drop k pending) ∧
    sd_sent st' = sd_sent st ++ take k pending ∧ (k ≤ send_chunk)%nat.
Proof.
  intros Hch (sb & q & Hb & Hq & Hwf & Hm & Hc & Hacc & Hfit & Hw) Hsend.
  unfold send_step, nb_send. rewrite (get_buffer_spec _ _ _ Hb), outcome_bind_ret, Hq.
  rewrite (peek_spec q send_chunk BQUEUE_NOFLAG Hwf), Hc, outcome_bind_ret.
  set (bytes := default [] _). assert (bytes = take send_chunk pending) as Hbytes.
  { subst bytes. case_decide as Hp; [by rewrite Hp, take_nil|done]. }
  clearbody bytes. set (sent := if decide _ then send bytes else 0).
  assert (sent ≤ Z.of_nat (length bytes)) as Hle.
  { subst sent. case_decide; [apply Hsend|lia]. }
  clearbody sent. assert (length bytes ≤ length pending ∧ length bytes ≤ send_chunk)%nat as [Hlp Hlc].
  { rewrite Hbytes, length_take. lia. }
  assert (∃ q', (if decide (0 < sent)
            then '(_, q1) ← bqueue_drop uninit q (Z.to_nat sent); Ret q1 else Ret q) = Ret q' ∧
      bqueue_wf q' ∧ max_length q' = max_length q ∧
      contents q' = drop (Z.to_nat sent) pending) as (q' & -> & Hwf' & Hm' & Hc').
  { case_decide as Hs.
    - destruct (drop_ok uninit q (Z.to_nat sent) Hwf) as (q' & -> & ? & ? & _ & Hd).
      + apply nonempty_has_memory; [done|]. rewrite Hc. destruct pending; [cbn in *; lia|done].
      + rewrite Hc. lia.
      + exists q'. rewrite Hd, Hc. by split_and!.
    - exists q. replace (Z.to_nat sent) with 0%nat by lia. by rewrite drop_0. }
  rewrite outcome_bind_ret. unfold bqueue_used. rewrite (bq_used_spec q' Hwf'), outcome_bind_ret.
  destruct (set_bqueue_spec (sd_nb st) sock sb q' Hb) as (nb' & sb' & -> & Hb' & Hq').
  rewrite !outcome_bind_ret. eexists _, _, (Z.to_nat sent). split; [reflexivity|].
  assert (take (Z.to_nat sent) bytes = take (Z.to_nat sent) pending) as Htk.
  { rewrite Hbytes, take_take. f_equal. lia. }
  split_and!; [|cbn; by rewrite Htk|lia]. exists sb', q'. cbn. rewrite Htk. split_and!; try done.
  - congruence.
  - rewrite Hacc, <-app_assoc. by rewrite take_drop.
  - rewrite Hc'. destruct (drop (Z.to_nat sent) pending) as [|b bs] eqn:Ed.
    + rewrite decide_True by (by right). done.
    + rewrite decide_False.
      * split; [done|]. intros _. apply Hw. intros ->. by rewrite drop_nil in Ed.
      * intros [E|E]; [|done]. rewrite Hbytes, length_take in E.
        assert (length pending = 0)%nat as Hz by lia. destruct pending; [|done].
        by rewrite drop_nil in Ed.
Qed.

Lemma send_run_inv sock st pending ops :
  Z.of_nat send_buffer_size ≤ 2 ^ 32 → (0 < send_chunk)%nat → send_inv sock st pending →
  Forall send_ok ops →
  ∃ rs st' pending', send_run sock st ops = Ret (rs, st') ∧ send_inv sock st' pending'.
Proof.
  intros Hsz Hch Hinv Hops. revert st pending Hinv.
  induction Hops as [|op ops Hop _ IH]; intros st pending Hinv; [by eexists _, st, pending|].
  cbn [send_run].
  assert (∃ r st1 p1, send_step sock st op = Ret (r, st1) ∧ send_inv sock st1 p1)
    as (r & st1 & p1 & -> & Hinv1).
  { destruct op as [msg|send].
    - destruct (queue_step sock st pending msg Hsz Hinv) as (st1 & -> & ?). eauto.
    - destruct (send_step_inv sock st pending send Hch Hinv Hop) as (r & st1 & k & -> & ? & _). eauto. }
  rewrite outcome_bind_ret. destruct (IH st1 p1 Hinv1) as (rs & st2 & p2 & -> & Hinv2).
  rewrite outcome_bind_ret. eauto.
Qed.

(** ** The table of buffers *)

(** The invariant of the table: one cell more than [max_fd], or none at all. *)
Definition nb_wf (nb : netbuffer) : Prop :=
  length (buffers nb) = (max_fd nb + 1)%nat ∨ (max_fd nb = 0%nat ∧ buffers nb = []).

Definition new_sockbuffer (p : peer) : sockbuffer :=
  mk_sockbuffer p [] 0 0 (bqueue_init send_buffer_size BQUEUE_SHRINK).

Lemma nb_open_spec nb sock p :
  nb_wf nb →
  ∃ nb', nb_open nb sock p = Ret nb' ∧ nb_wf nb' ∧ has_buffer nb' sock (new_sockbuffer p) ∧
    ∀ k sb, k ≠ sock → has_buffer nb k sb → has_buffer nb' k sb.
Proof.
  intros Hwf. unfold nb_open, set_buffer. case_decide as Hm; cbn [max_fd buffers].
  - rewrite c_write_lt by (rewrite length_c_realloc; lia). rewrite outcome_bind_ret.
    eexists. split; [done|]. split; [left; cbn; rewrite length_insert, length_c_realloc; lia|].
    unfold has_buffer. cbn. split; [apply list_lookup_insert_eq; rewrite length_c_realloc; lia|].
    intros k sb Hk Hl. rewrite list_lookup_insert_ne by done.
    pose proof (lookup_lt_Some _ _ _ Hl) as Hlt. rewrite lookup_c_realloc; [done| |done].
    destruct Hwf as [Hw|[_ Hw]]; [lia|by rewrite Hw in Hl].
  - assert (length (buffers nb) = (max_fd nb + 1)%nat) as Hl by (destruct Hwf as [?|[? _]]; [done|lia]).
    rewrite c_write_lt by lia. rewrite outcome_bind_ret. eexists. split; [done|].
    split; [left; cbn; by rewrite length_insert|]. unfold has_buffer. cbn.
    split; [apply list_lookup_insert_eq; lia|]. intros k sb Hk Hb. by rewrite list_lookup_insert_ne.
Qed.

Lemma nb_close_spec nb sock sb :
  has_buffer nb sock sb →
  ∃ nb', nb_close nb sock = Ret nb' ∧ has_buffer nb' sock zero_sockbuffer ∧ (nb_wf nb → nb_wf nb') ∧
    ∀ k sb, k ≠ sock → has_buffer nb k sb → has_buffer nb' k sb.
Proof.
  intros Hb. unfold nb_close. rewrite (get_buffer_spec _ _ _ Hb), outcome_bind_ret.
  destruct (set_buffer_spec nb sock sb zero_sockbuffer Hb) as [-> Hb']. eexists. split; [done|].
  split_and!; [done| |].
  - intros [Hw|[_ Hw]]; [left; cbn; by rewrite length_insert|].
    unfold has_buffer in Hb. by rewrite Hw in Hb.
  - intros k sb' Hk Hl. unfold has_buffer. cbn. by rewrite list_lookup_insert_ne.
Qed.

(** C26: reassembly.  Whatever the pieces in which a stream arrives, the manager
    hands over exactly the messages it consists of, in order, and then closes the
    connection with the result of the last [recv] if the stream ends there or within
    a message, and with -2 if a header announces more than [OS_MAXSTR] bytes.  Every
    access to the receive buffer is inside its allocation, with every setting of
    [buffer_relax]. *)
Theorem nb_recv_reassembles nb sock p s msgs rest :
  (0 < receive_chunk)%nat → nb_wf nb → Forall fits_maxstr msgs → incomplete rest ∨ corrupt rest →
  stream s = concat (frame <$> msgs) ++ rest →
  ∃ nb' r, nb_open nb sock p = Ret nb' ∧
    recv_run (S (length (stream s))) nb' sock s = Ret (msgs, r) ∧
    (incomplete rest ∧ r = end_code (at_end s) ∨ corrupt rest ∧ r = -2).
Proof.
  intros Hch Hwf Hm Hr Hs. destruct (nb_open_spec nb sock p Hwf) as (nb' & Ho & _ & Hb & _).
  destruct (recv_run_spec (S (length (stream s))) nb' sock (new_sockbuffer p) s msgs rest)
    as (r & Hrun & Hres); try done.
  - left. cbn. lia.
  - lia.
  - by exists nb', r.
Qed.

(** C27: ordered and complete sending.  After any sequence of messages queued and
    partial, failing or full sends on a connection, the bytes sent followed by the
    bytes pending are the frames of the accepted messages in order; the notifier
    watches the socket for writing exactly while bytes are pending, so none is
    forgotten; a message is refused exactly when its frame does not fit; and once
    nothing is pending the peer receives the accepted messages one by one. *)
Theorem nb_send_delivers nb sock p ops :
  (1 < send_buffer_size)%nat → Z.of_nat send_buffer_size ≤ 2 ^ 31 → (0 < send_chunk)%nat →
  nb_wf nb → Forall send_ok ops →
  ∃ nb' rs st pending, nb_open nb sock p = Ret nb' ∧
    send_run sock (mk_sender nb' [] [] false) ops = Ret (rs, st) ∧
    concat (frame <$> sd_accepted st) = sd_sent st ++ pending ∧
    (sd_watched st = true ↔ pending ≠ []) ∧
    (∀ msg, ∃ st', send_step sock st (SQueue msg) =
       Ret (if decide (length pending + (4 + length msg) < send_buffer_size)%nat then 0 else -1, st')) ∧
    (pending = [] → ∀ big' sched ret size,
       Forall (λ m, (length m ≤ size)%nat) (sd_accepted st) → (size ≤ length ret)%nat →
       Z.of_nat size < 2 ^ 31 →
       ∃ s', receive_n big' (length (sd_accepted st)) (mk_socket (sd_sent st) sched Disconnected) ret size
         = Ret ((λ m, (Z.of_nat (length m), m)) <$> sd_accepted st, s') ∧ stream s' = []).
Proof.
  intros H1 Hsz Hch Hwf Hops. destruct (nb_open_spec nb sock p Hwf) as (nb' & Ho & _ & Hb & _).
  assert (send_inv sock (mk_sender nb' [] [] false) []) as Hinv0.
  { destruct (bqueue_init (A := byte) send_buffer_size BQUEUE_SHRINK) as [q|] eqn:Hq.
    - destruct (bqueue_init_wf _ _ _ Hq) as (Hw & Hc & Hm). exists (new_sockbuffer p), q.
      split_and!; cbn; try done.
    - unfold bqueue_init in Hq. case_decide; [lia|done]. }
  destruct (send_run_inv sock (mk_sender nb' [] [] false) [] ops) as (rs & st & pending & Hrun & Hinv); [lia|done..|].
  pose proof Hinv as (sb & q & _ & _ & _ & _ & _ & Hacc & _ & Hw).
  exists nb', rs, st, pending. split_and!; [done..| |].
  - intros msg. destruct (queue_step sock st pending msg) as (st' & Hq & _); [lia|done|]. eauto.
  - intros -> big' sched ret size Hm Hr Hz.
    destruct (receive_n_frames big' (sd_accepted st) (mk_socket (sd_sent st) sched Disconnected)
      ret size []) as (s' & ? & ?); try done; [|by exists s'].
    cbn. by rewrite Hacc, !app_nil_r.
Qed.

End netbuffer.

(** *** Witnesses *)

Definition demo_stream : list byte :=
  frame [Byte.x41; Byte.x42; Byte.x43] ++ frame [] ++ [Byte.x05; Byte.x00; Byte.x00].

Lemma nb_recv_reassembles_witness :
  ∃ nb' r, nb_open 100 (mk_netbuffer 0 []) 5 tt = Ret nb' ∧
    recv_run 8 1 false (λ _, Byte.xff) 15 nb' 5 (mk_socket demo_stream [1; 5; 2; 3; 3]%nat Disconnected) =
      Ret ([[Byte.x41; Byte.x42; Byte.x43]; []], r) ∧ r = 0.
Proof.
  destruct (nb_recv_reassembles 8 100 1 false (λ _, Byte.xff) (mk_netbuffer 0 []) 5 tt
    (mk_socket demo_stream [1; 5; 2; 3; 3]%nat Disconnected)
    [[Byte.x41; Byte.x42; Byte.x43]; []] [Byte.x05; Byte.x00; Byte.x00]) as (nb' & r & Ho & Hr & Hc).
  - lia.
  - right. done.
  - repeat constructor; unfold fits_maxstr, OS_MAXSTR; simpl; lia.
  - left. left. simpl. lia.
  - reflexivity.
  - exists nb', r. split_and!; [exact Ho|exact Hr|]. destruct Hc as [[_ ->]|[[Hl _] _]]; [done|].
    simpl in Hl. lia.
Defined.

(** Two messages, the second sent in two pieces after a failed attempt. *)
Definition demo_sends : list send_op :=
  [SQueue [Byte.x41]; SSend (λ bs, Z.of_nat (length bs)); SQueue [Byte.x42; Byte.x43];
   SSend (λ _, -1); SSend (λ bs, Z.min 4 (Z.of_nat (length bs)))].

Lemma demo_sends_ok : Forall send_ok demo_sends.
Proof. repeat constructor; intros bs; lia. Qed.

Lemma nb_send_delivers_witness :
  ∃ nb' rs st pending, nb_open 100 (mk_netbuffer 0 []) 5 tt = Ret nb' ∧
    send_run 512 false (λ _, Byte.xff) 5 (mk_sender nb' [] [] false) demo_sends = Ret (rs, st) ∧
    concat (frame <$> sd_accepted st) = sd_sent st ++ pending ∧
    (sd_watched st = true ↔ pending ≠ []).
Proof.
  destruct (nb_send_delivers 512 100 false (λ _, Byte.xff) (mk_netbuffer 0 []) 5 tt demo_sends)
    as (nb' & rs & st & pending & Ho & Hr & Hc & Hw & _).
  - lia.
  - lia.
  - lia.
  - right. done.
  - exact demo_sends_ok.
  - exists nb', rs, st, pending. split_and!; [exact Ho|exact Hr|exact Hc|apply Hw..].
Defined.
