(* ===== verification/AgentBuffer.v ===== *)
(** * The event buffer of the agent ([client-agent/src/buffer.c])

    Producers append events to a ring with one spare cell, one thread dispatches
    them to the manager, and a configuration reload resizes, frees or recreates the
    ring.  Indices and the configured length are C [int]s, the remainder is C's, and
    every access to the ring is checked against its allocation, because a reload can
    make the three disagree.  The usage levels are compared in floating point, which
    is modelled to the last bit. *)

From stdpp Require Import base numbers list.
From Stdlib Require Import Lia ZArith Strings.Byte.
From S2P Require Import Prelude CString.

#[local] Open Scope Z_scope.

(** ** Floating-point division

    [p / q] of two non-negative integers that the format represents, rounded to
    nearest, ties to even, with [prec] bits of significand: the result is
    [m * 2 ^ e].  The first candidate for [e] leaves [prec] or [prec + 1] bits. *)
Definition round_at (p q e : Z) : Z :=
  let n := if decide (0 ≤ e) then p else p * 2 ^ (- e) in
  let d := if decide (0 ≤ e) then q * 2 ^ e else q in
  let m := n / d in
  let r := n mod d in
  if decide (d < 2 * r ∨ (2 * r = d ∧ Z.odd m = true)) then m + 1 else m.

Definition round_div (prec p q : Z) : Z * Z :=
  if decide (p = 0) then (0, 0)
  else
    let e := Z.log2 p - Z.log2 q - prec in
    let n := if decide (0 ≤ e) then p / (q * 2 ^ e) else (p * 2 ^ (- e)) / q in
    let e' := if decide (n < 2 ^ prec) then e else e + 1 in
    (round_at p q e', e').

(** [x <= y] for such numbers. *)
Definition float_le (x y : Z * Z) : bool :=
  let e := Z.min x.2 y.2 in
  bool_decide (x.1 * 2 ^ (x.2 - e) ≤ y.1 * 2 ^ (y.2 - e)).

(** ** Data *)

Inductive buffer_status : Type := NORMAL | WARNING | FULL | FLOOD.

Record buffered_message : Type := mk_message {
  bm_data : list byte;
  bm_size : nat;
}.

(** The bits of [buff]. *)
Record buff_flags : Type := mk_flags {
  fl_full : bool;
  fl_warn : bool;
  fl_flood : bool;
  fl_normal : bool;
}.

(** [buffer] is [None] for [NULL]; a cell is [None] when its [data] is [NULL].
    [agt_buffer] and [buflength] are the fields of [agt]. *)
Record agent_buffer : Type := mk_ab {
  buffer : option (list (option buffered_message));
  ab_i : Z;
  ab_j : Z;
  ab_state : buffer_status;
  buff : buff_flags;
  ab_start : Z;
  cond_no_empty : cond;
  agt_buffer : bool;
  buflength : Z;
}.

(** The internal options. *)
Record levels : Type := mk_levels { warn_level : Z; normal_level : Z; tolerance : Z }.

Definition with_state (s : agent_buffer) (st : buffer_status) (f : buff_flags) (t : Z)
    : agent_buffer :=
  mk_ab (buffer s) (ab_i s) (ab_j s) st f t (cond_no_empty s) (agt_buffer s) (buflength s).

Definition with_ring (s : agent_buffer) (b : option (list (option buffered_message))) (i j : Z)
    (c : cond) : agent_buffer :=
  mk_ab b i j (ab_state s) (buff s) (ab_start s) c (agt_buffer s) (buflength s).

Definition with_config (s : agent_buffer) (enabled : bool) (len : Z) : agent_buffer :=
  mk_ab (buffer s) (ab_i s) (ab_j s) (ab_state s) (buff s) (ab_start s) (cond_no_empty s)
    enabled len.

(** ** The macros of [agentd.h] *)

(** C's [%]. *)
Definition int_rem (a b : Z) : outcome Z :=
  if decide (b = 0) then Stuck DivByZero else Ret (Z.rem a b).

Definition full (i j n : Z) : outcome bool :=
  r ← int_rem (i + 1) n; Ret (bool_decide (r = j)).

Definition forward (x n : Z) : outcome Z := int_rem (x + 1) n.

Definition empty (i j : Z) : bool := bool_decide (i = j).

(** The number of messages as the macros count them. *)
Definition count (s : agent_buffer) : outcome Z :=
  int_rem (ab_i s - ab_j s + buflength s + 1) (buflength s + 1).

(** The usage, a [float]; a division by zero gives no number, and no comparison
    with it holds. *)
Definition usage (s : agent_buffer) : outcome (option (Z * Z)) :=
  c ← count s;
  Ret (if decide (buflength s = 0) then None else Some (round_div 24 c (buflength s))).

(** [(float)level / 100.0], a [double]. *)
Definition threshold (level : Z) : Z * Z := round_div 53 level 100.

Definition warn (s : agent_buffer) (lv : levels) : outcome bool :=
  u ← usage s;
  Ret (match u with Some x => float_le (threshold (warn_level lv)) x | None => false end).

Definition nowarn (s : agent_buffer) (lv : levels) : outcome bool :=
  u ← usage s;
  Ret (match u with Some x => float_le x (threshold (warn_level lv)) | None => false end).

Definition normal (s : agent_buffer) (lv : levels) : outcome bool :=
  u ← usage s;
  Ret (match u with Some x => float_le x (threshold (normal_level lv)) | None => false end).

(** ** The ring *)

Definition cell_read (s : agent_buffer) (k : Z) : outcome (option buffered_message) :=
  b ← c_deref (buffer s);
  if decide (0 ≤ k) then c_read b (Z.to_nat k) else Stuck OutOfBounds.

Definition cell_write (s : agent_buffer) (k : Z) (m : option buffered_message)
    : outcome (list (option buffered_message)) :=
  b ← c_deref (buffer s);
  if decide (0 ≤ k) then c_write b (Z.to_nat k) m else Stuck OutOfBounds.

Definition buffer_init (s : agent_buffer) : agent_buffer :=
  match buffer s with
  | Some _ => s
  | None => with_ring s (Some (replicate (Z.to_nat (buflength s + 1)) None)) (ab_i s) (ab_j s)
              (cond_no_empty s)
  end.

(** The rise of the level at the head of [buffer_append], at time [now]. *)
Definition append_level (s : agent_buffer) (lv : levels) (now : Z) : outcome agent_buffer :=
  let f := buff s in
  let to_full := with_state s FULL (mk_flags true (fl_warn f) (fl_flood f) (fl_normal f)) now in
  match ab_state s with
  | NORMAL =>
      fu ← full (ab_i s) (ab_j s) (buflength s + 1);
      if (fu : bool) then Ret to_full
      else
        w ← warn s lv;
        Ret (if (w : bool) then
               with_state s WARNING (mk_flags (fl_full f) true (fl_flood f) (fl_normal f)) (ab_start s)
             else s)
  | WARNING =>
      fu ← full (ab_i s) (ab_j s) (buflength s + 1);
      Ret (if (fu : bool) then to_full else s)
  | FULL =>
      Ret (if decide (tolerance lv ≤ now - ab_start s) then
             with_state s FLOOD (mk_flags (fl_full f) (fl_warn f) true (fl_normal f)) (ab_start s)
           else s)
  | FLOOD => Ret s
  end.

(** The copy that [buffer_append] stores. *)
Definition make_message (msg : list byte) (msg_len : Z) : outcome buffered_message :=
  if decide (msg_len < 0) then
    n ← strlen msg; d ← c_slice msg 0 (n + 1); Ret (mk_message d n)
  else
    d ← c_slice msg 0 (Z.to_nat msg_len); Ret (mk_message d (Z.to_nat msg_len)).

Definition buffer_append (s : agent_buffer) (lv : levels) (now : Z) (msg : list byte) (msg_len : Z)
    : outcome (Z * agent_buffer) :=
  s1 ← append_level s lv now;
  fu ← full (ab_i s1) (ab_j s1) (buflength s1 + 1);
  if (fu : bool) then Ret (-1, s1)
  else
    m ← make_message msg msg_len;
    b ← cell_write s1 (ab_i s1) (Some m);
    i' ← forward (ab_i s1) (buflength s1 + 1);
    Ret (0, with_ring s1 (Some b) i' (ab_j s1) (w_cond_signal (cond_no_empty s1))).

(** The fall of the level in [dispatch_buffer]. *)
Definition dispatch_level (s : agent_buffer) (lv : levels) : outcome agent_buffer :=
  let f := buff s in
  let to_normal t := with_state t NORMAL (mk_flags (fl_full f) (fl_warn f) (fl_flood f) true)
                       (ab_start s) in
  match ab_state s with
  | NORMAL => Ret s
  | WARNING => n ← normal s lv; Ret (if (n : bool) then to_normal s else s)
  | FULL | FLOOD =>
      w ← nowarn s lv;
      let s1 := if (w : bool) then with_state s WARNING f (ab_start s) else s in
      n ← normal s1 lv;
      Ret (if (n : bool) then to_normal s1 else s1)
  end.

Inductive dispatched : Type :=
  | Sleeps
  | Exits
  | Sends (m : option buffered_message).

(** The critical section of one turn of [dispatch_buffer]. *)
Definition dispatch_buffer (s : agent_buffer) (lv : levels) : outcome (dispatched * agent_buffer) :=
  if empty (ab_i s) (ab_j s) && agt_buffer s then
    Ret (Sleeps, with_ring s (buffer s) (ab_i s) (ab_j s) (cond_sleep (cond_no_empty s)))
  else if negb (agt_buffer s) then Ret (Exits, s)
  else
    s1 ← dispatch_level s lv;
    m ← cell_read s1 (ab_j s1);
    b ← cell_write s1 (ab_j s1) None;
    j' ← forward (ab_j s1) (buflength s1 + 1);
    Ret (Sends m, with_ring s1 (Some b) (ab_i s1) j' (cond_no_empty s1)).

Inductive status_event : Type := Ev_warning | Ev_full | Ev_flooded | Ev_normal.

(** What follows the critical section: the status events, whose bits are cleared. *)
Definition dispatch_report (s : agent_buffer) : list status_event * agent_buffer :=
  let f := buff s in
  ((if fl_warn f then [Ev_warning] else []) ++ (if fl_full f then [Ev_full] else []) ++
   (if fl_flood f then [Ev_flooded] else []) ++ (if fl_normal f then [Ev_normal] else []),
   with_state s (ab_state s) (mk_flags false false false false) (ab_start s)).

(** ** Length, release and resizing *)

Definition w_agentd_get_buffer_lenght (s : agent_buffer) : outcome Z :=
  if agt_buffer s then
    r ← int_rem (ab_i s - ab_j s) (buflength s + 1);
    Ret (if decide (r < 0) then r + buflength s + 1 else r)
  else Ret (-1).

(** The messages freed by a loop over the cells [0 .. cap]. *)
Definition free_cells (b : list (option buffered_message)) (cap : nat)
    : outcome (list buffered_message) :=
  cells ← c_slice b 0 (cap + 1); Ret (omap (M := list) id cells).

Definition w_agentd_buffer_free (s : agent_buffer) (current_capacity : nat)
    : outcome (list buffered_message * agent_buffer) :=
  match buffer s with
  | None => Ret ([], s)
  | Some b =>
      if decide (current_capacity = 0%nat) then Ret ([], s)
      else
        gone ← free_cells b current_capacity;
        Ret (gone, mk_ab None 0 0 (ab_state s) (buff s) (ab_start s)
                     (w_cond_signal (cond_no_empty s)) (agt_buffer s) 0)
  end.

(** The copy into a larger ring. *)
Definition grow_copy (b : list (option buffered_message)) (i j : Z) (cnt cur des : nat)
    : outcome (list (option buffered_message)) :=
  let tmp := replicate (des + 1) None in
  if decide (j < i) then
    xs ← c_slice b (Z.to_nat j) cnt; c_store tmp 0 xs
  else
    let first_part := Z.to_nat (Z.of_nat cur - j + 1) in
    xs ← c_slice b (Z.to_nat j) first_part;
    t1 ← c_store tmp 0 xs;
    ys ← c_slice b 0 (Z.to_nat i);
    c_store t1 first_part ys.

(** The loop of the copy into a smaller ring. *)
Fixpoint shrink_loop (b tmp : list (option buffered_message)) (j cur k : nat) (n : nat)
    : outcome (list (option buffered_message) * list (option buffered_message)) :=
  match n with
  | O => Ret (b, tmp)
  | S n =>
      idx ← c_mod (j + k) (cur + 1);
      m ← c_read b idx;
      match m with
      | Some _ =>
          t ← c_write tmp k m;
          b' ← c_write b idx None;
          shrink_loop b' t j cur (k + 1) n
      | None => shrink_loop b tmp j cur (k + 1) n
      end
  end.

(** [w_agentd_buffer_resize], with the messages it frees.  The count is taken in a
    critical section of its own; here nothing happens in between. *)
Definition w_agentd_buffer_resize (s : agent_buffer) (current_capacity desired_capacity : nat)
    : outcome (Z * list buffered_message * agent_buffer) :=
  if decide (desired_capacity = 0%nat) then Ret (-1, [], s)
  else if decide (desired_capacity = current_capacity) then Ret (0, [], s)
  else
    n ← w_agentd_get_buffer_lenght s;
    if decide (n < 0) then Ret (-1, [], s)
    else
      let cnt := Z.to_nat n in
      if decide (current_capacity + 1 < cnt)%nat then Ret (-1, [], s)
      else
        b ← c_deref (buffer s);
        if decide (current_capacity < desired_capacity)%nat then
          tmp ← grow_copy b (ab_i s) (ab_j s) cnt current_capacity desired_capacity;
          Ret (0, [], with_ring s (Some tmp) (Z.of_nat cnt) 0 (cond_no_empty s))
        else
          let kept := Nat.min cnt desired_capacity in
          '(b', tmp) ← shrink_loop b (replicate (desired_capacity + 1) None) (Z.to_nat (ab_j s))
                         current_capacity 0 kept;
          gone ← free_cells b' current_capacity;
          Ret (0, gone, with_ring s (Some tmp) (Z.of_nat kept) 0 (cond_no_empty s)).

(** The reload of [agentd.c]: [ReadConfig] has stored the new settings in [agt]
    before the buffer is freed, created or resized.  [None] leaves a setting as it
    is; the result tells whether a dispatch thread is started. *)
Definition reload (s : agent_buffer) (enabled : option bool) (len : option Z)
    : outcome (bool * list buffered_message * agent_buffer) :=
  let current_capacity := Z.to_nat (buflength s) in
  let was := agt_buffer s in
  let s1 := with_config s (default was enabled) (default (buflength s) len) in
  if negb (agt_buffer s1) && was then
    '(gone, s2) ← w_agentd_buffer_free s1 current_capacity; Ret (false, gone, s2)
  else if negb was && agt_buffer s1 then Ret (true, [], buffer_init s1)
  else if agt_buffer s1 then
    '(_, gone, s2) ← w_agentd_buffer_resize s1 current_capacity (Z.to_nat (buflength s1));
    Ret (false, gone, s2)
  else Ret (false, [], s1).

(** ** The ring as a list *)

(** The [N] cells from [j] on, once round, hold [xs] and then nothing. *)
Record ring_at (b : list (option buffered_message)) (j N : nat) (xs : list buffered_message)
    : Prop := {
  ra_length : length b = N;
  ra_tail : (j < N)%nat;
  ra_room : (length xs < N)%nat;
  ra_cells : ∀ k, (k < N)%nat → b !! ((j + k) `mod` N)%nat = Some (xs !! k);
}.

Lemma ring_at_head b j N xs : ring_at b j N xs → b !! j = Some (xs !! 0%nat).
Proof.
  intros [Hl Hj Hr Hc]. specialize (Hc 0%nat). rewrite Nat.add_0_r, Nat.mod_small in Hc by lia.
  apply Hc. lia.
Qed.

Lemma ring_index_inj j N a b :
  (j < N)%nat → (a < N)%nat → (b < N)%nat → ((j + a) `mod` N = (j + b) `mod` N)%nat → a = b.
Proof.
  intros Hj Ha Hb. destruct (mod_once (j + a) N) as [[? ->]|[? ->]]; [lia|lia| |];
    destruct (mod_once (j + b) N) as [[? ->]|[? ->]]; lia.
Qed.

Lemma ring_at_push b j N xs m :
  ring_at b j N xs → (length xs + 1 < N)%nat →
  ring_at (<[((j + length xs) `mod` N)%nat := Some m]> b) j N (xs ++ [m]).
Proof.
  intros [Hl Hj Hr Hc] Hroom. split; [by rewrite length_insert|done|rewrite length_app; simpl; lia|].
  intros k Hk. destruct (decide (k = length xs)) as [->|Hne].
  - rewrite list_lookup_insert_eq, lookup_app_r, Nat.sub_diag by
      (rewrite ?Hl; first [done|lia|apply Nat.mod_upper_bound; lia]). done.
  - rewrite list_lookup_insert_ne by (intros E; apply Hne; symmetry; eapply ring_index_inj; [..|exact E]; lia).
    rewrite Hc by done. f_equal. destruct (decide (k < length xs)%nat).
    + by rewrite lookup_app_l.
    + rewrite lookup_ge_None_2 by lia. rewrite lookup_ge_None_2; [done|]. rewrite length_app. simpl. lia.
Qed.

Lemma ring_at_pop b j N m xs :
  ring_at b j N (m :: xs) → ring_at (<[j := None]> b) ((j + 1) `mod` N)%nat N xs.
Proof.
  intros [Hl Hj Hr Hc]. simpl in Hr.
  split; [by rewrite length_insert|apply Nat.mod_upper_bound; lia|lia|].
  intros k Hk. rewrite Nat.Div0.add_mod_idemp_l.
  destruct (decide (k = N - 1)%nat) as [->|Hne].
  - replace (j + 1 + (N - 1))%nat with (j + 1 * N)%nat by lia.
    rewrite Nat.Div0.mod_add, Nat.mod_small by lia.
    rewrite list_lookup_insert_eq by lia. by rewrite lookup_ge_None_2 by lia.
  - rewrite list_lookup_insert_ne.
    + replace (j + 1 + k)%nat with (j + (k + 1))%nat by lia. rewrite Hc by lia.
      by rewrite Nat.add_1_r.
    + intros E. assert (k + 1 = 0)%nat; [|lia]. apply (ring_index_inj j N); [lia..|].
      rewrite Nat.add_0_r, (Nat.mod_small j) by lia. rewrite E. f_equal. lia.
Qed.

Lemma ring_at_new N j : (j < N)%nat → ring_at (replicate N None) j N [].
Proof.
  intros Hj. split; [apply length_replicate|done|simpl; lia|].
  intros k Hk. rewrite lookup_replicate_2; [done|]. apply Nat.mod_upper_bound. lia.
Qed.

(** The state holds the messages [xs] in a ring for [n]. *)
Record ring (s : agent_buffer) (n : nat) (xs : list buffered_message) : Prop := {
  rg_pos : (0 < n)%nat;
  rg_length : buflength s = Z.of_nat n;
  rg_tail : 0 ≤ ab_j s;
  rg_head : ab_i s = Z.of_nat ((Z.to_nat (ab_j s) + length xs) `mod` (n + 1));
  rg_ring : ∃ b, buffer s = Some b ∧ ring_at b (Z.to_nat (ab_j s)) (n + 1) xs;
}.

Lemma int_rem_nat a n : int_rem (Z.of_nat a) (Z.of_nat n + 1) = Ret (Z.of_nat (a `mod` (n + 1))).
Proof.
  unfold int_rem. rewrite decide_False by lia. f_equal.
  rewrite Z.rem_mod_nonneg by lia. rewrite Nat2Z.inj_mod. f_equal. lia.
Qed.

Lemma forward_spec x n : 
  forward (Z.of_nat x) (Z.of_nat n + 1) = Ret (Z.of_nat ((x + 1) `mod` (n + 1))).
Proof. unfold forward. rewrite <-int_rem_nat. f_equal. lia. Qed.

Lemma ring_full_spec s n xs :
  ring s n xs → full (ab_i s) (ab_j s) (buflength s + 1) = Ret (bool_decide (length xs = n)).
Proof.
  intros [Hp Hl Ht Hh (b & _ & [Hbl Hj Hr _])]. unfold full. rewrite Hl, Hh.
  replace (Z.of_nat _ + 1) with (Z.of_nat ((Z.to_nat (ab_j s) + length xs) `mod` (n + 1) + 1)) at 1 by lia.
  rewrite int_rem_nat, outcome_bind_ret. f_equal. apply bool_decide_ext.
  rewrite Nat.Div0.add_mod_idemp_l. set (j := Z.to_nat (ab_j s)) in *.
  assert (ab_j s = Z.of_nat j) as -> by lia.
  destruct (decide (length xs = n)) as [->|Hne].
  - replace (j + n + 1)%nat with (j + 1 * (n + 1))%nat by lia.
    rewrite Nat.Div0.mod_add, Nat.mod_small by lia. done.
  - split; [|done]. intros E. exfalso. apply Nat2Z.inj in E.
    assert (length xs + 1 = 0)%nat; [|lia]. apply (ring_index_inj j (n + 1)); [lia..|].
    rewrite Nat.add_0_r, (Nat.mod_small j) by lia. rewrite <-E. f_equal. lia.
Qed.

Lemma ring_empty_spec s n xs : ring s n xs → empty (ab_i s) (ab_j s) = bool_decide (xs = []).
Proof.
  intros [Hp Hl Ht Hh (b & _ & [Hbl Hj Hr _])]. unfold empty. apply bool_decide_ext.
  rewrite Hh. set (j := Z.to_nat (ab_j s)) in *. assert (ab_j s = Z.of_nat j) as -> by lia.
  split.
  - intros E%Nat2Z.inj. apply length_zero_iff_nil. apply (ring_index_inj j (n + 1)); [lia..|].
    by rewrite Nat.add_0_r, (Nat.mod_small j) by lia.
  - intros ->. simpl. by rewrite Nat.add_0_r, Nat.mod_small by lia.
Qed.

(** ** The levels do not touch the ring *)

Definition same_ring (s t : agent_buffer) : Prop :=
  buffer t = buffer s ∧ ab_i t = ab_i s ∧ ab_j t = ab_j s ∧ cond_no_empty t = cond_no_empty s ∧
  agt_buffer t = agt_buffer s ∧ buflength t = buflength s.

Lemma same_ring_refl s : same_ring s s.
Proof. by split_and!. Qed.

Lemma same_ring_with_state s t st f w : same_ring s t → same_ring s (with_state t st f w).
Proof. by intros. Qed.

#[local] Hint Resolve same_ring_refl same_ring_with_state : gsarm.

Lemma ring_same s t n xs : same_ring s t → ring s n xs → ring t n xs.
Proof.
  intros (Hb & Hi & Hj & _ & _ & Hl) [Hp Hl' Ht Hh Hr].
  split; rewrite ?Hb, ?Hi, ?Hj, ?Hl; done.
Qed.

Lemma usage_total s : 0 ≤ buflength s → ∃ u, usage s = Ret u.
Proof.
  intros Hl. unfold usage, count, int_rem. rewrite decide_False by lia. rewrite outcome_bind_ret.
  eauto.
Qed.

Lemma append_level_total s lv now :
  0 ≤ buflength s → ∃ t, append_level s lv now = Ret t ∧ same_ring s t.
Proof.
  intros Hl. unfold append_level, full, warn, int_rem. rewrite decide_False by lia.
  destruct (usage_total s Hl) as [u ->]. rewrite !outcome_bind_ret.
  destruct (ab_state s); try case_bool_decide; try case_decide; eexists; (split; [reflexivity|]);
    auto with gsarm.
  destruct u as [u|]; [destruct (float_le _ u)|]; auto with gsarm.
Qed.

Lemma dispatch_level_total s lv :
  0 ≤ buflength s → ∃ t, dispatch_level s lv = Ret t ∧ same_ring s t.
Proof.
  intros Hl. unfold dispatch_level, nowarn, normal.
  destruct (usage_total s Hl) as [u Hu]. rewrite Hu, !outcome_bind_ret.
  assert (Hu1 : ∀ b : bool, usage (if b then with_state s WARNING (buff s) (ab_start s) else s) = Ret u)
    by (by intros []).
  destruct (ab_state s); rewrite ?Hu1, ?outcome_bind_ret; eexists; (split; [reflexivity|]);
    repeat case_match; auto with gsarm.
Qed.

(** ** The operations on the ring *)

Lemma append_refines s n xs lv now msg msg_len m :
  ring s n xs → make_message msg msg_len = Ret m →
  ∃ s', buffer_append s lv now msg msg_len =
      Ret (if decide (length xs = n) then -1 else 0, s') ∧
    ring s' n (if decide (length xs = n) then xs else xs ++ [m]) ∧
    agt_buffer s' = agt_buffer s ∧
    cond_no_empty s' = (if decide (length xs = n) then cond_no_empty s
                        else w_cond_signal (cond_no_empty s)).
Proof.
  intros Hr Hm. unfold buffer_append.
  destruct (append_level_total s lv now) as (t & -> & Hst); [rewrite (rg_length _ _ _ Hr); lia|].
  rewrite outcome_bind_ret. pose proof (ring_same _ _ _ _ Hst Hr) as Hrt.
  rewrite (ring_full_spec t n xs Hrt), outcome_bind_ret.
  destruct Hst as (_ & _ & _ & Hc & Ha & _). case_bool_decide as Hf.
  { exists t. rewrite !decide_True by done. by split_and!. }
  rewrite !decide_False by done. rewrite Hm, outcome_bind_ret.
  destruct Hrt as [Hp Hl Ht Hh (b & Hb & Hra)]. pose proof Hra as [Hbl Hj Hroom _].
  unfold cell_write. rewrite Hb. cbn [c_deref]. rewrite outcome_bind_ret, Hh.
  rewrite decide_True by lia. rewrite Nat2Z.id.
  rewrite c_write_lt by (rewrite Hbl; apply Nat.mod_upper_bound; lia).
  rewrite outcome_bind_ret, Hl, forward_spec, outcome_bind_ret.
  eexists. split; [reflexivity|]. split_and!; [|done|cbn; by rewrite Hc].
  split; cbn; try done.
  - rewrite Nat.Div0.add_mod_idemp_l, length_app. cbn. do 2 f_equal. lia.
  - eexists. split; [done|]. apply ring_at_push; [done|lia].
Qed.

Lemma dispatch_refines s n xs lv :
  ring s n xs → agt_buffer s = true →
  ∃ s', dispatch_buffer s lv = Ret (match xs with [] => Sleeps | m :: _ => Sends (Some m) end, s') ∧
    ring s' n (tail xs) ∧ agt_buffer s' = true ∧
    cond_no_empty s' = (match xs with [] => cond_sleep (cond_no_empty s) | _ => cond_no_empty s end).
Proof.
  intros Hr Ha. unfold dispatch_buffer. rewrite (ring_empty_spec s n xs Hr), Ha.
  destruct xs as [|m xs].
  - eexists. split; [reflexivity|]. by split_and!; [destruct Hr|..].
  - rewrite bool_decide_eq_false_2 by done. cbn [andb negb].
    destruct (dispatch_level_total s lv) as (t & -> & Hst); [rewrite (rg_length _ _ _ Hr); lia|].
    rewrite outcome_bind_ret. pose proof (ring_same _ _ _ _ Hst Hr) as [Hp Hl Ht Hh (b & Hb & Hra)].
    destruct Hst as (_ & _ & _ & Hc & Ha' & _). pose proof Hra as [Hbl Hj Hroom _].
    unfold cell_read, cell_write. rewrite Hb. cbn [c_deref]. rewrite !outcome_bind_ret.
    rewrite !decide_True by done. unfold c_read. rewrite (ring_at_head _ _ _ _ Hra).
    rewrite outcome_bind_ret, c_write_lt by lia. rewrite outcome_bind_ret, Hl.
    pose proof (forward_spec (Z.to_nat (ab_j t)) n) as Hfw. rewrite Z2Nat.id in Hfw by done.
    rewrite Hfw, outcome_bind_ret.
    eexists. split; [reflexivity|]. split_and!; [|cbn; congruence|done].
    apply ring_at_pop in Hra. split; cbn; try done; [lia| |].
    + rewrite Hh. cbn [length]. rewrite Nat2Z.id, Nat.Div0.add_mod_idemp_l. do 2 f_equal. lia.
    + eexists. rewrite Nat2Z.id. by split.
Qed.

(** ** Threads *)

Inductive alabel : Type :=
  | ATau
  | AAppend (m : buffered_message) (r : Z)
  | ASend (m : option buffered_message).

Definition dispatch_label (d : dispatched) : alabel :=
  match d with Sends m => ASend m | _ => ATau end.

Definition wake_dispatcher (s : agent_buffer) : agent_buffer :=
  with_ring s (buffer s) (ab_i s) (ab_j s) (cond_wake (cond_no_empty s)).

(** Producers append messages, dispatchers take a turn, sleep and wake up. *)
Inductive astep (lv : levels) : agent_buffer → alabel → agent_buffer → Prop :=
  | astep_append s now msg msg_len m r s' :
      make_message msg msg_len = Ret m →
      buffer_append s lv now msg msg_len = Ret (r, s') → astep lv s (AAppend m r) s'
  | astep_dispatch s d s' :
      dispatch_buffer s lv = Ret (d, s') → astep lv s (dispatch_label d) s'
  | astep_resume s d s' :
      0 < Z.of_nat (signalled (cond_no_empty s)) →
      dispatch_buffer (wake_dispatcher s) lv = Ret (d, s') → astep lv s (dispatch_label d) s'
  | astep_report s ev s' : dispatch_report s = (ev, s') → astep lv s ATau s'
  | astep_spurious s :
      0 < Z.of_nat (asleep (cond_no_empty s)) →
      astep lv s ATau (with_ring s (buffer s) (ab_i s) (ab_j s) (cond_spurious (cond_no_empty s))).

Inductive atrace (lv : levels) (s : agent_buffer) : list alabel → agent_buffer → Prop :=
  | atrace_nil : atrace lv s [] s
  | atrace_snoc tr s' lab s'' :
      atrace lv s tr s' → astep lv s' lab s'' → atrace lv s (tr ++ [lab]) s''.

Definition accepted (tr : list alabel) : list buffered_message :=
  omap (λ l, match l with AAppend m r => if decide (r = 0) then Some m else None | _ => None end) tr.

Definition sent (tr : list alabel) : list buffered_message :=
  omap (λ l, match l with ASend m => m | _ => None end) tr.

(** The agent at its start, with a configured length. *)
Definition agent_start (n : nat) : agent_buffer :=
  buffer_init (mk_ab None 0 0 NORMAL (mk_flags false false false false) 0 (mk_cond 0 0) true (Z.of_nat n)).

Definition ainv (n : nat) (s : agent_buffer) (xs : list buffered_message) : Prop :=
  ring s n xs ∧ agt_buffer s = true ∧
  (asleep (cond_no_empty s) = 0 ∨ length xs ≤ signalled (cond_no_empty s))%nat.

Definition alabel_effect (n : nat) (lab : alabel) (xs ys : list buffered_message) : Prop :=
  match lab with
  | ATau => ys = xs
  | AAppend m r => if decide (length xs = n) then r = -1 ∧ ys = xs else r = 0 ∧ ys = xs ++ [m]
  | ASend m => ∃ x, m = Some x ∧ xs = x :: ys
  end.

Lemma ring_with_cond s n xs c :
  ring s n xs → ring (with_ring s (buffer s) (ab_i s) (ab_j s) c) n xs.
Proof. by intros []. Qed.

(** A turn of a running dispatcher: one message may be short of a signalled one. *)
Lemma dispatch_pass n s xs lv d s' :
  ring s n xs → agt_buffer s = true →
  (asleep (cond_no_empty s) = 0 ∨ length xs - 1 ≤ signalled (cond_no_empty s))%nat →
  dispatch_buffer s lv = Ret (d, s') →
  ∃ ys, ainv n s' ys ∧ alabel_effect n (dispatch_label d) xs ys.
Proof.
  intros Hr Ha Hc Hd. destruct (dispatch_refines s n xs lv Hr Ha) as (t & Ht & Hr' & Ha' & Hc').
  rewrite Hd in Ht. injection Ht as -> ->. exists (tail xs). split.
  - split_and!; [done..|]. rewrite Hc'. destruct xs; simpl in *; lia.
  - destruct xs as [|m xs]; simpl; eauto.
Qed.

Lemma astep_inv n lv s lab s' xs :
  astep lv s lab s' → ainv n s xs → ∃ ys, ainv n s' ys ∧ alabel_effect n lab xs ys.
Proof.
  intros Hstep (Hr & Ha & Hc).
  destruct Hstep as [s now msg msg_len m r s' Hm H|s d s' H|s d s' Hw H|s ev s' H|s Hw].
  - destruct (append_refines s n xs lv now msg msg_len m Hr Hm) as (t & Ht & Hr' & Ha' & Hc').
    rewrite H in Ht. injection Ht as -> ->. eexists. split; [split_and!; [exact Hr'|congruence|]|].
    + rewrite Hc'. case_decide; [done|]. rewrite length_app. simpl.
      unfold w_cond_signal. destruct (cond_no_empty s) as [[|a] g]; simpl in *; lia.
    + simpl. by case_decide.
  - eapply dispatch_pass in H; try done. lia.
  - eapply (dispatch_pass n (wake_dispatcher s)) in H; try done; [by apply ring_with_cond|].
    simpl. lia.
  - injection H as <- <-. exists xs. split; [|done].
    split_and!; [eapply ring_same; [|exact Hr]; by split_and!|done|done].
  - exists xs. split; [|done]. split_and!; [by apply ring_with_cond|done|simpl; lia].
Qed.

Lemma agent_start_inv n : (0 < n)%nat → ainv n (agent_start n) [].
Proof.
  intros Hn. split_and!; [|done|by left]. split; try done.
  - cbn [agent_start buffer_init ab_i ab_j with_ring buffer length]. by rewrite Nat.mod_small by lia.
  - exists (replicate (n + 1) None). split; [cbn; do 2 f_equal; lia|]. apply ring_at_new. simpl. lia.
Qed.

Lemma atrace_inv n lv tr s :
  (0 < n)%nat → atrace lv (agent_start n) tr s → ∃ xs, ainv n s xs ∧ accepted tr = sent tr ++ xs.
Proof.
  intros Hn. induction 1 as [|tr s' lab s'' _ (xs & Hinv & Htr) Hstep].
  - exists []. split; [by apply agent_start_inv|done].
  - destruct (astep_inv _ _ _ _ _ _ Hstep Hinv) as (ys & Hinv' & Heff). exists ys.
    split; [done|]. unfold accepted, sent in *. rewrite !omap_app, Htr.
    destruct lab as [|m r|m]; simpl in *.
    + by rewrite !app_nil_r, Heff.
    + revert Heff. case_decide as Hl; intros [-> ->]; simpl;
        rewrite ?app_nil_r; by rewrite <-?app_assoc.
    + destruct Heff as (x & -> & ->). simpl. by rewrite app_nil_r, <-app_assoc.
Qed.

(** ** Resizing *)

Lemma ring_at_slice b j N xs :
  ring_at b j N xs → (j + length xs ≤ N)%nat → take (length xs) (drop j b) = Some <$> xs.
Proof.
  intros [Hl Hj Hr Hc] Hw. apply list_eq. intros k. rewrite lookup_take, list_lookup_fmap.
  case_decide as Hk; [|by rewrite lookup_ge_None_2 by lia].
  rewrite lookup_drop. specialize (Hc k). rewrite Nat.mod_small in Hc by lia.
  rewrite Hc by lia. by destruct (lookup_lt_is_Some_2 xs k Hk) as [x ->].
Qed.

Lemma ring_length_spec s n xs :
  ring s n xs → agt_buffer s = true →
  w_agentd_get_buffer_lenght s = Ret (Z.of_nat (length xs)).
Proof.
  intros [Hp Hl Ht Hh (b & _ & [Hbl Hj Hr _])] Ha. unfold w_agentd_get_buffer_lenght.
  rewrite Ha, Hl, Hh. set (j := Z.to_nat (ab_j s)) in *.
  assert (ab_j s = Z.of_nat j) as -> by lia. unfold int_rem. rewrite decide_False by lia.
  rewrite outcome_bind_ret. f_equal.
  destruct (mod_once (j + length xs) (n + 1)) as [[Hm ->]|[Hm ->]]; [lia|lia| |].
  - rewrite Z.rem_small by lia. rewrite decide_False by lia. lia.
  - replace (Z.of_nat (j + length xs - (n + 1)) - Z.of_nat j)
      with (- (Z.of_nat (n + 1 - length xs))) by lia.
    rewrite Z.rem_opp_l, Z.rem_small by lia. rewrite decide_True by lia. lia.
Qed.

(** A fresh ring filled from the front. *)
Lemma ring_at_front (b : list (option buffered_message)) N xs :
  length b = N → (length xs < N)%nat → (∀ k, (k < N)%nat → b !! k = Some (xs !! k)) →
  ring_at b 0 N xs.
Proof.
  intros Hl Hx Hc. split; [done|lia|done|]. intros k Hk. simpl. rewrite Nat.mod_small by done. auto.
Qed.

Lemma grow_copy_spec b i j n m xs :
  ring_at b j (n + 1) xs → i = ((j + length xs) `mod` (n + 1))%nat → (n < m)%nat →
  ∃ tmp, grow_copy b (Z.of_nat i) (Z.of_nat j) (length xs) n m = Ret tmp ∧
    ring_at tmp 0 (m + 1) xs.
Proof.
  intros Hra Hi Hm. pose proof Hra as [Hl Hj Hr Hc]. unfold grow_copy. rewrite !Nat2Z.id.
  case_decide as Hij.
  - assert (j + length xs < n + 1)%nat as Hw.
    { destruct (mod_once (j + length xs) (n + 1)) as [[? _]|[? E]]; [lia|lia|done|].
      rewrite E in Hi. lia. }
    rewrite c_slice_ok, outcome_bind_ret by lia. rewrite (ring_at_slice _ _ _ _ Hra) by lia.
    rewrite c_store_ok by (rewrite length_fmap, length_replicate; lia). eexists. split; [done|].
    assert (length xs ≤ m + 1)%nat by lia.
    apply ring_at_front; [by rewrite length_splice, length_replicate by (rewrite length_fmap, length_replicate; lia)|lia|].
    intros k Hk. rewrite lookup_splice by (rewrite length_fmap, length_replicate; lia).
    rewrite length_fmap, Nat.sub_0_r. case_decide as Hkx.
    + rewrite list_lookup_fmap. by destruct (lookup_lt_is_Some_2 xs k) as [x ->]; [lia|].
    + rewrite lookup_replicate_2 by done. by rewrite lookup_ge_None_2 by lia.
  - replace (Z.to_nat (Z.of_nat n - Z.of_nat j + 1)) with (n + 1 - j)%nat by lia.
    rewrite (c_slice_ok b j), outcome_bind_ret by lia.
    set (part1 := take (n + 1 - j) (drop j b)).
    assert (length part1 = n + 1 - j)%nat as Hp1 by (subst part1; rewrite length_slice; lia).
    rewrite c_store_ok, outcome_bind_ret by (rewrite length_replicate; lia).
    rewrite (c_slice_ok b 0), outcome_bind_ret by lia. rewrite drop_0.
    set (part2 := take i b).
    assert (length part2 = i) as Hp2 by (subst part2; rewrite length_take; lia).
    rewrite <-Hp1. rewrite c_store_ok by (rewrite length_splice; rewrite length_replicate; lia).
    eexists. split; [done|]. pose proof (splice_app (replicate (m + 1) (@None buffered_message)) 0 part1 part2) as E.
    simpl in E. rewrite E by (rewrite length_replicate; lia). clear E.
    apply ring_at_front; [rewrite length_splice; rewrite ?length_app, length_replicate; lia|lia|].
    intros k Hk. rewrite lookup_splice by (rewrite length_app, length_replicate; lia).
    rewrite length_app, Nat.sub_0_r. case_decide as Hkx.
    + rewrite <-Hc by lia. rewrite lookup_app_decide. subst part1 part2. rewrite Hp1.
      case_decide; rewrite lookup_take.
      * rewrite decide_True by lia. rewrite lookup_drop. by rewrite Nat.mod_small by lia.
      * rewrite decide_True by lia. f_equal. rewrite mod_wrap by lia. lia.
    + rewrite lookup_replicate_2 by done. rewrite lookup_ge_None_2; [done|].
      destruct (mod_once (j + length xs) (n + 1)) as [[? E]|[? E]]; [lia|lia| |]; rewrite E in Hi; lia.
Qed.

(** The cells of a ring from its tail on, once round. *)
Lemma lookup_rotate {A} (b : list A) j k :
  (j < length b)%nat → (k < length b)%nat →
  (drop j b ++ take j b) !! k = b !! ((j + k) `mod` length b)%nat.
Proof.
  intros Hj Hk. rewrite lookup_app_decide, length_drop, lookup_drop, lookup_take.
  destruct (mod_once (j + k) (length b)) as [[H ->]|[H ->]]; [lia|lia| |].
  - by rewrite decide_True by lia.
  - rewrite decide_False by lia. rewrite decide_True by lia. f_equal. lia.
Qed.

Lemma rotate_Permutation {A} (b : list A) j : drop j b ++ take j b ≡ₚ b.
Proof. rewrite Permutation_app_comm. by rewrite take_drop. Qed.

(** The first [k] messages have been moved out of the old ring. *)
Record shrunk (b tmp : list (option buffered_message)) (j N k : nat)
    (xs : list buffered_message) : Prop := {
  sh_length : length b = N;
  sh_old : ∀ i, (i < N)%nat → b !! ((j + i) `mod` N)%nat =
    Some (if decide (i < k)%nat then None else xs !! i);
  sh_new : ∀ i, (i < length tmp)%nat → tmp !! i =
    Some (if decide (i < k)%nat then xs !! i else None);
}.

Lemma shrink_loop_spec c b tmp j n k xs :
  (j < n + 1)%nat → (length xs < n + 1)%nat → (k + c ≤ length xs)%nat → (k + c < length tmp)%nat →
  shrunk b tmp j (n + 1) k xs →
  ∃ b' tmp', shrink_loop b tmp j n k c = Ret (b', tmp') ∧ length tmp' = length tmp ∧
    shrunk b' tmp' j (n + 1) (k + c) xs.
Proof.
  intros Hj Hx. revert b tmp k. induction c as [|c IH]; intros b tmp k Hk Ht [Hl Ho Hn].
  { exists b, tmp. by rewrite Nat.add_0_r. }
  cbn [shrink_loop]. rewrite c_mod_pos, outcome_bind_ret by lia. set (idx := ((j + k) `mod` (n + 1))%nat).
  assert (idx < n + 1)%nat as Hidx by (apply Nat.mod_upper_bound; lia).
  destruct (lookup_lt_is_Some_2 xs k) as [x Hxk]; [lia|].
  assert (b !! idx = Some (Some x)) as Hb.
  { subst idx. rewrite Ho by lia. by rewrite decide_False, Hxk by lia. }
  unfold c_read. rewrite Hb, outcome_bind_ret. rewrite !c_write_lt, !outcome_bind_ret by lia.
  destruct (IH (<[idx:=None]> b) (<[k:=Some x]> tmp) (k + 1)%nat) as (b' & tmp' & -> & Hlt & Hs).
  - lia.
  - rewrite length_insert. lia.
  - split; [by rewrite length_insert| |].
    + intros i Hi. destruct (decide (i = k)) as [->|Hne].
      * rewrite list_lookup_insert_eq by lia. by rewrite decide_True by lia.
      * rewrite list_lookup_insert_ne, Ho by (done || (intros E; apply Hne; symmetry;
          eapply (ring_index_inj j (n + 1)); [lia..|exact E])).
        do 2 case_decide; (done || lia).
    + intros i. rewrite length_insert. intros Hi. destruct (decide (i = k)) as [->|Hne].
      * rewrite list_lookup_insert_eq by lia. by rewrite decide_True, Hxk by lia.
      * rewrite list_lookup_insert_ne, Hn by done. do 2 case_decide; (done || lia).
  - exists b', tmp'. rewrite Hlt, length_insert. replace (k + S c)%nat with (k + 1 + c)%nat by lia.
    done.
Qed.

(** What the shrunk ring leaves behind is freed. *)
Lemma shrunk_rest b tmp j n k xs :
  shrunk b tmp j (n + 1) k xs → (j < n + 1)%nat → (length xs < n + 1)%nat → (k ≤ length xs)%nat →
  omap (M := list) id b ≡ₚ drop k xs.
Proof.
  intros [Hl Ho _] Hj Hx Hk. rewrite <-(rotate_Permutation b j).
  assert (drop j b ++ take j b =
    replicate k None ++ (Some <$> drop k xs) ++ replicate (n + 1 - length xs) None) as ->.
  { apply list_eq. intros i. destruct (decide (i < n + 1)%nat) as [Hi|Hi].
    - rewrite lookup_rotate, Hl, Ho by lia. rewrite !lookup_app_decide, !length_replicate.
      rewrite length_fmap, length_drop. case_decide.
      + by rewrite lookup_replicate_2 by done.
      + case_decide.
        * rewrite list_lookup_fmap, lookup_drop. replace (k + (i - k))%nat with i by lia.
          by destruct (lookup_lt_is_Some_2 xs i) as [x ->]; [lia|].
        * rewrite lookup_replicate_2 by lia. by rewrite lookup_ge_None_2 by lia.
    - rewrite !lookup_ge_None_2; [done|..]; rewrite !length_app, ?length_fmap, ?length_replicate,
        ?length_drop, ?length_take; lia. }
  rewrite !omap_app.
  assert (∀ r, omap (M := list) id (replicate r (@None buffered_message)) = []) as Hz
    by (intros r; induction r; [done|]; simpl; done).
  rewrite !Hz, app_nil_r. simpl. clear. induction (drop k xs) as [|x l IH]; [done|].
  simpl. by rewrite IH.
Qed.

Lemma resize_spec s n m xs :
  ring s n xs → agt_buffer s = true → (0 < m)%nat →
  ∃ gone s', w_agentd_buffer_resize s n m = Ret (0, gone, s') ∧ gone ≡ₚ drop m xs ∧
    ring (with_config s' true (Z.of_nat m)) m (take m xs) ∧ cond_no_empty s' = cond_no_empty s.
Proof.
  intros Hr Ha Hm. pose proof Hr as [Hp Hl Ht Hh (b & Hb & Hra)]. pose proof Hra as [Hbl Hj Hroom _].
  unfold w_agentd_buffer_resize. rewrite decide_False by lia. case_decide as Hmn.
  { subst m. exists [], s. rewrite drop_ge, take_ge by lia. split_and!; try done.
    split; cbn; try done. by exists b. }
  rewrite (ring_length_spec s n xs Hr Ha), outcome_bind_ret. rewrite decide_False by lia.
  rewrite Nat2Z.id. rewrite decide_False by lia. rewrite Hb. cbn [c_deref]. rewrite outcome_bind_ret.
  set (j := Z.to_nat (ab_j s)) in *. assert (ab_j s = Z.of_nat j) as Hjz by lia. case_decide as Hgrow.
  - rewrite Hh, Hjz.
    destruct (grow_copy_spec b _ j n m xs Hra eq_refl Hgrow) as (tmp & -> & Hra').
    rewrite outcome_bind_ret. eexists [], _. split; [done|]. rewrite drop_ge, take_ge by lia.
    split_and!; try done. split; cbn; try done; [|by exists tmp].
    rewrite Nat.mod_small by lia. done.
  - destruct (shrink_loop_spec (Nat.min (length xs) m) b (replicate (m + 1) None) j n 0 xs)
      as (b' & tmp & -> & Hlt & Hs); [lia|lia|lia|rewrite length_replicate; lia| |].
    { split; [done| |].
      - intros i Hi. rewrite decide_False by lia. by apply (ra_cells _ _ _ _ Hra).
      - intros i. rewrite length_replicate. intros Hi. by rewrite lookup_replicate_2. }
    rewrite outcome_bind_ret. unfold free_cells. rewrite c_slice_ok by (rewrite (sh_length _ _ _ _ _ _ Hs); lia).
    rewrite !outcome_bind_ret, drop_0, take_ge by (rewrite (sh_length _ _ _ _ _ _ Hs); lia).
    eexists _, _. split; [done|]. rewrite (shrunk_rest _ _ _ _ _ _ Hs) by lia. split_and!; [| |done].
    { destruct (decide (length xs ≤ m)%nat); [rewrite !drop_ge by lia; done|].
      by replace (0 + Nat.min (length xs) m)%nat with m by lia. }
    assert (length (take m xs) = Nat.min (length xs) m) as Htk by (rewrite length_take; lia).
    rewrite length_replicate in Hlt. split; cbn; try done.
    + rewrite Htk, Nat.mod_small by lia. done.
    + exists tmp. split; [done|]. apply ring_at_front; [done|lia|]. intros k Hk.
      rewrite (sh_new _ _ _ _ _ _ Hs) by lia. f_equal. rewrite lookup_take.
      case_decide; case_decide; try (done || lia). symmetry. apply lookup_ge_None_2. lia.
Qed.

(** A buffer of length zero is full at once. *)
Definition length_zero (s : agent_buffer) : Prop :=
  buflength s = 0 ∧ ab_i s = 0 ∧ ab_j s = 0.

Lemma append_length_zero s lv now msg msg_len :
  length_zero s →
  ∃ s', buffer_append s lv now msg msg_len = Ret (-1, s') ∧ length_zero s'.
Proof.
  intros (Hl & Hi & Hj). unfold buffer_append.
  destruct (append_level_total s lv now) as (t & -> & (_ & Hti & Htj & _ & _ & Htl)); [lia|].
  rewrite outcome_bind_ret. unfold full, int_rem. rewrite Hti, Htj, Htl, Hl, Hi, Hj.
  exists t. split; [done|]. split_and!; congruence.
Qed.

(** The results of a sequence of appends. *)
Fixpoint append_all (s : agent_buffer) (lv : levels) (msgs : list (Z * list byte * Z))
    : outcome (list Z) :=
  match msgs with
  | [] => Ret []
  | (now, msg, msg_len) :: msgs =>
      '(r, s') ← buffer_append s lv now msg msg_len;
      rs ← append_all s' lv msgs; Ret (r :: rs)
  end.

Lemma append_all_length_zero s lv msgs :
  length_zero s → append_all s lv msgs = Ret ((λ _, -1) <$> msgs).
Proof.
  revert s. induction msgs as [|[[now msg] msg_len] msgs IH]; intros s Hz; [done|]. cbn [append_all].
  destruct (append_length_zero s lv now msg msg_len Hz) as (s' & -> & Hz'). rewrite outcome_bind_ret.
  by rewrite (IH s' Hz').
Qed.

(** C30: the event buffer is a FIFO queue of the configured length.  In every
    interleaving of producers and dispatchers, the messages accepted are those sent,
    in order, followed by those in the ring; an append is refused exactly when the
    ring holds as many messages as configured; neither operation faults, whatever the
    usage level; and a dispatcher that sleeps beside a non-empty ring is owed a
    signal already sent. *)
Theorem agent_buffer_fifo n lv tr s :
  (0 < n)%nat → atrace lv (agent_start n) tr s →
  ∃ xs, accepted tr = sent tr ++ xs ∧ (length xs ≤ n)%nat ∧
    (0 < asleep (cond_no_empty s) → xs ≠ [] → 0 < signalled (cond_no_empty s))%nat ∧
    (∀ now msg msg_len m, make_message msg msg_len = Ret m →
       ∃ s', buffer_append s lv now msg msg_len = Ret (if decide (length xs = n) then -1 else 0, s')) ∧
    (∃ s', dispatch_buffer s lv =
       Ret (match xs with [] => Sleeps | m :: _ => Sends (Some m) end, s')).
Proof.
  intros Hn Htr. destruct (atrace_inv n lv tr s Hn Htr) as (xs & (Hr & Ha & Hc) & Htr').
  exists xs. split_and!; [done| | | |].
  - destruct Hr as [_ _ _ _ (b & _ & [_ _ ? _])]. lia.
  - intros Hs Hx. destruct xs; [done|]. simpl in *. lia.
  - intros now msg msg_len m Hm.
    destruct (append_refines s n xs lv now msg msg_len m Hr Hm) as (s' & ? & _). eauto.
  - destruct (dispatch_refines s n xs lv Hr Ha) as (s' & ? & _). eauto.
Qed.

(** Resizing keeps the oldest messages.  [w_agentd_buffer_resize] from the
    configured capacity to any positive one keeps, in order, as many of the oldest
    messages as fit, frees the others once each, and leaves a ring of the new
    capacity that works from then on, wherever the messages wrapped before. *)
Theorem agent_buffer_resize_keeps_oldest n m lv tr s :
  (0 < n)%nat → (0 < m)%nat → atrace lv (agent_start n) tr s →
  ∃ xs gone s', accepted tr = sent tr ++ xs ∧
    w_agentd_buffer_resize s n m = Ret (0, gone, s') ∧ gone ≡ₚ drop m xs ∧
    ring (with_config s' true (Z.of_nat m)) m (take m xs).
Proof.
  intros Hn Hm Htr. destruct (atrace_inv n lv tr s Hn Htr) as (xs & (Hr & Ha & _) & Htr').
  destruct (resize_spec s n m xs Hr Ha Hm) as (gone & s' & ? & ? & ? & _). eauto 10.
Qed.

(** *** Witnesses and the reload *)

Definition demo_levels : levels := mk_levels 90 70 15.
Definition demo_message (b : byte) : buffered_message := mk_message [b] 1.

(** The state after a list of appends (of one byte) and dispatches. *)
Definition demo_do (s : agent_buffer) (op : option byte) : agent_buffer :=
  match op with
  | Some b => match buffer_append s demo_levels 0 [b] 1 with Ret (_, s') => s' | Stuck _ => s end
  | None => match dispatch_buffer s demo_levels with Ret (_, s') => s' | Stuck _ => s end
  end.

Definition demo_label (s : agent_buffer) (op : option byte) : alabel :=
  match op with
  | Some b => AAppend (demo_message b)
      (match buffer_append s demo_levels 0 [b] 1 with Ret (r, _) => r | Stuck _ => 0 end)
  | None => match dispatch_buffer s demo_levels with Ret (d, _) => dispatch_label d | Stuck _ => ATau end
  end.

(** The ring of two holds [b] and [c], wrapped. *)
Definition demo_wrapped : agent_buffer :=
  foldl demo_do (agent_start 2) [Some Byte.x61; Some Byte.x62; None; Some Byte.x63].

Lemma demo_wrapped_trace :
  atrace demo_levels (agent_start 2)
    [AAppend (demo_message Byte.x61) 0; AAppend (demo_message Byte.x62) 0;
     ASend (Some (demo_message Byte.x61)); AAppend (demo_message Byte.x63) 0] demo_wrapped.
Proof.
  apply (atrace_snoc _ _ [AAppend _ 0; AAppend _ 0; ASend _]
    (foldl demo_do (agent_start 2) [Some Byte.x61; Some Byte.x62; None])).
  2:{ eapply (astep_append _ _ 0 [Byte.x63] 1); vm_compute; reflexivity. }
  apply (atrace_snoc _ _ [AAppend _ 0; AAppend _ 0]
    (foldl demo_do (agent_start 2) [Some Byte.x61; Some Byte.x62])).
  2:{ apply (astep_dispatch _ _ (Sends (Some (demo_message Byte.x61)))). vm_compute. reflexivity. }
  apply (atrace_snoc _ _ [AAppend _ 0] (foldl demo_do (agent_start 2) [Some Byte.x61])).
  2:{ eapply (astep_append _ _ 0 [Byte.x62] 1); vm_compute; reflexivity. }
  apply (atrace_snoc _ _ [] (agent_start 2)); [apply atrace_nil|].
  eapply (astep_append _ _ 0 [Byte.x61] 1); vm_compute; reflexivity.
Qed.

Lemma agent_buffer_fifo_witness :
  ∃ xs, [demo_message Byte.x61; demo_message Byte.x62; demo_message Byte.x63] =
      [demo_message Byte.x61] ++ xs ∧ (length xs ≤ 2)%nat.
Proof.
  destruct (agent_buffer_fifo 2 demo_levels _ _ ltac:(lia) demo_wrapped_trace) as (xs & Htr & Hl & _).
  exists xs. split; [exact Htr|exact Hl].
Defined.

Lemma agent_buffer_resize_keeps_oldest_witness :
  ∃ gone s', w_agentd_buffer_resize demo_wrapped 2 1 = Ret (0, gone, s') ∧
    gone ≡ₚ [demo_message Byte.x63] ∧
    ring (with_config s' true 1) 1 [demo_message Byte.x62].
Proof.
  destruct (agent_buffer_resize_keeps_oldest 2 1 demo_levels _ _ ltac:(lia) ltac:(lia) demo_wrapped_trace)
    as (xs & gone & s' & Htr & Hr & Hg & Hring).
  assert (xs = [demo_message Byte.x62; demo_message Byte.x63]) as ->.
  { change ([demo_message Byte.x61; demo_message Byte.x62; demo_message Byte.x63] =
      [demo_message Byte.x61] ++ xs) in Htr. by injection Htr. }
  exists gone, s'. split; [exact Hr|]. split; [exact Hg|exact Hring].
Defined.

(** Five messages, one of them sent. *)
Definition demo_four : agent_buffer := Eval vm_compute in
  foldl demo_do (agent_start 5)
    [Some Byte.x61; Some Byte.x62; Some Byte.x63; Some Byte.x64; Some Byte.x65; None].

(** The reload stores the new length before it resizes, and the resize counts
    the messages with it.  In the first run a wrapped ring of two cells for data is to
    grow to nine: the count comes out wrong, the resize gives up, and the third
    dispatch reads outside the old ring.  In the second run a ring with four messages
    is to shrink to three: the count comes out as zero and all four are freed. *)
Theorem agent_reload_miscounts :
  (∃ tr s s1 s2 s3, atrace demo_levels (agent_start 2) tr s ∧
     reload s None (Some 9) = Ret (false, [], s1) ∧
     dispatch_buffer s1 demo_levels = Ret (Sends (Some (demo_message Byte.x62)), s2) ∧
     dispatch_buffer s2 demo_levels = Ret (Sends (Some (demo_message Byte.x63)), s3) ∧
     dispatch_buffer s3 demo_levels = Stuck OutOfBounds) ∧
  (∃ s gone s1, ring s 5 [demo_message Byte.x62; demo_message Byte.x63; demo_message Byte.x64;
                          demo_message Byte.x65] ∧
     reload s None (Some 3) = Ret (false, gone, s1) ∧ length gone = 4%nat ∧
     empty (ab_i s1) (ab_j s1) = true).
Proof.
  split.
  - eexists _, demo_wrapped, _, _, _. split; [exact demo_wrapped_trace|].
    do 3 (split; [vm_compute; reflexivity|]). vm_compute. reflexivity.
  - exists demo_four. eexists _, _.
    split; [|do 2 (split; [vm_compute; reflexivity|]); vm_compute; reflexivity].
    split; [lia|done|done|done|]. eexists. split; [reflexivity|].
    split; [done|simpl; lia|simpl; lia|]. intros k Hk.
    do 6 (destruct k as [|k]; [reflexivity|]). lia.
Qed.

(** freeing the buffer forgets its length.  When a reload disables the buffer
    and a later one enables it again without giving a length, the new ring has no
    room: whatever was configured before, every event is dropped from then on. *)
Theorem agent_reenabled_buffer_drops_all n lv tr s lv' msgs :
  (0 < n)%nat → atrace lv (agent_start n) tr s →
  ∃ xs gone s1 s2, accepted tr = sent tr ++ xs ∧
    reload s (Some false) None = Ret (false, gone, s1) ∧ gone ≡ₚ xs ∧
    reload s1 (Some true) None = Ret (true, [], s2) ∧
    append_all s2 lv' msgs = Ret ((λ _, -1) <$> msgs).
Proof.
  intros Hn Htr. destruct (atrace_inv n lv tr s Hn Htr) as (xs & (Hr & Ha & _) & Htr').
  destruct Hr as [Hp Hl Ht Hh (b & Hb & Hra)]. pose proof Hra as [Hbl Hj Hroom Hc].
  unfold reload at 1. rewrite Ha. cbn [default with_config agt_buffer negb andb].
  unfold w_agentd_buffer_free. cbn [with_config buffer]. rewrite Hb, Hl, Nat2Z.id.
  rewrite decide_False by lia. unfold free_cells. rewrite c_slice_ok by lia.
  rewrite !outcome_bind_ret, drop_0, take_ge by lia.
  eexists xs, _, _, _. split_and!; [done|reflexivity| |reflexivity|].
  - assert (shrunk b [] (Z.to_nat (ab_j s)) (n + 1) 0 xs) as Hs.
    { split; [done| |intros i Hi; simpl in Hi; lia]. intros i Hi. rewrite decide_False by lia.
      by apply Hc. }
    by rewrite (shrunk_rest _ _ _ _ _ _ Hs) by lia.
  - by apply append_all_length_zero.
Qed.

Lemma agent_reenabled_buffer_drops_all_witness :
  ∃ xs gone s1 s2, accepted [AAppend (demo_message Byte.x61) 0; AAppend (demo_message Byte.x62) 0;
     ASend (Some (demo_message Byte.x61)); AAppend (demo_message Byte.x63) 0] =
      [demo_message Byte.x61] ++ xs ∧
    reload demo_wrapped (Some false) None = Ret (false, gone, s1) ∧ gone ≡ₚ xs ∧
    reload s1 (Some true) None = Ret (true, [], s2) ∧
    append_all s2 demo_levels [(0, [Byte.x64], 1)] = Ret [-1].
Proof.
  exact (agent_reenabled_buffer_drops_all 2 demo_levels _ demo_wrapped demo_levels
    [(0, [Byte.x64], 1)] ltac:(lia) demo_wrapped_trace).
Defined.
