(* ===== verification/IpAddr.v ===== *)
(** * IP addresses and networks (shared/src/validate_op.c, shared/include/os_ip.h)

    [OS_IsValidIP] recognises an address or network with a list of PCRE2 patterns
    and stores it as an address and a netmask; [OS_IPFound] tells whether an
    address belongs to it, [OS_CIDRtoStr] prints it.

    An address is the list of its bytes in network order, which is how
    [struct in_addr] and [struct in6_addr] lie in memory: [&] works byte by byte
    and [htonl] writes the most significant byte first, on every host.  The union
    of [os_ip] is a pointer to a block of bytes, eight of them for IPv4 and
    thirty-two for IPv6, and reading one member through the other's layout reads
    the bytes of the block that are there.

    PCRE2 and [inet_pton] are parameters: [pcre p s] is the list of captures when
    pattern [p] matches [s], [inet_pton4] and [inet_pton6] give the bytes of a
    numeric address. *)

From Stdlib Require Import Lia ZArith Ascii String.
From stdpp Require Import base numbers list strings pretty.
From S2P Require Import Prelude CString.

#[local] Open Scope list_scope.
#[local] Open Scope Z_scope.

(** ** Constants and data *)

Definition IPSIZE : nat := 46.
Definition DEFAULT_IPV6_PREFIX : Z := 128.
Definition DEFAULT_IPV4_NETMASK : nat := 32.

Definition IPV4_ADDRESS : string :=
  "(?:(?:25[0-5]|2[0-4][0-9]|1[0-9][0-9]|[1-9]?[0-9])\.){3}(?:25[0-5]|2[0-4][0-9]|1[0-9][0-9]|[1-9]?[0-9])".
Definition IPV6_PREFIX : string := "12[0-8]|1[0-1][0-9]|[0-9]?[0-9]".

Definition IPV4_MASK_IPV6 : string :=
  "^::[fF]{4}:(" +:+ IPV4_ADDRESS +:+ "(?:/(?:(?:3[0-2]|[1-2]?[0-9])|" +:+ IPV4_ADDRESS +:+ "))?)$".

Definition v6_pattern (core : string) : string :=
  "^(" +:+ core +:+ ")(?:/(" +:+ IPV6_PREFIX +:+ "))?$".

Definition ip_address_regex : list string :=
  [ "^(?:::[fF]{4}:)?(" +:+ IPV4_ADDRESS +:+ ")(?:/((?:3[0-2]|[1-2]?[0-9])|" +:+ IPV4_ADDRESS +:+ "))?$";
    v6_pattern "(?:[0-9a-fA-F]{1,4}:){7}[0-9a-fA-F]{1,4}";
    v6_pattern "(?:[0-9a-fA-F]{1,4}:){1,6}(?::[0-9a-fA-F]{1,4}){1}";
    v6_pattern "(?:[0-9a-fA-F]{1,4}:){1,5}(?::[0-9a-fA-F]{1,4}){1,2}";
    v6_pattern "(?:[0-9a-fA-F]{1,4}:){1,4}(?::[0-9a-fA-F]{1,4}){1,3}";
    v6_pattern "(?:[0-9a-fA-F]{1,4}:){1,3}(?::[0-9a-fA-F]{1,4}){1,4}";
    v6_pattern "(?:[0-9a-fA-F]{1,4}:){1,2}(?::[0-9a-fA-F]{1,4}){1,5}";
    v6_pattern "(?:[0-9a-fA-F]{1,4}:){1}(?::[0-9a-fA-F]{1,4}){1,6}";
    v6_pattern "(?:[0-9a-fA-F]{1,4}:){1,7}:";
    v6_pattern ":(?::[0-9a-fA-F]{1,4}){1,7}";
    "^(::)$" ]%string.

(** [obj] is the block the union points to: [os_ipv4] is the four bytes of the
    address and the four of the mask, [os_ipv6] sixteen and sixteen. *)
Record os_ip : Type := mk_os_ip {
  ip : string;
  obj : option (list Z);
  is_ipv6 : bool
}.

(** The static variables [_mask_inited] and [_netmasks]. *)
Record mask_table : Type := mk_mask_table {
  mask_inited : bool;
  netmasks : list Z
}.

Definition mask_table_start : mask_table :=
  {| mask_inited := false; netmasks := replicate 33 0 |}.

Definition init_masks (g : mask_table) : mask_table :=
  {| mask_inited := true;
     netmasks :=
       [0x0; 0x80000000; 0xC0000000; 0xE0000000; 0xF0000000; 0xF8000000; 0xFC000000;
        0xFE000000; 0xFF000000; 0xFF800000; 0xFFC00000; 0xFFE00000; 0xFFF00000;
        0xFFF80000; 0xFFFC0000; 0xFFFE0000; 0xFFFF0000; 0xFFFF8000; 0xFFFFC000;
        0xFFFFE000; 0xFFFFF000; 0xFFFFF800; 0xFFFFFC00; 0xFFFFFE00; 0xFFFFFF00;
        0xFFFFFF80; 0xFFFFFFC0; 0xFFFFFFE0; 0xFFFFFFF0; 0xFFFFFFF8; 0xFFFFFFFC;
        0xFFFFFFFE; 0xFFFFFFFF] |}.

(** [if (!_mask_inited) _init_masks()]. *)
Definition ensure_masks (g : mask_table) : mask_table :=
  if mask_inited g then g else init_masks g.

Definition htonl (z : Z) : list Z :=
  [Z.land (Z.shiftr z 24) 255; Z.land (Z.shiftr z 16) 255; Z.land (Z.shiftr z 8) 255; Z.land z 255].

Definition ntohl (b : list Z) : Z := foldl (λ acc x, acc * 256 + x) 0 b.

Definition bytes_and : list Z → list Z → list Z := zip_with Z.land.

(** ** Netmasks *)

(** Byte of the mask with [index] leading ones, added up bit by bit in a
    [uint8_t]. *)
Definition mask_bits (index : nat) : Z :=
  foldl (λ acc a, (acc + Z.shiftl 1 (Z.of_nat (8 - a - 1))) mod 256) 0 (seq 0 index).

Fixpoint convert_loop (i : nat) (netnumb : Z) : list Z :=
  match i with
  | O => []
  | S i =>
      let index := if netnumb >? 8 then 8 else netnumb in
      mask_bits (Z.to_nat index) :: convert_loop i (netnumb - index)
  end.

(** [None] is the result -1. *)
Definition convertNetmask (netnumb : Z) : option (list Z) :=
  if (netnumb <? 0) || (netnumb >? 128) then None else Some (convert_loop 16 netnumb).

Fixpoint count_bits (a : nat) (aux : Z) (imask : Z) : Z :=
  match a with
  | O => imask
  | S a =>
      if aux >? 0 then
        count_bits a (Z.shiftr aux 1) (if Z.land 1 aux =? 0 then imask else imask + 1)
      else imask
  end.

Definition getCIDRipv6 (netmask : list Z) : outcome Z :=
  foldl (λ m i, imask ← m; aux ← c_read netmask i; Ret (count_bits 8 aux imask))
    (Ret 0) (seq 0 16).

(** ** Text of an address *)

Definition hex_digit (d : Z) : ascii :=
  ascii_of_nat (Z.to_nat (if d <? 10 then 48 + d else 55 + d)).

(** [%02X] of a byte. *)
Definition hex2 (b : Z) : string :=
  String (hex_digit (b / 16)) (String (hex_digit (b mod 16)) EmptyString).

Fixpoint hex_groups (bs : list Z) : string :=
  match bs with
  | a :: b :: ((_ :: _) as bs') => hex2 a +:+ hex2 b +:+ String ":" (hex_groups bs')
  | a :: b :: [] => hex2 a +:+ hex2 b
  | _ => EmptyString
  end%string.

Fixpoint until_slash (s : string) : string * option string :=
  match s with
  | String "/" s' => (EmptyString, Some s')
  | String c s' => let '(t, r) := until_slash s' in (String c t, r)
  | EmptyString => (EmptyString, None)
  end.

Fixpoint skip_slashes (s : string) : string :=
  match s with String "/" s' => skip_slashes s' | _ => s end.

(** [strtok_r (s, "/", &save)]: the token, if there is one, and what is left. *)
Definition strtok_slash (s : string) : option string * string :=
  match skip_slashes s with
  | EmptyString => (None, EmptyString)
  | s' => let '(t, r) := until_slash s' in (Some t, default EmptyString r)
  end.

Section ip.
Context (pcre : string → string → option (list string)).
Context (inet_pton4 inet_pton6 : string → option (list Z)).

(** The text of the embedded IPv4 address replaces the one of the IPv6. *)
Definition OS_GetIPv4FromIPv6 (ip_address : string) (size : nat) : string :=
  match pcre IPV4_MASK_IPV6 ip_address with
  | Some (s :: _) => str_trunc size s
  | _ => ip_address
  end.

(** [None] is the result [OS_INVALID], after which the text is unchanged. *)
Definition OS_ExpandIPv6 (ip_address : string) (size : nat) : outcome (option string) :=
  let '(tok, save) := strtok_slash (str_trunc IPSIZE ip_address) in
  tok ← c_deref tok;
  match inet_pton6 tok with
  | None => Ret None
  | Some aux =>
      let cidr := match fst (strtok_slash save) with Some c => atoi c | None => 0 end in
      if (cidr <? 0) || (cidr >? DEFAULT_IPV6_PREFIX) then Ret None
      else if cidr =? 0 then Ret (Some (fst (snprintf size (hex_groups aux))))
      else Ret (Some (fst (snprintf size (hex_groups aux +:+ "/" +:+ pretty cidr)%string)))
  end.

Fixpoint first_match (regexes : list string) (i : nat) (s : string) : option (nat * list string) :=
  match regexes with
  | [] => None
  | r :: regexes =>
      match pcre r s with
      | Some caps => Some (i, caps)
      | None => first_match regexes (S i) s
      end
  end.

(** The captures of an IPv6 pattern are stored in [fin], whose block is the
    calloc'ed [os_ipv6]; [None] is [ret = 0]. *)
Definition store_ipv6 (fin : os_ip) (caps : list string) : outcome (option os_ip) :=
  match caps with
  | [] => Ret None
  | addr :: rest =>
      match inet_pton6 addr with
      | None => Ret None
      | Some net6 =>
          let nmask6 :=
            match rest with
            | [c] => if (3 <? String.length c)%nat then None else convertNetmask (atoi c)
            | _ => convertNetmask DEFAULT_IPV6_PREFIX
            end in
          match nmask6 with
          | None => Ret None
          | Some m =>
              t ← OS_ExpandIPv6 (ip fin) IPSIZE;
              Ret (Some {| ip := default (ip fin) t; obj := Some (bytes_and net6 m ++ m);
                           is_ipv6 := true |})
          end
      end
  end.

Definition store_ipv4 (g : mask_table) (fin : os_ip) (caps : list string) :
    outcome (mask_table * option os_ip) :=
  match caps with
  | [] => Ret (g, None)
  | addr :: rest =>
      let net :=
        match inet_pton4 addr with
        | Some n => Some n
        | None => if bool_decide (addr = "0.0.0.0"%string) then Some [0; 0; 0; 0] else None
        end in
      match net with
      | None => Ret (g, None)
      | Some net =>
          '(g', nmask) ← match rest with
            | [c] =>
                if (String.length c <=? 2)%nat then
                  let g' := ensure_masks g in
                  m ← c_read (netmasks g') (Z.to_nat (atoi c));
                  Ret (g', Some (htonl m))
                else Ret (g, inet_pton4 c)
            | _ =>
                let g' := ensure_masks g in
                m ← c_read (netmasks g') DEFAULT_IPV4_NETMASK;
                Ret (g', Some (htonl m))
            end;
          match nmask with
          | None => Ret (g', None)
          | Some m =>
              Ret (g', Some {| ip := ip fin; obj := Some (bytes_and net m ++ m);
                               is_ipv6 := false |})
          end
      end
  end.

(** The result is 0, 1 or 2, and [final_ip] (which a caller may leave out). *)
Definition OS_IsValidIP (g : mask_table) (ip_address : option string) (want : bool) :
    outcome (mask_table * Z * option os_ip) :=
  match ip_address with
  | None => Ret (g, 0, None)
  | Some a =>
      let a := strip_bang a in
      let fin := {| ip := OS_GetIPv4FromIPv6 (str_trunc IPSIZE a) IPSIZE; obj := None;
                    is_ipv6 := false |} in
      if bool_decide (a = "any"%string) then
        Ret (g, 2, if want then Some {| ip := ip fin; obj := Some (replicate 32 0);
                                        is_ipv6 := false |} else None)
      else
        match first_match ip_address_regex 0 a with
        | None => Ret (g, 0, if want then Some fin else None)
        | Some (i, caps) =>
            let ret := if (Datatypes.length caps =? 2)%nat then 2 else 1 in
            if negb want then Ret (g, ret, None)
            else if (0 <? i)%nat then
              let fin6 := {| ip := ip fin; obj := Some (replicate 32 0); is_ipv6 := true |} in
              r ← store_ipv6 fin6 caps;
              Ret (g, match r with Some _ => ret | None => 0 end, Some (default fin6 r))
            else
              let fin4 := {| ip := ip fin; obj := Some (replicate 8 0); is_ipv6 := false |} in
              '(g', r) ← store_ipv4 g fin4 caps;
              Ret (g', match r with Some _ => ret | None => 0 end, Some (default fin4 r))
        end
  end.

(** ** Matching an address against a network *)

Fixpoint found_loop (net6 block : list Z) (i fuel : nat) : outcome bool :=
  match fuel with
  | O => Ret true
  | S fuel =>
      b ← c_read net6 i; m ← c_read block (16 + i); a ← c_read block i;
      if Z.land b m =? a then found_loop net6 block (S i) fuel else Ret false
  end.

Definition ipv4_found (net block : list Z) : outcome bool :=
  m ← c_slice block 4 4; a ← c_slice block 0 4;
  Ret (bool_decide (bytes_and net m = a)).

(** Is the address in the network of the entry, when its text is numeric? *)
Definition in_network (ip_address : string) (that_ip : os_ip) : outcome (option bool) :=
  match inet_pton4 ip_address with
  | Some net =>
      block ← c_deref (obj that_ip);
      m ← ipv4_found net block; Ret (Some m)
  | None =>
      match inet_pton6 ip_address with
      | Some net6 =>
          block ← c_deref (obj that_ip);
          m ← found_loop net6 block 0 16; Ret (Some m)
      | None => Ret None
      end
  end.

Definition OS_IPFound (ip_address : string) (that_ip : os_ip) : outcome bool :=
  r ← in_network ip_address that_ip;
  Ret match r with
      | None => false
      | Some m => if starts_with "!" (ip that_ip) then negb m else m
      end.

(** [_true] is not set back for the entries after a negated one. *)
Fixpoint found_list (ip_address : string) (l : list os_ip) (_true : bool) : outcome bool :=
  match l with
  | [] => Ret (negb _true)
  | l_ip :: l =>
      let _true := if starts_with "!" (ip l_ip) then false else _true in
      r ← in_network ip_address l_ip;
      if default false r then Ret _true else found_list ip_address l _true
  end.

Definition OS_IPFoundList (ip_address : string) (list_of_ips : list os_ip) : outcome bool :=
  match inet_pton4 ip_address, inet_pton6 ip_address with
  | None, None => Ret false
  | _, _ => found_list ip_address list_of_ips true
  end.
End ip.

(** ** Printing *)

Fixpoint mask_index (netmasks : list Z) (hmask : Z) (imask fuel : nat) : outcome nat :=
  match fuel with
  | O => Ret imask
  | S fuel =>
      m ← c_read netmasks imask;
      if m =? hmask then Ret imask else mask_index netmasks hmask (S imask) fuel
  end.

(** The text, and whether the result is 0 (otherwise -1; the text is [None] when
    nothing was written).  The test of [_mask_inited] is the source's: the table
    is filled again when it has been filled already, and left as it is
    otherwise. *)
Definition OS_CIDRtoStr (g : mask_table) (a : os_ip) (size : nat) :
    outcome (mask_table * option string * bool) :=
  if has_char ":" (ip a) then
    block ← c_deref (obj a);
    netmask ← c_slice block 16 16;
    imask ← getCIDRipv6 netmask;
    if imask <? 128 then
      let '(s, ok) := snprintf size (ip a +:+ "/" +:+ pretty imask)%string in
      Ret (g, Some s, ok)
    else Ret (g, Some (str_trunc (size - 1) (ip a)), true)
  else
    block ← c_deref (obj a);
    netmask ← c_slice block 4 4;
    if bool_decide (netmask ≠ [255; 255; 255; 255]) && bool_decide (ip a ≠ "any"%string) then
      let g := if mask_inited g then init_masks g else g in
      imask ← mask_index (netmasks g) (ntohl netmask) 0 32;
      if (imask <? 32)%nat then
        let '(s, ok) := snprintf size (ip a +:+ "/" +:+ pretty imask)%string in
        Ret (g, Some s, ok)
      else Ret (g, None, false)
    else Ret (g, Some (str_trunc (size - 1) (ip a)), true).

(** ** Prefixes of addresses *)

(** Bit [k] of an address, from the most significant one. *)
Definition addr_bit (b : list Z) (k : nat) : bool :=
  Z.testbit (default 0 (b !! (k / 8)%nat)) (7 - Z.of_nat (k mod 8)).

(** The two addresses agree in their first [n] bits. *)
Definition same_prefix (n : nat) (a b : list Z) : Prop :=
  Forall (λ k, addr_bit a k = addr_bit b k) (seq 0 n).

#[export] Instance same_prefix_dec n a b : Decision (same_prefix n a b).
Proof. unfold same_prefix. apply _. Defined.

Definition is_byte (x : Z) : Prop := 0 ≤ x < 256.

(** An address of [len] bytes. *)
Definition is_addr (len : nat) (b : list Z) : Prop := length b = len ∧ Forall is_byte b.

Definition mask_byte (m : nat) : Z := 256 - 2 ^ (8 - Z.of_nat m).

(** The netmask of [len] bytes with [n] leading ones. *)
Definition prefix_mask (len n : nat) : list Z :=
  (λ j, mask_byte (8 `min` (n - 8 * j))%nat) <$> seq 0 len.

Lemma length_prefix_mask len n : length (prefix_mask len n) = len.
Proof. unfold prefix_mask. by rewrite length_fmap, length_seq. Qed.

Lemma lookup_prefix_mask len n j :
  (j < len)%nat → prefix_mask len n !! j = Some (mask_byte (8 `min` (n - 8 * j))).
Proof.
  intros. unfold prefix_mask. rewrite list_lookup_fmap, lookup_seq_lt by done. done.
Qed.

Lemma byte_high_bits x i : is_byte x → 8 ≤ i → Z.testbit x i = false.
Proof.
  intros [??] ?. destruct (decide (x = 0)) as [->|]; [apply Z.bits_0|].
  apply Z.bits_above_log2; [done|]. apply Z.log2_lt_pow2; [lia|].
  apply Z.lt_le_trans with (2 ^ 8); [done|]. apply Z.pow_le_mono_r; lia.
Qed.

Lemma mask_byte_bits m r :
  (m ≤ 8)%nat → (r < 8)%nat → Z.testbit (mask_byte m) (7 - Z.of_nat r) = bool_decide (r < m)%nat.
Proof.
  intros Hm Hr.
  do 9 (destruct m as [|m]; [do 8 (destruct r as [|r]; [done|]); lia|]). lia.
Qed.

Lemma mask_byte_is_byte m : (m ≤ 8)%nat → is_byte (mask_byte m).
Proof.
  intros Hm. unfold is_byte.
  do 9 (destruct m as [|m]; [vm_compute; split; (discriminate || reflexivity)|]). lia.
Qed.

(** Masking two bytes gives the same iff their leading bits are the same. *)
Lemma masked_byte_eq x y m :
  is_byte x → is_byte y → (m ≤ 8)%nat →
  Z.land x (mask_byte m) = Z.land y (mask_byte m) ↔
  ∀ r, (r < m)%nat → Z.testbit x (7 - Z.of_nat r) = Z.testbit y (7 - Z.of_nat r).
Proof.
  intros Hx Hy Hm. split.
  - intros E r Hr. apply (f_equal (λ z, Z.testbit z (7 - Z.of_nat r))) in E.
    rewrite !Z.land_spec, mask_byte_bits, bool_decide_eq_true_2, !andb_true_r in E by lia. done.
  - intros Hb. apply Z.bits_inj'. intros i Hi. rewrite !Z.land_spec.
    destruct (decide (8 ≤ i)); [by rewrite (byte_high_bits x), (byte_high_bits y)|].
    replace i with (7 - Z.of_nat (Z.to_nat (7 - i))) by lia.
    rewrite mask_byte_bits by lia. case_bool_decide; [|by rewrite !andb_false_r].
    by rewrite Hb.
Qed.

Lemma same_prefix_bytes n len a b :
  (n ≤ 8 * len)%nat →
  same_prefix n a b ↔
  ∀ j r, (j < len)%nat → (r < 8 `min` (n - 8 * j))%nat → addr_bit a (8 * j + r) = addr_bit b (8 * j + r).
Proof.
  intros Hn. unfold same_prefix. rewrite Forall_forall. split.
  - intros H j r Hj Hr. apply H, elem_of_seq. lia.
  - intros H k [_ Hk]%elem_of_seq.
    rewrite (Nat.div_mod_eq k 8). apply H.
    + apply Nat.Div0.div_lt_upper_bound. lia.
    + pose proof (Nat.div_mod_eq k 8). pose proof (Nat.mod_upper_bound k 8). lia.
Qed.

Lemma addr_bit_byte a j r x :
  a !! j = Some x → (r < 8)%nat → addr_bit a (8 * j + r) = Z.testbit x (7 - Z.of_nat r).
Proof.
  intros Ha Hr. unfold addr_bit.
  replace ((8 * j + r) / 8)%nat with j by (apply Nat.div_unique with r; lia).
  replace ((8 * j + r) mod 8)%nat with r by (apply Nat.mod_unique with j; lia).
  by rewrite Ha.
Qed.

(** Masking two addresses gives the same iff they agree in the prefix. *)
Lemma masked_eq_prefix len n a b :
  is_addr len a → is_addr len b → (n ≤ 8 * len)%nat →
  bytes_and a (prefix_mask len n) = bytes_and b (prefix_mask len n) ↔ same_prefix n a b.
Proof.
  intros [La Fa] [Lb Fb] Hn. rewrite (same_prefix_bytes n len) by done.
  assert (∀ j, (j < len)%nat → ∃ x y, a !! j = Some x ∧ b !! j = Some y ∧ is_byte x ∧ is_byte y ∧
    (Z.land x (mask_byte (8 `min` (n - 8 * j))) = Z.land y (mask_byte (8 `min` (n - 8 * j))) ↔
     ∀ r, (r < 8 `min` (n - 8 * j))%nat → addr_bit a (8 * j + r) = addr_bit b (8 * j + r))) as Hj.
  { intros j Hj. destruct (lookup_lt_is_Some_2 a j) as [x Hx]; [lia|].
    destruct (lookup_lt_is_Some_2 b j) as [y Hy]; [lia|].
    pose proof (Forall_lookup_1 _ _ _ _ Fa Hx). pose proof (Forall_lookup_1 _ _ _ _ Fb Hy).
    exists x, y. split_and!; try done. rewrite masked_byte_eq by (done || lia).
    split; intros H1 r Hr; specialize (H1 r Hr).
    - by rewrite (addr_bit_byte a j r x), (addr_bit_byte b j r y) by (done || lia).
    - by rewrite (addr_bit_byte a j r x), (addr_bit_byte b j r y) in H1 by (done || lia). }
  unfold bytes_and. split.
  - intros E j r Hlt Hr. destruct (Hj j Hlt) as (x & y & Hx & Hy & _ & _ & Hiff).
    apply Hiff; [|done]. apply (f_equal (lookup j)) in E.
    rewrite !lookup_zip_with, Hx, Hy, lookup_prefix_mask in E by done. by injection E.
  - intros H. apply list_eq. intros j. rewrite !lookup_zip_with.
    destruct (decide (j < len)%nat) as [Hlt|].
    + destruct (Hj j Hlt) as (x & y & -> & -> & _ & _ & Hiff).
      rewrite lookup_prefix_mask by done. simpl. f_equal. apply Hiff. auto.
    + rewrite !(lookup_ge_None_2 a), !(lookup_ge_None_2 b) by lia. done.
Qed.

Lemma length_bytes_and len a b : is_addr len a → length b = len → length (bytes_and a b) = len.
Proof. intros [La _] Lb. unfold bytes_and. rewrite length_zip_with. lia. Qed.

(** ** The netmasks of the code are the prefix masks *)

Lemma convertNetmask_prefix n :
  (n < 129)%nat → convertNetmask (Z.of_nat n) = Some (prefix_mask 16 n).
Proof.
  revert n. apply (forall_below _ 129). vm_compute. reflexivity.
Qed.

Lemma init_masks_prefix g n :
  (n < 33)%nat → ∃ m, netmasks (init_masks g) !! n = Some m ∧ htonl m = prefix_mask 4 n.
Proof.
  intros Hn. enough (htonl <$> netmasks (init_masks g) !! n = Some (prefix_mask 4 n)) as H.
  { apply fmap_Some in H as (m & ? & ?). eauto. }
  revert n Hn. apply (forall_below _ 33). vm_compute. reflexivity.
Qed.

Lemma getCIDRipv6_prefix n :
  (n < 129)%nat → getCIDRipv6 (prefix_mask 16 n) = Ret (Z.of_nat n).
Proof.
  revert n. apply (forall_below _ 129). vm_compute. reflexivity.
Qed.

Lemma mask_index_prefix g n :
  (n < 32)%nat → mask_index (netmasks (init_masks g)) (ntohl (prefix_mask 4 n)) 0 32 = Ret n.
Proof.
  revert n. apply (forall_below _ 32). vm_compute. reflexivity.
Qed.

Lemma atoi_pretty n : (n < 129)%nat → atoi (pretty n) = Z.of_nat n ∧ (String.length (pretty n) ≤ 3)%nat.
Proof.
  revert n. apply (forall_below _ 129). vm_compute. reflexivity.
Qed.

(** ** What is stored and what it matches *)

(** The table of netmasks is filled or not yet used. *)
Definition masks_ok (g : mask_table) : Prop :=
  mask_inited g = true → netmasks g = netmasks (init_masks g).

(** The captures of an address [addr] with the prefix length [n] of [bits]. *)
Definition captured (bits : nat) (addr : string) (n : nat) (caps : list string) : Prop :=
  (n = bits ∧ caps = [addr]) ∨ ((n ≤ bits)%nat ∧ caps = [addr; pretty n]).

(** The block of the network of [net] with [n] bits. *)
Definition network_block (len : nat) (net : list Z) (n : nat) : list Z :=
  bytes_and net (prefix_mask len n) ++ prefix_mask len n.

Lemma masks_ok_start : masks_ok mask_table_start.
Proof. intros H. discriminate H. Qed.

Lemma ensure_masks_table g : masks_ok g → netmasks (ensure_masks g) = netmasks (init_masks g).
Proof. unfold ensure_masks. intros H. destruct (mask_inited g) eqn:E; [by apply H|done]. Qed.

Lemma ensure_masks_ok g : masks_ok g → masks_ok (ensure_masks g).
Proof. intros H _. rewrite (ensure_masks_table g) by done. done. Qed.

Lemma ensure_masks_inited g : mask_inited (ensure_masks g) = true.
Proof. unfold ensure_masks. by destruct (mask_inited g) eqn:E. Qed.

Lemma length_network_block len net n :
  is_addr len net → length (network_block len net n) = (len + len)%nat.
Proof.
  intros H. unfold network_block.
  rewrite length_app, (length_bytes_and len), length_prefix_mask by (done || apply length_prefix_mask).
  done.
Qed.

Lemma network_block_addr len net n :
  is_addr len net → c_slice (network_block len net n) 0 len = Ret (bytes_and net (prefix_mask len n)).
Proof.
  intros H. rewrite c_slice_ok by (rewrite length_network_block by done; lia). f_equal.
  unfold network_block. rewrite drop_0, take_app_length'; [done|].
  by rewrite (length_bytes_and len) by (done || apply length_prefix_mask).
Qed.

Lemma network_block_mask len net n :
  is_addr len net → c_slice (network_block len net n) len len = Ret (prefix_mask len n).
Proof.
  intros H. rewrite c_slice_ok by (rewrite length_network_block by done; lia). f_equal.
  unfold network_block. rewrite drop_app_length'.
  - rewrite take_ge; [done|]. by rewrite length_prefix_mask.
  - by rewrite (length_bytes_and len) by (done || apply length_prefix_mask).
Qed.

Lemma network_block_zero net n :
  is_addr 16 net → take 8 net = replicate 8 0 → take 8 (network_block 16 net n) = replicate 8 0.
Proof.
  intros H Hz. pose proof H as [Hl _]. unfold network_block.
  rewrite take_app_le by (rewrite (length_bytes_and 16) by (done || apply length_prefix_mask); lia).
  unfold bytes_and. rewrite zip_with_take, Hz.
  assert (length (take 8 (prefix_mask 16 n)) = 8)%nat as Hm by (rewrite length_take, length_prefix_mask; lia).
  destruct (take 8 (prefix_mask 16 n)) as [|? [|? [|? [|? [|? [|? [|? [|? [|]]]]]]]]]; done.
Qed.

Lemma ipv4_found_block s net n :
  is_addr 4 s → is_addr 4 net → (n ≤ 32)%nat →
  ipv4_found s (network_block 4 net n) = Ret (bool_decide (same_prefix n s net)).
Proof.
  intros Hs Hnet Hn. unfold ipv4_found. rewrite network_block_mask, outcome_bind_ret by done.
  rewrite network_block_addr, outcome_bind_ret by done. f_equal. apply bool_decide_ext.
  apply masked_eq_prefix; done || lia.
Qed.

(** The loop compares what is left of the address. *)
Lemma found_loop_spec net6 a m i fuel :
  length net6 = 16%nat → length a = 16%nat → length m = 16%nat → (i + fuel = 16)%nat →
  found_loop net6 (a ++ m) i fuel =
    Ret (bool_decide (bytes_and (drop i net6) (drop i m) = drop i a)).
Proof.
  intros Ln La Lm. revert i. induction fuel as [|fuel IH]; intros i Hi.
  - rewrite !drop_ge by lia. done.
  - destruct (lookup_lt_is_Some_2 net6 i) as [x Hx]; [lia|].
    destruct (lookup_lt_is_Some_2 a i) as [y Hy]; [lia|].
    destruct (lookup_lt_is_Some_2 m i) as [z Hz]; [lia|].
    assert ((a ++ m) !! (16 + i)%nat = Some z) as Hz'.
    { rewrite lookup_app_r by lia. rewrite La. by replace (16 + i - 16)%nat with i by lia. }
    assert ((a ++ m) !! i = Some y) as Hy' by (by rewrite lookup_app_l by lia).
    cbn [found_loop]. rewrite (c_read_Some _ _ _ Hx), outcome_bind_ret.
    rewrite (c_read_Some _ _ _ Hz'), outcome_bind_ret, (c_read_Some _ _ _ Hy'), outcome_bind_ret.
    rewrite (drop_S _ _ _ Hx), (drop_S _ _ _ Hy), (drop_S _ _ _ Hz). unfold bytes_and. cbn [zip_with].
    destruct (Z.eqb_spec (Z.land x z) y) as [->|Hne].
    + rewrite IH by lia. f_equal. apply bool_decide_ext. unfold bytes_and. split; congruence.
    + rewrite bool_decide_eq_false_2; congruence.
Qed.

Lemma ipv6_found_block s net n :
  is_addr 16 s → is_addr 16 net → (n ≤ 128)%nat →
  found_loop s (network_block 16 net n) 0 16 = Ret (bool_decide (same_prefix n s net)).
Proof.
  intros Hs Hnet Hn. unfold network_block.
  rewrite found_loop_spec; [|apply Hs|apply (length_bytes_and 16); [done|apply length_prefix_mask]|apply length_prefix_mask|done].
  rewrite !drop_0. f_equal. apply bool_decide_ext. apply masked_eq_prefix; done || lia.
Qed.

(** A block of eight bytes has no byte for the IPv6 mask. *)
Lemma found_loop_short s block :
  length s = 16%nat → length block = 8%nat → found_loop s block 0 16 = Stuck OutOfBounds.
Proof.
  intros Hs Hb. destruct (lookup_lt_is_Some_2 s 0) as [x Hx]; [lia|].
  cbn [found_loop]. rewrite (c_read_Some _ _ _ Hx), outcome_bind_ret.
  assert (c_read block (16 + 0) = Stuck OutOfBounds) as ->; [|done].
  unfold c_read. by rewrite lookup_ge_None_2 by lia.
Qed.

(** Through the IPv4 layout a block whose first eight bytes are zero is the
    network 0.0.0.0/0. *)
Lemma ipv4_found_zero s block :
  length s = 4%nat → take 8 block = replicate 8 0 → ipv4_found s block = Ret true.
Proof.
  intros Hs Hb.
  assert (8 ≤ length block)%nat.
  { apply (f_equal length) in Hb. rewrite length_take, length_replicate in Hb. lia. }
  rewrite <- (take_drop 8 block), Hb. cbn [replicate]. unfold ipv4_found.
  rewrite !c_slice_ok by (simpl; lia). rewrite !outcome_bind_ret. cbn [app drop take].
  destruct s as [|a [|b [|c [|d [|]]]]]; try done.
  unfold bytes_and. cbn [zip_with]. rewrite !Z.land_0_r. done.
Qed.

(** The text starts as an address does. *)
Definition is_hex (c : ascii) : bool :=
  let n := nat_of_ascii c in
  is_digit c || ((65 <=? n)%nat && (n <=? 70)%nat) || ((97 <=? n)%nat && (n <=? 102)%nat).

Definition addr_start (s : string) : bool :=
  match s with String c _ => is_hex c || bool_decide (c = ":"%char) | EmptyString => false end.

Lemma addr_start_not_neg s : addr_start s = true → starts_with "!" s = false.
Proof. destruct s as [|c s]; [done|]. simpl. intros H. apply bool_decide_eq_false_2. intros <-. done. Qed.

Lemma strip_bang_neg a (neg : bool) :
  addr_start a = true → strip_bang (if neg then String "!" a else a) = a.
Proof.
  intros H. destruct neg; [done|]. destruct a as [|[[] [] [] [] [] [] [] []] a]; done.
Qed.

Lemma addr_start_trunc n s : addr_start s = true → addr_start (str_trunc (S n) s) = true.
Proof. by destruct s. Qed.

Lemma addr_start_slash s : addr_start s = true → ∃ t r, strtok_slash s = (Some t, r).
Proof.
  destruct s as [|c s]; [done|]. intros H. unfold strtok_slash.
  assert (skip_slashes (String c s) = String c s) as ->.
  { simpl. destruct (decide (c = "/"%char)) as [->|Hne]; [done|].
    destruct c as [[] [] [] [] [] [] [] []]; try done. }
  destruct (until_slash (String c s)). eauto.
Qed.

Lemma hex_digit_is_hex d : 0 ≤ d < 16 → is_hex (hex_digit d) = true.
Proof.
  intros Hd. rewrite <- (Z2Nat.id d) by lia. assert (Z.to_nat d < 16)%nat as Hn by lia.
  revert Hn. generalize (Z.to_nat d). apply (forall_below _ 16). vm_compute. reflexivity.
Qed.

Lemma addr_start_hex_groups b n rest :
  is_addr 16 b → addr_start (fst (snprintf (S (S n)) (hex_groups b +:+ rest)%string)) = true.
Proof.
  intros [Hl Hb]. destruct b as [|x [|y [|z b]]]; try discriminate Hl.
  apply Forall_cons in Hb as [[??] _]. unfold snprintf. simpl.
  rewrite hex_digit_is_hex; [done|]. split; [by apply Z.div_pos|].
  by apply Z.div_lt_upper_bound.
Qed.

Section parsed.
Context (pcre : string → string → option (list string)).
Context (inet_pton4 inet_pton6 : string → option (list Z)).
(** [inet_pton] gives four or sixteen bytes. *)
Hypothesis (Hinet4 : ∀ s b, inet_pton4 s = Some b → is_addr 4 b).
Hypothesis (Hinet6 : ∀ s b, inet_pton6 s = Some b → is_addr 16 b).
(** What the patterns match, and what the one of embedded addresses captures,
    starts with a hexadecimal digit or a colon. *)
Hypothesis (Hstart : ∀ r s caps,
  r ∈ ip_address_regex → pcre r s = Some caps → addr_start s = true).
Hypothesis (Hmapped : ∀ s c l,
  pcre IPV4_MASK_IPV6 s = Some (c :: l) → addr_start c = true).

Abbreviation OS_GetIPv4FromIPv6 := (OS_GetIPv4FromIPv6 pcre).
Abbreviation OS_ExpandIPv6 := (OS_ExpandIPv6 inet_pton6).
Abbreviation store_ipv4 := (store_ipv4 inet_pton4).
Abbreviation store_ipv6 := (store_ipv6 inet_pton6).
Abbreviation OS_IsValidIP := (OS_IsValidIP pcre inet_pton4 inet_pton6).
Abbreviation OS_IPFound := (OS_IPFound inet_pton4 inet_pton6).

Lemma first_match_start l i s j caps :
  (∀ r, r ∈ l → r ∈ ip_address_regex) →
  first_match pcre l i s = Some (j, caps) → addr_start s = true.
Proof using Hstart.
  revert i. induction l as [|r l IH]; intros i Hl; [done|]. cbn [first_match].
  destruct (pcre r s) as [c|] eqn:E.
  - intros _. eapply Hstart; [|done]. apply Hl. left.
  - apply IH. intros r' Hr'. apply Hl. by right.
Qed.

Lemma text_start s :
  addr_start s = true → addr_start (OS_GetIPv4FromIPv6 (str_trunc IPSIZE s) IPSIZE) = true.
Proof using Hmapped.
  intros Hs. unfold IpAddr.OS_GetIPv4FromIPv6.
  destruct (pcre IPV4_MASK_IPV6 (str_trunc IPSIZE s)) as [[|c l]|] eqn:E;
    [by apply addr_start_trunc| |by apply addr_start_trunc].
  by apply addr_start_trunc, (Hmapped _ _ _ E).
Qed.

Lemma OS_ExpandIPv6_ok s :
  addr_start s = true → ∃ t, OS_ExpandIPv6 s IPSIZE = Ret t ∧ addr_start (default s t) = true.
Proof using Hinet6.
  intros Hs. unfold IpAddr.OS_ExpandIPv6.
  destruct (addr_start_slash (str_trunc IPSIZE s)) as (tok & r & ->); [by apply addr_start_trunc|].
  cbn [c_deref]. rewrite outcome_bind_ret.
  destruct (inet_pton6 tok) as [aux|] eqn:E; [|eauto]. apply Hinet6 in E.
  destruct (_ || _); [eauto|]. destruct (_ =? 0); eexists; (split; [done|]).
  - rewrite <- (append_nil_r (hex_groups aux)).
    by apply (addr_start_hex_groups aux 44).
  - by apply (addr_start_hex_groups aux 44).
Qed.

Lemma store_ipv4_ok g fin addr n caps net :
  masks_ok g → captured 32 addr n caps → inet_pton4 addr = Some net →
  store_ipv4 g fin caps = Ret (ensure_masks g,
    Some {| ip := ip fin; obj := Some (network_block 4 net n); is_ipv6 := false |}).
Proof using.
  intros Hg Hc Ha. unfold IpAddr.store_ipv4. pose proof (ensure_masks_table g Hg) as Ht.
  assert (n < 33)%nat as Hn by (destruct Hc; lia).
  destruct (init_masks_prefix g n Hn) as (m & Hm & Hh). rewrite <- Ht in Hm.
  destruct Hc as [[-> ->]|[_ ->]]; rewrite Ha.
  - change DEFAULT_IPV4_NETMASK with 32%nat. rewrite (c_read_Some _ _ _ Hm), !outcome_bind_ret, Hh. done.
  - destruct (atoi_pretty n) as [Hat _]; [lia|].
    assert ((String.length (pretty n) <=? 2)%nat = true) as ->.
    { clear -Hn. revert n Hn. apply (forall_below _ 33). vm_compute. reflexivity. }
    rewrite Hat, Nat2Z.id, (c_read_Some _ _ _ Hm), !outcome_bind_ret, Hh. done.
Qed.

Lemma store_ipv6_ok fin addr n caps net :
  addr_start (ip fin) = true → captured 128 addr n caps → inet_pton6 addr = Some net →
  ∃ t, store_ipv6 fin caps = Ret (Some
      {| ip := t; obj := Some (network_block 16 net n); is_ipv6 := true |}) ∧
    addr_start t = true.
Proof using Hinet6.
  intros Hs Hc Ha. unfold IpAddr.store_ipv6.
  destruct (OS_ExpandIPv6_ok (ip fin) Hs) as (t & Ht & Hst). exists (default (ip fin) t).
  split; [|done]. destruct Hc as [[-> ->]|[Hn ->]]; rewrite Ha.
  - change DEFAULT_IPV6_PREFIX with (Z.of_nat 128). rewrite convertNetmask_prefix by lia.
    by rewrite Ht, outcome_bind_ret.
  - destruct (atoi_pretty n) as [Hat Hlen]; [lia|]. rewrite Hat, convertNetmask_prefix by lia.
    rewrite (proj2 (Nat.ltb_ge _ _) Hlen). by rewrite Ht, outcome_bind_ret.
Qed.

(** The network [a] is recognised by pattern [i] as [n] bits of [net]. *)
Definition recognised (a : string) (i : nat) (net : list Z) (n : nat) (caps : list string) : Prop :=
  ∃ addr, first_match pcre ip_address_regex 0 a = Some (i, caps) ∧ a ≠ "any"%string ∧
    captured (if (i =? 0)%nat then 32 else 128) addr n caps ∧
    (if (i =? 0)%nat then inet_pton4 addr else inet_pton6 addr) = Some net.

(** What [OS_IsValidIP] makes of it, with or without a leading exclamation mark. *)
Lemma OS_IsValidIP_ok g a i net n caps neg :
  masks_ok g → recognised a i net n caps →
  ∃ g' t,
    OS_IsValidIP g (Some (if neg : bool then String "!" a else a)) true =
      Ret (g', Z.of_nat (length caps),
        Some {| ip := t; obj := Some (network_block (if (i =? 0)%nat then 4 else 16) net n);
                is_ipv6 := negb (i =? 0)%nat |}) ∧
    masks_ok g' ∧ addr_start t = true ∧
    (i = 0%nat → t = OS_GetIPv4FromIPv6 (str_trunc IPSIZE a) IPSIZE ∧ mask_inited g' = true).
Proof using Hstart Hmapped Hinet6.
  intros Hg (addr & Hm & Hany & Hc & Hnet).
  assert (addr_start a = true) as Hs by (eapply first_match_start; [|done]; done).
  pose proof (text_start a Hs) as Hts.
  assert (Z.of_nat (length caps) = if (length caps =? 2)%nat then 2 else 1) as Hlen.
  { destruct Hc as [[_ ->]|[_ ->]]; done. }
  unfold IpAddr.OS_IsValidIP. rewrite strip_bang_neg by done.
  rewrite bool_decide_eq_false_2 by done. rewrite Hm, Hlen. cbn [negb].
  destruct i as [|i]; cbn [Nat.eqb negb Nat.ltb Nat.leb] in *.
  - rewrite (store_ipv4_ok g _ addr n caps net) by done. rewrite outcome_bind_ret.
    eexists _, _. split; [done|]. split_and!; [by apply ensure_masks_ok|done|].
    intros _. split; [done|apply ensure_masks_inited].
  - match goal with |- context [IpAddr.store_ipv6 _ ?fin _] =>
      destruct (store_ipv6_ok fin addr n caps net) as (t & -> & Ht); [done|done|done|] end.
    rewrite outcome_bind_ret. exists g, t. by split_and!.
Qed.

(** C38: An address or network that the patterns recognise, with prefix length [n]
    (all bits when none is written), is accepted with its number of captures as
    the result, and [OS_IPFound] then finds exactly the addresses of the same
    family that agree with it in the first [n] bits.  A leading exclamation mark
    changes neither: it is dropped before the text is stored, so that the
    negation [OS_IPFound] looks for never applies. *)
Theorem ip_found_is_prefix_match g a i net n caps neg :
  masks_ok g → recognised a i net n caps →
  ∃ g' that_ip,
    OS_IsValidIP g (Some (if neg : bool then String "!" a else a)) true =
      Ret (g', Z.of_nat (length caps), Some that_ip) ∧
    masks_ok g' ∧
    ∀ src s,
      (if (i =? 0)%nat then inet_pton4 src = Some s
       else inet_pton4 src = None ∧ inet_pton6 src = Some s) →
      OS_IPFound src that_ip = Ret (bool_decide (same_prefix n s net)).
Proof using Hinet4 Hinet6 Hstart Hmapped.
  intros Hg Hr. destruct (OS_IsValidIP_ok g a i net n caps neg Hg Hr) as (g' & t & E & Hg' & Ht & _).
  eexists _, _. split_and!; [exact E|done|]. intros src s Hs.
  destruct Hr as (addr & _ & _ & Hc & Hnet). unfold IpAddr.OS_IPFound, in_network. cbn [obj ip c_deref].
  rewrite (addr_start_not_neg t Ht). destruct i as [|i]; cbn [Nat.eqb] in *.
  - rewrite Hs, !outcome_bind_ret. rewrite ipv4_found_block; [done|by eapply Hinet4..|].
    destruct Hc; lia.
  - destruct Hs as [-> Hs]. rewrite Hs, !outcome_bind_ret.
    rewrite ipv6_found_block; [done|by eapply Hinet6..|]. destruct Hc; lia.
Qed.

(** The family of an entry is not checked.  An IPv6 source address compared
    with an IPv4 entry reads past the eight bytes of the entry, and an IPv6 entry
    whose first eight bytes are zero (the loopback address, for one) is found for
    every IPv4 source address. *)
Theorem ip_found_mixes_families g a i net n caps :
  masks_ok g → recognised a i net n caps →
  ∃ g' that_ip,
    OS_IsValidIP g (Some a) true = Ret (g', Z.of_nat (length caps), Some that_ip) ∧
    ∀ src s,
      if (i =? 0)%nat then
        inet_pton4 src = None → inet_pton6 src = Some s →
        OS_IPFound src that_ip = Stuck OutOfBounds
      else
        inet_pton4 src = Some s → take 8 net = replicate 8 0 →
        OS_IPFound src that_ip = Ret true.
Proof using Hinet4 Hinet6 Hstart Hmapped.
  intros Hg Hr. destruct (OS_IsValidIP_ok g a i net n caps false Hg Hr) as (g' & t & E & Hg' & Ht & _).
  eexists _, _. split; [exact E|]. intros src s.
  destruct Hr as (addr & _ & _ & Hc & Hnet). unfold IpAddr.OS_IPFound, in_network. cbn [obj ip c_deref].
  rewrite (addr_start_not_neg t Ht). destruct i as [|i]; cbn [Nat.eqb] in *.
  - intros -> Hs. rewrite Hs, outcome_bind_ret.
    rewrite found_loop_short; [done|by eapply Hinet6|].
    rewrite length_network_block; [done|by eapply Hinet4].
  - intros Hs Hz. rewrite Hs, outcome_bind_ret.
    rewrite ipv4_found_zero; [done|by eapply Hinet4|]. apply network_block_zero; [by eapply Hinet6|done].
Qed.
End parsed.

(** ** Printing what was stored *)

(** The text of a network of [n] bits of [bits]: the prefix length is left out
    when it is that of one address. *)
Definition cidr_text (bits : nat) (addr : string) (n : nat) : string :=
  if (n <? bits)%nat then (addr +:+ "/" +:+ pretty n)%string else addr.

Lemma OS_CIDRtoStr_v4 g a net n size :
  masks_ok g → mask_inited g = true → is_addr 4 net → (n ≤ 32)%nat →
  has_char ":" (ip a) = false → ip a ≠ "any"%string → obj a = Some (network_block 4 net n) →
  (String.length (ip a) + 3 < size)%nat →
  ∃ g', OS_CIDRtoStr g a size = Ret (g', Some (cidr_text 32 (ip a) n), true) ∧ masks_ok g' ∧
    mask_inited g' = true.
Proof.
  intros Hg Hi Hnet Hn Hc Hany Ho Hsz. unfold OS_CIDRtoStr. rewrite Hc, Ho. cbn [c_deref].
  rewrite outcome_bind_ret, network_block_mask, outcome_bind_ret by done.
  rewrite (bool_decide_eq_true_2 _ Hany), andb_true_r. unfold cidr_text.
  destruct (Nat.ltb_spec n 32) as [Hlt|Hge].
  - rewrite bool_decide_eq_true_2.
    + rewrite Hi, mask_index_prefix, outcome_bind_ret by done.
      rewrite (proj2 (Nat.ltb_lt n 32)) by done.
      rewrite snprintf_fits; [by eexists|].
      rewrite !append_length. cbn [String.length].
      enough (String.length (pretty n) ≤ 2)%nat by lia. clear -Hlt.
      revert n Hlt. apply (forall_below _ 32). vm_compute. reflexivity.
    + clear -Hlt. revert n Hlt. apply (forall_below _ 32). vm_compute. reflexivity.
  - replace n with 32%nat by lia. rewrite bool_decide_eq_false_2; [|intros H; by apply H].
    rewrite str_trunc_fits by lia. by eexists.
Qed.

Lemma OS_CIDRtoStr_v6 g a net n size :
  is_addr 16 net → (n ≤ 128)%nat → has_char ":" (ip a) = true →
  obj a = Some (network_block 16 net n) → (String.length (ip a) + 4 < size)%nat →
  OS_CIDRtoStr g a size = Ret (g, Some (cidr_text 128 (ip a) n), true).
Proof.
  intros Hnet Hn Hc Ho Hsz. unfold OS_CIDRtoStr. rewrite Hc, Ho. cbn [c_deref].
  rewrite outcome_bind_ret, network_block_mask, outcome_bind_ret by done.
  rewrite getCIDRipv6_prefix, outcome_bind_ret by lia. unfold cidr_text.
  destruct (Nat.ltb_spec n 128) as [Hlt|Hge].
  - rewrite (proj2 (Z.ltb_lt _ _)) by lia.
    assert (pretty (Z.of_nat n) = pretty n ∧ (String.length (pretty n) ≤ 3)%nat) as [-> Hp].
    { clear -Hlt. revert n Hlt. apply (forall_below _ 128). vm_compute. reflexivity. }
    rewrite snprintf_fits; [done|]. rewrite !append_length. cbn [String.length]. lia.
  - rewrite (proj2 (Z.ltb_ge _ _)) by lia. by rewrite str_trunc_fits by lia.
Qed.

(** A mask written in dotted form leaves the table unfilled, and the inverted test
    of [OS_CIDRtoStr] then looks it up in a table of zeros: 10.0.0.0/255.0.0.0
    cannot be printed by a process that has read no other network. *)
Lemma OS_CIDRtoStr_unfilled_table g a :
  mask_inited g = false → netmasks g = replicate 33 0 →
  ip a = "10.0.0.0"%string → obj a = Some (network_block 4 [10; 0; 0; 0] 8) →
  OS_CIDRtoStr g a IPSIZE = Ret (g, None, false).
Proof.
  intros Hi Ht Ha Ho. unfold OS_CIDRtoStr. rewrite Ha, Ho, Hi, Ht. vm_compute. reflexivity.
Qed.

(** ** A small set of addresses *)
Section sample.
#[local] Open Scope string_scope.

Definition sample_inet4 (s : string) : option (list Z) :=
  if decide (s = "10.1.0.0") then Some [10; 1; 0; 0]
  else if decide (s = "10.1.2.3") then Some [10; 1; 2; 3]
  else if decide (s = "10.2.2.3") then Some [10; 2; 2; 3] else None.

Definition sample_inet6 (s : string) : option (list Z) :=
  if decide (s = "::1") then Some (replicate 15 0 ++ [1])%list else None.

Definition sample_pcre (p s : string) : option (list string) :=
  if decide (s = "10.1.0.0/16") then
    if decide (p = nth 0 ip_address_regex "") then Some ["10.1.0.0"; "16"] else None
  else if decide (s = "::1") then
    if decide (p = nth 9 ip_address_regex "") then Some ["::1"] else None
  else None.
End sample.

Ltac sample_cases H :=
  repeat (case_decide; simplify_eq); try done;
  try (split; [done|]; repeat constructor; done).

Lemma sample_inet4_addr s b : sample_inet4 s = Some b → is_addr 4 b.
Proof. unfold sample_inet4. intros H. sample_cases H. Qed.

Lemma sample_inet6_addr s b : sample_inet6 s = Some b → is_addr 16 b.
Proof. unfold sample_inet6. intros H. sample_cases H. Qed.

Lemma sample_pcre_start r s caps :
  r ∈ ip_address_regex → sample_pcre r s = Some caps → addr_start s = true.
Proof. unfold sample_pcre. intros _ H. sample_cases H. Qed.

Lemma sample_pcre_mapped s c l :
  sample_pcre IPV4_MASK_IPV6 s = Some (c :: l) → addr_start c = true.
Proof. unfold sample_pcre. intros H. sample_cases H. Qed.

Lemma sample_v4 : recognised sample_pcre sample_inet4 sample_inet6 "10.1.0.0/16" 0
  [10; 1; 0; 0] 16 ["10.1.0.0"; "16"]%string.
Proof.
  exists "10.1.0.0"%string. split_and!; [vm_compute; reflexivity|done| |done].
  right. split; [cbn; lia|vm_compute; reflexivity].
Qed.

Lemma sample_v6 : recognised sample_pcre sample_inet4 sample_inet6 "::1" 9
  (replicate 15 0 ++ [1]) 128 ["::1"]%string.
Proof. exists "::1"%string. split_and!; [vm_compute; reflexivity|done| |done]. by left. Qed.

Lemma ip_found_is_prefix_match_witness : ∃ g' that_ip,
  OS_IsValidIP sample_pcre sample_inet4 sample_inet6 mask_table_start (Some "10.1.0.0/16"%string) true =
    Ret (g', 2, Some that_ip) ∧
  OS_IPFound sample_inet4 sample_inet6 "10.1.2.3" that_ip = Ret true ∧
  OS_IPFound sample_inet4 sample_inet6 "10.2.2.3" that_ip = Ret false.
Proof.
  destruct (ip_found_is_prefix_match sample_pcre sample_inet4 sample_inet6 sample_inet4_addr
    sample_inet6_addr sample_pcre_start sample_pcre_mapped mask_table_start "10.1.0.0/16" 0
    [10; 1; 0; 0] 16 ["10.1.0.0"; "16"]%string false masks_ok_start sample_v4)
    as (g' & that_ip & E & _ & H).
  exists g', that_ip. split; [exact E|]. split.
  - rewrite (H "10.1.2.3"%string [10; 1; 2; 3] eq_refl). vm_compute. reflexivity.
  - rewrite (H "10.2.2.3"%string [10; 2; 2; 3] eq_refl). vm_compute. reflexivity.
Defined.

Lemma ip_found_mixes_families_witness :
  (∃ g' that_ip,
    OS_IsValidIP sample_pcre sample_inet4 sample_inet6 mask_table_start (Some "10.1.0.0/16"%string) true =
      Ret (g', 2, Some that_ip) ∧
    OS_IPFound sample_inet4 sample_inet6 "::1" that_ip = Stuck OutOfBounds) ∧
  (∃ g' that_ip,
    OS_IsValidIP sample_pcre sample_inet4 sample_inet6 mask_table_start (Some "::1"%string) true =
      Ret (g', 1, Some that_ip) ∧
    OS_IPFound sample_inet4 sample_inet6 "10.2.2.3" that_ip = Ret true).
Proof.
  pose proof (ip_found_mixes_families sample_pcre sample_inet4 sample_inet6 sample_inet4_addr
    sample_inet6_addr sample_pcre_start sample_pcre_mapped mask_table_start) as T.
  split.
  - destruct (T _ _ _ _ _ masks_ok_start sample_v4) as (g' & that_ip & E & H).
    exists g', that_ip. split; [exact E|]. exact (H "::1"%string _ eq_refl eq_refl).
  - destruct (T _ _ _ _ _ masks_ok_start sample_v6) as (g' & that_ip & E & H).
    exists g', that_ip. split; [exact E|]. exact (H "10.2.2.3"%string _ eq_refl eq_refl).
Defined.
