(* ===== verification/SchedTime.v ===== *)
(** * Times and days of scheduled scans (shared/src/validate_op.c)

    The configuration gives a time (or a range of times) and a list of week days as
    text; [OS_IsValidTime], [OS_IsValidUniqueTime] and [OS_IsValidDay] bring them
    to a normal form once, [OS_IsonTime], [OS_IsAfterTime] and [OS_IsonDay] compare
    the clock with that form.

    The parsers walk a pointer over the text, so the text is the list of the
    characters of its buffer from the pointer on, terminator and what follows it
    included; reading past the end of the buffer is a fault. *)

From Stdlib Require Import Lia ZArith Ascii String.
From stdpp Require Import base numbers list strings pretty.
From S2P Require Import Prelude CString.

#[local] Open Scope list_scope.
#[local] Open Scope Z_scope.

Fixpoint RM_WHITE (m : list ascii) : outcome (list ascii) :=
  match m with
  | [] => Stuck OutOfBounds
  | c :: m' => if bool_decide (c = " "%char) then RM_WHITE m' else Ret m
  end.

(** The number of digits at the pointer, and the pointer after them. *)
Fixpoint skip_digits (m : list ascii) (size : nat) : outcome (nat * list ascii) :=
  match m with
  | [] => Stuck OutOfBounds
  | c :: m' => if is_digit c then skip_digits m' (S size) else Ret (size, m)
  end.

(** [%02d]. *)
Definition print02 (z : Z) : string :=
  if (0 <=? z) && (z <? 10) then String "0" (pretty z) else pretty z.

(** The text stored in [ossec_hour] of [len] bytes, unless it is cut. *)
Definition put_hour (len : nat) (chour cmin : Z) : option string :=
  let s := (print02 chour +:+ ":" +:+ print02 cmin)%string in
  if (len <=? String.length s)%nat then None else Some s.

Definition is_char (c : ascii) (a b : ascii) : bool := bool_decide (c = a) || bool_decide (c = b).

(** The minutes after the hour: [None] is an invalid time. *)
Definition gethour_minutes (str : list ascii) : outcome (option (Z * list ascii)) :=
  c ← c_read str 0;
  if bool_decide (c = ":"%char) then
    str ← advance str 1;
    c0 ← c_read str 0;
    short ← (if is_digit c0 then c1 ← c_read str 1; Ret (negb (is_digit c1)) else Ret true);
    bad ← (if short : bool then c2 ← c_read str 2; Ret (is_digit c2) else Ret false);
    if bad : bool then Ret None
    else
      let cmin := atoi (mem_string str) in
      str ← advance str 2;
      Ret (Some (cmin, str))
  else Ret (Some (0, str)).

(** The half of the day after the time: the hour it makes, and the pointer. *)
Definition gethour_half (str : list ascii) (chour : Z) : outcome (option (Z * list ascii)) :=
  c ← c_read str 0;
  if is_char c "a" "A" then
    str ← advance str 1; c ← c_read str 0;
    if is_char c "m" "M" then
      str ← advance str 1;
      Ret (Some (if chour =? 12 then 0 else chour, str))
    else Ret None
  else if is_char c "p" "P" then
    str ← advance str 1; c ← c_read str 0;
    if is_char c "m" "M" then
      let chour := (if chour =? 12 then 0 else chour) + 12 in
      if (chour <? 0) || (24 <=? chour) then Ret None
      else str ← advance str 1; Ret (Some (chour, str))
    else Ret None
  else Ret (Some (chour, str)).

(** [None] is the result [NULL]; otherwise the pointer after the time and the text
    put into [ossec_hour]. *)
Definition gethour (str : list ascii) (ossec_hour_len : nat) : outcome (option (list ascii * string)) :=
  let chour := atoi (mem_string str) in
  if (chour <? 0) || (24 <=? chour) then Ret None
  else
    '(size, str) ← skip_digits str 0;
    if (2 <? size)%nat then Ret None
    else
      m ← gethour_minutes str;
      match m with
      | None => Ret None
      | Some (cmin, str) =>
          str ← RM_WHITE str;
          h ← gethour_half str chour;
          match h with
          | None => Ret None
          | Some (chour, str) =>
              Ret ((λ s, (str, s)) <$> put_hour ossec_hour_len chour cmin)
          end
      end.

Definition strncmp (n : nat) (s1 s2 : string) : comparison := strcmp (str_trunc n s1) (str_trunc n s2).

Definition is_gt (c : comparison) : bool := match c with Gt => true | _ => false end.
Definition is_lt (c : comparison) : bool := match c with Lt => true | _ => false end.

(** The second hour and the end of the text. *)
Definition valid_time_rest (time_str : list ascii) (ng : bool) (first_hour : string) :
    outcome (option string) :=
  time_str ← RM_WHITE time_str;
  c ← c_read time_str 0;
  if bool_decide (c = "-"%char) then
    time_str ← advance time_str 1;
    time_str ← RM_WHITE time_str;
    r ← gethour time_str 7;
    match r with
    | None => Ret None
    | Some (time_str, second_hour) =>
        time_str ← RM_WHITE time_str;
        c ← c_read time_str 0;
        if negb (bool_decide (c = NUL)) then Ret None
        else if is_gt (strcmp first_hour second_hour) then
          Ret (Some (fst (snprintf 16 ("!" +:+ second_hour +:+ first_hour)%string)))
        else
          Ret (Some (fst (snprintf 16
            ((if ng then "!" else ".") +:+ first_hour +:+ second_hour)%string)))
    end
  else Ret None.

Definition OS_IsValidTime (time_str : option (list ascii)) : outcome (option string) :=
  match time_str with
  | None => Ret None
  | Some time_str =>
      time_str ← RM_WHITE time_str;
      c ← c_read time_str 0;
      '(ng, time_str) ← (if bool_decide (c = "!"%char)
        then time_str ← advance time_str 1; time_str ← RM_WHITE time_str; Ret (true, time_str)
        else Ret (false, time_str));
      r ← gethour time_str 7;
      match r with
      | None => Ret None
      | Some (time_str, first_hour) => valid_time_rest time_str ng first_hour
      end
  end.

(** [ossec_time + n] of a string in memory. *)
Definition str_from (s : string) (n : nat) : outcome string :=
  if (n <=? String.length s)%nat then Ret (String.substring n (String.length s - n) s)
  else Stuck OutOfBounds.

Definition OS_IsonTime (time_str ossec_time : string) : outcome bool :=
  let _true := negb (starts_with "!" ossec_time) in
  lo ← str_from ossec_time 1;
  if negb (is_lt (strncmp 5 time_str lo)) then
    hi ← str_from ossec_time 6;
    Ret (if negb (is_gt (strncmp 5 time_str hi)) then _true else negb _true)
  else Ret (negb _true).

Definition OS_IsAfterTime (time_str ossec_time : string) : outcome bool :=
  if starts_with "!" ossec_time then Ret false
  else
    lo ← str_from ossec_time 1;
    Ret (negb (is_lt (strncmp 5 time_str lo))).

(** [mytime] has 129 bytes, all cleared, of which [snprintf] may fill 127. *)
Definition OS_IsValidUniqueTime (time_str : string) : outcome (option string) :=
  if starts_with "!" time_str then Ret None
  else
    let s := fst (snprintf 128 (time_str +:+ "-" +:+ time_str)%string) in
    OS_IsValidTime (Some (chars s ++ replicate (129 - String.length s) NUL)).

(** ** Days of the week *)

Fixpoint skip_blanks (s : string) : string :=
  match s with String " " s' => skip_blanks s' | _ => s end.

Definition IS_SEP (c : ascii) : bool := bool_decide (c = " "%char) || bool_decide (c = ","%char).

Fixpoint RM_SEP (s : string) : string :=
  match s with String c s' => if IS_SEP c then RM_SEP s' else s | EmptyString => s end.

Definition tolower (c : ascii) : ascii :=
  let n := nat_of_ascii c in if (65 <=? n)%nat && (n <=? 90)%nat then ascii_of_nat (n + 32) else c.

(** [strncasecmp (s, name, strlen (name)) == 0] for a name in lower case; what
    follows the name in [s] is returned. *)
Fixpoint after_name (name s : string) : option string :=
  match name, s with
  | EmptyString, _ => Some s
  | String n name, String c s => if bool_decide (tolower c = n) then after_name name s else None
  | String _ _, EmptyString => None
  end.

Definition days : list (string * nat) :=
  [("sunday", 0); ("sun", 0); ("monday", 1); ("mon", 1); ("tuesday", 2); ("tue", 2);
   ("wednesday", 3); ("wed", 3); ("thursday", 4); ("thu", 4); ("friday", 5); ("fri", 5);
   ("saturday", 6); ("sat", 6); ("weekdays", 7); ("weekends", 8)]%nat%string.

Fixpoint find_day (days : list (string * nat)) (s : string) : option (nat * string) :=
  match days with
  | [] => None
  | (name, v) :: days =>
      match after_name name s with
      | Some rest => Some (v, rest)
      | None => find_day days s
      end
  end.

Definition mark_day (v : nat) (day_ret : list Z) : list Z :=
  if (v =? 7)%nat then <[5%nat:=1]> (<[4%nat:=1]> (<[3%nat:=1]> (<[2%nat:=1]> (<[1%nat:=1]> day_ret))))
  else if (v =? 8)%nat then <[6%nat:=1]> (<[0%nat:=1]> day_ret)
  else <[v:=1]> day_ret.

(** The loop over the names; [None] is the result [NULL]. *)
Fixpoint days_loop (fuel : nat) (day_str : string) (day_ret : list Z) : outcome (option (list Z)) :=
  match day_str with
  | EmptyString => Ret (Some day_ret)
  | _ =>
      match fuel with
      | O => Stuck OutOfFuel
      | S fuel =>
          match find_day days day_str with
          | None => Ret None
          | Some (v, rest) =>
              let day_ret := mark_day v day_ret in
              match rest with
              | EmptyString => Ret (Some day_ret)
              | String c _ => if IS_SEP c then days_loop fuel (RM_SEP rest) day_ret else Ret None
              end
          end
      end
  end.

(** The exclamation mark is noticed but not skipped, as in the source. *)
Definition OS_IsValidDay (day_str : option string) : outcome (option (list Z)) :=
  match day_str with
  | None => Ret None
  | Some day_str =>
      let day_str := skip_blanks day_str in
      let ng := starts_with "!" day_str in
      let day_str := if ng then skip_blanks day_str else day_str in
      r ← days_loop (String.length day_str) day_str (replicate 9 0);
      match r with
      | None => Ret None
      | Some day_ret =>
          if existsb (Z.eqb 1) (take 7 day_ret) then
            Ret (Some (take 7 day_ret ++ [if ng then Z.of_nat (nat_of_ascii "!") else 0; 0]))
          else Ret None
      end
  end.

Definition OS_IsonDay (week_day : Z) (ossec_day : list Z) : outcome bool :=
  neg ← c_read ossec_day 7;
  let _true := negb (neg =? Z.of_nat (nat_of_ascii "!")) in
  if (week_day <? 0) || (7 <? week_day) then Ret false
  else
    d ← c_read ossec_day (Z.to_nat week_day);
    Ret (if d =? 1 then _true else negb _true).

Definition w_validate_wday (day_str : option string) : Z :=
  match day_str with
  | None => -1
  | Some s =>
      match find_day (take 14 days) (skip_blanks s) with
      | Some (v, _) => Z.of_nat v
      | None => -1
      end
  end.

Definition w_validate_interval (interval force : Z) : Z :=
  if force =? 0 then Z.rem interval 86400
  else if force =? 1 then Z.rem interval 604800
  else -1.

(** ** Times of the day as text *)

Definition digit (n : nat) : ascii := ascii_of_nat (48 + n).

(** A time as the configuration may write it: an hour of one or two digits,
    optional minutes, and optionally spaces and the half of the day. *)
Record clock : Type := mk_clock {
  hour : nat;
  two_digits : bool;
  minute : option nat;
  half : option (nat * bool * ascii * ascii)   (* spaces, pm, its letters *)
}.

Definition clock_ok (c : clock) : Prop :=
  (match half c with
   | None => (hour c < 24)%nat
   | Some (_, pm, l1, l2) =>
       (hour c < 13)%nat ∧ is_char l1 (if pm : bool then "p" else "a") (if pm then "P" else "A") = true ∧
       is_char l2 "m" "M" = true
   end) ∧
  (two_digits c = false → (hour c < 10)%nat) ∧
  match minute c with Some m => (m < 60)%nat | None => True end.

Definition hour_text (c : clock) : list ascii :=
  if two_digits c then [digit (hour c / 10); digit (hour c mod 10)] else [digit (hour c)].

Definition minute_text (c : clock) : list ascii :=
  match minute c with
  | Some m => ":"%char :: [digit (m / 10); digit (m mod 10)]
  | None => []
  end.

Definition half_text (c : clock) : list ascii :=
  match half c with
  | Some (k, _, l1, l2) => replicate k " "%char ++ [l1; l2]
  | None => []
  end.

Definition clock_text (c : clock) : list ascii := hour_text c ++ minute_text c ++ half_text c.

Definition clock_hour (c : clock) : nat :=
  match half c with
  | None => hour c
  | Some (_, pm, _, _) => (hour c mod 12 + if pm : bool then 12 else 0)%nat
  end.

(** Minutes since midnight. *)
Definition clock_minutes (c : clock) : nat := (60 * clock_hour c + default 0 (minute c))%nat.

(** The normal form [hh:mm] of a time. *)
Definition hhmm (t : nat) : string :=
  String (digit (t / 60 / 10)) (String (digit (t / 60 mod 10)) (String ":"
    (String (digit (t mod 60 / 10)) (String (digit (t mod 60 mod 10)) EmptyString)))).

Lemma digit_facts d :
  (d < 10)%nat →
  is_digit (digit d) = true ∧ (nat_of_ascii (digit d) - 48 = d)%nat ∧ is_space (digit d) = false ∧
  digit d ≠ NUL ∧ digit d ≠ "-"%char ∧ digit d ≠ "+"%char ∧ digit d ≠ " "%char ∧ digit d ≠ "!"%char.
Proof. revert d. apply (forall_below _ 10). vm_compute. reflexivity. Qed.

Lemma mem_string_digit d m :
  (d < 10)%nat → mem_string (digit d :: m) = String (digit d) (mem_string m).
Proof.
  intros Hd. cbn [mem_string]. rewrite bool_decide_eq_false_2; [done|]. by apply digit_facts.
Qed.

Lemma digits_value_digit d s acc :
  (d < 10)%nat → digits_value (String (digit d) s) acc = digits_value s (acc * 10 + Z.of_nat d).
Proof.
  intros Hd. destruct (digit_facts d Hd) as (H1 & H2 & _). cbn [digits_value]. by rewrite H1, H2.
Qed.

Lemma atoi_digit d s :
  (d < 10)%nat → atoi (String (digit d) s) = wrap_int (strtol_clamp (digits_value s (Z.of_nat d))).
Proof.
  intros Hd. unfold atoi. f_equal. f_equal.
  do 10 (destruct d as [|d]; [done|]). lia.
Qed.

Lemma wrap_small z : 0 ≤ z < 1000 → wrap_int (strtol_clamp z) = z.
Proof.
  intros. unfold strtol_clamp, wrap_int. rewrite Z.min_r, Z.max_r by lia.
  rewrite Z.mod_small by lia. lia.
Qed.

(** The text stops being a number at this character. *)
Definition stops (m : list ascii) : Prop :=
  match m with [] => False | c :: _ => is_digit c = false end.

Lemma digits_value_stops m acc : stops m → digits_value (mem_string m) acc = acc.
Proof.
  destruct m as [|c m]; [done|]. cbn [stops mem_string]. intros H.
  case_bool_decide; [done|]. cbn [digits_value]. by rewrite H.
Qed.

(** Two digits are read as a number. *)
Lemma atoi_two n m :
  (n < 100)%nat → stops m →
  atoi (mem_string (digit (n / 10) :: digit (n mod 10) :: m)) = Z.of_nat n.
Proof.
  intros Hn Hm. assert (n / 10 < 10)%nat by (apply Nat.Div0.div_lt_upper_bound; lia).
  assert (n mod 10 < 10)%nat by (apply Nat.mod_upper_bound; lia).
  rewrite !mem_string_digit, atoi_digit, digits_value_digit, digits_value_stops by done.
  pose proof (Nat.div_mod_eq n 10). rewrite wrap_small; lia.
Qed.

Lemma hour_text_value c m :
  clock_ok c → stops m → atoi (mem_string (hour_text c ++ m)) = Z.of_nat (hour c).
Proof.
  intros (Hh & Ht & _) Hm. unfold hour_text. destruct (two_digits c).
  - apply atoi_two; [|done]. destruct (half c) as [[[[??]?]?]|]; lia.
  - specialize (Ht eq_refl). cbn [app].
    rewrite mem_string_digit, atoi_digit, digits_value_stops, wrap_small by (done || lia). done.
Qed.

Lemma skip_digits_stops m n : stops m → skip_digits m n = Ret (n, m).
Proof. destruct m as [|c m]; [done|]. cbn [skip_digits stops]. by intros ->. Qed.

Lemma skip_digits_digit d m n : (d < 10)%nat → skip_digits (digit d :: m) n = skip_digits m (S n).
Proof. intros Hd. cbn [skip_digits]. by rewrite (proj1 (digit_facts d Hd)). Qed.

Lemma hour_text_skip c m :
  clock_ok c → stops m →
  ∃ n, skip_digits (hour_text c ++ m) 0 = Ret (n, m) ∧ (n ≤ 2)%nat.
Proof.
  intros (Hh & Ht & _) Hm. unfold hour_text. destruct (two_digits c); cbn [app].
  - assert (hour c < 24)%nat by (destruct (half c) as [[[[??]?]?]|]; lia).
    rewrite !skip_digits_digit, skip_digits_stops; [by eauto with lia|done| |].
    + apply Nat.mod_upper_bound. lia.
    + apply Nat.Div0.div_lt_upper_bound. lia.
  - specialize (Ht eq_refl). rewrite skip_digits_digit, skip_digits_stops; eauto with lia.
Qed.

Lemma RM_WHITE_spaces k c m :
  c ≠ " "%char → RM_WHITE (replicate k " "%char ++ c :: m) = Ret (c :: m).
Proof.
  intros Hc. induction k as [|k IH]; cbn [replicate app RM_WHITE].
  - by rewrite bool_decide_eq_false_2.
  - by rewrite bool_decide_eq_true_2.
Qed.

Lemma RM_WHITE_again m m' : RM_WHITE m = Ret m' → RM_WHITE m' = Ret m'.
Proof.
  induction m as [|c m IH]; [done|]. cbn [RM_WHITE]. case_bool_decide; [done|].
  intros [= <-]. cbn [RM_WHITE]. by rewrite bool_decide_eq_false_2.
Qed.

Lemma c_read_0 {A} (c : A) m : c_read (c :: m) 0 = Ret c.
Proof. done. Qed.

Lemma c_read_1 {A} (c d : A) m : c_read (c :: d :: m) 1 = Ret d.
Proof. done. Qed.

Lemma advance_2 c d m : advance (c :: d :: m) 2 = Ret m.
Proof. unfold advance. by rewrite decide_True by (simpl; lia). Qed.

(** The minutes are read and left behind. *)
Lemma gethour_minutes_text c m :
  clock_ok c → stops m → (minute c = None → c_read m 0 ≠ Ret ":"%char) →
  gethour_minutes (minute_text c ++ m) = Ret (Some (Z.of_nat (default 0%nat (minute c)), m)).
Proof.
  intros (_ & _ & Hmin) Hm Hc. unfold minute_text. destruct (minute c) as [n|] eqn:En.
  - assert (n / 10 < 10)%nat by (apply Nat.Div0.div_lt_upper_bound; lia).
    assert (n mod 10 < 10)%nat by (apply Nat.mod_upper_bound; lia).
    unfold gethour_minutes. cbn [app]. rewrite c_read_0, outcome_bind_ret.
    rewrite bool_decide_eq_true_2, advance_1, outcome_bind_ret by done.
    rewrite c_read_0, outcome_bind_ret.
    rewrite (proj1 (digit_facts (n / 10) ltac:(done))).
    rewrite c_read_1, outcome_bind_ret.
    rewrite (proj1 (digit_facts (n mod 10) ltac:(done))).
    rewrite !outcome_bind_ret. cbn [negb]. rewrite outcome_bind_ret.
    rewrite atoi_two, advance_2, outcome_bind_ret by (done || lia). done.
  - cbn [app default]. destruct m as [|d m]; [done|]. unfold gethour_minutes.
    rewrite c_read_0, outcome_bind_ret.
    rewrite bool_decide_eq_false_2; [done|]. intros ->. by apply Hc.
Qed.

(** What may follow a time: spaces and then a dash or the end. *)
Definition time_end (c : ascii) : Prop := c = "-"%char ∨ c = NUL.

Lemma gethour_half_text c k e r :
  clock_ok c → time_end e →
  ∃ rest,
    (str ← RM_WHITE (half_text c ++ replicate k " "%char ++ e :: r);
     gethour_half str (Z.of_nat (hour c))) = Ret (Some (Z.of_nat (clock_hour c), rest)) ∧
    RM_WHITE rest = Ret (e :: r).
Proof.
  intros (Hh & _) He. unfold half_text, clock_hour.
  assert (e ≠ " "%char) by (by destruct He as [->| ->]).
  destruct (half c) as [[[[k' pm] l1] l2]|].
  - destruct Hh as (Hh & H1 & H2). rewrite <- app_assoc. cbn [app].
    assert (l1 ≠ " "%char) by (destruct pm; intros ->; done).
    rewrite RM_WHITE_spaces, outcome_bind_ret by done.
    eexists. split; [|by apply RM_WHITE_spaces].
    assert (Z.of_nat (hour c mod 12) = if Z.of_nat (hour c) =? 12 then 0 else Z.of_nat (hour c)) as Hm.
    { clear -Hh. revert Hh. generalize (hour c). apply (forall_below _ 13). vm_compute. reflexivity. }
    unfold gethour_half. rewrite c_read_0, outcome_bind_ret. destruct pm.
    + assert (is_char l1 "a" "A" = false) as ->.
      { unfold is_char in *. repeat case_bool_decide; naive_solver. }
      rewrite H1, advance_1, outcome_bind_ret, c_read_0, outcome_bind_ret, H2, <- Hm.
      pose proof (Nat.mod_upper_bound (hour c) 12).
      rewrite (proj2 (Z.ltb_ge _ _)), (proj2 (Z.leb_gt _ _)) by lia. cbn [orb].
      rewrite advance_1, outcome_bind_ret. by rewrite Nat2Z.inj_add.
    + rewrite H1, advance_1, outcome_bind_ret, c_read_0, outcome_bind_ret, H2, <- Hm.
      rewrite advance_1, outcome_bind_ret. by rewrite Nat.add_0_r.
  - cbn [app]. rewrite RM_WHITE_spaces, outcome_bind_ret by done.
    exists (e :: r). split; [|cbn [RM_WHITE]; by rewrite bool_decide_eq_false_2].
    unfold gethour_half. rewrite c_read_0, outcome_bind_ret.
    by destruct He as [->| ->].
Qed.

Lemma put_hour_hhmm t :
  (t < 1440)%nat → put_hour 7 (Z.of_nat (t / 60)) (Z.of_nat (t mod 60)) = Some (hhmm t).
Proof. revert t. apply (forall_below _ 1440). vm_compute. reflexivity. Qed.

Lemma clock_minutes_ok c :
  clock_ok c → (clock_minutes c < 1440 ∧ clock_minutes c / 60 = clock_hour c ∧
    clock_minutes c mod 60 = default 0 (minute c))%nat.
Proof.
  intros (Hh & _ & Hm). unfold clock_minutes.
  assert (clock_hour c < 24)%nat.
  { unfold clock_hour. destruct (half c) as [[[[k pm] ?]?]|]; [|done].
    pose proof (Nat.mod_upper_bound (hour c) 12). destruct pm; lia. }
  assert (default 0 (minute c) < 60)%nat by (destruct (minute c); simpl; lia).
  split_and!; [lia|symmetry; apply Nat.div_unique with (default 0 (minute c))%nat; lia|].
  symmetry; apply Nat.mod_unique with (clock_hour c); lia.
Qed.

(** A time is read into its normal form. *)
Lemma gethour_text c k e r :
  clock_ok c → time_end e →
  ∃ rest, gethour (clock_text c ++ replicate k " "%char ++ e :: r) 7 =
      Ret (Some (rest, hhmm (clock_minutes c))) ∧
    RM_WHITE rest = Ret (e :: r).
Proof.
  intros Hc He. pose proof (clock_minutes_ok c Hc) as (Ht & Hh & Hm).
  set (tail := half_text c ++ replicate k " "%char ++ e :: r).
  assert (stops tail ∧ c_read tail 0 ≠ Ret ":"%char) as [Hst Hnc].
  { unfold tail, half_text. destruct Hc as (Hh' & _).
    destruct (half c) as [[[[k' pm] l1] l2]|].
    - destruct Hh' as (_ & H1 & _). destruct k'; [|done]. cbn.
      unfold is_char in H1. destruct pm; apply orb_true_iff in H1 as [H1|H1];
        apply bool_decide_eq_true in H1 as ->; done.
    - destruct k; [|done]. by destruct He as [->| ->]. }
  assert (stops (minute_text c ++ tail)) as Hst'.
  { unfold minute_text. by destruct (minute c). }
  assert (clock_text c ++ replicate k " "%char ++ e :: r = hour_text c ++ minute_text c ++ tail) as ->.
  { unfold clock_text, tail. by rewrite <- !app_assoc. }
  unfold gethour. rewrite hour_text_value by done.
  assert (hour c < 24)%nat by (destruct Hc as (Hh' & _); destruct (half c) as [[[[??]?]?]|]; lia).
  rewrite (proj2 (Z.ltb_ge _ _)), (proj2 (Z.leb_gt _ _)) by lia. cbn [orb].
  destruct (hour_text_skip c (minute_text c ++ tail) Hc Hst') as (n & -> & Hn). rewrite outcome_bind_ret.
  rewrite (proj2 (Nat.ltb_ge _ _) Hn), gethour_minutes_text, outcome_bind_ret by done.
  destruct (gethour_half_text c k e r Hc He) as (rest & Hr & Hw). fold tail in Hr.
  apply outcome_bind_Ret_inv in Hr as (str & -> & Hr). rewrite outcome_bind_ret, Hr, outcome_bind_ret.
  exists rest. split; [|done]. rewrite <- Hh, <- Hm, put_hour_hhmm by done. done.
Qed.

(** ** Comparing normal forms *)

Lemma digit_compare a b :
  (a < 10)%nat → (b < 10)%nat → Ascii.compare (digit a) (digit b) = Nat.compare a b.
Proof.
  intros Ha Hb.
  do 10 (destruct a as [|a]; [do 10 (destruct b as [|b]; [done|]); lia|]). lia.
Qed.

(** The first difference decides. *)
Lemma strcmp_digit a b s1 s2 :
  (a < 10)%nat → (b < 10)%nat →
  strcmp (String (digit a) s1) (String (digit b) s2) =
    match Nat.compare a b with Eq => strcmp s1 s2 | o => o end.
Proof. intros Ha Hb. unfold strcmp. cbn [String.compare]. by rewrite digit_compare. Qed.

Lemma hhmm_compare a b :
  (a < 1440)%nat → (b < 1440)%nat → strcmp (hhmm a) (hhmm b) = Nat.compare a b.
Proof.
  intros Ha Hb.
  assert (∀ t, (t < 1440)%nat → (t / 60 / 10 < 10 ∧ t / 60 mod 10 < 10 ∧ t mod 60 / 10 < 10 ∧
    t mod 60 mod 10 < 10 ∧
    t = 600 * (t / 60 / 10) + 60 * (t / 60 mod 10) + 10 * (t mod 60 / 10) + t mod 60 mod 10 ∧
    t mod 60 / 10 < 6)%nat) as Hd.
  { apply (forall_below _ 1440). vm_compute. reflexivity. }
  destruct (Hd a Ha) as (?&?&?&?&Ea&?). destruct (Hd b Hb) as (?&?&?&?&Eb&?).
  unfold hhmm. rewrite !strcmp_digit by done.
  assert (∀ s1 s2, strcmp (String ":" s1) (String ":" s2) = strcmp s1 s2) as Hcolon by done.
  rewrite Hcolon, !strcmp_digit by done.
  remember (a / 60 / 10)%nat as a1. remember (a / 60 mod 10)%nat as a2.
  remember (a mod 60 / 10)%nat as a3. remember (a mod 60 mod 10)%nat as a4.
  remember (b / 60 / 10)%nat as b1. remember (b / 60 mod 10)%nat as b2.
  remember (b mod 60 / 10)%nat as b3. remember (b mod 60 mod 10)%nat as b4.
  repeat match goal with
  | |- context [Nat.compare ?x ?y] =>
      lazymatch x with a => fail | _ => destruct (Nat.compare_spec x y) end
  end; symmetry; apply Nat.compare_eq_iff || apply Nat.compare_lt_iff || apply Nat.compare_gt_iff; lia.
Qed.

(** ** The normal form of a range *)

Definition range_form (sign : ascii) (a b : nat) : string := String sign (hhmm a +:+ hhmm b)%string.

Lemma range_form_bounds sign a b :
  str_from (range_form sign a b) 1 = Ret (hhmm a +:+ hhmm b)%string ∧
  str_from (range_form sign a b) 6 = Ret (hhmm b) ∧
  str_trunc 5 (hhmm a +:+ hhmm b)%string = hhmm a ∧ str_trunc 5 (hhmm a) = hhmm a.
Proof. split_and!; done. Qed.

Lemma OS_IsonTime_range sign a b t :
  (a < 1440)%nat → (b < 1440)%nat → (t < 1440)%nat →
  OS_IsonTime (hhmm t) (range_form sign a b) =
    Ret (xorb (bool_decide (sign = "!"%char)) (bool_decide (a ≤ t ≤ b)%nat)).
Proof.
  intros Ha Hb Ht. destruct (range_form_bounds sign a b) as (E1 & E2 & E3 & _).
  unfold OS_IsonTime. rewrite E1, outcome_bind_ret, E2, outcome_bind_ret. unfold strncmp.
  rewrite E3, (proj2 (proj2 (proj2 (range_form_bounds sign t t)))).
  rewrite (proj2 (proj2 (proj2 (range_form_bounds sign b b)))). rewrite !hhmm_compare by done.
  unfold starts_with, range_form. rewrite (bool_decide_ext ("!"%char = sign) (sign = "!"%char)) by done.
  destruct (decide (a ≤ t ≤ b)%nat) as [Hin|Hin];
    [rewrite (bool_decide_eq_true_2 _ Hin)|rewrite (bool_decide_eq_false_2 _ Hin)];
    destruct (Nat.compare_spec t a), (Nat.compare_spec t b); try lia;
    by destruct (bool_decide (sign = "!"%char)).
Qed.

Lemma OS_IsAfterTime_range a b t :
  (a < 1440)%nat → (b < 1440)%nat → (t < 1440)%nat →
  OS_IsAfterTime (hhmm t) (range_form "." a b) = Ret (bool_decide (a ≤ t)%nat).
Proof.
  intros Ha Hb Ht. destruct (range_form_bounds "." a b) as (E1 & _ & E3 & _).
  unfold OS_IsAfterTime. cbn [starts_with range_form]. fold (range_form "." a b).
  rewrite bool_decide_eq_false_2 by done. rewrite E1, outcome_bind_ret. unfold strncmp.
  rewrite E3, (proj2 (proj2 (proj2 (range_form_bounds "." t t)))), hhmm_compare by done.
  f_equal. destruct (Nat.compare_spec t a); symmetry;
    (apply bool_decide_eq_true_2; lia) || (apply bool_decide_eq_false_2; lia).
Qed.

(** A range as the configuration may write it, in a buffer that goes on with
    [junk]; [neg] gives the spaces after a leading exclamation mark. *)
Definition spaces (k : nat) : list ascii := replicate k " "%char.

Definition range_text (neg : option nat) (k0 k1 k2 k3 : nat) (c1 c2 : clock) (junk : list ascii) :
    list ascii :=
  spaces k0 ++ (match neg with Some k => "!"%char :: spaces k | None => [] end) ++
  clock_text c1 ++ spaces k1 ++ "-"%char :: spaces k2 ++ clock_text c2 ++ spaces k3 ++ NUL :: junk.

Lemma clock_text_head c m :
  clock_ok c → ∃ d m', clock_text c ++ m = digit d :: m' ∧ (d < 10)%nat.
Proof.
  intros (Hh & Ht & _). unfold clock_text, hour_text. destruct (two_digits c); cbn [app].
  - eexists _, _. split; [done|]. apply Nat.Div0.div_lt_upper_bound.
    destruct (half c) as [[[[??]?]?]|]; lia.
  - eexists _, _. split; [done|]. by apply Ht.
Qed.

Lemma RM_WHITE_clock k c m : clock_ok c → RM_WHITE (spaces k ++ clock_text c ++ m) = Ret (clock_text c ++ m).
Proof.
  intros Hc. destruct (clock_text_head c m Hc) as (d & m' & -> & Hd).
  apply RM_WHITE_spaces. by apply digit_facts.
Qed.

Lemma valid_time_rest_ok k2 k3 ng first rest c2 junk :
  clock_ok c2 →
  RM_WHITE rest = Ret ("-"%char :: spaces k2 ++ clock_text c2 ++ spaces k3 ++ NUL :: junk) →
  (first < 1440)%nat →
  valid_time_rest rest ng (hhmm first) =
    Ret (Some (if (clock_minutes c2 <? first)%nat then range_form "!" (clock_minutes c2) first
               else range_form (if ng : bool then "!" else ".") first (clock_minutes c2))).
Proof.
  intros Hc Hr Hf. unfold valid_time_rest. rewrite Hr, outcome_bind_ret, c_read_0, outcome_bind_ret.
  rewrite bool_decide_eq_true_2, advance_1, outcome_bind_ret by done.
  rewrite RM_WHITE_clock, outcome_bind_ret by done.
  destruct (gethour_text c2 k3 NUL junk Hc (or_intror eq_refl)) as (rest2 & E & Hw).
  unfold spaces. rewrite E, outcome_bind_ret, Hw, outcome_bind_ret, c_read_0, outcome_bind_ret.
  rewrite bool_decide_eq_true_2 by done. cbn [negb].
  rewrite hhmm_compare by (done || apply clock_minutes_ok, Hc).
  destruct (Nat.compare_spec first (clock_minutes c2)); cbn [is_gt].
  - rewrite (proj2 (Nat.ltb_ge _ _)) by lia. by destruct ng.
  - rewrite (proj2 (Nat.ltb_ge _ _)) by lia. by destruct ng.
  - rewrite (proj2 (Nat.ltb_lt _ _)) by lia. done.
Qed.

Lemma OS_IsValidTime_text neg k0 k1 k2 k3 c1 c2 junk :
  clock_ok c1 → clock_ok c2 →
  OS_IsValidTime (Some (range_text neg k0 k1 k2 k3 c1 c2 junk)) =
    Ret (Some (if (clock_minutes c2 <? clock_minutes c1)%nat
               then range_form "!" (clock_minutes c2) (clock_minutes c1)
               else range_form (if neg is Some _ then "!" else ".") (clock_minutes c1) (clock_minutes c2))).
Proof.
  intros H1 H2. unfold OS_IsValidTime, range_text.
  destruct (gethour_text c1 k1 "-" (spaces k2 ++ clock_text c2 ++ spaces k3 ++ NUL :: junk) H1
    (or_introl eq_refl)) as (rest & E & Hw). fold (spaces k1) in E.
  pose proof (clock_minutes_ok c1 H1) as (Hm & _).
  destruct neg as [k|]; cbn [app].
  - unfold spaces at 1. rewrite RM_WHITE_spaces, outcome_bind_ret, c_read_0, outcome_bind_ret by done.
    rewrite bool_decide_eq_true_2, advance_1, outcome_bind_ret by done.
    rewrite RM_WHITE_clock, !outcome_bind_ret, E, outcome_bind_ret by done.
    by apply (valid_time_rest_ok k2 k3 true _ _ _ junk).
  - rewrite RM_WHITE_clock, outcome_bind_ret by done.
    destruct (clock_text_head c1 (spaces k1 ++ "-"%char :: spaces k2 ++ clock_text c2 ++ spaces k3 ++
      NUL :: junk) H1) as (d & m' & Ht & Hd).
    rewrite Ht, c_read_0, outcome_bind_ret.
    rewrite bool_decide_eq_false_2 by (by apply digit_facts).
    rewrite outcome_bind_ret, <- Ht, E, outcome_bind_ret.
    by apply (valid_time_rest_ok k2 k3 false _ _ _ junk).
Qed.

(** ** Lists of days as text *)

Fixpoint lower (s : string) : string :=
  match s with EmptyString => EmptyString | String c s => String (tolower c) (lower s) end.

(** Nothing, or a separator first. *)
Definition sep_start (s : string) : bool :=
  match s with EmptyString => true | String c _ => IS_SEP c end.

Lemma after_name_app w rest : after_name (lower w) (w +:+ rest)%string = Some rest.
Proof.
  induction w as [|c w IH]; [done|].
  change ((String c w +:+ rest)%string) with (String c (w +:+ rest)%string).
  cbn [lower after_name]. by rewrite bool_decide_eq_true_2.
Qed.

(** A name is compared with the letters of the text in lower case. *)
Fixpoint is_prefix (name s : string) : bool :=
  match name, s with
  | EmptyString, _ => true
  | String n name, String c s => bool_decide (c = n) && is_prefix name s
  | String _ _, EmptyString => false
  end.

Lemma after_name_None name s : is_prefix name (lower s) = false → after_name name s = None.
Proof.
  revert s. induction name as [|n name IH]; intros [|c s]; cbn; try done.
  destruct (bool_decide (tolower c = n)); [apply IH|done].
Qed.

Lemma lower_app s1 s2 : lower (s1 +:+ s2)%string = (lower s1 +:+ lower s2)%string.
Proof. induction s1 as [|c s1 IH]; [done|]. exact (f_equal (String (tolower c)) IH). Qed.

(** No earlier name of the table is a prefix of a name that ends here. *)
Definition unambiguous (l : list (string * nat)) (name : string) : Prop :=
  ∀ rest, sep_start rest = true →
    Forall (λ x, is_prefix (fst x) (name +:+ lower rest)%string = false) l.

Lemma find_day_app pre name v post w rest :
  unambiguous pre name → lower w = name → sep_start rest = true →
  find_day (pre ++ (name, v) :: post) (w +:+ rest)%string = Some (v, rest).
Proof.
  intros Hu Hw Hr. specialize (Hu rest Hr). subst name.
  induction pre as [|[n u] pre IH]; cbn [app find_day].
  - by rewrite after_name_app.
  - apply Forall_cons in Hu as [Hn Hu]. cbn [fst] in Hn. rewrite <- lower_app in Hn.
    rewrite (after_name_None _ _ Hn). by apply IH.
Qed.

Ltac unambiguous_solve :=
  let r := fresh "r" in let c := fresh "c" in let Hrest := fresh "Hrest" in
  intros r Hrest; destruct r as [|c r];
  [repeat constructor|
   cbn [sep_start] in Hrest; unfold IS_SEP in Hrest; apply orb_true_iff in Hrest as [E|E];
   apply bool_decide_eq_true in E as ->; repeat constructor].

Lemma find_day_name name v w rest :
  (name, v) ∈ days → lower w = name → sep_start rest = true →
  find_day days (w +:+ rest)%string = Some (v, rest).
Proof.
  intros Hin Hw Hr. apply list_elem_of_lookup in Hin as [i Hi].
  assert (unambiguous (take i days) name) as Hu.
  { do 16 (destruct i as [|i]; [injection Hi as <- <-; unambiguous_solve|]). done. }
  rewrite <- (take_drop_middle days i (name, v) Hi). by apply find_day_app.
Qed.

(** The days a name stands for. *)
Definition day_selected (v d : nat) : bool :=
  if (v =? 7)%nat then (1 <=? d)%nat && (d <=? 5)%nat
  else if (v =? 8)%nat then (d =? 0)%nat || (d =? 6)%nat
  else (d =? v)%nat.

Lemma mark_day_lookup v l d :
  (v < 9)%nat → length l = 9%nat → (d < 7)%nat →
  mark_day v l !! d = if day_selected v d then Some 1 else l !! d.
Proof.
  intros Hv Hl Hd.
  do 9 (destruct l as [|? l]; [done|]). destruct l; [|done].
  do 9 (destruct v as [|v]; [do 7 (destruct d as [|d]; [done|]); lia|]). lia.
Qed.

Lemma length_mark_day v l : length (mark_day v l) = length l.
Proof. unfold mark_day. repeat case_match; by rewrite !length_insert. Qed.

(** A list of names, each with the separators after it. *)
Fixpoint day_text (l : list (string * string)) : string :=
  match l with [] => EmptyString | (w, sep) :: l => (w +:+ sep +:+ day_text l)%string end.

Fixpoint all_sep (s : string) : bool :=
  match s with EmptyString => true | String c s => IS_SEP c && all_sep s end.

(** The names are those of the table, in any case, and separated. *)
Fixpoint day_list_ok (l : list (string * string)) (vs : list nat) : Prop :=
  match l, vs with
  | [], [] => True
  | (w, sep) :: l', v :: vs' =>
      (lower w, v) ∈ days ∧ all_sep sep = true ∧ (l' ≠ [] → sep ≠ EmptyString) ∧ day_list_ok l' vs'
  | _, _ => False
  end.

Lemma days_values name v : (name, v) ∈ days → (v < 9)%nat.
Proof.
  revert name v. assert (Forall (λ x : string * nat, (snd x < 9)%nat) days) as H.
  { vm_compute. repeat constructor. }
  rewrite Forall_forall in H. intros name v Hin. by apply (H (name, v)).
Qed.

Definition is_lower (c : ascii) : bool :=
  let n := nat_of_ascii c in (97 <=? n)%nat && (n <=? 122)%nat.

Lemma lower_letter c :
  is_lower (tolower c) = true → IS_SEP c = false ∧ c ≠ "!"%char ∧ c ≠ " "%char.
Proof. destruct c as [[] [] [] [] [] [] [] []]; intros H; try discriminate H; by vm_compute. Qed.

Lemma word_head w v :
  (lower w, v) ∈ days → ∃ c w', w = String c w' ∧ IS_SEP c = false ∧ c ≠ "!"%char ∧ c ≠ " "%char.
Proof.
  assert (Forall (λ x : string * nat,
    match fst x with String c _ => is_lower c | EmptyString => false end = true) days) as H.
  { vm_compute. repeat constructor. }
  rewrite Forall_forall in H. intros Hin. apply H in Hin. cbn [fst] in Hin.
  destruct w as [|c w]; [done|]. exists c, w. split; [done|]. by apply lower_letter.
Qed.

Lemma RM_SEP_app sep s :
  all_sep sep = true → (sep_start s = false ∨ s = EmptyString) → RM_SEP (sep +:+ s)%string = s.
Proof.
  intros Hs Hr. induction sep as [|c sep IH].
  - destruct s as [|c s]; [done|]. destruct Hr as [Hr|]; [|done]. cbn [sep_start] in Hr. change (("" +:+ String c s)%string) with (String c s). cbn [RM_SEP]. by rewrite Hr.
  - change ((String c sep +:+ s)%string) with (String c (sep +:+ s)%string).
    cbn [all_sep] in Hs. apply andb_true_iff in Hs as [Hc Hs]. cbn [RM_SEP]. rewrite Hc. by apply IH.
Qed.

Lemma day_text_start l vs :
  day_list_ok l vs → sep_start (day_text l) = false ∨ day_text l = EmptyString.
Proof.
  destruct l as [|[w sep] l]; [by right|]. destruct vs as [|v vs]; [done|].
  intros (Hin & _). destruct (word_head w v Hin) as (c & w' & -> & Hc & _). by left.
Qed.

(** The loop marks the days of all names, and the length of the text is enough
    fuel. *)
Lemma days_loop_ok l vs fuel day_ret :
  day_list_ok l vs → length day_ret = 9%nat → (String.length (day_text l) ≤ fuel)%nat →
  ∃ day_ret', days_loop fuel (day_text l) day_ret = Ret (Some day_ret') ∧
    length day_ret' = 9%nat ∧
    ∀ d, (d < 7)%nat → day_ret' !! d = if existsb (λ v, day_selected v d) vs then Some 1 else day_ret !! d.
Proof.
  revert vs fuel day_ret. induction l as [|[w sep] l IH]; intros [|v vs] fuel day_ret Hl Hlen Hf; try done.
  { exists day_ret. by destruct fuel. }
  destruct Hl as (Hin & Hsep & Hne & Hl).
  destruct (word_head w v Hin) as (c & w' & Hw & Hc & _).
  assert (∃ t, day_text ((w, sep) :: l) = String c t) as [t Et].
  { exists (w' +:+ sep +:+ day_text l)%string. by rewrite Hw. }
  rewrite Et in Hf. destruct fuel as [|fuel]; [simpl in Hf; lia|].
  assert (sep_start (sep +:+ day_text l)%string = true) as Hst.
  { destruct sep as [|c0 sep]; [|cbn in Hsep; by apply andb_true_iff in Hsep as [? _]].
    destruct l; [done|]. by destruct (Hne ltac:(done)). }
  rewrite Et. cbn [days_loop]. rewrite <- Et. cbn [day_text].
  rewrite (find_day_name (lower w) v) by done.
  assert (∀ d, (d < 7)%nat → mark_day v day_ret !! d = if day_selected v d then Some 1 else day_ret !! d)
    as Hmark by (intros; apply mark_day_lookup; [by eapply days_values|done..]).
  destruct (sep +:+ day_text l)%string as [|c0 rest] eqn:Er.
  - assert (l = [] ∧ vs = []) as [-> ->].
    { destruct l as [|[w2 sep2] l]; [by destruct vs|]. exfalso. destruct vs as [|v2 vs]; [done|].
      destruct Hl as (Hin2 & _). destruct (word_head w2 v2 Hin2) as (c2 & w2' & -> & _).
      by destruct sep. }
    exists (mark_day v day_ret). split; [done|]. rewrite length_mark_day. split; [done|].
    intros d Hd. rewrite Hmark by done. cbn. by rewrite orb_false_r.
  - cbn [sep_start] in Hst. rewrite Hst, <- Er, RM_SEP_app by (done || by eapply day_text_start).
    destruct (IH vs fuel (mark_day v day_ret) Hl) as (dr & E & Hdl & Hd); [by rewrite length_mark_day| |].
    { enough (String.length (day_text ((w, sep) :: l)) ≤ S fuel)%nat as Hf'.
      { cbn [day_text] in Hf'. rewrite !append_length, Hw in Hf'. cbn [String.length] in Hf'. lia. }
      by rewrite Et. }
    exists dr. split_and!; [done|done|]. intros d Hdlt. rewrite Hd, Hmark by done. cbn [existsb].
    destruct (day_selected v d), (existsb _ vs); done.
Qed.

(** A range of two times in any of the accepted formats (12 or 24 hours, with
    or without minutes, spaces anywhere) is brought to a form for which
    [OS_IsonTime] holds exactly inside the range, or exactly outside it after an
    exclamation mark.  When the first time is the later one the form is the
    complement of the reversed range whether or not there is an exclamation mark:
    the negation is lost and both ends are left out. *)
Theorem time_range_matches neg k0 k1 k2 k3 c1 c2 junk :
  clock_ok c1 → clock_ok c2 →
  ∃ r, OS_IsValidTime (Some (range_text neg k0 k1 k2 k3 c1 c2 junk)) = Ret (Some r) ∧
    ∀ t, (t < 1440)%nat →
      OS_IsonTime (hhmm t) r = Ret
        (if (clock_minutes c2 <? clock_minutes c1)%nat
         then bool_decide (t < clock_minutes c2 ∨ clock_minutes c1 < t)%nat
         else xorb (bool_decide (is_Some neg))
                (bool_decide (clock_minutes c1 ≤ t ≤ clock_minutes c2)%nat)).
Proof.
  intros H1 H2. rewrite OS_IsValidTime_text by done. eexists. split; [done|]. intros t Ht.
  destruct (clock_minutes_ok c1 H1) as (Hm1 & _), (clock_minutes_ok c2 H2) as (Hm2 & _).
  destruct (Nat.ltb_spec (clock_minutes c2) (clock_minutes c1)).
  - rewrite OS_IsonTime_range by done. f_equal. rewrite (bool_decide_eq_true_2 (_ = _)) by done.
    rewrite xorb_true_l, <- bool_decide_not. apply bool_decide_ext. lia.
  - rewrite OS_IsonTime_range by done. by destruct neg.
Qed.

Definition quarter_past_nine_pm : clock :=
  {| hour := 9; two_digits := false; minute := Some 15%nat; half := Some (1%nat, true, "p"%char, "M"%char) |}.
Definition six : clock := {| hour := 6; two_digits := true; minute := None; half := None |}.

Lemma quarter_past_nine_pm_ok : clock_ok quarter_past_nine_pm.
Proof. unfold clock_ok. cbn. split_and!; intros; (done || lia). Qed.

Lemma six_ok : clock_ok six.
Proof. unfold clock_ok. cbn. split_and!; intros; (done || lia). Qed.

Lemma time_range_matches_witness :
  (∃ r, OS_IsValidTime (Some (c_str " 06 - 9:15 pM")) = Ret (Some r) ∧
    OS_IsonTime "06:00" r = Ret true ∧ OS_IsonTime "21:16" r = Ret false) ∧
  (∃ r, OS_IsValidTime (Some (c_str "!9:15 pM-06")) = Ret (Some r) ∧
    OS_IsonTime "23:30" r = Ret true ∧ OS_IsonTime "21:15" r = Ret false).
Proof.
  split.
  - destruct (time_range_matches None 1 1 1 0 six quarter_past_nine_pm [] six_ok quarter_past_nine_pm_ok)
      as (r & E & H).
    exists r. split; [exact E|]. split; [apply (H 360%nat); lia|apply (H 1276%nat); lia].
  - destruct (time_range_matches (Some 0%nat) 0 0 0 0 quarter_past_nine_pm six [] quarter_past_nine_pm_ok six_ok)
      as (r & E & H).
    exists r. split; [exact E|]. split; [apply (H 1410%nat); lia|apply (H 1275%nat); lia].
Defined.

(** ** The scan time and the scan days *)

Lemma chars_app s1 s2 : chars (s1 +:+ s2)%string = chars s1 ++ chars s2.
Proof. induction s1 as [|c s1 IH]; [done|]. exact (f_equal (cons c) IH). Qed.

Lemma OS_IsValidUniqueTime_text s c :
  clock_ok c → chars s = clock_text c → (String.length s ≤ 63)%nat →
  OS_IsValidUniqueTime s = Ret (Some (range_form "." (clock_minutes c) (clock_minutes c))).
Proof.
  intros Hc Hs Hl. unfold OS_IsValidUniqueTime.
  destruct (clock_text_head c [] Hc) as (d & m' & Ht & Hd). rewrite app_nil_r, <- Hs in Ht.
  assert (starts_with "!" s = false) as ->.
  { destruct s as [|c0 s]; [done|]. injection Ht as -> _. cbn. apply bool_decide_eq_false_2.
    intros E. by apply (digit_facts d Hd). }
  rewrite snprintf_fits by (rewrite !append_length; cbn [String.length]; lia). cbn [fst].
  pose proof (OS_IsValidTime_text None 0 0 0 0 c c
    (replicate (128 - String.length (s +:+ "-" +:+ s)%string) NUL) Hc Hc) as E.
  rewrite Nat.ltb_irrefl in E. rewrite <- E. f_equal. f_equal.
  unfold range_text. cbn [spaces replicate app]. rewrite !chars_app, !append_length, <- Hs.
  cbn [chars String.length app]. rewrite <- app_assoc. f_equal. cbn [app]. f_equal. f_equal.
  replace (129 - (String.length s + (1 + String.length s)))%nat
    with (S (128 - (String.length s + (1 + String.length s)))) by lia. done.
Qed.

Lemma skip_blanks_word k c s :
  c ≠ " "%char →
  skip_blanks (foldr String (String c s) (replicate k " "%char)) = String c s.
Proof.
  intros Hc. induction k as [|k IH]; [|done]. cbn.
  destruct c as [[] [] [] [] [] [] [] []]; done.
Qed.

Lemma day_selects_one v : (v < 9)%nat → existsb (day_selected v) (seq 0 7) = true.
Proof. revert v. apply (forall_below _ 9). vm_compute. reflexivity. Qed.

Lemma OS_IsValidDay_text k l vs :
  day_list_ok l vs → l ≠ [] →
  ∃ dr,
    OS_IsValidDay (Some (foldr String (day_text l) (replicate k " "%char))) = Ret (Some (take 7 dr ++ [0; 0])) ∧
    length dr = 9%nat ∧
    ∀ d, (d < 7)%nat → dr !! d = Some (if existsb (λ v, day_selected v d) vs then 1 else 0).
Proof.
  intros Hl Hne.
  destruct (days_loop_ok l vs (String.length (day_text l)) (replicate 9 0) Hl) as (dr & E & Hdl & Hd);
    [done|done|].
  destruct l as [|[w sep] l]; [done|]. destruct vs as [|v vs]; [done|].
  pose proof Hl as (Hin & _). destruct (word_head w v Hin) as (c0 & w' & Hw & _ & Hb & Hsp).
  assert (∃ t, day_text ((w, sep) :: l) = String c0 t) as [t Et].
  { exists (w' +:+ sep +:+ day_text l)%string. by rewrite Hw. }
  exists dr. split_and!; [|done|].
  - pose proof (day_selects_one v (days_values _ _ Hin)) as (d0 & Hd0 & Hsel)%existsb_exists.
    apply list_elem_of_In, elem_of_seq in Hd0 as [_ Hd0].
    unfold OS_IsValidDay. rewrite Et, skip_blanks_word by done.
    cbn [starts_with]. rewrite bool_decide_eq_false_2 by congruence. rewrite <- Et, E, outcome_bind_ret.
    assert (existsb (Z.eqb 1) (take 7 dr) = true) as ->; [|done].
    apply existsb_exists. exists 1. split; [|done]. apply list_elem_of_In, list_elem_of_lookup.
    exists d0. rewrite lookup_take_lt, Hd by done. cbn [existsb]. by rewrite Hsel.
  - intros d Hdlt. rewrite Hd by done. destruct (existsb _ _); [done|].
    by rewrite lookup_replicate_2 by lia.
Qed.

Lemma OS_IsonDay_form dr d (b : bool) :
  length dr = 9%nat → (d < 7)%nat → dr !! d = Some (if b then 1 else 0) →
  OS_IsonDay (Z.of_nat d) (take 7 dr ++ [0; 0]) = Ret b.
Proof.
  intros Hdl Hd Hx. unfold OS_IsonDay.
  assert (length (take 7 dr) = 7%nat) as H7 by (rewrite length_take; lia).
  assert ((take 7 dr ++ [0; 0]) !! 7%nat = Some 0) as E7 by (rewrite lookup_app_r by lia; by rewrite H7).
  assert ((take 7 dr ++ [0; 0]) !! d = Some (if b then 1 else 0)) as Ed.
  { rewrite lookup_app_l by lia. by rewrite lookup_take_lt. }
  rewrite (c_read_Some _ _ _ E7), outcome_bind_ret, (proj2 (Z.ltb_ge _ _)), (proj2 (Z.ltb_ge _ _)) by lia. cbn [orb].
  rewrite Nat2Z.id, (c_read_Some _ _ _ Ed), outcome_bind_ret. by destruct b.
Qed.

(** C39: A scan time in any of the accepted formats, and a list of day names in any
    case separated by commas and spaces, are accepted, and [OS_IsAfterTime] and
    [OS_IsonDay] then hold exactly from that minute of the day on and exactly on
    the days named (with weekdays and weekends standing for theirs). *)
Theorem scan_schedule_matches s c k l vs :
  clock_ok c → chars s = clock_text c → (String.length s ≤ 63)%nat →
  day_list_ok l vs → l ≠ [] →
  ∃ r days,
    OS_IsValidUniqueTime s = Ret (Some r) ∧
    OS_IsValidDay (Some (foldr String (day_text l) (replicate k " "%char))) = Ret (Some days) ∧
    (∀ t, (t < 1440)%nat → OS_IsAfterTime (hhmm t) r = Ret (bool_decide (clock_minutes c ≤ t)%nat)) ∧
    ∀ d, (d < 7)%nat → OS_IsonDay (Z.of_nat d) days = Ret (existsb (λ v, day_selected v d) vs).
Proof.
  intros Hc Hs Hlen Hl Hne. destruct (clock_minutes_ok c Hc) as (Hm & _).
  destruct (OS_IsValidDay_text k l vs Hl Hne) as (dr & E & Hdl & Hd).
  eexists _, _. split_and!; [by apply OS_IsValidUniqueTime_text|exact E| |].
  - intros t Ht. by apply OS_IsAfterTime_range.
  - intros d Hdlt. by apply OS_IsonDay_form, Hd.
Qed.

Lemma scan_schedule_matches_witness : ∃ r days,
  OS_IsValidUniqueTime "9:15 pM" = Ret (Some r) ∧
  OS_IsValidDay (Some " Mon, weekends"%string) = Ret (Some days) ∧
  OS_IsAfterTime "21:15" r = Ret true ∧ OS_IsAfterTime "09:15" r = Ret false ∧
  OS_IsonDay 1 days = Ret true ∧ OS_IsonDay 6 days = Ret true ∧ OS_IsonDay 2 days = Ret false.
Proof.
  destruct (scan_schedule_matches "9:15 pM" quarter_past_nine_pm 1
    [("Mon", ", "); ("weekends", "")]%string [1; 8]%nat) as (r & days & E1 & E2 & H1 & H2).
  - exact quarter_past_nine_pm_ok.
  - reflexivity.
  - vm_compute. lia.
  - cbn. split_and!; try done; vm_compute; repeat first [by left|right].
  - done.
  - exists r, days. split; [exact E1|]. split; [exact E2|].
    split; [apply (H1 1275%nat); lia|]. split; [apply (H1 555%nat); lia|].
    split; [apply (H2 1%nat); lia|]. split; [apply (H2 6%nat); lia|apply (H2 2%nat); lia].
Defined.

(** A list of days after an exclamation mark is always refused: the mark is not
    skipped, and no name starts with it. *)
Lemma negated_days_refused s : OS_IsValidDay (Some (String "!" s)) = Ret None.
Proof. done. Qed.

(** A time that ends right after its colon, or one digit later, makes the parser
    step over the end of its text. *)
Lemma short_minutes_overrun :
  OS_IsValidTime (Some (c_str "10:")) = Stuck OutOfBounds ∧
  OS_IsValidTime (Some (c_str "09:00-10:5")) = Stuck OutOfBounds.
Proof. done. Qed.
