(* ===== verification/KeyStore.v ===== *)
(** * The key store (shared/os_crypto/shared/keys.c, shared/include/sec.h)

    The agents known to the manager: an array of pointers to entries with one more
    entry after the last agent, and three dictionaries from the identifier, the
    address and the socket of an agent to the same entries.  The entries live in a
    heap of their own, so that a dictionary may hold a pointer to an entry that has
    been freed, and the theorems show when it does not.  The dictionaries are any
    implementation of the class [StrMap]; [RBTree] is the one the code uses.

    MD5, PCRE2 and [inet_pton] are parameters, and so are the contents of the key
    file and the results of the calls that write it. *)

From Stdlib Require Import Lia ZArith Ascii String.
From stdpp Require Import base numbers list gmap strings pretty.
From S2P Require Import Prelude LinkedQueue CString StrMap RBTree IpAddr.

#[local] Open Scope list_scope.
#[local] Open Scope Z_scope.

Definition KEYSIZE : nat := 128.
Definition OS_BUFFER_SIZE : nat := 2048.

Definition OS_ADDSOCKET_ERROR : Z := 0.
Definition OS_ADDSOCKET_KEY_UPDATED : Z := 1.
Definition OS_ADDSOCKET_KEY_ADDED : Z := 2.

Inductive key_mode_t : Type := W_RAW_KEY | W_ENCRYPTION_KEY | W_DUAL_KEY.

#[export] Instance key_mode_eq_dec : EqDecision key_mode_t.
Proof. solve_decision. Defined.

Definition has_raw_key (m : key_mode_t) : bool :=
  match m with W_RAW_KEY | W_DUAL_KEY => true | W_ENCRYPTION_KEY => false end.

Definition has_encryption_key (m : key_mode_t) : bool :=
  match m with W_ENCRYPTION_KEY | W_DUAL_KEY => true | W_RAW_KEY => false end.

(** A pointer to a string or an address is [None] when it is [NULL]; [peer_info] is
    the bytes of the socket address. *)
Record keyentry : Type := mk_keyentry {
  rcvd : Z;
  local : Z;
  keyid : nat;
  global : Z;
  updating_time : Z;
  id : option string;
  raw_key : option string;
  encryption_key : option string;
  name : option string;
  post_startup : bool;
  inode : Z;
  kip : option os_ip;
  sock : Z;
  net_protocol : Z;
  time_added : Z;
  peer_info : list Z;
  fp : option Z;
  crypto_method : Z;
  rids_node : option loc
}.

(** [calloc]. *)
Definition keyentry_zero : keyentry :=
  mk_keyentry 0 0 0 0 0 None None None None false 0 None 0 0 0 [] None 0 None.

Definition set_keyid (e : keyentry) (i : nat) : keyentry :=
  mk_keyentry (rcvd e) (local e) i (global e) (updating_time e) (id e) (raw_key e)
    (encryption_key e) (name e) (post_startup e) (inode e) (kip e) (sock e) (net_protocol e)
    (time_added e) (peer_info e) (fp e) (crypto_method e) (rids_node e).

Definition set_sock (e : keyentry) (s : Z) : keyentry :=
  mk_keyentry (rcvd e) (local e) (keyid e) (global e) (updating_time e) (id e) (raw_key e)
    (encryption_key e) (name e) (post_startup e) (inode e) (kip e) s (net_protocol e)
    (time_added e) (peer_info e) (fp e) (crypto_method e) (rids_node e).

(** What [move_netdata] takes over from the entry [o]. *)
Definition set_netdata (e o : keyentry) : keyentry :=
  mk_keyentry (rcvd o) (local e) (keyid e) (global e) (updating_time e) (id e) (raw_key e)
    (encryption_key e) (name e) (post_startup e) (inode e) (kip e) (sock o) (net_protocol e)
    (time_added e) (peer_info o) (fp e) (crypto_method e) (rids_node e).

Definition str_sock (s : Z) : string := pretty s.

(** What is before the first [c], and what is after it if there is one. *)
Fixpoint split_char (c : ascii) (s : string) : string * option string :=
  match s with
  | EmptyString => (EmptyString, None)
  | String d s =>
      if bool_decide (d = c) then (EmptyString, Some s)
      else let '(t, r) := split_char c s in (String d t, r)
  end.

(** What follows the digits at the start. *)
Fixpoint skip_number (s : string) : string :=
  match s with
  | String c s' => if is_digit c then skip_number s' else s
  | EmptyString => s
  end.

Section keystore.
Context {T : Type} `{StrMap loc T}.
Context (md5 : string → string).
Context (pcre : string → string → option (list string)).
Context (inet_pton4 inet_pton6 : string → option (list Z)).
(** [malloc] gives an address that depends on those in use; [uninit] is what a
    cell added by [realloc] holds. *)
Context (malloc : gset loc → loc) (uninit : nat → option loc).

(** The memory the operations share: the entries and the table of netmasks. *)
Record kmem : Type := mk_kmem {
  kheap : gmap loc keyentry;
  kmasks : mask_table
}.

Record keystore : Type := mk_keystore {
  keyentries : list (option loc);
  keytree_id : T;
  keytree_ip : T;
  keytree_sock : T;
  keysize : nat;
  file_change : Z;
  ks_inode : Z;
  id_counter : Z;
  key_mode : key_mode_t;
  save_removed : bool;
  removed_keys : list string
}.

Definition set_counter (ks : keystore) (c : Z) : keystore :=
  mk_keystore (keyentries ks) (keytree_id ks) (keytree_ip ks) (keytree_sock ks) (keysize ks)
    (file_change ks) (ks_inode ks) c (key_mode ks) (save_removed ks) (removed_keys ks).

Definition set_keytree_sock (ks : keystore) (t : T) : keystore :=
  mk_keystore (keyentries ks) (keytree_id ks) (keytree_ip ks) t (keysize ks)
    (file_change ks) (ks_inode ks) (id_counter ks) (key_mode ks) (save_removed ks) (removed_keys ks).

Definition set_heap (m : kmem) (h : gmap loc keyentry) : kmem := mk_kmem h (kmasks m).

(** [keys->keyentries[i]], dereferenced. *)
Definition entry_at (m : kmem) (ks : keystore) (i : nat) : outcome (loc * keyentry) :=
  p ← c_read (keyentries ks) i;
  l ← c_deref p;
  e ← c_deref (kheap m !! l);
  Ret (l, e).

Definition save_removed_key (ks : keystore) (key : string) : keystore :=
  mk_keystore (keyentries ks) (keytree_id ks) (keytree_ip ks) (keytree_sock ks) (keysize ks)
    (file_change ks) (ks_inode ks) (id_counter ks) (key_mode ks) (save_removed ks)
    (removed_keys ks ++ [key]).

(** ** Adding a key *)

(** The symmetric key made of the name, the identifier and the key. *)
Definition final_key (id name key : string) : string :=
  let filesum1 := md5 name in
  let filesum2 := md5 id in
  let _finalstr := fst (snprintf KEYSIZE (filesum1 +:+ filesum2)) in
  let filesum1 := str_trunc 15 (md5 _finalstr) in
  let filesum2 := md5 key in
  fst (snprintf KEYSIZE (filesum2 +:+ filesum1)).

(** The text of the address up to the first slash. *)
Definition cut_slash (a : os_ip) : os_ip :=
  {| ip := fst (split_char "/" (ip a)); obj := obj a; is_ipv6 := is_ipv6 a |}.

Definition new_entry (mode : key_mode_t) (i : nat) (id name : string) (a : os_ip) (key : string)
    (time_added : Z) : keyentry :=
  mk_keyentry 0 0 i 0 0 (Some id) (if has_raw_key mode then Some key else None)
    (if has_encryption_key mode then Some (final_key id name key) else None) (Some name) false 0
    (Some a) (-1) 0 time_added [] None 0 None.

(** [None] is [merror_exit]: the process ends. *)
Definition OS_AddKey (m : kmem) (ks : keystore) (id name ip_ key : string) (time_added : Z) :
    outcome (option (kmem * keystore * nat)) :=
  let arr := c_realloc uninit (keyentries ks) (keysize ks + 2) in
  sender ← c_read arr (keysize ks);
  arr ← c_write arr (keysize ks + 1) sender;
  let p := malloc (dom (kheap m)) in
  arr ← c_write arr (keysize ks) (Some p);
  '(tree_id, _) ← sm_insert (keytree_id ks) id (Some p);
  '(g, ret, a) ← OS_IsValidIP pcre inet_pton4 inet_pton6 (kmasks m) (Some ip_) true;
  if ret =? 0 then Ret None
  else
    a ← c_deref a;
    let a := cut_slash a in
    '(tree_ip, _) ← sm_insert (keytree_ip ks) (ip a) (Some p);
    let e := new_entry (key_mode ks) (keysize ks) id name a key time_added in
    Ret (Some (mk_kmem (<[p := e]> (kheap m)) g,
      mk_keystore arr tree_id tree_ip (keytree_sock ks) (keysize ks + 1) (file_change ks)
        (ks_inode ks) (id_counter ks) (key_mode ks) (save_removed ks) (removed_keys ks),
      keysize ks)).

(** ** Looking an agent up *)

Definition keyid_of (m : kmem) (p : option loc) : outcome Z :=
  match p with
  | Some l => e ← c_deref (kheap m !! l); Ret (Z.of_nat (keyid e))
  | None => Ret (-1)
  end.

Definition OS_IsAllowedIP (m : kmem) (ks : keystore) (srcip : option string) : outcome Z :=
  match srcip with
  | None => Ret (-1)
  | Some s => keyid_of m (sm_get (keytree_ip ks) s)
  end.

Definition OS_IsAllowedID (m : kmem) (ks : keystore) (id : option string) : outcome Z :=
  match id with
  | None => Ret (-1)
  | Some s => keyid_of m (sm_get (keytree_id ks) s)
  end.

(** The loop over the agents from [i] on. *)
Fixpoint name_loop (m : kmem) (ks : keystore) (name_ : string) (n i : nat) : outcome Z :=
  match n with
  | O => Ret (-1)
  | S n =>
      '(_, e) ← entry_at m ks i;
      nm ← c_deref (name e);
      match strcmp nm name_ with
      | Eq => Ret (Z.of_nat i)
      | _ => name_loop m ks name_ n (S i)
      end
  end.

Definition OS_IsAllowedName (m : kmem) (ks : keystore) (name_ : string) : outcome Z :=
  name_loop m ks name_ (keysize ks) 0.

Definition OS_IsAllowedDynamicID (m : kmem) (ks : keystore) (id : option string) (srcip : string) :
    outcome Z :=
  match id with
  | None => Ret (-1)
  | Some s =>
      match sm_get (keytree_id ks) s with
      | None => Ret (-1)
      | Some l =>
          e ← c_deref (kheap m !! l);
          a ← c_deref (kip e);
          found ← OS_IPFound inet_pton4 inet_pton6 srcip a;
          if found : bool then Ret (Z.of_nat (keyid e)) else Ret (-1)
      end
  end.

Definition w_get_agent_net_protocol_from_keystore (m : kmem) (ks : keystore) (agent_id : string) :
    outcome Z :=
  key_id ← OS_IsAllowedID m ks (Some agent_id);
  if 0 <=? key_id then '(_, e) ← entry_at m ks (Z.to_nat key_id); Ret (net_protocol e)
  else Ret key_id.

(** ** Deleting a key *)

Definition OS_FreeKey (m : kmem) (l : loc) : outcome kmem :=
  _ ← c_deref (kheap m !! l); Ret (set_heap m (delete l (kheap m))).

(** The line of a removed agent. *)
Definition removed_line (e : keyentry) : outcome string :=
  i ← c_deref (id e); n ← c_deref (name e); a ← c_deref (kip e); k ← c_deref (raw_key e);
  Ret (fst (snprintf OS_BUFFER_SIZE (i +:+ " !" +:+ n +:+ " " +:+ ip a +:+ " " +:+ k)%string)).

(** The last agent moves to position [i], and the extra entry behind it down. *)
Definition close_gap (m : kmem) (arr : list (option loc)) (n i : nat) :
    outcome (kmem * list (option loc)) :=
  '(m, arr) ← (if (i <? n)%nat then
      p ← c_read arr n;
      arr ← c_write arr i p;
      l ← c_deref p;
      e ← c_deref (kheap m !! l);
      Ret (set_heap m (<[l := set_keyid e i]> (kheap m)), arr)
    else Ret (m, arr));
  sender ← c_read arr (n + 1);
  arr ← c_write arr n sender;
  Ret (m, arr).

(** The agent [id_] with entry [e] at [l] leaves the dictionaries, the heap and
    position [i] of the array. *)
Definition delete_entry (m : kmem) (ks : keystore) (id_ : string) (i : nat) (l : loc) (e : keyentry) :
    outcome (kmem * keystore) :=
  '(tree_id, _, _) ← sm_delete (keytree_id ks) id_;
  a ← c_deref (kip e);
  '(tree_ip, _, _) ← sm_delete (keytree_ip ks) (ip a);
  tree_sock ← (if 0 <=? sock e
               then '(t, _, _) ← sm_delete (keytree_sock ks) (str_sock (sock e)); Ret t
               else Ret (keytree_sock ks));
  m ← OS_FreeKey m l;
  '(m, arr) ← close_gap m (keyentries ks) (keysize ks - 1) i;
  Ret (m, mk_keystore arr tree_id tree_ip tree_sock (keysize ks - 1) (file_change ks) (ks_inode ks)
    (id_counter ks) (key_mode ks) (save_removed ks) (removed_keys ks)).

Definition OS_DeleteKey (m : kmem) (ks : keystore) (id_ : string) (purge : bool) :
    outcome (kmem * keystore * Z) :=
  if negb (has_raw_key (key_mode ks)) then Ret (m, ks, -1)
  else
    i ← OS_IsAllowedID m ks (Some id_);
    if i <? 0 then Ret (m, ks, -1)
    else
      '(l, e) ← entry_at m ks (Z.to_nat i);
      ks ← (if save_removed ks && negb purge
            then line ← removed_line e; Ret (save_removed_key ks line) else Ret ks);
      '(m, ks) ← delete_entry m ks id_ (Z.to_nat i) l e;
      Ret (m, ks, i).

Fixpoint free_entries (m : kmem) (l : list (option loc)) : outcome kmem :=
  match l with
  | [] => Ret m
  | Some p :: l => m ← OS_FreeKey m p; free_entries m l
  | None :: l => free_entries m l
  end.

(** The entries of all agents and the extra one are freed; the dictionaries have no
    disposal function. *)
Definition OS_FreeKeys (m : kmem) (ks : keystore) : outcome kmem :=
  l ← c_slice (keyentries ks) 0 (keysize ks + 1);
  free_entries m l.

(** ** Sockets *)

Definition OS_AddSocket (ks : keystore) (i : nat) (sock : Z) : outcome (keystore * Z) :=
  p ← c_read (keyentries ks) i;
  '(t, added) ← sm_insert (keytree_sock ks) (str_sock sock) p;
  if (added : bool) then Ret (set_keytree_sock ks t, OS_ADDSOCKET_KEY_ADDED)
  else
    let found := bool_decide (str_sock sock ∈ sm_keys t) in
    let t := sm_replace t (str_sock sock) p in
    Ret (set_keytree_sock ks t,
      if found && bool_decide (is_Some p) then OS_ADDSOCKET_KEY_UPDATED else OS_ADDSOCKET_ERROR).

Definition OS_DeleteSocket (m : kmem) (ks : keystore) (sock_ : Z) : outcome (kmem * keystore * Z) :=
  match sm_get (keytree_sock ks) (str_sock sock_) with
  | Some l =>
      e ← c_deref (kheap m !! l);
      let m := if sock e =? sock_ then set_heap m (<[l := set_sock e (-1)]> (kheap m)) else m in
      '(t, _, _) ← sm_delete (keytree_sock ks) (str_sock sock_);
      Ret (m, set_keytree_sock ks t, 0)
  | None => Ret (m, ks, -1)
  end.

(** ** Copies *)

(** The block of the union, copied through the layout [is_ipv6] names. *)
Definition dup_ip (a : os_ip) : outcome os_ip :=
  block ← c_deref (obj a);
  block ← c_slice block 0 (if is_ipv6 a then 32 else 8);
  Ret {| ip := ip a; obj := Some block; is_ipv6 := is_ipv6 a |}.

Definition OS_DupKeyEntry (e : keyentry) : outcome keyentry :=
  a ← match kip e with Some a => a' ← dup_ip a; Ret (Some a') | None => Ret None end;
  Ret (mk_keyentry (rcvd e) (local e) (keyid e) (global e) 0 (id e) (raw_key e) (encryption_key e)
    (name e) (post_startup e) 0 a (sock e) 0 (time_added e) (peer_info e) None 0 None).

Fixpoint dup_entries (m : kmem) (l : list (option loc)) : outcome (kmem * list (option loc)) :=
  match l with
  | [] => Ret (m, [])
  | p :: l =>
      l0 ← c_deref p; e ← c_deref (kheap m !! l0);
      e' ← OS_DupKeyEntry e;
      let q := malloc (dom (kheap m)) in
      '(m, ps) ← dup_entries (set_heap m (<[q := e']> (kheap m))) l;
      Ret (m, Some q :: ps)
  end.

(** The copy has no dictionaries, and flags of zero. *)
Definition OS_DupKeys (m : kmem) (ks : keystore) : outcome (kmem * keystore) :=
  l ← c_slice (keyentries ks) 0 (keysize ks + 1);
  '(m, arr) ← dup_entries m l;
  Ret (m, mk_keystore arr sm_empty sm_empty sm_empty (keysize ks) (file_change ks) (ks_inode ks)
    (id_counter ks) W_RAW_KEY false (removed_keys ks)).

(** The loop over the [n] old agents from [i] on. *)
Fixpoint move_loop (m : kmem) (ks old : keystore) (n i : nat) : outcome (kmem * keystore) :=
  match n with
  | O => Ret (m, ks)
  | S n =>
      '(_, o) ← entry_at m old i;
      keyid ← OS_IsAllowedID m ks (id o);
      '(m, ks) ← (if 0 <=? keyid then
          '(l, e) ← entry_at m ks (Z.to_nat keyid);
          a ← c_deref (kip e); b ← c_deref (kip o);
          if bool_decide (ip a = ip b) then
            let m := set_heap m (<[l := set_netdata e o]> (kheap m)) in
            '(t, _) ← sm_insert (keytree_sock ks) (str_sock (sock o)) (Some l);
            Ret (m, set_keytree_sock ks t)
          else Ret (m, ks)
        else Ret (m, ks));
      move_loop m ks old n (S i)
  end.

Definition move_netdata (m : kmem) (ks old : keystore) : outcome (kmem * keystore) :=
  move_loop m ks old (keysize old) 0.

(** ** The key file *)

(** [strtol]: the value and what is left; no digits leave the text as it was. *)
Definition strtol (s : string) : Z * string :=
  let t := skip_spaces s in
  let '(neg, t) := match t with
                   | String "-" t' => (true, t')
                   | String "+" t' => (false, t')
                   | _ => (false, t)
                   end in
  let rest := skip_number t in
  if bool_decide (rest = t) then (0, s)
  else (strtol_clamp (if neg then - digits_value t 0 else digits_value t 0), rest).

(** One line of the file, as [fgets] gave it, newline included. *)
Definition read_line (m : kmem) (ks : keystore) (buffer : string) : outcome (option (kmem * keystore)) :=
  if starts_with "#" buffer || starts_with " " buffer then Ret (Some (m, ks))
  else
    match split_char " " buffer with
    | (_, None) => Ret (Some (m, ks))
    | (valid_str, Some tmp_str) =>
        let id := fst (snprintf (KEYSIZE + 1) valid_str) in
        let '(v, end_) := strtol id in
        let id_number := wrap_int v in
        let ks := if bool_decide (end_ = EmptyString) && (id_counter ks <? id_number)
                  then set_counter ks id_number else ks in
        if starts_with "#" tmp_str || starts_with "!" tmp_str then
          Ret (Some (m, if save_removed ks
                        then save_removed_key ks (valid_str +:+ " " +:+ fst (split_char (ascii_of_nat 10) tmp_str))
                        else ks))
        else
          match split_char " " tmp_str with
          | (_, None) => Ret (Some (m, ks))
          | (name, Some tmp_str) =>
              match split_char " " tmp_str with
              | (_, None) => Ret (Some (m, ks))
              | (ip_, Some tmp_str) =>
                  let key := fst (split_char (ascii_of_nat 10) tmp_str) in
                  r ← OS_AddKey m ks id (str_trunc (KEYSIZE - 1) name) (str_trunc (KEYSIZE - 1) ip_)
                        (str_trunc (KEYSIZE - 1) key) 0;
                  match r with Some (m, ks, _) => Ret (Some (m, ks)) | None => Ret None end
              end
          end
    end.

(** [fgets (buffer, n + 1, fp)]: at most [n] characters, up to a newline. *)
Fixpoint fgets (n : nat) (text : string) : string * string :=
  match n, text with
  | O, _ => (EmptyString, text)
  | _, EmptyString => (EmptyString, EmptyString)
  | S n, String c text =>
      if bool_decide (c = ascii_of_nat 10) then (String c EmptyString, text)
      else let '(l, r) := fgets n text in (String c l, r)
  end.

Fixpoint read_loop (fuel : nat) (m : kmem) (ks : keystore) (text : string) :
    outcome (option (kmem * keystore)) :=
  match text with
  | EmptyString => Ret (Some (m, ks))
  | _ =>
      match fuel with
      | O => Stuck OutOfFuel
      | S fuel =>
          let '(buffer, text) := fgets (OS_BUFFER_SIZE - 1) text in
          r ← read_line m ks buffer;
          match r with
          | Some (m, ks) => read_loop fuel m ks text
          | None => Ret None
          end
      end
  end.

(** [file] is the text of the key file if it could be opened, [date] and [ino] what
    [File_DateofChange] and [File_Inode] say of it. *)
Definition OS_ReadKeys (m : kmem) (mode : key_mode_t) (save : bool) (pass_empty_keyfile : bool)
    (file : option string) (date ino : Z) : outcome (option (kmem * keystore)) :=
  if ((date <? 0) || bool_decide (file = None)) && negb pass_empty_keyfile then Ret None
  else
    let p := malloc (dom (kheap m)) in
    let ks := mk_keystore [Some p] sm_empty sm_empty sm_empty 0 date ino 0 mode save [] in
    let m := set_heap m (<[p := keyentry_zero]> (kheap m)) in
    r ← match file with
        | Some text => read_loop (String.length text) m ks text
        | None => Ret (Some (m, ks))
        end;
    match r with
    | Some (m, ks) => if bool_decide (keysize ks = 0%nat) && negb pass_empty_keyfile then Ret None
                      else Ret (Some (m, ks))
    | None => Ret None
    end.

(** The line of an agent. *)
Definition key_line (g : mask_table) (e : keyentry) : outcome (mask_table * string) :=
  i ← c_deref (id e); n ← c_deref (name e); a ← c_deref (kip e); k ← c_deref (raw_key e);
  '(g, cidr, ok) ← OS_CIDRtoStr g a IPSIZE;
  let addr := match cidr with Some c => if ok : bool then c else ip a | None => ip a end in
  Ret (g, (i +:+ " " +:+ n +:+ " " +:+ addr +:+ " " +:+ k +:+ String (ascii_of_nat 10) EmptyString)%string).

(** The lines of the [n] agents from [i] on, as far as [fprintf] succeeds. *)
Fixpoint write_loop (m : kmem) (ks : keystore) (g : mask_table) (print_ok : nat → bool) (n i : nat) :
    outcome (mask_table * option string) :=
  match n with
  | O => Ret (g, Some EmptyString)
  | S n =>
      '(_, e) ← entry_at m ks i;
      '(g, line) ← key_line g e;
      if print_ok i then
        '(g, rest) ← write_loop m ks g print_ok n (S i);
        Ret (g, option_map (String.append line) rest)
      else Ret (g, None)
  end.

Fixpoint removed_text (removed : list string) (print_ok : nat → bool) (i : nat) : option string :=
  match removed with
  | [] => Some EmptyString
  | l :: removed =>
      if print_ok i then
        option_map (String.append (l +:+ String (ascii_of_nat 10) EmptyString))
          (removed_text removed print_ok (S i))
      else None
  end.

(** The text that replaces the key file, or [None] when the result is -1 and the
    file stays as it was. *)
Definition OS_WriteKeys (m : kmem) (ks : keystore) (temp_ok : bool) (print_ok : nat → bool)
    (close_ok move_ok : bool) : outcome (mask_table * option string) :=
  if negb (has_raw_key (key_mode ks)) || negb temp_ok then Ret (kmasks m, None)
  else
    '(g, t1) ← write_loop m ks (kmasks m) print_ok (keysize ks) 0;
    Ret (g,
      match t1, removed_text (removed_keys ks) print_ok (keysize ks) with
      | Some t1, Some t2 => if close_ok && move_ok then Some (t1 +:+ t2) else None
      | _, _ => None
      end).
End keystore.

(** ** The invariant of a key store

    [es] lists the agents in the order of the array, with the addresses of their
    entries; [sender] is the entry behind the last one. *)

Section invariant.
Context {T : Type} `{StrMapLaws loc T}.
Context (md5 : string → string).
Context (pcre : string → string → option (list string)).
Context (inet_pton4 inet_pton6 : string → option (list Z)).
Context (malloc : gset loc → loc) (uninit : nat → option loc).
Hypothesis (malloc_fresh : ∀ X, malloc X ∉ X).
(** The entries that belong to others, such as another key store. *)
Context (h0 : gmap loc keyentry).

Abbreviation keystore := (keystore (T := T)).
Abbreviation OS_AddKey := (OS_AddKey md5 pcre inet_pton4 inet_pton6 malloc uninit).
Abbreviation new_entry := (new_entry md5).

(** What every agent has. *)
Definition entry_ok (mode : key_mode_t) (e : keyentry) : Prop :=
  is_Some (id e) ∧ is_Some (name e) ∧ is_Some (kip e) ∧ (has_raw_key mode = true → is_Some (raw_key e)).

Record ks_inv (m : kmem) (ks : keystore) (es : list (loc * keyentry)) (sender : loc) : Prop := {
  inv_array : ∃ slack, keyentries ks = (Some <$> es.*1) ++ Some sender :: slack;
  inv_size : keysize ks = length es;
  inv_nodup : NoDup (sender :: es.*1);
  inv_entry : ∀ i l e, es !! i = Some (l, e) →
    kheap m !! l = Some e ∧ keyid e = i ∧ entry_ok (key_mode ks) e;
  inv_sender : is_Some (kheap m !! sender);
  inv_trees : Forall (λ t, sm_wf t ∧ sm_dispose t = false) [keytree_id ks; keytree_ip ks; keytree_sock ks];
  inv_id : ∀ k v, sm_map (keytree_id ks) !! k = Some v ↔
    ∃ l e, (l, e) ∈ es ∧ v = Some l ∧ id e = Some k;
  inv_ip : ∀ k v, sm_map (keytree_ip ks) !! k = Some v →
    ∃ l e a, (l, e) ∈ es ∧ v = Some l ∧ kip e = Some a ∧ ip a = k;
  inv_sock : ∀ k v, sm_map (keytree_sock ks) !! k = Some v →
    ∃ l e, (l, e) ∈ es ∧ v = Some l ∧ 0 ≤ sock e ∧ str_sock (sock e) = k;
  inv_masks : masks_ok (kmasks m);
  inv_frame : ∀ x, x ∉ sender :: es.*1 → kheap m !! x = h0 !! x;
  inv_own : ∀ x, x ∈ sender :: es.*1 → h0 !! x = None
}.

(** The position of the first agent with the property, or -1. *)
Definition index_of (f : keyentry → bool) (es : list keyentry) : Z :=
  match list_find (λ e, f e = true) es with Some (i, _) => Z.of_nat i | None => -1 end.

Definition has_id (k : string) (e : keyentry) : bool := bool_decide (id e = Some k).
Definition has_name (n : string) (e : keyentry) : bool := bool_decide (name e = Some n).

Lemma inv_lookup m ks es sender l e :
  ks_inv m ks es sender → (l, e) ∈ es → ∃ i, es !! i = Some (l, e) ∧ kheap m !! l = Some e ∧ keyid e = i.
Proof.
  intros Hi Hin. apply list_elem_of_lookup in Hin as [i Hl]. exists i.
  destruct (inv_entry _ _ _ _ Hi i l e Hl) as (? & ? & _). done.
Qed.

(** Two agents at one address are the same. *)
Lemma inv_same_loc m ks es sender i j l e e' :
  ks_inv m ks es sender → es !! i = Some (l, e) → es !! j = Some (l, e') → i = j.
Proof.
  intros Hi H1 H2. pose proof (inv_nodup _ _ _ _ Hi) as [_ Hnd]%NoDup_cons.
  eapply NoDup_lookup; [exact Hnd| |]; rewrite list_lookup_fmap; [by rewrite H1|by rewrite H2].
Qed.

(** Identifiers are unique. *)
Lemma inv_same_id m ks es sender i j l e l' e' k :
  ks_inv m ks es sender → es !! i = Some (l, e) → es !! j = Some (l', e') →
  id e = Some k → id e' = Some k → i = j.
Proof.
  intros Hi H1 H2 K1 K2.
  assert (sm_map (keytree_id ks) !! k = Some (Some l)) as M1.
  { apply (inv_id _ _ _ _ Hi). exists l, e. split; [by eapply list_elem_of_lookup_2|done]. }
  assert (sm_map (keytree_id ks) !! k = Some (Some l')) as M2.
  { apply (inv_id _ _ _ _ Hi). exists l', e'. split; [by eapply list_elem_of_lookup_2|done]. }
  rewrite M1 in M2. injection M2 as ->. by eapply inv_same_loc.
Qed.

Lemma entry_at_inv m ks es sender i l e :
  ks_inv m ks es sender → es !! i = Some (l, e) → entry_at m ks i = Ret (l, e).
Proof.
  intros Hi Hl. destruct (inv_array _ _ _ _ Hi) as [slack Ha]. unfold entry_at. rewrite Ha.
  rewrite (c_read_Some _ _ (Some l)), outcome_bind_ret.
  - cbn [c_deref]. rewrite outcome_bind_ret.
    destruct (inv_entry _ _ _ _ Hi i l e Hl) as (-> & _). done.
  - rewrite lookup_app_l.
    + by rewrite list_lookup_fmap, list_lookup_fmap, Hl.
    + rewrite !length_fmap. by eapply lookup_lt_Some.
Qed.

Lemma tree_wf_id m ks es sender : ks_inv m ks es sender → sm_wf (keytree_id ks) ∧ sm_dispose (keytree_id ks) = false.
Proof. intros Hi. pose proof (inv_trees _ _ _ _ Hi) as HT. by do 1 apply Forall_cons in HT as [? HT]. Qed.

Lemma tree_wf_ip m ks es sender : ks_inv m ks es sender → sm_wf (keytree_ip ks) ∧ sm_dispose (keytree_ip ks) = false.
Proof. intros Hi. pose proof (inv_trees _ _ _ _ Hi) as HT. by do 2 apply Forall_cons in HT as [? HT]. Qed.

Lemma tree_wf_sock m ks es sender : ks_inv m ks es sender → sm_wf (keytree_sock ks) ∧ sm_dispose (keytree_sock ks) = false.
Proof. intros Hi. pose proof (inv_trees _ _ _ _ Hi) as HT. by do 3 apply Forall_cons in HT as [? HT]. Qed.

(** A list with exactly one such element, at [i]. *)
Lemma index_of_at f (es : list keyentry) i e :
  es !! i = Some e → f e = true → (∀ j e', es !! j = Some e' → f e' = true → j = i) →
  index_of f es = Z.of_nat i.
Proof.
  intros Hl Hf Hu. unfold index_of.
  destruct (list_find (λ e, f e = true) es) as [[j e']|] eqn:E.
  - apply list_find_Some in E as (Hj & Hf' & _). by rewrite (Hu j e').
  - apply list_find_None in E. rewrite Forall_forall in E. exfalso.
    apply (E e); [by eapply list_elem_of_lookup_2|done].
Qed.

Lemma OS_IsAllowedID_index m ks es sender k :
  ks_inv m ks es sender → OS_IsAllowedID m ks (Some k) = Ret (index_of (has_id k) es.*2).
Proof.
  intros Hi. destruct (tree_wf_id _ _ _ _ Hi) as [Hw _]. unfold OS_IsAllowedID. rewrite sm_get_spec by done.
  destruct (sm_map (keytree_id ks) !! k) as [v|] eqn:E.
  - pose proof (proj1 (inv_id _ _ _ _ Hi k v) E) as (l & e & Hin & -> & Hid).
    destruct (inv_lookup _ _ _ _ _ _ Hi Hin) as (i & Hl & Hh & Hk). cbn [mjoin option_join keyid_of].
    unfold c_deref. rewrite Hh, outcome_bind_ret, Hk. f_equal. symmetry.
    apply (index_of_at _ _ _ e); [by rewrite list_lookup_fmap, Hl|by apply bool_decide_eq_true|].
    intros j e' Hj Hid'%bool_decide_eq_true. rewrite list_lookup_fmap in Hj.
    destruct (es !! j) as [[l' e'']|] eqn:Ej; [|done]. injection Hj as ->.
    by eapply inv_same_id.
  - cbn [mjoin option_join keyid_of]. f_equal. symmetry. unfold index_of.
    destruct (list_find _ _) as [[j e]|] eqn:F; [|done]. exfalso.
    apply list_find_Some in F as (Hj & Hid%bool_decide_eq_true & _). rewrite list_lookup_fmap in Hj.
    destruct (es !! j) as [[l e']|] eqn:Ej; [|done]. injection Hj as ->.
    assert (sm_map (keytree_id ks) !! k = Some (Some l)) as M; [|by rewrite M in E].
    apply (inv_id _ _ _ _ Hi). exists l, e. split; [by eapply list_elem_of_lookup_2|done].
Qed.

(** The address found belongs to the agent. *)
Lemma OS_IsAllowedIP_sound m ks es sender s :
  ks_inv m ks es sender →
  OS_IsAllowedIP m ks (Some s) = Ret (-1) ∨
  ∃ i e a, OS_IsAllowedIP m ks (Some s) = Ret (Z.of_nat i) ∧ es.*2 !! i = Some e ∧
    kip e = Some a ∧ ip a = s.
Proof.
  intros Hi. destruct (tree_wf_ip _ _ _ _ Hi) as [Hw _]. unfold OS_IsAllowedIP. rewrite sm_get_spec by done.
  destruct (sm_map (keytree_ip ks) !! s) as [v|] eqn:E; [|by left]. right.
  pose proof (inv_ip _ _ _ _ Hi _ _ E) as (l & e & a & Hin & -> & Ha & Hip).
  destruct (inv_lookup _ _ _ _ _ _ Hi Hin) as (i & Hl & Hh & Hk). cbn [mjoin option_join keyid_of].
  unfold c_deref. rewrite Hh, outcome_bind_ret, Hk. exists i, e, a.
  split_and!; [done|by rewrite list_lookup_fmap, Hl|done..].
Qed.

Lemma name_loop_index m ks es sender nm n i :
  ks_inv m ks es sender → (i + n = length es)%nat →
  name_loop m ks nm n i =
    Ret (match list_find (λ e, has_name nm e = true) (drop i es.*2) with
         | Some (j, _) => Z.of_nat (i + j) | None => -1 end).
Proof.
  intros Hi. revert i. induction n as [|n IH]; intros i Hlen.
  - rewrite drop_ge by (rewrite length_fmap; lia). done.
  - destruct (lookup_lt_is_Some_2 es i) as [[l e] Hl]; [lia|]. cbn [name_loop].
    rewrite (entry_at_inv _ _ _ _ _ _ _ Hi Hl), outcome_bind_ret.
    destruct (inv_entry _ _ _ _ Hi i l e Hl) as (_ & _ & _ & [nm' Hn] & _). rewrite Hn. cbn [c_deref].
    rewrite outcome_bind_ret. rewrite (drop_S es.*2 e i) by (by rewrite list_lookup_fmap, Hl).
    cbn [list_find]. destruct (strcmp nm' nm) eqn:Ec.
    + apply strcmp_eq in Ec as ->. rewrite decide_True; [by rewrite Nat.add_0_r|].
      by apply bool_decide_eq_true.
    + rewrite decide_False; [|intros Hh%bool_decide_eq_true; rewrite Hn in Hh; injection Hh as ->; by rewrite strcmp_refl in Ec].
      rewrite IH by lia. destruct (list_find _ _) as [[j x]|]; cbn; [f_equal; lia|done].
    + rewrite decide_False; [|intros Hh%bool_decide_eq_true; rewrite Hn in Hh; injection Hh as ->; by rewrite strcmp_refl in Ec].
      rewrite IH by lia. destruct (list_find _ _) as [[j x]|]; cbn; [f_equal; lia|done].
Qed.

Lemma OS_IsAllowedName_index m ks es sender nm :
  ks_inv m ks es sender → OS_IsAllowedName m ks nm = Ret (index_of (has_name nm) es.*2).
Proof.
  intros Hi. unfold OS_IsAllowedName.
  rewrite (name_loop_index _ _ es sender) by (done || rewrite (inv_size _ _ _ _ Hi); lia).
  rewrite drop_0. done.
Qed.

(** ** Adding and deleting *)

(** The text is accepted as an address, whatever networks were read before. *)
Definition accepts (ip_ : string) (a : os_ip) : Prop :=
  ∀ g, masks_ok g → ∃ g' ret,
    OS_IsValidIP pcre inet_pton4 inet_pton6 g (Some ip_) true = Ret (g', ret, Some a) ∧
    ret ≠ 0 ∧ masks_ok g'.

(** Inserting leaves a dictionary as it is when the key is there. *)
Lemma sm_insert_any (t : T) k (p : loc) :
  sm_wf t → ∃ t' b, sm_insert t k (Some p) = Ret (t', b) ∧ sm_wf t' ∧ sm_dispose t' = sm_dispose t ∧
    sm_map t' = match sm_map t !! k with Some _ => sm_map t | None => <[k := Some p]> (sm_map t) end.
Proof.
  intros Hw. destruct (sm_map t !! k) eqn:E.
  - exists t, false. rewrite sm_insert_dup by (done || by rewrite E). done.
  - destruct (sm_insert_new t k (Some p) Hw E) as (t' & Et & ? & ? & Em). by exists t', true.
Qed.

Lemma sm_delete_any (t : T) k :
  sm_wf t → sm_dispose t = false →
  ∃ t' b, sm_delete t k = Ret (t', b, []) ∧ sm_wf t' ∧ sm_dispose t' = false ∧
    sm_map t' = delete k (sm_map t).
Proof.
  intros Hw Hd. destruct (sm_map t !! k) as [v|] eqn:E.
  - destruct (sm_delete_present t k v Hw E) as (t' & Et & ? & Hd' & Em). exists t', true.
    rewrite Et, Hd. split_and!; [done..| |done]. by rewrite Hd'.
  - exists t, false. rewrite sm_delete_absent by done. split_and!; try done.
    by rewrite delete_id.
Qed.

(** The array with room for one more agent. *)
Lemma add_array (ps : list (option loc)) sender slack p :
  (sender' ← c_read (c_realloc uninit (ps ++ Some sender :: slack) (length ps + 2)) (length ps);
   arr ← c_write (c_realloc uninit (ps ++ Some sender :: slack) (length ps + 2)) (length ps + 1) sender';
   c_write arr (length ps) (Some p)) = Ret (ps ++ [Some p; Some sender]).
Proof.
  set (arr := c_realloc uninit (ps ++ Some sender :: slack) (length ps + 2)).
  assert (∃ x, arr = ps ++ [Some sender; x]) as [x ->].
  { unfold arr, c_realloc. rewrite length_app. cbn [length].
    destruct slack as [|y slack]; cbn [length].
    - rewrite take_ge by (rewrite length_app; simpl; lia).
      replace (length ps + 2 - (length ps + 1))%nat with 1%nat by lia.
      eexists. cbn [seq fmap list_fmap]. by rewrite <- app_assoc.
    - exists y. rewrite take_app. rewrite take_ge by lia.
      replace (length ps + 2 - length ps)%nat with 2%nat by lia. cbn [take].
      replace (length ps + 2 - _)%nat with 0%nat by lia. by rewrite app_nil_r. }
  rewrite (c_read_Some _ _ (Some sender)), outcome_bind_ret by (by rewrite lookup_app_r, Nat.sub_diag).
  rewrite c_write_lt, outcome_bind_ret by (rewrite length_app; simpl; lia).
  rewrite c_write_lt by (rewrite length_insert, length_app; simpl; lia). f_equal.
  rewrite !insert_app_r_alt by lia. rewrite Nat.sub_diag.
  by replace (length ps + 1 - length ps)%nat with 1%nat by lia.
Qed.

Lemma elem_of_snoc {A} (x y : A) l : x ∈ l ++ [y] ↔ x ∈ l ∨ x = y.
Proof. rewrite elem_of_app, list_elem_of_singleton. done. Qed.

(** What the dictionaries say with the agent [(p, e)] added. *)
Lemma add_dictionaries m ks es sender p e a id_ t1 t2 :
  ks_inv m ks es sender → id e = Some id_ → kip e = Some a →
  sm_map (keytree_id ks) !! id_ = None →
  sm_map t1 = <[id_ := Some p]> (sm_map (keytree_id ks)) →
  sm_map t2 = (match sm_map (keytree_ip ks) !! ip a with
               | Some _ => sm_map (keytree_ip ks) | None => <[ip a := Some p]> (sm_map (keytree_ip ks)) end) →
  (∀ k v, sm_map (T := T) t1 !! k = Some v ↔ ∃ l x, (l, x) ∈ es ++ [(p, e)] ∧ v = Some l ∧ id x = Some k) ∧
  (∀ k v, sm_map (T := T) t2 !! k = Some v →
    ∃ l x b, (l, x) ∈ es ++ [(p, e)] ∧ v = Some l ∧ kip x = Some b ∧ ip b = k) ∧
  (∀ k v, sm_map (keytree_sock ks) !! k = Some v →
    ∃ l x, (l, x) ∈ es ++ [(p, e)] ∧ v = Some l ∧ 0 ≤ sock x ∧ str_sock (sock x) = k).
Proof.
  intros Hi Hid Ha E0 M1 M2. setoid_rewrite elem_of_snoc. split_and!.
  - intros k v. rewrite M1. destruct (decide (k = id_)) as [->|Hk].
    + rewrite lookup_insert_eq. split.
      * intros [= <-]. exists p, e. split_and!; [by right|done|done].
      * intros (l & x & [Hin|[= -> ->]] & -> & Hx); [|done]. exfalso.
        assert (sm_map (keytree_id ks) !! id_ = Some (Some l)) as M by (apply (inv_id _ _ _ _ Hi); eauto).
        congruence.
    + rewrite lookup_insert_ne by done. rewrite (inv_id _ _ _ _ Hi). split.
      * intros (l & x & ? & ? & ?). exists l, x. auto.
      * intros (l & x & [Hin|[= -> ->]] & Hv & Hx); [by eauto|]. congruence.
  - intros k v Hk. rewrite M2 in Hk.
    assert (sm_map (keytree_ip ks) !! k = Some v ∨ (k = ip a ∧ v = Some p)) as [Hk'|[-> ->]].
    { destruct (sm_map (keytree_ip ks) !! ip a); [by left|].
      destruct (decide (k = ip a)) as [->|]; [|rewrite lookup_insert_ne in Hk by done; by left].
      rewrite lookup_insert_eq in Hk. injection Hk as <-. by right. }
    + destruct (inv_ip _ _ _ _ Hi _ _ Hk') as (l & x & b & ? & ? & ? & ?). exists l, x, b. auto.
    + exists p, e, a. split_and!; [by right|done..].
  - intros k v Hk. destruct (inv_sock _ _ _ _ Hi _ _ Hk) as (l & x & ? & ? & ? & ?). exists l, x. auto.
Qed.

(** A free address and an identifier not in use. *)
Lemma fresh_agent m ks es sender id_ :
  ks_inv m ks es sender → index_of (has_id id_) es.*2 = -1 →
  let p := malloc (dom (kheap m)) in
  kheap m !! p = None ∧ (p ∉ sender :: es.*1) ∧ sm_map (keytree_id ks) !! id_ = None.
Proof.
  intros Hi Hnew p.
  assert (kheap m !! p = None) as Hp by (apply not_elem_of_dom, malloc_fresh).
  split_and!; [done| |].
  - intros [E|([l x] & E & Hin)%list_elem_of_fmap]%elem_of_cons.
    + destruct (inv_sender _ _ _ _ Hi) as [? Hs]. congruence.
    + destruct (inv_lookup _ _ _ _ _ _ Hi Hin) as (? & _ & Hh & _). cbn in E. congruence.
  - destruct (sm_map (keytree_id ks) !! id_) as [v|] eqn:E; [|done]. exfalso.
    apply (inv_id _ _ _ _ Hi) in E as (l & x & Hin & -> & Hx). unfold index_of in Hnew.
    destruct (list_find _ _) as [[j y]|] eqn:F; [lia|]. apply list_find_None in F.
    rewrite Forall_forall in F. apply (F x); [apply list_elem_of_fmap; by exists (l, x)|].
    by apply bool_decide_eq_true.
Qed.

Lemma OS_AddKey_inv m ks es sender id_ nm ip_ a key t :
  ks_inv m ks es sender → accepts ip_ a → index_of (has_id id_) es.*2 = -1 →
  ∃ m' ks' p,
    let e := new_entry (key_mode ks) (length es) id_ nm (cut_slash a) key t in
    OS_AddKey m ks id_ nm ip_ key t = Ret (Some (m', ks', length es)) ∧
    ks_inv m' ks' (es ++ [(p, e)]) sender ∧ key_mode ks' = key_mode ks ∧
    save_removed ks' = save_removed ks ∧ removed_keys ks' = removed_keys ks ∧
    id_counter ks' = id_counter ks ∧
    sm_map (keytree_ip ks') = match sm_map (keytree_ip ks) !! ip (cut_slash a) with
      | Some _ => sm_map (keytree_ip ks) | None => <[ip (cut_slash a) := Some p]> (sm_map (keytree_ip ks)) end.
Proof.
  intros Hi Hacc Hnew. destruct (inv_array _ _ _ _ Hi) as [slack Ha].
  destruct (fresh_agent _ _ _ _ _ Hi Hnew) as (Hp & Hpn & E0). set (p := malloc (dom (kheap m))) in *.
  set (e := new_entry (key_mode ks) (length es) id_ nm (cut_slash a) key t).
  destruct (tree_wf_id _ _ _ _ Hi) as [W1 D1], (tree_wf_ip _ _ _ _ Hi) as [W2 D2], (tree_wf_sock _ _ _ _ Hi) as [W3 D3].
  destruct (sm_insert_any (keytree_id ks) id_ p W1) as (t1 & b1 & E1 & Wt1 & Dt1 & M1). rewrite E0 in M1.
  destruct (sm_insert_any (keytree_ip ks) (ip (cut_slash a)) p W2) as (t2 & b2 & E2 & Wt2 & Dt2 & M2).
  destruct (Hacc (kmasks m) (inv_masks _ _ _ _ Hi)) as (g' & ret & Ev & Hret & Hg').
  destruct (add_dictionaries m ks es sender p e (cut_slash a) id_ t1 t2) as (T1 & T2 & T3); [done..|].
  assert (length (Some <$> es.*1) = keysize ks) as Hlen by (by rewrite !length_fmap, (inv_size _ _ _ _ Hi)).
  pose proof (add_array (Some <$> es.*1) sender slack p) as Harr. rewrite Hlen in Harr.
  apply outcome_bind_Ret_inv in Harr as (s' & R1 & Harr).
  apply outcome_bind_Ret_inv in Harr as (arr1 & R2 & R3).
  eexists (mk_kmem (<[p := e]> (kheap m)) g'), _, p. cbv zeta. split.
  { unfold KeyStore.OS_AddKey. rewrite Ha, R1, outcome_bind_ret, R2, outcome_bind_ret.
    fold p. rewrite R3, outcome_bind_ret, E1, outcome_bind_ret, Ev, outcome_bind_ret.
    rewrite (proj2 (Z.eqb_neq _ _)) by done. cbn [c_deref]. rewrite outcome_bind_ret, E2, outcome_bind_ret.
    rewrite (inv_size _ _ _ _ Hi). done. }
  split; [|done]. constructor; cbn [keyentries keysize key_mode keytree_id keytree_ip keytree_sock kheap kmasks];
    try done.
  - exists []. rewrite !fmap_app, <- app_assoc. done.
  - rewrite length_app. cbn [length]. lia.
  - rewrite fmap_app. cbn [fmap list_fmap]. rewrite app_comm_cons. apply NoDup_app. split; [apply Hi|].
    split; [|apply NoDup_singleton]. intros x Hx ->%list_elem_of_singleton. done.
  - intros i l x Hl. apply lookup_snoc_Some in Hl as [[Hlt Hl]|[-> [= <- <-]]].
    + destruct (inv_entry _ _ _ _ Hi i l x Hl) as (Hh & Hk & Hok).
      rewrite lookup_insert_ne; [done|]. intros <-. congruence.
    + rewrite lookup_insert_eq. split_and!; [done|done|]. unfold entry_ok, e. cbn.
      split_and!; try by eexists. intros ->. by eexists.
  - destruct (inv_sender _ _ _ _ Hi) as [x Hx]. exists x. rewrite lookup_insert_ne; [done|].
    intros E. rewrite E in Hp. congruence.
  - repeat constructor; congruence.
  - intros x Hx. rewrite fmap_app in Hx. cbn [fmap list_fmap fst] in Hx.
    rewrite app_comm_cons, elem_of_snoc in Hx.
    rewrite lookup_insert_ne by naive_solver. apply (inv_frame _ _ _ _ Hi). naive_solver.
  - intros x Hx. rewrite fmap_app in Hx. cbn [fmap list_fmap fst] in Hx.
    rewrite app_comm_cons, elem_of_snoc in Hx. destruct Hx as [Hx| ->]; [by apply (inv_own _ _ _ _ Hi)|].
    by rewrite <- (inv_frame _ _ _ _ Hi).
Qed.

(** The agents without the one at [i], whose place the last one takes. *)
Definition del_agents (es : list (loc * keyentry)) (i : nat) : list (loc * keyentry) :=
  match es !! (length es - 1)%nat with
  | Some (l, e) =>
      if (i <? length es - 1)%nat then <[i := (l, set_keyid e i)]> (take (length es - 1) es)
      else take (length es - 1) es
  | None => es
  end.

Definition del_entries (es : list keyentry) (i : nat) : list keyentry :=
  match es !! (length es - 1)%nat with
  | Some e =>
      if (i <? length es - 1)%nat then <[i := set_keyid e i]> (take (length es - 1) es)
      else take (length es - 1) es
  | None => es
  end.

Lemma del_agents_entries es i : (del_agents es i).*2 = del_entries es.*2 i.
Proof.
  unfold del_agents, del_entries. rewrite length_fmap, list_lookup_fmap.
  destruct (es !! (length es - 1)%nat) as [[l e]|]; [|done]. cbn [fmap option_fmap option_map snd].
  destruct (i <? length es - 1)%nat; [|by rewrite fmap_take].
  rewrite list_fmap_insert, fmap_take. done.
Qed.

(** With the last agent split off. *)
Lemma del_agents_snoc es0 ll el i :
  del_agents (es0 ++ [(ll, el)]) i =
    if (i <? length es0)%nat then <[i := (ll, set_keyid el i)]> es0 else es0.
Proof.
  unfold del_agents. rewrite length_app. cbn [length].
  replace (length es0 + 1 - 1)%nat with (length es0) by lia.
  rewrite lookup_app_r, Nat.sub_diag by lia. cbn [lookup list_lookup].
  by rewrite take_app_length.
Qed.

Lemma lookup_at_0 {A} (ps : list A) a r n : length ps = n → (ps ++ a :: r) !! n = Some a.
Proof. intros <-. by rewrite lookup_app_r, Nat.sub_diag. Qed.

Lemma lookup_at_1 {A} (ps : list A) a b r n : length ps = n → (ps ++ a :: b :: r) !! (n + 1)%nat = Some b.
Proof. intros <-. rewrite lookup_app_r by lia. by replace (length ps + 1 - length ps)%nat with 1%nat by lia. Qed.

Lemma insert_at_0 {A} (ps : list A) a b r n : length ps = n → <[n := b]> (ps ++ a :: r) = ps ++ b :: r.
Proof. intros <-. by rewrite insert_app_r_alt, Nat.sub_diag. Qed.

(** The heap after the entry [l] at [i] was freed and the gap closed. *)
Definition gap_heap (h : gmap loc keyentry) (l : loc) (es0 : list (loc * keyentry)) (ll : loc)
    (el : keyentry) (i : nat) : gmap loc keyentry :=
  if (i <? length es0)%nat then <[ll := set_keyid el i]> (delete l h) else delete l h.

Lemma close_gap_spec m es0 ll el l e i sender slack :
  kheap m !! ll = Some el → (i < length es0 → l ≠ ll)%nat →
  (es0 ++ [(ll, el)]) !! i = Some (l, e) →
  ∃ slack', close_gap (set_heap m (delete l (kheap m)))
      ((Some <$> (es0 ++ [(ll, el)]).*1) ++ Some sender :: slack) (length es0) i =
    Ret (set_heap m (gap_heap (kheap m) l es0 ll el i),
         (Some <$> (del_agents (es0 ++ [(ll, el)]) i).*1) ++ Some sender :: slack').
Proof.
  intros Hll Hne Hi. exists (Some sender :: slack). rewrite del_agents_snoc. unfold close_gap, gap_heap.
  rewrite !fmap_app, <- app_assoc. cbn [fmap list_fmap app fst].
  assert (length (Some <$> es0.*1) = length es0) as Hlen by (by rewrite !length_fmap).
  destruct (Nat.ltb_spec i (length es0)) as [Hlt|Hge].
  - rewrite (c_read_Some _ (length es0) (Some ll)), outcome_bind_ret by (by apply lookup_at_0).
    rewrite c_write_lt, outcome_bind_ret by (rewrite length_app; simpl; lia).
    cbn [c_deref set_heap kheap]. rewrite outcome_bind_ret.
    rewrite lookup_delete_ne by (by apply Hne). rewrite Hll. cbn [c_deref]. rewrite !outcome_bind_ret.
    rewrite insert_app_l by lia.
    assert (length (<[i:=Some ll]> (Some <$> es0.*1)) = length es0) as Hlen' by (by rewrite length_insert).
    rewrite (c_read_Some _ (length es0 + 1) (Some sender)), outcome_bind_ret by (by apply lookup_at_1).
    rewrite c_write_lt, outcome_bind_ret by (rewrite length_app; simpl; lia).
    rewrite insert_at_0 by done. by rewrite !list_fmap_insert.
  - rewrite outcome_bind_ret.
    rewrite (c_read_Some _ (length es0 + 1) (Some sender)), outcome_bind_ret by (by apply lookup_at_1).
    rewrite c_write_lt, outcome_bind_ret by (rewrite length_app; simpl; lia).
    by rewrite insert_at_0.
Qed.

(** An agent that is left is another one, perhaps renumbered. *)
Lemma del_agents_lookup es i l e j l' e' :
  NoDup es.*1 → es !! i = Some (l, e) → del_agents es i !! j = Some (l', e') →
  l' ≠ l ∧ ∃ e0, (l', e0) ∈ es ∧ (es !! j = Some (l', e0) ∧ e' = e0 ∨ e' = set_keyid e0 j).
Proof.
  destruct es as [|[ll el] es0 _] using rev_ind; [done|]. intros Hnd Hi Hj.
  rewrite del_agents_snoc in Hj. apply lookup_snoc_Some in Hi.
  assert (∀ k x, es0 !! k = Some (ll, x) → False) as Hll.
  { intros k x Hk. rewrite fmap_app in Hnd. apply NoDup_app in Hnd as (_ & Hdisj & _).
    apply (Hdisj ll); [|by left]. apply list_elem_of_fmap. exists (ll, x).
    split; [done|]. by eapply list_elem_of_lookup_2. }
  assert (∀ k k' x y z, es0 !! k = Some (x, y) → es0 !! k' = Some (x, z) → k = k') as Huniq.
  { intros k k' x y z H1 H2. rewrite fmap_app in Hnd. apply NoDup_app in Hnd as (Hnd & _ & _).
    eapply NoDup_lookup; [exact Hnd| |]; rewrite list_lookup_fmap; [by rewrite H1|by rewrite H2]. }
  destruct Hi as [[Hlt Hi]|[-> [= <- <-]]].
  - rewrite (proj2 (Nat.ltb_lt _ _) Hlt) in Hj. destruct (decide (i = j)) as [<-|Hij].
    + rewrite list_lookup_insert_eq in Hj by done. injection Hj as <- <-.
      split; [intros ->; by eapply Hll|]. exists el. split; [apply elem_of_snoc; by right|by right].
    + rewrite list_lookup_insert_ne in Hj by done. split; [intros ->; by eapply Hij, Huniq|].
      exists e'. split; [apply elem_of_snoc; left; by eapply list_elem_of_lookup_2|].
      left. split; [|done]. by apply lookup_app_l_Some.
  - rewrite Nat.ltb_irrefl in Hj. split; [intros ->; by eapply Hll|].
    exists e'. split; [apply elem_of_snoc; left; by eapply list_elem_of_lookup_2|].
    left. split; [|done]. by apply lookup_app_l_Some.
Qed.

(** The others are all left. *)
Lemma del_agents_left es i l e l' e0 :
  es !! i = Some (l, e) → (l', e0) ∈ es → l' ≠ l →
  ∃ j e', del_agents es i !! j = Some (l', e') ∧ (e' = e0 ∨ e' = set_keyid e0 j).
Proof.
  destruct es as [|[ll el] es0 _] using rev_ind; [done|]. intros Hi Hin Hne.
  rewrite del_agents_snoc. apply lookup_snoc_Some in Hi.
  apply elem_of_snoc in Hin as [[j Hj]%list_elem_of_lookup|[= -> ->]].
  - exists j, e0. split; [|by left]. destruct Hi as [[Hlt Hi]|[-> [= <- <-]]].
    + rewrite (proj2 (Nat.ltb_lt _ _) Hlt), list_lookup_insert_ne; [done|]. intros <-. congruence.
    + by rewrite Nat.ltb_irrefl.
  - destruct Hi as [[Hlt Hi]|[-> [= <- <-]]]; [|done]. exists i, (set_keyid el i). split; [|by right].
    by rewrite (proj2 (Nat.ltb_lt _ _) Hlt), list_lookup_insert_eq.
Qed.

(** The line kept of a removed agent. *)
Definition removed_of (e : keyentry) : string :=
  match id e, name e, kip e, raw_key e with
  | Some i, Some n, Some a, Some k =>
      fst (snprintf OS_BUFFER_SIZE (i +:+ " !" +:+ n +:+ " " +:+ ip a +:+ " " +:+ k)%string)
  | _, _, _, _ => EmptyString
  end.

Lemma removed_line_ok mode e :
  entry_ok mode e → has_raw_key mode = true → removed_line e = Ret (removed_of e).
Proof.
  intros ([i Hi] & [n Hn] & [a Ha] & Hk) Hm. destruct (Hk Hm) as [k Hk'].
  unfold removed_line, removed_of. by rewrite Hi, Hn, Ha, Hk'.
Qed.

Lemma index_of_inv m ks es sender k i :
  ks_inv m ks es sender → index_of (has_id k) es.*2 = i → 0 ≤ i →
  ∃ l e, es !! Z.to_nat i = Some (l, e) ∧ id e = Some k.
Proof.
  intros Hi Hx Hge. unfold index_of in Hx. destruct (list_find _ _) as [[j e]|] eqn:F; [|lia].
  apply list_find_Some in F as (Hj & Hid%bool_decide_eq_true & _). rewrite list_lookup_fmap in Hj.
  destruct (es !! j) as [[l e']|] eqn:Ej; [|done]. injection Hj as ->. subst i. rewrite Nat2Z.id. eauto.
Qed.

(** What a dictionary says of the others survives the deletion of the agent [l]. *)
Lemma tree_after_delete es i l e (P : keyentry → string → Prop) (M : gmap string (option loc)) :
  es !! i = Some (l, e) → (∀ e0 k j, P e0 k → P (set_keyid e0 j) k) →
  (∀ k v, M !! k = Some v → ∃ l' e0, (l', e0) ∈ es ∧ v = Some l' ∧ l' ≠ l ∧ P e0 k) →
  ∀ k v, M !! k = Some v → ∃ l' e0, (l', e0) ∈ del_agents es i ∧ v = Some l' ∧ P e0 k.
Proof.
  intros Hi Hset HM k v Hk. destruct (HM k v Hk) as (l' & e0 & Hin & -> & Hl & HP).
  destruct (del_agents_left es i l e l' e0 Hi Hin Hl) as (j & e' & Hj & He).
  exists l', e'. split_and!; [by eapply list_elem_of_lookup_2|done|].
  destruct He as [->| ->]; auto.
Qed.

Lemma NoDup_fst_eq (es : list (loc * keyentry)) l e e' :
  NoDup es.*1 → (l, e) ∈ es → (l, e') ∈ es → e = e'.
Proof.
  intros Hnd [i Hi]%list_elem_of_lookup [j Hj]%list_elem_of_lookup.
  assert (i = j) as <-; [|congruence].
  eapply NoDup_lookup; [exact Hnd| |]; rewrite list_lookup_fmap; [by rewrite Hi|by rewrite Hj].
Qed.

Lemma gap_heap_entry (h : gmap loc keyentry) es i l e j l' e' :
  NoDup es.*1 → es !! i = Some (l, e) →
  (∀ k x y, es !! k = Some (x, y) → h !! x = Some y ∧ keyid y = k) →
  del_agents es i !! j = Some (l', e') →
  ∃ es0 ll el, es = es0 ++ [(ll, el)] ∧ gap_heap h l es0 ll el i !! l' = Some e' ∧ keyid e' = j.
Proof.
  intros Hnd Hi Hh Hj. pose proof (del_agents_lookup _ _ _ _ _ _ _ Hnd Hi Hj) as (Hne & e0 & Hin & He).
  destruct es as [|[ll el] es0 _] using rev_ind; [done|]. exists es0, ll, el. split; [done|].
  rewrite del_agents_snoc in Hj. unfold gap_heap. destruct (Nat.ltb_spec i (length es0)) as [Hlt|Hge].
  - destruct (decide (i = j)) as [<-|Hij].
    + rewrite list_lookup_insert_eq in Hj by done. injection Hj as <- <-. by rewrite lookup_insert_eq.
    + rewrite list_lookup_insert_ne in Hj by done.
      assert (l' ≠ ll) as Hll.
      { intros ->. rewrite fmap_app in Hnd. apply NoDup_app in Hnd as (_ & Hdisj & _).
        apply (Hdisj ll); [|by left]. apply list_elem_of_fmap. exists (ll, e').
        split; [done|]. by eapply list_elem_of_lookup_2. }
      rewrite lookup_insert_ne, lookup_delete_ne by done. apply (Hh j). by apply lookup_app_l_Some.
  - rewrite lookup_delete_ne by done. apply (Hh j). by apply lookup_app_l_Some.
Qed.

Lemma gap_heap_other (h : gmap loc keyentry) l es0 ll el i x :
  x ≠ l → x ≠ ll → gap_heap h l es0 ll el i !! x = h !! x.
Proof.
  intros. unfold gap_heap. destruct (i <? length es0)%nat; by rewrite ?lookup_insert_ne, lookup_delete_ne.
Qed.

Lemma length_del_agents es i l e : es !! i = Some (l, e) → length (del_agents es i) = (length es - 1)%nat.
Proof.
  destruct es as [|[ll el] es0 _] using rev_ind; [done|]. intros _. rewrite del_agents_snoc, length_app.
  cbn [length]. destruct (i <? length es0)%nat; rewrite ?length_insert; lia.
Qed.

Lemma del_agents_NoDup es i l e : NoDup es.*1 → es !! i = Some (l, e) → NoDup (del_agents es i).*1.
Proof.
  intros Hnd Hi. destruct es as [|[ll el] es0 _] using rev_ind; [done|]. rewrite del_agents_snoc.
  pose proof Hnd as Hnd'. rewrite fmap_app in Hnd'. apply NoDup_app in Hnd' as (Hnd' & Hdisj & _).
  destruct (Nat.ltb_spec i (length es0)) as [Hlt|]; [|done].
  apply NoDup_alt. intros j k x Hj Hk. rewrite list_fmap_insert in Hj, Hk. cbn [fst] in Hj, Hk.
  assert (∀ k, es0.*1 !! k ≠ Some ll) as Hll.
  { intros k' Hk'. apply (Hdisj ll); [by eapply list_elem_of_lookup_2|by left]. }
  destruct (decide (i = j)) as [<-|Hij], (decide (i = k)) as [<-|Hik]; [done|..].
  - rewrite list_lookup_insert_eq in Hj by (by rewrite length_fmap). injection Hj as <-.
    rewrite list_lookup_insert_ne in Hk by done. by destruct (Hll k).
  - rewrite list_lookup_insert_eq in Hk by (by rewrite length_fmap). injection Hk as <-.
    rewrite list_lookup_insert_ne in Hj by done. by destruct (Hll j).
  - rewrite list_lookup_insert_ne in Hj, Hk by done. by eapply NoDup_lookup.
Qed.

(** The array and the heap after a deletion. *)
Lemma delete_memory m ks es sender i l e :
  ks_inv m ks es sender → es !! i = Some (l, e) →
  ∃ h slack,
    (m' ← OS_FreeKey m l; close_gap m' (keyentries ks) (keysize ks - 1) i) =
      Ret (set_heap m h, (Some <$> (del_agents es i).*1) ++ Some sender :: slack) ∧
    (∀ j l' e', del_agents es i !! j = Some (l', e') → h !! l' = Some e' ∧ keyid e' = j) ∧
    h !! sender = kheap m !! sender ∧ h !! l = None ∧ ∀ x, x ∉ es.*1 → h !! x = kheap m !! x.
Proof.
  intros Hi Hl. destruct (inv_array _ _ _ _ Hi) as [slack Ha].
  pose proof (inv_nodup _ _ _ _ Hi) as [Hsn Hnd]%NoDup_cons.
  assert (∀ k x y, es !! k = Some (x, y) → kheap m !! x = Some y ∧ keyid y = k) as Hent.
  { intros k x y Hk. by destruct (inv_entry _ _ _ _ Hi k x y Hk) as (? & ? & _). }
  destruct es as [|[ll el] es0 _] using rev_ind; [done|].
  assert ((es0 ++ [(ll, el)]) !! length es0 = Some (ll, el)) as Hll by (by apply lookup_at_0).
  assert (i < length es0 → l ≠ ll)%nat as Hne.
  { intros Hlt ->. assert (i = length es0); [|lia]. by eapply inv_same_loc. }
  destruct (close_gap_spec m es0 ll el l e i sender slack) as [slack' E];
    [by eapply Hent|done|done|].
  assert (∀ x, x ∉ (es0 ++ [(ll, el)]).*1 → gap_heap (kheap m) l es0 ll el i !! x = kheap m !! x) as Hother.
  { intros x Hx. apply gap_heap_other; intros ->; apply Hx, list_elem_of_fmap.
    - exists (l, e). split; [done|]. by eapply list_elem_of_lookup_2.
    - exists (ll, el). split; [done|]. by eapply list_elem_of_lookup_2. }
  exists (gap_heap (kheap m) l es0 ll el i), slack'. split_and!.
  - unfold OS_FreeKey. destruct (Hent _ _ _ Hl) as [-> _]. cbn [c_deref]. rewrite !outcome_bind_ret.
    rewrite (inv_size _ _ _ _ Hi), length_app. cbn [length].
    replace (length es0 + 1 - 1)%nat with (length es0) by lia. by rewrite Ha.
  - intros j l' e' Hj.
    destruct (gap_heap_entry _ _ _ _ _ _ _ _ Hnd Hl Hent Hj) as (es1 & l1 & e1 & Heq & ?).
    apply app_inj_tail in Heq as [-> [= -> ->]]. done.
  - by apply Hother.
  - unfold gap_heap. destruct (Nat.ltb_spec i (length es0)) as [Hlt|]; [|by rewrite lookup_delete_eq].
    rewrite lookup_insert_ne by (symmetry; by apply Hne). by rewrite lookup_delete_eq.
  - done.
Qed.

Lemma delete_dictionaries m ks es sender i l e a id_ :
  ks_inv m ks es sender → es !! i = Some (l, e) → id e = Some id_ → kip e = Some a →
  (∀ k v, delete id_ (sm_map (keytree_id ks)) !! k = Some v ↔
    ∃ l' e', (l', e') ∈ del_agents es i ∧ v = Some l' ∧ id e' = Some k) ∧
  (∀ k v, delete (ip a) (sm_map (keytree_ip ks)) !! k = Some v →
    ∃ l' e', (l', e') ∈ del_agents es i ∧ v = Some l' ∧ ∃ a', kip e' = Some a' ∧ ip a' = k) ∧
  (∀ k v, (if 0 <=? sock e then delete (str_sock (sock e)) (sm_map (keytree_sock ks))
           else sm_map (keytree_sock ks)) !! k = Some v →
    ∃ l' e', (l', e') ∈ del_agents es i ∧ v = Some l' ∧ 0 ≤ sock e' ∧ str_sock (sock e') = k).
Proof.
  intros Hi Hl Hid Ha. pose proof (inv_nodup _ _ _ _ Hi) as [_ Hnd]%NoDup_cons.
  assert ((l, e) ∈ es) as Hin by (by eapply list_elem_of_lookup_2). split_and!.
  - intros k v. split.
    + revert k v. apply (tree_after_delete es i l e (λ e0 k, id e0 = Some k)); [done..|].
      intros k v [Hne (l' & e' & Hin' & -> & Hk)%(inv_id _ _ _ _ Hi)]%lookup_delete_Some.
      exists l', e'. split_and!; try done. intros ->.
      rewrite (NoDup_fst_eq es l e' e) in Hk by done. congruence.
    + intros (l' & e' & [j Hj]%list_elem_of_lookup & -> & Hid').
      destruct (del_agents_lookup _ _ _ _ _ _ _ Hnd Hl Hj) as (Hne & e0 & Hin0 & He).
      assert (id e0 = Some k) as Hid0 by (by destruct He as [[_ ->]| ->]).
      apply lookup_delete_Some. split; [|apply (inv_id _ _ _ _ Hi); eauto].
      intros <-. apply list_elem_of_lookup in Hin0 as [j0 Hj0].
      assert (j0 = i) as -> by (by eapply inv_same_id). congruence.
  - apply (tree_after_delete es i l e (λ e0 k, ∃ a', kip e0 = Some a' ∧ ip a' = k)); [done..|].
    intros k v [Hne (l' & e' & a' & Hin' & -> & Ha' & <-)%(inv_ip _ _ _ _ Hi)]%lookup_delete_Some.
    exists l', e'. split_and!; [done|done| |by eauto]. intros ->.
    rewrite (NoDup_fst_eq es l e' e) in Ha' by done. congruence.
  - apply (tree_after_delete es i l e (λ e0 k, 0 ≤ sock e0 ∧ str_sock (sock e0) = k)); [done..|].
    intros k v Hk.
    assert (sm_map (keytree_sock ks) !! k = Some v ∧ (0 ≤ sock e → k ≠ str_sock (sock e))) as [Hk' Hne].
    { destruct (Z.leb_spec 0 (sock e)); [|split; [done|lia]].
      apply lookup_delete_Some in Hk as [??]. by split. }
    destruct (inv_sock _ _ _ _ Hi _ _ Hk') as (l' & e' & Hin' & -> & Hge & <-).
    exists l', e'. split_and!; try done. intros ->.
    rewrite (NoDup_fst_eq es l e' e) in Hge, Hne by done. by apply Hne.
Qed.

Lemma delete_entry_inv m ks es sender id_ i l e :
  ks_inv m ks es sender → es !! i = Some (l, e) → id e = Some id_ →
  ∃ m' ks', delete_entry m ks id_ i l e = Ret (m', ks') ∧ ks_inv m' ks' (del_agents es i) sender ∧
    key_mode ks' = key_mode ks ∧ save_removed ks' = save_removed ks ∧
    id_counter ks' = id_counter ks ∧ removed_keys ks' = removed_keys ks ∧
    ∃ a, kip e = Some a ∧ sm_map (keytree_ip ks') = delete (ip a) (sm_map (keytree_ip ks)).
Proof.
  intros Hi Hl Hid. pose proof (inv_nodup _ _ _ _ Hi) as [Hsn Hnd]%NoDup_cons.
  destruct (inv_entry _ _ _ _ Hi _ _ _ Hl) as (_ & _ & Hok). pose proof Hok as (_ & _ & [a Ha] & _).
  destruct (tree_wf_id _ _ _ _ Hi) as [W1 D1], (tree_wf_ip _ _ _ _ Hi) as [W2 D2], (tree_wf_sock _ _ _ _ Hi) as [W3 D3].
  destruct (sm_delete_any _ id_ W1 D1) as (t1 & b1 & E1 & Wt1 & Dt1 & M1).
  destruct (sm_delete_any _ (ip a) W2 D2) as (t2 & b2 & E2 & Wt2 & Dt2 & M2).
  assert (∃ t3, (if 0 <=? sock e then '(t, _, _) ← sm_delete (keytree_sock ks) (str_sock (sock e)); Ret t
      else Ret (keytree_sock ks)) = Ret t3 ∧ sm_wf t3 ∧ sm_dispose t3 = false ∧
    sm_map t3 = if 0 <=? sock e then delete (str_sock (sock e)) (sm_map (keytree_sock ks))
      else sm_map (keytree_sock ks)) as (t3 & E3 & Wt3 & Dt3 & M3).
  { destruct (0 <=? sock e); [|by exists (keytree_sock ks)].
    destruct (sm_delete_any _ (str_sock (sock e)) W3 D3) as (t3 & b3 & E3 & ?).
    exists t3. by rewrite E3. }
  destruct (delete_memory _ _ _ _ _ _ _ Hi Hl) as (h & slack & Em & Hh & Hs & Hgone & Hother).
  destruct (delete_dictionaries _ _ _ _ _ _ _ _ _ Hi Hl Hid Ha) as (T1 & T2 & T3).
  eexists (set_heap m h), _. split.
  { unfold delete_entry. rewrite E1, outcome_bind_ret, Ha. cbn [c_deref].
    rewrite outcome_bind_ret, E2, outcome_bind_ret, E3, outcome_bind_ret.
    apply outcome_bind_Ret_inv in Em as (m' & -> & Em). rewrite outcome_bind_ret, Em, outcome_bind_ret. done. }
  split; [|split_and!; try done; by exists a]. constructor; cbn [keyentries keysize key_mode keytree_id keytree_ip keytree_sock kheap kmasks set_heap].
  - by exists slack.
  - rewrite (inv_size _ _ _ _ Hi). symmetry. by eapply length_del_agents.
  - apply NoDup_cons. split; [|by eapply del_agents_NoDup].
    intros ([l' e'] & -> & [j Hj]%list_elem_of_lookup)%list_elem_of_fmap.
    destruct (del_agents_lookup _ _ _ _ _ _ _ Hnd Hl Hj) as (_ & e0 & Hin0 & _).
    apply Hsn, list_elem_of_fmap. by exists (l', e0).
  - intros j l' e' Hj. destruct (Hh _ _ _ Hj) as [Hh1 Hh2]. split_and!; [done..|].
    destruct (del_agents_lookup _ _ _ _ _ _ _ Hnd Hl Hj) as (_ & e0 & [j0 Hj0]%list_elem_of_lookup & He).
    destruct (inv_entry _ _ _ _ Hi _ _ _ Hj0) as (_ & _ & Hok0).
    by destruct He as [[_ ->]| ->].
  - rewrite Hs. apply Hi.
  - repeat constructor; done.
  - intros k v. rewrite M1. apply T1.
  - intros k v Hk. rewrite M2 in Hk. destruct (T2 _ _ Hk) as (l' & e' & ? & ? & a' & ? & ?). by eauto 10.
  - intros k v Hk. rewrite M3 in Hk. by apply T3.
  - apply Hi.
  - intros x Hx. apply not_elem_of_cons in Hx as [Hxs Hx]. destruct (decide (x = l)) as [->|Hxl].
    + rewrite Hgone. symmetry. apply (inv_own _ _ _ _ Hi), elem_of_cons. right.
      apply list_elem_of_fmap. exists (l, e). split; [done|]. by eapply list_elem_of_lookup_2.
    + assert (x ∉ es.*1) as Hxe.
      { intros ([x' e0] & -> & Hin)%list_elem_of_fmap.
        destruct (del_agents_left es i l e x' e0 Hl Hin Hxl) as (j & e' & Hj & _).
        apply Hx, list_elem_of_fmap. exists (x', e'). split; [done|]. by eapply list_elem_of_lookup_2. }
      rewrite Hother by done. apply (inv_frame _ _ _ _ Hi). apply not_elem_of_cons. done.
  - intros x [->|([x' e'] & -> & [j Hj]%list_elem_of_lookup)%list_elem_of_fmap]%elem_of_cons.
    + apply (inv_own _ _ _ _ Hi). by left.
    + destruct (del_agents_lookup _ _ _ _ _ _ _ Hnd Hl Hj) as (_ & e0 & Hin0 & _).
      apply (inv_own _ _ _ _ Hi). right. apply list_elem_of_fmap. by exists (x', e0).
Qed.

Lemma save_removed_key_inv m ks es sender line :
  ks_inv m ks es sender → ks_inv m (save_removed_key ks line) es sender.
Proof. intros []. by constructor. Qed.

Lemma OS_DeleteKey_inv m ks es sender id_ purge :
  ks_inv m ks es sender → has_raw_key (key_mode ks) = true →
  let r := index_of (has_id id_) es.*2 in
  ∃ m' ks', OS_DeleteKey m ks id_ purge = Ret (m', ks', r) ∧
    ks_inv m' ks' (if r <? 0 then es else del_agents es (Z.to_nat r)) sender ∧
    key_mode ks' = key_mode ks ∧ save_removed ks' = save_removed ks ∧ id_counter ks' = id_counter ks ∧
    removed_keys ks' = removed_keys ks ++
      (if r <? 0 then []
       else if save_removed ks && negb purge then option_list (removed_of <$> es.*2 !! Z.to_nat r) else []) ∧
    (0 ≤ r → ∃ e a, es.*2 !! Z.to_nat r = Some e ∧ kip e = Some a ∧
       sm_map (keytree_ip ks') = delete (ip a) (sm_map (keytree_ip ks))).
Proof.
  intros Hi Hm r. unfold OS_DeleteKey. rewrite Hm, (OS_IsAllowedID_index _ _ es sender) by done.
  cbn [negb]. rewrite outcome_bind_ret. fold r. destruct (Z.ltb_spec r 0) as [Hr|Hr].
  { exists m, ks. assert (r = -1) as ->.
    { unfold r, index_of in *. destruct (list_find _ _) as [[j x]|]; [lia|done]. }
    split_and!; [done..|by rewrite app_nil_r|lia]. }
  destruct (index_of_inv _ _ _ _ _ _ Hi eq_refl Hr) as (l & e & Hl & Hid). fold r in Hl.
  rewrite (entry_at_inv _ _ _ _ _ _ _ Hi Hl), outcome_bind_ret.
  destruct (inv_entry _ _ _ _ Hi _ _ _ Hl) as (_ & _ & Hok).
  rewrite list_lookup_fmap, Hl. cbn [fmap option_fmap option_map snd option_list].
  destruct (save_removed ks && negb purge).
  - rewrite (removed_line_ok _ _ Hok Hm), !outcome_bind_ret.
    destruct (delete_entry_inv m (save_removed_key ks (removed_of e)) es sender id_ (Z.to_nat r) l e)
      as (m' & ks' & -> & Hinv & ? & ? & ? & Hrem & a & Ha & Hip); [by apply save_removed_key_inv|done..|].
    rewrite outcome_bind_ret. exists m', ks'. split_and!; try done. by exists e, a.
  - rewrite outcome_bind_ret.
    destruct (delete_entry_inv m ks es sender id_ (Z.to_nat r) l e)
      as (m' & ks' & -> & Hinv & ? & ? & ? & Hrem & a & Ha & Hip); [done..|].
    rewrite outcome_bind_ret. exists m', ks'. rewrite app_nil_r. split_and!; try done. by exists e, a.
Qed.

(** ** Sockets *)

(** The entry at [i] gets another socket, and the dictionary of sockets changes. *)
Lemma set_sock_inv m ks es sender i l e s t :
  ks_inv m ks es sender → es !! i = Some (l, e) → sm_wf t → sm_dispose t = false →
  (∀ k v, sm_map t !! k = Some v → ∃ l' e', (l', e') ∈ <[i := (l, set_sock e s)]> es ∧ v = Some l' ∧
    0 ≤ sock e' ∧ str_sock (sock e') = k) →
  ks_inv (set_heap m (<[l := set_sock e s]> (kheap m))) (set_keytree_sock ks t)
    (<[i := (l, set_sock e s)]> es) sender.
Proof.
  intros Hi Hl Wt Dt Ht. pose proof (inv_nodup _ _ _ _ Hi) as Hn. pose proof Hn as [Hsn Hnd]%NoDup_cons.
  assert ((<[i := (l, set_sock e s)]> es).*1 = es.*1) as Efst.
  { rewrite list_fmap_insert. cbn [fst]. apply list_insert_id. by rewrite list_lookup_fmap, Hl. }
  assert (∀ l' x, (l', x) ∈ <[i := (l, set_sock e s)]> es →
    ∃ x0, (l', x0) ∈ es ∧ id x0 = id x ∧ kip x0 = kip x) as Hback.
  { intros l' x [j Hj]%list_elem_of_lookup. destruct (decide (i = j)) as [<-|Hij].
    - rewrite list_lookup_insert_eq in Hj by (by eapply lookup_lt_Some). injection Hj as <- <-.
      exists e. split; [by eapply list_elem_of_lookup_2|done].
    - rewrite list_lookup_insert_ne in Hj by done. exists x. split; [by eapply list_elem_of_lookup_2|done]. }
  assert (∀ l' x0, (l', x0) ∈ es → ∃ x, (l', x) ∈ <[i := (l, set_sock e s)]> es ∧ id x = id x0 ∧ kip x = kip x0)
    as Hforw.
  { intros l' x0 [j Hj]%list_elem_of_lookup. destruct (decide (i = j)) as [<-|Hij].
    - rewrite Hl in Hj. injection Hj as <- <-. exists (set_sock e s). split; [|done].
      eapply (list_elem_of_lookup_2 _ i). apply list_lookup_insert_eq. by eapply lookup_lt_Some.
    - exists x0. split; [|done]. eapply (list_elem_of_lookup_2 _ j). by rewrite list_lookup_insert_ne. }
  constructor; cbn [keyentries keysize key_mode keytree_id keytree_ip keytree_sock kheap kmasks set_heap
    set_keytree_sock]; try done.
  - rewrite Efst. apply Hi.
  - rewrite length_insert. apply Hi.
  - by rewrite Efst.
  - intros j l' x Hj. destruct (decide (i = j)) as [<-|Hij].
    + rewrite list_lookup_insert_eq in Hj by (by eapply lookup_lt_Some). injection Hj as <- <-.
      rewrite lookup_insert_eq. by destruct (inv_entry _ _ _ _ Hi _ _ _ Hl) as (_ & ? & ?).
    + rewrite list_lookup_insert_ne in Hj by done. rewrite lookup_insert_ne; [by apply (inv_entry _ _ _ _ Hi)|].
      intros <-. by apply Hij; eapply inv_same_loc.
  - rewrite lookup_insert_ne; [apply Hi|]. intros ->. apply Hsn, list_elem_of_fmap.
    exists (sender, e). split; [done|by eapply list_elem_of_lookup_2].
  - destruct (tree_wf_id _ _ _ _ Hi), (tree_wf_ip _ _ _ _ Hi). by repeat constructor.
  - intros k v. rewrite (inv_id _ _ _ _ Hi). split.
    + intros (l' & x0 & Hin & -> & Hid). destruct (Hforw _ _ Hin) as (x & ? & Hx & _).
      exists l', x. by rewrite Hx.
    + intros (l' & x & Hin & -> & Hid). destruct (Hback _ _ Hin) as (x0 & ? & Hx & _).
      exists l', x0. by rewrite Hx.
  - intros k v Hk. destruct (inv_ip _ _ _ _ Hi _ _ Hk) as (l' & x0 & a & Hin & -> & Ha & <-).
    destruct (Hforw _ _ Hin) as (x & ? & _ & Hx). exists l', x, a. by rewrite Hx.
  - apply Hi.
  - intros x Hx. rewrite Efst in Hx. rewrite lookup_insert_ne; [by apply (inv_frame _ _ _ _ Hi)|].
    intros ->. apply Hx. right. apply list_elem_of_fmap. exists (x, e).
    split; [done|]. by eapply list_elem_of_lookup_2.
  - intros x Hx. rewrite Efst in Hx. by apply (inv_own _ _ _ _ Hi).
Qed.

(** [remoted] stores the socket in the entry of an agent that has none, or the
    same one, and then adds it to the dictionary. *)
Definition connect (m : kmem) (ks : keystore) (i : nat) (s : Z) : outcome (kmem * keystore) :=
  '(l, e) ← entry_at m ks i;
  if (0 <=? sock e) && negb (sock e =? s) then Ret (m, ks)
  else
    let m := set_heap m (<[l := set_sock e s]> (kheap m)) in
    '(ks, _) ← OS_AddSocket ks i s;
    Ret (m, ks).

Lemma OS_AddSocket_ok m ks es sender i l e s :
  ks_inv m ks es sender → es !! i = Some (l, e) →
  ∃ t r, OS_AddSocket ks i s = Ret (set_keytree_sock ks t, r) ∧ sm_wf t ∧ sm_dispose t = false ∧
    sm_map t = <[str_sock s := Some l]> (sm_map (keytree_sock ks)) ∧
    r = if decide (is_Some (sm_map (keytree_sock ks) !! str_sock s))
        then OS_ADDSOCKET_KEY_UPDATED else OS_ADDSOCKET_KEY_ADDED.
Proof.
  intros Hi Hl. destruct (tree_wf_sock _ _ _ _ Hi) as [Hw Hd]. unfold OS_AddSocket.
  pose proof (entry_at_inv _ _ _ _ _ _ _ Hi Hl) as (p & Hp & Hrest)%outcome_bind_Ret_inv.
  apply outcome_bind_Ret_inv in Hrest as (l0 & Hpl & Hrest).
  apply outcome_bind_Ret_inv in Hrest as (e0 & _ & [= -> ->]).
  destruct p as [l'|]; [|done]. injection Hpl as ->. rewrite Hp, outcome_bind_ret.
  destruct (sm_map (keytree_sock ks) !! str_sock s) as [v|] eqn:E.
  - rewrite sm_insert_dup, outcome_bind_ret by (done || by rewrite E).
    destruct (sm_replace_spec (keytree_sock ks) (str_sock s) (Some l) Hw) as (? & Hd' & ?); [by rewrite E|].
    rewrite decide_True by done. eexists _, _. split_and!; [done|done|by rewrite Hd'|done|].
    rewrite bool_decide_eq_true_2; [done|]. apply sm_keys_spec; [done|]. by rewrite E.
  - destruct (sm_insert_new (keytree_sock ks) (str_sock s) (Some l) Hw E) as (t & -> & ? & Hd' & ?).
    rewrite outcome_bind_ret, decide_False by (by intros [? ?]).
    exists t, OS_ADDSOCKET_KEY_ADDED. split_and!; try done. by rewrite Hd'.
Qed.

Lemma connect_inv m ks es sender i l e s :
  ks_inv m ks es sender → es !! i = Some (l, e) → 0 ≤ s →
  ∃ m' ks' es', connect m ks i s = Ret (m', ks') ∧ ks_inv m' ks' es' sender ∧
    (es' = es ∨ es' = <[i := (l, set_sock e s)]> es) ∧
    key_mode ks' = key_mode ks ∧ save_removed ks' = save_removed ks ∧ removed_keys ks' = removed_keys ks.
Proof.
  intros Hi Hl Hs. unfold connect. rewrite (entry_at_inv _ _ _ _ _ _ _ Hi Hl), outcome_bind_ret.
  destruct ((0 <=? sock e) && negb (sock e =? s)) eqn:Eg.
  { exists m, ks, es. split_and!; try done. by left. }
  destruct (OS_AddSocket_ok _ _ _ _ _ _ _ s Hi Hl) as (t & r & -> & Wt & Dt & Mt & _). rewrite outcome_bind_ret.
  eexists _, _, _. split_and!; [done| |by right|done..].
  apply set_sock_inv; try done. intros k v Hk. rewrite Mt in Hk.
  assert (i < length es)%nat as Hlt by (by eapply lookup_lt_Some).
  destruct (decide (k = str_sock s)) as [->|Hks].
  - rewrite lookup_insert_eq in Hk. injection Hk as <-. exists l, (set_sock e s). split_and!; try done.
    eapply (list_elem_of_lookup_2 _ i). by apply list_lookup_insert_eq.
  - rewrite lookup_insert_ne in Hk by done.
    destruct (inv_sock _ _ _ _ Hi _ _ Hk) as (l' & e' & [j Hj]%list_elem_of_lookup & -> & Hge & <-).
    exists l', e'. split_and!; try done. eapply (list_elem_of_lookup_2 _ j).
    rewrite list_lookup_insert_ne; [done|]. intros <-. rewrite Hl in Hj. injection Hj as <- <-.
    apply andb_false_iff in Eg as [Eg|Eg]; [apply Z.leb_gt in Eg; lia|].
    apply negb_false_iff, Z.eqb_eq in Eg. congruence.
Qed.

Lemma OS_DeleteSocket_inv m ks es sender s :
  ks_inv m ks es sender →
  ∃ m' ks' es' r, OS_DeleteSocket m ks s = Ret (m', ks', r) ∧ ks_inv m' ks' es' sender ∧
    (es' = es ∨ ∃ i l e, es !! i = Some (l, e) ∧ sock e = s ∧ es' = <[i := (l, set_sock e (-1))]> es) ∧
    key_mode ks' = key_mode ks ∧ save_removed ks' = save_removed ks ∧ removed_keys ks' = removed_keys ks.
Proof.
  intros Hi. destruct (tree_wf_sock _ _ _ _ Hi) as [Hw Hd]. unfold OS_DeleteSocket. rewrite sm_get_spec by done.
  destruct (sm_map (keytree_sock ks) !! str_sock s) as [v|] eqn:E.
  2: { exists m, ks, es, (-1). split_and!; try done. by left. }
  destruct (inv_sock _ _ _ _ Hi _ _ E) as (l & e & Hin & -> & Hge & Hse).
  assert (sock e = s) as Hs by (by apply (inj pretty)).
  destruct (inv_lookup _ _ _ _ _ _ Hi Hin) as (i & Hl & Hh & _). cbn [mjoin option_join].
  unfold c_deref. rewrite Hh, outcome_bind_ret, Hs, Z.eqb_refl.
  destruct (sm_delete_any _ (str_sock s) Hw Hd) as (t & b & -> & Wt & Dt & Mt). rewrite outcome_bind_ret.
  eexists _, _, _, _. split_and!; [done| |right; by exists i, l, e|done..].
  apply set_sock_inv; try done. intros k v' Hk. rewrite Mt in Hk. apply lookup_delete_Some in Hk as [Hne Hk].
  destruct (inv_sock _ _ _ _ Hi _ _ Hk) as (l' & e' & [j Hj]%list_elem_of_lookup & -> & Hge' & <-).
  exists l', e'. split_and!; try done. eapply (list_elem_of_lookup_2 _ j).
  rewrite list_lookup_insert_ne; [done|]. intros <-. rewrite Hl in Hj. injection Hj as <- <-. congruence.
Qed.

(** ** Releasing a store *)

Lemma free_entries_ok m ls :
  NoDup ls → (∀ l, l ∈ ls → is_Some (kheap m !! l)) →
  ∃ m', free_entries m (Some <$> ls) = Ret m' ∧
    ∀ x, kheap m' !! x = if decide (x ∈ ls) then None else kheap m !! x.
Proof.
  intros Hnd. revert m. induction Hnd as [|l ls Hl Hnd IH]; intros m Hm.
  { exists m. split; [done|]. intros x. by rewrite decide_False by apply not_elem_of_nil. }
  cbn [fmap list_fmap free_entries]. unfold OS_FreeKey.
  destruct (Hm l) as [e He]; [by left|]. rewrite He. cbn [c_deref]. rewrite !outcome_bind_ret.
  destruct (IH (set_heap m (delete l (kheap m)))) as (m' & -> & Hm').
  { intros l' Hl'. cbn [kheap set_heap]. rewrite lookup_delete_ne by (by intros ->). apply Hm. by right. }
  exists m'. split; [done|]. intros x. rewrite Hm'. cbn [kheap set_heap].
  destruct (decide (x ∈ ls)), (decide (x ∈ l :: ls)) as [Hx|Hx]; try done.
  - by destruct Hx; right.
  - apply elem_of_cons in Hx as [->|]; [|done]. by rewrite lookup_delete_eq.
  - rewrite lookup_delete_ne; [done|]. intros ->. apply Hx. by left.
Qed.

Lemma OS_FreeKeys_ok m ks es sender :
  ks_inv m ks es sender → ∃ m', OS_FreeKeys m ks = Ret m' ∧ kheap m' = h0.
Proof.
  intros Hi. destruct (inv_array _ _ _ _ Hi) as [slack Ha].
  assert (keyentries ks = (Some <$> es.*1 ++ [sender]) ++ slack) as Ha'.
  { rewrite Ha, fmap_app, <- app_assoc. done. }
  assert (length (Some <$> es.*1 ++ [sender]) = keysize ks + 1)%nat as Hlen.
  { rewrite length_fmap, length_app, length_fmap, (inv_size _ _ _ _ Hi). done. }
  unfold OS_FreeKeys. rewrite c_slice_ok, outcome_bind_ret by (rewrite Ha', length_app; lia).
  rewrite drop_0, Ha', <- Hlen, take_app_length.
  pose proof (inv_nodup _ _ _ _ Hi) as Hn. rewrite (Permutation_cons_append es.*1 sender) in Hn.
  destruct (free_entries_ok m (es.*1 ++ [sender]) Hn) as (m' & -> & Hm').
  { intros l [Hin| ->]%elem_of_snoc; [|by apply (inv_sender _ _ _ _ Hi)].
    apply list_elem_of_fmap in Hin as ([l' e] & -> & Hin).
    destruct (inv_lookup _ _ _ _ _ _ Hi Hin) as (i & _ & Hh & _). by eexists. }
  exists m'. split; [done|]. apply map_eq. intros x. rewrite Hm'. destruct (decide _) as [Hin|Hin].
  - symmetry. apply (inv_own _ _ _ _ Hi). by rewrite (Permutation_cons_append es.*1 sender).
  - apply (inv_frame _ _ _ _ Hi). by rewrite (Permutation_cons_append es.*1 sender).
Qed.

(** ** The store as a list of agents

    The sockets are left out of the list. *)

Definition forget (e : keyentry) : keyentry := set_sock e 0.

Record agents : Type := mk_agents { ag_list : list keyentry; ag_removed : list string }.

Inductive kop : Type :=
  | KAdd (id nm ip_ : string) (a : os_ip) (key : string) (t : Z)
  | KDelete (id : string) (purge : bool)
  | KFindId (id : string)
  | KFindName (nm : string)
  | KConnect (i : nat) (s : Z)
  | KDisconnect (s : Z).

Definition kexec (m : kmem) (ks : keystore) (op : kop) : outcome (kmem * keystore * Z) :=
  match op with
  | KAdd id nm ip_ _ key t =>
      r ← OS_AddKey m ks id nm ip_ key t;
      match r with Some (m, ks, i) => Ret (m, ks, Z.of_nat i) | None => Stuck AssertFail end
  | KDelete id purge => OS_DeleteKey m ks id purge
  | KFindId id => r ← OS_IsAllowedID m ks (Some id); Ret (m, ks, r)
  | KFindName nm => r ← OS_IsAllowedName m ks nm; Ret (m, ks, r)
  | KConnect i s => '(m, ks) ← connect m ks i s; Ret (m, ks, 0)
  | KDisconnect s => '(m, ks, _) ← OS_DeleteSocket m ks s; Ret (m, ks, 0)
  end.

Fixpoint krun (m : kmem) (ks : keystore) (ops : list kop) : outcome (kmem * keystore * list Z) :=
  match ops with
  | [] => Ret (m, ks, [])
  | op :: ops =>
      '(m, ks, r) ← kexec m ks op;
      '(m, ks, rs) ← krun m ks ops;
      Ret (m, ks, r :: rs)
  end.

Definition aexec (mode : key_mode_t) (save : bool) (st : agents) (op : kop) : agents * Z :=
  let l := ag_list st in
  match op with
  | KAdd id nm _ a key t =>
      (mk_agents (l ++ [forget (new_entry mode (length l) id nm (cut_slash a) key t)]) (ag_removed st),
       Z.of_nat (length l))
  | KDelete id purge =>
      let r := index_of (has_id id) l in
      if r <? 0 then (st, -1)
      else (mk_agents (del_entries l (Z.to_nat r))
              (ag_removed st ++ if save && negb purge then option_list (removed_of <$> l !! Z.to_nat r) else []),
            r)
  | KFindId id => (st, index_of (has_id id) l)
  | KFindName nm => (st, index_of (has_name nm) l)
  | KConnect _ _ | KDisconnect _ => (st, 0)
  end.

Fixpoint arun (mode : key_mode_t) (save : bool) (st : agents) (ops : list kop) : agents * list Z :=
  match ops with
  | [] => (st, [])
  | op :: ops =>
      let '(st, r) := aexec mode save st op in
      let '(st, rs) := arun mode save st ops in
      (st, r :: rs)
  end.

(** New agents have an identifier of their own and an address that is accepted. *)
Definition op_ok (st : agents) (op : kop) : Prop :=
  match op with
  | KAdd id _ ip_ a _ _ => accepts ip_ a ∧ index_of (has_id id) (ag_list st) = -1
  | KConnect i s => (i < length (ag_list st))%nat ∧ 0 ≤ s
  | _ => True
  end.

Fixpoint ops_ok (mode : key_mode_t) (save : bool) (st : agents) (ops : list kop) : Prop :=
  match ops with
  | [] => True
  | op :: ops => op_ok st op ∧ ops_ok mode save (fst (aexec mode save st op)) ops
  end.

Lemma index_of_forget f es : (∀ e, f (forget e) = f e) → index_of f (forget <$> es) = index_of f es.
Proof.
  intros Hf. unfold index_of. rewrite list_find_fmap.
  rewrite (list_find_ext _ (λ e, f e = true)) by (intros; cbn; by rewrite Hf).
  by destruct (list_find _ es) as [[i e]|].
Qed.

Lemma del_entries_forget es i : forget <$> del_entries es i = del_entries (forget <$> es) i.
Proof.
  unfold del_entries. rewrite length_fmap, list_lookup_fmap.
  destruct (es !! (length es - 1)%nat) as [e|]; [|done]. cbn [fmap option_fmap option_map].
  destruct (i <? length es - 1)%nat; [|by rewrite fmap_take]. by rewrite list_fmap_insert, fmap_take.
Qed.

Lemma forget_insert (es : list (loc * keyentry)) i l e s :
  es !! i = Some (l, e) → forget <$> (<[i := (l, set_sock e s)]> es).*2 = forget <$> es.*2.
Proof.
  intros Hl. rewrite !list_fmap_insert. cbn [snd]. apply list_insert_id.
  by rewrite !list_lookup_fmap, Hl.
Qed.

(** The store represents the list of agents. *)
Definition represents (m : kmem) (ks : keystore) (st : agents) : Prop :=
  ∃ es sender, ks_inv m ks es sender ∧ forget <$> es.*2 = ag_list st ∧ removed_keys ks = ag_removed st.

Lemma kexec_represents m ks st op :
  represents m ks st → has_raw_key (key_mode ks) = true → op_ok st op →
  ∃ m' ks', kexec m ks op = Ret (m', ks', snd (aexec (key_mode ks) (save_removed ks) st op)) ∧
    represents m' ks' (fst (aexec (key_mode ks) (save_removed ks) st op)) ∧
    key_mode ks' = key_mode ks ∧ save_removed ks' = save_removed ks.
Proof.
  intros (es & sender & Hi & Hl & Hr) Hm Hok. destruct st as [al ar]. cbn in Hl, Hr. subst al ar.
  destruct op as [id_ nm ip_ a key t|id_ purge|id_|nm|i s|s]; cbn [op_ok ag_list] in Hok; cbn [kexec aexec ag_list].
  - destruct Hok as [Hacc Hnew]. rewrite index_of_forget in Hnew by done.
    destruct (OS_AddKey_inv _ _ _ _ _ nm _ _ key t Hi Hacc Hnew) as (m' & ks' & p & -> & Hi' & ? & ? & ? & ? & _).
    rewrite outcome_bind_ret. exists m', ks'. rewrite !length_fmap. split_and!; try done.
    eexists _, sender. split_and!; [exact Hi'| |done]. by rewrite !fmap_app.
  - destruct (OS_DeleteKey_inv _ _ _ _ id_ purge Hi Hm) as (m' & ks' & -> & Hi' & ? & ? & ? & Hrem & _).
    exists m', ks'. rewrite index_of_forget by done. set (r := index_of (has_id id_) es.*2) in *.
    destruct (Z.ltb_spec r 0) as [Hneg|Hge].
    + assert (r = -1) as -> by (unfold r, index_of in *; destruct (list_find _ _) as [[j x]|]; [lia|done]).
      split_and!; try done. exists es, sender. split_and!; try done. by rewrite Hrem, app_nil_r.
    + split_and!; try done. eexists _, sender. split_and!; [exact Hi'| |].
      * cbn [ag_list fst]. by rewrite del_agents_entries, del_entries_forget.
      * cbn [ag_removed fst]. rewrite Hrem, !list_lookup_fmap. by destruct (es !! Z.to_nat r) as [[l e]|].
  - rewrite (OS_IsAllowedID_index _ _ es sender), outcome_bind_ret, index_of_forget by done.
    exists m, ks. split_and!; try done. by exists es, sender.
  - rewrite (OS_IsAllowedName_index _ _ es sender), outcome_bind_ret, index_of_forget by done.
    exists m, ks. split_and!; try done. by exists es, sender.
  - destruct Hok as [Hlt Hs]. rewrite !length_fmap in Hlt.
    destruct (lookup_lt_is_Some_2 es i Hlt) as [[l e] Hle].
    destruct (connect_inv _ _ _ _ _ _ _ s Hi Hle Hs) as (m' & ks' & es' & -> & Hi' & Hes & ? & ? & ?).
    rewrite outcome_bind_ret. exists m', ks'. split_and!; try done. exists es', sender. split_and!; try done.
    destruct Hes as [->| ->]; [done|]. by apply forget_insert.
  - destruct (OS_DeleteSocket_inv _ _ _ _ s Hi) as (m' & ks' & es' & r & -> & Hi' & Hes & ? & ? & ?).
    rewrite outcome_bind_ret. exists m', ks'. split_and!; try done. exists es', sender. split_and!; try done.
    destruct Hes as [->|(i & l & e & Hle & _ & ->)]; [done|]. by apply forget_insert.
Qed.

Lemma krun_represents m ks st ops :
  represents m ks st → has_raw_key (key_mode ks) = true → ops_ok (key_mode ks) (save_removed ks) st ops →
  ∃ m' ks', krun m ks ops = Ret (m', ks', snd (arun (key_mode ks) (save_removed ks) st ops)) ∧
    represents m' ks' (fst (arun (key_mode ks) (save_removed ks) st ops)).
Proof.
  revert m ks st. induction ops as [|op ops IH]; intros m ks st Hrep Hm Hok; [by exists m, ks|].
  destruct Hok as [Hop Hok].
  destruct (kexec_represents _ _ _ _ Hrep Hm Hop) as (m1 & ks1 & E1 & Hrep1 & Hm1 & Hs1).
  destruct (aexec (key_mode ks) (save_removed ks) st op) as [st1 r1] eqn:Ea. cbn [fst snd] in *.
  rewrite <- Hm1, <- Hs1 in Hok. destruct (IH m1 ks1 st1 Hrep1) as (m2 & ks2 & E2 & Hrep2); [by rewrite Hm1|done|].
  exists m2, ks2. cbn [krun arun]. rewrite Ea, E1, outcome_bind_ret, E2, outcome_bind_ret.
  rewrite Hm1, Hs1 in *. by destruct (arun (key_mode ks) (save_removed ks) st1 ops).
Qed.

(** ** The empty store *)

Lemma empty_store_inv m mode save date ino :
  h0 = kheap m → masks_ok (kmasks m) →
  let p := malloc (dom (kheap m)) in
  ks_inv (set_heap m (<[p := keyentry_zero]> (kheap m)))
    (mk_keystore [Some p] sm_empty sm_empty sm_empty 0 date ino 0 mode save []) [] p.
Proof.
  intros Hh0 Hg p. assert (kheap m !! p = None) as Hp by (apply not_elem_of_dom, malloc_fresh).
  constructor; cbn [keyentries keysize key_mode keytree_id keytree_ip keytree_sock kheap kmasks set_heap].
  - by exists [].
  - done.
  - apply NoDup_singleton.
  - done.
  - by rewrite lookup_insert_eq.
  - repeat constructor; by (apply sm_empty_wf || apply sm_empty_dispose).
  - intros k v. rewrite sm_empty_map, lookup_empty. split; [done|]. by intros (? & ? & ?%elem_of_nil & _).
  - intros k v. by rewrite sm_empty_map, lookup_empty.
  - intros k v. by rewrite sm_empty_map, lookup_empty.
  - done.
  - intros x Hx. rewrite Hh0, lookup_insert_ne; [done|]. intros <-. apply Hx. by left.
  - intros x [->|?%elem_of_nil]%elem_of_cons; [by rewrite Hh0|done].
Qed.

(** ** Reading back what was written *)

Abbreviation newline := (ascii_of_nat 10).
Abbreviation OS_ReadKeys := (OS_ReadKeys (T := T) md5 pcre inet_pton4 inet_pton6 malloc uninit).
Abbreviation read_line := (read_line (T := T) md5 pcre inet_pton4 inet_pton6 malloc uninit).
Abbreviation read_loop := (read_loop (T := T) md5 pcre inet_pton4 inet_pton6 malloc uninit).

(** An agent as a line of the file shows it. *)
Record row : Type := mk_row {
  r_id : string; r_name : string; r_ip : os_ip; r_addr : string; r_key : string
}.

(** The printed address is read back as the stored one. *)
Definition reads_back (a : os_ip) (text : string) : Prop :=
  (∀ g, masks_ok g → mask_inited g = true → ∃ g',
     OS_CIDRtoStr g a IPSIZE = Ret (g', Some text, true) ∧ masks_ok g' ∧ mask_inited g' = true) ∧
  ∃ a0, accepts text a0 ∧ cut_slash a0 = a.

(** A text that fits into a field of the line. *)
Definition field_ok (s : string) : Prop :=
  has_char " " s = false ∧ has_char newline s = false ∧ (String.length s ≤ 127)%nat.

Definition row_ok (r : row) : Prop :=
  field_ok (r_id r) ∧ r_id r ≠ EmptyString ∧ starts_with "#" (r_id r) = false ∧
  field_ok (r_name r) ∧ starts_with "#" (r_name r) = false ∧ starts_with "!" (r_name r) = false ∧
  field_ok (r_addr r) ∧ reads_back (r_ip r) (r_addr r) ∧
  has_char newline (r_key r) = false ∧ (String.length (r_key r) ≤ 127)%nat.

Definition row_of (r : row) (e : keyentry) : Prop :=
  id e = Some (r_id r) ∧ name e = Some (r_name r) ∧ kip e = Some (r_ip r) ∧ raw_key e = Some (r_key r).

Definition row_body (r : row) : string :=
  r_id r +:+ " " +:+ r_name r +:+ " " +:+ r_addr r +:+ " " +:+ r_key r.

(** A line with its newline. *)
Definition line (s : string) : string := s +:+ String newline EmptyString.

(** The removed agents are lines of the right form, too. *)
Definition removed_ok (s : string) : Prop :=
  ∃ i rest, s = i +:+ " " +:+ rest ∧ has_char " " i = false ∧ i ≠ EmptyString ∧
    starts_with "#" i = false ∧ (starts_with "#" rest || starts_with "!" rest) = true ∧
    has_char newline s = false ∧ (String.length s < OS_BUFFER_SIZE - 1)%nat.

Lemma split_char_found c s r :
  has_char c s = false → split_char c (s +:+ String c r) = (s, Some r).
Proof.
  induction s as [|d s IH]; intros Hs.
  - change (EmptyString +:+ String c r) with (String c r). cbn [split_char].
    by rewrite bool_decide_eq_true_2.
  - change (String d s +:+ String c r) with (String d (s +:+ String c r)).
    cbn [has_char] in Hs. apply orb_false_iff in Hs as [Hd Hs]. apply bool_decide_eq_false in Hd.
    cbn [split_char]. rewrite bool_decide_eq_false_2 by done. by rewrite IH.
Qed.

Lemma has_char_app c s1 s2 : has_char c (s1 +:+ s2) = has_char c s1 || has_char c s2.
Proof.
  induction s1 as [|d s1 IH]; [done|]. change (String d s1 +:+ s2) with (String d (s1 +:+ s2)).
  cbn [has_char]. by rewrite IH, orb_assoc.
Qed.

Lemma fgets_line n s rest :
  has_char newline s = false → (String.length s < n)%nat → fgets n (line s +:+ rest) = (line s, rest).
Proof.
  revert n. induction s as [|c s IH]; intros n Hs Hn.
  - destruct n as [|n]; [simpl in Hn; lia|]. done.
  - destruct n as [|n]; [simpl in Hn; lia|].
    change (line (String c s) +:+ rest) with (String c (line s +:+ rest)).
    cbn [has_char] in Hs. apply orb_false_iff in Hs as [Hc Hs]. apply bool_decide_eq_false in Hc.
    cbn [fgets]. rewrite bool_decide_eq_false_2 by done. rewrite IH by (done || (simpl in Hn; lia)). done.
Qed.

Lemma starts_with_app c s t : s ≠ EmptyString → starts_with c (s +:+ t) = starts_with c s.
Proof. by destruct s. Qed.

Lemma starts_with_no_char c s : has_char c s = false → starts_with c s = false.
Proof. destruct s as [|d s]; [done|]. cbn. by intros [? _]%orb_false_iff. Qed.

(** The counter after an identifier was seen. *)
Definition count_id (c : Z) (i : string) : Z :=
  let '(v, end_) := strtol i in
  if bool_decide (end_ = EmptyString) && (c <? wrap_int v) then wrap_int v else c.

(** A line of an agent adds the agent. *)
Lemma read_line_row m ks r :
  row_ok r →
  read_line m ks (line (row_body r)) =
    (x ← OS_AddKey m (set_counter ks (count_id (id_counter ks) (r_id r))) (r_id r) (r_name r) (r_addr r) (r_key r) 0;
     Ret match x with Some (m, ks, _) => Some (m, ks) | None => None end).
Proof.
  intros ((Hi1 & Hi2 & Hi3) & Hi4 & Hi5 & (Hn1 & Hn2 & Hn3) & Hn4 & Hn5 & (Ha1 & Ha2 & Ha3) & _ & Hk1 & Hk2).
  assert (line (row_body r) =
    r_id r +:+ String " " (r_name r +:+ String " " (r_addr r +:+ String " " (line (r_key r))))) as ->.
  { unfold line, row_body. rewrite <- !append_assoc. done. }
  unfold KeyStore.read_line. rewrite !starts_with_app by done. rewrite Hi5, (starts_with_no_char _ _ Hi1).
  cbn [orb]. rewrite split_char_found by done.
  rewrite snprintf_fits by (unfold KEYSIZE; lia). cbn [fst].
  set (ks1 := set_counter ks (count_id (id_counter ks) (r_id r))).
  assert ((let '(v, end_) := strtol (r_id r) in
    if bool_decide (end_ = EmptyString) && (id_counter ks <? wrap_int v) then set_counter ks (wrap_int v) else ks) = ks1)
    as Hks.
  { unfold ks1, count_id. destruct (strtol (r_id r)) as [v en].
    destruct (bool_decide (en = EmptyString) && (id_counter ks <? wrap_int v)); [done|]. by destruct ks. }
  destruct (strtol (r_id r)) as [v en]. rewrite Hks.
  assert (∀ c t, starts_with c (r_name r) = false → c ≠ " "%char → starts_with c (r_name r +:+ String " " t) = false)
    as Hst.
  { intros c t Hc Hsp. destruct (r_name r); [|done]. cbn. by apply bool_decide_eq_false_2. }
  rewrite !Hst by done. cbn [orb]. rewrite !split_char_found by done.
  unfold line at 1. rewrite split_char_found by done. cbn [fst].
  rewrite !str_trunc_fits by (unfold KEYSIZE; lia).
  destruct (KeyStore.OS_AddKey _ _ _ _ _ _ _ _ _ _ _ _ _) as [[[[m' ks'] i]|]|f]; done.
Qed.

Lemma read_line_removed m ks s :
  removed_ok s →
  ∃ i rest, s = i +:+ " " +:+ rest ∧
  read_line m ks (line s) =
    Ret (Some (m, let ks := set_counter ks (count_id (id_counter ks) (fst (snprintf (KEYSIZE + 1) i))) in
                  if save_removed ks then save_removed_key ks s else ks)).
Proof.
  intros (i & rest & -> & Hi1 & Hi2 & Hi3 & Hr & Hnl & Hlen). exists i, rest. split; [done|].
  assert (line (i +:+ " " +:+ rest) = i +:+ String " " (line rest)) as ->.
  { unfold line. rewrite <- !append_assoc. done. }
  unfold KeyStore.read_line. rewrite !starts_with_app by done. rewrite Hi3, (starts_with_no_char _ _ Hi1).
  cbn [orb]. rewrite split_char_found by done.
  set (id_ := fst (snprintf (KEYSIZE + 1) i)). unfold count_id. destruct (strtol id_) as [v en].
  assert (rest ≠ EmptyString) as Hne by (by intros ->).
  unfold line. rewrite !starts_with_app by done. rewrite Hr.
  rewrite split_char_found by (rewrite !has_char_app in Hnl; by apply orb_false_iff in Hnl as [_ [_ ?]%orb_false_iff]).
  cbn [fst]. change (String " " rest) with (" " +:+ rest).
  destruct (bool_decide (en = EmptyString) && (id_counter ks <? wrap_int v)); [done|]. by destruct ks.
Qed.

Definition rows_text (rows : list row) : string := foldr (λ r s, line (row_body r) +:+ s) EmptyString rows.
Definition lines_text (l : list string) : string := foldr (λ s t, line s +:+ t) EmptyString l.

Lemma line_nonempty s rest : ∃ c t, line s +:+ rest = String c t.
Proof. destruct s; by eexists _, _. Qed.

Lemma length_line s rest :
  String.length (line s +:+ rest) = S (String.length s + String.length rest)%nat.
Proof. unfold line. rewrite !append_length. cbn [String.length]. lia. Qed.

Lemma read_loop_line fuel m ks s rest :
  has_char newline s = false → (String.length s < OS_BUFFER_SIZE - 1)%nat →
  (String.length (line s +:+ rest) ≤ fuel)%nat →
  read_loop fuel m ks (line s +:+ rest) =
    (r ← read_line m ks (line s);
     match r with Some (m, ks) => read_loop (fuel - 1) m ks rest | None => Ret None end) ∧
  (String.length rest ≤ fuel - 1)%nat.
Proof.
  intros Hs Hl Hf. rewrite length_line in Hf. destruct fuel as [|fuel]; [lia|].
  split; [|lia]. destruct (line_nonempty s rest) as (c & t & E).
  replace (S fuel - 1)%nat with fuel by lia. rewrite E. cbn [KeyStore.read_loop]. rewrite <- E.
  by rewrite fgets_line.
Qed.

Lemma index_of_none f es : index_of f es = -1 ↔ Forall (λ e, f e = false) es.
Proof.
  unfold index_of. destruct (list_find (λ e, f e = true) es) as [[i e]|] eqn:E.
  - apply list_find_Some in E as (Hl & Hf & _). split; [lia|]. rewrite Forall_forall. intros H'.
    rewrite H' in Hf; [done|]. by eapply list_elem_of_lookup_2.
  - apply list_find_None in E. split; [intros _|done]. eapply Forall_impl; [done|].
    intros e He. by apply not_true_is_false.
Qed.

Lemma set_counter_inv m ks es sender c : ks_inv m ks es sender → ks_inv m (set_counter ks c) es sender.
Proof. intros []. by constructor. Qed.

(** The entry a row is read into. *)
Definition row_entry (mode : key_mode_t) (j : nat) (r : row) : keyentry :=
  new_entry mode j (r_id r) (r_name r) (r_ip r) (r_key r) 0.

Lemma row_body_ok r : row_ok r → has_char newline (row_body r) = false ∧ (String.length (row_body r) < OS_BUFFER_SIZE - 1)%nat.
Proof.
  intros ((_ & Hi2 & Hi3) & _ & _ & (_ & Hn2 & Hn3) & _ & _ & (_ & Ha2 & Ha3) & _ & Hk1 & Hk2).
  unfold row_body. rewrite !has_char_app, !append_length, Hi2, Hn2, Ha2, Hk1. cbn [String.length].
  split; [done|]. unfold OS_BUFFER_SIZE. lia.
Qed.

Lemma read_rows rows m ks es sender rest fuel :
  ks_inv m ks es sender → Forall row_ok rows → NoDup (r_id <$> rows) →
  (∀ r, r ∈ rows → index_of (has_id (r_id r)) es.*2 = -1) →
  (String.length (rows_text rows +:+ rest) ≤ fuel)%nat →
  ∃ m' ks' es' fuel',
    read_loop fuel m ks (rows_text rows +:+ rest) = read_loop fuel' m' ks' rest ∧
    (String.length rest ≤ fuel')%nat ∧ ks_inv m' ks' es' sender ∧
    es'.*2 = es.*2 ++ imap (λ j, row_entry (key_mode ks) (length es + j)) rows ∧
    key_mode ks' = key_mode ks ∧ save_removed ks' = save_removed ks ∧ removed_keys ks' = removed_keys ks ∧
    id_counter ks' = foldl count_id (id_counter ks) (r_id <$> rows).
Proof.
  revert m ks es fuel. induction rows as [|r rows IH]; intros m ks es fuel Hi Hok Hnd Hnew Hf.
  { exists m, ks, es, fuel. cbn. by rewrite app_nil_r. }
  apply Forall_cons in Hok as [Hr Hok]. cbn [fmap list_fmap] in Hnd. apply NoDup_cons in Hnd as [Hrn Hnd].
  destruct (row_body_ok r Hr) as [Hnl Hlen].
  assert (rows_text (r :: rows) +:+ rest = line (row_body r) +:+ (rows_text rows +:+ rest)) as E
    by (cbn [rows_text foldr]; by rewrite <- append_assoc).
  rewrite E in Hf |- *. destruct (read_loop_line fuel m ks _ _ Hnl Hlen Hf) as [-> Hf'].
  rewrite (read_line_row m ks r Hr). pose proof Hr as (_ & _ & _ & _ & _ & _ & _ & (_ & a0 & Hacc & Hcut) & _).
  destruct (OS_AddKey_inv m (set_counter ks (count_id (id_counter ks) (r_id r))) es sender (r_id r) (r_name r)
    (r_addr r) a0 (r_key r) 0) as (m1 & ks1 & p & -> & Hi1 & Hm1 & Hs1 & Hr1 & Hc1 & _);
    [by apply set_counter_inv|done|apply Hnew; by left|]. rewrite !outcome_bind_ret.
  destruct (IH m1 ks1 _ (fuel - 1)%nat Hi1 Hok Hnd) as (m2 & ks2 & es2 & fuel2 & -> & ? & Hi2 & Hes2 & Hm2 & Hs2 & Hr2 & Hc2);
    [|done|].
  { intros r' Hr'. rewrite fmap_app. apply index_of_none, Forall_app. split.
    - apply index_of_none, Hnew. by right.
    - apply Forall_singleton. apply bool_decide_eq_false_2. cbn. intros [= Hid]. apply Hrn. rewrite Hid.
      apply list_elem_of_fmap. by exists r'. }
  exists m2, ks2, es2, fuel2. split_and!; try done.
  - rewrite Hes2, fmap_app, <- app_assoc, Hcut, Hm1. cbn [fmap list_fmap snd app imap key_mode set_counter].
    f_equal. f_equal; [unfold row_entry; by rewrite Nat.add_0_r|].
    rewrite length_app. cbn [length]. apply imap_ext. intros j x _. cbn [compose]. f_equal. lia.
  - rewrite Hm2, Hm1. done.
  - rewrite Hs2, Hs1. done.
  - rewrite Hr2, Hr1. done.
  - rewrite Hc2, Hc1. done.
Qed.

Lemma read_removed l m ks es sender fuel :
  ks_inv m ks es sender → save_removed ks = true → Forall removed_ok l →
  (String.length (lines_text l) ≤ fuel)%nat →
  ∃ ks', read_loop fuel m ks (lines_text l) = Ret (Some (m, ks')) ∧ ks_inv m ks' es sender ∧
    key_mode ks' = key_mode ks ∧ keysize ks' = keysize ks ∧ removed_keys ks' = removed_keys ks ++ l.
Proof.
  revert ks fuel. induction l as [|s l IH]; intros ks fuel Hi Hsv Hok Hf.
  { exists ks. cbn [lines_text foldr]. destruct fuel; by rewrite app_nil_r. }
  apply Forall_cons in Hok as [Hs Hok]. cbn [lines_text foldr] in Hf |- *. fold (lines_text l) in Hf |- *.
  pose proof Hs as (i0 & r0 & _ & _ & _ & _ & _ & Hnl & Hlen).
  destruct (read_loop_line fuel m ks _ _ Hnl Hlen Hf) as [-> Hf'].
  destruct (read_line_removed m ks s Hs) as (i & rest & _ & ->). rewrite outcome_bind_ret.
  cbv zeta. set (ks1 := set_counter ks _). replace (save_removed ks1) with true by done.
  destruct (IH (save_removed_key ks1 s) (fuel - 1)%nat) as (ks' & E & Hi' & Hm' & Hk' & Hr');
    [by apply save_removed_key_inv, set_counter_inv|done|done|done|].
  exists ks'. split_and!; [done|done|by rewrite Hm'|by rewrite Hk'|]. rewrite Hr'. cbn. by rewrite <- app_assoc.
Qed.

Lemma write_loop_rows m ks es sender rows g n i :
  ks_inv m ks es sender → Forall2 row_of rows (drop i es.*2) → Forall row_ok rows →
  (i + n = length es)%nat → masks_ok g → mask_inited g = true →
  ∃ g', write_loop m ks g (λ _, true) n i = Ret (g', Some (rows_text rows)).
Proof.
  intros Hi. revert rows g i. induction n as [|n IH]; intros rows g i Hrows Hok Hlen Hg Hgi.
  - rewrite drop_ge in Hrows by (rewrite length_fmap; lia). apply Forall2_nil_inv_r in Hrows as ->.
    by exists g.
  - destruct (lookup_lt_is_Some_2 es i) as [[l e] Hl]; [lia|].
    rewrite (drop_S es.*2 e i) in Hrows by (by rewrite list_lookup_fmap, Hl).
    apply Forall2_cons_inv_r in Hrows as (r & rows' & (Hid & Hn & Ha & Hk) & Hrows & ->).
    apply Forall_cons in Hok as [Hr Hok]. pose proof Hr as (_ & _ & _ & _ & _ & _ & _ & [Hp _] & _).
    destruct (Hp g Hg Hgi) as (g1 & Ep & Hg1 & Hgi1).
    destruct (IH rows' g1 (S i) Hrows Hok ltac:(lia) Hg1 Hgi1) as (g2 & E2).
    exists g2. cbn [write_loop]. rewrite (entry_at_inv _ _ _ _ _ _ _ Hi Hl), outcome_bind_ret.
    unfold key_line. rewrite Hid, Hn, Ha, Hk. cbn [c_deref]. rewrite !outcome_bind_ret, Ep, !outcome_bind_ret.
    rewrite E2, outcome_bind_ret. cbn [option_map rows_text foldr]. f_equal. f_equal. f_equal. f_equal.
    unfold line, row_body. by rewrite <- !append_assoc.
Qed.

Lemma removed_text_lines l i : removed_text l (λ _, true) i = Some (lines_text l).
Proof. revert i. induction l as [|s l IH]; intros i; [done|]. cbn [removed_text]. by rewrite IH. Qed.

(** The agents of a store have distinct identifiers. *)
Lemma row_ids_NoDup m ks es sender rows :
  ks_inv m ks es sender → Forall2 row_of rows es.*2 → NoDup (r_id <$> rows).
Proof.
  intros Hi Hrows. apply NoDup_alt. intros j k x Hj Hk. rewrite list_lookup_fmap in Hj, Hk.
  destruct (rows !! j) as [r|] eqn:Ej; [|done]. destruct (rows !! k) as [r'|] eqn:Ek; [|done].
  injection Hj as Hj. injection Hk as Hk.
  destruct (Forall2_lookup_l _ _ _ _ _ Hrows Ej) as (e & He & Hid & _).
  destruct (Forall2_lookup_l _ _ _ _ _ Hrows Ek) as (e' & He' & Hid' & _).
  rewrite list_lookup_fmap in He, He'.
  destruct (es !! j) as [[l1 x1]|] eqn:E1; [|done]. destruct (es !! k) as [[l2 x2]|] eqn:E2; [|done].
  injection He as <-. injection He' as <-. cbn in Hid, Hid'.
  eapply (inv_same_id _ _ _ _ _ _ _ _ _ _ x); [done|done|done|by rewrite Hid, Hj|by rewrite Hid', Hk].
Qed.

(** A file of such lines is read into a store of those agents. *)
Lemma OS_ReadKeys_text m mode rows removed date ino :
  h0 = kheap m → masks_ok (kmasks m) → Forall row_ok rows → NoDup (r_id <$> rows) →
  Forall removed_ok removed →
  ∃ m' ks' es sender,
    OS_ReadKeys m mode true true (Some (rows_text rows +:+ lines_text removed)) date ino = Ret (Some (m', ks')) ∧
    ks_inv m' ks' es sender ∧ es.*2 = imap (row_entry mode) rows ∧
    key_mode ks' = mode ∧ removed_keys ks' = removed.
Proof.
  intros Hh Hg Hok Hnd Hrem. unfold KeyStore.OS_ReadKeys. rewrite andb_false_r.
  pose proof (empty_store_inv m mode true date ino Hh Hg) as Hi. set (p := malloc (dom (kheap m))) in *.
  set (ks0 := mk_keystore _ _ _ _ _ _ _ _ _ _ _) in *. set (m0 := set_heap m _) in *.
  destruct (read_rows rows m0 ks0 [] p (lines_text removed) _ Hi Hok Hnd (λ _ _, eq_refl) (Nat.le_refl _))
    as (m1 & ks1 & es1 & fuel1 & -> & Hf1 & Hi1 & Hes1 & Hm1 & Hs1 & Hr1 & Hc1).
  destruct (read_removed removed m1 ks1 es1 p fuel1 Hi1) as (ks2 & -> & Hi2 & Hm2 & Hk2 & Hr2); [done..|].
  rewrite outcome_bind_ret, andb_false_r. exists m1, ks2, es1, p. split_and!; try done.
  - by rewrite Hm2, Hm1.
  - by rewrite Hr2, Hr1.
Qed.
End invariant.

(** ** What the store promises *)

Section claims.
Context {T : Type} `{StrMapLaws loc T}.
Context (md5 : string → string).
Context (pcre : string → string → option (list string)).
Context (inet_pton4 inet_pton6 : string → option (list Z)).
Context (malloc : gset loc → loc) (uninit : nat → option loc).
Hypothesis (malloc_fresh : ∀ X, malloc X ∉ X).

Abbreviation OS_ReadKeys := (OS_ReadKeys (T := T) md5 pcre inet_pton4 inet_pton6 malloc uninit).
Abbreviation krun := (krun (T := T) md5 pcre inet_pton4 inet_pton6 malloc uninit).
Abbreviation ops_ok := (ops_ok md5 pcre inet_pton4 inet_pton6).
Abbreviation accepts := (accepts pcre inet_pton4 inet_pton6).

Lemma read_no_file m mode save date ino :
  masks_ok (kmasks m) →
  ∃ m0 ks0, OS_ReadKeys m mode save true None date ino = Ret (Some (m0, ks0)) ∧
    represents (kheap m) m0 ks0 (mk_agents [] []) ∧ key_mode ks0 = mode ∧ save_removed ks0 = save ∧
    sm_map (keytree_ip ks0) = ∅.
Proof.
  intros Hg. unfold KeyStore.OS_ReadKeys. rewrite !andb_false_r, outcome_bind_ret, andb_false_r.
  eexists _, _. split; [done|]. split_and!; try done; [|apply sm_empty_map].
  eexists [], _. split_and!; [by apply empty_store_inv|done..].
Qed.


(** Agents that share the text of their address (all those registered with
    "any" do) share one entry of the dictionary of addresses: deleting the first
    one makes the address unknown although the other agent is still there. *)
Theorem keystore_shared_address m mode save date ino i1 i2 n1 n2 ip_ a k1 k2 t1 t2 :
  masks_ok (kmasks m) → has_raw_key mode = true → accepts ip_ a → i1 ≠ i2 →
  ∃ m0 ks0 m1 ks1,
    OS_ReadKeys m mode save true None date ino = Ret (Some (m0, ks0)) ∧
    krun m0 ks0 [KAdd i1 n1 ip_ a k1 t1; KAdd i2 n2 ip_ a k2 t2; KDelete i1 true] =
      Ret (m1, ks1, [0; 1; 0]) ∧
    OS_IsAllowedID m1 ks1 (Some i2) = Ret 0 ∧
    OS_IsAllowedIP m1 ks1 (Some (ip (cut_slash a))) = Ret (-1).
Proof.
  intros Hg Hm Ha Hne.
  destruct (read_no_file m mode save date ino Hg) as (m0 & ks0 & E0 & (es0 & sender & Hi0 & Hl0 & Hr0) & Hm0 & Hs0 & Hip0).
  destruct es0; [|done]. rewrite <- Hm0 in Hm.
  destruct (OS_AddKey_inv md5 pcre inet_pton4 inet_pton6 malloc uninit malloc_fresh (kheap m) m0 ks0 [] sender
    i1 n1 ip_ a k1 t1 Hi0 Ha eq_refl) as (m1 & ks1 & p1 & E1 & Hi1 & Hm1 & _ & _ & _ & Hip1).
  rewrite Hip0, lookup_empty in Hip1.
  destruct (OS_AddKey_inv md5 pcre inet_pton4 inet_pton6 malloc uninit malloc_fresh (kheap m) m1 ks1 _ sender
    i2 n2 ip_ a k2 t2 Hi1 Ha) as (m2 & ks2 & p2 & E2 & Hi2 & Hm2 & _ & _ & _ & Hip2).
  { apply index_of_none. repeat constructor. apply bool_decide_eq_false_2. cbn. congruence. }
  rewrite Hip1, lookup_insert_eq in Hip2. cbv zeta in Hi2. rewrite Hm1 in Hi2.
  rewrite <- Hm1, <- Hm2 in Hm.
  destruct (OS_DeleteKey_inv (kheap m) _ _ _ _ i1 true Hi2 Hm) as (m3 & ks3 & E3 & Hi3 & _ & _ & _ & _ & Hip3).
  set (r := index_of _ _) in E3, Hi3, Hip3. assert (r = 0) as Hr0'.
  { unfold r, index_of. cbn [fmap list_fmap app list_find snd]. rewrite decide_True; [done|].
    by apply bool_decide_eq_true. }
  rewrite Hr0' in *. destruct Hip3 as (e & b & He & Hb & Hip3); [lia|]. cbn in He. injection He as <-.
  cbn in Hb. injection Hb as <-. rewrite Hip2 in Hip3.
  exists m0, ks0, m3, ks3. split_and!; [done| | |].
  - cbn [KeyStore.krun kexec]. rewrite E1, !outcome_bind_ret. rewrite E2, !outcome_bind_ret.
    rewrite E3, !outcome_bind_ret. done.
  - rewrite (OS_IsAllowedID_index (kheap m) _ _ _ _ _ Hi3). f_equal. cbn [Z.ltb Z.compare Z.to_nat].
    eapply (index_of_at _ _ 0%nat); [done|by apply bool_decide_eq_true|].
    intros [|j] x Hx _; [done|]. by destruct j.
  - unfold OS_IsAllowedIP. rewrite sm_get_spec by (by eapply tree_wf_ip).
    rewrite Hip3, delete_insert_eq, lookup_delete_eq. done.
Qed.

End claims.

(** ** A small store

    Addresses are allocated by [fresh], MD5 is replaced by the identity, and the
    patterns know the addresses of the sample in [IpAddr]. *)

Abbreviation alloc := (fresh : gset loc → loc).

Lemma alloc_fresh (X : gset loc) : alloc X ∉ X.
Proof. apply is_fresh. Qed.

Abbreviation tree := (rb_tree loc).
Abbreviation sample_accepts := (accepts sample_pcre sample_inet4 sample_inet6).
Abbreviation sample_run :=
  (krun (T := tree) (λ s, s) sample_pcre sample_inet4 sample_inet6 alloc (λ _, None)).
Abbreviation sample_read :=
  (OS_ReadKeys (T := tree) (λ s, s) sample_pcre sample_inet4 sample_inet6 alloc (λ _, None)).

Definition any_ip : os_ip := {| ip := "any"; obj := Some (replicate 32 0); is_ipv6 := false |}.

(** The network of the sample, as it is read and as it is kept. *)
Definition net_read : os_ip :=
  {| ip := "10.1.0.0/16"; obj := Some (network_block 4 [10; 1; 0; 0] 16); is_ipv6 := false |}.
Definition net_ip : os_ip :=
  {| ip := "10.1.0.0"; obj := Some (network_block 4 [10; 1; 0; 0] 16); is_ipv6 := false |}.

Lemma accepts_any : sample_accepts "any" any_ip.
Proof. intros g Hg. exists g, 2. by vm_compute. Qed.

Lemma accepts_net : sample_accepts "10.1.0.0/16" net_read.
Proof.
  intros g Hg.
  destruct (OS_IsValidIP_ok sample_pcre sample_inet4 sample_inet6 sample_inet6_addr sample_pcre_start
    sample_pcre_mapped g "10.1.0.0/16" 0 [10; 1; 0; 0] 16 ["10.1.0.0"; "16"]%string false Hg sample_v4)
    as (g' & t & E & Hg' & _ & Ht).
  destruct (Ht eq_refl) as [-> _]. exists g', 2. split_and!; [exact E|done|done].
Qed.

Lemma reads_back_any : reads_back sample_pcre sample_inet4 sample_inet6 any_ip "any".
Proof.
  split; [|exists any_ip; split; [exact accepts_any|done]].
  intros g Hg Hi. exists g. by split_and!.
Qed.

Lemma reads_back_net : reads_back sample_pcre sample_inet4 sample_inet6 net_ip "10.1.0.0/16".
Proof.
  split; [|exists net_read; split; [exact accepts_net|done]].
  intros g Hg Hi. apply (OS_CIDRtoStr_v4 g net_ip [10; 1; 0; 0] 16 IPSIZE); try done.
  - by apply (sample_inet4_addr "10.1.0.0").
  - lia.
  - vm_compute. lia.
Qed.

Definition sample_mem : kmem := {| kheap := ∅; kmasks := mask_table_start |}.

Definition sample_ops : list kop :=
  [KAdd "001" "web" "any" any_ip "k1" 5; KAdd "002" "db" "10.1.0.0/16" net_read "k2" 6;
   KAdd "003" "mail" "any" any_ip "k3" 7; KConnect 2 9; KFindName "db"; KDelete "001" false;
   KFindId "003"; KFindId "001"; KDisconnect 9; KDelete "003" true; KFindId "002"].

Lemma sample_ops_ok :
  ops_ok (λ s, s) sample_pcre sample_inet4 sample_inet6 W_DUAL_KEY true (mk_agents [] []) sample_ops.
Proof.
  repeat (split; [first [exact I | split; [exact accepts_any|vm_compute; reflexivity]
    | split; [exact accepts_net|vm_compute; reflexivity] | split; [vm_compute; lia|lia]]|]).
  exact I.
Qed.


Lemma keystore_shared_address_witness : ∃ m0 ks0 m1 ks1,
  sample_read sample_mem W_RAW_KEY false true None (-1) 0 = Ret (Some (m0, ks0)) ∧
  sample_run m0 ks0 [KAdd "001" "web" "any" any_ip "k1" 0; KAdd "002" "db" "any" any_ip "k2" 0; KDelete "001" true] =
    Ret (m1, ks1, [0; 1; 0]) ∧
  OS_IsAllowedID m1 ks1 (Some "002"%string) = Ret 0 ∧ OS_IsAllowedIP m1 ks1 (Some "any"%string) = Ret (-1).
Proof.
  apply (keystore_shared_address (T := tree) (λ s, s) sample_pcre sample_inet4 sample_inet6 alloc (λ _, None)
    alloc_fresh sample_mem W_RAW_KEY false (-1) 0 "001" "002" "web" "db" "any" any_ip "k1" "k2" 0 0
    masks_ok_start eq_refl accepts_any).
  discriminate.
Defined.

(** The sample with two agents left, one of them a network. *)
Definition file_ops : list kop :=
  [KAdd "001" "web" "any" any_ip "k1" 5; KAdd "002" "db" "10.1.0.0/16" net_read "k 2" 6;
   KAdd "003" "mail" "any" any_ip "k3" 7; KDelete "001" false].

Definition file_rows : list row :=
  [mk_row "003" "mail" any_ip "any" "k3"; mk_row "002" "db" net_ip "10.1.0.0/16" "k 2"]%string.

Lemma file_ops_ok :
  ops_ok (λ s, s) sample_pcre sample_inet4 sample_inet6 W_RAW_KEY true (mk_agents [] []) file_ops.
Proof.
  repeat (split; [first [exact I | split; [exact accepts_any|vm_compute; reflexivity]
    | split; [exact accepts_net|vm_compute; reflexivity]]|]).
  exact I.
Qed.

Lemma file_rows_ok : Forall (row_ok sample_pcre sample_inet4 sample_inet6) file_rows.
Proof.
  repeat constructor; first [exact accepts_any | done | vm_compute; lia | apply reads_back_any | apply reads_back_net].
Qed.

Definition sample_start : outcome (option (kmem * keystore (T := tree))) :=
  Eval vm_compute in sample_read sample_mem W_RAW_KEY true true None 0 0.

Definition file_store : outcome (kmem * keystore (T := tree) * list Z) :=
  Eval vm_compute in
    match sample_start with Ret (Some (m, ks)) => sample_run m ks file_ops | _ => Stuck AssertFail end.

Lemma file_store_inv : ∃ m ks es sender,
  file_store = Ret (m, ks, [0; 1; 2; 0]) ∧ ks_inv ∅ m ks es sender ∧ Forall2 row_of file_rows es.*2 ∧
  removed_keys ks = ["001 !web any k1"%string].
Proof.
  destruct (read_no_file (T := tree) (λ s, s) sample_pcre sample_inet4 sample_inet6 alloc (λ _, None) alloc_fresh
    sample_mem W_RAW_KEY true 0 0 masks_ok_start) as (m0 & ks0 & E0 & Hr0 & Hm0 & Hs0 & _).
  assert (has_raw_key (key_mode ks0) = true) as Hm by (by rewrite Hm0).
  assert (ops_ok (λ s, s) sample_pcre sample_inet4 sample_inet6 (key_mode ks0) (save_removed ks0) (mk_agents [] []) file_ops)
    as Hok by (rewrite Hm0, Hs0; exact file_ops_ok).
  destruct (krun_represents (T := tree) (λ s, s) sample_pcre sample_inet4 sample_inet6 alloc (λ _, None) alloc_fresh ∅
    m0 ks0 _ file_ops Hr0 Hm Hok) as (m1 & ks1 & E1 & (es & sender & Hi & Hl & Hr)).
  rewrite Hm0, Hs0 in E1, Hl, Hr. exists m1, ks1, es, sender. split; [|split; [exact Hi|split]].
  - assert (sample_start = Ret (Some (m0, ks0))) as E0' by (rewrite <- E0; vm_compute; reflexivity).
    assert (file_store = match sample_start with Ret (Some (m, ks)) => sample_run m ks file_ops | _ => Stuck AssertFail end)
      as -> by (vm_compute; reflexivity).
    rewrite E0', E1. vm_compute. reflexivity.
  - assert (Forall2 row_of file_rows (forget <$> es.*2)) as HF.
    { rewrite Hl. vm_compute. repeat constructor. }
    exact (proj1 (Forall2_fmap_r forget row_of file_rows es.*2) HF).
  - rewrite Hr. vm_compute. reflexivity.
Qed.

