(* ===== verification/SecMsg.v ===== *)
(** * Secure messages (shared/os_crypto/shared/msgs.c, bf_op.c, aes_op.c, os_zlib.c)

    [CreateSecMSG] turns a text into the packet that travels between an agent and the
    manager: a header with two counters, an MD5 sum, compression, padding and
    encryption; [ReadSecMSG] undoes it and compares the counters with those of the
    last message of the agent.  The counters are kept in one file per agent, in a
    small model of the file system; the files that are open wait in the linked queue
    of [LinkedQueue] until the thread of [close_fp_main] closes them.

    Blowfish, AES, MD5 and zlib are parameters, the class [Crypto]; what the code
    relies on is the class [CryptoLaws]. *)

From Stdlib Require Import Lia ZArith Ascii String.
From stdpp Require Import base numbers list gmap strings pretty.
From S2P Require Import Prelude LinkedQueue CString StrMap RBTree IpAddr KeyStore.

#[local] Open Scope list_scope.
#[local] Open Scope Z_scope.

Abbreviation bytes := (list ascii).

Definition OS_FLSIZE : nat := 256.
Definition OS_HEADER_SIZE : Z := 128.
Definition OS_MAXSTR : Z := 65536.
Definition maxstr : nat := Z.to_nat OS_MAXSTR.
Definition MSG_OVERHEAD : nat := 32 + 5 + 10 + 4 + 2 * 1.
Definition RIDS_DIR : string := "queue/rids".
Definition SENDER_COUNTER : string := "sender_counter".

Definition W_METH_BLOWFISH : Z := 0.
Definition W_METH_AES : Z := 1.

Definition KS_VALID : Z := 0.
Definition KS_RIDS : Z := 1.
Definition KS_CORRUPT : Z := 2.
Definition KS_ENCKEY : Z := 3.

(** [unsigned int] and [size_t]. *)
Definition u32 (z : Z) : Z := z mod 2 ^ 32.
Definition u64 (z : Z) : Z := z mod 2 ^ 64.

(** ** Files

    A name leads to an inode and an inode to a text.  A stream is the inode it was
    opened on: the code goes back to the start before it writes, and reads only just
    after it opened. *)
Record fsys : Type := mk_fsys {
  fs_dir : gmap string Z;
  fs_data : gmap Z string;
  fs_denied : gset string;
  fs_handles : Z
}.

Definition File_Inode (f : fsys) (path : string) : Z := default 0 (fs_dir f !! path).

Definition fs_text (f : fsys) (ino : Z) : string := default EmptyString (fs_data f !! ino).

(** [wfopen (path, "r+")]. *)
Definition wfopen_rw (f : fsys) (path : string) : option Z * fsys :=
  if bool_decide (path ∈ fs_denied f) then (None, f)
  else match fs_dir f !! path with
       | Some ino => (Some ino, mk_fsys (fs_dir f) (fs_data f) (fs_denied f) (fs_handles f + 1))
       | None => (None, f)
       end.

(** [wfopen (path, "w")]; [new_ino] is the inode of a file that has to be created. *)
Definition wfopen_w (new_ino : gset Z → Z) (f : fsys) (path : string) : option Z * fsys :=
  if bool_decide (path ∈ fs_denied f) then (None, f)
  else
    let ino := default (new_ino (dom (fs_data f))) (fs_dir f !! path) in
    (Some ino, mk_fsys (<[path := ino]> (fs_dir f)) (<[ino := EmptyString]> (fs_data f))
                 (fs_denied f) (fs_handles f + 1)).

Definition fclose (f : fsys) : fsys :=
  mk_fsys (fs_dir f) (fs_data f) (fs_denied f) (fs_handles f - 1).

Definition unlink (f : fsys) (path : string) : fsys :=
  mk_fsys (delete path (fs_dir f)) (fs_data f) (fs_denied f) (fs_handles f).

Fixpoint str_drop (n : nat) (s : string) : string :=
  match n, s with
  | O, _ => s
  | S n, String _ s => str_drop n s
  | S _, EmptyString => EmptyString
  end.

(** What a file holds after [t] was written over its start. *)
Definition overwrite (t s : string) : string := (t +:+ str_drop (String.length t) s)%string.

(** [fseek (fp, 0, SEEK_SET); fprintf (fp, "%u:%u:", global, local); fflush (fp)]. *)
Definition write_counters (f : fsys) (fp : option Z) (g l : Z) : outcome fsys :=
  ino ← c_deref fp;
  let t := (print_u g +:+ ":" +:+ print_u l +:+ ":")%string in
  Ret (mk_fsys (fs_dir f) (<[ino := overwrite t (fs_text f ino)]> (fs_data f)) (fs_denied f)
         (fs_handles f)).

(** The conversion [%u]: the number and what follows it. *)
Definition scan_u (s : string) : option (Z * string) :=
  let t := skip_spaces s in
  let '(neg, t) := match t with
                   | String "-" t' => (true, t')
                   | String "+" t' => (false, t')
                   | _ => (false, t)
                   end in
  let rest := skip_number t in
  if bool_decide (rest = t) then None
  else
    let v := Z.min (2 ^ 64 - 1) (digits_value t 0) in
    Some (u32 (if neg : bool then - v else v), rest).

(** [fscanf (fp, "%u:%u", &g_c, &l_c)], both reset to 0 unless it converts two. *)
Definition scan_counters (s : string) : Z * Z :=
  match scan_u s with
  | Some (g, String ":" t) => match scan_u t with Some (l, _) => (g, l) | None => (0, 0) end
  | _ => (0, 0)
  end.

Definition rids_path (name : string) : string :=
  fst (snprintf OS_FLSIZE (RIDS_DIR +:+ "/" +:+ name)%string).

Definition OS_RemoveCounter (f : fsys) (id : string) : fsys := unlink f (rids_path id).

(** ** Encryption, compression and checksums *)

(** [BF_cbc_encrypt] works on whole blocks of eight bytes; [EVP_encrypt] and
    [EVP_decrypt] are the three calls of [encrypt_AES] and [decrypt_AES], [None] when
    one of them fails; [compress2] and [uncompress] get the size of the destination,
    [None] is an error. *)
Class Crypto : Type := {
  BF_encrypt : string → bytes → bytes;
  BF_decrypt : string → bytes → bytes;
  EVP_encrypt : string → bytes → option bytes;
  EVP_decrypt : string → bytes → option bytes;
  EVP_md5 : bytes → list Z;
  compress2 : bytes → nat → option bytes;
  uncompress : bytes → nat → option bytes
}.

Definition round8 (n : nat) : nat := ((n + 7) / 8 * 8)%nat.

Definition hex_char (d : Z) : ascii :=
  ascii_of_nat (Z.to_nat (if d <? 10 then 48 + d else 87 + d)).

(** [%02x] of every byte. *)
Definition hex (l : list Z) : string :=
  foldr (λ b s, String (hex_char (b / 16)) (String (hex_char (b mod 16)) s)) EmptyString l.

Section operations.
Context {T : Type} `{StrMap loc T} `{Crypto}.
(** The inode of a new file, and the address of a new node of the queue of open files. *)
Context (new_ino : gset Z → Z) (new_node : gset loc → loc).
(** The macro [CLIENT] of the build of the agent, which also makes [isAgent] true. *)
Context (client : bool).

Abbreviation keystore := (keystore (T := T)).

Definition OS_BF_Str (input output : bytes) (charkey : string) (size : Z) (encrypt : bool) :
    outcome (Z * bytes) :=
  let n := Z.to_nat size in
  if encrypt then
    data ← c_slice input 0 n;
    output ← c_store output 0 (BF_encrypt charkey (data ++ replicate (round8 n - n) NUL));
    Ret (1, output)
  else
    data ← c_slice input 0 (round8 n);
    output ← c_store output 0 (take n (BF_decrypt charkey data));
    Ret (1, output).

Definition OS_AES_Str (input output : bytes) (charkey : string) (size : Z) (encrypt : bool) :
    outcome (Z * bytes) :=
  if wrap_int size <? 0 then Stuck OutOfBounds
  else
    data ← c_slice input 0 (Z.to_nat (wrap_int size));
    match (if encrypt then EVP_encrypt charkey data else EVP_decrypt charkey data) with
    | Some d => output ← c_store output 0 d; Ret (Z.of_nat (length d), output)
    | None => Ret (0, output)
    end.

Definition doEncryptByMethod (input output : bytes) (charkey : string) (size : Z) (encrypt : bool)
    (method : Z) : outcome (Z * bytes) :=
  if method =? W_METH_BLOWFISH then OS_BF_Str input output charkey size encrypt
  else if method =? W_METH_AES then OS_AES_Str input output charkey size encrypt
  else Ret (-1, output).

Definition os_zlib_compress (src dst : bytes) (src_size dst_size : nat) : outcome (nat * bytes) :=
  data ← c_slice src 0 src_size;
  match compress2 data dst_size with
  | Some d =>
      dst ← c_store dst 0 d;
      dst ← c_write dst (length d) NUL;
      Ret (length d, dst)
  | None => Ret (0%nat, dst)
  end.

Definition os_zlib_uncompress (src dst : bytes) (src_size dst_size : nat) : outcome (nat * bytes) :=
  data ← c_slice src 0 src_size;
  match uncompress data dst_size with
  | Some d =>
      dst ← c_store dst 0 d;
      dst ← c_write dst (length d) NUL;
      Ret (length d, dst)
  | None => Ret (0%nat, dst)
  end.

(** A negative length stands for that of the string. *)
Definition OS_MD5_Str (str : bytes) (len : Z) : outcome string :=
  data ← (if len <? 0 then Ret (chars (mem_string str)) else c_slice str 0 (Z.to_nat len));
  Ret (hex (EVP_md5 data)).

(** [None] is the result [NULL]. *)
Definition CheckSum (msg : bytes) (length : Z) : outcome (option bytes) :=
  recvd ← c_slice msg 0 32;
  let recvd_sum := mem_string recvd in
  msg ← advance msg 32;
  checksum ← OS_MD5_Str msg (length - 32);
  Ret (if bool_decide (str_trunc 32 checksum = recvd_sum) then Some msg else None).

(** ** The counters *)

(** The static variables of the file, the files, and the queue of the open ones, which
    the code keeps in the key store. *)
Record sec : Type := mk_sec {
  global_count : Z;
  local_count : Z;
  evt_count : Z;
  rcv_count : Z;
  c_orig_size : Z;
  c_comp_size : Z;
  s_comp_print : Z;
  s_recv_flush : Z;
  s_verify_counter : Z;
  files : fsys;
  opened_fp_queue : lsys loc
}.

Definition set_count (s : sec) (g l : Z) : sec :=
  mk_sec g l (evt_count s) (rcv_count s) (c_orig_size s) (c_comp_size s) (s_comp_print s)
    (s_recv_flush s) (s_verify_counter s) (files s) (opened_fp_queue s).

Definition set_rcv_count (s : sec) (n : Z) : sec :=
  mk_sec (global_count s) (local_count s) (evt_count s) n (c_orig_size s) (c_comp_size s)
    (s_comp_print s) (s_recv_flush s) (s_verify_counter s) (files s) (opened_fp_queue s).

Definition set_average (s : sec) (evt orig comp : Z) : sec :=
  mk_sec (global_count s) (local_count s) evt (rcv_count s) orig comp
    (s_comp_print s) (s_recv_flush s) (s_verify_counter s) (files s) (opened_fp_queue s).

Definition set_files (s : sec) (f : fsys) : sec :=
  mk_sec (global_count s) (local_count s) (evt_count s) (rcv_count s) (c_orig_size s)
    (c_comp_size s) (s_comp_print s) (s_recv_flush s) (s_verify_counter s) f (opened_fp_queue s).

Definition set_queue (s : sec) (q : lsys loc) : sec :=
  mk_sec (global_count s) (local_count s) (evt_count s) (rcv_count s) (c_orig_size s)
    (c_comp_size s) (s_comp_print s) (s_recv_flush s) (s_verify_counter s) (files s) q.

Definition set_defines (s : sec) (flush print verify : Z) : sec :=
  mk_sec (global_count s) (local_count s) (evt_count s) (rcv_count s) (c_orig_size s)
    (c_comp_size s) print flush verify (files s) (opened_fp_queue s).

Definition set_counters (e : keyentry) (g l : Z) : keyentry :=
  mk_keyentry (rcvd e) l (keyid e) g (updating_time e) (id e) (raw_key e)
    (encryption_key e) (name e) (post_startup e) (inode e) (kip e) (sock e) (net_protocol e)
    (time_added e) (peer_info e) (fp e) (crypto_method e) (rids_node e).

Definition set_file (e : keyentry) (f : option Z) (ino : Z) : keyentry :=
  mk_keyentry (rcvd e) (local e) (keyid e) (global e) (updating_time e) (id e) (raw_key e)
    (encryption_key e) (name e) (post_startup e) ino (kip e) (sock e) (net_protocol e)
    (time_added e) (peer_info e) f (crypto_method e) (rids_node e).

Definition set_rids (e : keyentry) (t : Z) (n : option loc) : keyentry :=
  mk_keyentry (rcvd e) (local e) (keyid e) (global e) t (id e) (raw_key e)
    (encryption_key e) (name e) (post_startup e) (inode e) (kip e) (sock e) (net_protocol e)
    (time_added e) (peer_info e) (fp e) (crypto_method e) n.

Definition set_crypto (e : keyentry) (c : Z) : keyentry :=
  mk_keyentry (rcvd e) (local e) (keyid e) (global e) (updating_time e) (id e) (raw_key e)
    (encryption_key e) (name e) (post_startup e) (inode e) (kip e) (sock e) (net_protocol e)
    (time_added e) (peer_info e) (fp e) c (rids_node e).

Definition put (m : kmem) (l : loc) (e : keyentry) : kmem := set_heap m (<[l := e]> (kheap m)).

Definition os_set_agent_crypto_method (m : kmem) (ks : keystore) (method : Z) : outcome kmem :=
  '(l, e) ← entry_at m ks 0;
  Ret (put m l (set_crypto e method)).

Definition StoreSenderCounter (m : kmem) (s : sec) (ks : keystore) (g l : Z) : outcome sec :=
  '(_, e) ← entry_at m ks (keysize ks);
  f ← write_counters (files s) (fp e) g l;
  Ret (set_files s f).

(** The stream of an agent, opened if it is not; [None] is [merror_exit]. *)
Definition open_counter (f : fsys) (path : string) : option (Z * fsys) :=
  match wfopen_rw f path with
  | (Some p, f) => Some (p, f)
  | (None, f) => match wfopen_w new_ino f path with (Some p, f) => Some (p, f) | (None, _) => None end
  end.

(** The node of the agent goes to the end of the queue. *)
Definition queue_agent (q : lsys loc) (l : loc) (node : option loc) : outcome (lsys loc * option loc) :=
  match node with
  | None =>
      let n := new_node (dom (nodes (lque q))) in
      q ← linked_queue_push_ex q n (Some l); Ret (q, Some n)
  | Some _ =>
      q' ← linked_queue_unlink_and_push_node (lque q) node;
      Ret (mk_lsys q' (lavailable q), node)
  end.

(** [now] is [time (0)]; [None] is [merror_exit]. *)
Definition StoreCounter (m : kmem) (s : sec) (ks : keystore) (i : nat) (g l now : Z) :
    outcome (option (kmem * sec)) :=
  '(p, e) ← entry_at m ks i;
  ident ← c_deref (id e);
  match (match fp e with
         | Some fd => Some (fd, files s)
         | None => open_counter (files s) (rids_path ident)
         end) with
  | None => Ret None
  | Some (fd, f) =>
      f ← write_counters f (Some fd) g l;
      '(q, node) ← queue_agent (opened_fp_queue s) p (rids_node e);
      let e := set_rids (set_file e (Some fd) (inode e)) now node in
      Ret (Some (put m p e, set_queue (set_files s f) q))
  end.

Definition ReloadCounter (m : kmem) (s : sec) (ks : keystore) (i : nat) (cid : string) :
    outcome (kmem * sec) :=
  let path := rids_path cid in
  let new_inode := File_Inode (files s) path in
  '(p, e) ← entry_at m ks i;
  if inode e =? new_inode then Ret (m, s)
  else
    match wfopen_rw (files s) path with
    | (None, f) =>
        match wfopen_w new_ino f path with
        | (None, f) => Ret (put m p (set_file e None (inode e)), set_files s f)
        | (Some fd, f) => Ret (put m p (set_file e (Some fd) new_inode), set_files s f)
        end
    | (Some fd, f) =>
        let '(g_c, l_c) := scan_counters (fs_text f fd) in
        let s := set_files s f in
        if (i =? keysize ks)%nat
        then Ret (put m p (set_file e (Some fd) new_inode), set_count s g_c l_c)
        else Ret (put m p (set_file (set_counters e g_c l_c) (Some fd) new_inode), s)
    end.

(** One pass of the loop of [OS_StartCounter]; [None] is [merror_exit]. *)
Definition start_counter (m : kmem) (s : sec) (ks : keystore) (i : nat) :
    outcome (option (kmem * sec)) :=
  let is_sender := (i =? keysize ks)%nat in
  '(p, e) ← entry_at m ks i;
  cid ← (if is_sender then Ret SENDER_COUNTER else c_deref (id e));
  let path := rids_path cid in
  match (match wfopen_rw (files s) path with
         | (Some fd, f) =>
             let '(g_c, l_c) := scan_counters (fs_text f fd) in
             if is_sender then Some (fd, f, e, set_count s g_c l_c)
             else Some (fd, f, set_counters e g_c l_c, s)
         | (None, f) =>
             match wfopen_w new_ino f path with
             | (Some fd, f) => Some (fd, f, e, s)
             | (None, _) => None
             end
         end) with
  | None => Ret None
  | Some (fd, f, e, s) =>
      let '(fd, f) := if is_sender then (Some fd, f) else (None, fclose f) in
      Ret (Some (put m p (set_file e fd (File_Inode f path)), set_files s f))
  end.

Fixpoint start_loop (m : kmem) (s : sec) (ks : keystore) (n i : nat) : outcome (option (kmem * sec)) :=
  match n with
  | O => Ret (Some (m, s))
  | S n =>
      r ← start_counter m s ks i;
      match r with Some (m, s) => start_loop m s ks n (S i) | None => Ret None end
  end.

(** [recv_counter_flush], [comp_average_printout] and [verify_msg_id] are the values of
    the internal options. *)
Definition OS_StartCounter (m : kmem) (s : sec) (ks : keystore)
    (recv_counter_flush comp_average_printout verify_msg_id : Z) : outcome (option (kmem * sec)) :=
  r ← start_loop m s ks (keysize ks + 1) 0;
  match r with
  | None => Ret None
  | Some (m, s) =>
      let s := set_queue s lsys_init in
      Ret (Some (m, set_defines s (if s_recv_flush s =? 0 then recv_counter_flush else s_recv_flush s)
        (if s_comp_print s =? 0 then comp_average_printout else s_comp_print s) verify_msg_id))
  end.

(** One pass of the inner loop of [close_fp_main] (remoted/src/secure.c): [None] ends it. *)
Definition close_fp_step (m : kmem) (s : sec) (seconds now : Z) : outcome (option (kmem * sec)) :=
  match first (lque (opened_fp_queue s)) with
  | None => Ret None
  | Some n =>
      nd ← c_deref (nodes (lque (opened_fp_queue s)) !! n);
      p ← c_deref (nd_data nd);
      e ← c_deref (kheap m !! p);
      if updating_time e <? now - seconds then
        '(d, q) ← linked_queue_pop_ex (opened_fp_queue s);
        p ← c_deref d;
        e ← c_deref (kheap m !! p);
        let f := match fp e with Some _ => fclose (files s) | None => files s end in
        Ret (Some (put m p (set_rids (set_file e None (inode e)) 0 None), set_queue (set_files s f) q))
      else Ret None
  end.

(** The inner loop; it takes one agent from the queue per pass. *)
Fixpoint close_fp_loop (fuel : nat) (m : kmem) (s : sec) (seconds now : Z) : outcome (kmem * sec) :=
  match fuel with
  | O => Stuck OutOfFuel
  | S fuel =>
      r ← close_fp_step m s seconds now;
      match r with
      | Some (m, s) => close_fp_loop fuel m s seconds now
      | None => Ret (m, s)
      end
  end.

Definition close_fp_main (m : kmem) (s : sec) (seconds now : Z) : outcome (kmem * sec) :=
  close_fp_loop (S (elements (lque (opened_fp_queue s)))) m s seconds now.

(** ** Reading a message *)

(** The token in front, which also chooses the method on the manager. *)
Definition read_token (e : keyentry) (buffer : bytes) : outcome (keyentry * bytes) :=
  if bool_decide (take 4 buffer = chars "#AES")
  then buffer ← advance buffer 4; Ret (if client then e else set_crypto e W_METH_AES, buffer)
  else Ret (if client then e else set_crypto e W_METH_BLOWFISH, buffer).

(** The switch on the method: any other value decrypts nothing. *)
Definition decrypt (e : keyentry) (buffer cleartext : bytes) (buffer_size : Z) : outcome (Z * bytes) :=
  if crypto_method e =? W_METH_BLOWFISH then
    key ← c_deref (encryption_key e); OS_BF_Str buffer cleartext key buffer_size false
  else if crypto_method e =? W_METH_AES then
    key ← c_deref (encryption_key e); OS_AES_Str buffer cleartext key (u32 (buffer_size - 4)) false
  else Ret (1, cleartext).

(** [while ( *cleartext == '!')], an exclamation mark and a byte of the size at a time. *)
Fixpoint skip_padding (cleartext : bytes) (size : Z) : outcome (bytes * Z) :=
  match cleartext with
  | [] => Stuck OutOfBounds
  | c :: rest =>
      if bool_decide (c = "!"%char) then skip_padding rest (u32 (size - 1)) else Ret (cleartext, size)
  end.

(** The checksum and the two counters in front of the text: [None] is [KS_CORRUPT]. *)
Definition read_header (msg : bytes) (final_size : nat) : outcome (option (Z * Z * bytes)) :=
  f ← CheckSum msg (Z.of_nat final_size);
  match f with
  | None => Ret None
  | Some f_msg =>
      f_msg ← advance f_msg 5;
      let msg_global := u32 (atoi (mem_string f_msg)) in
      f_msg ← advance f_msg 10;
      c ← c_read f_msg 0;
      if negb (bool_decide (c = ":"%char)) then Ret None
      else
        f_msg ← advance f_msg 1;
        let msg_local := u32 (atoi (mem_string f_msg)) in
        f_msg ← advance f_msg 4;
        c ← c_read f_msg 0;
        if negb (bool_decide (c = ":"%char)) then Ret None
        else f_msg ← advance f_msg 1; Ret (Some (msg_global, msg_local, f_msg))
  end.

(** The counters of the message are newer than those of the agent. *)
Definition newer (g l : Z) (e : keyentry) : bool :=
  (global e <? g) || ((g =? global e) && (local e <? l)).

(** The agent takes over the counters of a message, and writes them to its file once in
    [_s_recv_flush] messages. *)
Definition accept (m : kmem) (s : sec) (ks : keystore) (i : nat) (g l now : Z) :
    outcome (option (kmem * sec)) :=
  '(p, e) ← entry_at m ks i;
  let m := put m p (set_counters e g l) in
  r ← (if s_recv_flush s <=? rcv_count s then
         r ← StoreCounter m s ks i g l now;
         Ret (match r with Some (m, s) => Some (m, set_rcv_count s 0) | None => None end)
       else Ret (Some (m, s)));
  Ret (match r with
       | Some (m, s) => Some (m, set_rcv_count s (u32 (rcv_count s + 1)))
       | None => None
       end).

(** What [ReadSecMSG] gives back: the state, the result, and with [KS_VALID] the block
    [*output] points to and [*final_size]. *)
Record reply : Type := mk_reply {
  r_mem : kmem;
  r_sec : sec;
  r_status : Z;
  r_output : option (bytes * Z)
}.

(** The counters are checked under the lock of the agent. *)
Definition check_counters (m : kmem) (s : sec) (ks : keystore) (i : nat) (g l : Z) (now : Z)
    (output : bytes) (final_size : Z) : outcome (option reply) :=
  if s_verify_counter s =? 0 then
    r ← accept m s ks i g l now;
    Ret (match r with
         | Some (m, s) => Some (mk_reply m s KS_VALID (Some (output, final_size)))
         | None => None
         end)
  else
    '(_, e) ← entry_at m ks i;
    ident ← c_deref (id e);
    '(m, s) ← (if s_recv_flush s <=? rcv_count s then ReloadCounter m s ks i ident else Ret (m, s));
    '(_, e) ← entry_at m ks i;
    if newer g l e then
      r ← accept m s ks i g l now;
      Ret (match r with
           | Some (m, s) => Some (mk_reply m s KS_VALID (Some (output, final_size)))
           | None => None
           end)
    else if g =? global e then Ret (Some (mk_reply m s KS_RIDS None))
    else Ret (Some (mk_reply m s KS_ENCKEY None)).

(** A message that was compressed; [dbuf] is what the static buffer held before. *)
Definition read_compressed (m : kmem) (s : sec) (ks : keystore) (i : nat) (cleartext dbuf : bytes)
    (buffer_size now : Z) : outcome (option reply) :=
  cleartext ← c_write cleartext (Z.to_nat buffer_size) NUL;
  cleartext ← advance cleartext 1;
  '(cleartext, size) ← skip_padding cleartext (u32 (buffer_size - 1));
  '(final_size, dbuf) ← os_zlib_uncompress cleartext dbuf (Z.to_nat size) maxstr;
  if (final_size <? MSG_OVERHEAD)%nat then Ret (Some (mk_reply m s KS_CORRUPT None))
  else
    h ← read_header dbuf final_size;
    match h with
    | None => Ret (Some (mk_reply m s KS_CORRUPT None))
    | Some (g, l, f_msg) =>
        let size := u64 (Z.of_nat final_size - Z.of_nat (length dbuf - length f_msg)) in
        check_counters m s ks i g l now f_msg size
    end.

(** [strchr (f_msg, ':')], and what follows the colon. *)
Fixpoint after_colon (m : bytes) : outcome (option bytes) :=
  match m with
  | [] => Stuck OutOfBounds
  | c :: m =>
      if bool_decide (c = ":"%char) then Ret (Some m)
      else if bool_decide (c = NUL) then Ret None else after_colon m
  end.

(** A message in the old format. *)
Definition read_old (m : kmem) (s : sec) (ks : keystore) (i : nat) (cleartext : bytes)
    (buffer_size : Z) : outcome (option reply) :=
  cleartext ← c_write cleartext (Z.to_nat buffer_size) NUL;
  cleartext ← advance cleartext 1;
  f ← CheckSum cleartext buffer_size;
  match f with
  | None => Ret (Some (mk_reply m s KS_CORRUPT None))
  | Some f_msg =>
      let msg_time := u32 (atoi (mem_string f_msg)) in
      f_msg ← advance f_msg 11;
      let msg_count := u32 (atoi (mem_string f_msg)) in
      f_msg ← advance f_msg 5;
      '(p, e) ← entry_at m ks i;
      let answer m :=
        f ← after_colon f_msg;
        Ret (Some match f with
        | Some t => mk_reply m s KS_VALID
            (Some (t, u64 (buffer_size - Z.of_nat (length cleartext - length t))))
        | None => mk_reply m s KS_CORRUPT None
        end) in
      if s_verify_counter s =? 0 then answer (put m p (set_counters e msg_time 0))
      else if newer msg_time msg_count e then answer (put m p (set_counters e msg_time msg_count))
      else Ret (Some (mk_reply m s KS_RIDS None))
  end.

(** [buffer] is the block the packet is in, [cleartext] the block of the caller it is
    decrypted to; [None] is [merror_exit]. *)
Definition ReadSecMSG (m : kmem) (s : sec) (ks : keystore) (buffer cleartext dbuf : bytes) (i : nat)
    (buffer_size now : Z) : outcome (option reply) :=
  if negb (has_encryption_key (key_mode ks)) then Ret (Some (mk_reply m s (-1) None))
  else
    '(p, e) ← entry_at m ks i;
    '(e, buffer) ← read_token e buffer;
    let m := put m p e in
    c ← c_read buffer 0;
    if negb (bool_decide (c = ":"%char)) then Ret (Some (mk_reply m s KS_CORRUPT None))
    else
      buffer ← advance buffer 1;
      '(ok, cleartext) ← decrypt e buffer cleartext buffer_size;
      if ok =? 0 then Ret (Some (mk_reply m s KS_ENCKEY None))
      else
        c ← c_read cleartext 0;
        if bool_decide (c = "!"%char) then read_compressed m s ks i cleartext dbuf buffer_size now
        else if bool_decide (c = ":"%char) then read_old m s ks i cleartext buffer_size
        else Ret (Some (mk_reply m s KS_ENCKEY None)).

(** ** Creating a message *)

(** The values [-1] and [OS_INVALID] as a [size_t]. *)
Definition SIZE_INVALID : Z := 2 ^ 64 - 1.

Definition isSingleHost (a : os_ip) : outcome bool :=
  if is_ipv6 a then Ret false
  else
    block ← c_deref (obj a);
    netmask ← c_slice block 4 4;
    Ret (bool_decide (netmask = [255; 255; 255; 255])).

(** [snprintf (string + off, size, ...)] of the text [t]. *)
Definition c_snprintf (block : bytes) (size : nat) (t : string) : outcome (nat * bytes) :=
  block ← c_store block 0 (chars (str_trunc (size - 1) t) ++ [NUL]);
  Ret (String.length t, block).

Definition next_counters (s : sec) : sec :=
  let s := if 9997 <=? local_count s then set_count s (u32 (global_count s + 1)) 0 else s in
  set_count s (global_count s) (u32 (local_count s + 1)).

(** The average rate of compression, printed and reset once in a while. *)
Definition average (s : sec) (orig comp : Z) : outcome sec :=
  let o := u64 (c_orig_size s + orig) in
  let c := u64 (c_comp_size s + comp) in
  if s_comp_print s <? evt_count s then
    if o =? 0 then Stuck DivByZero else Ret (set_average s 1 0 0)
  else Ret (set_average s (u32 (evt_count s + 1)) o c).

(** [<md5><random><global>:<local>:<msg>] in [_finmsg], and its length. *)
Definition plain_message (s : sec) (msg : bytes) (msg_length : nat) (rand1 : Z) (_tmpmsg _finmsg : bytes) :
    outcome (nat * bytes * bytes) :=
  '(len, _tmpmsg) ← c_snprintf _tmpmsg maxstr
     (print_u0 5 (rand1 mod 2 ^ 16) +:+ print_u0 10 (global_count s) +:+ ":" +:+
      print_u0 4 (local_count s) +:+ ":")%string;
  data ← c_slice msg 0 msg_length;
  _tmpmsg ← c_store _tmpmsg len data;
  let len := (len + msg_length)%nat in
  md5sum ← OS_MD5_Str _tmpmsg (Z.of_nat len);
  _finmsg ← c_store _finmsg 0 (c_str md5sum);
  body ← c_slice _tmpmsg 0 len;
  _finmsg ← c_store _finmsg 32 body;
  Ret ((len + 32)%nat, _tmpmsg, _finmsg).

(** What is in front of the encrypted part, and its length. *)
Definition packet_start (e : keyentry) (crypto_token : string) (msg_encrypted : bytes) :
    outcome (nat * bytes) :=
  a ← c_deref (kip e);
  single ← isSingleHost a;
  if negb single && client then
    ident ← c_deref (id e);
    c_snprintf msg_encrypted 16 ("!" +:+ ident +:+ "!" +:+ crypto_token)%string
  else c_snprintf msg_encrypted 6 crypto_token.

(** The result is the size; [rand1] is [os_random ()], [_tmpmsg] and [_finmsg] what the
    local arrays held. *)
Definition CreateSecMSG (m : kmem) (s : sec) (ks : keystore) (msg : bytes) (msg_length : Z)
    (msg_encrypted : bytes) (i : nat) (rand1 : Z) (_tmpmsg _finmsg : bytes) :
    outcome (kmem * sec * Z * bytes) :=
  if negb (has_encryption_key (key_mode ks)) then Ret (m, s, SIZE_INVALID, msg_encrypted)
  else if (OS_MAXSTR - OS_HEADER_SIZE <? msg_length) || (msg_length <? 1)
  then Ret (m, s, 0, msg_encrypted)
  else
    '(_, e) ← entry_at m ks i;
    let method := crypto_method e in
    if negb ((method =? W_METH_BLOWFISH) || (method =? W_METH_AES))
    then Ret (m, s, SIZE_INVALID, msg_encrypted)
    else
      let crypto_token := if method =? W_METH_BLOWFISH then ":"%string else "#AES:"%string in
      _tmpmsg ← c_write _tmpmsg (maxstr + 1) NUL;
      _finmsg ← c_write _finmsg (maxstr + 1) NUL;
      msg_encrypted ← c_write msg_encrypted maxstr NUL;
      '(m, s) ← ReloadCounter m s ks (keysize ks) SENDER_COUNTER;
      let s := next_counters s in
      '(len, _tmpmsg, _finmsg) ← plain_message s msg (Z.to_nat msg_length) rand1 _tmpmsg _finmsg;
      '(cmp_size, tail) ← os_zlib_compress _finmsg (drop 8 _tmpmsg) len (maxstr - 12);
      if (cmp_size =? 0)%nat then Ret (m, s, 0, msg_encrypted)
      else
        let _tmpmsg := replicate 8 "!"%char ++ tail in
        let bfsize := (8 - (cmp_size + 1) mod 8)%nat in
        let bfsize := if (bfsize =? 8)%nat then 0%nat else bfsize in
        let cmp_size := (cmp_size + 1 + bfsize)%nat in
        s ← average s (Z.of_nat len) (Z.of_nat cmp_size);
        '(_, e) ← entry_at m ks i;
        '(len, msg_encrypted) ← packet_start e crypto_token msg_encrypted;
        input ← advance _tmpmsg (7 - bfsize);
        output ← advance msg_encrypted len;
        key ← c_deref (encryption_key e);
        '(crypto_length, output) ← doEncryptByMethod input output key (Z.of_nat cmp_size) true method;
        let msg_encrypted := take len msg_encrypted ++ output in
        s ← StoreSenderCounter m s ks (global_count s) (local_count s);
        Ret (m, s, Z.max (Z.of_nat cmp_size) (u64 crypto_length) + Z.of_nat len, msg_encrypted).
End operations.

(** ** What the code relies on *)

(** The bound that zlib gives for the size of the output of [compress2]. *)
Definition compressBound (n : nat) : Z :=
  let n := Z.of_nat n in n + n / 4096 + n / 16384 + n / 33554432 + 13.

(** Both ciphers decrypt what they encrypted: Blowfish keeps the length of whole blocks,
    AES pads to the next multiple of 16.  A digest is 16 bytes.  Compression succeeds when
    the destination has room for the bound, its output starts with the byte [0x78] of a
    zlib stream, and [uncompress] restores the input and ignores what follows the
    stream. *)
Class CryptoLaws `{Crypto} : Prop := {
  bf_encrypt_length : ∀ k d n, length d = (8 * n)%nat → length (BF_encrypt k d) = length d;
  bf_decrypt_length : ∀ k d n, length d = (8 * n)%nat → length (BF_decrypt k d) = length d;
  bf_inverse : ∀ k d n, length d = (8 * n)%nat → BF_decrypt k (BF_encrypt k d) = d;
  aes_inverse : ∀ k d, ∃ c, EVP_encrypt k d = Some c ∧
    length c = ((length d / 16 + 1) * 16)%nat ∧ EVP_decrypt k c = Some d;
  aes_decrypt_length : ∀ k c d, EVP_decrypt k c = Some d → (length d ≤ length c)%nat;
  md5_digest : ∀ d, length (EVP_md5 d) = 16%nat ∧ Forall (λ b, 0 ≤ b < 256) (EVP_md5 d);
  compress_inverse : ∀ d n, Z.of_nat (length d) ≤ OS_MAXSTR → compressBound (length d) ≤ Z.of_nat n → ∃ c,
    compress2 d n = Some ("x"%char :: c) ∧ Z.of_nat (S (length c)) ≤ compressBound (length d) ∧
    ∀ rest n', (length d ≤ n')%nat → uncompress ("x"%char :: c ++ rest) n' = Some d;
  uncompress_fits : ∀ d n u, uncompress d n = Some u → (length u ≤ n)%nat
}.

Lemma maxstr_val : Z.of_nat maxstr = 65536.
Proof. done. Qed.

#[global] Opaque maxstr.

(** ** Counters in files *)

Lemma skip_number_digits s t :
  all_digits s = true →
  (match t with String c _ => is_digit c = false | EmptyString => True end) →
  skip_number (s +:+ t) = t.
Proof.
  intros Hs Ht. induction s as [|c s IH].
  - change (EmptyString +:+ t) with t. destruct t as [|c t]; [done|].
    cbn [skip_number]. by rewrite Ht.
  - cbn [all_digits] in Hs. apply andb_true_iff in Hs as [Hc Hs].
    change (String c s +:+ t) with (String c (s +:+ t)). cbn [skip_number]. rewrite Hc. by apply IH.
Qed.

Lemma append_neq_r s t : s ≠ EmptyString → t ≠ (s +:+ t).
Proof.
  intros Hs E. apply (f_equal String.length) in E. rewrite append_length in E.
  destruct s; [done|]. simpl in E. lia.
Qed.

Lemma scan_u_print z t :
  0 ≤ z < 2 ^ 32 → (match t with String c _ => is_digit c = false | EmptyString => True end) →
  scan_u (print_u z +:+ t) = Some (z, t).
Proof.
  intros Hz Ht. destruct (print_u_digits z) as [Hd Hn].
  destruct (digits_start (print_u z) t Hd Hn) as (c & u & E & Hc & Hk).
  unfold scan_u. rewrite Hk. destruct (digit_plain c Hc) as (_ & Hm & Hp & _).
  replace (match (print_u z +:+ t)%string with
           | String "-" t' => (true, t') | String "+" t' => (false, t')
           | _ => (false, (print_u z +:+ t)%string) end) with (false, (print_u z +:+ t)%string).
  - rewrite skip_number_digits by done. rewrite bool_decide_eq_false_2 by by apply append_neq_r.
    rewrite print_u_spec by lia. replace (digits_value t z) with z.
    + rewrite Z.min_r by lia. unfold u32. by rewrite Z.mod_small.
    + destruct t as [|c' t]; [done|]. cbn [digits_value]. by rewrite Ht.
  - rewrite E. destruct c as [[] [] [] [] [] [] [] []]; done.
Qed.

(** Whatever the file held, the counters that were written last are read back. *)
Lemma scan_overwrite g l old :
  0 ≤ g < 2 ^ 32 → 0 ≤ l < 2 ^ 32 →
  scan_counters (overwrite (print_u g +:+ ":" +:+ print_u l +:+ ":")%string old) = (g, l).
Proof.
  intros Hg Hl. unfold scan_counters, overwrite.
  rewrite <-!append_assoc, scan_u_print by done.
  match goal with |- context [":"%string +:+ (print_u l +:+ ?t)] =>
    change (":"%string +:+ (print_u l +:+ t)) with (String ":" (print_u l +:+ t)) end.
  cbv iota beta. by rewrite scan_u_print.
Qed.

(** ** Packets *)

Section packets.
Context `{CryptoLaws}.

Definition header (g l r : Z) : string :=
  (print_u0 5 r +:+ print_u0 10 g +:+ ":" +:+ print_u0 4 l +:+ ":")%string.

Definition body (g l r : Z) (msg : bytes) : bytes := chars (header g l r) ++ msg.

(** What is compressed: the checksum and the body. *)
Definition plain (g l r : Z) (msg : bytes) : bytes :=
  chars (hex (EVP_md5 (body g l r msg))) ++ body g l r msg.

Definition token (method : Z) : string := if method =? W_METH_BLOWFISH then ":"%string else "#AES:"%string.

(** What is encrypted: exclamation marks up to a multiple of eight bytes, and the zlib
    stream. *)
Definition padded (z : bytes) : bytes :=
  replicate (S (if (8 - S (length z) mod 8 =? 8)%nat then 0 else 8 - S (length z) mod 8)) "!"%char ++ z.

Definition seal (key : string) (method : Z) (d : bytes) : bytes :=
  if method =? W_METH_BLOWFISH then BF_encrypt key d else default [] (EVP_encrypt key d).

(** [pkt] carries [msg] with the counters [g] and [l], for the holder of [key]. *)
Definition is_packet (key : string) (method g l : Z) (msg pkt : bytes) : Prop :=
  (method = W_METH_BLOWFISH ∨ method = W_METH_AES) ∧
  0 ≤ g < 2 ^ 32 ∧ 0 ≤ l < 10000 ∧ 1 ≤ Z.of_nat (length msg) ≤ OS_MAXSTR - OS_HEADER_SIZE ∧
  ∃ r z, 0 ≤ r < 2 ^ 16 ∧ compress2 (plain g l r msg) (maxstr - 12) = Some z ∧
    pkt = chars (token method) ++ seal key method (padded z).

Lemma hex_length l : String.length (hex l) = (2 * length l)%nat.
Proof.
  induction l as [|b l IH]; [done|].
  change (String.length (hex (b :: l))) with (S (S (String.length (hex l)))). rewrite IH. simpl. lia.
Qed.

Lemma hex_char_not_nul d : 0 ≤ d < 16 → hex_char d ≠ NUL.
Proof.
  intros Hd. rewrite <-(Z2Nat.id d) by lia. assert (Z.to_nat d < 16)%nat as Hn by lia.
  revert Hn. generalize (Z.to_nat d). apply (forall_below _ 16). vm_compute. reflexivity.
Qed.

Lemma hex_no_nul l : Forall (λ b, 0 ≤ b < 256) l → has_char NUL (hex l) = false.
Proof.
  induction 1 as [|b l Hb _ IH]; [done|]. cbn [hex foldr has_char]. fold (hex l). rewrite IH.
  rewrite !bool_decide_eq_false_2; [done|..]; apply not_eq_sym, hex_char_not_nul.
  - apply Z.mod_pos_bound. lia.
  - split; [apply Z.div_pos; lia|apply Z.div_lt_upper_bound; lia].
Qed.

Lemma md5_hex d : String.length (hex (EVP_md5 d)) = 32%nat ∧ has_char NUL (hex (EVP_md5 d)) = false.
Proof.
  destruct (md5_digest d) as [Hl Hb]. rewrite hex_length, Hl. split; [done|by apply hex_no_nul].
Qed.

Lemma header_length g l r :
  0 ≤ g < 2 ^ 32 → 0 ≤ l < 10000 → 0 ≤ r < 2 ^ 16 → String.length (header g l r) = 21%nat.
Proof.
  intros Hg Hl Hr. unfold header. rewrite !append_length, !print_u0_length by lia. done.
Qed.

Lemma plain_length g l r msg :
  0 ≤ g < 2 ^ 32 → 0 ≤ l < 10000 → 0 ≤ r < 2 ^ 16 →
  length (plain g l r msg) = (53 + length msg)%nat.
Proof.
  intros Hg Hl Hr. unfold plain, body. rewrite !length_app, !length_chars, header_length by done.
  rewrite (proj1 (md5_hex _)). lia.
Qed.

Lemma padded_length z :
  ∃ n, length (padded z) = (8 * n)%nat ∧ (S (length z) ≤ 8 * n ≤ length z + 8)%nat.
Proof.
  unfold padded. rewrite length_app, length_replicate.
  pose proof (Nat.div_mod_eq (S (length z)) 8). pose proof (Nat.mod_upper_bound (S (length z)) 8).
  destruct (Nat.eqb_spec (8 - S (length z) mod 8) 8).
  - exists (S (length z) / 8)%nat. lia.
  - exists (S (length z) / 8 + 1)%nat. lia.
Qed.
End packets.

(** ** Creating a packet *)

Section sending.
Context {T : Type} `{StrMap loc T} `{CryptoLaws}.
Context (new_ino : gset Z → Z) (client : bool).

Abbreviation keystore := (keystore (T := T)).

(** A string is stored over the NUL of the one before it. *)
Lemma take_splice_text {A} (b t d : list A) (x : A) :
  (0 < length d)%nat → (length t + length d ≤ length b)%nat →
  take (length t + length d) (splice (splice b 0 (t ++ [x])) (length t) d) = t ++ d.
Proof.
  intros Hd Hb. unfold splice. rewrite take_0. cbn [app].
  rewrite <-(app_assoc t [x]), take_app_length, !app_assoc.
  rewrite <-length_app. by rewrite <-app_assoc, <-app_assoc, app_assoc, take_app_length.
Qed.

Lemma c_snprintf_spec (b : bytes) size t :
  (String.length t < size)%nat → (String.length t < length b)%nat →
  c_snprintf b size t = Ret (String.length t, splice b 0 (chars t ++ [NUL])).
Proof.
  intros Ht Hb. unfold c_snprintf. rewrite str_trunc_fits by lia.
  rewrite c_store_ok; [done|]. rewrite length_app, length_chars. simpl. lia.
Qed.

Lemma plain_message_spec (s : sec) msg rand1 (tmp fin : bytes) :
  0 ≤ global_count s < 2 ^ 32 → 0 ≤ local_count s < 10000 →
  1 ≤ Z.of_nat (length msg) ≤ OS_MAXSTR - OS_HEADER_SIZE →
  length tmp = (maxstr + 2)%nat → length fin = (maxstr + 2)%nat →
  ∃ tmp' fin', plain_message s msg (length msg) rand1 tmp fin = Ret ((53 + length msg)%nat, tmp', fin') ∧
    length tmp' = length tmp ∧ length fin' = length fin ∧
    take (53 + length msg) fin' = plain (global_count s) (local_count s) (rand1 mod 2 ^ 16) msg.
Proof.
  set (g := global_count s). set (l := local_count s). set (r := rand1 mod 2 ^ 16).
  intros Hg Hl Hm Ht Hf. assert (0 ≤ r < 2 ^ 16) as Hr by (by apply Z.mod_pos_bound).
  pose proof maxstr_val as Hx. unfold OS_MAXSTR, OS_HEADER_SIZE in Hm.
  pose proof (header_length g l r Hg Hl Hr) as Hh.
  unfold plain_message. fold g l r. fold (header g l r).
  rewrite c_snprintf_spec by lia. cbn [mbind outcome_bind].
  rewrite c_slice_ok by lia. cbn [mbind outcome_bind].
  rewrite drop_0, take_ge by done.
  assert (length (splice tmp 0 (chars (header g l r) ++ [NUL])) = length tmp) as Ht1.
  { apply length_splice. rewrite length_app, length_chars. simpl. lia. }
  rewrite c_store_ok by lia. cbn [mbind outcome_bind].
  set (tmp2 := splice (splice tmp 0 _) _ msg).
  assert (length tmp2 = length tmp) as Ht2.
  { unfold tmp2. rewrite length_splice; lia. }
  assert (take (21 + length msg) tmp2 = body g l r msg) as Hb.
  { unfold tmp2, body. rewrite <-Hh, <-length_chars. apply take_splice_text; rewrite ?length_chars; lia. }
  unfold OS_MD5_Str. replace (_ <? 0) with false by (symmetry; apply Z.ltb_ge; lia).
  rewrite Nat2Z.id, c_slice_ok by lia.
  cbn [mbind outcome_bind]. rewrite drop_0, Hh, Hb.
  destruct (md5_hex (body g l r msg)) as [H32 _].
  assert (length (body g l r msg) = (21 + length msg)%nat) as Hlb.
  { unfold body. rewrite length_app, length_chars. lia. }
  rewrite c_store_ok by (unfold c_str; rewrite length_app, length_chars, H32; simpl; lia).
  cbn [mbind outcome_bind]. unfold c_str.
  assert (length (splice fin 0 (chars (hex (EVP_md5 (body g l r msg))) ++ [NUL])) = length fin) as Hf1.
  { apply length_splice. rewrite length_app, length_chars, H32. simpl. lia. }
  rewrite c_store_ok by lia. cbn [mbind outcome_bind].
  eexists _, _. split; [do 3 f_equal; lia|]. split; [done|].
  split; [rewrite length_splice; lia|].
  pose proof (take_splice_text fin (chars (hex (EVP_md5 (body g l r msg)))) (body g l r msg) NUL) as E.
  rewrite length_chars, H32, Hlb in E. apply E; lia.
Qed.

Lemma splice_0 {A} (b d : list A) : splice b 0 d = d ++ drop (length d) b.
Proof. unfold splice. by rewrite take_0. Qed.

Lemma zlib_compress_spec src dst d n z :
  take (length d) src = d → compress2 d n = Some z → (length z < length dst)%nat →
  ∃ rest, os_zlib_compress src dst (length d) n = Ret (length z, z ++ rest) ∧
    length (z ++ rest) = length dst.
Proof.
  intros Hs Hz Hl. unfold os_zlib_compress.
  rewrite c_slice_ok by (rewrite <-Hs at 1; rewrite length_take; lia).
  cbn [mbind outcome_bind]. rewrite drop_0, Hs, Hz.
  rewrite c_store_ok by lia. cbn [mbind outcome_bind].
  assert (length (splice dst 0 z) = length dst) by (rewrite length_splice; lia).
  rewrite c_write_lt by lia. cbn [mbind outcome_bind].
  exists (<[0%nat := NUL]> (drop (length z) dst)). rewrite splice_0.
  rewrite <-(Nat.add_0_r (length z)) at 2. rewrite insert_app_r. split; [done|].
  rewrite length_app, length_insert, length_drop. lia.
Qed.

Lemma seal_length key method z :
  (length (seal key method (padded z)) ≤ length z + 24)%nat ∧
  (length (padded z) ≤ length (seal key method (padded z)))%nat.
Proof.
  destruct (padded_length z) as (n & Hn & Hb). unfold seal. destruct (_ =? _).
  - rewrite (bf_encrypt_length _ _ n) by done. lia.
  - destruct (aes_inverse key (padded z)) as (c & -> & Hc & _).
    change (default [] (Some c)) with c. rewrite Hc.
    pose proof (Nat.div_mod_eq (length (padded z)) 16).
    pose proof (Nat.mod_upper_bound (length (padded z)) 16). lia.
Qed.

Lemma doEncrypt_spec key method z rest out :
  method = W_METH_BLOWFISH ∨ method = W_METH_AES →
  (length (seal key method (padded z)) ≤ length out)%nat → Z.of_nat (length out) < 2 ^ 31 →
  ∃ n, doEncryptByMethod (padded z ++ rest) out key (Z.of_nat (length (padded z))) true method =
         Ret (n, splice out 0 (seal key method (padded z))) ∧
       Z.max (Z.of_nat (length (padded z))) (u64 n) = Z.of_nat (length (seal key method (padded z))).
Proof.
  intros Hm Ho H31. destruct (padded_length z) as (n & Hn & Hb).
  destruct (seal_length key method z) as [_ Hs]. unfold doEncryptByMethod.
  destruct Hm as [-> | ->]; cbn [Z.eqb W_METH_AES W_METH_BLOWFISH Pos.eqb]; unfold seal in *;
    cbn [Z.eqb W_METH_AES W_METH_BLOWFISH Pos.eqb] in *.
  - unfold OS_BF_Str. rewrite Nat2Z.id, c_slice_ok by (rewrite length_app; lia).
    cbn [mbind outcome_bind]. rewrite drop_0, take_app_length.
    replace (round8 _ - _)%nat with 0%nat.
    2: { unfold round8. rewrite Hn. pose proof (Nat.div_mod_eq (8 * n + 7) 8).
         pose proof (Nat.mod_upper_bound (8 * n + 7) 8). lia. }
    cbn [replicate]. rewrite app_nil_r, c_store_ok by lia. exists 1. split; [done|].
    rewrite (bf_encrypt_length _ _ n) by done. unfold u64. rewrite Z.mod_small by lia. lia.
  - unfold OS_AES_Str. destruct (aes_inverse key (padded z)) as (c & Hc & Hl & _).
    rewrite Hc in *. change (default [] (Some c)) with c in *.
    assert (wrap_int (Z.of_nat (length (padded z))) = Z.of_nat (length (padded z))) as ->.
    { unfold wrap_int. rewrite Z.mod_small by lia. lia. }
    replace (_ <? 0) with false by (symmetry; apply Z.ltb_ge; lia).
    rewrite Nat2Z.id, c_slice_ok by (rewrite length_app; lia).
    cbn [mbind outcome_bind]. rewrite drop_0, take_app_length, Hc, c_store_ok by done.
    eexists. split; [done|]. unfold u64. rewrite Z.mod_small by lia. lia.
Qed.

(** What precedes the token: nothing, or the identifier of an agent whose address is not
    that of a single host.  An identifier has at most eight digits. *)
Definition prefix_of (e : keyentry) (pre : string) : Prop :=
  ∃ a single, kip e = Some a ∧ isSingleHost a = Ret single ∧
    if negb single && client
    then ∃ ident, id e = Some ident ∧ (String.length ident ≤ 8)%nat ∧ all_digits ident = true ∧
      pre = ("!" +:+ ident +:+ "!")%string
    else pre = EmptyString.

Definition next_count (c : Z * Z) : Z * Z :=
  if 9997 <=? snd c then (fst c + 1, 1) else (fst c, snd c + 1).

(** The process that sends to or as the agent [i]: its key, and a stream for the counter
    that is still the file of that name. *)
Record sender (m : kmem) (s : sec) (ks : keystore) (i : nat) (key : string) (method : Z)
    (pre : string) (c : Z * Z) : Prop := {
  sd_mode : has_encryption_key (key_mode ks) = true;
  sd_method : method = W_METH_BLOWFISH ∨ method = W_METH_AES;
  sd_entry : ∃ p e, entry_at m ks i = Ret (p, e) ∧ encryption_key e = Some key ∧
    crypto_method e = method ∧ prefix_of e pre;
  sd_file : ∃ q e fd, entry_at m ks (keysize ks) = Ret (q, e) ∧ fp e = Some fd ∧ inode e = fd ∧
    fs_dir (files s) !! rids_path SENDER_COUNTER = Some fd;
  sd_count : c = (global_count s, local_count s);
  sd_range : 0 ≤ global_count s < 2 ^ 32 ∧ 0 ≤ local_count s < 2 ^ 32;
  sd_average : 0 ≤ evt_count s ≤ s_comp_print s + 1 ∧ 0 ≤ s_comp_print s ≤ 999999 ∧
    0 ≤ c_orig_size s ≤ evt_count s * 65536
}.

(** The file of the sender holds the counters [c]. *)
Definition saved_count (f : fsys) (c : Z * Z) : Prop :=
  ∃ fd, fs_dir f !! rids_path SENDER_COUNTER = Some fd ∧ scan_counters (fs_text f fd) = c.

Lemma packet_start_spec e pre method enc :
  prefix_of e pre → (16 < length enc)%nat →
  packet_start client e (token method) enc =
    Ret (String.length (pre +:+ token method), splice enc 0 (chars (pre +:+ token method) ++ [NUL])) ∧
  (String.length (pre +:+ token method) ≤ 15)%nat.
Proof.
  intros (a & single & Ha & Hs & Hp) Hl. unfold packet_start. rewrite Ha. cbn [c_deref mbind outcome_bind].
  rewrite Hs. cbn [mbind outcome_bind].
  assert (String.length (token method) ≤ 5)%nat by (unfold token; destruct (_ =? _); simpl; lia).
  destruct (negb single && client).
  - destruct Hp as (ident & Hi & Hn & _ & ->). rewrite Hi. cbn [c_deref mbind outcome_bind].
    rewrite <-!append_assoc.
    assert (String.length ("!" +:+ ident +:+ "!" +:+ token method) ≤ 15)%nat.
    { rewrite !append_length. simpl. lia. }
    rewrite c_snprintf_spec by lia. done.
  - subst pre. change (EmptyString +:+ token method) with (token method).
    rewrite c_snprintf_spec by lia. split; [done|lia].
Qed.

Lemma average_spec (s : sec) orig comp :
  0 ≤ evt_count s ≤ s_comp_print s + 1 → 0 ≤ s_comp_print s ≤ 999999 →
  0 ≤ c_orig_size s ≤ evt_count s * 65536 → 0 < orig ≤ 65536 →
  ∃ evt o c, average s orig comp = Ret (set_average s evt o c) ∧
    0 ≤ evt ≤ s_comp_print s + 1 ∧ 0 ≤ o ≤ evt * 65536.
Proof.
  intros He Hp Ho Hr. unfold average. unfold u64 at 1. rewrite Z.mod_small by lia.
  destruct (Z.ltb_spec (s_comp_print s) (evt_count s)).
  - replace (_ =? 0) with false by (symmetry; apply Z.eqb_neq; lia).
    exists 1, 0, 0. split; [done|]. lia.
  - eexists _, _, _. split; [done|]. unfold u32, u64. rewrite !Z.mod_small by lia. lia.
Qed.

(** Without a change of inode the counters stay. *)
Lemma ReloadCounter_same m s (ks : keystore) i cid q e :
  entry_at m ks i = Ret (q, e) → inode e = File_Inode (files s) (rids_path cid) →
  ReloadCounter new_ino m s ks i cid = Ret (m, s).
Proof.
  intros He Hi. unfold ReloadCounter. rewrite He. cbn [mbind outcome_bind].
  by rewrite Hi, Z.eqb_refl.
Qed.

Lemma next_counters_spec (s : sec) g l :
  0 ≤ global_count s < 2 ^ 32 → 0 ≤ local_count s < 2 ^ 32 →
  next_count (global_count s, local_count s) = (g, l) → g < 2 ^ 32 →
  next_counters s = set_count s g l ∧ 0 ≤ g ∧ 0 ≤ l < 10000.
Proof.
  intros Hg Hl. unfold next_count, next_counters. cbn [fst snd].
  destruct (Z.leb_spec 9997 (local_count s)); intros [= <- <-] Hb; cbn [local_count set_count global_count];
    unfold u32; rewrite ?Z.mod_small by lia; split; try done; lia.
Qed.

Lemma take_text_start (b : bytes) t :
  (String.length t < length b)%nat →
  take (String.length t) (splice b 0 (chars t ++ [NUL])) = chars t ∧
  length (splice b 0 (chars t ++ [NUL])) = length b.
Proof.
  intros Hb. split; [|rewrite length_splice; [done|rewrite length_app, length_chars; simpl; lia]].
  rewrite splice_0, <-app_assoc, <-length_chars. apply take_app_length.
Qed.

(** The bytes of the stack that hold the padding and the stream. *)
Lemma padded_input z rest bf :
  bf = (if (8 - (length z + 1) mod 8 =? 8)%nat then 0%nat else (8 - (length z + 1) mod 8)%nat) →
  advance (replicate 8 "!"%char ++ z ++ rest) (7 - bf) = Ret (padded z ++ rest) ∧
  (length z + 1 + bf)%nat = length (padded z).
Proof.
  intros Hbf. assert (bf ≤ 7)%nat as H7.
  { pose proof (Nat.mod_upper_bound (length z + 1) 8). subst bf.
    destruct (Nat.eqb_spec (8 - (length z + 1) mod 8) 8); lia. }
  replace (padded z) with (replicate (S bf) "!"%char ++ z).
  2: { subst bf. unfold padded. by rewrite Nat.add_1_r. }
  split; [|rewrite length_app, length_replicate; lia].
  unfold advance. rewrite decide_True by (rewrite length_app, length_replicate; lia).
  rewrite drop_app_le by (rewrite length_replicate; lia).
  rewrite drop_replicate, app_assoc. do 4 f_equal. lia.
Qed.

Lemma StoreSenderCounter_spec m s (ks : keystore) q e fd g l :
  entry_at m ks (keysize ks) = Ret (q, e) → fp e = Some fd →
  fs_dir (files s) !! rids_path SENDER_COUNTER = Some fd →
  0 ≤ g < 2 ^ 32 → 0 ≤ l < 2 ^ 32 →
  ∃ f, StoreSenderCounter m s ks g l = Ret (set_files s f) ∧
    fs_dir f = fs_dir (files s) ∧ fs_denied f = fs_denied (files s) ∧ saved_count f (g, l).
Proof.
  intros He Hfd Hdir Hg Hl. unfold StoreSenderCounter. rewrite He. cbn [mbind outcome_bind].
  rewrite Hfd. unfold write_counters. cbn [c_deref mbind outcome_bind].
  eexists. split; [done|]. split; [done|]. split; [done|]. exists fd. split; [done|].
  unfold fs_text. cbn [fs_data]. rewrite lookup_insert_eq. by apply scan_overwrite.
Qed.

Lemma plain_bound g l r msg :
  0 ≤ g < 2 ^ 32 → 0 ≤ l < 10000 → 0 ≤ r < 2 ^ 16 →
  Z.of_nat (length msg) ≤ OS_MAXSTR - OS_HEADER_SIZE →
  compressBound (length (plain g l r msg)) ≤ 65492.
Proof.
  intros Hg Hl Hr Hm. rewrite plain_length by assumption. unfold OS_MAXSTR, OS_HEADER_SIZE in Hm.
  unfold compressBound. set (n := Z.of_nat _). assert (n ≤ 65461) by lia.
  pose proof (Z.div_le_mono n 65461 4096). pose proof (Z.div_le_mono n 65461 16384).
  pose proof (Z.div_le_mono n 65461 33554432).
  change (65461 / 4096) with 15 in *. change (65461 / 16384) with 3 in *.
  change (65461 / 33554432) with 0 in *. lia.
Qed.

Lemma compress_message g l r msg :
  0 ≤ g < 2 ^ 32 → 0 ≤ l < 10000 → 0 ≤ r < 2 ^ 16 →
  Z.of_nat (length msg) ≤ OS_MAXSTR - OS_HEADER_SIZE →
  ∃ z, compress2 (plain g l r msg) (maxstr - 12) = Some z ∧ 0 < Z.of_nat (length z) ≤ 65492.
Proof.
  intros Hg Hl Hr Hm. pose proof (plain_length g l r msg Hg Hl Hr) as Hp.
  pose proof maxstr_val as Hx.
  pose proof (plain_bound g l r msg Hg Hl Hr Hm).
  destruct (compress_inverse (plain g l r msg) (maxstr - 12)) as (c & Hc & Hl' & _);
    [unfold OS_MAXSTR, OS_HEADER_SIZE in *; lia|lia|].
  exists ("x"%char :: c). split; [done|]. cbn [length] in *. lia.
Qed.

Lemma create_spec m s (ks : keystore) i key method pre c g l msg enc rand1 tmp fin :
  sender m s ks i key method pre c → next_count c = (g, l) → g < 2 ^ 32 →
  1 ≤ Z.of_nat (length msg) ≤ OS_MAXSTR - OS_HEADER_SIZE →
  length tmp = (maxstr + 2)%nat → length fin = (maxstr + 2)%nat → length enc = (maxstr + 1)%nat →
  ∃ s' enc' pkt,
    CreateSecMSG new_ino client m s ks msg (Z.of_nat (length msg)) enc i rand1 tmp fin =
      Ret (m, s', Z.of_nat (length (chars pre ++ pkt)), enc') ∧
    take (length (chars pre ++ pkt)) enc' = chars pre ++ pkt ∧
    is_packet key method g l msg pkt ∧
    sender m s' ks i key method pre (g, l) ∧ saved_count (files s') (g, l) ∧
    fs_denied (files s') = fs_denied (files s).
Proof.
  intros [Hmode Hmeth (p & e & He & Hkey & Hcm & Hpre) (q & es & fd & Hes & Hfd & Hino & Hdir)
    -> [Hg Hl] (Hev & Hpr & Hor)] Hnext Hg2 Hm Ht Hf Hen.
  destruct (next_counters_spec s g l Hg Hl Hnext Hg2) as (Hns & Hg1 & Hl1).
  pose proof maxstr_val as Hx. unfold CreateSecMSG. rewrite Hmode. cbn [negb].
  replace ((_ <? _) || _) with false
    by (symmetry; apply orb_false_iff; split; apply Z.ltb_ge; lia).
  rewrite He. cbn [mbind outcome_bind]. rewrite Hcm.
  replace (negb _) with false by (destruct Hmeth as [-> | ->]; done). fold (token method).
  rewrite !c_write_lt by lia. cbn [mbind outcome_bind].
  rewrite (ReloadCounter_same _ _ _ _ _ q es) by (unfold File_Inode; rewrite ?Hdir; done).
  cbn [mbind outcome_bind]. rewrite Hns, Nat2Z.id.
  destruct (plain_message_spec (set_count s g l) msg rand1 (<[(maxstr + 1)%nat:=NUL]> tmp)
    (<[(maxstr + 1)%nat:=NUL]> fin)) as (tmp' & fin' & -> & Ht' & Hf' & Hpl);
    [exact (conj Hg1 Hg2)|exact Hl1|exact Hm|rewrite length_insert; assumption..|].
  cbn [mbind outcome_bind global_count local_count set_count] in *.
  set (r := rand1 mod 2 ^ 16) in *. assert (0 ≤ r < 2 ^ 16) as Hr by (by apply Z.mod_pos_bound).
  destruct (compress_message g l r msg) as (z & Hz & Hzl); [lia..|].
  rewrite <-(plain_length g l r msg) in Hpl |- * by lia.
  destruct (zlib_compress_spec fin' (drop 8 tmp') (plain g l r msg) (maxstr - 12) z)
    as (rest & -> & Hrest); [done..|rewrite length_drop, Ht', length_insert; lia|].
  cbn [mbind outcome_bind]. destruct (Nat.eqb_spec (length z) 0) as [|_]; [lia|].
  destruct (padded_input z rest _ eq_refl) as [Hin Hpad].
  destruct (average_spec (set_count s g l) (Z.of_nat (length (plain g l r msg)))
    (Z.of_nat (length (padded z))) Hev Hpr Hor) as (ev & o & c & Hav & Hev' & Hor').
  { rewrite plain_length by lia. unfold OS_MAXSTR, OS_HEADER_SIZE in Hm. lia. }
  rewrite Hpad, Hav. cbn [mbind outcome_bind]. rewrite He. cbn [mbind outcome_bind].
  destruct (packet_start_spec e pre method (<[maxstr:=NUL]> enc) Hpre) as [-> H15];
    [rewrite length_insert; lia|].
  cbn [mbind outcome_bind]. rewrite Hin. cbn [mbind outcome_bind].
  destruct (take_text_start (<[maxstr:=NUL]> enc) (pre +:+ token method)) as [Htk Hln];
    [rewrite length_insert; lia|].
  unfold advance. rewrite decide_True by (rewrite Hln, length_insert; lia).
  cbn [mbind outcome_bind]. rewrite Hkey. cbn [c_deref mbind outcome_bind].
  destruct (seal_length key method z) as [Hse1 Hse2].
  destruct (doEncrypt_spec key method z rest
    (drop (String.length (pre +:+ token method)) (splice (<[maxstr:=NUL]> enc) 0
       (chars (pre +:+ token method) ++ [NUL])))) as (n & -> & Hmax);
    [done|rewrite length_drop, Hln, length_insert; lia..|].
  cbn [mbind outcome_bind].
  destruct (StoreSenderCounter_spec m (set_average (set_count s g l) ev o c) ks q es fd g l)
    as (f & Hst & Hfd' & Hden & Hsv); [done..|lia|lia|].
  cbn [global_count local_count set_average set_count]. rewrite Hst. cbn [mbind outcome_bind].
  rewrite Hmax, Htk, splice_0.
  set (pkt := chars (token method) ++ seal key method (padded z)).
  assert (chars pre ++ pkt = chars (pre +:+ token method) ++ seal key method (padded z)) as Hcp.
  { unfold pkt. by rewrite chars_append, app_assoc. }
  exists (set_files (set_average (set_count s g l) ev o c) f). eexists _, pkt.
  split. { do 3 f_equal. rewrite Hcp, length_app, length_chars. lia. }
  split. { rewrite Hcp, app_assoc. apply take_app_length. }
  split. { refine (conj Hmeth (conj (conj Hg1 Hg2) (conj Hl1 (conj Hm _)))). exists r, z.
           exact (conj Hr (conj Hz eq_refl)). }
  split; [|exact (conj Hsv Hden)]. constructor; [exact Hmode|exact Hmeth|exists p, e; auto| |reflexivity| |].
  2: { split; [exact (conj Hg1 Hg2)|]. cbn [local_count set_files set_average set_count]. lia. }
  2: { exact (conj Hev' (conj Hpr Hor')). }
  exists q, es, fd. split; [exact Hes|]. split; [exact Hfd|]. split; [exact Hino|].
  cbn [files set_files]. rewrite Hfd'. exact Hdir.
Qed.
End sending.

(** ** Reading a packet *)

Section reading.
Context {T : Type} `{StrMap loc T} `{CryptoLaws}.
Context (new_ino : gset Z → Z) (new_node : gset loc → loc) (client : bool).

Abbreviation keystore := (keystore (T := T)).
Abbreviation check_counters := (check_counters (T := T) new_ino new_node).
Abbreviation read_compressed := (read_compressed (T := T) new_ino new_node).
Abbreviation ReadSecMSG := (ReadSecMSG (T := T) new_ino new_node client).

Lemma slice_app (a b : bytes) n : n = length a → c_slice (a ++ b) 0 n = Ret a.
Proof.
  intros ->. rewrite c_slice_ok by (rewrite length_app; lia). by rewrite drop_0, take_app_length.
Qed.

Lemma store_terminated (dst d : bytes) :
  (length d < length dst)%nat →
  (dst ← c_store dst 0 d; c_write dst (length d) NUL) = Ret (d ++ NUL :: drop (S (length d)) dst).
Proof.
  intros Hl. rewrite c_store_ok by lia. cbn [mbind outcome_bind].
  rewrite c_write_lt by (rewrite length_splice; lia). f_equal. rewrite splice_0.
  rewrite insert_app_r_alt, Nat.sub_diag by done. f_equal.
  destruct (drop (length d) dst) as [|x t] eqn:E.
  - apply (f_equal length) in E. rewrite length_drop in E. simpl in E. lia.
  - cbn. f_equal. replace (S (length d)) with (length d + 1)%nat by lia.
    by rewrite <-drop_drop, E.
Qed.

(** The counter in front of a colon. *)
Lemma read_counter w z (rest : bytes) :
  0 ≤ z < 2 ^ 32 →
  u32 (atoi (mem_string (chars (print_u0 w z) ++ ":"%char :: rest))) = z.
Proof.
  intros Hz. destruct (print_u0_digits w z) as [Hd _].
  rewrite mem_string_chars by by apply digits_no_nul. unfold u32. apply atoi_print_u0; [exact Hz|].
  cbn [mem_string]. rewrite bool_decide_eq_false_2 by done. done.
Qed.

Lemma CheckSum_plain g l r msg rest :
  0 ≤ g < 2 ^ 32 → 0 ≤ l < 10000 → 0 ≤ r < 2 ^ 16 →
  CheckSum (plain g l r msg ++ rest) (Z.of_nat (53 + length msg)) = Ret (Some (body g l r msg ++ rest)).
Proof.
  intros Hg Hl Hr. unfold CheckSum, plain. rewrite <-app_assoc.
  destruct (md5_hex (body g l r msg)) as [H32 Hn].
  rewrite slice_app by (by rewrite length_chars). cbn [mbind outcome_bind].
  rewrite advance_app by (by rewrite length_chars). cbn [mbind outcome_bind].
  unfold OS_MD5_Str. replace (_ <? 0) with false by (symmetry; apply Z.ltb_ge; lia).
  rewrite slice_app.
  2: { unfold body. rewrite length_app, length_chars, header_length by assumption. lia. }
  cbn [mbind outcome_bind]. do 2 f_equal.
  rewrite str_trunc_fits by lia. rewrite <-(app_nil_r (chars _)), mem_string_chars by done.
  cbn [mem_string]. rewrite append_nil_r. by rewrite bool_decide_eq_true_2.
Qed.

Lemma read_header_plain g l r msg rest :
  0 ≤ g < 2 ^ 32 → 0 ≤ l < 10000 → 0 ≤ r < 2 ^ 16 →
  read_header (plain g l r msg ++ rest) (53 + length msg) = Ret (Some (g, l, msg ++ rest)).
Proof.
  intros Hg Hl Hr. unfold read_header. rewrite CheckSum_plain by assumption.
  cbn [mbind outcome_bind]. unfold body, header.
  rewrite !chars_append, <-!app_assoc. change (chars ":") with [":"%char]. cbn [app].
  rewrite advance_app by (rewrite length_chars, print_u0_length; lia). cbn [mbind outcome_bind].
  rewrite read_counter by assumption.
  rewrite advance_app by (rewrite length_chars, print_u0_length; lia). cbn [mbind outcome_bind].
  cbn [c_read lookup list_lookup mbind outcome_bind]. rewrite bool_decide_eq_true_2 by done.
  cbn [negb]. rewrite advance_1. cbn [mbind outcome_bind].
  rewrite read_counter by lia.
  rewrite advance_app by (rewrite length_chars, print_u0_length; lia). cbn [mbind outcome_bind].
  cbn [c_read lookup list_lookup mbind outcome_bind]. rewrite bool_decide_eq_true_2 by done.
  cbn [negb]. by rewrite advance_1.
Qed.

(** What [buffer_size] is for a packet: the manager and the agent pass the number of bytes
    they received less one. *)
Lemma decrypt_seal e key method z (rest ct : bytes) :
  encryption_key e = Some key → crypto_method e = method →
  method = W_METH_BLOWFISH ∨ method = W_METH_AES →
  (length (seal key method (padded z)) < length ct)%nat → Z.of_nat (length ct) ≤ 65537 →
  ∃ ok ct', decrypt e (seal key method (padded z) ++ rest) ct
      (Z.of_nat (length (chars (token method) ++ seal key method (padded z))) - 1) =
      Ret (ok, padded z ++ ct') ∧ ok ≠ 0 ∧ length (padded z ++ ct') = length ct.
Proof.
  intros Hk Hc Hm Hl Hct. destruct (padded_length z) as (n & Hn & Hb).
  destruct (seal_length key method z) as [_ Hse]. unfold decrypt. rewrite Hc, Hk.
  destruct Hm as [-> | ->]; unfold seal in *;
    cbn [Z.eqb W_METH_AES W_METH_BLOWFISH Pos.eqb token chars c_deref mbind outcome_bind] in *.
  - pose proof (bf_encrypt_length key (padded z) n Hn) as Hlen.
    pose proof (bf_inverse key (padded z) n Hn) as Hinv.
    set (c := BF_encrypt key (padded z)) in *. cbn [app length].
    replace (Z.of_nat (S (length c)) - 1) with (Z.of_nat (length c)) by lia.
    unfold OS_BF_Str. rewrite Nat2Z.id.
    replace (round8 (length c)) with (length c).
    2: { unfold round8. rewrite Hlen, Hn. pose proof (Nat.div_mod_eq (8 * n + 7) 8).
         pose proof (Nat.mod_upper_bound (8 * n + 7) 8). lia. }
    rewrite slice_app by done. cbn [mbind outcome_bind]. rewrite Hinv.
    rewrite take_ge by lia. rewrite c_store_ok by lia. cbn [mbind outcome_bind].
    eexists 1, _. rewrite splice_0. split; [done|]. split; [done|].
    rewrite length_app, length_drop. lia.
  - destruct (aes_inverse key (padded z)) as (c & Hc' & Hlen & Hd). rewrite Hc' in *.
    change (default [] (Some c)) with c in *. unfold token. cbn [Z.eqb chars app length].
    replace (u32 _) with (Z.of_nat (length c)).
    2: { unfold u32. rewrite Z.mod_small by lia. lia. }
    unfold OS_AES_Str. replace (wrap_int _) with (Z.of_nat (length c)).
    2: { unfold wrap_int. rewrite Z.mod_small by lia. lia. }
    replace (_ <? 0) with false by (symmetry; apply Z.ltb_ge; lia).
    rewrite Nat2Z.id, slice_app by done. cbn [mbind outcome_bind]. rewrite Hd.
    rewrite c_store_ok by lia. cbn [mbind outcome_bind]. eexists _, _. rewrite splice_0.
    split; [done|]. split; [lia|]. rewrite length_app, length_drop. lia.
Qed.

Lemma skip_padding_spec n (c : ascii) (rest : bytes) size :
  c ≠ "!"%char → Z.of_nat n ≤ size < 2 ^ 32 →
  skip_padding (replicate n "!"%char ++ c :: rest) size = Ret (c :: rest, size - Z.of_nat n).
Proof.
  intros Hc. revert size. induction n as [|n IH]; intros size Hs; cbn [replicate app skip_padding].
  - rewrite bool_decide_eq_false_2 by done. do 2 f_equal. lia.
  - rewrite bool_decide_eq_true_2 by done. unfold u32. rewrite Z.mod_small by lia.
    rewrite IH by lia. do 2 f_equal. lia.
Qed.

Lemma read_compressed_plain m s ks i g l r msg c ct dbuf size now :
  0 ≤ g < 2 ^ 32 → 0 ≤ l < 10000 → 0 ≤ r < 2 ^ 16 →
  Z.of_nat (length msg) ≤ OS_MAXSTR - OS_HEADER_SIZE →
  (∀ rest n', (length (plain g l r msg) ≤ n')%nat →
     uncompress ("x"%char :: c ++ rest) n' = Some (plain g l r msg)) →
  length (padded ("x"%char :: c) ++ ct) = (maxstr + 1)%nat → length dbuf = (maxstr + 1)%nat →
  Z.of_nat (length (padded ("x"%char :: c))) ≤ size ≤ OS_MAXSTR →
  ∃ rest, read_compressed m s ks i (padded ("x"%char :: c) ++ ct) dbuf size now =
    check_counters m s ks i g l now (msg ++ NUL :: rest) (Z.of_nat (length msg)).
Proof.
  intros Hg Hl Hr Hm Hun Hct Hdb Hs. pose proof maxstr_val as Hx. unfold OS_MAXSTR, OS_HEADER_SIZE in *.
  pose proof (plain_length g l r msg Hg Hl Hr) as Hp.
  unfold read_compressed. rewrite c_write_lt by lia. cbn [mbind outcome_bind].
  rewrite insert_app_r_alt by lia. set (ct' := <[_ := NUL]> ct).
  assert (length ct' = length ct) as Hct' by apply length_insert.
  revert Hs Hct. unfold padded. set (bf := if (_ =? _)%nat then _ else _). clearbody bf.
  cbn [replicate app].
  rewrite advance_1, <-!app_assoc. cbn [mbind outcome_bind app length].
  rewrite !length_app, !length_replicate. cbn [length]. rewrite length_app. intros Hs Hct.
  unfold u32. rewrite Z.mod_small by lia. rewrite skip_padding_spec; [|by intros [=]|lia].
  cbn [mbind outcome_bind]. unfold os_zlib_uncompress.
  rewrite c_slice_ok by (cbn [length]; rewrite length_app; lia). cbn [mbind outcome_bind]. rewrite drop_0.
  replace (Z.to_nat _) with (length ("x"%char :: c) + (Z.to_nat size - 2 - bf - length c))%nat
    by (cbn [length]; lia).
  change ("x"%char :: c ++ ct') with (("x"%char :: c) ++ ct'). rewrite take_app_add.
  cbn [app]. rewrite Hun by lia.
  pose proof (store_terminated dbuf (plain g l r msg)) as Hst. rewrite Hp in Hst |- *.
  destruct (c_store dbuf 0 _) as [d|]; [|cbn in Hst; discriminate Hst; lia].
  cbn [mbind outcome_bind] in *. rewrite Hst by lia. cbn [mbind outcome_bind].
  replace (_ <? MSG_OVERHEAD)%nat with false by (symmetry; apply Nat.ltb_ge; unfold MSG_OVERHEAD; lia).
  rewrite read_header_plain by assumption. cbn [mbind outcome_bind].
  eexists. f_equal. unfold u64. rewrite !length_app, Hp. rewrite Z.mod_small; lia.
Qed.

(** The parts of a packet: the stream restores the plain message, whatever follows it. *)
Lemma is_packet_inv key method g l msg pkt :
  is_packet key method g l msg pkt →
  ∃ r c, 0 ≤ r < 2 ^ 16 ∧ pkt = chars (token method) ++ seal key method (padded ("x"%char :: c)) ∧
    Z.of_nat (length (seal key method (padded ("x"%char :: c)))) ≤ 65516 ∧
    ∀ rest n', (length (plain g l r msg) ≤ n')%nat →
      uncompress ("x"%char :: c ++ rest) n' = Some (plain g l r msg).
Proof.
  intros (Hm & Hg & Hl & Hmsg & r & z & Hr & Hz & Hp).
  destruct (compress_message g l r msg Hg Hl Hr) as (z' & Hz' & Hlen); [apply Hmsg|].
  assert (z' = z) as -> by congruence. pose proof maxstr_val as Hx.
  destruct (compress_inverse (plain g l r msg) (maxstr - 12)) as (c & Hc & Hb & Hun).
  { rewrite plain_length by assumption. unfold OS_MAXSTR, OS_HEADER_SIZE in *. lia. }
  { etrans; [apply (plain_bound g l r msg Hg Hl Hr), Hmsg|lia]. }
  assert (z = "x"%char :: c) as -> by congruence.
  exists r, c. split; [exact Hr|]. split; [exact Hp|]. split; [|exact Hun].
  destruct (seal_length key method ("x"%char :: c)) as [Hs _]. lia.
Qed.

Lemma read_token_packet e method (rest : bytes) :
  method = W_METH_BLOWFISH ∨ method = W_METH_AES → (client = true → crypto_method e = method) →
  ∃ e', read_token client e (chars (token method) ++ rest) = Ret (e', ":"%char :: rest) ∧
    e' = set_crypto e method.
Proof.
  intros Hm Hc. unfold read_token.
  assert ((if client then e else set_crypto e method) = set_crypto e method) as He.
  { destruct client; [|done]. rewrite <-Hc by done. by destruct e. }
  destruct Hm as [-> | ->]; cbn [token Z.eqb W_METH_AES W_METH_BLOWFISH chars app].
  - rewrite bool_decide_eq_false_2 by (cbn; congruence). rewrite He. by eexists.
  - unfold token. cbn [Z.eqb chars app].
    rewrite bool_decide_eq_true_2 by done.
    pose proof (advance_app (chars "#AES") (":"%char :: rest) 4 eq_refl) as Ha. cbn [chars app] in Ha.
    rewrite Ha. cbn [mbind outcome_bind]. rewrite He. by eexists.
Qed.

Lemma ReadSecMSG_packet m s (ks : keystore) i p e key method g l msg pkt junk ct dbuf now :
  has_encryption_key (key_mode ks) = true → entry_at m ks i = Ret (p, e) →
  encryption_key e = Some key → (client = true → crypto_method e = method) →
  is_packet key method g l msg pkt →
  length ct = (maxstr + 1)%nat → length dbuf = (maxstr + 1)%nat →
  ∃ rest, ReadSecMSG m s ks (pkt ++ junk) ct dbuf i (Z.of_nat (length pkt) - 1) now =
    check_counters (put m p (set_crypto e method)) s ks i g l now (msg ++ NUL :: rest)
      (Z.of_nat (length msg)).
Proof.
  intros Hmode He Hk Hcl Hpk Hct Hdb. pose proof maxstr_val as Hx.
  destruct (is_packet_inv _ _ _ _ _ _ Hpk) as (r & c & Hr & -> & Hlen & Hun).
  destruct Hpk as (Hm & Hg & Hl & Hmsg & _). unfold ReadSecMSG. rewrite Hmode, He. cbn [negb mbind outcome_bind].
  rewrite <-app_assoc. edestruct read_token_packet as (e' & -> & ->); [exact Hm|exact Hcl|].
  cbn [mbind outcome_bind c_read lookup list_lookup]. rewrite bool_decide_eq_true_2 by done.
  cbn [negb]. rewrite advance_1. cbn [mbind outcome_bind].
  destruct (decrypt_seal (set_crypto e method) key method ("x"%char :: c) junk ct)
    as (ok & ct' & -> & Hok & Hct'); [exact Hk|done|exact Hm|lia|lia|].
  cbn [mbind outcome_bind]. replace (ok =? 0) with false by (symmetry; by apply Z.eqb_neq).
  replace (c_read _ 0) with (Ret "!"%char) by done. cbn [mbind outcome_bind].
  rewrite bool_decide_eq_true_2 by done.
  destruct (seal_length key method ("x"%char :: c)) as [_ Hs].
  assert (1 ≤ String.length (token method) ≤ 5)%nat by (unfold token; destruct (_ =? _); simpl; lia).
  apply read_compressed_plain with (r := r); try assumption; [apply Hmsg|lia|].
  rewrite length_app, length_chars. unfold OS_MAXSTR. lia.
Qed.
End reading.
