(* ===== verification/SecChannel.v ===== *)
(** * The channel between an agent and the manager

    What [CreateSecMSG] and [ReadSecMSG] of [SecMsg] give together.  The first part is
    the state of the receiving side: the entries of the agents, and the queue of the
    counter files that are open, whose nodes and the entries point to each other.  The
    second shows that no packet, however it was made, leads the code to an invalid
    access, and the third that the messages of the sender arrive unchanged, in order and
    at most once. *)

From Stdlib Require Import Lia ZArith Ascii String.
From stdpp Require Import base numbers list gmap strings pretty.
From S2P Require Import Prelude LinkedQueue CString StrMap RBTree IpAddr KeyStore SecMsg.

#[local] Open Scope list_scope.
#[local] Open Scope Z_scope.

Section channel.
Context {T : Type} `{StrMap loc T} `{CryptoLaws}.
Context (new_ino : gset Z → Z) (new_node : gset loc → loc).
Hypothesis (new_node_fresh : ∀ X, new_node X ∉ X).

Abbreviation keystore := (keystore (T := T)).

(** [ps] are the addresses of the entries of the agents.  A node of the queue belongs to
    exactly the entry that points to it. *)
Record rids_inv (m : kmem) (s : sec) (ks : keystore) (ps : list loc) : Prop := {
  ri_array : ∀ i p, ps !! i = Some p → keyentries ks !! i = Some (Some p);
  ri_size : length ps = keysize ks;
  ri_nodup : NoDup ps;
  ri_entry : ∀ p, p ∈ ps → ∃ e, kheap m !! p = Some e ∧ is_Some (id e) ∧ is_Some (encryption_key e);
  ri_queue : ∃ nl, repr (lque (opened_fp_queue s)) nl ∧
    ∀ n d, (n, d) ∈ nl ↔
      ∃ p e, d = Some p ∧ p ∈ ps ∧ kheap m !! p = Some e ∧ rids_node e = Some n
}.

(** The file of an agent is there, may be opened, and is the one the entry knows. *)
Definition file_ok (s : sec) (e : keyentry) : Prop :=
  ∃ ident, id e = Some ident ∧ (rids_path ident ∉ fs_denied (files s)) ∧
    fs_dir (files s) !! rids_path ident = Some (inode e).

(** What an operation on the counters of the agent at [p] may change: its entry, of which
    the identifier, the key and the address stay, the queue and the files. *)
Record agent_change (ks : keystore) (ps : list loc) (p : loc)
    (m : kmem) (s : sec) (e : keyentry) (m' : kmem) (s' : sec) (e' : keyentry) : Prop := {
  ac_inv : rids_inv m' s' ks ps;
  ac_heap : kheap m' = <[p := e']> (kheap m);
  ac_agent : id e' = id e ∧ encryption_key e' = encryption_key e ∧ kip e' = kip e;
  ac_options : s_verify_counter s' = s_verify_counter s ∧ s_recv_flush s' = s_recv_flush s;
  ac_file : file_ok s e → file_ok s' e'
}.

Lemma agent_change_trans ks ps p m1 s1 e1 m2 s2 e2 m3 s3 e3 :
  agent_change ks ps p m1 s1 e1 m2 s2 e2 → agent_change ks ps p m2 s2 e2 m3 s3 e3 →
  agent_change ks ps p m1 s1 e1 m3 s3 e3.
Proof.
  intros [_ Hh1 Ha1 Ho1 Hf1] [Hi2 Hh2 Ha2 Ho2 Hf2]. split; [done| |intuition congruence..|auto].
  by rewrite Hh2, Hh1, insert_insert_eq.
Qed.

Lemma rids_entry_at m s ks ps i p e :
  rids_inv m s ks ps → ps !! i = Some p → kheap m !! p = Some e → entry_at m ks i = Ret (p, e).
Proof.
  intros Hi Hp He. unfold entry_at. rewrite (c_read_Some _ _ (Some p)) by by eapply ri_array.
  cbn [mbind outcome_bind c_deref]. by rewrite He.
Qed.

(** The entry [e'] replaces [e], and the queue may change with its node. *)
Lemma rids_inv_update m s s' ks ps p e e' nl' :
  rids_inv m s ks ps → p ∈ ps → kheap m !! p = Some e →
  id e' = id e → encryption_key e' = encryption_key e →
  repr (lque (opened_fp_queue s')) nl' →
  (∀ n d, (n, d) ∈ nl' ↔ (d = Some p ∧ rids_node e' = Some n) ∨
     ∃ p' e0, d = Some p' ∧ p' ∈ ps ∧ p' ≠ p ∧ kheap m !! p' = Some e0 ∧ rids_node e0 = Some n) →
  rids_inv (put m p e') s' ks ps.
Proof.
  intros Hi Hp He Hid Hkey Hr Hnl. destruct Hi as [Ha Hs Hn Hent _]. split; [done..| |].
  - intros p' Hp'. cbn. destruct (decide (p' = p)) as [-> |Hne].
    + exists e'. rewrite lookup_insert_eq, Hid, Hkey. split; [done|].
      destruct (Hent p Hp) as (e0 & He0 & H'). by simplify_eq.
    + rewrite lookup_insert_ne by done. by apply Hent.
  - exists nl'. split; [done|]. intros n d. rewrite Hnl. cbn. split.
    + intros [[-> Hn']|(p' & e0 & -> & Hp' & Hne & He0 & Hn')].
      * exists p, e'. by rewrite lookup_insert_eq.
      * exists p', e0. by rewrite lookup_insert_ne by done.
    + intros (p' & e0 & -> & Hp' & He0 & Hn'). destruct (decide (p' = p)) as [-> |Hne].
      * left. rewrite lookup_insert_eq in He0. by simplify_eq.
      * right. rewrite lookup_insert_ne in He0 by done. by exists p', e0.
Qed.

(** A write to an entry that keeps its node. *)
Lemma rids_inv_put m s s' ks ps p e e' :
  rids_inv m s ks ps → p ∈ ps → kheap m !! p = Some e →
  id e' = id e → encryption_key e' = encryption_key e → rids_node e' = rids_node e →
  opened_fp_queue s' = opened_fp_queue s → rids_inv (put m p e') s' ks ps.
Proof.
  intros Hi Hp He Hid Hkey Hnode Hq. destruct (ri_queue _ _ _ _ Hi) as (nl & Hr & Hnl).
  eapply rids_inv_update; [done..|by rewrite Hq|]. intros n d. rewrite Hnl, Hnode. split.
  - intros (p' & e0 & -> & Hp' & He0 & Hn'). destruct (decide (p' = p)) as [-> |Hne].
    + left. by simplify_eq.
    + right. by exists p', e0.
  - intros [[-> Hn']|(p' & e0 & -> & Hp' & Hne & He0 & Hn')]; [by exists p, e|by exists p', e0].
Qed.

Lemma queue_agent_spec m s ks ps p e f t e0 :
  rids_inv m s ks ps → p ∈ ps → kheap m !! p = Some e →
  id e0 = id e → encryption_key e0 = encryption_key e →
  ∃ q node, queue_agent new_node (opened_fp_queue s) p (rids_node e) = Ret (q, node) ∧
    rids_inv (put m p (set_rids e0 t node)) (set_queue (set_files s f) q) ks ps.
Proof.
  intros Hi Hp He Hid Hkey. destruct (ri_queue _ _ _ _ Hi) as (nl & Hr & Hnl). unfold queue_agent.
  assert (∀ n d, (n, d) ∈ nl ∧ d ≠ Some p ↔ ∃ p' e1, d = Some p' ∧ p' ∈ ps ∧ p' ≠ p ∧
    kheap m !! p' = Some e1 ∧ rids_node e1 = Some n) as Hother.
  { intros n d. rewrite Hnl. split.
    - intros [(p' & e1 & -> & Hp' & He1 & Hn') Hd]. exists p', e1. split_and!; try done. congruence.
    - intros (p' & e1 & -> & Hp' & Hne & He1 & Hn'). split; [by exists p', e1|congruence]. }
  destruct (rids_node e) as [n|] eqn:Hnode.
  - assert ((n, Some p) ∈ nl) as Hin by (apply Hnl; by exists p, e).
    destruct (list_elem_of_split _ _ Hin) as (l1 & l2 & ->).
    destruct (unlink_and_push_spec _ _ _ _ _ Hr) as (q' & -> & Hr'). cbn [mbind outcome_bind].
    eexists _, _. split; [done|]. eapply rids_inv_update; [done..|exact Hr'|].
    intros n' d. rewrite <-Hother. cbn [rids_node set_rids].
    assert ((n', d) ∈ l1 ++ l2 ++ [(n, Some p)] ↔ (n', d) ∈ l1 ++ (n, Some p) :: l2) as ->.
    { rewrite !elem_of_app, !elem_of_cons, elem_of_nil. tauto. }
    destruct (decide (d = Some p)) as [-> |Hd]; [|naive_solver].
    rewrite Hnl. split; [|naive_solver]. intros (p' & e1 & [= <-] & _ & He1 & Hn'). left. by simplify_eq.
  - set (n := new_node _). unfold linked_queue_push_ex.
    destruct (push_spec (lque (opened_fp_queue s)) nl n (Some p) Hr) as (q' & -> & Hr').
    { apply not_elem_of_dom. apply new_node_fresh. }
    cbn [mbind outcome_bind]. eexists _, _. split; [done|].
    eapply rids_inv_update; [done..|exact Hr'|]. intros n' d. rewrite <-Hother. cbn [rids_node set_rids].
    rewrite elem_of_app, list_elem_of_singleton. split.
    + intros [Hin|[= -> ->]]; [|by left]. right. split; [done|]. intros ->.
      apply Hnl in Hin as (p' & e1 & [= <-] & _ & He1 & Hn'). simplify_eq.
    + intros [[-> [= ->]]|[Hin _]]; [by right|by left].
Qed.

(** Only the counters, the method or the number of messages change. *)
Lemma put_change m s s' ks ps p e e' :
  rids_inv m s ks ps → p ∈ ps → kheap m !! p = Some e →
  id e' = id e → encryption_key e' = encryption_key e → kip e' = kip e → inode e' = inode e →
  rids_node e' = rids_node e →
  opened_fp_queue s' = opened_fp_queue s → files s' = files s →
  s_verify_counter s' = s_verify_counter s → s_recv_flush s' = s_recv_flush s →
  agent_change ks ps p m s e (put m p e') s' e'.
Proof.
  intros Hi Hp He Hid Hkey Hip Hino Hn Hq Hf Hv Hfl. split; [by eapply rids_inv_put|done..|].
  unfold file_ok. by rewrite Hid, Hino, Hf.
Qed.

Lemma open_counter_spec f path :
  match open_counter new_ino f path with
  | None => path ∈ fs_denied f
  | Some (fd, f') => fs_denied f' = fs_denied f ∧
      (is_Some (fs_dir f !! path) → fs_dir f' = fs_dir f)
  end.
Proof.
  unfold open_counter, wfopen_rw, wfopen_w. destruct (decide (path ∈ fs_denied f)) as [Hd|Hd].
  { rewrite bool_decide_eq_true_2 by done. by rewrite bool_decide_eq_true_2. }
  rewrite bool_decide_eq_false_2 by done. destruct (fs_dir f !! path) as [ino|] eqn:E; [done|].
  rewrite bool_decide_eq_false_2 by done. split; [done|]. intros [ino E']. discriminate E'.
Qed.

Lemma StoreCounter_spec m s ks ps i p e g l now :
  rids_inv m s ks ps → ps !! i = Some p → kheap m !! p = Some e →
  ∃ r, StoreCounter new_ino new_node m s ks i g l now = Ret r ∧ (file_ok s e → is_Some r) ∧
    ∀ m' s', r = Some (m', s') → ∃ e', agent_change ks ps p m s e m' s' e' ∧
      global e' = global e ∧ local e' = local e.
Proof.
  intros Hi Hp He. pose proof (list_elem_of_lookup_2 _ _ _ Hp) as Hin.
  destruct (ri_entry _ _ _ _ Hi p Hin) as (e0 & He0 & [ident Hid] & _). simplify_eq.
  unfold StoreCounter. rewrite (rids_entry_at _ _ _ _ _ _ _ Hi Hp He). cbn [mbind outcome_bind].
  rewrite Hid. cbn [c_deref mbind outcome_bind].
  set (o := match fp e with Some fd => _ | None => _ end).
  assert (match o with
          | None => rids_path ident ∈ fs_denied (files s)
          | Some (_, f') => fs_denied f' = fs_denied (files s) ∧
              (is_Some (fs_dir (files s) !! rids_path ident) → fs_dir f' = fs_dir (files s))
          end) as Ho.
  { unfold o. destruct (fp e); [done|apply open_counter_spec]. }
  destruct o as [[fd f]|].
  - destruct Ho as [Hden Hdir]. unfold write_counters. cbn [c_deref mbind outcome_bind].
    set (f' := mk_fsys _ _ _ _).
    destruct (queue_agent_spec m s ks ps p e f' now (set_file e (Some fd) (inode e)))
      as (q & node & -> & Hi'); [done..|].
    cbn [mbind outcome_bind]. eexists. split; [done|]. split; [by eexists|].
    intros m' s' [= <- <-]. exists (set_rids (set_file e (Some fd) (inode e)) now node).
    split; [|done]. split; [exact Hi'|done..|].
    intros (id' & Hid' & Hnd & Hino). exists id'. cbn. rewrite Hden. split; [done|]. split; [done|].
    rewrite Hid in Hid'. simplify_eq. by rewrite Hdir by by eexists.
  - eexists. split; [done|]. split; [|done]. intros (id' & Hid' & Hnd & _).
    rewrite Hid in Hid'. by simplify_eq.
Qed.

Lemma ReloadCounter_spec m s ks ps i p e ident :
  rids_inv m s ks ps → ps !! i = Some p → kheap m !! p = Some e → id e = Some ident →
  ∃ m' s' e', ReloadCounter new_ino m s ks i ident = Ret (m', s') ∧
    agent_change ks ps p m s e m' s' e' ∧ rcv_count s' = rcv_count s ∧
    (file_ok s e → global e' = global e ∧ local e' = local e).
Proof.
  intros Hi Hp He Hid. pose proof (list_elem_of_lookup_2 _ _ _ Hp) as Hin.
  pose proof (lookup_lt_Some _ _ _ Hp) as Hlt. rewrite (ri_size _ _ _ _ Hi) in Hlt.
  unfold ReloadCounter. rewrite (rids_entry_at _ _ _ _ _ _ _ Hi Hp He). cbn [mbind outcome_bind].
  destruct (Z.eqb_spec (inode e) (File_Inode (files s) (rids_path ident))) as [Hin'|Hne].
  { exists m, s, e. split; [done|]. split; [|done]. split; try done. by rewrite insert_id. }
  assert (¬ file_ok s e) as Hnf.
  { intros (id' & Hid' & _ & Hdir). rewrite Hid in Hid'. simplify_eq. apply Hne.
    unfold File_Inode. by rewrite Hdir. }
  replace (i =? keysize ks)%nat with false by (symmetry; apply Nat.eqb_neq; lia).
  assert (∀ f e', id e' = id e → encryption_key e' = encryption_key e → kip e' = kip e →
    rids_node e' = rids_node e →
    agent_change ks ps p m s e (put m p e') (set_files s f) e') as Hput.
  { intros f e' E1 E2 E3 E4. split; [by eapply rids_inv_put|done..|done]. }
  destruct (wfopen_rw _ _) as [[fd|] f].
  - destruct (scan_counters _) as [g_c l_c]. eexists _, _, _. split; [done|]. split; [by apply Hput|]. done.
  - destruct (wfopen_w _ _ _) as [[fd|] f']; eexists _, _, _; (split; [done|]); (split; [by apply Hput|]); done.
Qed.

Lemma accept_spec m s ks ps i p e g l now :
  rids_inv m s ks ps → ps !! i = Some p → kheap m !! p = Some e →
  ∃ r, accept new_ino new_node m s ks i g l now = Ret r ∧ (file_ok s e → is_Some r) ∧
    ∀ m' s', r = Some (m', s') → ∃ e', agent_change ks ps p m s e m' s' e' ∧
      global e' = g ∧ local e' = l.
Proof.
  intros Hi Hp He. pose proof (list_elem_of_lookup_2 _ _ _ Hp) as Hin.
  unfold accept. rewrite (rids_entry_at _ _ _ _ _ _ _ Hi Hp He). cbn [mbind outcome_bind].
  assert (agent_change ks ps p m s e (put m p (set_counters e g l)) s (set_counters e g l)) as Hc1
    by by eapply put_change.
  assert (kheap (put m p (set_counters e g l)) !! p = Some (set_counters e g l)) as He1
    by (cbn; by rewrite lookup_insert_eq).
  assert (∀ m1 s1 e1 n, agent_change ks ps p m s e m1 s1 e1 →
    agent_change ks ps p m s e m1 (set_rcv_count s1 n) e1) as Hrcv.
  { intros m1 s1 e1 n [[Ha Hsz Hnd Hent Hq] Hh Hag Ho Hf].
    split; [split; assumption|assumption..]. }
  destruct (s_recv_flush s <=? rcv_count s).
  - destruct (StoreCounter_spec _ _ _ _ _ _ _ g l now (ac_inv _ _ _ _ _ _ _ _ _ Hc1) Hp He1)
      as (r & -> & Hok & Hr). cbn [mbind outcome_bind]. eexists. split; [done|]. split.
    + intros Hf. destruct Hok as [[? ?] ->]; [|by eexists]. by apply (ac_file _ _ _ _ _ _ _ _ _ Hc1).
    + intros m' s' E. destruct r as [[m1 s1]|]; [|done]. injection E as <- <-.
      destruct (Hr _ _ eq_refl) as (e' & Hc2 & Hg & Hl). exists e'. split; [|done].
      apply Hrcv, Hrcv. by eapply agent_change_trans.
  - cbn [mbind outcome_bind]. eexists. split; [done|]. split; [by eexists|].
    intros m' s' [= <- <-]. exists (set_counters e g l). split; [by apply Hrcv|done].
Qed.

Lemma agent_change_lookup ks ps p m s e m' s' e' :
  agent_change ks ps p m s e m' s' e' → kheap m' !! p = Some e'.
Proof. intros Hc. rewrite (ac_heap _ _ _ _ _ _ _ _ _ Hc). apply lookup_insert_eq. Qed.

(** The answer to a message with the counters [g] and [l]: it is taken if they are newer,
    or if counters are not verified at all. *)
Record answer_ok (ks : keystore) (ps : list loc) (p : loc) (m : kmem) (s : sec) (e : keyentry)
    (g l : Z) (out : bytes) (size : Z) (rep : reply) (e' : keyentry) : Prop := {
  ans_change : agent_change ks ps p m s e (r_mem rep) (r_sec rep) e';
  ans_valid : r_status rep = KS_VALID →
    r_output rep = Some (out, size) ∧ global e' = g ∧ local e' = l;
  ans_verified : s_verify_counter s ≠ 0 → file_ok s e →
    if newer g l e then r_status rep = KS_VALID
    else r_status rep ≠ KS_VALID ∧ global e' = global e ∧ local e' = local e
}.

Lemma check_counters_spec m s ks ps i p e g l now out size :
  rids_inv m s ks ps → ps !! i = Some p → kheap m !! p = Some e →
  ∃ r, check_counters new_ino new_node m s ks i g l now out size = Ret r ∧ (file_ok s e → is_Some r) ∧
    ∀ rep, r = Some rep → ∃ e', answer_ok ks ps p m s e g l out size rep e'.
Proof.
  intros Hi Hp He. pose proof (list_elem_of_lookup_2 _ _ _ Hp) as Hin. unfold check_counters.
  destruct (Z.eqb_spec (s_verify_counter s) 0) as [Hv|Hv].
  - destruct (accept_spec m s ks ps i p e g l now Hi Hp He) as (r & -> & Hok & Hr).
    cbn [mbind outcome_bind]. eexists. split; [done|]. split.
    + intros Hf. destruct (Hok Hf) as [[? ?] ->]. by eexists.
    + intros rep E. destruct r as [[m' s']|]; [|done]. injection E as <-.
      destruct (Hr _ _ eq_refl) as (e' & Hc & Hg & Hl). by exists e'.
  - rewrite (rids_entry_at _ _ _ _ _ _ _ Hi Hp He). cbn [mbind outcome_bind].
    destruct (ri_entry _ _ _ _ Hi p Hin) as (e0 & He0 & [ident Hid] & _). simplify_eq.
    rewrite Hid. cbn [c_deref mbind outcome_bind].
    assert (∃ m1 s1 e1, (if s_recv_flush s <=? rcv_count s then ReloadCounter new_ino m s ks i ident
        else Ret (m, s)) = Ret (m1, s1) ∧ agent_change ks ps p m s e m1 s1 e1 ∧
        (file_ok s e → global e1 = global e ∧ local e1 = local e)) as (m1 & s1 & e1 & -> & Hc1 & Hcnt).
    { destruct (_ <=? _).
      - destruct (ReloadCounter_spec m s ks ps i p e ident Hi Hp He Hid) as (m1 & s1 & e1 & ? & ? & _ & ?).
        by exists m1, s1, e1.
      - exists m, s, e. split; [done|]. split; [|done]. split; try done. by rewrite insert_id. }
    cbn [mbind outcome_bind]. pose proof (ac_inv _ _ _ _ _ _ _ _ _ Hc1) as Hi1.
    pose proof (agent_change_lookup _ _ _ _ _ _ _ _ _ Hc1) as He1.
    rewrite (rids_entry_at _ _ _ _ _ _ _ Hi1 Hp He1). cbn [mbind outcome_bind].
    assert (file_ok s e → newer g l e1 = newer g l e) as Hnew.
    { intros Hf. destruct (Hcnt Hf) as [Hg Hl]. unfold newer. by rewrite Hg, Hl. }
    destruct (newer g l e1) eqn:Hn.
    + destruct (accept_spec m1 s1 ks ps i p e1 g l now Hi1 Hp He1) as (r & -> & Hok & Hr).
      cbn [mbind outcome_bind]. eexists. split; [done|]. split.
      * intros Hf. destruct Hok as [[? ?] ->]; [|by eexists]. by apply (ac_file _ _ _ _ _ _ _ _ _ Hc1).
      * intros rep E. destruct r as [[m' s']|]; [|done]. injection E as <-.
        destruct (Hr _ _ eq_refl) as (e' & Hc & Hg & Hl). exists e'.
        split; [by eapply agent_change_trans|done|]. intros _ Hf. by rewrite <-Hnew.
    + assert (∀ st, st ≠ KS_VALID → answer_ok ks ps p m s e g l out size (mk_reply m1 s1 st None) e1) as Hrej.
      { intros st Hst. split; [done|done|]. intros _ Hf. rewrite <-Hnew by done. split; [done|by apply Hcnt]. }
      destruct (_ =? _); (eexists; split; [done|]; split; [by eexists|]);
        intros rep [= <-]; exists e1; by apply Hrej.
Qed.

(** ** Any packet is read safely *)

Lemma advance_ok (b : bytes) n : (n ≤ length b)%nat → advance b n = Ret (drop n b).
Proof. intros Hn. unfold advance. by rewrite decide_True. Qed.

(** A NUL [n] bytes further ends the padding. *)
Lemma skip_padding_safe (a b : bytes) :
  Z.of_nat (length a) < 2 ^ 32 →
  ∃ rest size, skip_padding (a ++ NUL :: b) (Z.of_nat (length a)) = Ret (rest, size) ∧
    0 ≤ size ≤ Z.of_nat (length rest).
Proof.
  induction a as [|c a IH]; intros Ha; cbn [app skip_padding length].
  - rewrite bool_decide_eq_false_2 by done. eexists _, _. split; [done|]. lia.
  - cbn [length] in Ha. case_bool_decide.
    + unfold u32. rewrite Z.mod_small by lia. replace (_ - 1) with (Z.of_nat (length a)) by lia.
      apply IH. lia.
    + eexists _, _. split; [done|]. cbn [length]. rewrite length_app. lia.
Qed.

Lemma CheckSum_safe (msg : bytes) n :
  (32 ≤ length msg)%nat → n ≤ Z.of_nat (length msg) →
  CheckSum msg n = Ret None ∨ CheckSum msg n = Ret (Some (drop 32 msg)).
Proof.
  intros Hl Hn. unfold CheckSum. rewrite c_slice_ok by lia. cbn [mbind outcome_bind].
  rewrite advance_ok by lia. cbn [mbind outcome_bind]. unfold OS_MD5_Str.
  destruct (Z.ltb_spec (n - 32) 0).
  - cbn [mbind outcome_bind]. case_bool_decide; auto.
  - rewrite c_slice_ok by (rewrite length_drop; lia). cbn [mbind outcome_bind]. case_bool_decide; auto.
Qed.

Lemma c_read_first (b : bytes) : (0 < length b)%nat → ∃ c, c_read b 0 = Ret c.
Proof. destruct b as [|c b]; [simpl; lia|]. by exists c. Qed.

(** A field of [n] characters and a colon. *)
Lemma read_header_safe (msg : bytes) n :
  (MSG_OVERHEAD ≤ n ≤ length msg)%nat → ∃ h, read_header msg n = Ret h.
Proof.
  unfold MSG_OVERHEAD. intros Hn. unfold read_header.
  destruct (CheckSum_safe msg (Z.of_nat n)) as [-> | ->]; [lia|lia| |]; cbn [mbind outcome_bind]; [by eexists|].
  rewrite advance_ok by (rewrite length_drop; lia). cbn [mbind outcome_bind].
  rewrite advance_ok by (rewrite !length_drop; lia). cbn [mbind outcome_bind].
  edestruct c_read_first as [c ->]; [rewrite !length_drop; lia|]. cbn [mbind outcome_bind].
  destruct (negb _); [by eexists|].
  rewrite advance_ok by (rewrite !length_drop; lia). cbn [mbind outcome_bind].
  rewrite advance_ok by (rewrite !length_drop; lia). cbn [mbind outcome_bind].
  edestruct c_read_first as [c' ->]; [rewrite !length_drop; lia|]. cbn [mbind outcome_bind].
  destruct (negb _); [by eexists|].
  rewrite advance_ok by (rewrite !length_drop; lia). cbn [mbind outcome_bind]. by eexists.
Qed.

Lemma after_colon_safe (b : bytes) : NUL ∈ b → ∃ r, after_colon b = Ret r.
Proof.
  induction b as [|c b IH]; [by intros ?%elem_of_nil|]. intros Hin. cbn [after_colon].
  case_bool_decide; [by eexists|]. case_bool_decide as Hc; [by eexists|].
  apply IH. apply elem_of_cons in Hin as [Heq|Hin]; [by destruct Hc|exact Hin].
Qed.

(** What every operation that reads from the agent at [p] promises. *)
Definition reads_safely (ks : keystore) (ps : list loc) (p : loc) (m : kmem) (s : sec) (e : keyentry)
    (o : outcome (option reply)) : Prop :=
  ∃ r, o = Ret r ∧ ∀ rep, r = Some rep → ∃ e', agent_change ks ps p m s e (r_mem rep) (r_sec rep) e'.

Lemma agent_change_refl ks ps p m s e :
  rids_inv m s ks ps → kheap m !! p = Some e → agent_change ks ps p m s e m s e.
Proof. intros Hi He. split; try done. by rewrite insert_id. Qed.

Lemma reads_safely_reply ks ps p m s e st :
  rids_inv m s ks ps → kheap m !! p = Some e →
  reads_safely ks ps p m s e (Ret (Some (mk_reply m s st None))).
Proof.
  intros Hi He. eexists. split; [done|]. intros rep [= <-]. exists e. by apply agent_change_refl.
Qed.

Lemma read_compressed_safe m s ks ps i p e (ct dbuf : bytes) size now :
  rids_inv m s ks ps → ps !! i = Some p → kheap m !! p = Some e →
  length ct = (maxstr + 1)%nat → length dbuf = (maxstr + 1)%nat → 1 ≤ size ≤ OS_MAXSTR →
  reads_safely ks ps p m s e (read_compressed new_ino new_node m s ks i ct dbuf size now).
Proof.
  intros Hi Hp He Hct Hdb Hs. pose proof maxstr_val as Hx. unfold OS_MAXSTR in Hs.
  unfold read_compressed. rewrite c_write_lt by lia. cbn [mbind outcome_bind].
  rewrite insert_take_drop by lia. set (n := Z.to_nat size).
  destruct ct as [|c ct]; [simpl in Hct; lia|]. cbn [length] in Hct.
  assert (n = S (n - 1)) as -> by lia. cbn [take drop app]. rewrite advance_1.
  cbn [mbind outcome_bind]. unfold u32. rewrite Z.mod_small by lia.
  replace (size - 1) with (Z.of_nat (length (take (n - 1) ct))) by (rewrite length_take; lia).
  edestruct skip_padding_safe as (rest & size' & -> & Hsz); [rewrite length_take; lia|].
  cbn [mbind outcome_bind]. unfold os_zlib_uncompress. rewrite c_slice_ok by lia.
  cbn [mbind outcome_bind]. destruct (uncompress _ _) as [u|] eqn:Hu; cbn [mbind outcome_bind];
    [|by apply reads_safely_reply].
  apply uncompress_fits in Hu. pose proof (store_terminated dbuf u) as Hst.
  destruct (c_store dbuf 0 u) as [d|]; [|discriminate Hst; lia]. cbn [mbind outcome_bind] in *.
  rewrite Hst by lia. cbn [mbind outcome_bind].
  destruct (Nat.ltb_spec (length u) MSG_OVERHEAD) as [Hlt|Hge]; [by apply reads_safely_reply|].
  destruct (read_header_safe (u ++ NUL :: drop (S (length u)) dbuf) (length u)) as [[[[g l] f]|] ->];
    [rewrite length_app; lia| |]; cbn [mbind outcome_bind]; [|by apply reads_safely_reply].
  edestruct check_counters_spec as (r & -> & _ & Hr); [done..|]. exists r. split; [done|].
  intros rep Hrep. destruct (Hr rep Hrep) as [e' [Hc _ _]]. by exists e'.
Qed.

Lemma put_counters_reply ks ps p m s e g l st out :
  rids_inv m s ks ps → p ∈ ps → kheap m !! p = Some e →
  reads_safely ks ps p m s e (Ret (Some (mk_reply (put m p (set_counters e g l)) s st out))).
Proof.
  intros Hi Hp He. eexists. split; [done|]. intros rep [= <-]. exists (set_counters e g l).
  by eapply put_change.
Qed.

Lemma read_old_safe m s ks ps i p e (ct : bytes) size :
  rids_inv m s ks ps → ps !! i = Some p → kheap m !! p = Some e →
  length ct = (maxstr + 1)%nat → ct !! maxstr = Some NUL → 0 ≤ size < OS_MAXSTR →
  reads_safely ks ps p m s e (read_old m s ks i ct size).
Proof.
  intros Hi Hp He Hct Hnul Hs. pose proof maxstr_val as Hx. unfold OS_MAXSTR in Hs.
  pose proof (list_elem_of_lookup_2 _ _ _ Hp) as Hin.
  unfold read_old. rewrite c_write_lt by lia. cbn [mbind outcome_bind].
  set (ct' := <[_ := NUL]> ct). assert (length ct' = (maxstr + 1)%nat) as Hct'
    by (unfold ct'; by rewrite length_insert).
  assert (ct' !! maxstr = Some NUL) as Hnul' by (unfold ct'; rewrite list_lookup_insert_ne; [done|lia]).
  rewrite advance_ok by lia. cbn [mbind outcome_bind].
  destruct (CheckSum_safe (drop 1 ct') size) as [-> | ->]; [rewrite length_drop; lia..| |];
    cbn [mbind outcome_bind]; [by apply reads_safely_reply|].
  rewrite advance_ok by (rewrite !length_drop; lia). cbn [mbind outcome_bind].
  rewrite advance_ok by (rewrite !length_drop; lia). cbn [mbind outcome_bind].
  rewrite (rids_entry_at _ _ _ _ _ _ _ Hi Hp He). cbn [mbind outcome_bind].
  destruct (after_colon_safe (drop 5 (drop 11 (drop 32 (drop 1 ct'))))) as [f ->].
  { apply (list_elem_of_lookup_2 _ (maxstr - 49)). rewrite !lookup_drop, <-Hnul'. f_equal; lia. }
  cbn [mbind outcome_bind].
  destruct (_ =? 0); [|destruct (newer _ _ _); [|by apply reads_safely_reply]];
    (destruct f; by apply put_counters_reply).
Qed.

Lemma round8_spec n : ∃ k, round8 n = (8 * k)%nat ∧ (n ≤ 8 * k < n + 8)%nat.
Proof.
  exists ((n + 7) / 8)%nat. unfold round8. pose proof (Nat.div_mod_eq (n + 7) 8).
  pose proof (Nat.mod_upper_bound (n + 7) 8). lia.
Qed.

(** The bytes [d] that came out of the decryption are at most [n], in a block that was
    cleared before. *)
Definition decrypted (n : nat) (ct : bytes) : Prop :=
  ∃ d, (length d ≤ n)%nat ∧ ct = d ++ replicate (maxstr + 1 - length d) NUL.

Lemma store_cleared (d : bytes) :
  (length d ≤ maxstr + 1)%nat →
  c_store (replicate (maxstr + 1) NUL) 0 d = Ret (d ++ replicate (maxstr + 1 - length d) NUL).
Proof.
  intros Hd. rewrite c_store_ok by (rewrite length_replicate; lia). by rewrite splice_0, drop_replicate.
Qed.

(** [buffer] is what follows the colon. *)
Lemma decrypt_safe e (buffer : bytes) n :
  is_Some (encryption_key e) → crypto_method e = W_METH_BLOWFISH ∨ crypto_method e = W_METH_AES →
  (crypto_method e = W_METH_BLOWFISH → (round8 n ≤ length buffer)%nat) →
  (crypto_method e = W_METH_AES → (4 ≤ n)%nat ∧ (n - 4 ≤ length buffer)%nat) → (n < maxstr)%nat →
  ∃ ok ct, decrypt e buffer (replicate (maxstr + 1) NUL) (Z.of_nat n) = Ret (ok, ct) ∧ decrypted n ct.
Proof.
  intros [key Hk] Hm Hbf Haes Hn. pose proof maxstr_val as Hx. unfold decrypt. rewrite Hk.
  destruct Hm as [Hm|Hm]; rewrite Hm in *; cbn [Z.eqb W_METH_AES W_METH_BLOWFISH Pos.eqb c_deref mbind outcome_bind].
  - specialize (Hbf eq_refl). unfold OS_BF_Str. rewrite Nat2Z.id, c_slice_ok by lia.
    cbn [mbind outcome_bind]. destruct (round8_spec n) as (k & Hk8 & Hb).
    set (d := take n _). assert (length d ≤ n)%nat by (unfold d; rewrite length_take; lia).
    rewrite store_cleared by lia. cbn [mbind outcome_bind]. eexists _, _. split; [reflexivity|]. exists d. split; [assumption|reflexivity].
  - specialize (Haes eq_refl). destruct Haes as [H4 Hl].
    replace (u32 _) with (Z.of_nat (n - 4)) by (unfold u32; rewrite Z.mod_small; lia).
    unfold OS_AES_Str. replace (wrap_int _) with (Z.of_nat (n - 4))
      by (unfold wrap_int; rewrite Z.mod_small; lia).
    replace (_ <? 0) with false by (symmetry; apply Z.ltb_ge; lia).
    rewrite Nat2Z.id, c_slice_ok by lia. cbn [mbind outcome_bind].
    destruct (EVP_decrypt _ _) as [d|] eqn:Hd.
    + apply aes_decrypt_length in Hd. rewrite length_take, drop_0 in Hd.
      rewrite store_cleared by lia. cbn [mbind outcome_bind]. eexists _, _. split; [reflexivity|].
      exists d. split; [lia|reflexivity].
    + eexists _, _. split; [reflexivity|]. exists []. split; [apply Nat.le_0_l|].
      cbn [app length]. rewrite Nat.sub_0_r. reflexivity.
Qed.

Lemma decrypted_cells n ct :
  decrypted n ct → (n < maxstr)%nat →
  length ct = (maxstr + 1)%nat ∧ ct !! maxstr = Some NUL ∧ (ct !! 0%nat = Some "!"%char → (1 ≤ n)%nat).
Proof.
  intros (d & Hd & ->) Hn. rewrite length_app, length_replicate. split; [lia|]. split.
  - rewrite lookup_app_r by lia. apply lookup_replicate_2. lia.
  - intros Hc. destruct d as [|c d]; [|simpl in Hd; lia]. cbn [app length] in Hc.
    rewrite lookup_replicate_2 in Hc by lia. discriminate Hc.
Qed.

Lemma reads_safely_trans ks ps p m s e m1 s1 e1 o :
  agent_change ks ps p m s e m1 s1 e1 → reads_safely ks ps p m1 s1 e1 o → reads_safely ks ps p m s e o.
Proof.
  intros Hc (r & -> & Hr). exists r. split; [done|]. intros rep Hrep.
  destruct (Hr rep Hrep) as [e' Hc']. exists e'. by eapply agent_change_trans.
Qed.

(** [data] was received into the cleared block [buffer], which Blowfish reads in blocks of
    eight bytes behind the colon. *)
Definition received (data buffer : bytes) : Prop :=
  (1 ≤ length data ≤ maxstr)%nat ∧ (∃ k, buffer = data ++ replicate k NUL) ∧
  (1 + round8 (length data - 1) ≤ length buffer)%nat.

Lemma read_token_safe e data buffer :
  received data buffer →
  ∃ b method, read_token false e buffer = Ret (set_crypto e method, b) ∧
    (method = W_METH_BLOWFISH ∧ b = buffer ∨
     method = W_METH_AES ∧ b = drop 4 buffer ∧ (4 ≤ length data)%nat ∧
       (b !! 0%nat = Some ":"%char → (5 ≤ length data)%nat)).
Proof.
  intros (Hl & [k ->] & Hr). unfold read_token. case_bool_decide as Ht.
  - assert (4 ≤ length data)%nat as H4.
    { destruct (decide (4 ≤ length data)%nat) as [|Hlt]; [done|exfalso].
      assert ((data ++ replicate k NUL) !! (length data) = Some NUL ∨
        (data ++ replicate k NUL) !! (length data) = None) as Hn.
      { rewrite lookup_app_r, Nat.sub_diag by lia. destruct k; [by right|by left]. }
      rewrite <-(lookup_take_lt _ 4), Ht in Hn by lia.
      destruct data as [|a [|b [|c [|]]]]; simpl in Hlt, Hn; (lia || destruct Hn; discriminate). }
    rewrite advance_ok by (rewrite length_app; lia). cbn [mbind outcome_bind].
    eexists _, _. split; [done|]. right. split; [done|]. split; [done|]. split; [done|].
    rewrite lookup_drop. intros Hc. destruct (decide (5 ≤ length data)%nat) as [|Hlt]; [done|exfalso].
    rewrite lookup_app_r in Hc by lia. apply lookup_replicate in Hc as [Hc _]. discriminate Hc.
  - eexists _, _. split; [done|]. by left.
Qed.

Lemma ReadSecMSG_safe m s ks ps i p e data buffer dbuf now :
  rids_inv m s ks ps → ps !! i = Some p → kheap m !! p = Some e →
  received data buffer → length dbuf = (maxstr + 1)%nat →
  reads_safely ks ps p m s e
    (ReadSecMSG new_ino new_node false m s ks buffer (replicate (maxstr + 1) NUL) dbuf i
       (Z.of_nat (length data) - 1) now).
Proof.
  intros Hi Hp He Hrcv Hdb. pose proof maxstr_val as Hx. pose proof (list_elem_of_lookup_2 _ _ _ Hp) as Hin.
  unfold ReadSecMSG. destruct (negb _); [by apply reads_safely_reply|].
  rewrite (rids_entry_at _ _ _ _ _ _ _ Hi Hp He). cbn [mbind outcome_bind].
  destruct (read_token_safe e data buffer Hrcv) as (b & method & -> & Hb). cbn [mbind outcome_bind].
  assert (agent_change ks ps p m s e (put m p (set_crypto e method)) s (set_crypto e method)) as Hc1
    by by eapply put_change.
  apply (reads_safely_trans _ _ _ _ _ _ _ _ _ _ Hc1).
  apply ac_inv in Hc1 as Hi1. apply agent_change_lookup in Hc1 as He1.
  destruct (ri_entry _ _ _ _ Hi1 p Hin) as (e1 & He1' & _ & Hkey). rewrite He1 in He1'. injection He1' as <-.
  destruct Hrcv as (Hl & [k Hbuf] & Hr8).
  assert (length data ≤ length buffer)%nat by (rewrite Hbuf, length_app; lia).
  destruct b as [|c b].
  { exfalso. destruct Hb as [[_ <-]|(_ & Hb & H4 & _)]; [simpl in *; lia|].
    apply (f_equal length) in Hb. rewrite length_drop in Hb. destruct (round8_spec (length data - 1)) as (? & ? & ?).
    simpl in Hb. lia. }
  cbn [c_read lookup list_lookup mbind outcome_bind]. case_bool_decide as Hcol; cbn [negb];
    [|by apply reads_safely_reply].
  rewrite advance_1. cbn [mbind outcome_bind].
  replace (Z.of_nat (length data) - 1) with (Z.of_nat (length data - 1)) by lia.
  destruct (decrypt_safe (set_crypto e method) b (length data - 1)) as (ok & ct & -> & Hct);
    [exact Hkey|destruct Hb as [[-> _]|[-> _]]; [left|right]; reflexivity| | |lia|].
  { cbn [crypto_method set_crypto]. intros ->. destruct Hb as [[_ E]|[E _]]; [|discriminate E]. rewrite <-E in Hr8. cbn [length] in Hr8. lia. }
  { cbn [crypto_method set_crypto]. intros ->. destruct Hb as [[E _]|(_ & E & H4 & H5)]; [discriminate E|].
    assert (5 ≤ length data)%nat by (apply H5; by rewrite Hcol).
    apply (f_equal length) in E. rewrite length_drop in E. simpl in E. lia. }
  cbn [mbind outcome_bind]. destruct (ok =? 0); [by apply reads_safely_reply|].
  destruct (decrypted_cells _ _ Hct) as (Hlen & Hnul & H1'); [lia|].
  destruct ct as [|c0 ct]; [simpl in Hlen; lia|].
  cbn [c_read lookup list_lookup mbind outcome_bind]. case_bool_decide as Hb0.
  { apply read_compressed_safe; try assumption. unfold OS_MAXSTR.
    assert (1 ≤ length data - 1)%nat by (apply H1'; by rewrite Hb0). lia. }
  case_bool_decide; [|by apply reads_safely_reply].
  apply read_old_safe; try assumption. unfold OS_MAXSTR. lia.
Qed.

(** ** Closing the files *)

(** Closing a file keeps everything else of the entry. *)
Definition closed_from (e e' : keyentry) : Prop :=
  e' = e ∨ e' = set_rids (set_file e None (inode e)) 0 None.

Definition heap_closed (m m' : kmem) : Prop :=
  ∀ p e', kheap m' !! p = Some e' → ∃ e, kheap m !! p = Some e ∧ closed_from e e'.

Lemma heap_closed_trans m1 m2 m3 : heap_closed m1 m2 → heap_closed m2 m3 → heap_closed m1 m3.
Proof.
  intros Ha Hb p e3 He3. destruct (Hb p e3 He3) as (e2 & He2 & H23).
  destruct (Ha p e2 He2) as (e1 & He1 & H12). exists e1. split; [done|].
  unfold closed_from in *. destruct H12 as [-> | ->]; [done|]. destruct H23 as [-> | ->]; by right.
Qed.

(** The agent in front of the queue was used [seconds] or more before. *)
Definition head_recent (m : kmem) (s : sec) (seconds now : Z) : Prop :=
  ∀ n nd p e, first (lque (opened_fp_queue s)) = Some n →
    nodes (lque (opened_fp_queue s)) !! n = Some nd → nd_data nd = Some p →
    kheap m !! p = Some e → now - seconds ≤ updating_time e.

Lemma close_fp_step_spec m s ks ps seconds now :
  rids_inv m s ks ps →
  (close_fp_step m s seconds now = Ret None ∧ head_recent m s seconds now) ∨
  ∃ m' s', close_fp_step m s seconds now = Ret (Some (m', s')) ∧ rids_inv m' s' ks ps ∧
    heap_closed m m' ∧ S (elements (lque (opened_fp_queue s'))) = elements (lque (opened_fp_queue s)).
Proof.
  intros Hi. destruct (ri_queue _ _ _ _ Hi) as (nl & Hr & Hnl). unfold close_fp_step, head_recent.
  rewrite (repr_first _ _ Hr). destruct nl as [|[n d] nl]; [by left|].
  cbn [head_loc]. pose proof (repr_dll _ _ Hr) as [Hn _]. rewrite Hn. cbn [c_deref mbind outcome_bind nd_data].
  assert ((n, d) ∈ (n, d) :: nl) as Hin by (apply elem_of_cons; by left).
  apply Hnl in Hin as (p & e & -> & Hp & He & Hnode). cbn [c_deref mbind outcome_bind]. rewrite He.
  cbn [c_deref mbind outcome_bind]. destruct (Z.ltb_spec (updating_time e) (now - seconds)) as [Hlt|Hge].
  - right. unfold linked_queue_pop_ex. destruct (pop_spec _ _ _ _ Hr) as (q' & -> & Hr').
    cbn [mbind outcome_bind c_deref]. rewrite He. cbn [mbind outcome_bind c_deref].
    eexists _, _. split; [done|]. split; [|split].
    + eapply rids_inv_update; [done..|exact Hr'|]. intros n' d'. cbn [rids_node set_rids].
      pose proof (repr_nodup _ _ Hr) as [Hni _]%NoDup_cons. split.
      * intros Hin. right. assert ((n', d') ∈ (n, Some p) :: nl) as Hin' by (apply elem_of_cons; by right).
        apply Hnl in Hin' as (p' & e' & -> & Hp' & He' & Hn'). exists p', e'. split_and!; try done.
        intros ->. simplify_eq. apply Hni. exact (list_elem_of_fmap_2 fst _ _ Hin).
      * intros [[_ [=]]|(p' & e' & -> & Hp' & Hne & He' & Hn')].
        assert ((n', Some p') ∈ (n, Some p) :: nl) as [E|Hin]%elem_of_cons by (apply Hnl; by exists p', e').
        { congruence. } { done. }
    + intros p' e'. cbn. destruct (decide (p' = p)) as [-> |Hne].
      * rewrite lookup_insert_eq. intros [= <-]. exists e. split; [done|by right].
      * rewrite lookup_insert_ne by done. intros He'. exists e'. split; [done|by left].
    + cbn. rewrite (repr_elements _ _ Hr), (repr_elements _ _ Hr'). done.
  - left. split; [done|]. intros n' nd p' e' [= <-] Hnd Hdata He'. rewrite Hn in Hnd. by simplify_eq/=.
Qed.

(** The loop ends after at most one pass per open file, and one to find nothing to do. *)
Lemma close_fp_loop_spec m s ks ps seconds now fuel :
  rids_inv m s ks ps → (elements (lque (opened_fp_queue s)) < fuel)%nat →
  ∃ m' s', close_fp_loop fuel m s seconds now = Ret (m', s') ∧ rids_inv m' s' ks ps ∧
    heap_closed m m' ∧ head_recent m' s' seconds now.
Proof.
  revert m s. induction fuel as [|fuel IH]; intros m s Hi Hf; [lia|]. cbn [close_fp_loop].
  destruct (close_fp_step_spec m s ks ps seconds now Hi) as [[-> Hh]|(m1 & s1 & -> & Hi1 & Hc1 & Hn)];
    cbn [mbind outcome_bind].
  - exists m, s. split_and!; try done. intros p e He. exists e. split; [done|by left].
  - destruct (IH m1 s1 Hi1) as (m' & s' & -> & Hi' & Hc' & Hh'); [lia|].
    exists m', s'. split_and!; try done. by eapply heap_closed_trans.
Qed.

Lemma close_fp_main_spec m s ks ps seconds now :
  rids_inv m s ks ps →
  ∃ m' s', close_fp_main m s seconds now = Ret (m', s') ∧ rids_inv m' s' ks ps ∧
    heap_closed m m' ∧ head_recent m' s' seconds now.
Proof. intros Hi. apply close_fp_loop_spec; [done|lia]. Qed.

(** ** Sequences of operations *)

(** A packet for the agent [i], [off] bytes into the block of [HandleSecureMessage], or a
    round of the thread that closes files. *)
Inductive mop : Type :=
  | MRecv (i off : nat) (data dbuf : bytes) (now : Z)
  | MClose (seconds now : Z).

Definition block_at (off : nat) (data : bytes) : bytes :=
  data ++ replicate (maxstr + 1 - off - length data) NUL.

Definition manager_exec (m : kmem) (s : sec) (ks : keystore) (op : mop) : outcome (option (kmem * sec)) :=
  match op with
  | MRecv i off data dbuf now =>
      r ← ReadSecMSG new_ino new_node false m s ks (block_at off data) (replicate (maxstr + 1) NUL) dbuf i
            (Z.of_nat (length data) - 1) now;
      Ret (match r with Some rep => Some (r_mem rep, r_sec rep) | None => None end)
  | MClose seconds now => '(m, s) ← close_fp_main m s seconds now; Ret (Some (m, s))
  end.

(** [None] is the end of the process by [merror_exit]. *)
Fixpoint manager_run (m : kmem) (s : sec) (ks : keystore) (ops : list mop) : outcome (option (kmem * sec)) :=
  match ops with
  | [] => Ret (Some (m, s))
  | op :: ops =>
      r ← manager_exec m s ks op;
      match r with Some (m, s) => manager_run m s ks ops | None => Ret None end
  end.

(** Behind a prefix the last six bytes of the block have to stay free. *)
Definition mop_ok (ks : keystore) (op : mop) : Prop :=
  match op with
  | MRecv i off data dbuf _ =>
      (i < keysize ks)%nat ∧ (1 ≤ length data)%nat ∧ length dbuf = (maxstr + 1)%nat ∧
      (off + length data ≤ maxstr)%nat ∧ (off = 0%nat ∨ off + length data + 6 ≤ maxstr)%nat
  | MClose _ _ => True
  end.

Definition mop_agent (op : mop) : option nat :=
  match op with MRecv i _ _ _ _ => Some i | MClose _ _ => None end.

(** The counters, the method and the key of the agent at [p] are the same. *)
Definition quiet (p : loc) (m m' : kmem) : Prop :=
  ∀ e, kheap m !! p = Some e → ∃ e', kheap m' !! p = Some e' ∧
    global e' = global e ∧ local e' = local e ∧ crypto_method e' = crypto_method e ∧
    id e' = id e ∧ encryption_key e' = encryption_key e.

Lemma quiet_trans p m1 m2 m3 : quiet p m1 m2 → quiet p m2 m3 → quiet p m1 m3.
Proof.
  intros Ha Hb e1 He1. destruct (Ha e1 He1) as (e2 & He2 & Hs2).
  destruct (Hb e2 He2) as (e3 & He3 & Hs3). exists e3. split; [done|]. intuition congruence.
Qed.

Lemma block_received off data :
  (1 ≤ length data)%nat → (off + length data ≤ maxstr)%nat →
  (off = 0%nat ∨ off + length data + 6 ≤ maxstr)%nat → received data (block_at off data).
Proof.
  intros Hl Hm Ho. pose proof maxstr_val as Hx. destruct (round8_spec (length data - 1)) as (k & Hk & Hb).
  split; [lia|]. split; [by eexists|]. unfold block_at. rewrite length_app, length_replicate. lia.
Qed.

Lemma manager_exec_safe m s ks ps op :
  rids_inv m s ks ps → mop_ok ks op →
  ∃ r, manager_exec m s ks op = Ret r ∧ ∀ m' s', r = Some (m', s') → rids_inv m' s' ks ps ∧
    ∀ j p, ps !! j = Some p → mop_agent op ≠ Some j → quiet p m m'.
Proof.
  intros Hi Hop. destruct op as [i off data dbuf now|seconds now]; cbn [manager_exec mop_agent].
  - destruct Hop as (Hlt & Hl & Hd & Hm & Ho).
    destruct (lookup_lt_is_Some_2 ps i) as [p Hp]; [by rewrite (ri_size _ _ _ _ Hi)|].
    destruct (ri_entry _ _ _ _ Hi p) as (e & He & _); [by eapply list_elem_of_lookup_2|].
    destruct (ReadSecMSG_safe m s ks ps i p e data (block_at off data) dbuf now Hi Hp He) as (r & -> & Hr);
      [by apply block_received|exact Hd|].
    cbn [mbind outcome_bind]. eexists. split; [reflexivity|]. intros m' s' E. destruct r as [rep|]; [|done].
    injection E as <- <-. destruct (Hr rep eq_refl) as [e' Hc]. split; [by eapply ac_inv|].
    intros j q Hq Hne. assert (q ≠ p) as Hqp.
    { intros ->. apply Hne. f_equal. by eapply (NoDup_lookup ps); [apply Hi|..]. }
    intros e0 He0. exists e0. rewrite (ac_heap _ _ _ _ _ _ _ _ _ Hc), lookup_insert_ne by done. by split_and!.
  - destruct (close_fp_main_spec m s ks ps seconds now Hi) as (m' & s' & -> & Hi' & Hc & _).
    cbn [mbind outcome_bind]. eexists. split; [reflexivity|]. intros m1 s1 [= <- <-]. split; [done|].
    intros j p Hp _ e He. destruct (ri_entry _ _ _ _ Hi' p) as (e' & He' & _).
    { by eapply list_elem_of_lookup_2. }
    exists e'. split; [done|]. destruct (Hc p e' He') as (e0 & He0 & Hcl). simplify_eq.
    by destruct Hcl as [-> | ->].
Qed.

Lemma manager_run_safe ops m s ks ps :
  rids_inv m s ks ps → Forall (mop_ok ks) ops →
  ∃ r, manager_run m s ks ops = Ret r ∧ ∀ m' s', r = Some (m', s') → rids_inv m' s' ks ps ∧
    ∀ j p, ps !! j = Some p → Forall (λ op, mop_agent op ≠ Some j) ops → quiet p m m'.
Proof.
  revert m s. induction ops as [|op ops IH]; intros m s Hi Hok; cbn [manager_run].
  { eexists. split; [reflexivity|]. intros m' s' [= <- <-]. split; [done|].
    intros j p _ _ e He. exists e. by split_and!. }
  apply Forall_cons in Hok as [Hop Hok].
  destruct (manager_exec_safe m s ks ps op Hi Hop) as (r & -> & Hr). cbn [mbind outcome_bind].
  destruct r as [[m1 s1]|]; [|by eexists; split; [reflexivity|]].
  destruct (Hr m1 s1 eq_refl) as [Hi1 Hq1]. destruct (IH m1 s1 Hi1 Hok) as (r2 & -> & Hr2).
  exists r2. split; [reflexivity|]. intros m' s' E. destruct (Hr2 m' s' E) as [Hi' Hq2].
  split; [done|]. intros j p Hp [Hne Hnes]%Forall_cons. eapply quiet_trans; [by eapply Hq1|by eapply Hq2].
Qed.

(** ** The channel *)

(** The identifier in front of a packet, between exclamation marks, and what follows it
    (the first lines of [HandleSecureMessage]). *)
Fixpoint skip_digits (b : bytes) : bytes :=
  match b with
  | c :: b' => if is_digit c then skip_digits b' else b
  | [] => []
  end.

Definition strip_id (b : bytes) : bytes :=
  match b with
  | "!"%char :: b' => match skip_digits b' with "!"%char :: rest => rest | _ => b end
  | _ => b
  end.

(** The agent sends the messages one after the other; [enc], [tmp] and [fin] are the
    blocks of the callers and of [CreateSecMSG]. *)
Fixpoint send_all (client : bool) (m : kmem) (s : sec) (ks : keystore) (i : nat) (enc tmp fin : bytes)
    (msgs : list (bytes * Z)) : outcome (kmem * sec * list bytes) :=
  match msgs with
  | [] => Ret (m, s, [])
  | (msg, rand1) :: msgs =>
      '(m, s, size, enc') ← CreateSecMSG new_ino client m s ks msg (Z.of_nat (length msg)) enc i rand1 tmp fin;
      '(m, s, sent) ← send_all client m s ks i enc tmp fin msgs;
      Ret (m, s, take (Z.to_nat size) enc' :: sent)
  end.

(** The manager reads packets of the agent [i]; a message that is not valid gives [None]. *)
Fixpoint receive_all (m : kmem) (s : sec) (ks : keystore) (i : nat) (ds : list (bytes * bytes * Z)) :
    outcome (option (kmem * sec * list (option bytes))) :=
  match ds with
  | [] => Ret (Some (m, s, []))
  | (pkt, dbuf, now) :: ds =>
      let data := strip_id pkt in
      r ← ReadSecMSG new_ino new_node false m s ks (block_at (length pkt - length data) data)
            (replicate (maxstr + 1) NUL) dbuf i (Z.of_nat (length data) - 1) now;
      match r with
      | None => Ret None
      | Some rep =>
          r ← receive_all (r_mem rep) (r_sec rep) ks i ds;
          Ret (match r with
               | Some (m, s, outs) =>
                   Some (m, s,
                     (if r_status rep =? KS_VALID
                      then match r_output rep with
                           | Some (out, size) => Some (take (Z.to_nat size) out)
                           | None => None
                           end
                      else None) :: outs)
               | None => None
               end)
      end
  end.

(** What the manager gets to see: of the messages the network brings, in any order and any
    number of times, those sent after the last one it took. *)
Fixpoint deliver (msgs : list bytes) (next : nat) (ks : list nat) : list (option bytes) :=
  match ks with
  | [] => []
  | k :: ks =>
      if (next <=? k)%nat then msgs !! k :: deliver msgs (S k) ks else None :: deliver msgs next ks
  end.

Definition count_lt (a b : Z * Z) : Prop := fst a < fst b ∨ (fst a = fst b ∧ snd a < snd b).

Lemma newer_spec g l e : newer g l e = true ↔ count_lt (global e, local e) (g, l).
Proof.
  unfold newer, count_lt. cbn [fst snd].
  rewrite orb_true_iff, andb_true_iff, !Z.ltb_lt, Z.eqb_eq. lia.
Qed.

Definition nth_count (c : Z * Z) (k : nat) : Z * Z := Nat.iter k next_count c.

Lemma next_count_lt c : count_lt c (next_count c).
Proof.
  destruct c as [g l]. unfold count_lt, next_count. cbn [fst snd].
  destruct (Z.leb_spec 9997 l); cbn [fst snd]; lia.
Qed.

Lemma nth_count_mono c j k : (j < k)%nat → count_lt (nth_count c j) (nth_count c k).
Proof.
  induction 1 as [|k Hk IH]; [apply next_count_lt|].
  pose proof (next_count_lt (nth_count c k)) as Hn. change (next_count (nth_count c k)) with (nth_count c (S k)) in Hn.
  unfold count_lt in *. lia.
Qed.

Lemma nth_count_fst c k : fst (nth_count c k) ≤ fst c + Z.of_nat k.
Proof.
  induction k as [|k IH]; [cbn; lia|]. change (nth_count c (S k)) with (next_count (nth_count c k)).
  unfold next_count. destruct (_ <=? _); cbn [fst]; lia.
Qed.

Lemma nth_count_next c k : nth_count (next_count c) k = nth_count c (S k).
Proof. unfold nth_count. by rewrite Nat.iter_succ_r. Qed.

Lemma strip_id_packet (e : keyentry) client pre method (rest : bytes) :
  prefix_of client e pre → strip_id (chars pre ++ chars (token method) ++ rest) = chars (token method) ++ rest.
Proof.
  intros (a & single & _ & _ & Hp). destruct (negb single && client).
  - destruct Hp as (ident & _ & _ & Hd & ->). rewrite !chars_append, <-!app_assoc.
    change (chars "!") with ["!"%char]. cbn [app strip_id].
    replace (skip_digits _) with ("!"%char :: chars (token method) ++ rest); [done|].
    induction ident as [|c ident IH]; [done|]. cbn [all_digits] in Hd. apply andb_true_iff in Hd as [Hc Hd].
    cbn [chars app skip_digits]. rewrite Hc. by apply IH.
  - subst pre. unfold token. by destruct (_ =? _).
Qed.

Definition sendable (msg : bytes) : Prop := 1 ≤ Z.of_nat (length msg) ≤ OS_MAXSTR - OS_HEADER_SIZE.

Lemma send_messages_spec client m s ks i key method pre c enc tmp fin msgs :
  sender client m s ks i key method pre c → Forall (λ x, sendable (fst x)) msgs →
  fst c + Z.of_nat (length msgs) < 2 ^ 32 →
  length tmp = (maxstr + 2)%nat → length fin = (maxstr + 2)%nat → length enc = (maxstr + 1)%nat →
  ∃ s' sent, send_all client m s ks i enc tmp fin msgs = Ret (m, s', sent) ∧
    sender client m s' ks i key method pre (nth_count c (length msgs)) ∧
    (saved_count (files s) c ∨ msgs ≠ [] → saved_count (files s') (nth_count c (length msgs))) ∧
    fs_denied (files s') = fs_denied (files s) ∧
    ∀ k msg r, msgs !! k = Some (msg, r) → ∃ pkt, sent !! k = Some (chars pre ++ pkt) ∧
      is_packet key method (fst (nth_count c (S k))) (snd (nth_count c (S k))) msg pkt.
Proof.
  intros Hs Hm Hg Ht Hf He. revert s c Hs Hg.
  induction msgs as [|[msg rand1] msgs IH]; intros s c Hs Hg; cbn [send_all].
  { exists s, []. split; [reflexivity|]. split; [exact Hs|]. split; [by intros [?|?]|]. split; [done|].
    intros k msg r Hk. discriminate Hk. }
  apply Forall_cons in Hm as [Hmsg Hm]. cbn [length] in Hg.
  destruct (next_count c) as [g l] eqn:Hn. pose proof (nth_count_fst c 1) as H1'.
  change (nth_count c 1) with (next_count c) in H1'. rewrite Hn in H1'. cbn [fst] in H1'.
  destruct (create_spec new_ino client m s ks i key method pre c g l msg enc rand1 tmp fin)
    as (s1 & enc' & pkt & -> & Htk & Hpk & Hs1 & Hsv & Hden); [exact Hs|exact Hn|lia|exact Hmsg|assumption..|].
  cbn [mbind outcome_bind]. destruct (IH Hm s1 (g, l) Hs1) as (s' & sent & -> & Hs' & Hsv' & Hden' & Hsent);
    [cbn [fst]; lia|].
  cbn [mbind outcome_bind]. rewrite Nat2Z.id, Htk. eexists _, _. split; [reflexivity|].
  rewrite <-Hn in Hs'. rewrite nth_count_next in Hs'. split; [exact Hs'|].
  split. { intros _. rewrite <-Hn, nth_count_next in Hsv'. apply Hsv'. left. by rewrite Hn. }
  split; [congruence|].
  intros [|k] msg' r Hk; cbn in Hk |- *.
  - injection Hk as <- _. exists pkt. split; [done|]. by rewrite Hn.
  - destruct (Hsent k msg' r Hk) as (pkt' & Hp & Hpk'). exists pkt'. split; [done|].
    rewrite <-Hn, nth_count_next in Hpk'. exact Hpk'.
Qed.

(** The agent [i] of a manager that verifies counters. *)
Record receiver (m : kmem) (s : sec) (ks : keystore) (ps : list loc) (i : nat) (p : loc) (key : string)
    (c : Z * Z) : Prop := {
  rc_inv : rids_inv m s ks ps;
  rc_mode : has_encryption_key (key_mode ks) = true;
  rc_verify : s_verify_counter s ≠ 0;
  rc_agent : ps !! i = Some p;
  rc_entry : ∃ e, kheap m !! p = Some e ∧ encryption_key e = Some key ∧ file_ok s e ∧
    c = (global e, local e)
}.

Lemma receive_packet m s ks ps i p key c method g l msg pkt off dbuf now :
  receiver m s ks ps i p key c → is_packet key method g l msg pkt → length dbuf = (maxstr + 1)%nat →
  ∃ rep, ReadSecMSG new_ino new_node false m s ks (block_at off pkt) (replicate (maxstr + 1) NUL) dbuf i
      (Z.of_nat (length pkt) - 1) now = Ret (Some rep) ∧
    ((count_lt c (g, l) ∧ receiver (r_mem rep) (r_sec rep) ks ps i p key (g, l) ∧ r_status rep = KS_VALID ∧
      ∃ rest, r_output rep = Some (msg ++ NUL :: rest, Z.of_nat (length msg))) ∨
     (¬ count_lt c (g, l) ∧ receiver (r_mem rep) (r_sec rep) ks ps i p key c ∧ r_status rep ≠ KS_VALID)).
Proof.
  intros [Hi Hmode Hv Hp (e & He & Hk & Hf & ->)] Hpk Hd.
  pose proof (list_elem_of_lookup_2 _ _ _ Hp) as Hin. unfold block_at.
  destruct (ReadSecMSG_packet new_ino new_node false m s ks i p e key method g l msg pkt
    (replicate (maxstr + 1 - off - length pkt) NUL) (replicate (maxstr + 1) NUL) dbuf now) as (rest & ->);
    [exact Hmode|by eapply rids_entry_at|exact Hk|done|exact Hpk|apply length_replicate|exact Hd|].
  assert (agent_change ks ps p m s e (put m p (set_crypto e method)) s (set_crypto e method)) as Hc1
    by by eapply put_change.
  edestruct (check_counters_spec (put m p (set_crypto e method)) s ks ps i p (set_crypto e method) g l now
    (msg ++ NUL :: rest) (Z.of_nat (length msg))) as (r & -> & Hok & Hr);
    [by eapply ac_inv|exact Hp|by eapply agent_change_lookup|].
  assert (file_ok s (set_crypto e method)) as Hf1 by exact Hf.
  destruct (Hok Hf1) as [rep ->]. exists rep. split; [reflexivity|].
  destruct (Hr rep eq_refl) as [e' [Hc Hval Hver]]. specialize (Hver Hv Hf1).
  pose proof (agent_change_trans _ _ _ _ _ _ _ _ _ _ _ _ Hc1 Hc) as [Hi' Hh' (Hid' & Hk' & _) [Hv' _] Hf'].
  assert (∀ c', c' = (global e', local e') → receiver (r_mem rep) (r_sec rep) ks ps i p key c') as Hrec.
  { intros c' ->. split; try assumption; [congruence|]. exists e'. rewrite Hh', lookup_insert_eq.
    split; [done|]. split; [congruence|]. split; [by apply Hf'|done]. }
  destruct (newer g l (set_crypto e method)) eqn:Hn.
  - left. apply (newer_spec g l (set_crypto e method)) in Hn. split; [exact Hn|].
    destruct (Hval Hver) as (Hout & Hg & Hl). split; [apply Hrec; congruence|]. split; [done|by exists rest].
  - right. destruct Hver as (Hst & Hg & Hl). split; [|split; [apply Hrec; cbn in *; congruence|done]].
    intros Hlt. apply (newer_spec g l (set_crypto e method)) in Hlt. congruence.
Qed.

Lemma nth_count_lt_iff c j k : count_lt (nth_count c j) (nth_count c k) ↔ (j < k)%nat.
Proof.
  split; [|apply nth_count_mono]. intros Hlt. destruct (decide (j < k)%nat) as [|Hge]; [done|exfalso].
  destruct (decide (j = k)) as [-> |Hne]; [|assert (k < j)%nat as Hkj%(nth_count_mono c) by lia];
    unfold count_lt in *; lia.
Qed.

Lemma receive_all_deliver c (sent msgs : list bytes) pre key method m s ks ps i p cr next (ds : list (nat * bytes * Z)) :
  (∀ k msg, msgs !! k = Some msg → ∃ pkt, sent !! k = Some (chars pre ++ pkt) ∧
     strip_id (chars pre ++ pkt) = pkt ∧
     is_packet key method (fst (nth_count c (S k))) (snd (nth_count c (S k))) msg pkt) →
  receiver m s ks ps i p key cr → (∀ k, count_lt cr (nth_count c (S k)) ↔ (next ≤ k)%nat) →
  Forall (λ d, (fst (fst d) < length msgs)%nat ∧ length (snd (fst d)) = (maxstr + 1)%nat) ds →
  ∃ m' s', receive_all m s ks i ((λ d, (default [] (sent !! fst (fst d)), snd (fst d), snd d)) <$> ds) =
    Ret (Some (m', s', deliver msgs next ((λ d, fst (fst d)) <$> ds))) ∧
    rids_inv m' s' ks ps.
Proof.
  intros Hsent. revert m s cr next. induction ds as [|[[k dbuf] now] ds IH]; intros m s cr next Hrec Hnext Hds.
  { exists m, s. split; [reflexivity|]. by eapply rc_inv. }
  rewrite !fmap_cons. cbn [receive_all deliver fst snd].
  apply Forall_cons in Hds as [[Hk Hdb] Hds]. cbn [fst snd] in Hk, Hdb.
  destruct (lookup_lt_is_Some_2 msgs k Hk) as [msg Hmsg].
  destruct (Hsent k msg Hmsg) as (pkt & -> & Hstrip & Hpk). 
  change (default [] (Some (chars pre ++ pkt))) with (chars pre ++ pkt). rewrite Hstrip.
  edestruct receive_packet as (rep & -> & Hrep); [exact Hrec|exact Hpk|exact Hdb|].
  cbn [mbind outcome_bind]. rewrite <-surjective_pairing in Hrep. rewrite Hnext in Hrep.
  destruct Hrep as [(Hle & Hrec' & Hst & rest & Hout)|(Hlt & Hrec' & Hst)].
  - destruct (IH _ _ _ (S k) Hrec') as (m' & s' & -> & Hi'); [|exact Hds|].
    { intros j. rewrite nth_count_lt_iff. lia. }
    cbn [mbind outcome_bind]. exists m', s'. split; [|exact Hi'].
    rewrite Hst, Hout, Z.eqb_refl, Nat2Z.id, take_app_length.
    rewrite (proj2 (Nat.leb_le _ _)) by exact Hle. by rewrite Hmsg.
  - destruct (IH _ _ _ next Hrec' Hnext Hds) as (m' & s' & -> & Hi').
    cbn [mbind outcome_bind]. exists m', s'. split; [|exact Hi'].
    rewrite (proj2 (Z.eqb_neq _ _)) by exact Hst. rewrite (proj2 (Nat.leb_gt _ _)) by lia. done.
Qed.

(** C1: What an agent sends with [CreateSecMSG] reaches the manager unchanged, in order
    and at most once, whatever the network does: the agent sends any messages of a
    legal size, then packets of them are delivered in any order and any number of times,
    each to [ReadSecMSG] of a manager that verifies counters.  Every call returns, and
    the valid ones give, byte for byte, the message of the packet, exactly when no later
    message was taken before. *)
Theorem secure_channel_at_most_once client mS sS ksS iS key method pre c (msgs : list (bytes * Z)) enc tmp fin
    mR sR ksR ps iR p cr :
  sender client mS sS ksS iS key method pre c →
  Forall (λ x, sendable (fst x)) msgs → fst c + Z.of_nat (length msgs) < 2 ^ 32 →
  length tmp = (maxstr + 2)%nat → length fin = (maxstr + 2)%nat → length enc = (maxstr + 1)%nat →
  receiver mR sR ksR ps iR p key cr → ¬ count_lt c cr →
  ∃ sS' sent, send_all client mS sS ksS iS enc tmp fin msgs = Ret (mS, sS', sent) ∧
    ∀ ds : list (nat * bytes * Z),
      Forall (λ d, (fst (fst d) < length msgs)%nat ∧ length (snd (fst d)) = (maxstr + 1)%nat) ds →
      ∃ mR' sR', receive_all mR sR ksR iR
          ((λ d, (default [] (sent !! fst (fst d)), snd (fst d), snd d)) <$> ds) =
        Ret (Some (mR', sR', deliver msgs.*1 0 ((λ d, fst (fst d)) <$> ds))).
Proof.
  intros Hs Hm Hg Ht Hf He Hr Hc. pose proof (sd_entry _ _ _ _ _ _ _ _ _ Hs) as (q & e & _ & _ & _ & Hpre).
  destruct (send_messages_spec client mS sS ksS iS key method pre c enc tmp fin msgs)
    as (sS' & sent & -> & _ & _ & _ & Hsent); try assumption.
  exists sS', sent. split; [reflexivity|]. intros ds Hds.
  edestruct (receive_all_deliver c sent msgs.*1 pre key method mR sR ksR ps iR p cr 0 ds) as (m' & s' & -> & _);
    [|exact Hr| | |by exists m', s'].
  - intros k msg Hk. apply list_lookup_fmap_Some in Hk as ([msg' r] & -> & Hk).
    destruct (Hsent k msg' r Hk) as (pkt & Hp & Hpk). exists pkt. split; [exact Hp|]. split; [|exact Hpk].
    destruct Hpk as (_ & _ & _ & _ & r' & z & _ & _ & ->). by eapply strip_id_packet.
  - intros k. split; [lia|intros _]. pose proof (nth_count_mono c 0 (S k)) as Hlt.
    change (nth_count c 0) with c in Hlt. specialize (Hlt ltac:(lia)). unfold count_lt in *. lia.
  - by rewrite length_fmap.
Qed.

(** ** Starting the counters *)

Hypothesis (new_ino_fresh : ∀ X, new_ino X ∉ X).

(** Files may be added, the ones that were there keep their text. *)
Definition fs_grows (f f' : fsys) : Prop :=
  fs_denied f' = fs_denied f ∧
  ∀ path ino, fs_dir f !! path = Some ino → fs_dir f' !! path = Some ino ∧ fs_text f' ino = fs_text f ino.

#[local] Instance fs_grows_preorder : PreOrder fs_grows.
Proof.
  split; [intros f; split; [done|]; intros path ino Hp; done|].
  intros f1 f2 f3 [Hd1 Hg1] [Hd2 Hg2]. split; [congruence|]. intros path ino Hp.
  destruct (Hg1 _ _ Hp) as [Hp2 Ht2]. destruct (Hg2 _ _ Hp2) as [Hp3 Ht3]. split; [done|congruence].
Qed.

(** The state of the stream and of the counters after a pass of the loop. *)
Definition opened (f : fsys) (path : string) (f' : fsys) (ino : Z) : Prop :=
  fs_grows f f' ∧ fs_dir f' !! path = Some ino.

Lemma wfopen_rw_spec f path ino f' :
  wfopen_rw f path = (Some ino, f') → opened f path f' ino ∧ fs_dir f !! path = Some ino.
Proof.
  unfold wfopen_rw. case_bool_decide; [done|]. destruct (fs_dir f !! path) eqn:E; [|done].
  intros [= <- <-]. by repeat split.
Qed.

Lemma wfopen_w_spec f path :
  path ∉ fs_denied f → fs_dir f !! path = None →
  ∃ ino f', wfopen_w new_ino f path = (Some ino, f') ∧ opened f path f' ino.
Proof.
  intros Hd Hn. unfold wfopen_w. rewrite bool_decide_eq_false_2 by done. rewrite Hn.
  eexists _, _. split; [done|]. split; [split; [done|]|cbn; apply lookup_insert_eq].
  intros path' ino' Hp. cbn. split; [rewrite lookup_insert_ne; [done|congruence]|].
  unfold fs_text. cbn. destruct (decide (new_ino (dom (fs_data f)) = ino')) as [<- |Hne].
  - rewrite lookup_insert_eq. pose proof (new_ino_fresh (dom (fs_data f))) as Hf.
    apply not_elem_of_dom in Hf. by rewrite Hf.
  - by rewrite lookup_insert_ne.
Qed.

(** What the pass for an agent makes of its entry: the file of its name is there, and the
    counters are those it held before. *)
Definition started (f0 f : fsys) (e e' : keyentry) : Prop :=
  (id e' = id e ∧ encryption_key e' = encryption_key e ∧ kip e' = kip e ∧
   crypto_method e' = crypto_method e ∧ rids_node e' = rids_node e) ∧
  ∃ ident, id e = Some ident ∧ fs_dir f !! rids_path ident = Some (inode e') ∧
    ∀ ino, fs_dir f0 !! rids_path ident = Some ino →
      (global e', local e') = scan_counters (fs_text f0 ino).

Lemma started_grows f0 f f' e e' : fs_grows f f' → started f0 f e e' → started f0 f' e e'.
Proof.
  intros [_ Hg] [Hs (ident & Hid & Hdir & Hc)]. split; [done|]. exists ident.
  split; [done|]. split; [by apply Hg|done].
Qed.

Lemma start_agent m s (ks : keystore) i p e ident f0 :
  entry_at m ks i = Ret (p, e) → id e = Some ident → (i < keysize ks)%nat →
  rids_path ident ∉ fs_denied (files s) → fs_grows f0 (files s) →
  ∃ f e', start_counter new_ino m s ks i = Ret (Some (put m p e', set_files s f)) ∧
    fs_grows (files s) f ∧ started f0 f e e'.
Proof.
  intros He Hid Hi Hd [_ Hg0]. unfold start_counter. rewrite He. cbn [mbind outcome_bind].
  rewrite (proj2 (Nat.eqb_neq _ _)) by lia. rewrite Hid. cbn [c_deref mbind outcome_bind].
  destruct (wfopen_rw (files s) (rids_path ident)) as [[fd|] f] eqn:Ho.
  - apply wfopen_rw_spec in Ho as [[Hg Hdir] Hdir0].
    destruct (scan_counters (fs_text f fd)) as [g_c l_c] eqn:Hsc. eexists (fclose f), _.
    split; [reflexivity|]. split; [exact Hg|]. split; [done|]. exists ident. split; [done|].
    unfold File_Inode. cbn [inode set_file set_counters fs_dir fclose]. rewrite Hdir. split; [done|]. intros ino Hino.
    destruct (Hg0 _ _ Hino) as [Hino' Ht]. assert (ino = fd) as -> by congruence.
    rewrite <-Ht, <-(proj2 (proj2 Hg _ _ Hdir0)). by rewrite Hsc.
  - assert (fs_dir (files s) !! rids_path ident = None ∧ f = files s) as [Hn ->].
    { revert Ho. unfold wfopen_rw. rewrite bool_decide_eq_false_2 by done.
      destruct (fs_dir (files s) !! rids_path ident); by intros [= <-]. }
    destruct (wfopen_w_spec (files s) (rids_path ident) Hd Hn) as (ino & f' & -> & Hg & Hdir).
    eexists (fclose f'), _. split; [reflexivity|]. split; [exact Hg|]. split; [done|].
    exists ident. split; [done|]. unfold File_Inode. cbn [inode set_file set_counters fs_dir fclose]. rewrite Hdir. split; [done|].
    intros ino' Hino. destruct (Hg0 _ _ Hino) as [Hino' _]. congruence.
Qed.

Lemma start_sender m s (ks : keystore) q e f0 :
  entry_at m ks (keysize ks) = Ret (q, e) →
  rids_path SENDER_COUNTER ∉ fs_denied (files s) → fs_grows f0 (files s) →
  ∃ f g l fd, start_counter new_ino m s ks (keysize ks) =
      Ret (Some (put m q (set_file e (Some fd) fd), set_files (set_count s g l) f)) ∧
    fs_grows (files s) f ∧ fs_dir f !! rids_path SENDER_COUNTER = Some fd ∧
    ∀ ino, fs_dir f0 !! rids_path SENDER_COUNTER = Some ino → (g, l) = scan_counters (fs_text f0 ino).
Proof.
  intros He Hd [_ Hg0]. unfold start_counter. rewrite He. cbn [mbind outcome_bind].
  rewrite Nat.eqb_refl. cbn [mbind outcome_bind].
  destruct (wfopen_rw (files s) (rids_path SENDER_COUNTER)) as [[fd|] f] eqn:Ho.
  - apply wfopen_rw_spec in Ho as [[Hg Hdir] Hdir0].
    destruct (scan_counters (fs_text f fd)) as [g_c l_c] eqn:Hsc. exists f, g_c, l_c, fd.
    unfold File_Inode. rewrite Hdir. split; [reflexivity|]. split; [exact Hg|]. split; [done|].
    intros ino Hino. destruct (Hg0 _ _ Hino) as [Hino' Ht]. assert (ino = fd) as -> by congruence.
    rewrite <-Ht, <-(proj2 (proj2 Hg _ _ Hdir0)). by rewrite Hsc.
  - assert (fs_dir (files s) !! rids_path SENDER_COUNTER = None ∧ f = files s) as [Hn ->].
    { revert Ho. unfold wfopen_rw. rewrite bool_decide_eq_false_2 by done.
      destruct (fs_dir (files s) !! rids_path SENDER_COUNTER); by intros [= <-]. }
    destruct (wfopen_w_spec (files s) (rids_path SENDER_COUNTER) Hd Hn) as (ino & f' & -> & Hg & Hdir).
    exists f', (global_count s), (local_count s), ino. unfold File_Inode. rewrite Hdir.
    split; [by destruct s|]. split; [exact Hg|]. split; [done|].
    intros ino' Hino. destruct (Hg0 _ _ Hino) as [Hino' _]. congruence.
Qed.

(** A key store as [OS_ReadKeys] leaves it, with the files of the counters accessible. *)
Record store_ready (m : kmem) (f : fsys) (ks : keystore) (ps : list loc) (q : loc) : Prop := {
  sr_array : ∀ i p, ps !! i = Some p → keyentries ks !! i = Some (Some p);
  sr_size : length ps = keysize ks;
  sr_last : keyentries ks !! keysize ks = Some (Some q);
  sr_nodup : NoDup (q :: ps);
  sr_entry : ∀ p, p ∈ ps → ∃ e ident, kheap m !! p = Some e ∧ id e = Some ident ∧
    is_Some (encryption_key e) ∧ rids_node e = None ∧ (rids_path ident ∉ fs_denied f);
  sr_sender : is_Some (kheap m !! q);
  sr_open : rids_path SENDER_COUNTER ∉ fs_denied f
}.

Lemma store_ready_denied m f f' ks ps q :
  fs_denied f' = fs_denied f → store_ready m f ks ps q → store_ready m f' ks ps q.
Proof. intros E [Ha Hsz Hl Hnd He Hs Ho]. split; rewrite ?E; assumption. Qed.

(** The first [i] agents have been started. *)
Record progress (m0 : kmem) (s0 : sec) (ps : list loc) (q : loc) (m : kmem) (s : sec) (i : nat) : Prop := {
  pg_sec : s = set_files s0 (files s);
  pg_files : fs_grows (files s0) (files s);
  pg_sender : kheap m !! q = kheap m0 !! q;
  pg_agents : ∀ j p, ps !! j = Some p → ∃ e e', kheap m0 !! p = Some e ∧ kheap m !! p = Some e' ∧
    if (j <? i)%nat then started (files s0) (files s) e e' else e' = e
}.

Lemma start_loop_app m s (ks : keystore) n k i :
  start_loop new_ino m s ks (n + k) i =
  (r ← start_loop new_ino m s ks n i;
   match r with Some (m, s) => start_loop new_ino m s ks k (i + n) | None => Ret None end).
Proof.
  revert m s i. induction n as [|n IH]; intros m s i; cbn [start_loop Nat.add].
  { cbn [mbind outcome_bind]. by rewrite Nat.add_0_r. }
  destruct (start_counter new_ino m s ks i) as [[[m1 s1]|]|]; cbn [mbind outcome_bind]; [|done|done].
  rewrite IH. by replace (S i + n)%nat with (i + S n)%nat by lia.
Qed.

Lemma start_pass m0 s0 ks ps q m s i :
  store_ready m0 (files s0) ks ps q → progress m0 s0 ps q m s i → (i < keysize ks)%nat →
  ∃ m' s', start_counter new_ino m s ks i = Ret (Some (m', s')) ∧ progress m0 s0 ps q m' s' (S i).
Proof.
  intros [Ha Hsz Hla Hnd Hent Hq Hop] [Hs Hf Hsn Hag] Hi.
  destruct (lookup_lt_is_Some_2 ps i) as [p Hp]; [lia|].
  destruct (Hent p) as (e & ident & He & Hid & Hk & Hn & Hd); [by eapply list_elem_of_lookup_2|].
  destruct (Hag i p Hp) as (e1 & e2 & He1 & He2 & Heq). rewrite Nat.ltb_irrefl in Heq. simplify_eq.
  assert (entry_at m ks i = Ret (p, e)) as Hat.
  { unfold entry_at. rewrite (c_read_Some _ _ (Some p)) by by apply Ha.
    cbn [mbind outcome_bind c_deref]. by rewrite He2. }
  destruct (start_agent m s ks i p e ident (files s0)) as (f & e' & -> & Hg & Hst);
    [done|done|done|rewrite (proj1 Hf); exact Hd|exact Hf|].
  eexists _, _. split; [reflexivity|]. apply NoDup_cons in Hnd as [Hqp Hnd]. split.
  - rewrite Hs. by destruct s0.
  - cbn. by etrans.
  - cbn. rewrite lookup_insert_ne; [done|]. intros ->. apply Hqp. by eapply list_elem_of_lookup_2.
  - intros j p' Hp'. destruct (Hag j p' Hp') as (e1 & e2 & He1 & He2' & Hj).
    cbn [kheap put set_heap files set_files].
    destruct (decide (j = i)) as [-> |Hne].
    + simplify_eq. exists e, e'. rewrite lookup_insert_eq. split; [done|]. split; [done|].
      rewrite (proj2 (Nat.ltb_lt _ _)) by lia. done.
    + assert (p ≠ p') as Hpp by (intros ->; apply Hne; by eapply (NoDup_lookup ps)).
      exists e1, e2. rewrite lookup_insert_ne by done. split; [done|]. split; [done|].
      destruct (Nat.ltb_spec j i); [rewrite (proj2 (Nat.ltb_lt _ _)) by lia; by eapply started_grows|].
      rewrite (proj2 (Nat.ltb_ge _ _)) by lia. done.
Qed.

Lemma start_agents m0 s0 ks ps q n i m s :
  store_ready m0 (files s0) ks ps q → progress m0 s0 ps q m s i → (i + n ≤ keysize ks)%nat →
  ∃ m' s', start_loop new_ino m s ks n i = Ret (Some (m', s')) ∧ progress m0 s0 ps q m' s' (i + n).
Proof.
  intros Hr. revert i m s. induction n as [|n IH]; intros i m s Hp Hi; cbn [start_loop].
  { exists m, s. split; [reflexivity|]. by rewrite Nat.add_0_r. }
  destruct (start_pass _ _ _ _ _ _ _ _ Hr Hp) as (m1 & s1 & -> & Hp1); [lia|]. cbn [mbind outcome_bind].
  replace (i + S n)%nat with (S i + n)%nat by lia. apply IH; [done|lia].
Qed.

(** All agents are started, with an empty queue of open files, and the counters of the
    sender are those of its file. *)
Lemma OS_StartCounter_spec m0 s0 ks ps q flush print verify :
  store_ready m0 (files s0) ks ps q →
  ∃ m s fd, OS_StartCounter new_ino m0 s0 ks flush print verify = Ret (Some (m, s)) ∧
    rids_inv m s ks ps ∧
    (∀ p, p ∈ ps → ∃ e e', kheap m0 !! p = Some e ∧ kheap m !! p = Some e' ∧
       started (files s0) (files s) e e' ∧ file_ok s e') ∧
    (∃ e, entry_at m ks (keysize ks) = Ret (q, set_file e (Some fd) fd)) ∧
    fs_dir (files s) !! rids_path SENDER_COUNTER = Some fd ∧
    (∀ c, saved_count (files s0) c → c = (global_count s, local_count s)) ∧
    s_verify_counter s = verify ∧
    (evt_count s = evt_count s0 ∧ c_orig_size s = c_orig_size s0 ∧
     s_comp_print s = if s_comp_print s0 =? 0 then print else s_comp_print s0).
Proof.
  intros Hr. unfold OS_StartCounter. rewrite start_loop_app.
  destruct (start_agents m0 s0 ks ps q (keysize ks) 0 m0 s0 Hr) as (m1 & s1 & -> & Hp1); [|lia|].
  { split; [by destruct s0|done|done|]. intros j p Hp.
    destruct (sr_entry _ _ _ _ _ Hr p) as (e & _ & He & _); [by eapply list_elem_of_lookup_2|].
    by exists e, e. }
  cbn [mbind outcome_bind Nat.add start_loop]. destruct Hr as [Ha Hsz Hla Hnd Hent [eq Hq] Hop].
  destruct Hp1 as [Hs Hf Hsn Hag]. rewrite Hq in Hsn. apply NoDup_cons in Hnd as [Hqp Hnd].
  assert (entry_at m1 ks (keysize ks) = Ret (q, eq)) as Hat.
  { unfold entry_at. rewrite (c_read_Some _ _ (Some q)) by done.
    cbn [mbind outcome_bind c_deref]. by rewrite Hsn. }
  destruct (start_sender m1 s1 ks q eq (files s0)) as (f & g & l & fd & -> & Hg & Hdir & Hcount);
    [done|rewrite (proj1 Hf); exact Hop|exact Hf|].
  cbn [mbind outcome_bind]. eexists _, _, fd. split; [reflexivity|].
  assert (∀ p, p ∈ ps → ∃ e e', kheap m0 !! p = Some e ∧ kheap (put m1 q (set_file eq (Some fd) fd)) !! p = Some e' ∧
    started (files s0) f e e') as Hagents.
  { intros p [j Hj]%list_elem_of_lookup_1. destruct (Hag j p Hj) as (e & e' & He & He' & Hst).
    apply lookup_lt_Some in Hj as Hlt. rewrite (proj2 (Nat.ltb_lt _ _)) in Hst by lia.
    exists e, e'. split; [done|]. cbn. rewrite lookup_insert_ne.
    - split; [done|]. by eapply started_grows.
    - intros ->. apply Hqp. by eapply list_elem_of_lookup_2. }
  split; [|split; [|split; [|split; [|split]]]].
  - split; [done..| |].
    + intros p Hp. destruct (Hagents p Hp) as (e & e' & He & He' & (Hid & Hk & _) & ident & Hi & _).
      destruct (Hent p Hp) as (e0 & ident0 & He0 & Hid0 & Hk0 & _). simplify_eq. exists e'.
      split; [done|]. rewrite Hid, Hk. by split; [eexists|].
    + exists []. split; [apply init_spec|]. intros n d. rewrite elem_of_nil. split; [done|].
      intros (p & e' & -> & Hp & He' & Hn'). destruct (Hagents p Hp) as (e & e1 & He & He1 & (_ & _ & _ & _ & Hn) & _).
      destruct (Hent p Hp) as (e0 & ident0 & He0 & _ & _ & Hn0 & _). simplify_eq. congruence.
  - intros p Hp. destruct (Hagents p Hp) as (e & e' & He & He' & Hst). exists e, e'. split; [done|]. split; [done|].
    split; [exact Hst|]. destruct Hst as [[Hid _] (ident & Hi & Hd & _)].
    destruct (Hent p Hp) as (e0 & ident0 & He0 & Hid0 & _ & _ & Hden). simplify_eq.
    exists ident. split; [congruence|]. split; [|exact Hd].
    cbn [files set_defines set_queue set_files]. rewrite (proj1 Hg), (proj1 Hf). exact Hden.
  - exists eq. unfold entry_at. rewrite (c_read_Some _ _ (Some q)) by done.
    cbn [mbind outcome_bind c_deref kheap put set_heap]. by rewrite lookup_insert_eq.
  - exact Hdir.
  - intros c (fd' & Hfd' & <-). symmetry. by apply Hcount.
  - rewrite Hs. by repeat split.
Qed.

(** The static variables of msgs.c when a process starts. *)
Definition sec_start (f : fsys) : sec := mk_sec 0 0 0 0 0 0 0 0 1 f lsys_init.


(** C3: The counters of a sender survive a restart: when a process has sent some messages
    and ends, a new one that calls [OS_StartCounter] on the files it left goes on from the
    counters of the last message, whatever the file held before and however the texts of
    the counters differ in length. *)
Theorem sender_counter_survives_restart client m s ks i key method pre c enc tmp fin msgs
    m0 ks' ps q i' p e flush print verify :
  sender client m s ks i key method pre c → Forall (λ x, sendable (fst x)) msgs → msgs ≠ [] →
  fst c + Z.of_nat (length msgs) < 2 ^ 32 →
  length tmp = (maxstr + 2)%nat → length fin = (maxstr + 2)%nat → length enc = (maxstr + 1)%nat →
  store_ready m0 (files s) ks' ps q → ps !! i' = Some p → kheap m0 !! p = Some e →
  has_encryption_key (key_mode ks') = true → encryption_key e = Some key →
  crypto_method e = method → prefix_of client e pre → 10 ≤ print ≤ 999999 →
  ∃ s' sent m1 s1, send_all client m s ks i enc tmp fin msgs = Ret (m, s', sent) ∧
    OS_StartCounter new_ino m0 (sec_start (files s')) ks' flush print verify = Ret (Some (m1, s1)) ∧
    sender client m1 s1 ks' i' key method pre (nth_count c (length msgs)).
Proof.
  intros Hs Hm Hne Hg Ht Hf He Hr Hp He0 Hmode Hk Hcm Hpre Hpr.
  destruct (send_messages_spec client m s ks i key method pre c enc tmp fin msgs)
    as (s' & sent & -> & Hs' & Hsv & Hden & _); try assumption.
  apply (store_ready_denied _ _ (files s')) in Hr; [|exact Hden].
  destruct (OS_StartCounter_spec m0 (sec_start (files s')) ks' ps q flush print verify Hr)
    as (m1 & s1 & fd & Hos & Hi & Hag & [es Hes] & Hdir & Hcount & _ & Hev & Hor & Hprint).
  exists s', sent, m1, s1. split; [reflexivity|]. split; [exact Hos|].
  specialize (Hcount _ (Hsv (or_intror Hne))).
  destruct (Hag p) as (e1 & e' & He1 & He' & [(Hid' & Hk' & Hip' & Hcm' & _) _] & _);
    [by eapply list_elem_of_lookup_2|]. rewrite He0 in He1. injection He1 as <-.
  pose proof (sd_range _ _ _ _ _ _ _ _ _ Hs') as Hrange. pose proof (sd_count _ _ _ _ _ _ _ _ _ Hs') as Hc'.
  rewrite Hc' in Hcount. injection Hcount as Hgc Hlc. constructor.
  - exact Hmode.
  - by eapply sd_method.
  - exists p, e'. split; [by eapply rids_entry_at|]. split; [congruence|]. split; [congruence|].
    unfold prefix_of. by rewrite Hid', Hip'.
  - exists q, (set_file es (Some fd) fd), fd. by split_and!.
  - rewrite Hc'. congruence.
  - by rewrite <-Hgc, <-Hlc.
  - rewrite Hev, Hor, Hprint. cbn. lia.
Qed.


(** C5: A packet that fills the block of the manager behind the identifier of an agent of
    three digits, and that claims to be encrypted with Blowfish, makes the decryption read
    past the end of the block: the part behind the colon has 65530 bytes, which are read
    in blocks of eight. *)
Theorem unaligned_packet_overreads m s ks ps i p e rest dbuf now :
  rids_inv m s ks ps → has_encryption_key (key_mode ks) = true → ps !! i = Some p →
  kheap m !! p = Some e → (length (":"%char :: rest) + 5 = maxstr)%nat →
  ReadSecMSG new_ino new_node false m s ks (block_at 5 (":"%char :: rest)) (replicate (maxstr + 1) NUL) dbuf i
    (Z.of_nat (length (":"%char :: rest)) - 1) now = Stuck OutOfBounds.
Proof.
  intros Hi Hmode Hp He Hl. pose proof maxstr_val as Hx. unfold ReadSecMSG. rewrite Hmode. cbn [negb].
  rewrite (rids_entry_at _ _ _ _ _ _ _ Hi Hp He). cbn [mbind outcome_bind]. unfold read_token, block_at.
  rewrite bool_decide_eq_false_2 by (cbn; congruence). cbn [mbind outcome_bind app c_read lookup list_lookup].
  rewrite bool_decide_eq_true_2 by done. cbn [negb]. rewrite advance_1. cbn [mbind outcome_bind].
  unfold decrypt. cbn [crypto_method set_crypto Z.eqb W_METH_BLOWFISH encryption_key].
  destruct (ri_entry _ _ _ _ Hi p) as (e0 & He0 & _ & [key Hk]); [by eapply list_elem_of_lookup_2|].
  rewrite He in He0. injection He0 as <-. rewrite Hk. cbn [c_deref mbind outcome_bind].
  unfold OS_BF_Str, c_slice. cbn [length] in *.
  destruct (round8_spec (Z.to_nat (Z.of_nat (S (length rest)) - 1))) as (k & Hk8 & Hb).
  rewrite decide_False; [done|]. rewrite length_app, length_replicate, Hk8. lia.
Qed.
End channel.

(** ** A small instance of the parameters *)

(** Three bytes for the length of a text of less than 2^24 bytes. *)
Definition sample_length (n : Z) : bytes :=
  [ascii_of_nat (Z.to_nat (n / 65536)); ascii_of_nat (Z.to_nat (n / 256 mod 256));
   ascii_of_nat (Z.to_nat (n mod 256))].

Definition sample_compress (d : bytes) (n : nat) : option bytes :=
  if (Z.of_nat (length d) <? 2 ^ 24) && (length d + 4 <=? n)%nat
  then Some ("x"%char :: sample_length (Z.of_nat (length d)) ++ d) else None.

Definition sample_uncompress (s : bytes) (n : nat) : option bytes :=
  match s with
  | "x"%char :: a :: b :: c :: d =>
      let len := Z.to_nat (Z.of_nat (nat_of_ascii a) * 65536 + Z.of_nat (nat_of_ascii b) * 256 +
                           Z.of_nat (nat_of_ascii c)) in
      if (len <=? n)%nat && (len <=? length d)%nat then Some (take len d) else None
  | _ => None
  end.

Definition sample_pad (d : bytes) : nat := (16 - length d mod 16)%nat.

Definition sample_decrypt (c : bytes) : option bytes :=
  match c !! (length c - 1)%nat with
  | Some n => Some (take (length c - nat_of_ascii n) c)
  | None => None
  end.

(** Blowfish that does nothing, AES that only pads, a digest that counts. *)
#[local] Instance sample_crypto : Crypto := {|
  BF_encrypt := λ _ d, d;
  BF_decrypt := λ _ d, d;
  EVP_encrypt := λ _ d, Some (d ++ replicate (sample_pad d) (ascii_of_nat (sample_pad d)));
  EVP_decrypt := λ _ c, sample_decrypt c;
  EVP_md5 := λ d, replicate 16 (Z.of_nat (length d) mod 256);
  compress2 := sample_compress;
  uncompress := sample_uncompress
|}.

Lemma sample_length_value n :
  0 ≤ n < 2 ^ 24 →
  Z.of_nat (nat_of_ascii (ascii_of_nat (Z.to_nat (n / 65536)))) * 65536 +
  Z.of_nat (nat_of_ascii (ascii_of_nat (Z.to_nat (n / 256 mod 256)))) * 256 +
  Z.of_nat (nat_of_ascii (ascii_of_nat (Z.to_nat (n mod 256)))) = n.
Proof.
  intros Hn. assert (0 ≤ n / 65536 < 256) by (split; [apply Z.div_pos; lia|apply Z.div_lt_upper_bound; lia]).
  pose proof (Z.mod_pos_bound (n / 256) 256). pose proof (Z.mod_pos_bound n 256).
  rewrite !nat_ascii_embedding by lia. rewrite !Z2Nat.id by lia.
  pose proof (Z.div_mod n 256). pose proof (Z.div_mod (n / 256) 256).
  rewrite Z.div_div in * by lia. change (256 * 256) with 65536 in *. lia.
Qed.

Lemma sample_roundtrip d rest n :
  Z.of_nat (length d) < 2 ^ 24 → (length d ≤ n)%nat →
  sample_uncompress ("x"%char :: sample_length (Z.of_nat (length d)) ++ d ++ rest) n = Some d.
Proof.
  intros Hd Hn. unfold sample_length. cbn [app sample_uncompress].
  rewrite sample_length_value by lia. rewrite Nat2Z.id, length_app.
  rewrite (proj2 (Nat.leb_le _ _)) by done. rewrite (proj2 (Nat.leb_le _ _)) by lia.
  cbn [andb]. by rewrite take_app_length.
Qed.

#[local] Instance sample_laws : CryptoLaws.
Proof.
  split; [done|done|done| | |  | |].
  - intros k d. eexists. split; [reflexivity|]. unfold sample_pad.
    pose proof (Nat.div_mod_eq (length d) 16). pose proof (Nat.mod_upper_bound (length d) 16).
    split; [rewrite length_app, length_replicate; lia|]. cbn [EVP_decrypt sample_crypto]. unfold sample_decrypt.
    set (n := (16 - length d mod 16)%nat). rewrite length_app, length_replicate.
    rewrite lookup_app_r, lookup_replicate_2 by lia. rewrite nat_ascii_embedding by lia.
    rewrite take_app_le, take_ge by lia. done.
  - intros k c d. cbn [EVP_decrypt sample_crypto]. unfold sample_decrypt. destruct (c !! _); [|done].
    intros [= <-]. rewrite length_take. lia.
  - intros d. cbn [EVP_md5 sample_crypto]. split; [done|]. apply Forall_replicate. by apply Z.mod_pos_bound.
  - intros d n Hd Hn. cbn [compress2 uncompress sample_crypto]. unfold OS_MAXSTR, compressBound in *.
    pose proof (Z.div_pos (Z.of_nat (length d)) 4096). pose proof (Z.div_pos (Z.of_nat (length d)) 16384).
    pose proof (Z.div_pos (Z.of_nat (length d)) 33554432).
    exists (sample_length (Z.of_nat (length d)) ++ d). unfold sample_compress.
    rewrite (proj2 (Z.ltb_lt _ _)) by lia. rewrite (proj2 (Nat.leb_le _ _)) by lia.
    split; [done|]. split; [rewrite length_app; cbn [length sample_length]; lia|].
    intros rest n' Hn'. rewrite <-app_assoc. apply sample_roundtrip; lia.
  - intros d n u. cbn [uncompress sample_crypto]. unfold sample_uncompress.
    destruct d as [|x [|a [|b [|c d]]]]; try done;
      [by destruct x as [[] [] [] [] [] [] [] []]..|].
    destruct x as [[] [] [] [] [] [] [] []]; try done.
    destruct (Nat.leb_spec (Z.to_nat (Z.of_nat (nat_of_ascii a) * 65536 + Z.of_nat (nat_of_ascii b) * 256 +
      Z.of_nat (nat_of_ascii c))) n); [|done].
    cbn [andb]. destruct (_ <=? _)%nat; [|done]. intros [= <-]. rewrite length_take. lia.
Qed.

(** A key store of one agent in the network 10.0.0.0/8, with its counter file and that of
    the sender. *)
Definition sample_agent (node : option loc) : keyentry :=
  mk_keyentry 0 0 0 0 0 (Some "001"%string) None (Some "secret"%string) (Some "web"%string) false 7
    (Some (mk_os_ip "10.0.0.0" (Some [10; 0; 0; 0; 255; 0; 0; 0]) false)) (-1) 0 0 [] None W_METH_AES node.

Definition sample_sender : keyentry := set_file keyentry_zero (Some 5) 5.

Definition sample_mem : kmem :=
  mk_kmem (<[1%positive := sample_agent None]> {[2%positive := sample_sender]}) mask_table_start.

Definition sample_store : keystore (T := rb_tree loc) :=
  mk_keystore [Some 1%positive; Some 2%positive] sm_empty sm_empty sm_empty 1 0 0 1 W_ENCRYPTION_KEY false [].

Definition sample_files : fsys :=
  mk_fsys (<[rids_path SENDER_COUNTER := 5]> {[rids_path "001" := 7]})
    (<[5 := "12:9996:"%string]> {[7 := "12:40:"%string]}) ∅ 1.

Definition sample_sec : sec := mk_sec 12 9996 0 0 0 0 100 128 1 sample_files lsys_init.

Definition sample_ino (X : gset Z) : Z := 1 + foldr Z.max 0 (base.elements X).

Definition sample_node (X : gset loc) : loc := fresh X.

Lemma sample_ino_fresh X : sample_ino X ∉ X.
Proof.
  intros Hin. assert (∀ z, z ∈ base.elements X → z ≤ foldr Z.max 0 (base.elements X)) as Hmax.
  { induction (base.elements X) as [|y l IH]; intros z; [by intros ?%elem_of_nil|].
    intros [-> |Hz]%elem_of_cons; cbn; [lia|]. specialize (IH z Hz). lia. }
  apply elem_of_elements, Hmax in Hin. unfold sample_ino in Hin. lia.
Qed.

Lemma sample_sender_ok : sender true sample_mem sample_sec sample_store 0 "secret" W_METH_AES "!001!" (12, 9996).
Proof.
  constructor.
  - reflexivity.
  - by right.
  - exists 1%positive, (sample_agent None). split; [reflexivity|]. split; [reflexivity|]. split; [reflexivity|].
    eexists _, false. split; [reflexivity|]. split; [reflexivity|]. exists "001"%string.
    split; [reflexivity|]. split; [cbn; lia|]. split; reflexivity.
  - exists 2%positive, sample_sender, 5. split; [reflexivity|]. split; [reflexivity|]. split; reflexivity.
  - reflexivity.
  - cbn. lia.
  - cbn. lia.
Qed.

Lemma sample_receiver_ok :
  receiver sample_mem sample_sec sample_store [1%positive] 0 1%positive "secret" (0, 0).
Proof.
  constructor; [|reflexivity|done|reflexivity|].
  - constructor; [|reflexivity|repeat constructor; set_solver| |].
    + intros [|i] p E; [by injection E as <-|discriminate E].
    + intros p ->%list_elem_of_singleton. exists (sample_agent None). by repeat split; [eexists..].
    + exists []. split; [apply init_spec|]. intros n d. rewrite elem_of_nil. split; [done|].
      intros (p & e & -> & ->%list_elem_of_singleton & [= <-] & E). discriminate E.
  - exists (sample_agent None). split; [reflexivity|]. split; [reflexivity|]. split; [|reflexivity].
    exists "001"%string. split; [reflexivity|]. split; [apply not_elem_of_empty|]. reflexivity.
Qed.

Definition sample_msgs : list (bytes * Z) :=
  [(chars "first", 31337); (chars "second", 7); (chars "third", 70000)].

Lemma sample_sendable : Forall (λ x, sendable (fst x)) sample_msgs.
Proof. repeat constructor; unfold OS_MAXSTR, OS_HEADER_SIZE; cbn; lia. Qed.

(** The counter 12:9996 is followed by 12:9997, 13:1 and 13:2. *)
Lemma secure_channel_at_most_once_witness :
  ∃ sS' sent, send_all sample_ino true sample_mem sample_sec sample_store 0
      (replicate (maxstr + 1) NUL) (replicate (maxstr + 2) NUL) (replicate (maxstr + 2) NUL) sample_msgs =
      Ret (sample_mem, sS', sent) ∧
    ∀ ds : list (nat * bytes * Z),
      Forall (λ d, (fst (fst d) < 3)%nat ∧ length (snd (fst d)) = (maxstr + 1)%nat) ds →
      ∃ mR' sR', receive_all sample_ino sample_node sample_mem sample_sec sample_store 0
          ((λ d, (default [] (sent !! fst (fst d)), snd (fst d), snd d)) <$> ds) =
        Ret (Some (mR', sR', deliver sample_msgs.*1 0 ((λ d, fst (fst d)) <$> ds))).
Proof.
  apply (secure_channel_at_most_once sample_ino sample_node is_fresh true sample_mem sample_sec sample_store 0
    "secret" W_METH_AES "!001!" (12, 9996) sample_msgs _ _ _ sample_mem sample_sec sample_store [1%positive] 0
    1%positive (0, 0)).
  - exact sample_sender_ok.
  - exact sample_sendable.
  - cbn. lia.
  - apply length_replicate.
  - apply length_replicate.
  - apply length_replicate.
  - exact sample_receiver_ok.
  - unfold count_lt. cbn. lia.
Defined.

Lemma sample_ready : store_ready sample_mem sample_files sample_store [1%positive] 2%positive.
Proof.
  constructor; [| reflexivity|reflexivity|repeat constructor; set_solver| |by eexists|apply not_elem_of_empty].
  - intros [|i] p E; [by injection E as <-|discriminate E].
  - intros p ->%list_elem_of_singleton. exists (sample_agent None), "001"%string.
    split; [reflexivity|]. split; [reflexivity|]. split; [by eexists|]. split; [reflexivity|].
    apply not_elem_of_empty.
Qed.

Definition sample_ops : list mop :=
  [MRecv 0 5 (chars "#AES:garbage") (replicate (maxstr + 1) NUL) 1000; MClose 300 2000;
   MRecv 0 0 (chars ":") (replicate (maxstr + 1) NUL) 2001].


Lemma sender_counter_survives_restart_witness :
  ∃ s' sent m1 s1, send_all sample_ino true sample_mem sample_sec sample_store 0
      (replicate (maxstr + 1) NUL) (replicate (maxstr + 2) NUL) (replicate (maxstr + 2) NUL) sample_msgs =
      Ret (sample_mem, s', sent) ∧
    OS_StartCounter sample_ino sample_mem (sec_start (files s')) sample_store 128 19999 0 =
      Ret (Some (m1, s1)) ∧
    sender true m1 s1 sample_store 0 "secret" W_METH_AES "!001!" (13, 2).
Proof.
  apply (sender_counter_survives_restart sample_ino sample_ino_fresh true
    sample_mem sample_sec sample_store 0 "secret" W_METH_AES "!001!" (12, 9996)
    (replicate (maxstr + 1) NUL) (replicate (maxstr + 2) NUL) (replicate (maxstr + 2) NUL) sample_msgs
    sample_mem sample_store [1%positive] 2%positive 0 1%positive (sample_agent None) 128 19999 0).
  - exact sample_sender_ok.
  - exact sample_sendable.
  - done.
  - cbn. lia.
  - apply length_replicate.
  - apply length_replicate.
  - apply length_replicate.
  - exact sample_ready.
  - reflexivity.
  - reflexivity.
  - reflexivity.
  - reflexivity.
  - reflexivity.
  - destruct (sd_entry _ _ _ _ _ _ _ _ _ sample_sender_ok) as (p & e & E & _ & _ & Hp).
    injection E as _ <-. exact Hp.
  - lia.
Defined.


Lemma unaligned_packet_overreads_witness :
  ReadSecMSG sample_ino sample_node false sample_mem sample_sec sample_store
    (block_at 5 (":"%char :: replicate (maxstr - 6) "a"%char)) (replicate (maxstr + 1) NUL) [] 0
    (Z.of_nat (length (":"%char :: replicate (maxstr - 6) "a"%char)) - 1) 0 = Stuck OutOfBounds.
Proof.
  apply (unaligned_packet_overreads sample_ino sample_node _ _ _ [1%positive] 0 1%positive (sample_agent None)).
  - exact (rc_inv _ _ _ _ _ _ _ _ sample_receiver_ok).
  - reflexivity.
  - reflexivity.
  - reflexivity.
  - pose proof maxstr_val. cbn [length]. rewrite length_replicate. lia.
Defined.
