(* ===== verification/OSMatch.v ===== *)
(** * Simple patterns (shared/os_regex: os_match_compile.c, os_match_execute.c, os_match.c)

    A pattern is a list of alternatives separated by bars, each of them a text that may
    be tied to the start ([^]) or the end ([$]) of the subject; a leading exclamation
    mark negates the whole.  [OSMatch_Compile] chooses one comparison function per
    alternative, [OSMatch_Execute] runs them in order.

    Strings are blocks of characters with a NUL; pointers into them are offsets, or the
    rest of the block.  The struct that [OSMatch_Compile] fills is its result; an array
    that is NULL or was freed has no cells. *)

From Stdlib Require Import Lia ZArith Ascii String.
From stdpp Require Import base numbers list strings.
From S2P Require Import Prelude CString RegexMaps.

#[local] Open Scope list_scope.

Definition OS_CASE_SENSITIVE : Z := 256.
Definition OS_RETURN_SUBSTRING : Z := 128.
Definition OS_PATTERN_MAXSIZE : Z := 20480.

Definition OS_REGEX_PATTERN_NULL : Z := 2.
Definition OS_REGEX_MAXSIZE : Z := 3.
Definition OS_REGEX_STR_NULL : Z := 5.

(** [flags & f]. *)
Definition flag_set (flags f : Z) : bool := negb (Z.land flags f =? 0)%Z.

(** ** Functions of the C library on blocks of characters *)

Fixpoint c_strlen (m : list ascii) : outcome nat :=
  match m with
  | [] => Stuck OutOfBounds
  | c :: m => if bool_decide (c = NUL) then Ret 0 else n ← c_strlen m; Ret (S n)
  end.

Fixpoint c_strdup (m : list ascii) : outcome (list ascii) :=
  match m with
  | [] => Stuck OutOfBounds
  | c :: m => if bool_decide (c = NUL) then Ret [NUL] else m' ← c_strdup m; Ret (c :: m')
  end.

(** [strcasecmp (a, b) == 0]. *)
Fixpoint c_strcasecmp (a b : list ascii) : outcome bool :=
  match a, b with
  | c :: a, d :: b =>
      if bool_decide (tolower c = tolower d)
      then if bool_decide (c = NUL) then Ret true else c_strcasecmp a b
      else Ret false
  | _, _ => Stuck OutOfBounds
  end.

(** [strncasecmp (a, b, n) == 0]. *)
Fixpoint c_strncasecmp (a b : list ascii) (n : nat) : outcome bool :=
  match n with
  | O => Ret true
  | S n =>
      match a, b with
      | c :: a, d :: b =>
          if bool_decide (tolower c = tolower d)
          then if bool_decide (c = NUL) then Ret true else c_strncasecmp a b n
          else Ret false
      | _, _ => Stuck OutOfBounds
      end
  end.

(** The pointer [m + n]. *)
Definition c_at (m : list ascii) (n : nat) : outcome (list ascii) := advance m n.

(** ** The comparison functions *)

Inductive match_fn : Type :=
  | fp_OS_Match
  | fp_os_strncmp
  | fp_os_strcmp
  | fp_os_strmatch
  | fp_os_strcmp_last.

Section execute.
Context (char_signed : bool).

Inductive rest_result : Type := RestMatched | RestFalse | RestMismatch.

(** The inner loop of [_OS_Match], on what remains of the pattern and of the subject. *)
Fixpoint OS_Match_rest (pt str : list ascii) : outcome rest_result :=
  match pt with
  | [] => Stuck OutOfBounds
  | c :: pt =>
      if bool_decide (c = NUL) then Ret RestMatched
      else
        match str with
        | [] => Stuck OutOfBounds
        | d :: str =>
            if bool_decide (d = NUL) then Ret RestFalse
            else
              m ← charmap_at d;
              if (char_int char_signed c =? m)%Z then OS_Match_rest pt str
              else Ret RestMismatch
        end
  end.

(** The outer loop from the offset [i], with [k] offsets after it. *)
Fixpoint OS_Match_from (pattern str : list ascii) (k i : nat) : outcome bool :=
  let next :=
    match k with O => Ret false | S k => OS_Match_from pattern str k (S i) end in
  d ← c_read str i;
  m ← charmap_at d;
  p ← c_read pattern 0;
  if (m =? char_int char_signed p)%Z then
    pt ← c_at pattern 1;
    s ← c_at str (S i);
    r ← OS_Match_rest pt s;
    match r with
    | RestMatched => Ret true
    | RestFalse => Ret false
    | RestMismatch => next
    end
  else next.

Definition _OS_Match (pattern str : list ascii) (str_len size : nat) : outcome bool :=
  if (str_len <? size)%nat then Ret false
  else OS_Match_from pattern str (str_len - size) 0.

Definition _os_strncmp (pattern str : list ascii) (str_len size : nat) : outcome bool :=
  c_strncasecmp pattern str size.

Definition _os_strcmp (pattern str : list ascii) (str_len size : nat) : outcome bool :=
  c_strcasecmp pattern str.

Definition _os_strmatch (pattern str : list ascii) (str_len size : nat) : outcome bool :=
  Ret true.

Definition _os_strcmp_last (pattern str : list ascii) (str_len size : nat) : outcome bool :=
  if (str_len <? size)%nat then Ret false
  else s ← c_at str (str_len - size); c_strcasecmp pattern s.

Definition call_match_fp (f : match_fn) : list ascii → list ascii → nat → nat → outcome bool :=
  match f with
  | fp_OS_Match => _OS_Match
  | fp_os_strncmp => _os_strncmp
  | fp_os_strcmp => _os_strcmp
  | fp_os_strmatch => _os_strmatch
  | fp_os_strcmp_last => _os_strcmp_last
  end.

(** ** Compiled patterns *)

Record OSMatch : Type := mk_OSMatch {
  om_negate : Z;
  om_raw : option string;
  om_error : Z;
  om_size : list nat;
  om_patterns : list (option (list ascii));
  om_match_fp : list (option match_fn)
}.

(** The struct after the initialization, with [raw] duplicated. *)
Definition OSMatch_init (raw : option string) : OSMatch :=
  mk_OSMatch 0 raw 0 [] [] [].

Definition OSMatch_FreePattern (reg : OSMatch) : OSMatch :=
  mk_OSMatch (om_negate reg) None (om_error reg) [] [] [].

(** [compile_error], after [error] was set. *)
Definition OSMatch_fail (reg : OSMatch) (error : Z) : Z * OSMatch :=
  (0%Z, OSMatch_FreePattern
          (mk_OSMatch (om_negate reg) (om_raw reg) error (om_size reg) (om_patterns reg)
             (om_match_fp reg))).

(** The first loop: lower case, and the number of bars. *)
Fixpoint OSMatch_scan (flags : Z) (m : list ascii) : outcome (list ascii * nat) :=
  match m with
  | [] => Stuck OutOfBounds
  | c :: m' =>
      if bool_decide (c = NUL) then Ret (m, 0)
      else
        c ← (if flag_set flags OS_CASE_SENSITIVE then Ret c else to_char <$> charmap_at c);
        '(m', count) ← OSMatch_scan flags m';
        Ret (c :: m', if bool_decide (c = OR) then S count else count)
  end.

(** [*(pt - 1)]. *)
Definition c_prev (m : list ascii) (pt : nat) : outcome ascii :=
  match pt with O => Stuck OutOfBounds | S q => c_read m q end.

(** [size = strlen (p) - 1; p[size] = 0]: the size of an empty text wraps around, and the
    store at that offset is outside every block. *)
Definition chop_last (p : list ascii) : outcome (list ascii * nat) :=
  n ← c_strlen p;
  match n with
  | O => Stuck OutOfBounds
  | S k => p ← c_write p k NUL; Ret (p, k)
  end.

(** One alternative, from [new_str] to the NUL at [pt]. *)
Definition OSMatch_sub (m : list ascii) (new_str pt : nat) : outcome (list ascii * nat * match_fn) :=
  c0 ← c_read m new_str;
  let begins := bool_decide (c0 = BEGINREGEX) in
  s ← c_at m (if begins then S new_str else new_str);
  p ← c_strdup s;
  both ← (if begins then l ← c_prev m pt; Ret (bool_decide (l = ENDREGEX)) else Ret false);
  if (both : bool) then
    '(p, size) ← chop_last p; Ret (p, size, fp_os_strcmp)
  else
    text ← c_at m new_str;
    n ← c_strlen text;
    if (n =? 0)%nat then Ret (p, 0, fp_os_strmatch)
    else
      l ← c_prev m pt;
      if bool_decide (l = ENDREGEX) then
        '(p, size) ← chop_last p; Ret (p, size, fp_os_strcmp_last)
      else
        size ← c_strlen p;
        Ret (p, size, if begins then fp_os_strncmp else fp_OS_Match).

(** The second loop. *)
Fixpoint OSMatch_split (fuel : nat) (m : list ascii) (new_str pt i : nat) (reg : OSMatch)
    : outcome OSMatch :=
  match fuel with
  | O => Stuck OutOfFuel
  | S fuel =>
      c ← c_read m pt;
      if bool_decide (c = OR) || bool_decide (c = NUL) then
        m ← c_write m pt NUL;
        '(p, size, fp) ← OSMatch_sub m new_str pt;
        patterns ← c_write (om_patterns reg) i (Some p);
        match_fp ← c_write (om_match_fp reg) i (Some fp);
        sizes ← c_write (om_size reg) i size;
        let reg := mk_OSMatch (om_negate reg) (om_raw reg) (om_error reg) sizes patterns match_fp in
        if bool_decide (c = NUL) then Ret reg
        else OSMatch_split fuel m (S pt) (S pt) (S i) reg
      else OSMatch_split fuel m new_str (S pt) i reg
  end.

Definition OSMatch_Compile (pattern : option string) (flags : Z) : outcome (Z * OSMatch) :=
  match pattern with
  | None => Ret (OSMatch_fail (OSMatch_init None) OS_REGEX_PATTERN_NULL)
  | Some pattern =>
      let reg := OSMatch_init (Some pattern) in
      if (OS_PATTERN_MAXSIZE <? Z.of_nat (String.length pattern))%Z
      then Ret (OSMatch_fail reg OS_REGEX_MAXSIZE)
      else
        let negate := starts_with "!" pattern in
        '(m, count) ← OSMatch_scan flags (c_str (strip_bang pattern));
        let count := S count in
        let reg :=
          mk_OSMatch (if negate then 1 else 0)%Z (om_raw reg) 0 (replicate (S count) 0)
            (replicate (S count) None) (replicate (S count) None) in
        reg ← OSMatch_split (length m) m 0 0 0 reg;
        Ret (1%Z, reg)
  end.

(** A [short int] after its increment. *)
Definition short_succ (i : Z) : Z := ((i + 1 + 2 ^ 15) mod 2 ^ 16 - 2 ^ 15)%Z.

Definition read_short {A} (l : list A) (i : Z) : outcome A :=
  if (i <? 0)%Z then Stuck OutOfBounds else c_read l (Z.to_nat i).

(** The loop over the alternatives from [i]. *)
Fixpoint OSMatch_loop (fuel : nat) (str : list ascii) (str_len : nat) (reg : OSMatch) (i : Z)
    : outcome Z :=
  match fuel with
  | O => Stuck OutOfFuel
  | S fuel =>
      p ← read_short (om_patterns reg) i;
      match p with
      | None => Ret (om_negate reg)
      | Some p =>
          f ← read_short (om_match_fp reg) i;
          f ← c_deref f;
          size ← read_short (om_size reg) i;
          b ← call_match_fp f p str str_len size;
          if (b : bool) then Ret (if (om_negate reg =? 0)%Z then 1 else 0)%Z
          else OSMatch_loop fuel str str_len reg (short_succ i)
      end
  end.

Definition OSMatch_Execute (str : option (list ascii)) (str_len : nat) (reg : option OSMatch)
    : outcome (Z * option OSMatch) :=
  match reg, str with
  | None, _ => Ret (0%Z, None)
  | Some reg, None =>
      Ret (0%Z, Some (mk_OSMatch (om_negate reg) (om_raw reg) OS_REGEX_STR_NULL (om_size reg)
                        (om_patterns reg) (om_match_fp reg)))
  | Some reg, Some str =>
      r ← OSMatch_loop (length (om_patterns reg)) str str_len reg 0;
      Ret (r, Some reg)
  end.

Definition OS_Match2 (pattern : option string) (str : string) : outcome Z :=
  '(ok, reg) ← OSMatch_Compile pattern 0;
  if (ok =? 0)%Z then Ret 0%Z
  else
    n ← c_strlen (c_str str);
    '(r, _) ← OSMatch_Execute (Some (c_str str)) n (Some reg);
    Ret (if (r =? 0)%Z then 0 else 1)%Z.

End execute.

(** ** The functions on strings *)

Lemma c_strlen_spec s r : NUL ∉ s → c_strlen (s ++ NUL :: r) = Ret (length s).
Proof.
  induction s as [|c s IH]; intros Hn; [done|]. apply not_elem_of_cons in Hn as [Hc Hn].
  cbn [app c_strlen]. rewrite bool_decide_eq_false_2 by congruence. by rewrite (IH Hn).
Qed.

Lemma c_strdup_spec s r : NUL ∉ s → c_strdup (s ++ NUL :: r) = Ret (s ++ [NUL]).
Proof.
  induction s as [|c s IH]; intros Hn; [done|]. apply not_elem_of_cons in Hn as [Hc Hn].
  cbn [app c_strdup]. rewrite bool_decide_eq_false_2 by congruence. by rewrite (IH Hn).
Qed.

Lemma c_at_app (a b : list ascii) n : n = length a → c_at (a ++ b) n = Ret b.
Proof. apply advance_app. Qed.

(** Equality up to the case of the letters. *)
Definition ci (p c : ascii) : Prop := tolower p = tolower c.

#[global] Instance ci_dec p c : Decision (ci p c) := decide (tolower p = tolower c).

#[global] Instance ci_equiv : Equivalence ci.
Proof. split; unfold ci; repeat intro; congruence. Qed.

Lemma ci_nul c : c ≠ NUL → ¬ ci NUL c ∧ ¬ ci c NUL.
Proof.
  intros Hc. unfold ci. split; intros E; apply Hc, (proj1 (tolower_nul c)); rewrite ?E; done.
Qed.

Lemma c_strcasecmp_spec a b x y :
  NUL ∉ a → NUL ∉ b →
  c_strcasecmp (a ++ NUL :: x) (b ++ NUL :: y) = Ret (bool_decide (Forall2 ci a b)).
Proof.
  revert b. induction a as [|c a IH]; intros [|d b] Ha Hb; [done|..].
  - apply not_elem_of_cons in Hb as [Hd Hb]. cbn [app c_strcasecmp].
    rewrite bool_decide_eq_false_2 by (by apply ci_nul; congruence).
    rewrite bool_decide_eq_false_2; [done|]. inversion 1.
  - apply not_elem_of_cons in Ha as [Hc Ha]. cbn [app c_strcasecmp].
    rewrite bool_decide_eq_false_2 by (by apply ci_nul; congruence).
    rewrite bool_decide_eq_false_2; [done|]. inversion 1.
  - apply not_elem_of_cons in Ha as [Hc Ha]. apply not_elem_of_cons in Hb as [Hd Hb].
    cbn [app c_strcasecmp]. rewrite (bool_decide_eq_false_2 (c = NUL)) by congruence.
    case_bool_decide as E.
    + rewrite IH by done. f_equal. apply bool_decide_ext. rewrite Forall2_cons. naive_solver.
    + f_equal. symmetry. apply bool_decide_eq_false_2. rewrite Forall2_cons. naive_solver.
Qed.

(** [t] is found at the start of [s], with [R] to compare characters. *)
Definition starts (R : ascii → ascii → Prop) (t s : list ascii) : Prop :=
  ∃ mid post, s = mid ++ post ∧ Forall2 R t mid.

Lemma starts_nil R s : starts R [] s.
Proof. by exists [], s. Qed.

Lemma starts_cons R c t d s : starts R (c :: t) (d :: s) ↔ R c d ∧ starts R t s.
Proof.
  split.
  - intros (mid & post & E & H). inversion H; simplify_eq/=. split; [done|]. by eexists _, _.
  - intros (Hc & mid & post & -> & H). exists (d :: mid), post. split; [done|by constructor].
Qed.

Lemma starts_nil_r R c t : ¬ starts R (c :: t) [].
Proof. intros (mid & post & E & H). inversion H; simplify_eq/=. Qed.

Lemma starts_length R t s : starts R t s → length t ≤ length s.
Proof. intros (mid & post & -> & H%Forall2_length). rewrite length_app. lia. Qed.

#[global] Instance starts_dec R `{∀ p c, Decision (R p c)} t s : Decision (starts R t s).
Proof.
  revert s. induction t as [|c t IH]; intros s; [left; apply starts_nil|].
  destruct s as [|d s]; [right; apply starts_nil_r|].
  destruct (decide (R c d)) as [Hc|Hc]; [|right; rewrite starts_cons; naive_solver].
  destruct (IH s) as [Hs|Hs]; [left|right]; rewrite starts_cons; naive_solver.
Defined.

Lemma c_strncasecmp_spec a b x y :
  NUL ∉ a → NUL ∉ b →
  c_strncasecmp (a ++ x) (b ++ NUL :: y) (length a) = Ret (bool_decide (starts ci a b)).
Proof.
  revert b. induction a as [|c a IH]; intros b Ha Hb.
  { rewrite bool_decide_eq_true_2 by apply starts_nil. by destruct x. }
  apply not_elem_of_cons in Ha as [Hc Ha]. destruct b as [|d b]; cbn [app c_strncasecmp length].
  - rewrite bool_decide_eq_false_2 by (by apply ci_nul; congruence).
    by rewrite bool_decide_eq_false_2 by apply starts_nil_r.
  - apply not_elem_of_cons in Hb as [Hd Hb]. rewrite (bool_decide_eq_false_2 (c = NUL)) by congruence.
    case_bool_decide as E.
    + rewrite IH by done. f_equal. apply bool_decide_ext. rewrite starts_cons. naive_solver.
    + f_equal. symmetry. apply bool_decide_eq_false_2. rewrite starts_cons. naive_solver.
Qed.

(** ** The search of [_OS_Match] *)

(** [*pt == charmap[( uchar )*st]]. *)
Definition lit (sg : bool) (p c : ascii) : Prop := literal_eq sg p c = true.

#[global] Instance lit_dec sg p c : Decision (lit sg p c) := decide (literal_eq sg p c = true).

Lemma lit_eqb sg p c :
  (char_int sg p =? Z.of_nat (uchar (tolower c)))%Z = bool_decide (lit sg p c).
Proof.
  unfold lit, literal_eq. destruct (Z.eqb_spec (char_int sg p) (Z.of_nat (uchar (tolower c)))).
  - by rewrite !bool_decide_eq_true_2; [..|rewrite bool_decide_eq_true_2].
  - rewrite bool_decide_eq_false_2; [done|]. by rewrite bool_decide_eq_true.
Qed.

Lemma OS_Match_rest_spec sg p s x y :
  NUL ∉ p → NUL ∉ s →
  ∃ r, OS_Match_rest sg (p ++ NUL :: x) (s ++ NUL :: y) = Ret r ∧
    match r with
    | RestMatched => starts (lit sg) p s
    | RestFalse => length s < length p
    | RestMismatch => ¬ starts (lit sg) p s
    end.
Proof.
  revert s. induction p as [|c p IH]; intros s Hp Hs.
  { exists RestMatched. split; [done|apply starts_nil]. }
  apply not_elem_of_cons in Hp as [Hc Hp].
  cbn [app OS_Match_rest]. rewrite bool_decide_eq_false_2 by congruence.
  destruct s as [|d s]; cbn [app].
  { exists RestFalse. split; [done|simpl; lia]. }
  apply not_elem_of_cons in Hs as [Hd Hs]. rewrite bool_decide_eq_false_2 by congruence.
  rewrite charmap_spec. cbn [mbind outcome_bind]. rewrite lit_eqb. case_bool_decide as E.
  - destruct (IH s Hp Hs) as (r & -> & Hr). exists r. split; [done|].
    destruct r; rewrite ?starts_cons; simpl; [done|lia|naive_solver].
  - exists RestMismatch. split; [done|]. rewrite starts_cons. naive_solver.
Qed.

Lemma not_elem_of_drop {A} (x : A) n l : x ∉ l → x ∉ drop n l.
Proof. intros Hx Hn. apply Hx. rewrite <-(take_drop n l). apply elem_of_app. by right. Qed.

Lemma not_elem_of_take {A} (x : A) n l : x ∉ l → x ∉ take n l.
Proof. intros Hx Hn. apply Hx. rewrite <-(take_drop n l). apply elem_of_app. by left. Qed.

Lemma OS_Match_from_step sg p s x y k i :
  p ≠ [] → NUL ∉ p → NUL ∉ s → i + length p ≤ length s →
  OS_Match_from sg (p ++ NUL :: x) (s ++ NUL :: y) k i =
    if decide (starts (lit sg) p (drop i s)) then Ret true
    else match k with
         | O => Ret false
         | S k => OS_Match_from sg (p ++ NUL :: x) (s ++ NUL :: y) k (S i)
         end.
Proof.
  intros Hne Hp Hs Hi. destruct p as [|c p]; [done|]. apply not_elem_of_cons in Hp as [Hc Hp].
  simpl in Hi. destruct (lookup_lt_is_Some_2 s i) as [d Hd]; [lia|].
  destruct (OS_Match_rest_spec sg p (drop (S i) s) x y Hp) as (r & Hr & Hrs).
  { by apply not_elem_of_drop. }
  assert (OS_Match_from sg ((c :: p) ++ NUL :: x) (s ++ NUL :: y) k i =
    if bool_decide (lit sg c d) then
      match r with
      | RestMatched => Ret true
      | RestFalse => Ret false
      | RestMismatch => match k with
         | O => Ret false
         | S k => OS_Match_from sg ((c :: p) ++ NUL :: x) (s ++ NUL :: y) k (S i)
         end
      end
    else match k with
         | O => Ret false
         | S k => OS_Match_from sg ((c :: p) ++ NUL :: x) (s ++ NUL :: y) k (S i)
         end) as ->.
  { rewrite <-lit_eqb, Z.eqb_sym.
    destruct k; cbn [OS_Match_from];
      rewrite (c_read_Some _ i d) by (rewrite lookup_app_l by lia; done);
      cbn [mbind outcome_bind app]; rewrite charmap_spec;
      cbn [mbind outcome_bind]; change (c_read (c :: ?l) 0) with (Ret c);
      cbn [mbind outcome_bind]; (destruct (_ =? _)%Z; [|done]);
      change (c_at (c :: ?l) 1) with (Ret l); cbn [mbind outcome_bind];
      unfold c_at, advance; rewrite decide_True by (rewrite length_app; simpl; lia);
      cbn [mbind outcome_bind]; rewrite drop_app_le by lia; by rewrite Hr. }
  rewrite (drop_S s d i Hd). case_bool_decide as Hcd.
  - destruct r.
    + by rewrite decide_True by (by rewrite starts_cons).
    + rewrite length_drop in Hrs. lia.
    + by rewrite decide_False by (rewrite starts_cons; naive_solver).
  - by rewrite decide_False by (rewrite starts_cons; naive_solver).
Qed.

(** The search finds an occurrence at one of the offsets it tries. *)
Lemma OS_Match_from_spec sg p s x y k i :
  p ≠ [] → NUL ∉ p → NUL ∉ s → i + k + length p = length s →
  OS_Match_from sg (p ++ NUL :: x) (s ++ NUL :: y) k i =
    Ret (bool_decide (Exists (λ j, starts (lit sg) p (drop j s)) (seq i (S k)))).
Proof.
  intros Hne Hp Hs. revert i. induction k as [|k IH]; intros i Hi;
    rewrite OS_Match_from_step by (done || lia); (case_decide as Hd;
      [rewrite bool_decide_eq_true_2; [done|by left]|]).
  - rewrite bool_decide_eq_false_2; [done|]. by intros [|?%Exists_nil]%Exists_cons.
  - rewrite IH by lia. f_equal. apply bool_decide_ext.
    change (seq i (S (S k))) with (i :: seq (S i) (S k)). rewrite Exists_cons. naive_solver.
Qed.

(** ** What an alternative means *)

(** [t] occurs in [s], at its start if [b] and up to its end if [e]. *)
Definition occurs (R : ascii → ascii → Prop) (b e : bool) (t s : list ascii) : Prop :=
  ∃ pre mid post, s = pre ++ mid ++ post ∧ Forall2 R t mid ∧
    (b = true → pre = []) ∧ (e = true → post = []).

Lemma occurs_starts R t s : occurs R true false t s ↔ starts R t s.
Proof.
  split.
  - intros (pre & mid & post & -> & H & Hb & _). rewrite Hb by done. by exists mid, post.
  - intros (mid & post & -> & H). by exists [], mid, post.
Qed.

Lemma occurs_whole R t s : occurs R true true t s ↔ Forall2 R t s.
Proof.
  split.
  - intros (pre & mid & post & -> & H & Hb & He). rewrite Hb, He, app_nil_r by done. done.
  - intros H. exists [], s, []. by rewrite app_nil_r.
Qed.

Lemma occurs_end R t s :
  occurs R false true t s ↔ length t ≤ length s ∧ Forall2 R t (drop (length s - length t) s).
Proof.
  split.
  - intros (pre & mid & post & -> & H & _ & He). rewrite He, app_nil_r by done.
    pose proof (Forall2_length _ _ _ H). rewrite length_app. split; [lia|].
    by rewrite drop_app_length' by lia.
  - intros [Hl H]. exists (take (length s - length t) s), (drop (length s - length t) s), [].
    by rewrite app_nil_r, take_drop.
Qed.

Lemma occurs_anywhere R t s :
  length t ≤ length s →
  occurs R false false t s ↔ Exists (λ j, starts R t (drop j s)) (seq 0 (S (length s - length t))).
Proof.
  intros Hl. rewrite Exists_exists. split.
  - intros (pre & mid & post & -> & H & _). exists (length pre).
    pose proof (Forall2_length _ _ _ H). rewrite !length_app in *. split; [apply elem_of_seq; lia|].
    rewrite drop_app_length. by exists mid, post.
  - intros (j & _ & mid & post & E & H). exists (take j s), mid, post.
    by rewrite <-E, take_drop.
Qed.

Lemma occurs_length R b e t s : occurs R b e t s → length t ≤ length s.
Proof. intros (pre & mid & post & -> & H%Forall2_length & _). rewrite !length_app. lia. Qed.

(** What the comparison function chosen for the text [t] looks for. *)
Definition fn_finds (sg : bool) (f : match_fn) (t s : list ascii) : Prop :=
  match f with
  | fp_OS_Match => occurs (lit sg) false false t s
  | fp_os_strncmp => occurs ci true false t s
  | fp_os_strcmp => occurs ci true true t s
  | fp_os_strmatch => True
  | fp_os_strcmp_last => occurs ci false true t s
  end.

Lemma call_match_fp_spec sg f t junk s y :
  NUL ∉ t → NUL ∉ s → (f = fp_OS_Match → t ≠ []) →
  ∃ r, call_match_fp sg f (t ++ NUL :: junk) (s ++ NUL :: y) (length s) (length t) = Ret r ∧
    (r = true ↔ fn_finds sg f t s).
Proof.
  intros Ht Hs Hne. destruct f; cbn [call_match_fp fn_finds].
  - unfold _OS_Match. destruct (Nat.ltb_spec (length s) (length t)).
    + exists false. split; [done|]. split; [done|]. intros ?%occurs_length. lia.
    + rewrite OS_Match_from_spec by (by auto || lia). eexists. split; [done|].
      rewrite bool_decide_eq_true. by rewrite <-occurs_anywhere.
  - unfold _os_strncmp. rewrite c_strncasecmp_spec by done. eexists. split; [done|].
    by rewrite bool_decide_eq_true, occurs_starts.
  - unfold _os_strcmp. rewrite c_strcasecmp_spec by done. eexists. split; [done|].
    by rewrite bool_decide_eq_true, occurs_whole.
  - by exists true.
  - unfold _os_strcmp_last. destruct (Nat.ltb_spec (length s) (length t)).
    + exists false. split; [done|]. split; [done|]. intros ?%occurs_length. lia.
    + unfold c_at, advance. rewrite decide_True by (rewrite length_app; lia).
      cbn [mbind outcome_bind]. rewrite drop_app_le by lia.
      rewrite c_strcasecmp_spec by (done || by apply not_elem_of_drop).
      eexists. split; [done|]. rewrite bool_decide_eq_true, occurs_end. naive_solver lia.
Qed.

(** The anchors of an alternative and the text between them. *)
Definition parse_begin (a : list ascii) : bool * list ascii :=
  match a with
  | c :: a' => if bool_decide (c = BEGINREGEX) then (true, a') else (false, a)
  | [] => (false, [])
  end.

Definition parse_end (a : list ascii) : bool * list ascii :=
  match last a with
  | Some c => if bool_decide (c = ENDREGEX) then (true, take (length a - 1) a) else (false, a)
  | None => (false, a)
  end.

Definition parse_alt (a : list ascii) : bool * bool * list ascii :=
  let '(b, a) := parse_begin a in
  let '(e, t) := parse_end a in
  (b, e, t).

(** The function that [OSMatch_Compile] chooses. *)
Definition alt_fn (a : list ascii) : match_fn :=
  match a with
  | [] => fp_os_strmatch
  | _ =>
      match parse_alt a with
      | (true, true, _) => fp_os_strcmp
      | (false, true, _) => fp_os_strcmp_last
      | (true, false, _) => fp_os_strncmp
      | (false, false, _) => fp_OS_Match
      end
  end.

Lemma c_read_head {A} (d : list A) c x : c_read (d ++ c :: x) (length d) = Ret c.
Proof. apply c_read_Some. by apply list_lookup_middle. Qed.

Lemma c_at_succ d c x : c_at (d ++ c :: x) (S (length d)) = Ret x.
Proof.
  rewrite (cons_middle c d x), app_assoc. apply c_at_app. rewrite length_app. simpl. lia.
Qed.

Lemma c_prev_last d a l r :
  last a = Some l → c_prev (d ++ a ++ r) (length d + length a) = Ret l.
Proof.
  intros (q & ->)%last_Some. rewrite length_app. cbn [length].
  rewrite Nat.add_assoc, Nat.add_1_r. cbn [c_prev]. apply c_read_Some.
  rewrite lookup_app_r by lia. replace (_ + _ - _)%nat with (length q) by lia.
  rewrite <-app_assoc. by apply (list_lookup_middle q r).
Qed.

Lemma chop_last_spec a l :
  NUL ∉ a → last a = Some l →
  chop_last (a ++ [NUL]) = Ret (take (length a - 1) a ++ [NUL; NUL], length (take (length a - 1) a)).
Proof.
  intros Hn (q & ->)%last_Some. unfold chop_last. rewrite c_strlen_spec by done.
  cbn [mbind outcome_bind]. rewrite length_app. cbn [length].
  rewrite Nat.add_sub, take_app_length, Nat.add_1_r.
  rewrite c_write_lt by (rewrite !length_app; simpl; lia). cbn [mbind outcome_bind].
  rewrite <-app_assoc. by rewrite insert_app_r_alt, Nat.sub_diag by lia.
Qed.

(** An alternative compiles to its text and its function. *)
Lemma OSMatch_sub_spec d a r :
  NUL ∉ a →
  ∃ junk, OSMatch_sub (d ++ a ++ NUL :: r) (length d) (length d + length a) =
    Ret ((parse_alt a).2 ++ NUL :: junk, length (parse_alt a).2, alt_fn a).
Proof.
  intros Ha. unfold OSMatch_sub.
  assert (∀ x, c_at (d ++ x) (length d) = Ret x) as Hat by (intros; by apply c_at_app).
  destruct a as [|c a].
  { cbn [app]. rewrite c_read_head. cbn [mbind outcome_bind].
    rewrite bool_decide_eq_false_2, Hat by done. by exists []. }
  pose proof (c_read_head d c (a ++ NUL :: r)) as Hr0.
  pose proof (c_at_succ d c (a ++ NUL :: r)) as Hs0.
  destruct (last (c :: a)) as [l|] eqn:Hl; [|by apply last_None in Hl].
  pose proof (c_prev_last d (c :: a) l (NUL :: r) Hl) as Hp.
  pose proof (c_strlen_spec (c :: a) r Ha) as Hlen.
  pose proof (c_strdup_spec (c :: a) r Ha) as Hdup.
  pose proof (c_strlen_spec (c :: a) [] Ha) as Hsize.
  pose proof (chop_last_spec (c :: a) l Ha Hl) as Hchop.
  cbn [app] in *. unfold alt_fn, parse_alt, parse_begin.
  rewrite Hr0. cbn [mbind outcome_bind]. rewrite Hp, Hat.
  apply not_elem_of_cons in Ha as [Hc Ha].
  destruct (decide (c = BEGINREGEX)) as [->|Hb].
  - rewrite !bool_decide_eq_true_2 by done. rewrite Hs0. cbn [mbind outcome_bind].
    rewrite c_strdup_spec by done. cbn [mbind outcome_bind]. unfold parse_end.
    destruct (last a) as [l'|] eqn:Hl'.
    + assert (l' = l) as -> by (destruct a; [done|]; simpl in *; congruence).
      case_bool_decide.
      * rewrite (chop_last_spec a l) by done. by exists [NUL].
      * rewrite Hlen. cbn [mbind outcome_bind length Nat.eqb].
        rewrite c_strlen_spec by done. by exists [].
    + apply last_None in Hl' as ->. simplify_eq/=. by exists [].
  - rewrite !bool_decide_eq_false_2 by done. rewrite Hat. cbn [mbind outcome_bind].
    rewrite Hdup. cbn [mbind outcome_bind].
    rewrite Hlen. cbn [mbind outcome_bind length Nat.eqb]. unfold parse_end. rewrite Hl.
    case_bool_decide.
    + rewrite Hchop. by exists [NUL].
    + rewrite Hsize. by exists [].
Qed.

(** ** Compilation *)

(** The alternatives of a pattern. *)
Fixpoint alternatives (l : list ascii) : list (list ascii) :=
  match l with
  | [] => [[]]
  | c :: l =>
      if bool_decide (c = OR) then [] :: alternatives l
      else match alternatives l with a :: r => (c :: a) :: r | [] => [[c]] end
  end.

Lemma alternatives_one a : OR ∉ a → alternatives a = [a].
Proof.
  induction a as [|c a IH]; intros Ha; [done|]. apply not_elem_of_cons in Ha as [Hc Ha].
  cbn [alternatives]. rewrite bool_decide_eq_false_2 by congruence. by rewrite IH.
Qed.

Lemma alternatives_cons a l : OR ∉ a → alternatives (a ++ OR :: l) = a :: alternatives l.
Proof.
  induction a as [|c a IH]; intros Ha; [done|]. apply not_elem_of_cons in Ha as [Hc Ha].
  cbn [app alternatives]. rewrite bool_decide_eq_false_2 by congruence. by rewrite IH.
Qed.

Lemma insert_splice {A} (l : list A) i x : i < length l → <[i:=x]> l = splice l i [x].
Proof. intros Hi. unfold splice. simpl. rewrite Nat.add_1_r. by apply insert_take_drop. Qed.

Lemma splice_cons {A} (l : list A) i x xs :
  i + S (length xs) ≤ length l → splice (<[i:=x]> l) (S i) xs = splice l i (x :: xs).
Proof.
  intros Hl. rewrite insert_splice by lia. rewrite <-Nat.add_1_r.
  apply (splice_app l i [x] xs). simpl. lia.
Qed.

(** The block that holds the text of an alternative. *)
Definition holds_text (a p : list ascii) : Prop := ∃ junk, p = (parse_alt a).2 ++ NUL :: junk.

(** The cells of the arrays from [i] on are those of the alternatives [alts]. *)
Definition with_alts (reg : OSMatch) (i : nat) (alts ps : list (list ascii)) : OSMatch :=
  mk_OSMatch (om_negate reg) (om_raw reg) (om_error reg)
    (splice (om_size reg) i ((λ a, length (parse_alt a).2) <$> alts))
    (splice (om_patterns reg) i (Some <$> ps))
    (splice (om_match_fp reg) i ((Some ∘ alt_fn) <$> alts)).

(** The arrays have a cell for each of [n] alternatives from [i] on. *)
Definition has_cells (reg : OSMatch) (i n : nat) : Prop :=
  i + n ≤ length (om_size reg) ∧ i + n ≤ length (om_patterns reg) ∧ i + n ≤ length (om_match_fp reg).

Lemma with_alts_cons reg i a p alts ps :
  has_cells reg i (S (length alts)) → length ps = length alts →
  with_alts (with_alts reg i [a] [p]) (S i) alts ps = with_alts reg i (a :: alts) (p :: ps).
Proof.
  intros (H1 & H2 & H3) Hl. unfold with_alts. cbn [om_negate om_raw om_error om_size om_patterns om_match_fp fmap list_fmap].
  rewrite <-!insert_splice by lia. rewrite !splice_cons by (rewrite ?length_fmap; lia). done.
Qed.

Lemma has_cells_with_alts reg i a p n :
  has_cells reg i (S n) → has_cells (with_alts reg i [a] [p]) (S i) n.
Proof.
  intros (H1 & H2 & H3). unfold has_cells, with_alts. simpl. rewrite !length_splice by (simpl; lia). lia.
Qed.

(** What the loop does at the end of an alternative. *)
Lemma OSMatch_split_close fuel d a c rest i reg :
  NUL ∉ a → c = OR ∨ c = NUL → has_cells reg i 1 →
  ∃ p, holds_text a p ∧
    OSMatch_split (S fuel) (d ++ a ++ c :: rest) (length d) (length d + length a) i reg =
      if bool_decide (c = NUL) then Ret (with_alts reg i [a] [p])
      else
        let m := (d ++ a ++ [NUL]) ++ rest in
        let pt := length (d ++ a ++ [NUL]) in
        OSMatch_split fuel m pt pt (S i) (with_alts reg i [a] [p]).
Proof.
  intros Ha Hc (H1 & H2 & H3). cbn [OSMatch_split].
  assert (c_read (d ++ a ++ c :: rest) (length d + length a) = Ret c) as ->.
  { rewrite app_assoc, <-length_app. apply c_read_head. }
  cbn [mbind outcome_bind].
  assert (bool_decide (c = OR) || bool_decide (c = NUL) = true) as ->.
  { destruct Hc as [-> | ->]; done. }
  rewrite c_write_lt by (rewrite !length_app; simpl; lia). cbn [mbind outcome_bind].
  assert (<[length d + length a:=NUL]> (d ++ a ++ c :: rest) = d ++ a ++ NUL :: rest) as ->.
  { rewrite !insert_app_r_alt by lia. by replace (_ - _ - _) with 0 by lia. }
  destruct (OSMatch_sub_spec d a rest Ha) as (junk & ->). cbn [mbind outcome_bind].
  exists ((parse_alt a).2 ++ NUL :: junk). split; [by exists junk|].
  rewrite !c_write_lt by lia. cbn [mbind outcome_bind]. rewrite !insert_splice by lia.
  case_bool_decide; [done|]. cbn zeta. rewrite !length_app, <-!app_assoc. cbn [app length].
  by replace (length d + (length a + 1)) with (S (length d + length a)) by lia.
Qed.

Lemma OSMatch_split_spec fuel d a rest i reg :
  NUL ∉ a → NUL ∉ rest → OR ∉ a → length rest < fuel →
  has_cells reg i (length (alternatives (a ++ rest))) →
  ∃ ps, Forall2 holds_text (alternatives (a ++ rest)) ps ∧
    OSMatch_split fuel (d ++ a ++ rest ++ [NUL]) (length d) (length d + length a) i reg =
      Ret (with_alts reg i (alternatives (a ++ rest)) ps).
Proof.
  revert d a rest i reg. induction fuel as [|fuel IH]; intros d a rest i reg Ha Hr Hor Hf; [lia|].
  destruct rest as [|c rest].
  - rewrite app_nil_r, (alternatives_one a) by done. intros Hcells.
    destruct (OSMatch_split_close fuel d a NUL [] i reg) as (p & Hp & E); [done|by right|done|].
    exists [p]. split; [by repeat constructor|]. exact E.
  - apply not_elem_of_cons in Hr as [Hc Hr]. simpl in Hf. destruct (decide (c = OR)) as [->|Hco].
    + rewrite (alternatives_cons a) by done. intros Hcells.
      destruct (OSMatch_split_close fuel d a OR (rest ++ [NUL]) i reg) as (p & Hp & E);
        [done|by left|unfold has_cells in *; simpl in *; lia|].
      destruct (IH (d ++ a ++ [NUL]) [] rest (S i) (with_alts reg i [a] [p])) as (ps & Hps & Hrun);
        [apply not_elem_of_nil|done|apply not_elem_of_nil|lia|by apply has_cells_with_alts|].
      exists (p :: ps). split; [by constructor|]. cbn [app]. rewrite E.
      rewrite bool_decide_eq_false_2 by done. cbn zeta. rewrite Nat.add_0_r in Hrun.
      etrans; [exact Hrun|]. f_equal. apply with_alts_cons; [done|]. symmetry. by eapply Forall2_length.
    + intros Hcells. destruct (IH d (a ++ [c]) rest i reg) as (ps & Hps & Hrun);
        rewrite <-?app_assoc in *;
        [apply not_elem_of_app; split; [done|by apply not_elem_of_cons; split; [|apply not_elem_of_nil]]
        |done
        |apply not_elem_of_app; split; [done|by apply not_elem_of_cons; split; [|apply not_elem_of_nil]]
        |lia|done|].
      exists ps. split; [done|]. cbn [app] in *. cbn [OSMatch_split].
      assert (c_read (d ++ a ++ c :: rest ++ [NUL]) (length d + length a) = Ret c) as ->.
      { rewrite app_assoc, <-length_app. apply c_read_head. }
      cbn [mbind outcome_bind]. rewrite !bool_decide_eq_false_2 by congruence. cbn [orb].
      rewrite <-Hrun. f_equal. rewrite length_app. simpl. lia.
Qed.

(** The pattern after the first loop. *)
Definition fold_case (flags : Z) (l : list ascii) : list ascii :=
  if flag_set flags OS_CASE_SENSITIVE then l else tolower <$> l.

Lemma fold_case_nul flags l : NUL ∉ l → NUL ∉ fold_case flags l.
Proof.
  unfold fold_case. case_match; [done|]. intros Hl (c & E & Hc)%list_elem_of_fmap_1.
  symmetry in E. apply (proj1 (tolower_nul c)) in E as ->. done.
Qed.

Lemma length_fold_case flags l : length (fold_case flags l) = length l.
Proof. unfold fold_case. case_match; [done|]. apply length_fmap. Qed.

Lemma OSMatch_scan_spec flags l :
  NUL ∉ l →
  OSMatch_scan flags (l ++ [NUL]) =
    Ret (fold_case flags l ++ [NUL], length (alternatives (fold_case flags l)) - 1).
Proof.
  assert (∀ l, ∃ a r, alternatives l = a :: r) as Hne.
  { intros [|c k]; [by eexists _, _|]. cbn [alternatives]. case_bool_decide; [by eexists _, _|].
    destruct (alternatives k); by eexists _, _. }
  induction l as [|c l IH]; intros Hn.
  { unfold fold_case. by destruct (flag_set flags OS_CASE_SENSITIVE). }
  apply not_elem_of_cons in Hn as [Hc Hn]. cbn [app OSMatch_scan].
  rewrite bool_decide_eq_false_2 by congruence. rewrite (IH Hn). clear IH.
  assert ((if flag_set flags OS_CASE_SENSITIVE then Ret c else to_char <$> charmap_at c) =
    Ret (if flag_set flags OS_CASE_SENSITIVE then c else tolower c)) as ->.
  { case_match; [done|]. apply to_char_charmap. }
  cbn [mbind outcome_bind]. unfold fold_case. case_match; cbn [fmap list_fmap alternatives app].
  - destruct (Hne l) as (a & r & ->). f_equal. f_equal. case_bool_decide; simpl; lia.
  - destruct (Hne (tolower <$> l)) as (a & r & ->). f_equal. f_equal. case_bool_decide; simpl; lia.
Qed.

Lemma length_alternatives l : 1 ≤ length (alternatives l) ≤ S (length l).
Proof.
  induction l as [|c l IH]; [done|]. cbn [alternatives]. case_bool_decide; [simpl; lia|].
  destruct (alternatives l); simpl in *; lia.
Qed.

Lemma splice_all {A} (x : A) (xs : list A) n :
  n = length xs → splice (replicate (S n) x) 0 xs = xs ++ [x].
Proof.
  intros ->. unfold splice. cbn [take Nat.add]. rewrite drop_replicate.
  by replace (S (length xs) - length xs) with 1 by lia.
Qed.

(** A compiled pattern. *)
Definition compiled (raw : string) (negate : Z) (alts ps : list (list ascii)) : OSMatch :=
  mk_OSMatch negate (Some raw) 0
    (((λ a, length (parse_alt a).2) <$> alts) ++ [0])
    ((Some <$> ps) ++ [None]) (((Some ∘ alt_fn) <$> alts) ++ [None]).

(** The alternatives of a whole pattern, and whether it is negated. *)
Definition pattern_alts (pattern : string) (flags : Z) : list (list ascii) :=
  alternatives (fold_case flags (chars (strip_bang pattern))).

Definition pattern_negate (pattern : string) : Z := if starts_with "!" pattern then 1 else 0.

Lemma chars_nul s : has_char NUL s = false → NUL ∉ chars s.
Proof.
  induction s as [|c s IH]; cbn [has_char chars]; [intros _; apply not_elem_of_nil|].
  intros [Hc%bool_decide_eq_false Hs]%orb_false_iff. apply not_elem_of_cons. auto.
Qed.

Lemma strip_bang_nul s : has_char NUL s = false → NUL ∉ chars (strip_bang s).
Proof.
  intros Hs%chars_nul. destruct s as [|c s]; [done|]. cbn [chars] in Hs.
  apply not_elem_of_cons in Hs as [Hc Hs].
  destruct c as [[] [] [] [] [] [] [] []]; cbn [strip_bang chars]; by rewrite ?not_elem_of_cons.
Qed.

Lemma strip_bang_length s : String.length (strip_bang s) ≤ String.length s.
Proof. destruct s as [|[[] [] [] [] [] [] [] []] s]; simpl; lia. Qed.

Lemma OSMatch_Compile_spec pattern flags :
  has_char NUL pattern = false → (Z.of_nat (String.length pattern) ≤ OS_PATTERN_MAXSIZE)%Z →
  ∃ ps, Forall2 holds_text (pattern_alts pattern flags) ps ∧
    OSMatch_Compile (Some pattern) flags =
      Ret (1%Z, compiled pattern (pattern_negate pattern) (pattern_alts pattern flags) ps).
Proof.
  intros Hn Hl. unfold OSMatch_Compile. rewrite (proj2 (Z.ltb_ge _ _)) by done.
  apply strip_bang_nul in Hn. unfold c_str. rewrite OSMatch_scan_spec by done.
  cbn [mbind outcome_bind]. set (l := fold_case flags (chars (strip_bang pattern))).
  change (pattern_alts pattern flags) with (alternatives l).
  pose proof (length_alternatives l). replace (S (length (alternatives l) - 1)) with (length (alternatives l)) by lia.
  edestruct (OSMatch_split_spec (length (l ++ [NUL])) [] [] l 0) as (ps & Hps & Hrun).
  6: { exists ps. split; [done|]. cbn [app length] in Hrun. rewrite Hrun. cbn [mbind outcome_bind].
       unfold with_alts. cbn [om_negate om_raw om_error om_size om_patterns om_match_fp OSMatch_init app].
       rewrite !splice_all; [done|..]; rewrite ?length_fmap; [done|by eapply Forall2_length|done]. }
  - apply not_elem_of_nil.
  - by apply fold_case_nul.
  - apply not_elem_of_nil.
  - rewrite length_app. simpl. lia.
  - unfold has_cells. cbn [om_size om_patterns om_match_fp app]. rewrite !length_replicate. lia.
Qed.

(** ** Execution *)

(** What a compiled alternative looks for. *)
Definition alt_finds (sg : bool) (a s : list ascii) : Prop :=
  fn_finds sg (alt_fn a) (parse_alt a).2 s.

Lemma parse_alt_nul a : NUL ∉ a → NUL ∉ (parse_alt a).2.
Proof.
  intros Ha. unfold parse_alt. destruct (parse_begin a) as [b a'] eqn:Eb.
  assert (NUL ∉ a') as Ha'.
  { destruct a as [|c a]; simpl in Eb; [by simplify_eq|].
    case_bool_decide; simplify_eq; [|done]. by apply not_elem_of_cons in Ha as [_ ?]. }
  unfold parse_end. destruct (last a') as [l|]; [|done].
  case_bool_decide; [|done]. by apply not_elem_of_take.
Qed.

Lemma alt_fn_text a : alt_fn a = fp_OS_Match → (parse_alt a).2 ≠ [].
Proof.
  unfold alt_fn, parse_alt, parse_begin, parse_end. destruct a as [|c a]; [done|].
  case_bool_decide; repeat case_match; by simplify_eq/=.
Qed.

Lemma alternatives_elem a l c : a ∈ alternatives l → c ∈ a → c ∈ l.
Proof.
  revert a. induction l as [|d l IH]; intros a; cbn [alternatives].
  - intros ->%list_elem_of_singleton. done.
  - case_bool_decide.
    + intros [->|Ha]%elem_of_cons Hc; [by apply elem_of_nil in Hc|]. apply elem_of_cons. right. eauto.
    + destruct (alternatives l) as [|a' r].
      * intros ->%list_elem_of_singleton ->%list_elem_of_singleton. apply elem_of_cons. by left.
      * intros [->|Ha]%elem_of_cons Hc.
        -- apply elem_of_cons in Hc as [->|Hc]; apply elem_of_cons; [by left|right].
           apply (IH a'); [|done]. apply elem_of_cons. by left.
        -- apply elem_of_cons. right. apply (IH a); [|done]. apply elem_of_cons. by right.
Qed.

Lemma alternatives_nul l : NUL ∉ l → Forall (λ a, NUL ∉ a) (alternatives l).
Proof. intros Hl. apply Forall_forall. intros a Ha Hn. by apply Hl, (alternatives_elem a). Qed.

Lemma read_short_nat {A} (l : list A) i : read_short l (Z.of_nat i) = c_read l i.
Proof. unfold read_short. rewrite (proj2 (Z.ltb_ge _ _)) by lia. by rewrite Nat2Z.id. Qed.

Lemma short_succ_nat i : (Z.of_nat i < 32767)%Z → short_succ (Z.of_nat i) = Z.of_nat (S i).
Proof. intros Hi. unfold short_succ. rewrite Z.mod_small by lia. lia. Qed.

Lemma OSMatch_loop_spec sg fuel raw neg alts1 alts2 ps1 ps2 s :
  Forall2 holds_text alts2 ps2 → length ps1 = length alts1 →
  Forall (λ a, NUL ∉ a) alts2 → NUL ∉ s →
  (Z.of_nat (length (alts1 ++ alts2)) < 32767)%Z → length alts2 < fuel →
  ∃ b : bool,
    OSMatch_loop sg fuel (s ++ [NUL]) (length s) (compiled raw neg (alts1 ++ alts2) (ps1 ++ ps2))
      (Z.of_nat (length alts1)) =
      Ret (if b then if (neg =? 0)%Z then 1 else 0 else neg)%Z ∧
    (b = true ↔ Exists (λ a, alt_finds sg a s) alts2).
Proof.
  intros Hps. revert fuel alts1 ps1. induction Hps as [|a p alts2 ps2 Hp Hps IH];
    intros fuel alts1 ps1 Hl Hn Hs Hmax Hf; (destruct fuel as [|fuel]; [simpl in Hf; lia|]);
    cbn [OSMatch_loop compiled om_patterns om_match_fp om_size om_negate]; rewrite !read_short_nat.
  - rewrite (c_read_Some ((Some <$> ps1 ++ []) ++ [None]) _ None)
      by (rewrite app_nil_r, lookup_app_r by (rewrite length_fmap; lia);
          by rewrite length_fmap, ?Hl, Nat.sub_diag).
    exists false. split; [done|]. by rewrite Exists_nil.
  - apply Forall_cons in Hn as [Ha Hn].
    assert (∀ {B} (f : list ascii → B) x, ((f <$> alts1 ++ a :: alts2) ++ [x]) !! length alts1 = Some (f a)) as Hget.
    { intros B f x. rewrite fmap_app, <-app_assoc. apply list_lookup_middle. by rewrite length_fmap. }
    rewrite (c_read_Some _ _ (Some p))
      by (rewrite fmap_app, <-app_assoc; apply list_lookup_middle; by rewrite length_fmap).
    cbn [mbind outcome_bind]. rewrite (c_read_Some _ _ _ (Hget _ (Some ∘ alt_fn) None)).
    cbn [mbind outcome_bind compose c_deref].
    rewrite (c_read_Some _ _ _ (Hget _ (λ a, length (parse_alt a).2) 0)). cbn [mbind outcome_bind].
    destruct Hp as (junk & ->).
    destruct (call_match_fp_spec sg (alt_fn a) (parse_alt a).2 junk s []) as (b & -> & Hb);
      [by apply parse_alt_nul|done|apply alt_fn_text|]. cbn [mbind outcome_bind].
    destruct b.
    + exists true. split; [done|]. split; [|done]. intros _. left. by apply Hb.
    + rewrite length_app in Hmax. simpl in Hmax, Hf.
      destruct (IH fuel (alts1 ++ [a]) (ps1 ++ [(parse_alt a).2 ++ NUL :: junk])) as (b & Hrun & Hb');
        [rewrite !length_app; simpl; lia|done|done|rewrite !length_app; simpl; lia|lia|].
      exists b. rewrite <-!app_assoc in Hrun. cbn [app] in Hrun.
      rewrite short_succ_nat by lia. split.
      * rewrite <-Hrun, length_app. simpl. by rewrite Nat.add_1_r.
      * rewrite Exists_cons, Hb'. unfold alt_finds. naive_solver.
Qed.

(** A compiled pattern can be executed on any string. *)
Lemma OSMatch_run sg pattern flags s :
  has_char NUL pattern = false → has_char NUL s = false →
  (Z.of_nat (String.length pattern) ≤ OS_PATTERN_MAXSIZE)%Z →
  ∃ reg (b : bool), OSMatch_Compile (Some pattern) flags = Ret (1%Z, reg) ∧
    OSMatch_Execute sg (Some (c_str s)) (String.length s) (Some reg) =
      Ret ((if b then 1 - pattern_negate pattern else pattern_negate pattern)%Z, Some reg) ∧
    (b = true ↔ Exists (λ a, alt_finds sg a (chars s)) (pattern_alts pattern flags)).
Proof.
  intros Hp Hs Hl. destruct (OSMatch_Compile_spec pattern flags Hp Hl) as (ps & Hps & Hc).
  assert (length (pattern_alts pattern flags) ≤ S (String.length pattern)) as Hlen.
  { unfold pattern_alts. etrans; [apply length_alternatives|]. rewrite length_fold_case, length_chars.
    pose proof (strip_bang_length pattern). lia. }
  destruct (OSMatch_loop_spec sg (S (length ps)) pattern (pattern_negate pattern) []
    (pattern_alts pattern flags) [] ps (chars s)) as (b & Hrun & Hb); try done.
  - by apply alternatives_nul, fold_case_nul, strip_bang_nul.
  - by apply chars_nul.
  - unfold OS_PATTERN_MAXSIZE in Hl. cbn [app]. lia.
  - rewrite (Forall2_length _ _ _ Hps). lia.
  - eexists _, b. split; [exact Hc|]. split; [|done].
    unfold OSMatch_Execute. cbn [compiled om_patterns].
    rewrite length_app, length_fmap. cbn [length]. rewrite Nat.add_1_r.
    rewrite length_chars in Hrun. cbn [app length] in Hrun. change (Z.of_nat 0) with 0%Z in Hrun.
    unfold c_str. rewrite Hrun. cbn [mbind outcome_bind].
    f_equal. f_equal. unfold pattern_negate. destruct b; [|done]. by destruct (starts_with _ _).
Qed.

(** ** The meaning of a pattern *)

(** An alternative occurs in the subject where its anchors say, in any case. *)
Definition alt_matches (a s : list ascii) : Prop :=
  let '(b, e, t) := parse_alt a in occurs ci b e t s.

(** Some alternative occurs, or none if the pattern is negated. *)
Definition pattern_matches (pattern s : string) : Prop :=
  let found := Exists (λ a, alt_matches a (chars s)) (alternatives (chars (strip_bang pattern))) in
  if starts_with "!" pattern then ¬ found else found.

Definition ascii7_str (s : string) : bool := forallb is_ascii7 (chars s).

Lemma tolower_meta c :
  bool_decide (tolower c = OR) = bool_decide (c = OR) ∧
  bool_decide (tolower c = BEGINREGEX) = bool_decide (c = BEGINREGEX) ∧
  bool_decide (tolower c = ENDREGEX) = bool_decide (c = ENDREGEX).
Proof. revert c. apply (forall_ascii _). vm_compute. reflexivity. Qed.

Lemma tolower_ascii7 c : is_ascii7 (tolower c) = is_ascii7 c.
Proof. revert c. apply (forall_ascii _). vm_compute. reflexivity. Qed.

Lemma alternatives_lower (l : list ascii) :
  alternatives (tolower <$> l) = (fmap tolower : list ascii → list ascii) <$> alternatives l.
Proof.
  induction l as [|c l IH]; [done|]. cbn [fmap list_fmap alternatives].
  rewrite (proj1 (tolower_meta c)), IH. case_bool_decide; [done|]. by destruct (alternatives l).
Qed.

Lemma parse_alt_lower (a : list ascii) :
  parse_alt (tolower <$> a) = let '(b, e, t) := parse_alt a in (b, e, tolower <$> t).
Proof.
  unfold parse_alt. assert (parse_begin (tolower <$> a) =
    let '(b, t) := parse_begin a in (b, tolower <$> t)) as ->.
  { destruct a as [|c a]; [done|]. cbn [fmap list_fmap parse_begin].
    rewrite (proj1 (proj2 (tolower_meta c))). by case_bool_decide. }
  destruct (parse_begin a) as [b t]. unfold parse_end. rewrite fmap_last, length_fmap, <-fmap_take.
  destruct (last t) as [c|]; [|done]. cbn [fmap option_fmap option_map].
  rewrite (proj2 (proj2 (tolower_meta c))). by case_bool_decide.
Qed.

Lemma occurs_iff R R' b e t t' s :
  (∀ mid, Forall2 R t mid ↔ Forall2 R' t' mid) → occurs R b e t s ↔ occurs R' b e t' s.
Proof. intros H. unfold occurs. by setoid_rewrite H. Qed.

Lemma ci_lower (t mid : list ascii) : Forall2 ci (tolower <$> t) mid ↔ Forall2 ci t mid.
Proof.
  rewrite Forall2_fmap_l. split; intros H; apply (Forall2_impl _ _ _ _ H);
    intros p c; unfold ci; simpl; by rewrite tolower_idemp.
Qed.

Lemma lit_lower sg (t mid : list ascii) :
  Forall (λ c, is_ascii7 c = true) t → Forall2 (lit sg) (tolower <$> t) mid ↔ Forall2 ci t mid.
Proof.
  intros Ht. rewrite Forall2_fmap_l. revert mid. induction Ht as [|c t Hc Ht IH]; intros mid.
  - split; intros H; inversion H; constructor.
  - split; intros (d & k & H & Hk & ->)%Forall2_cons_inv_l; constructor; try by apply IH.
    all: revert H; unfold lit, ci, compose; rewrite literal_eq_ascii7 by (by rewrite tolower_ascii7);
      by rewrite bool_decide_eq_true.
Qed.

Lemma parse_alt_subset a c : c ∈ (parse_alt a).2 → c ∈ a.
Proof.
  unfold parse_alt. destruct (parse_begin a) as [b t] eqn:Eb. intros Hc.
  assert (c ∈ t) as Ht.
  { revert Hc. unfold parse_end. destruct (last t); [|done]. case_bool_decide; [|done].
    simpl. intros Hc. rewrite <-(take_drop (length t - 1) t). apply elem_of_app. by left. }
  destruct a as [|d a]; simpl in Eb; [by simplify_eq|].
  case_bool_decide; simplify_eq; [|done]. apply elem_of_cons. by right.
Qed.

Lemma alt_finds_lower sg (a s : list ascii) :
  Forall (λ c, is_ascii7 c = true) a → alt_finds sg (tolower <$> a) s ↔ alt_matches a s.
Proof.
  intros Ha. unfold alt_finds, alt_fn, alt_matches. rewrite parse_alt_lower.
  assert (Forall (λ c, is_ascii7 c = true) (parse_alt a).2) as Ht.
  { apply Forall_forall. intros c Hc%parse_alt_subset. by apply (proj1 (Forall_forall _ _) Ha). }
  destruct a as [|c a].
  { split; [|done]. intros _. exists [], [], s. split_and!; [done|constructor|done..]. }
  cbn [fmap list_fmap]. destruct (parse_alt (c :: a)) as [[b e] t]. simpl in Ht.
  destruct b, e; apply occurs_iff; intros mid; by (apply ci_lower || apply lit_lower).
Qed.

Lemma pattern_alts_matches sg pattern flags s :
  flag_set flags OS_CASE_SENSITIVE = false → ascii7_str pattern = true →
  Exists (λ a, alt_finds sg a s) (pattern_alts pattern flags) ↔
  Exists (λ a, alt_matches a s) (alternatives (chars (strip_bang pattern))).
Proof.
  intros Hf Ha. unfold pattern_alts, fold_case. rewrite Hf, alternatives_lower, Exists_fmap.
  rewrite !Exists_exists. apply exist_proper. intros a.
  assert (a ∈ alternatives (chars (strip_bang pattern)) → Forall (λ c, is_ascii7 c = true) a) as H7.
  { intros Hin. apply Forall_forall. intros c Hc. pose proof (alternatives_elem a _ c Hin Hc) as Hc'.
    assert (c ∈ chars pattern) as Hcp.
    { destruct pattern as [|[[] [] [] [] [] [] [] []] p]; simpl in Hc' |- *; try done.
      apply elem_of_cons. by right. }
    unfold ascii7_str in Ha. rewrite forallb_forall in Ha. apply Ha. by apply list_elem_of_In. }
  split; intros [Hin H]; (split; [done|]); by apply (alt_finds_lower sg a s (H7 Hin)).
Qed.



Lemma c_strlen_c_str s : has_char NUL s = false → c_strlen (c_str s) = Ret (String.length s).
Proof.
  intros Hs%chars_nul. unfold c_str. rewrite c_strlen_spec by done. by rewrite length_chars.
Qed.

(** The wrapper for a pattern that is used once. *)
Lemma OS_Match2_matches sg pattern s :
  has_char NUL pattern = false → has_char NUL s = false →
  (Z.of_nat (String.length pattern) ≤ OS_PATTERN_MAXSIZE)%Z → ascii7_str pattern = true →
  ∃ r, OS_Match2 sg (Some pattern) s = Ret r ∧ (r = 0 ∨ r = 1)%Z ∧
    (r = 1%Z ↔ pattern_matches pattern s).
Proof.
  intros Hp Hs Hl Ha. destruct (OSMatch_run sg pattern 0 s Hp Hs Hl) as (reg & b & Hc & Hr & Hb).
  rewrite (pattern_alts_matches sg pattern 0 (chars s) eq_refl Ha) in Hb.
  unfold OS_Match2. rewrite Hc. cbn [mbind outcome_bind].
  change ((1 =? 0)%Z) with false. cbn iota. rewrite c_strlen_c_str by done.
  cbn [mbind outcome_bind]. rewrite Hr.
  cbn [mbind outcome_bind]. eexists. split; [done|]. unfold pattern_matches, pattern_negate.
  destruct (starts_with _ _), b; cbn; naive_solver.
Qed.

(** A pattern that is NULL or too long is refused, and nothing stays allocated. *)
Lemma OSMatch_Compile_errors pattern flags :
  (pattern = None ∧ OSMatch_Compile pattern flags =
     Ret (0%Z, mk_OSMatch 0 None OS_REGEX_PATTERN_NULL [] [] [])) ∨
  (∃ p, pattern = Some p ∧ (OS_PATTERN_MAXSIZE < Z.of_nat (String.length p))%Z ∧
     OSMatch_Compile pattern flags = Ret (0%Z, mk_OSMatch 0 None OS_REGEX_MAXSIZE [] [] [])) ∨
  (∃ p, pattern = Some p ∧ (Z.of_nat (String.length p) ≤ OS_PATTERN_MAXSIZE)%Z).
Proof.
  destruct pattern as [p|]; [right|by left].
  destruct (Z.ltb_spec OS_PATTERN_MAXSIZE (Z.of_nat (String.length p))) as [H|H].
  - left. exists p. split; [done|]. split; [done|]. unfold OSMatch_Compile.
    by rewrite (proj2 (Z.ltb_lt _ _) H).
  - right. by exists p.
Qed.

(** With [OS_CASE_SENSITIVE] the letters of the pattern keep their case, but the subject is
    compared in lower case: an upper-case letter in an alternative without anchors is never
    found. *)
Lemma lit_upper sg p c : tolower p ≠ p → ¬ lit sg p c.
Proof.
  intros Hp. unfold lit. rewrite literal_eq_ascii7.
  - rewrite bool_decide_eq_true. intros ->. apply Hp, tolower_idemp.
  - revert p Hp. apply (forall_ascii (λ p, tolower p ≠ p → is_ascii7 p = true)).
    vm_compute. reflexivity.
Qed.

Lemma occurs_impossible R b e t s c :
  c ∈ t → (∀ d, ¬ R c d) → ¬ occurs R b e t s.
Proof.
  intros Hc HR (pre & mid & post & _ & H & _).
  apply list_elem_of_lookup_1 in Hc as (i & Hi).
  destruct (Forall2_lookup_l _ _ _ _ _ H Hi) as (d & _ & Hd). by apply (HR d).
Qed.

Theorem osmatch_case_sensitive_misses sg pattern flags s :
  has_char NUL pattern = false → has_char NUL s = false →
  (Z.of_nat (String.length pattern) ≤ OS_PATTERN_MAXSIZE)%Z →
  flag_set flags OS_CASE_SENSITIVE = true →
  Forall (λ a, a ≠ [] ∧ parse_alt a = (false, false, a) ∧ Exists (λ c, tolower c ≠ c) a)
    (alternatives (chars (strip_bang pattern))) →
  ∃ reg, OSMatch_Compile (Some pattern) flags = Ret (1%Z, reg) ∧
    OSMatch_Execute sg (Some (c_str s)) (String.length s) (Some reg) =
      Ret (pattern_negate pattern, Some reg).
Proof.
  intros Hp Hs Hl Hf Hall. destruct (OSMatch_run sg pattern flags s Hp Hs Hl) as (reg & b & Hc & Hr & Hb).
  exists reg. split; [done|]. destruct b; [|done]. exfalso.
  destruct (proj1 (Exists_exists _ _) (proj1 Hb eq_refl)) as (a & Ha & Hfind).
  unfold pattern_alts, fold_case in Ha. rewrite Hf in Ha.
  destruct (proj1 (Forall_forall _ _) Hall a Ha) as (Hne & Hpa & (c & Hin & Hup)%Exists_exists).
  revert Hfind. unfold alt_finds, alt_fn. destruct a as [|c0 a]; [done|]. rewrite Hpa.
  apply (occurs_impossible _ _ _ _ _ c Hin). intros d. by apply lit_upper.
Qed.

(** Where [char] is signed, a byte above 127 in an alternative without anchors is never found
    either. *)
Lemma lit_non_ascii p c : is_ascii7 p = false → ¬ lit true p c.
Proof.
  intros Hp%char_int_negative. unfold lit, literal_eq. rewrite bool_decide_eq_true. lia.
Qed.

Theorem osmatch_signed_char_misses pattern s :
  has_char NUL pattern = false → has_char NUL s = false →
  (Z.of_nat (String.length pattern) ≤ OS_PATTERN_MAXSIZE)%Z →
  Forall (λ a, a ≠ [] ∧ parse_alt a = (false, false, a) ∧ Exists (λ c, is_ascii7 c = false) a)
    (pattern_alts pattern 0) →
  OS_Match2 true (Some pattern) s = Ret (pattern_negate pattern).
Proof.
  intros Hp Hs Hl Hall. destruct (OSMatch_run true pattern 0 s Hp Hs Hl) as (reg & b & Hc & Hr & Hb).
  unfold OS_Match2. rewrite Hc. cbn [mbind outcome_bind]. change ((1 =? 0)%Z) with false. cbn iota.
  rewrite c_strlen_c_str by done. cbn [mbind outcome_bind]. rewrite Hr.
  cbn [mbind outcome_bind]. destruct b.
  - exfalso. destruct (proj1 (Exists_exists _ _) (proj1 Hb eq_refl)) as (a & Ha & Hfind).
    destruct (proj1 (Forall_forall _ _) Hall a Ha) as (Hne & Hpa & (c & Hin & Hup)%Exists_exists).
    revert Hfind. unfold alt_finds, alt_fn. destruct a as [|c0 a]; [done|]. rewrite Hpa.
    apply (occurs_impossible _ _ _ _ _ c Hin). intros d. by apply lit_non_ascii.
  - unfold pattern_negate. by destruct (starts_with _ _).
Qed.
