(* ===== verification/OSRegex.v ===== *)
(** * Regular expressions (shared/os_regex: os_regex_compile.c, os_regex_execute.c, os_regex.c)

    [OSRegex_Compile] replaces every escape by the number of its row in [regexmap],
    closing parentheses by opening ones, splits the pattern at its bars and notes where
    the parentheses are.  [_OS_Regex] runs over the subject with one position in the
    pattern and at most four positions to come back to; [OSRegex_Execute_ex] tries the
    alternatives and copies out what the parentheses enclose.

    Positions in the pattern and in the subject are offsets.  The position in the
    subject is an integer, because the code steps back with [st--] and may return the
    position before the first character.  The loop runs on binary fuel. *)

From Stdlib Require Import Lia ZArith Ascii String.
From stdpp Require Import base numbers list strings.
From S2P Require Import Prelude CString RegexMaps OSMatch.

#[local] Open Scope list_scope.
#[local] Open Scope Z_scope.

Definition OS_REGEX_BADREGEX : Z := 6.
Definition OS_REGEX_BADPARENTHESIS : Z := 7.

Definition BEGIN_SET : Z := 128.
Definition END_SET : Z := 256.

(** ** The engine *)

(** The variables of [_OS_Regex]; [pt_error] and [pt_error_str] are one array of pairs. *)
Record rx : Type := mk_rx {
  r_code : option Z;
  regex_matched : bool;
  prts_str : list (option Z);
  st : Z;
  st_error : option Z;
  pt : nat;
  pt_error : list (option (nat * Z))
}.

Definition set_r_code (s : rx) (v : option Z) : rx :=
  mk_rx v (regex_matched s) (prts_str s) (st s) (st_error s) (pt s) (pt_error s).
Definition set_matched (s : rx) (v : bool) : rx :=
  mk_rx (r_code s) v (prts_str s) (st s) (st_error s) (pt s) (pt_error s).
Definition set_prts (s : rx) (v : list (option Z)) : rx :=
  mk_rx (r_code s) (regex_matched s) v (st s) (st_error s) (pt s) (pt_error s).
Definition set_st (s : rx) (v : Z) : rx :=
  mk_rx (r_code s) (regex_matched s) (prts_str s) v (st_error s) (pt s) (pt_error s).
Definition set_st_error (s : rx) (v : option Z) : rx :=
  mk_rx (r_code s) (regex_matched s) (prts_str s) (st s) v (pt s) (pt_error s).
Definition set_pt (s : rx) (v : nat) : rx :=
  mk_rx (r_code s) (regex_matched s) (prts_str s) (st s) (st_error s) v (pt_error s).
Definition set_pt_error (s : rx) (v : list (option (nat * Z))) : rx :=
  mk_rx (r_code s) (regex_matched s) (prts_str s) (st s) (st_error s) (pt s) v.

(** [st_error] is set by the first character that fits. *)
Definition note_start (s : rx) : rx :=
  match st_error s with None => set_st_error s (Some (st s)) | Some _ => s end.

(** How a part of the body of the loop ends. *)
Inductive ctl : Type :=
  | CReturn (r : option Z) (ps : list (option Z))
  | CContinue (s : rx)
  | CFall (s : rx).

(** The first free entry of [pt_error] is set; without one nothing is saved. *)
Definition save_error (e : list (option (nat * Z))) (v : nat * Z) : list (option (nat * Z)) :=
  match e with
  | [None; e1; e2; e3] => [Some v; e1; e2; e3]
  | [e0; None; e2; e3] => [e0; Some v; e2; e3]
  | [e0; e1; None; e3] => [e0; e1; Some v; e3]
  | [e0; e1; e2; None] => [e0; e1; e2; Some v]
  | _ => e
  end.

(** The last entry that is set, and the array without it. *)
Definition last_error (e : list (option (nat * Z)))
    : option (nat * Z * list (option (nat * Z))) :=
  match e with
  | [e0; e1; e2; Some v] => Some (v, [e0; e1; e2; None])
  | [e0; e1; Some v; e3] => Some (v, [e0; e1; None; e3])
  | [e0; Some v; e2; e3] => Some (v, [e0; None; e2; e3])
  | [Some v; e1; e2; e3] => Some (v, [None; e1; e2; e3])
  | _ => None
  end.

Section engine.
Context (char_signed : bool).
Context (pattern str : list ascii) (prts_closure : option (list (option nat))) (flags : Z).

Definition rd (k : nat) : outcome ascii := c_read pattern k.

Definition rd_st (i : Z) : outcome ascii :=
  if i <? 0 then Stuck OutOfBounds else c_read str (Z.to_nat i).

(** The search for [p] in [prts_closure], from the entry [i] on. *)
Fixpoint find_closure (cl : list (option nat)) (i p : nat) (v : Z) (ps : list (option Z))
    : outcome (list (option Z)) :=
  match cl with
  | [] => Stuck OutOfBounds
  | None :: _ => Ret ps
  | Some q :: cl => if (q =? p)%nat then c_write ps i (Some v) else find_closure cl (S i) p v ps
  end.

Definition record_prts (s : rx) (p : nat) (v : Z) : outcome rx :=
  match prts_closure with
  | None => Ret s
  | Some cl => ps ← find_closure cl 0 p v (prts_str s); Ret (set_prts s ps)
  end.

(** The subject need not end here, or it does. *)
Definition end_ok (s : rx) : outcome bool :=
  if negb (flag_set flags END_SET) then Ret true
  else c ← rd_st (st s); Ret (bool_decide (c = NUL)).

(** The [switch] at the start of the body. *)
Definition rx_switch (s : rx) : outcome ctl :=
  c ← rd (pt s);
  if bool_decide (c = NUL) then
    b ← end_ok s; Ret (if (b : bool) then CReturn (r_code s) (prts_str s) else CFall s)
  else if prts c then
    s ← record_prts s (pt s) (st s);
    let s := set_pt s (S (pt s)) in
    c ← rd (pt s);
    if bool_decide (c = NUL) then
      b ← end_ok s; Ret (if (b : bool) then CReturn (r_code s) (prts_str s) else CFall s)
    else Ret (CFall s)
  else Ret (CFall s).

(** The character fits an escape with a plus or a star for which [_regex_matched] is set:
    [next_pt] stands after the quantifier. *)
Definition rx_try_next (s : rx) (next_pt : nat) : outcome rx :=
  c ← rd next_pt;
  let next_pt := if prts c then S next_pt else next_pt in
  c ← rd next_pt;
  d ← rd_st (st s);
  '(s, ok_here) ←
    (if bool_decide (c = NUL) then Ret (s, 1)
     else if bool_decide (c = BACKSLASH) then
       k ← rd (next_pt + 1);
       b ← Regex k d;
       if (b : bool) then
         q ← rd (next_pt + 2);
         Ret (s, if negb (isPlus q) then 2 else 0)
       else Ret (s, -1)
     else
       m ← charmap_at d;
       if char_int char_signed c =? m then Ret (set_matched s false, 1) else Ret (s, -1));
  s ←
    (if 0 <=? ok_here then
       p ← match next_pt with O => Stuck OutOfBounds | S q => rd q end;
       s ← (if prts p then
              record_prts s (next_pt - 1)
                (if regex_matched s && (ok_here =? 1) then st s + 1 else st s)
            else Ret s);
       if bool_decide (c = NUL) then Ret s
       else
         let next_pt := (next_pt + Z.to_nat ok_here)%nat in
         let s := set_pt_error s (save_error (pt_error s) (pt s, st s)) in
         Ret (set_pt s next_pt)
     else Ret s);
  Ret (if bool_decide (c = NUL) then s else set_r_code s (Some (st s))).

(** The first character that fits an escape with a plus. *)
Definition rx_first_plus (s : rx) (next_pt : nat) : outcome rx :=
  s ←
    (match prts_closure with
     | None => Ret s
     | Some _ =>
         c ← rd next_pt;
         if prts c then
           d ← rd_st (st s + 1);
           record_prts s next_pt (if bool_decide (d = NUL) then st s + 1 else st s)
         else Ret s
     end);
  Ret (set_r_code (set_matched s true) (Some (st s))).

(** The character fits the escape at [pt]. *)
Definition rx_hit (s : rx) : outcome rx :=
  let next_pt := (pt s + 2)%nat in
  q ← rd next_pt;
  if negb (isPlus q) then
    let s := set_pt s next_pt in
    let s := note_start s in
    Ret (set_r_code s (Some (st s)))
  else
    let s := if bool_decide (q = "*"%char) then set_matched s true else s in
    if regex_matched s then rx_try_next s (next_pt + 1) else rx_first_plus s (next_pt + 1).

(** The escape at [pt] does not fit the character. *)
Definition rx_miss (s : rx) : outcome ctl :=
  q ← rd (pt s + 2);
  at_end ← (if bool_decide (q = NUL) then Ret true
            else c ← rd (pt s + 3); Ret (bool_decide (c = NUL)));
  if (at_end : bool) && regex_matched s && bool_decide (is_Some (r_code s)) then
    let s := set_r_code s (Some (st s)) in
    b ← end_ok s;
    Ret (if (b : bool) then CReturn (r_code s) (prts_str s) else CFall (set_matched s false))
  else if bool_decide (q = "+"%char) && regex_matched s then
    Ret (CContinue (set_matched (set_st (set_pt s (pt s + 3)%nat) (st s - 1)) false))
  else if bool_decide (q = "*"%char) then
    Ret (CContinue
      (set_matched (set_r_code (set_st (set_pt s (pt s + 3)%nat) (st s - 1)) (Some (st s - 1))) false))
  else Ret (CFall (set_matched s false)).

(** The comparison with one item of the pattern. *)
Definition rx_item (s : rx) : outcome ctl :=
  c ← rd (pt s);
  d ← rd_st (st s);
  if bool_decide (c = BACKSLASH) then
    k ← rd (pt s + 1);
    b ← Regex k d;
    if (b : bool) then s ← rx_hit s; Ret (CContinue s) else rx_miss s
  else
    m ← charmap_at d;
    if char_int char_signed c =? m then
      let s := set_pt s (S (pt s)) in
      let s := note_start s in
      Ret (CContinue (set_r_code s (Some (st s))))
    else Ret (CFall s).

(** The error handling at the end of the body. *)
Definition rx_error (s : rx) : ctl :=
  match last_error (pt_error s) with
  | Some (p, i, e) => CContinue (set_pt_error (set_st (set_pt s p) i) e)
  | None =>
      if flag_set flags BEGIN_SET then CReturn None (prts_str s)
      else
        let s :=
          match st_error s with
          | Some e => set_st_error (set_st s e) None
          | None => s
          end in
        CContinue (set_r_code (set_pt s 0) None)
  end.

Definition rx_body (s : rx) : outcome ctl :=
  a ← rx_switch s;
  match a with
  | CFall s =>
      b ← rx_item s;
      match b with
      | CFall s => Ret (rx_error s)
      | _ => Ret b
      end
  | _ => Ret a
  end.

(** One round of the [for] loop; it ends with the return value, or with the variables when
    the subject has been read. *)
Definition rx_step (s : rx) : outcome (rx + (option Z * list (option Z) + rx)) :=
  c ← rd_st (st s);
  if bool_decide (c = NUL) then Ret (inr (inr s))
  else
    b ← rx_body s;
    match b with
    | CReturn r ps => Ret (inr (inl (r, ps)))
    | CContinue s | CFall s => Ret (inl (set_st s (st s + 1)))
    end.

(** The macro [ENDOFFILE], which may skip a parenthesis. *)
Definition endoffile (p : nat) : outcome (bool * nat) :=
  c ← rd p;
  let p := if prts c then S p else p in
  c ← rd p;
  Ret (bool_decide (c = NUL), p).

(** [*pt == x] with the pointer moved by [n] when it holds. *)
Definition skip_if (f : ascii → bool) (p n : nat) : outcome (bool * nat) :=
  c ← rd p; Ret (if f c then (true, p + n)%nat else (false, p)).

(** Conjunction and disjunction with their side effects on the pointer. *)
Definition and_then (a : outcome (bool * nat)) (b : nat → outcome (bool * nat))
    : outcome (bool * nat) :=
  '(x, p) ← a; if (x : bool) then b p else Ret (false, p).
Definition or_else (a : outcome (bool * nat)) (b : nat → outcome (bool * nat))
    : outcome (bool * nat) :=
  '(x, p) ← a; if (x : bool) then Ret (true, p) else b p.

Definition is_backslash (c : ascii) : bool := bool_decide (c = BACKSLASH).
Definition is_star (c : ascii) : bool := bool_decide (c = "*"%char).

(** An optional escape with a star, up to the end of the pattern. *)
Definition star_to_end (p : nat) : outcome (bool * nat) :=
  and_then (skip_if is_backslash p 2) (λ p,
  and_then (skip_if is_star p 1) endoffile).

(** The condition of the clean-up. *)
Definition rx_final (s : rx) (p : nat) : outcome bool :=
  '(b, _) ←
    or_else (endoffile p) (λ p,
    or_else
      (and_then
         (c ← rd p;
          Ret (if is_backslash c && regex_matched s then (true, p + 2)%nat else (false, p))) (λ p,
       and_then (skip_if isPlus p 1) (λ p,
       or_else (endoffile p) star_to_end))) (λ p,
    star_to_end p));
  Ret b.

(** The skipping of escapes with a star before a last parenthesis. *)
Fixpoint skip_stars (fuel p : nat) : outcome nat :=
  match fuel with
  | O => Stuck OutOfFuel
  | S fuel =>
      c ← rd p;
      if prts c || bool_decide (c = NUL) then Ret p
      else if bool_decide (c = BACKSLASH) then
        q ← rd (p + 2);
        if bool_decide (q = "*"%char) then skip_stars fuel (p + 3) else Ret p
      else Ret p
  end.

(** What follows the loop. *)
Definition rx_finish (s : rx) : outcome (option Z * list (option Z)) :=
  s ←
    match prts_closure with
    | None => Ret s
    | Some _ =>
        p ← skip_stars (length pattern) (pt s);
        let s := set_pt s p in
        c ← rd p;
        if prts c then record_prts s p (st s) else Ret s
    end;
  b ← rx_final s (pt s);
  Ret (if (b : bool) then r_code s else None, prts_str s).

(** The number of rounds that are always enough. *)
Definition rx_fuel : positive :=
  Z.to_pos ((Z.of_nat (length str) + Z.of_nat (length pattern) + 2) ^ 7).

Definition _OS_Regex (ps : list (option Z)) : outcome (option Z * list (option Z)) :=
  r ← iterate rx_step rx_fuel
        (mk_rx (Some 0) false ps 0 None 0 [None; None; None; None]);
  match r with
  | inl _ => Stuck OutOfFuel
  | inr (inl r) => Ret r
  | inr (inr s) => rx_finish s
  end.

End engine.

(** ** Compilation *)

(** The sizes of the arrays below, in bytes. *)
Record regex_dynamic_size : Type := mk_size {
  sub_strings_size : Z;
  prts_str_size : option (list Z);
  prts_str_alloc_size : Z
}.

(** What the parentheses enclosed: the strings, and for each alternative the positions of
    its parentheses. *)
Record regex_matching : Type := mk_matching {
  rm_sub_strings : option (list (option (list ascii)));
  rm_prts_str : option (list (option (list (option Z))));
  rm_size : regex_dynamic_size
}.

(** [or_d] are the fields [d_sub_strings], [d_prts_str] and [d_size]. *)
Record OSRegex : Type := mk_OSRegex {
  or_error : Z;
  or_raw : option string;
  or_flags : list Z;
  or_patterns : list (option (list ascii));
  or_closure : option (list (option (list (option nat))));
  or_d : regex_matching
}.

Definition no_matching : regex_matching := mk_matching None None (mk_size 0 None 0).

(** [compile_error], after [error] was set: [OSRegex_FreePattern] leaves only the size
    [alloc] of the array of arrays. *)
Definition OSRegex_fail (error alloc : Z) : Z * OSRegex :=
  (0, mk_OSRegex error None [] [] None (mk_matching None None (mk_size 0 None alloc))).

(** The number of an escape. *)
Definition escape_code (c : ascii) : option ascii :=
  match c with
  | "d" => Some "001"
  | "w" => Some "002"
  | "s" => Some "003"
  | "p" => Some "004"
  | "(" => Some "005"
  | ")" => Some "006"
  | "\" => Some "007"
  | "D" => Some "008"
  | "W" => Some "009"
  | "S" => Some "010"
  | "." => Some "011"
  | "t" => Some "012"
  | "$" => Some "013"
  | "|" => Some "014"
  | "<" => Some "015"
  | _ => None
  end%char.

(** The first loop over the pattern: an error, or the rewritten pattern, what is open,
    the number of closing parentheses and the number of bars. *)
Fixpoint OSRegex_scan (flags : Z) (m : list ascii) (parenthesis : Z) (prts_size count : nat)
    : outcome (Z + (list ascii * Z * nat * nat)) :=
  match m with
  | [] => Stuck OutOfBounds
  | c :: m' =>
      if bool_decide (c = NUL) then Ret (inr (m, parenthesis, prts_size, count))
      else if bool_decide (c = BACKSLASH) then
        match m' with
        | [] => Stuck OutOfBounds
        | d :: m'' =>
            match escape_code d with
            | None => Ret (inl OS_REGEX_BADREGEX)
            | Some k =>
                r ← OSRegex_scan flags m'' parenthesis prts_size count;
                Ret (match r with
                     | inl e => inl e
                     | inr (l, a, b, n) => inr (c :: k :: l, a, b, n)
                     end)
            end
        end
      else
        let '(c, parenthesis, prts_size) :=
          if bool_decide (c = "("%char) then (c, parenthesis + 1, prts_size)
          else if bool_decide (c = ")"%char) then ("("%char, parenthesis - 1, S prts_size)
          else (c, parenthesis, prts_size) in
        if negb (parenthesis =? 0) && negb (parenthesis =? 1) then Ret (inl OS_REGEX_BADPARENTHESIS)
        else
          c ← (if flag_set flags OS_CASE_SENSITIVE then Ret c else to_char <$> charmap_at c);
          if bool_decide (c = OR) && negb (parenthesis =? 0)
          then Ret (inl OS_REGEX_BADPARENTHESIS)
          else
            r ← OSRegex_scan flags m' parenthesis prts_size
                  (if bool_decide (c = OR) then S count else count);
            Ret (match r with
                 | inl e => inl e
                 | inr (l, a, b, n) => inr (c :: l, a, b, n)
                 end)
  end.

(** The two loops over the parentheses of one alternative. *)
Fixpoint count_prts (p : list ascii) : outcome nat :=
  match p with
  | [] => Stuck OutOfBounds
  | c :: p =>
      if bool_decide (c = NUL) then Ret 0%nat
      else n ← count_prts p; Ret (if prts c then S n else n)
  end.

Fixpoint set_closures (p : list ascii) (off tmp_int prts_size : nat) (cl : list (option nat))
    (ps : list (option Z)) : outcome (option (list (option nat) * list (option Z))) :=
  match p with
  | [] => Stuck OutOfBounds
  | c :: p =>
      if bool_decide (c = NUL) then Ret (Some (cl, ps))
      else if prts c then
        if (prts_size <=? tmp_int)%nat then Ret None
        else
          cl ← c_write cl tmp_int (Some off);
          ps ← c_write ps tmp_int None;
          set_closures p (S off) (S tmp_int) prts_size cl ps
      else set_closures p (S off) tmp_int prts_size cl ps
  end.

(** The size of a pointer. *)
Definition PTR : Z := 8.

(** The closures of the alternative [i], with the pattern [p]; [None] is the error. *)
Definition OSRegex_closure (p : list ascii) (i : nat) (closures : list (option (list (option nat))))
    (d : regex_matching) (max_prts_size : nat)
    : outcome (option (list (option (list (option nat))) * regex_matching * nat)) :=
  n ← count_prts p;
  let max_prts_size := if (max_prts_size <? n)%nat then n else max_prts_size in
  let sizes :=
    match prts_str_size (rm_size d) with
    | None => replicate 2 0
    | Some l => <[S i:=0]> (c_realloc (λ _, 0) l (i + 2))
    end in
  sizes ← c_write sizes i (Z.of_nat (n + 1) * PTR);
  r ← set_closures p 0 0 n (replicate (n + 1) None) (replicate (n + 1) None);
  match r, rm_prts_str d with
  | None, _ => Ret None
  | _, None => Stuck NullDeref
  | Some (cl, ps), Some all =>
      closures ← c_write closures i (Some cl);
      all ← c_write all i (Some ps);
      Ret (Some (closures,
        mk_matching (rm_sub_strings d) (Some all)
          (mk_size (sub_strings_size (rm_size d)) (Some sizes) (prts_str_alloc_size (rm_size d))),
        max_prts_size))
  end.

(** The text of one alternative and its flags, from [new_str] to the NUL at [pt]. *)
Definition OSRegex_sub (m : list ascii) (new_str pt : nat) : outcome (list ascii * list ascii * Z) :=
  c ← c_read m new_str;
  let '(new_str, f) :=
    if bool_decide (c = BEGINREGEX) then (S new_str, BEGIN_SET) else (new_str, 0) in
  '(m, f) ←
    (if (new_str <? pt)%nat then
       l ← c_prev m pt;
       if bool_decide (l = ENDREGEX) then m ← c_write m (pt - 1) NUL; Ret (m, Z.lor f END_SET)
       else Ret (m, f)
     else Ret (m, f));
  s ← c_at m new_str;
  p ← c_strdup s;
  Ret (m, p, f).

(** The second loop; [None] is an error. *)
Fixpoint OSRegex_split (fuel : nat) (m : list ascii) (new_str pt i : nat)
    (reg : OSRegex) (max_prts_size : nat) : outcome (option (OSRegex * nat)) :=
  match fuel with
  | O => Stuck OutOfFuel
  | S fuel =>
      c ← c_read m pt;
      if bool_decide (c = OR) || bool_decide (c = NUL) then
        m ← c_write m pt NUL;
        '(m, p, f) ← OSRegex_sub m new_str pt;
        flags ← c_write (or_flags reg) i f;
        patterns ← c_write (or_patterns reg) i (Some p);
        r ←
          match or_closure reg with
          | None => Ret (Some (None, or_d reg, max_prts_size))
          | Some cls =>
              r ← OSRegex_closure p i cls (or_d reg) max_prts_size;
              Ret (match r with
                   | None => None
                   | Some (cls, d, mx) => Some (Some cls, d, mx)
                   end)
          end;
        match r with
        | None => Ret None
        | Some (cls, d, max_prts_size) =>
            let reg := mk_OSRegex (or_error reg) (or_raw reg) flags patterns cls d in
            if bool_decide (c = NUL) then Ret (Some (reg, max_prts_size))
            else OSRegex_split fuel m (S pt) (S pt) (S i) reg max_prts_size
        end
      else OSRegex_split fuel m new_str (S pt) i reg max_prts_size
  end.

Definition OSRegex_Compile (pattern : option string) (flags : Z) : outcome (Z * OSRegex) :=
  match pattern with
  | None => Ret (OSRegex_fail OS_REGEX_PATTERN_NULL 0)
  | Some pattern =>
      if OS_PATTERN_MAXSIZE <? Z.of_nat (String.length pattern)
      then Ret (OSRegex_fail OS_REGEX_MAXSIZE 0)
      else
        r ← OSRegex_scan flags (c_str pattern) 0 0 0;
        match r with
        | inl e => Ret (OSRegex_fail e 0)
        | inr (m, parenthesis, prts_size, count) =>
            if negb (parenthesis =? 0) then Ret (OSRegex_fail OS_REGEX_BADPARENTHESIS 0)
            else
              let cells := (S count + 1)%nat in
              let sub := (0 <? prts_size)%nat && flag_set flags OS_RETURN_SUBSTRING in
              let reg :=
                mk_OSRegex 0 (Some pattern) (replicate cells 0) (replicate cells None)
                  (if sub then Some (replicate cells None) else None)
                  (if sub
                   then mk_matching None (Some (replicate cells None))
                          (mk_size 0 None (Z.of_nat cells * PTR))
                   else no_matching) in
              r ← OSRegex_split (length m) m 0 0 0 reg 0;
              match r with
              | None => Ret (OSRegex_fail OS_REGEX_BADPARENTHESIS (if sub then Z.of_nat cells * PTR else 0))
              | Some (reg, max_prts_size) =>
                  let n := (max_prts_size + 1)%nat in
                  Ret (1, mk_OSRegex (or_error reg) (or_raw reg) (or_flags reg) (or_patterns reg)
                            (or_closure reg)
                            (mk_matching (Some (replicate n None)) (rm_prts_str (or_d reg))
                               (mk_size (Z.of_nat n * PTR) (prts_str_size (rm_size (or_d reg)))
                                  (prts_str_alloc_size (rm_size (or_d reg))))))
              end
        end
  end.

(** ** Arrays *)

(** [size_t] arithmetic. *)
Definition size_t (z : Z) : Z := z mod 2 ^ 64.

Definition cells_of (bytes : Z) : nat := Z.to_nat (bytes / PTR).

(** [realloc] to [n] cells and [memset] of those from [old] on: the array of a context is
    enlarged, or allocated if there is none. *)
Definition grow {A} (zero : A) (a : option (list A)) (old n : nat) : list A :=
  match a with
  | None => replicate n zero
  | Some l => take old (c_realloc (λ _, zero) l n) ++ replicate (n - old) zero
  end.

(** The macro [w_FreeArray]. *)
Fixpoint w_FreeArray {A} (l : list (option A)) : outcome (list (option A)) :=
  match l with
  | [] => Stuck OutOfBounds
  | None :: l => Ret (None :: l)
  | Some _ :: l => l ← w_FreeArray l; Ret (None :: l)
  end.

Definition free_sub_strings (m : regex_matching) : outcome regex_matching :=
  match rm_sub_strings m with
  | None => Ret m
  | Some l => l ← w_FreeArray l; Ret (mk_matching (Some l) (rm_prts_str m) (rm_size m))
  end.

(** ** Release *)

(** The loop that frees what the pointers of an array point to, up to the null pointer; an
    array that was not allocated is left out. *)
Fixpoint free_cells {A} (l : list (option A)) : outcome unit :=
  match l with
  | [] => Stuck OutOfBounds
  | None :: _ => Ret tt
  | Some _ :: l => free_cells l
  end.

Definition free_array {A} (a : option (list (option A))) : outcome unit :=
  match a with None => Ret tt | Some l => free_cells l end.

Definition freed_matching (m : regex_matching) : regex_matching :=
  mk_matching None None
    (mk_size (sub_strings_size (rm_size m)) None (prts_str_alloc_size (rm_size m))).

Definition OSRegex_FreePattern (reg : OSRegex) : outcome OSRegex :=
  _ ← match or_patterns reg with [] => Ret tt | l => free_cells l end;
  _ ← free_array (or_closure reg);
  _ ← free_array (rm_prts_str (or_d reg));
  _ ← free_array (rm_sub_strings (or_d reg));
  Ret (mk_OSRegex (or_error reg) None [] [] None (freed_matching (or_d reg))).

(** The loop over the arrays of positions, as long as their sizes are not 0. *)
Fixpoint free_prts (sizes : list Z) (all : list (option (list (option Z)))) : outcome unit :=
  match sizes with
  | [] => Stuck OutOfBounds
  | n :: sizes =>
      if n =? 0 then Ret tt
      else
        match all with
        | [] => Stuck OutOfBounds
        | None :: _ => Ret tt
        | Some _ :: all => free_prts sizes all
        end
  end.

Definition OSRegex_free_regex_matching (m : regex_matching) : outcome regex_matching :=
  _ ← free_array (rm_sub_strings m);
  _ ← match rm_prts_str m with
      | None => Ret tt
      | Some all => sizes ← c_deref (prts_str_size (rm_size m)); free_prts sizes all
      end;
  Ret (freed_matching m).

(** ** Execution *)

(** The strings of the context have room for those of [reg]. *)
Definition grow_sub_strings (reg : OSRegex) (m : regex_matching) : regex_matching :=
  let n := sub_strings_size (rm_size (or_d reg)) in
  let old := sub_strings_size (rm_size m) in
  if old <? n then
    mk_matching (Some (grow None (rm_sub_strings m) (cells_of old) (cells_of n))) (rm_prts_str m)
      (mk_size n (prts_str_size (rm_size m)) (prts_str_alloc_size (rm_size m)))
  else m.

(** The array of position arrays has a cell for every alternative of [reg], and so has the
    array of their sizes, whose cells are [int]s. *)
Definition grow_prts_alloc (reg : OSRegex) (m : regex_matching) : regex_matching :=
  let n := prts_str_alloc_size (rm_size (or_d reg)) in
  let old := prts_str_alloc_size (rm_size m) in
  if old <? n then
    mk_matching (rm_sub_strings m)
      (Some (grow None (Some (default [] (rm_prts_str m))) (cells_of old) (cells_of n)))
      (mk_size (sub_strings_size (rm_size m))
         (Some (grow 0 (prts_str_size (rm_size m)) (2 * cells_of old) (2 * cells_of n))) n)
  else m.

(** The array of positions [i] gets the size [n]. *)
Definition grow_cell (n : Z) (i : nat) (all : list (option (list (option Z)))) (have : list Z)
    : outcome (list (option (list (option Z))) * list Z) :=
  h ← c_read have i;
  cell ← c_read all i;
  if h =? 0 then
    all ← c_write all i (Some (replicate (cells_of n) None));
    have ← c_write have i n; Ret (all, have)
  else if h <? n then
    all ← c_write all i (Some (grow None cell (cells_of h) (cells_of n)));
    have ← c_write have i n; Ret (all, have)
  else Ret (all, have).

(** The loop over the sizes of [reg] from the alternative [i] on. *)
Fixpoint grow_prts (sizes : list Z) (i : nat) (all : list (option (list (option Z)))) (have : list Z)
    : outcome (list (option (list (option Z))) * list Z) :=
  match sizes with
  | [] => Stuck OutOfBounds
  | n :: sizes =>
      if n =? 0 then Ret (all, have)
      else '(all, have) ← grow_cell n i all have; grow_prts sizes (S i) all have
  end.

Definition grow_prts_str (reg : OSRegex) (m : regex_matching) : outcome regex_matching :=
  let m := grow_prts_alloc reg m in
  match prts_str_size (rm_size (or_d reg)) with
  | None => Ret m
  | Some sizes =>
      all ← c_deref (rm_prts_str m);
      have ← c_deref (prts_str_size (rm_size m));
      '(all, have) ← grow_prts sizes 0 all have;
      Ret (mk_matching (rm_sub_strings m) (Some all)
             (mk_size (sub_strings_size (rm_size m)) (Some have) (prts_str_alloc_size (rm_size m))))
  end.

(** The text that [strncpy] copies: at most [n] characters. *)
Fixpoint text_upto (m : list ascii) (n : Z) : list ascii :=
  match m with
  | [] => []
  | c :: m => if (n <=? 0) || bool_decide (c = NUL) then [] else c :: text_upto m (n - 1)
  end.

Section execute.
Context (char_signed : bool) (malloc_ok : Z → bool).

(** The strings between each two positions from [j] on are stored from [k] on; [None]: a
    string could not be allocated. *)
Fixpoint copy_sub_strings (fuel : nat) (str : list ascii) (ps : list (option Z)) (j k : nat)
    (subs : list (option (list ascii))) : outcome (bool * list (option (list ascii))) :=
  match fuel with
  | O => Stuck OutOfFuel
  | S fuel =>
      a ← c_read ps j;
      match a with
      | None => Ret (true, subs)
      | Some o =>
          b ← c_read ps (j + 1);
          match b with
          | None => Ret (true, subs)
          | Some c =>
              let length := size_t (c - o) in
              let size := size_t (length + 1) in
              if negb (malloc_ok size) then
                subs ← w_FreeArray subs; Ret (false, subs)
              else if size <=? length then Stuck OutOfBounds
              else if o <? 0 then Stuck OutOfBounds
              else
                s ← c_at str (Z.to_nat o);
                subs ← c_write subs k (Some (text_upto s length));
                subs ← c_write subs (k + 1) None;
                copy_sub_strings fuel str ps (j + 2) (k + 1) subs
          end
      end
  end.

(** The loop over the alternatives of a pattern with parentheses. *)
Fixpoint execute_closures (fuel : nat) (str : list ascii) (reg : OSRegex)
    (closures : list (option (list (option nat)))) (i : nat) (m : regex_matching)
    : outcome (option Z * regex_matching) :=
  match fuel with
  | O => Stuck OutOfFuel
  | S fuel =>
      p ← c_read (or_patterns reg) i;
      match p with
      | None => Ret (None, m)
      | Some p =>
          all ← c_deref (rm_prts_str m);
          cell ← c_read all i;
          ps ← c_deref cell;
          sizes ← c_deref (prts_str_size (rm_size m));
          n ← c_read sizes i;
          ps ← c_store ps 0 (replicate (cells_of n) None);
          cl ← c_read closures i;
          f ← c_read (or_flags reg) i;
          '(r, ps) ← _OS_Regex char_signed p str cl f ps;
          let m := mk_matching (rm_sub_strings m) (Some (<[i:=Some ps]> all)) (rm_size m) in
          match r with
          | None => execute_closures fuel str reg closures (S i) m
          | Some r =>
              match rm_sub_strings m with
              | None =>
                  o ← c_read ps 0;
                  match o with
                  | None => Ret (Some r, m)
                  | Some _ => c ← c_read ps 1; Ret (match c with None => Some r | Some _ => None end, m)
                  end
              | Some subs =>
                  '(ok, subs) ← copy_sub_strings (length ps) str ps 0 0 subs;
                  Ret (if (ok : bool) then Some r else None,
                       mk_matching (Some subs) (rm_prts_str m) (rm_size m))
              end
          end
      end
  end.

(** The loop over the alternatives when nothing is copied out. *)
Fixpoint execute_plain (fuel : nat) (str : list ascii) (reg : OSRegex) (i : nat) : outcome (option Z) :=
  match fuel with
  | O => Stuck OutOfFuel
  | S fuel =>
      p ← c_read (or_patterns reg) i;
      match p with
      | None => Ret None
      | Some p =>
          f ← c_read (or_flags reg) i;
          '(r, _) ← _OS_Regex char_signed p str None f [];
          match r with
          | None => execute_plain fuel str reg (S i)
          | Some r => Ret (Some r)
          end
      end
  end.

(** [OSRegex_Execute_ex] on the own arrays of [reg] or on a context; the position it returns
    is an offset in the subject. *)
Definition OSRegex_Execute_ex (str : option (list ascii)) (reg : OSRegex)
    (regex_match : option regex_matching) : outcome (option Z * OSRegex * option regex_matching) :=
  m ←
    match regex_match with
    | Some m => free_sub_strings (grow_sub_strings reg m) ≫= grow_prts_str reg
    | None => free_sub_strings (or_d reg)
    end;
  '(r, m) ←
    match str with
    | None => Ret (None, m)
    | Some str =>
        let fuel := length (or_patterns reg) in
        match or_closure reg with
        | Some closures => execute_closures fuel str reg closures 0 m
        | None => r ← execute_plain fuel str reg 0; Ret (r, m)
        end
    end;
  Ret
    match regex_match with
    | Some _ => (r, reg, Some m)
    | None =>
        (r, mk_OSRegex (or_error reg) (or_raw reg) (or_flags reg) (or_patterns reg) (or_closure reg) m,
         None)
    end.

Definition OSRegex_Execute (str : option (list ascii)) (reg : OSRegex)
    : outcome (option Z * OSRegex) :=
  '(r, reg, _) ← OSRegex_Execute_ex str reg None; Ret (r, reg).

Definition OS_Regex (pattern : option string) (str : option (list ascii)) : outcome Z :=
  '(ok, reg) ← OSRegex_Compile pattern 0;
  if ok =? 0 then Ret 0
  else
    '(r, reg) ← OSRegex_Execute str reg;
    _ ← OSRegex_FreePattern reg;
    Ret (if bool_decide (is_Some r) then 1 else 0).

End execute.
