(* ===== verification/RegexSafe.v ===== *)
(** * Safety and termination of the regular expressions

    For every pattern that [OSRegex_Compile] accepts and every subject, [_OS_Regex] reads
    and writes inside its blocks and comes to an end.  The rounds of its loop are ranked by
    the start of the attempt, the positions it may come back to, the position in the
    subject and the position in the pattern, in this order. *)

From Stdlib Require Import Lia ZArith Ascii String.
From stdpp Require Import base numbers list strings.
From S2P Require Import Prelude CString RegexMaps OSMatch OSRegex.

#[local] Open Scope list_scope.
#[local] Open Scope Z_scope.

(** The number of an escape. *)
Definition is_code (c : ascii) : bool := (1 <=? uchar c)%nat && (uchar c <=? 15)%nat.

(** A compiled alternative: every backslash is followed by the number of an escape. *)
Fixpoint wfp (l : list ascii) : bool :=
  match l with
  | [] => true
  | c :: l =>
      if bool_decide (c = BACKSLASH) then
        match l with d :: l => is_code d && wfp l | [] => false end
      else negb (bool_decide (c = NUL)) && wfp l
  end.

(** ** Numbers in a mixed order *)

(** The value of the digits [l] in the base [B], the first one the highest. *)
Fixpoint value (B : Z) (l : list Z) : Z :=
  match l with [] => 0 | d :: l => d * B ^ Z.of_nat (length l) + value B l end.

Definition digit (B d : Z) : Prop := 0 ≤ d < B.

Lemma value_bound B l : 0 < B → Forall (digit B) l → 0 ≤ value B l < B ^ Z.of_nat (length l).
Proof.
  intros HB. induction 1 as [|d l Hd Hl IH]; [done|]. cbn [value length].
  rewrite Nat2Z.inj_succ, Z.pow_succ_r by lia. unfold digit in Hd. nia.
Qed.

(** The first digit that grows decides. *)
Lemma value_lt B pre d d' l l' :
  0 < B → length l = length l' → Forall (digit B) l → Forall (digit B) l' → d < d' →
  value B (pre ++ d :: l) < value B (pre ++ d' :: l').
Proof.
  intros HB Hlen Hl Hl' Hd. induction pre as [|x pre IH]; cbn [app value].
  - pose proof (value_bound B l HB Hl). pose proof (value_bound B l' HB Hl').
    rewrite Hlen in *. nia.
  - rewrite !length_app. cbn [length]. rewrite Hlen. lia.
Qed.

(** ** The positions to come back to *)

(** The array [pt_error] with the entries [k]. *)
Definition stack4 (k : list (nat * Z)) : list (option (nat * Z)) :=
  (Some <$> k) ++ replicate (4 - length k) None.

Lemma save_error_stack k v :
  (length k ≤ 4)%nat →
  save_error (stack4 k) v = stack4 (if (length k <? 4)%nat then k ++ [v] else k).
Proof. destruct k as [|? [|? [|? [|? [|]]]]]; intros; simpl in *; (done || lia). Qed.

Lemma last_error_snoc k v :
  (length k ≤ 3)%nat → last_error (stack4 (k ++ [v])) = Some (v, stack4 k).
Proof. destruct k as [|? [|? [|? [|]]]], v; intros; simpl in *; (done || lia). Qed.

Lemma last_error_nil : last_error (stack4 []) = None.
Proof. done. Qed.

Section safe.
Context (sg : bool) (body subj junk : list ascii) (closure : option (list (option nat))) (flags : Z).
Context (marked cells : nat).

Abbreviation P := (body ++ [NUL]).
Abbreviation T := (subj ++ NUL :: junk).
Abbreviation n := (Z.of_nat (length subj)).

Context (Hwf : wfp body = true) (Hsubj : NUL ∉ subj).

(** The closures end with a NULL; each of the [marked] parentheses has a cell for its
    position. *)
Definition closure_ok : Prop :=
  (marked ≤ cells)%nat ∧
  match closure with
  | None => marked = 0%nat
  | Some cl => ∃ qs, cl = (Some <$> qs) ++ [None] ∧ length qs = marked
  end.

Context (Hcl : closure_ok).

(** The start of an item of the pattern, or its end. *)
Definition bd (k : nat) : Prop := (k ≤ length body)%nat ∧ wfp (drop k body) = true.

Lemma bd_0 : bd 0.
Proof. split; [lia|]. by rewrite drop_0. Qed.

Lemma bd_inv k :
  bd k →
  (rd P k = Ret NUL ∧ k = length body) ∨
  (∃ c, rd P k = Ret c ∧ c ≠ NUL ∧ c ≠ BACKSLASH ∧ bd (S k)) ∨
  (∃ d, rd P k = Ret BACKSLASH ∧ rd P (k + 1) = Ret d ∧ (1 ≤ uchar d ≤ 15)%nat ∧ bd (k + 2)).
Proof.
  intros [Hk Hw]. destruct (decide (k = length body)) as [->|Hne].
  { left. split; [|done]. apply c_read_head. }
  right. destruct (lookup_lt_is_Some_2 body k) as [c Hc]; [lia|].
  assert (∀ i d, body !! i = Some d → rd P i = Ret d) as Hrd.
  { intros i d Hi. apply c_read_Some. rewrite lookup_app_l; [done|]. by eapply lookup_lt_Some. }
  rewrite (drop_S _ _ _ Hc) in Hw. cbn [wfp] in Hw. case_bool_decide as Hb.
  - right. destruct (drop (S k) body) as [|d l] eqn:Ed; [done|].
    apply andb_true_iff in Hw as [Hd Hw]. subst c.
    assert (body !! S k = Some d) as Hd'.
    { rewrite <-(Nat.add_0_r (S k)), <-lookup_drop, Ed. done. }
    exists d. rewrite Nat.add_1_r. split; [by apply Hrd|]. split; [by apply Hrd|].
    unfold is_code in Hd. apply andb_true_iff in Hd as [H1%Nat.leb_le H2%Nat.leb_le].
    split; [lia|]. apply lookup_lt_Some in Hd' as Hlt. split; [lia|].
    rewrite (drop_S _ _ _ Hd') in Ed. simplify_eq. by rewrite Nat.add_comm.
  - left. apply andb_true_iff in Hw as [Hn Hw]. exists c. split; [by apply Hrd|].
    split; [|split; [done|split; [lia|done]]]. by case_bool_decide.
Qed.

(** Every position up to the terminator can be read. *)
Lemma rd_le k : (k ≤ length body)%nat → ∃ c, rd P k = Ret c.
Proof.
  intros Hk. destruct (lookup_lt_is_Some_2 P k) as [c Hc]; [rewrite length_app; simpl; lia|].
  exists c. by apply c_read_Some.
Qed.

Lemma rd_st_lt i : 0 ≤ i < n → ∃ c, rd_st T i = Ret c ∧ c ≠ NUL.
Proof.
  intros Hi. destruct (lookup_lt_is_Some_2 subj (Z.to_nat i)) as [c Hc]; [lia|].
  exists c. split.
  - unfold rd_st. rewrite (proj2 (Z.ltb_ge _ _)) by lia. apply c_read_Some.
    rewrite lookup_app_l; [done|]. by eapply lookup_lt_Some.
  - intros ->. apply Hsubj. by eapply list_elem_of_lookup_2.
Qed.

Lemma rd_st_end : rd_st T n = Ret NUL.
Proof.
  unfold rd_st. rewrite (proj2 (Z.ltb_ge _ _)) by lia. rewrite Nat2Z.id. apply c_read_head.
Qed.

Lemma rd_st_le i : 0 ≤ i ≤ n → ∃ c, rd_st T i = Ret c.
Proof.
  intros Hi. destruct (decide (i = n)) as [->|Hne]; [by eexists; apply rd_st_end|].
  destruct (rd_st_lt i) as (c & ? & _); [lia|]. by exists c.
Qed.

(** ** The invariant *)

(** The positions lie in the subject, and only those of parentheses are set. *)
Definition prts_ok (ps : list (option Z)) : Prop :=
  length ps = cells ∧ Forall (λ o, ∀ v, o = Some v → 0 ≤ v ≤ n) ps ∧
  ∀ i v, ps !! i = Some (Some v) → (i < marked)%nat.

Definition code_ok (r : option Z) : Prop := ∀ v, r = Some v → -1 ≤ v ≤ n.

(** The attempt started at [f]; [k] are the positions to come back to. *)
Record inv (f : Z) (k : list (nat * Z)) (s : rx) : Prop := {
  inv_st : 0 ≤ f ∧ f ≤ st s ∧ st s ≤ n;
  inv_pt : bd (pt s);
  inv_st_error : ∀ e, st_error s = Some e → f ≤ e < n;
  inv_stack : pt_error s = stack4 k;
  inv_len : (length k ≤ 4)%nat;
  inv_saved : Forall (λ e, bd e.1 ∧ f ≤ e.2 < n) k;
  inv_code : code_ok (r_code s);
  inv_prts : prts_ok (prts_str s)
}.

Lemma find_closure_ok cl qs i p v ps :
  cl = (Some <$> qs) ++ [None] → (i + length qs = marked)%nat → prts_ok ps → 0 ≤ v ≤ n →
  ∃ ps', find_closure cl i p v ps = Ret ps' ∧ prts_ok ps'.
Proof.
  intros -> Hi Hps Hv. destruct Hcl as [Hmc _]. revert i Hi.
  induction qs as [|q qs IH]; intros i Hi; [by exists ps|].
  cbn [fmap list_fmap app find_closure]. simpl in Hi. case_match; [|apply IH; lia].
  destruct Hps as (Hl & Hps & Hm). rewrite c_write_lt by lia. eexists. split; [done|].
  split; [by rewrite length_insert|]. split.
  - apply Forall_insert; [done|]. intros w [= <-]. done.
  - intros j w. rewrite list_lookup_insert_Some. intros [(<- & _ & _)|[_ Hj]]; [lia|by eapply Hm].
Qed.

Lemma record_prts_ok s p v :
  prts_ok (prts_str s) → 0 ≤ v ≤ n →
  ∃ ps, record_prts closure s p v = Ret (set_prts s ps) ∧ prts_ok ps.
Proof.
  intros Hps Hv. unfold record_prts. destruct Hcl as [_ Hc]. destruct closure as [cl|] eqn:Ecl.
  - destruct Hc as (qs & Hq & Hlen).
    destruct (find_closure_ok cl qs 0 p v (prts_str s) Hq) as (ps & -> & Hok); [lia|done..|].
    by exists ps.
  - exists (prts_str s). by destruct s.
Qed.

Lemma end_ok_ret s : 0 ≤ st s ≤ n → ∃ b, end_ok T flags s = Ret b.
Proof.
  intros Hs. unfold end_ok. case_match; [by eexists|].
  destruct (rd_st_le (st s) Hs) as (c & ->). by eexists.
Qed.

(** A state that differs only in what the attempt records. *)
Lemma inv_set f k s s' :
  inv f k s → st s' = st s → pt_error s' = pt_error s → bd (pt s') →
  (∀ e, st_error s' = Some e → f ≤ e < n) → code_ok (r_code s') → prts_ok (prts_str s') →
  inv f k s'.
Proof. intros [] Est Epe **. split; rewrite ?Est, ?Epe; done. Qed.

(** The [switch] reads the parenthesis at [pt], if there is one. *)
Lemma rx_switch_ok f k s :
  inv f k s → st s < n →
  ∃ a, rx_switch P T closure flags s = Ret a ∧
    match a with
    | CReturn r ps => code_ok r ∧ prts_ok ps
    | CFall s' => inv f k s' ∧ st s' = st s ∧ st_error s' = st_error s ∧ (pt s ≤ pt s')%nat
    | CContinue _ => False
    end.
Proof.
  intros HI Hst. pose proof (inv_st _ _ _ HI) as Hf. unfold rx_switch.
  destruct (bd_inv (pt s) (inv_pt _ _ _ HI)) as [[-> _]|[(c & -> & Hc & Hb & Hbd)|(d & -> & _)]];
    cbn [mbind outcome_bind].
  - rewrite bool_decide_eq_true_2 by done. destruct (end_ok_ret s) as (b & ->); [lia|].
    cbn [mbind outcome_bind]. eexists. split; [done|]. destruct b; [split; apply HI|done].
  - rewrite bool_decide_eq_false_2 by done. destruct (prts c); [|by eexists; split; [done|]].
    destruct (record_prts_ok s (pt s) (st s)) as (ps & -> & Hps); [apply HI|lia|].
    cbn [mbind outcome_bind]. set (s' := set_pt (set_prts s ps) (S (pt s))).
    change (set_pt (set_prts s ps) (S (pt (set_prts s ps)))) with s'.
    assert (inv f k s') as HI' by (apply (inv_set f k s); [done..|apply HI|apply HI|done]).
    assert (inv f k s' ∧ st s' = st s ∧ st_error s' = st_error s ∧ (pt s ≤ pt s')%nat) as Hfall
      by (split_and!; [done..|simpl; lia]).
    destruct (rd_le (pt s')) as (c' & ->); [apply Hbd|]. cbn [mbind outcome_bind].
    case_bool_decide; [|by eexists; split; [done|]].
    destruct (end_ok_ret s') as (b & ->); [simpl; lia|]. cbn [mbind outcome_bind].
    eexists. split; [done|]. destruct b; [split; apply HI'|done].
  - rewrite bool_decide_eq_false_2 by done. by eexists; split; [done|].
Qed.

(** A character of the subject has been consumed, with the stack unchanged or a position
    saved on it. *)
Definition consumed (f : Z) (k : list (nat * Z)) (s s' : rx) : Prop :=
  st s' = st s ∧
  (inv f k s' ∨ (length k < 4)%nat ∧ ∃ v, v.2 = st s ∧ inv f (k ++ [v]) s').

Lemma code_ok_st s : 0 ≤ st s ≤ n → code_ok (Some (st s)).
Proof. intros Hs v [= <-]. lia. Qed.

(** [ok_here] and where it leads. *)
Lemma try_next_choice s np d :
  bd np →
  ∃ c m ok, rd P np = Ret c ∧
    (if bool_decide (c = NUL) then Ret (s, 1)
     else if bool_decide (c = BACKSLASH) then
       k ← rd P (np + 1);
       b ← Regex k d;
       if (b : bool) then
         q ← rd P (np + 2);
         Ret (s, if negb (isPlus q) then 2 else 0)
       else Ret (s, -1)
     else
       m ← charmap_at d;
       if char_int sg c =? m then Ret (set_matched s false, 1) else Ret (s, -1)) =
      Ret (set_matched s m, ok) ∧
    (0 ≤ ok → c ≠ NUL → bd (np + Z.to_nat ok)).
Proof.
  intros Hb. destruct (bd_inv np Hb) as [[Hr _]|[(c & Hr & Hn & Hs & Hb')|(e & Hr & Hr1 & He & Hb')]].
  - exists NUL, (regex_matched s), 1. split; [done|]. split; [by destruct s|done].
  - exists c. rewrite !bool_decide_eq_false_2 by done. rewrite charmap_spec. cbn [mbind outcome_bind].
    case_match; [exists false, 1|exists (regex_matched s), (-1)]; (split; [done|]);
      (split; [by destruct s|]); intros ? _; [|lia]. by rewrite Nat.add_1_r.
  - exists BACKSLASH. rewrite bool_decide_eq_false_2, bool_decide_eq_true_2 by done.
    rewrite Hr1. cbn [mbind outcome_bind]. rewrite regexmap_spec by done. cbn [mbind outcome_bind].
    destruct (class_of (uchar e) d).
    + destruct (rd_le (np + 2)) as (q & ->); [apply Hb'|]. cbn [mbind outcome_bind].
      exists (regex_matched s). eexists. split; [done|]. split; [by destruct s|].
      destruct (isPlus q); intros _ _; simpl; [by rewrite Nat.add_0_r|done].
    + exists (regex_matched s), (-1). split; [done|]. split; [by destruct s|]. lia.
Qed.

Lemma rx_try_next_ok f k s np :
  inv f k s → st s < n → bd np → (0 < np)%nat →
  ∃ s', rx_try_next sg P T closure s np = Ret s' ∧ consumed f k s s'.
Proof.
  intros HI Hst Hb Hpos. pose proof (inv_st _ _ _ HI) as Hf. unfold rx_try_next.
  destruct (rd_le np) as (c0 & Hc0); [apply Hb|]. rewrite Hc0. cbn [mbind outcome_bind].
  set (np' := if prts c0 then S np else np).
  assert (bd np' ∧ (0 < np')%nat) as [Hb' Hpos'].
  { subst np'. unfold prts. case_bool_decide as Hp; [|done]. split; [|lia].
    destruct (bd_inv np Hb) as [[Hr _]|[(c & Hr & _ & _ & Hb')|(e & Hr & _)]]; [|done|];
      rewrite Hr in Hc0; by simplify_eq. }
  destruct (rd_st_lt (st s)) as (d & -> & _); [lia|].
  destruct (try_next_choice s np' d Hb') as (c & m & ok & -> & Hch & Hok).
  cbn [mbind outcome_bind]. rewrite Hch. cbn [mbind outcome_bind]. clear Hch.
  destruct np' as [|q]; [lia|]. destruct (rd_le q) as (p & ->); [destruct Hb'; lia|].
  set (s1 := set_matched s m).
  assert (inv f k s1) as HI1 by (apply (inv_set f k s); [done|done|done|apply HI..]).
  destruct (Z.leb_spec 0 ok) as [Hok0|Hok0]; cbn [mbind outcome_bind].
  - assert (∃ ps, (if prts p then record_prts closure s1 (S q - 1)
       (if regex_matched s1 && (ok =? 1) then st s1 + 1 else st s1) else Ret s1) = Ret (set_prts s1 ps) ∧
       prts_ok ps) as (ps & -> & Hps).
    { destruct (prts p); [|by exists (prts_str s); split; [by destruct s|apply HI]].
      apply record_prts_ok; [apply HI|]. destruct (_ && _); simpl; lia. }
    cbn [mbind outcome_bind]. case_bool_decide as Hc.
    + eexists. split; [done|]. split; [done|]. left. apply (inv_set f k s1); [done|done|done|apply HI..|done].
    + eexists. split; [done|]. split; [done|].
      pose proof (save_error_stack k (pt s, st s) (inv_len _ _ _ HI)) as Hsave.
      rewrite <-(inv_stack _ _ _ HI) in Hsave. specialize (Hok Hok0 Hc).
      destruct (Nat.ltb_spec (length k) 4) as [Hk|Hk]; [right; split; [done|exists (pt s, st s); split; [done|]]|left];
        split; simpl; try apply HI; try done; try lia.
      * rewrite length_app. simpl. lia.
      * apply Forall_app. split; [apply HI|]. constructor; [|done]. split; [apply HI|simpl; lia].
      * apply code_ok_st; simpl; lia.
      * apply code_ok_st; simpl; lia.
  - eexists. split; [done|]. split; [by case_bool_decide|]. left.
    case_bool_decide; [done|]. apply (inv_set f k s1); [done|done|done|apply HI1|apply HI1| |apply HI1].
    apply code_ok_st; simpl; lia.
Qed.

Lemma rx_first_plus_ok f k s np :
  inv f k s → st s < n → bd np →
  ∃ s', rx_first_plus P T closure s np = Ret s' ∧ consumed f k s s'.
Proof.
  intros HI Hst Hb. pose proof (inv_st _ _ _ HI) as Hf. unfold rx_first_plus.
  assert (∃ ps, (match closure with
     | None => Ret s
     | Some _ =>
         c ← rd P np;
         if prts c then
           d ← rd_st T (st s + 1);
           record_prts closure s np (if bool_decide (d = NUL) then st s + 1 else st s)
         else Ret s
     end) = Ret (set_prts s ps) ∧ prts_ok ps) as (ps & -> & Hps).
  { assert (set_prts s (prts_str s) = s) as Es by (by destruct s).
    destruct closure as [cl|] eqn:Ecl; [|by exists (prts_str s); split; [congruence|apply HI]].
    destruct (rd_le np) as (c & ->); [apply Hb|]. cbn [mbind outcome_bind].
    destruct (prts c); [|by exists (prts_str s); split; [congruence|apply HI]].
    destruct (rd_st_le (st s + 1)) as (d & ->); [lia|]. cbn [mbind outcome_bind].
    rewrite <-Ecl. apply record_prts_ok; [apply HI|]. case_bool_decide; lia. }
  cbn [mbind outcome_bind]. eexists. split; [done|]. split; [done|]. left.
  apply (inv_set f k s); try done; [apply HI..|]. apply code_ok_st; simpl; lia.
Qed.

(** A single item fits, and the position in the pattern moves to [p]. *)
Lemma note_start_ok f k s p :
  inv f k s → st s < n → bd p →
  consumed f k s (set_r_code (note_start (set_pt s p)) (Some (st (note_start (set_pt s p))))).
Proof.
  intros HI Hst Hb. pose proof (inv_st _ _ _ HI) as Hf.
  assert (st (note_start (set_pt s p)) = st s ∧ pt_error (note_start (set_pt s p)) = pt_error s ∧
    pt (note_start (set_pt s p)) = p ∧ prts_str (note_start (set_pt s p)) = prts_str s ∧
    (st_error (note_start (set_pt s p)) = Some (st s) ∨
     st_error (note_start (set_pt s p)) = st_error s)) as (E1 & E2 & E3 & E4 & E5).
  { unfold note_start. cbn. destruct (st_error s) eqn:E; cbn; split_and!; auto. }
  split; [exact E1|]. left. apply (inv_set f k s); cbn [st pt_error pt st_error r_code prts_str set_r_code].
  - done.
  - done.
  - done.
  - by rewrite E3.
  - intros e He. destruct E5 as [E5|E5]; rewrite E5 in He; [simplify_eq; lia|].
    by apply (inv_st_error _ _ _ HI).
  - rewrite E1. by apply code_ok_st; lia.
  - rewrite E4. apply HI.
Qed.

(** The character fits the escape at [pt]. *)
Lemma rx_hit_ok f k s :
  inv f k s → st s < n → bd (pt s + 2) →
  ∃ s', rx_hit sg P T closure s = Ret s' ∧ consumed f k s s'.
Proof.
  intros HI Hst Hb. pose proof (inv_st _ _ _ HI) as Hf. unfold rx_hit.
  assert (∀ c, rd P (pt s + 2) = Ret c → isPlus c = true → bd (pt s + 2 + 1)) as Hnext.
  { intros c Hc Hp. destruct (bd_inv _ Hb) as [[Hr _]|[(c' & _ & _ & _ & Hb')|(e & Hr & _)]].
    - rewrite Hr in Hc. by simplify_eq.
    - by rewrite Nat.add_1_r.
    - rewrite Hr in Hc. by simplify_eq. }
  destruct (rd_le (pt s + 2)) as (q & Hq); [apply Hb|]. rewrite Hq. cbn [mbind outcome_bind].
  destruct (isPlus q) eqn:Hplus; cbn [negb].
  - specialize (Hnext q Hq Hplus). set (s1 := if bool_decide (q = "*"%char) then set_matched s true else s).
    assert (inv f k s1 ∧ st s1 = st s) as [HI1 Est].
    { subst s1. case_bool_decide; [|done]. split; [|done].
      apply (inv_set f k s); [done|done|done|apply HI..]. }
    assert (∃ s', (if regex_matched s1 then rx_try_next sg P T closure s1 (pt s + 2 + 1)
      else rx_first_plus P T closure s1 (pt s + 2 + 1)) = Ret s' ∧ consumed f k s1 s') as (s' & -> & Hc).
    { destruct (regex_matched s1); [apply rx_try_next_ok|apply rx_first_plus_ok];
        (done || lia || by rewrite Est). }
    exists s'. split; [done|]. unfold consumed in *. by rewrite <-Est.
  - eexists. split; [done|]. by apply note_start_ok.
Qed.

(** The same character is compared with a later item. *)
Definition skipped (f : Z) (k : list (nat * Z)) (s s' : rx) : Prop :=
  st s' = st s - 1 ∧ inv f k (set_st s' (st s)) ∧ (pt s < pt s')%nat.

(** The escape at [pt] does not fit. *)
Lemma rx_miss_ok f k s :
  inv f k s → st s < n → bd (pt s + 2) →
  ∃ a, rx_miss P T flags s = Ret a ∧
    match a with
    | CReturn r ps => code_ok r ∧ prts_ok ps
    | CContinue s' => skipped f k s s'
    | CFall s' => inv f k s' ∧ st s' = st s
    end.
Proof.
  intros HI Hst Hb. pose proof (inv_st _ _ _ HI) as Hf. unfold rx_miss.
  assert (∃ q e, rd P (pt s + 2) = Ret q ∧
    (if bool_decide (q = NUL) then Ret true
     else c ← rd P (pt s + 3); Ret (bool_decide (c = NUL))) = Ret e ∧
    (isPlus q = true → bd (pt s + 3))) as (q & e & -> & He & Hnext).
  { destruct (bd_inv _ Hb) as [[-> _]|[(c & -> & Hc & _ & Hb')|(d & -> & Hr & _)]].
    - by eexists _, _.
    - rewrite <-Nat.add_succ_r in Hb'. destruct (rd_le (pt s + 3)) as (c' & ->); [apply Hb'|].
      eexists c, _. split; [done|]. by rewrite bool_decide_eq_false_2 by done.
    - rewrite <-Nat.add_assoc in Hr. change (2 + 1)%nat with 3%nat in Hr. rewrite Hr. by eexists _, _. }
  assert (∀ s', st s' = st s → pt_error s' = pt_error s → pt s' = pt s → st_error s' = st_error s →
    code_ok (r_code s') → prts_str s' = prts_str s → inv f k s') as Hsame.
  { intros s' E1 E2 E3 E4 Hc E5. apply (inv_set f k s); try done; rewrite ?E3, ?E4, ?E5; apply HI. }
  cbn [mbind outcome_bind]. rewrite He. cbn [mbind outcome_bind].
  destruct (e && regex_matched s && bool_decide (is_Some (r_code s))).
  - destruct (end_ok_ret (set_r_code s (Some (st s)))) as (b & ->); [simpl; lia|].
    cbn [mbind outcome_bind]. eexists. split; [done|]. assert (code_ok (Some (st s))) by (apply code_ok_st; lia).
    destruct b; [split; [done|apply HI]|]. split; [|done]. by apply Hsame.
  - destruct (bool_decide (q = "+"%char) && regex_matched s) eqn:Hp.
    + eexists. split; [done|]. split; [done|]. split; [|simpl; lia].
      apply (inv_set f k s); try done; [|apply HI..]. apply Hnext. unfold isPlus.
      apply andb_true_iff in Hp as [-> _]. done.
    + destruct (bool_decide (q = "*"%char)) eqn:Hs.
      * eexists. split; [done|]. split; [done|]. split; [|simpl; lia].
        apply (inv_set f k s); try done; [|apply HI| |apply HI].
        -- apply Hnext. unfold isPlus. rewrite Hs. apply orb_true_r.
        -- intros v [= <-]. lia.
      * eexists. split; [done|]. split; [|done]. apply Hsame; (done || apply HI).
Qed.

Lemma rx_item_ok f k s :
  inv f k s → st s < n →
  ∃ a, rx_item sg P T closure flags s = Ret a ∧
    match a with
    | CReturn r ps => code_ok r ∧ prts_ok ps
    | CContinue s' => consumed f k s s' ∨ skipped f k s s'
    | CFall s' => inv f k s' ∧ st s' = st s
    end.
Proof.
  intros HI Hst. pose proof (inv_st _ _ _ HI) as Hf. unfold rx_item.
  destruct (rd_st_lt (st s)) as (d & Hd & Hdn); [lia|].
  destruct (bd_inv (pt s) (inv_pt _ _ _ HI)) as [[-> _]|[(c & -> & Hc & Hb & Hbd)|(e & -> & Hr & He & Hbd)]];
    cbn [mbind outcome_bind]; rewrite Hd; cbn [mbind outcome_bind].
  - rewrite bool_decide_eq_false_2 by done. rewrite charmap_spec. cbn [mbind outcome_bind].
    destruct (Z.eqb_spec (char_int sg NUL) (Z.of_nat (uchar (tolower d)))) as [E|_];
      [|by eexists; split; [done|]].
    exfalso. apply Hdn, (proj1 (tolower_nul d)), uchar_inj, Nat2Z.inj. rewrite <-E. by destruct sg.
  - rewrite bool_decide_eq_false_2 by done. rewrite charmap_spec. cbn [mbind outcome_bind].
    case_match; [|by eexists; split; [done|]].
    eexists. split; [done|]. left. by apply note_start_ok.
  - rewrite bool_decide_eq_true_2 by done. rewrite Hr. cbn [mbind outcome_bind].
    rewrite regexmap_spec by done. cbn [mbind outcome_bind]. destruct (class_of (uchar e) d).
    + destruct (rx_hit_ok f k s HI Hst Hbd) as (s' & -> & Hs'). cbn [mbind outcome_bind].
      eexists. split; [done|]. by left.
    + destruct (rx_miss_ok f k s HI Hst Hbd) as (a & -> & Ha). exists a. split; [done|].
      destruct a; [done|by right|done].
Qed.

Lemma code_ok_None : code_ok None.
Proof. by intros v. Qed.

(** An attempt that fails goes on from a saved position or starts again further on. *)
Lemma rx_error_ok f k s :
  inv f k s → st s < n →
  match rx_error flags s with
  | CReturn r ps => code_ok r ∧ prts_ok ps
  | CContinue s' =>
      st s' < n ∧
      ((∃ k' v, k = k' ++ [v] ∧ st s' = v.2 ∧ inv f k' s') ∨
       (k = [] ∧ f ≤ st s' ∧ inv f [] s' ∧ st_error s' = None))
  | CFall _ => False
  end.
Proof.
  intros HI Hst. pose proof (inv_st _ _ _ HI) as Hf. unfold rx_error.
  rewrite (inv_stack _ _ _ HI).
  assert (k = [] ∨ ∃ k' v, k = k' ++ [v]) as [->|(k' & [p i] & ->)].
  { destruct k as [|v k' _] using rev_ind; [by left|right; by eexists _, _]. }
  - rewrite last_error_nil. destruct (flag_set flags BEGIN_SET); [split; [apply code_ok_None|apply HI]|].
    destruct (st_error s) as [e|] eqn:He.
    + pose proof (inv_st_error _ _ _ HI e He). split; [simpl; lia|]. right.
      split; [done|]. split; [simpl; lia|]. split; [|done].
      split; simpl; try apply HI; [lia|apply bd_0|done|apply code_ok_None].
    + split; [done|]. right. split; [done|]. split; [simpl; lia|]. split; [|done].
      apply (inv_set f [] s); try done; [apply bd_0|simpl; by rewrite He|apply HI].
  - pose proof (inv_len _ _ _ HI) as Hlen. rewrite length_app in Hlen. simpl in Hlen.
    destruct (proj1 (Forall_app _ _ _) (inv_saved _ _ _ HI)) as [Hk' [[Hb Hi] _]%Forall_cons].
    simpl in Hb, Hi. rewrite last_error_snoc by lia. split; [simpl; lia|]. left. exists k', (p, i).
    split; [done|]. split; [done|]. split; simpl; try apply HI; (done || lia).
Qed.

(** ** The rank of a round *)

Definition base : Z := Z.of_nat (length T) + Z.of_nat (length P) + 2.

Definition digits (f : Z) (k : list (nat * Z)) (s : rx) : list Z :=
  f :: ((λ e, e.2 + 1) <$> k) ++ (st s + 1) :: replicate (4 - length k) 0 ++ [Z.of_nat (pt s)].

Definition rank (f : Z) (k : list (nat * Z)) (s : rx) : Z :=
  base ^ 7 - 1 - value base (digits f k s).

Lemma base_pos : 0 < base.
Proof. unfold base. lia. Qed.

Lemma base_n : n + 2 ≤ base ∧ Z.of_nat (length body) < base.
Proof. unfold base. rewrite !length_app. simpl. lia. Qed.

(** The digits after the position in the subject. *)
Lemma tail_digits m p : (p ≤ length body)%nat → Forall (digit base) (replicate m 0 ++ [Z.of_nat p]).
Proof.
  intros Hp. pose proof base_n. apply Forall_app. unfold digit. split.
  - apply Forall_replicate. lia.
  - constructor; [lia|done].
Qed.

Lemma stack_digits f k s : inv f k s → Forall (digit base) ((λ e, e.2 + 1) <$> k).
Proof.
  intros HI. pose proof (inv_st _ _ _ HI). pose proof base_n. apply Forall_fmap.
  eapply Forall_impl; [apply HI|]. intros e [_ He]. unfold digit, compose. lia.
Qed.

Lemma digits_ok f k s :
  inv f k s → length (digits f k s) = 7%nat ∧ Forall (digit base) (digits f k s).
Proof.
  intros HI. pose proof (inv_len _ _ _ HI). pose proof (inv_st _ _ _ HI). pose proof base_n. split.
  - unfold digits. cbn [length]. rewrite length_app, length_fmap. cbn [length].
    rewrite length_app, length_replicate. simpl. lia.
  - constructor; [unfold digit; lia|]. apply Forall_app. split; [by eapply stack_digits|].
    constructor; [unfold digit; lia|]. apply tail_digits, HI.
Qed.

Lemma rank_bound f k s : inv f k s → 0 ≤ rank f k s < base ^ 7.
Proof.
  intros HI. destruct (digits_ok f k s HI) as [Hl Hd].
  pose proof (value_bound base _ base_pos Hd) as Hv. rewrite Hl in Hv.
  change (Z.of_nat 7) with 7 in Hv. unfold rank. lia.
Qed.

(** The rounds in which a character is consumed, a position is saved, an item is skipped, a
    saved position is taken up and an attempt starts again. *)
Lemma rank_advance f k s s' :
  inv f k s → inv f k s' → st s < st s' → rank f k s' < rank f k s.
Proof.
  intros HI HI' Hst. unfold rank. cut (value base (digits f k s) < value base (digits f k s')); [lia|].
  unfold digits.
  apply (value_lt base (f :: _)); [apply base_pos| |apply tail_digits, HI|apply tail_digits, HI'|lia].
  by rewrite !length_app, !length_replicate.
Qed.

Lemma rank_push f k v s s' :
  inv f k s → inv f (k ++ [v]) s' → v.2 = st s → rank f (k ++ [v]) s' < rank f k s.
Proof.
  intros HI HI' Hv. pose proof (inv_len _ _ _ HI') as Hl. rewrite length_app in Hl. simpl in Hl.
  pose proof (inv_st _ _ _ HI'). unfold rank.
  cut (value base (digits f k s) < value base (digits f (k ++ [v]) s')); [lia|].
  unfold digits. rewrite length_app, fmap_app. simpl. rewrite Hv.
  replace (4 - length k)%nat with (S (4 - (length k + 1))) by lia. cbn [replicate].
  rewrite <-app_assoc. cbn [app].
  rewrite (cons_middle (st s + 1) ((λ e : nat * Z, e.2 + 1) <$> k)).
  rewrite (cons_middle (st s + 1) ((λ e : nat * Z, e.2 + 1) <$> k) (st s' + 1 :: _)).
  rewrite !app_assoc.
  apply (value_lt base (f :: _)); [apply base_pos|by rewrite !length_app|apply tail_digits, HI|apply tail_digits, HI'|lia].
Qed.

Lemma rank_skip f k s s' :
  inv f k s → inv f k s' → st s' = st s → (pt s < pt s')%nat → rank f k s' < rank f k s.
Proof.
  intros HI HI' Hst Hpt. unfold rank.
  cut (value base (digits f k s) < value base (digits f k s')); [lia|].
  unfold digits. rewrite Hst.
  change (f :: ?a ++ ?x :: ?b ++ ?c) with ((f :: a) ++ (x :: b) ++ c). rewrite !app_assoc.
  apply value_lt; [apply base_pos|done|done|done|lia].
Qed.

Lemma rank_pop f k v s s' :
  inv f (k ++ [v]) s → inv f k s' → v.2 < st s' → rank f k s' < rank f (k ++ [v]) s.
Proof.
  intros HI HI' Hv. unfold rank.
  cut (value base (digits f (k ++ [v]) s) < value base (digits f k s')); [lia|].
  pose proof (inv_len _ _ _ HI) as Hl. rewrite length_app in Hl. simpl in Hl.
  pose proof (inv_st _ _ _ HI). pose proof base_n.
  unfold digits. rewrite length_app, fmap_app. simpl. rewrite <-app_assoc. cbn [app].
  apply (value_lt base (f :: _)); [apply base_pos| | |apply tail_digits, HI'|lia].
  - cbn [length]. rewrite !length_app, !length_replicate. simpl. lia.
  - constructor; [unfold digit; lia|apply tail_digits, HI].
Qed.

Lemma rank_restart f f' k k' s s' :
  inv f k s → inv f' k' s' → f < f' → rank f' k' s' < rank f k s.
Proof.
  intros HI HI' Hf. unfold rank.
  cut (value base (digits f k s) < value base (digits f' k' s')); [lia|].
  destruct (digits_ok f k s HI) as [Hl Hd]. destruct (digits_ok f' k' s' HI') as [Hl' Hd'].
  unfold digits in *. apply Forall_cons in Hd as [_ Hd]. apply Forall_cons in Hd' as [_ Hd'].
  apply (value_lt base []); [apply base_pos| |done|done|done]. simpl in Hl, Hl'. lia.
Qed.

(** ** The loop *)

Lemma inv_succ f k s : inv f k s → st s < n → inv f k (set_st s (st s + 1)).
Proof. intros [] ?. split; simpl; (done || lia). Qed.

Lemma rx_step_ok f k s :
  inv f k s →
  ∃ r, rx_step sg P T closure flags s = Ret r ∧
    match r with
    | inl s' => ∃ g, inv g.1 g.2 s' ∧ rank g.1 g.2 s' < rank f k s
    | inr (inl (r, ps)) => code_ok r ∧ prts_ok ps
    | inr (inr s') => inv f k s' ∧ st s' = n
    end.
Proof.
  intros HI. pose proof (inv_st _ _ _ HI) as Hf. unfold rx_step.
  destruct (decide (st s = n)) as [Hn|Hn].
  { rewrite Hn, rd_st_end. cbn [mbind outcome_bind]. by eexists. }
  destruct (rd_st_lt (st s)) as (c & -> & Hc); [lia|]. cbn [mbind outcome_bind].
  rewrite bool_decide_eq_false_2 by done. unfold rx_body.
  destruct (rx_switch_ok f k s HI) as (a & -> & Ha); [lia|]. cbn [mbind outcome_bind].
  destruct a as [r ps|s1|s1]; [by eexists|done|]. destruct Ha as (HI1 & E1 & _ & Hpt).
  destruct (rx_item_ok f k s1 HI1) as (b & -> & Hb); [lia|]. cbn [mbind outcome_bind].
  destruct b as [r ps|s2|s2].
  - by eexists.
  - cbn [mbind outcome_bind]. eexists. split; [done|].
    destruct Hb as [(E2 & [HI2|(Hk & v & Hv & HI2)])|(E2 & HI2 & Hpt2)].
    + exists (f, k). apply inv_succ in HI2; [|lia]. split; [done|]. apply rank_advance; [done..|simpl; lia].
    + exists (f, k ++ [v]). apply inv_succ in HI2; [|lia]. split; [done|]. apply rank_push; [done..|congruence].
    + exists (f, k). replace (st s2 + 1) with (st s1) by lia. split; [done|].
      apply rank_skip; [done..|simpl; lia].
  - destruct Hb as [HI2 E2]. pose proof (rx_error_ok f k s2 HI2 ltac:(lia)) as He.
    destruct (rx_error flags s2) as [r ps|s3|s3]; cbn [mbind outcome_bind]; [by eexists| |done].
    eexists. split; [done|]. destruct He as [Hlt [(k' & v & -> & Hv & HI3)|(-> & Hfl & HI3 & He)]].
    + exists (f, k'). apply inv_succ in HI3; [|done]. split; [done|]. apply (rank_pop f k' v); [done..|simpl; lia].
    + exists (st s3 + 1, []). assert (inv (st s3 + 1) [] (set_st s3 (st s3 + 1))) as HI4.
      { pose proof (inv_st _ _ _ HI3). split; simpl; try apply HI3; (lia || done || by rewrite He). }
      split; [done|]. apply rank_restart; [done..|simpl; lia].
Qed.

(** ** What follows the loop *)

Lemma endoffile_ok p : bd p → ∃ b p', endoffile P p = Ret (b, p') ∧ bd p'.
Proof.
  intros Hb. unfold endoffile.
  assert (∃ c, rd P p = Ret c ∧ bd (if prts c then S p else p)) as (c & -> & Hb').
  { destruct (bd_inv p Hb) as [[-> _]|[(c & -> & _ & _ & Hb')|(d & -> & _)]]; eexists;
      (split; [done|]); [done| |done]. by destruct (prts c). }
  cbn [mbind outcome_bind]. destruct (rd_le (if prts c then S p else p)) as (d & ->); [apply Hb'|].
  cbn [mbind outcome_bind]. by eexists _, _.
Qed.

Lemma and_then_ok m k :
  (∃ b p, m = Ret (b, p) ∧ bd p) → (∀ p, bd p → ∃ b p', k p = Ret (b, p') ∧ bd p') →
  ∃ b p, and_then m k = Ret (b, p) ∧ bd p.
Proof.
  intros (b & p & -> & Hb) Hk. unfold and_then. cbn [mbind outcome_bind].
  destruct b; [by apply Hk|by eexists _, _].
Qed.

Lemma or_else_ok m k :
  (∃ b p, m = Ret (b, p) ∧ bd p) → (∀ p, bd p → ∃ b p', k p = Ret (b, p') ∧ bd p') →
  ∃ b p, or_else m k = Ret (b, p) ∧ bd p.
Proof.
  intros (b & p & -> & Hb) Hk. unfold or_else. cbn [mbind outcome_bind].
  destruct b; [by eexists _, _|by apply Hk].
Qed.

Lemma skip_escape_ok p g :
  bd p → ∃ b p', (c ← rd P p; Ret (if is_backslash c && g then (true, p + 2)%nat else (false, p))) = Ret (b, p') ∧ bd p'.
Proof.
  intros Hb. unfold is_backslash.
  destruct (bd_inv p Hb) as [[-> _]|[(c & -> & _ & Hc & Hb')|(d & -> & _ & _ & Hb')]]; cbn [mbind outcome_bind].
  - by eexists _, _.
  - rewrite bool_decide_eq_false_2 by done. by eexists _, _.
  - destruct g; by eexists _, _.
Qed.

Lemma skip_char_ok h p :
  h NUL = false → h BACKSLASH = false → bd p → ∃ b p', skip_if P h p 1 = Ret (b, p') ∧ bd p'.
Proof.
  intros Hn Hs Hb. unfold skip_if.
  destruct (bd_inv p Hb) as [[-> _]|[(c & -> & _ & Hc & Hb')|(d & -> & _ & _ & Hb')]]; cbn [mbind outcome_bind].
  - rewrite Hn. by eexists _, _.
  - destruct (h c); rewrite ?Nat.add_1_r; by eexists _, _.
  - rewrite Hs. by eexists _, _.
Qed.

Lemma star_to_end_ok p : bd p → ∃ b p', star_to_end P p = Ret (b, p') ∧ bd p'.
Proof.
  intros Hb. unfold star_to_end. apply and_then_ok.
  - destruct (skip_escape_ok p true Hb) as (b & p' & H & Hb'). exists b, p'. split; [|done].
    rewrite <-H. unfold skip_if. destruct (rd P p) as [c|]; [|done]. cbn. by rewrite andb_true_r.
  - intros p1 Hb1. apply and_then_ok; [by apply skip_char_ok|]. intros p2 Hb2. by apply endoffile_ok.
Qed.

Lemma rx_final_ok s p : bd p → ∃ b, rx_final P s p = Ret b.
Proof.
  intros Hb. unfold rx_final.
  match goal with |- ∃ b, (mbind _ ?m) = _ => assert (∃ b p, m = Ret (b, p) ∧ bd p) as (b & q & -> & _) end.
  { apply or_else_ok; [by apply endoffile_ok|]. intros p1 H1. apply or_else_ok.
    - apply and_then_ok; [by apply skip_escape_ok|]. intros p2 H2.
      apply and_then_ok; [by apply skip_char_ok|]. intros p3 H3.
      apply or_else_ok; [by apply endoffile_ok|]. intros p4 H4. by apply star_to_end_ok.
    - intros p2 H2. by apply star_to_end_ok. }
  cbn [mbind outcome_bind]. by eexists.
Qed.

Lemma skip_stars_ok fuel p :
  bd p → (length body < fuel + p)%nat → ∃ p', skip_stars P fuel p = Ret p' ∧ bd p'.
Proof.
  revert p. induction fuel as [|fuel IH]; intros p Hb Hf; [destruct Hb; lia|]. cbn [skip_stars].
  destruct (bd_inv p Hb) as [[-> _]|[(c & -> & _ & Hc & Hb')|(d & -> & _ & _ & Hb')]]; cbn [mbind outcome_bind].
  - rewrite orb_true_r. by eexists.
  - destruct (_ || _); [by eexists|]. rewrite bool_decide_eq_false_2 by done. by eexists.
  - change (prts BACKSLASH || bool_decide (BACKSLASH = NUL)) with false. cbn iota.
    rewrite bool_decide_eq_true_2 by done.
    destruct (bd_inv _ Hb') as [[-> _]|[(c & -> & _ & Hc & Hb2)|(e & -> & _)]]; cbn [mbind outcome_bind].
    + by eexists.
    + case_bool_decide; [|by eexists]. rewrite <-Nat.add_succ_r in Hb2. apply IH; [done|lia].
    + by eexists.
Qed.

Lemma rx_finish_ok f k s :
  inv f k s → ∃ r ps, rx_finish P closure s = Ret (r, ps) ∧ code_ok r ∧ prts_ok ps.
Proof.
  intros HI. unfold rx_finish.
  match goal with |- ∃ r ps, (mbind _ ?m) = _ ∧ _ =>
    assert (∃ s', m = Ret s' ∧ bd (pt s') ∧ r_code s' = r_code s ∧ prts_ok (prts_str s')) as (s' & -> & Hb & Hr & Hp) end.
  { destruct closure as [cl|] eqn:Ecl; [|by exists s; split_and!; [done|apply HI|done|apply HI]].
    destruct (skip_stars_ok (length P) (pt s)) as (p & -> & Hb); [apply HI|rewrite length_app; simpl; lia|].
    cbn [mbind outcome_bind]. destruct (rd_le p) as (c & ->); [apply Hb|]. cbn [mbind outcome_bind].
    destruct (prts c); [|by eexists; split_and!; [done|done|done|apply HI]].
    rewrite <-Ecl. destruct (record_prts_ok (set_pt s p) p (st (set_pt s p))) as (ps & -> & Hps);
      [apply HI|pose proof (inv_st _ _ _ HI); simpl; lia|]. by eexists. }
  cbn [mbind outcome_bind]. destruct (rx_final_ok s' (pt s') Hb) as (b & ->). cbn [mbind outcome_bind].
  eexists _, _. split; [done|]. split; [|done]. destruct b; [rewrite Hr; apply HI|apply code_ok_None].
Qed.

(** The engine returns: a position in the subject or the one before it, and positions of
    parentheses inside the subject. *)
Lemma _OS_Regex_ok ps :
  prts_ok ps →
  ∃ r ps', _OS_Regex sg P T closure flags ps = Ret (r, ps') ∧ code_ok r ∧ prts_ok ps'.
Proof.
  intros Hps. unfold _OS_Regex. set (s0 := mk_rx _ _ _ _ _ _ _).
  assert (inv 0 [] s0) as HI.
  { split; simpl; try done; [lia|apply bd_0|lia|]. intros v [= <-]. lia. }
  destruct (iterate_result (rx_step sg P T closure flags) (λ g, inv g.1 g.2) (λ g, rank g.1 g.2)
    (λ r, match r with inl (r, ps) => code_ok r ∧ prts_ok ps | inr s => ∃ f k, inv f k s end))
    with (p := rx_fuel P T) (g := (0, @nil (nat * Z))) (s := s0) as (r & -> & Hr).
  - intros g s Hs. apply (rank_bound _ _ _ Hs).
  - intros g s Hs. destruct (rx_step_ok g.1 g.2 s Hs) as (r & Hstep & Hr). exists r. split; [done|].
    destruct r as [s'|[[r ps']|s']]; [done|done|]. destruct Hr as [Hr _]. by eexists _, _.
  - done.
  - pose proof (rank_bound _ _ _ HI). unfold rx_fuel.
    change (Z.of_nat (length T) + Z.of_nat (length P) + 2) with base. rewrite Z2Pos.id; [|lia]. cbn [fst snd]. lia.
  - cbn [mbind outcome_bind]. destruct r as [[r ps']|s']; [by eexists _, _|].
    destruct Hr as (f & k & Hs). by apply (rx_finish_ok f k).
Qed.

End safe.
