(* ===== verification/RegexCompile.v ===== *)
(** * What [OSRegex_Compile] produces, and the safety of execution

    A pattern is refused or compiled into its alternatives: for each of them the text
    between the anchors, with numbered escapes, the flags of the anchors and the offsets of
    its parentheses.  Executing a compiled pattern is safe as far as the allocation of
    nothing fails. *)

From Stdlib Require Import Lia ZArith Ascii String.
From stdpp Require Import base numbers list strings.
From S2P Require Import Prelude CString RegexMaps OSMatch OSRegex RegexSafe.

#[local] Open Scope list_scope.
#[local] Open Scope Z_scope.

(** ** The first loop *)

Lemma length_alternatives_cons c l :
  length (alternatives (c :: l)) =
    ((if bool_decide (c = OR) then 1 else 0) + length (alternatives l))%nat.
Proof.
  cbn [alternatives]. case_bool_decide; [done|].
  pose proof (length_alternatives l). destruct (alternatives l); simpl in *; lia.
Qed.

Lemma escape_code_spec c k :
  escape_code c = Some k → is_code k = true ∧ k ≠ OR ∧ k ≠ ENDREGEX.
Proof.
  assert (∀ c, from_option (λ k, is_code k && bool_decide (k ≠ OR) && bool_decide (k ≠ ENDREGEX))
    true (escape_code c) = true) as H.
  { apply (forall_ascii _). vm_compute. reflexivity. }
  intros E. specialize (H c). rewrite E in H. cbn in H.
  apply andb_true_iff in H as [[H1 H2]%andb_true_iff H3]. by repeat case_bool_decide.
Qed.

(** The part of the first loop that handles a plain character. *)
Lemma scan_char_ok flags c :
  c ≠ NUL → c ≠ BACKSLASH →
  ∃ c', (if flag_set flags OS_CASE_SENSITIVE then Ret c else to_char <$> charmap_at c) = Ret c' ∧
    c' ≠ NUL ∧ c' ≠ BACKSLASH.
Proof.
  intros Hn Hb. case_match; [by exists c|]. rewrite to_char_charmap. eexists. split; [done|].
  split; [by intros ?%(proj1 (tolower_nul c))|]. revert c Hb Hn.
  apply (forall_ascii (λ c, c ≠ BACKSLASH → c ≠ NUL → tolower c ≠ BACKSLASH)).
  vm_compute. reflexivity.
Qed.

(** The scan ends with an error or with a well-formed pattern of the same length and the
    number of its bars. *)
Definition scan_ok (l : list ascii) (count : nat) (r : Z + (list ascii * Z * nat * nat)) : Prop :=
  match r with
  | inl e => e = OS_REGEX_BADREGEX ∨ e = OS_REGEX_BADPARENTHESIS
  | inr (m, _, _, cnt) =>
      ∃ l', m = l' ++ [NUL] ∧ wfp l' = true ∧ length l' = length l ∧
        (S cnt = count + length (alternatives l'))%nat
  end.

Lemma scan_ok_nil count par ps : scan_ok [] count (inr ([NUL], par, ps, count)).
Proof. unfold scan_ok. exists []. split_and!; try done. simpl. lia. Qed.

Lemma OSRegex_scan_ok flags N l par ps count :
  (length l ≤ N)%nat → NUL ∉ l →
  ∃ r, OSRegex_scan flags (l ++ [NUL]) par ps count = Ret r ∧ scan_ok l count r.
Proof.
  revert l par ps count. induction N as [|N IH]; intros l par ps count HN Hl.
  { destruct l; [|simpl in HN; lia]. eexists. split; [done|]. apply scan_ok_nil. }
  destruct l as [|c l].
  { eexists. split; [done|]. apply scan_ok_nil. }
  apply not_elem_of_cons in Hl as [Hc Hl]. simpl in HN. cbn [app OSRegex_scan].
  rewrite bool_decide_eq_false_2 by congruence. case_bool_decide as Hb.
  - destruct l as [|d l]; cbn [app].
    { change (escape_code NUL) with (@None ascii). eexists. split; [done|]. by left. }
    apply not_elem_of_cons in Hl as [Hd Hl]. destruct (escape_code d) as [k|] eqn:Ek; [|by eexists; split; [done|left]].
    destruct (escape_code_spec d k Ek) as (Hcode & Hor & _). simpl in HN.
    destruct (IH l par ps count) as (r & -> & Hr); [lia|done|]. cbn [mbind outcome_bind].
    eexists. split; [done|]. destruct r as [e|[[[m a] b] cnt]]; [done|].
    destruct Hr as (l' & -> & Hw & Hlen & Hcnt). unfold scan_ok. exists (c :: k :: l'). subst c. split_and!.
    + done.
    + cbn [wfp]. rewrite bool_decide_eq_true_2 by done. by rewrite Hcode.
    + simpl. lia.
    + by rewrite !length_alternatives_cons, !bool_decide_eq_false_2 by done.
  - set (q := if bool_decide (c = "("%char) then _ else _).
    assert (∃ c1 par1 ps1, q = (c1, par1, ps1) ∧ c1 ≠ NUL ∧ c1 ≠ BACKSLASH) as (c1 & par1 & ps1 & -> & H1 & H2).
    { subst q. repeat case_bool_decide; eexists _, _, _; (split; [done|]); subst; done. }
    destruct (negb _ && _); [by eexists; split; [done|right]|].
    destruct (scan_char_ok flags c1 H1 H2) as (c' & -> & Hn' & Hb'). cbn [mbind outcome_bind].
    destruct (_ && _); [by eexists; split; [done|right]|].
    destruct (IH l par1 ps1 (if bool_decide (c' = OR) then S count else count)) as (r & -> & Hr); [lia|done|].
    cbn [mbind outcome_bind]. eexists. split; [done|]. destruct r as [e|[[[m a] b] cnt]]; [done|].
    destruct Hr as (l' & -> & Hw & Hlen & Hcnt). unfold scan_ok. exists (c' :: l'). split_and!.
    + done.
    + cbn [wfp]. rewrite !bool_decide_eq_false_2 by done. done.
    + simpl. lia.
    + rewrite length_alternatives_cons. case_bool_decide; lia.
Qed.

(** ** Alternatives of well-formed patterns *)

Lemma wfp_cons_plain c l : c ≠ BACKSLASH → wfp (c :: l) = true → c ≠ NUL ∧ wfp l = true.
Proof.
  intros Hc. cbn [wfp]. rewrite bool_decide_eq_false_2 by done.
  intros [Hn Hl]%andb_true_iff. split; [|done]. by case_bool_decide.
Qed.

Lemma wfp_nul N l : (length l ≤ N)%nat → wfp l = true → NUL ∉ l.
Proof.
  revert l. induction N as [|N IH]; intros [|c l] HN Hw; try apply not_elem_of_nil; simpl in HN; [lia|].
  cbn [wfp] in Hw. case_bool_decide as Hb.
  - destruct l as [|d l]; [done|]. apply andb_true_iff in Hw as [Hd Hw]. simpl in HN.
    rewrite !not_elem_of_cons. subst c. split; [done|]. split; [by intros <-|]. apply IH; [lia|done].
  - apply andb_true_iff in Hw as [Hn Hw]. apply not_elem_of_cons. split; [by case_bool_decide|].
    apply IH; [lia|done].
Qed.

(** A character that is no escape number can be split off. *)
Lemma wfp_app_inv N a x b :
  (length a ≤ N)%nat → is_code x = false → wfp (a ++ x :: b) = true → wfp a = true ∧ wfp (x :: b) = true.
Proof.
  revert a. induction N as [|N IH]; intros [|c a] HN Hx; try done; simpl in HN; [lia|].
  cbn [app wfp]. case_bool_decide.
  - destruct a as [|d a]; cbn [app].
    + intros [Hd _]%andb_true_iff. congruence.
    + intros [-> Hw]%andb_true_iff. simpl in HN. apply IH in Hw as [-> ?]; [done|lia|done].
  - intros [-> Hw]%andb_true_iff. apply IH in Hw as [-> ?]; [done|lia|done].
Qed.

Lemma wfp_alternatives l a : wfp l = true → a ∈ alternatives l → wfp a = true.
Proof.
  remember (length l) as N eqn:HN. assert (length l ≤ N)%nat as HN' by lia. clear HN.
  revert l a HN'. induction N as [|N IH]; intros l a HN Hw.
  { destruct l; [|simpl in HN; lia]. by intros ->%list_elem_of_singleton. }
  destruct (decide (OR ∈ l)) as [(pre & post & -> & Hpre)%list_elem_of_split_l|Hor].
  - rewrite alternatives_cons by done.
    destruct (wfp_app_inv _ pre OR post (le_n _) eq_refl Hw) as [Hw1 Hw2].
    apply wfp_cons_plain in Hw2 as [_ Hw2]; [|done]. rewrite length_app in HN. simpl in HN.
    intros [->|Ha]%elem_of_cons; [done|]. by apply (IH post); [lia|..].
  - rewrite alternatives_one by done. by intros ->%list_elem_of_singleton.
Qed.

Lemma wfp_parse_alt a : wfp a = true → wfp (parse_alt a).2 = true.
Proof.
  intros Hw. unfold parse_alt. destruct (parse_begin a) as [b a'] eqn:Eb.
  assert (wfp a' = true) as Hw'.
  { destruct a as [|c a]; simpl in Eb; [by simplify_eq|]. case_bool_decide; simplify_eq; [|done].
    by apply wfp_cons_plain in Hw as [_ ?]. }
  unfold parse_end. destruct (last a') as [l|] eqn:El; [|done].
  apply last_Some in El as (q & ->). case_bool_decide; [|done]. cbn [snd]. rewrite length_app. simpl.
  rewrite Nat.add_sub, take_app_length. subst l.
  by destruct (wfp_app_inv _ q ENDREGEX [] (le_n _) eq_refl Hw').
Qed.

(** ** The compiled alternatives *)

Definition alt_text (a : list ascii) : list ascii := (parse_alt a).2.

Definition alt_flags (a : list ascii) : Z :=
  let '(b, e, _) := parse_alt a in Z.lor (if b then BEGIN_SET else 0) (if e then END_SET else 0).

(** The offsets of the parentheses in a text. *)
Fixpoint prts_offsets (off : nat) (t : list ascii) : list nat :=
  match t with
  | [] => []
  | c :: t => if prts c then off :: prts_offsets (S off) t else prts_offsets (S off) t
  end.

Definition alt_closure (a : list ascii) : list (option nat) :=
  (Some <$> prts_offsets 0 (alt_text a)) ++ [None].

(** The number of parentheses of an alternative. *)
Definition nprts (a : list ascii) : nat := length (prts_offsets 0 (alt_text a)).

Lemma length_prts_offsets off off' t : length (prts_offsets off t) = length (prts_offsets off' t).
Proof.
  revert off off'. induction t as [|c t IH]; intros off off'; [done|]. cbn [prts_offsets].
  destruct (prts c); [|apply IH]. cbn [length]. f_equal. apply IH.
Qed.

Lemma count_prts_spec t r : NUL ∉ t → count_prts (t ++ NUL :: r) = Ret (length (prts_offsets 0 t)).
Proof.
  induction t as [|c t IH]; intros Hn; [done|]. apply not_elem_of_cons in Hn as [Hc Hn].
  cbn [app count_prts prts_offsets]. rewrite bool_decide_eq_false_2 by congruence. rewrite (IH Hn).
  cbn [mbind outcome_bind]. destruct (prts c); cbn [length]; by rewrite (length_prts_offsets 1 0).
Qed.

Lemma set_closures_spec t r off ti sz cl ps :
  NUL ∉ t → let q := prts_offsets off t in
  (ti + length q ≤ sz)%nat → (sz ≤ length cl)%nat → (sz ≤ length ps)%nat →
  set_closures (t ++ NUL :: r) off ti sz cl ps =
    Ret (Some (splice cl ti (Some <$> q), splice ps ti (replicate (length q) None))).
Proof.
  revert off ti cl ps. induction t as [|c t IH]; intros off ti cl ps Hn q; subst q.
  { cbn. intros _ _ _. by rewrite !splice_nil. }
  apply not_elem_of_cons in Hn as [Hc Hn]. cbn [app set_closures prts_offsets].
  rewrite bool_decide_eq_false_2 by congruence. destruct (prts c); [|by apply IH].
  cbn [length]. intros Hsz Hcl Hps. rewrite (proj2 (Nat.leb_gt _ _)) by lia.
  rewrite !c_write_lt by lia. cbn [mbind outcome_bind].
  rewrite IH by (rewrite ?length_insert; (done || lia)). cbn [fmap list_fmap replicate].
  by rewrite !splice_cons by (rewrite ?length_fmap, ?length_replicate; lia).
Qed.

(** An array of [cells] with the values of the alternatives so far. *)
Definition filled {A} (cells : nat) (f : list ascii → A) (z : A) (alts : list (list ascii)) : list A :=
  (f <$> alts) ++ replicate (cells - length alts) z.

Lemma filled_next {A} cells (f : list ascii → A) z alts a x :
  (length alts < cells)%nat → x = f a →
  c_write (filled cells f z alts) (length alts) x = Ret (filled cells f z (alts ++ [a])).
Proof.
  intros Hl ->. unfold filled. rewrite c_write_lt by (rewrite length_app, length_fmap, length_replicate; lia).
  f_equal. rewrite insert_app_r_alt, length_fmap, Nat.sub_diag by (rewrite length_fmap; lia).
  rewrite fmap_app, length_app, <-app_assoc. f_equal. cbn [length].
  by replace (cells - length alts)%nat with (S (cells - (length alts + 1))) by lia.
Qed.

Lemma filled_all {A} (f : list ascii → A) z alts :
  filled (S (length alts)) f z alts = (f <$> alts) ++ [z].
Proof. unfold filled. by replace (S (length alts) - length alts)%nat with 1%nat by lia. Qed.

(** The sizes of the position arrays so far. *)
Definition prts_sizes (alts : list (list ascii)) : option (list Z) :=
  match alts with
  | [] => None
  | _ => Some (((λ a, Z.of_nat (nprts a + 1) * PTR) <$> alts) ++ [0])
  end.

Definition partial (sub : bool) (raw : string) (cells : nat) (alts : list (list ascii)) : OSRegex :=
  mk_OSRegex 0 (Some raw) (filled cells alt_flags 0 alts)
    (filled cells (λ a, Some (alt_text a ++ [NUL])) None alts)
    (if sub then Some (filled cells (λ a, Some (alt_closure a)) None alts) else None)
    (if sub
     then mk_matching None (Some (filled cells (λ a, Some (replicate (nprts a + 1) None)) None alts))
            (mk_size 0 (prts_sizes alts) (Z.of_nat cells * PTR))
     else no_matching).

Definition max_prts (sub : bool) (alts : list (list ascii)) : nat :=
  if sub then foldl (λ m a, Nat.max m (nprts a)) 0%nat alts else 0%nat.

Lemma sizes_next alts a :
  (let sizes :=
     match prts_sizes alts with
     | None => replicate 2 0
     | Some l => <[S (length alts):=0]> (c_realloc (λ _, 0) l (length alts + 2))
     end in
   c_write sizes (length alts) (Z.of_nat (nprts a + 1) * PTR)) =
  Ret (default [] (prts_sizes (alts ++ [a]))).
Proof.
  destruct alts as [|b alts]; [done|]. cbn [prts_sizes]. set (g := λ a, Z.of_nat (nprts a + 1) * PTR).
  assert (prts_sizes ((b :: alts) ++ [a]) = Some ((g <$> (b :: alts)) ++ [g a; 0])) as ->.
  { cbn [app prts_sizes]. f_equal. change (b :: alts ++ [a]) with ((b :: alts) ++ [a]).
    by rewrite fmap_app, <-app_assoc. }
  cbn zeta. set (l := b :: alts). cbn [default]. rewrite c_write_lt.
  2: { rewrite length_insert, length_c_realloc. lia. }
  f_equal. unfold c_realloc. rewrite take_ge by (rewrite length_app, length_fmap; simpl; lia).
  rewrite length_app, length_fmap. cbn [length]. replace (length l + 2 - (length l + 1))%nat with 1%nat by lia.
  change ((λ _ : nat, 0) <$> seq (length l + 1) 1) with [0]. rewrite <-app_assoc, !insert_app_r_alt by (rewrite length_fmap; lia).
  rewrite length_fmap, Nat.sub_diag. by replace (S (length l) - length l)%nat with 1%nat by lia.
Qed.

(** The end anchor of the text at [d] is overwritten. *)
Lemma sub_end_spec d a r f :
  NUL ∉ a →
  ∃ d' r', length d' = (length d + length a)%nat ∧ d' ++ NUL :: r = d ++ (parse_end a).2 ++ NUL :: r' ∧
    (let m := d ++ a ++ NUL :: r in
     let pt := (length d + length a)%nat in
     if (length d <? pt)%nat then
       l ← c_prev m pt;
       if bool_decide (l = ENDREGEX) then m ← c_write m (pt - 1) NUL; Ret (m, Z.lor f END_SET)
       else Ret (m, f)
     else Ret (m, f)) =
    Ret (d' ++ NUL :: r, if (parse_end a).1 then Z.lor f END_SET else f).
Proof.
  intros Hn. cbn zeta. unfold parse_end. destruct (last a) as [l|] eqn:Hl.
  - rewrite (proj2 (Nat.ltb_lt _ _)) by (destruct a; [done|simpl; lia]).
    rewrite (c_prev_last d a l (NUL :: r) Hl). cbn [mbind outcome_bind].
    apply last_Some in Hl as (q & ->). rewrite !length_app. cbn [length].
    case_bool_decide; [|].
    + rewrite c_write_lt by (rewrite !length_app; simpl; lia). cbn [mbind outcome_bind].
      exists (d ++ q ++ [NUL]), (NUL :: r). rewrite !length_app. cbn [length fst snd].
      rewrite Nat.add_sub, take_app_length. split; [lia|]. split; [by rewrite <-!app_assoc|]. f_equal. f_equal.
      rewrite <-!app_assoc, !insert_app_r_alt by lia.
      by replace (length d + (length q + 1) - 1 - length d - length q)%nat with 0%nat by lia.
    + exists (d ++ q ++ [l]), r. rewrite !length_app. cbn [length fst snd]. split; [lia|].
      by rewrite <-!app_assoc.
  - apply last_None in Hl as ->. rewrite (proj2 (Nat.ltb_ge _ _)) by (simpl; lia).
    exists d, r. cbn [app length fst snd]. split; [lia|]. done.
Qed.

Lemma parse_end_nul a : NUL ∉ a → NUL ∉ (parse_end a).2.
Proof.
  intros Ha. unfold parse_end. destruct (last a); [|done].
  case_bool_decide; [|done]. by apply not_elem_of_take.
Qed.

(** What follows the test for the start anchor [pre]. *)
Lemma sub_tail_spec d pre a r f :
  NUL ∉ pre ++ a → let m := d ++ (pre ++ a) ++ NUL :: r in
  let pt := (length d + length (pre ++ a))%nat in
  let new_str := length (d ++ pre) in
  ∃ d', length d' = pt ∧
    ('(m, g) ←
       (if (new_str <? pt)%nat then
          l ← c_prev m pt;
          if bool_decide (l = ENDREGEX) then m ← c_write m (pt - 1) NUL; Ret (m, Z.lor f END_SET)
          else Ret (m, f)
        else Ret (m, f));
     s ← c_at m new_str; p ← c_strdup s; Ret (m, p, g)) =
    Ret (d' ++ NUL :: r, (parse_end a).2 ++ [NUL], if (parse_end a).1 then Z.lor f END_SET else f).
Proof.
  intros Ha m pt new_str. rewrite not_elem_of_app in Ha. destruct Ha as [Hp Ha].
  destruct (sub_end_spec (d ++ pre) a r f Ha) as (d' & r' & Hl & Ed & Hrun). exists d'.
  assert (m = (d ++ pre) ++ a ++ NUL :: r) as -> by (subst m; by rewrite <-!app_assoc).
  assert (pt = length (d ++ pre) + length a)%nat as -> by (subst pt; rewrite !length_app; lia).
  subst new_str. split; [done|]. cbn zeta in Hrun. rewrite Hrun. cbn [mbind outcome_bind]. rewrite Ed.
  rewrite c_at_app by done. cbn [mbind outcome_bind].
  by rewrite c_strdup_spec by (by apply parse_end_nul).
Qed.

Lemma OSRegex_sub_spec d a r :
  NUL ∉ a →
  ∃ d', length d' = (length d + length a)%nat ∧
    OSRegex_sub (d ++ a ++ NUL :: r) (length d) (length d + length a) =
      Ret (d' ++ NUL :: r, alt_text a ++ [NUL], alt_flags a).
Proof.
  intros Ha. unfold OSRegex_sub, alt_text, alt_flags, parse_alt.
  assert (c_read (d ++ a ++ NUL :: r) (length d) = Ret (default NUL (head a))) as ->.
  { destruct a; apply c_read_head. }
  cbn [mbind outcome_bind]. destruct a as [|c a].
  - destruct (sub_tail_spec d [] [] r 0 Ha) as (d' & Hl & Hrun). exists d'. split; [done|].
    rewrite app_nil_r in Hrun. exact Hrun.
  - cbn [head default parse_begin]. unfold default. cbn [from_option id]. case_bool_decide as Hc.
    + subst c. destruct (sub_tail_spec d [BEGINREGEX] a r BEGIN_SET Ha) as (d' & Hl & Hrun).
      exists d'. split; [done|]. rewrite length_app in Hrun. cbn [length] in Hrun.
      rewrite Nat.add_1_r in Hrun. etrans; [exact Hrun|]. destruct (parse_end a) as [[] t]; done.
    + destruct (sub_tail_spec d [] (c :: a) r 0 Ha) as (d' & Hl & Hrun).
      exists d'. split; [done|]. rewrite app_nil_r in Hrun. etrans; [exact Hrun|].
      destruct (parse_end (c :: a)) as [[] t]; done.
Qed.

Lemma alt_text_nul a : NUL ∉ a → NUL ∉ alt_text a.
Proof. apply parse_alt_nul. Qed.

(** The closures of the next alternative. *)
Lemma OSRegex_closure_spec raw cells alts a mx :
  NUL ∉ a → (length alts < cells)%nat →
  OSRegex_closure (alt_text a ++ [NUL]) (length alts)
    (filled cells (λ a, Some (alt_closure a)) None alts) (or_d (partial true raw cells alts)) mx =
  Ret (Some (filled cells (λ a, Some (alt_closure a)) None (alts ++ [a]),
             or_d (partial true raw cells (alts ++ [a])), Nat.max mx (nprts a))).
Proof.
  intros Ha Hl. apply alt_text_nul in Ha. unfold OSRegex_closure.
  rewrite count_prts_spec by done. fold (nprts a). cbn [mbind outcome_bind partial or_d rm_size rm_prts_str
    prts_str_size sub_strings_size prts_str_alloc_size rm_sub_strings].
  pose proof (sizes_next alts a) as Hs. cbn zeta in Hs. rewrite Hs. cbn [mbind outcome_bind].
  rewrite set_closures_spec by (rewrite ?length_replicate; unfold nprts; (done || lia)).
  cbn [mbind outcome_bind]. unfold nprts. rewrite Nat.add_1_r, !splice_all
    by (by rewrite ?length_fmap, ?length_replicate).
  rewrite (filled_next cells (λ a, Some (alt_closure a)) None alts a) by done.
  rewrite (filled_next cells (λ a, Some (replicate (nprts a + 1) None)) None alts a).
  2: done.
  2: { unfold nprts. f_equal. rewrite replicate_add. done. }
  cbn [mbind outcome_bind]. f_equal. f_equal. f_equal; [f_equal; f_equal; f_equal|].
  - by destruct alts.
  - destruct (Nat.ltb_spec mx (length (prts_offsets 0 (alt_text a)))); lia.
Qed.

(** What the second loop does at the end of an alternative. *)
Lemma OSRegex_split_close fuel sub raw cells alts d a c rest :
  NUL ∉ a → c = OR ∨ c = NUL → (length alts < cells)%nat →
  ∃ d', length d' = S (length d + length a) ∧
    OSRegex_split (S fuel) (d ++ a ++ c :: rest) (length d) (length d + length a) (length alts)
      (partial sub raw cells alts) (max_prts sub alts) =
      if bool_decide (c = NUL)
      then Ret (Some (partial sub raw cells (alts ++ [a]), max_prts sub (alts ++ [a])))
      else OSRegex_split fuel (d' ++ rest) (length d') (length d') (length (alts ++ [a]))
             (partial sub raw cells (alts ++ [a])) (max_prts sub (alts ++ [a])).
Proof.
  intros Ha Hc Hl. cbn [OSRegex_split].
  assert (c_read (d ++ a ++ c :: rest) (length d + length a) = Ret c) as ->.
  { rewrite app_assoc, <-length_app. apply c_read_head. }
  cbn [mbind outcome_bind].
  assert (bool_decide (c = OR) || bool_decide (c = NUL) = true) as -> by (destruct Hc as [-> | ->]; done).
  rewrite c_write_lt by (rewrite !length_app; simpl; lia). cbn [mbind outcome_bind].
  assert (<[(length d + length a)%nat:=NUL]> (d ++ a ++ c :: rest) = d ++ a ++ NUL :: rest) as ->.
  { rewrite !insert_app_r_alt by lia. by replace (_ - _ - _)%nat with 0%nat by lia. }
  destruct (OSRegex_sub_spec d a rest Ha) as (d' & Hd & ->). cbn [mbind outcome_bind].
  exists (d' ++ [NUL]). split; [rewrite length_app; simpl; lia|].
  cbn [partial or_flags or_patterns]. rewrite (filled_next cells alt_flags 0 alts a) by done.
  rewrite (filled_next cells (λ a, Some (alt_text a ++ [NUL])) None alts a) by done. cbn [mbind outcome_bind].
  assert (length (d' ++ [NUL]) = S (length d + length a)) as -> by (rewrite length_app; simpl; lia).
  rewrite <-app_assoc. cbn [app]. rewrite length_app. cbn [length]. rewrite (Nat.add_1_r (length alts)).
  destruct sub; cbn [or_closure].
  - pose proof (OSRegex_closure_spec raw cells alts a (max_prts true alts) Ha Hl) as Hcl.
    cbn [partial or_d or_closure] in Hcl |- *. rewrite Hcl. cbn [mbind outcome_bind or_error or_raw].
    unfold max_prts. rewrite foldl_snoc. case_bool_decide; reflexivity.
  - cbn [mbind outcome_bind or_error or_raw partial or_closure or_d]. case_bool_decide; reflexivity.
Qed.

Lemma OSRegex_split_spec fuel sub raw cells alts d a rest :
  NUL ∉ a → NUL ∉ rest → OR ∉ a → (length rest < fuel)%nat →
  (length alts + length (alternatives (a ++ rest)) < cells)%nat →
  let alts' := alts ++ alternatives (a ++ rest) in
  OSRegex_split fuel (d ++ a ++ rest ++ [NUL]) (length d) (length d + length a) (length alts)
    (partial sub raw cells alts) (max_prts sub alts) =
  Ret (Some (partial sub raw cells alts', max_prts sub alts')).
Proof.
  cbn zeta. revert alts d a rest. induction fuel as [|fuel IH]; intros alts d a rest Ha Hr Hor Hf; [lia|].
  destruct rest as [|c rest].
  - rewrite app_nil_r, (alternatives_one a) by done. cbn [length]. intros Hcells.
    destruct (OSRegex_split_close fuel sub raw cells alts d a NUL []) as (d' & _ & E);
      [done|by right|lia|]. exact E.
  - apply not_elem_of_cons in Hr as [Hc Hr]. simpl in Hf. destruct (decide (c = OR)) as [->|Hco].
    + rewrite (alternatives_cons a) by done. cbn [length]. intros Hcells.
      destruct (OSRegex_split_close fuel sub raw cells alts d a OR (rest ++ [NUL])) as (d' & _ & E);
        [done|by left|lia|]. cbn [app]. rewrite E, bool_decide_eq_false_2 by done.
      assert (length (alts ++ [a]) + length (alternatives rest) < cells)%nat as Hlt
        by (rewrite length_app; simpl; lia).
      pose proof (IH (alts ++ [a]) d' [] rest (not_elem_of_nil _) Hr (not_elem_of_nil _)
        ltac:(lia) Hlt) as Hrun.
      cbn [app length] in Hrun. rewrite Nat.add_0_r in Hrun. rewrite Hrun.
      by rewrite <-app_assoc.
    + intros Hcells. assert ((a ++ [c]) ++ rest = a ++ c :: rest) as Eac by (by rewrite <-app_assoc).
      pose proof (IH alts d (a ++ [c]) rest) as Hrun. rewrite Eac in Hrun. rewrite <-Hrun; clear Hrun;
        [|by rewrite not_elem_of_app, not_elem_of_cons; split_and!; [..|apply not_elem_of_nil]|done
        |rewrite not_elem_of_app, not_elem_of_cons; split_and!; [done|congruence|apply not_elem_of_nil]|lia|done].
      cbn [OSRegex_split app]. rewrite <-!app_assoc. cbn [app].
      assert (c_read (d ++ a ++ c :: rest ++ [NUL]) (length d + length a) = Ret c) as ->.
      { rewrite app_assoc, <-length_app. apply c_read_head. }
      cbn [mbind outcome_bind]. rewrite !bool_decide_eq_false_2 by congruence. cbn [orb].
      rewrite length_app. cbn [length]. by rewrite Nat.add_assoc, Nat.add_1_r.
Qed.

(** The result of a compilation that succeeds. *)
Definition compiled_regex (sub : bool) (raw : string) (alts : list (list ascii)) : OSRegex :=
  let n := (max_prts sub alts + 1)%nat in
  mk_OSRegex 0 (Some raw) ((alt_flags <$> alts) ++ [0])
    (((λ a, Some (alt_text a ++ [NUL])) <$> alts) ++ [None])
    (if sub then Some (((λ a, Some (alt_closure a)) <$> alts) ++ [None]) else None)
    (mk_matching (Some (replicate n None))
       (if sub then Some (((λ a, Some (replicate (nprts a + 1) None)) <$> alts) ++ [None]) else None)
       (mk_size (Z.of_nat n * PTR) (if sub then prts_sizes alts else None)
          (if sub then Z.of_nat (S (length alts)) * PTR else 0))).

(** Once the first loop has succeeded, compilation yields the alternatives. *)
Lemma OSRegex_Compile_scan pattern flags l ps count :
  Z.of_nat (String.length pattern) ≤ OS_PATTERN_MAXSIZE →
  OSRegex_scan flags (c_str pattern) 0 0 0 = Ret (inr (l ++ [NUL], 0, ps, count)) →
  NUL ∉ l → S count = length (alternatives l) →
  OSRegex_Compile (Some pattern) flags =
    Ret (1, compiled_regex ((0 <? ps)%nat && flag_set flags OS_RETURN_SUBSTRING) pattern (alternatives l)).
Proof.
  intros Hmax Hscan Hn Hcnt. unfold OSRegex_Compile. rewrite (proj2 (Z.ltb_ge _ _)) by done. rewrite Hscan.
  cbn [mbind outcome_bind]. rewrite Z.eqb_refl. cbn [negb].
  set (sub := (0 <? ps)%nat && flag_set flags OS_RETURN_SUBSTRING).
  rewrite Hcnt, Nat.add_1_r. set (alts := alternatives l).
  pose proof (OSRegex_split_spec (length (l ++ [NUL])) sub pattern (S (length alts)) [] [] [] l
    (not_elem_of_nil _) Hn (not_elem_of_nil _)) as Hsplit.
  cbn [app length Nat.add] in Hsplit. fold alts in Hsplit.
  assert (partial sub pattern (S (length alts)) [] = mk_OSRegex 0 (Some pattern)
    (replicate (S (length alts)) 0) (replicate (S (length alts)) None)
    (if sub then Some (replicate (S (length alts)) None) else None)
    (if sub then mk_matching None (Some (replicate (S (length alts)) None))
       (mk_size 0 None (Z.of_nat (S (length alts)) * PTR)) else no_matching)) as Epart by done.
  rewrite Epart in Hsplit. assert (max_prts sub [] = 0%nat) as Emax by (by destruct sub).
  rewrite Emax in Hsplit. rewrite Hsplit by (rewrite ?length_app; simpl; lia).
  cbn [mbind outcome_bind]. f_equal. f_equal. unfold partial, compiled_regex. rewrite !filled_all. by destruct sub.
Qed.

(** Compilation always returns: it refuses the pattern or yields its alternatives. *)
Lemma OSRegex_Compile_spec pattern flags :
  has_char NUL pattern = false →
  ∃ r, OSRegex_Compile (Some pattern) flags = Ret r ∧
    ((∃ e n, r = OSRegex_fail e n) ∨
     ∃ sub alts, r = (1, compiled_regex sub pattern alts) ∧ alts ≠ [] ∧
       Forall (λ a, wfp a = true) alts ∧
       (sub = true → flag_set flags OS_RETURN_SUBSTRING = true)).
Proof.
  intros Hn%chars_nul. destruct (OSRegex_scan_ok flags _ (chars pattern) 0 0 0 (le_n _) Hn) as (r & Hr & Hok).
  pose proof (OSRegex_Compile_scan pattern flags) as Hcompile. unfold OSRegex_Compile in *.
  destruct (Z.ltb_spec OS_PATTERN_MAXSIZE (Z.of_nat (String.length pattern))) as [|Hmax];
    [by eexists; split; [done|left; eexists _, _]|].
  fold (c_str pattern) in Hr. rewrite Hr in Hcompile |- *. cbn [mbind outcome_bind].
  destruct r as [e|[[[m par] ps] count]]; [by eexists; split; [done|left; eexists _, _]|].
  destruct Hok as (l & -> & Hw & Hlen & Hcnt).
  destruct (Z.eqb_spec par 0) as [->|]; cbn [negb]; [|by eexists; split; [done|left; eexists _, _]].
  eexists. split; [apply (Hcompile l ps count Hmax eq_refl); [by apply (wfp_nul _ l (le_n _))|done]|]. right.
  eexists _, (alternatives l). split; [done|]. split_and!.
  - pose proof (length_alternatives l). by destruct (alternatives l).
  - apply Forall_forall. intros a Ha. by apply (wfp_alternatives l).
  - by intros [_ ?]%andb_true_iff.
Qed.

(** ** Execution *)

(** Reading the arrays of a compiled pattern. *)
Lemma c_read_alt {A B} (g : A → B) alts z i a :
  alts !! i = Some a → c_read ((g <$> alts) ++ [z]) i = Ret (g a).
Proof.
  intros Ha. apply c_read_Some. rewrite lookup_app_l by (rewrite length_fmap; by eapply lookup_lt_Some).
  by rewrite list_lookup_fmap, Ha.
Qed.

Lemma c_read_alts_end {A B} (g : A → B) alts z : c_read ((g <$> alts) ++ [z]) (length alts) = Ret z.
Proof. apply c_read_Some. by rewrite lookup_app_r, length_fmap, Nat.sub_diag by (by rewrite length_fmap). Qed.

(** The positions of an alternative: inside the subject, and none after the last
    parenthesis. *)
Definition positions_ok (a s : list ascii) (ps : list (option Z)) : Prop :=
  (nprts a < length ps)%nat ∧ ∀ i v, ps !! i = Some (Some v) →
    (i < nprts a)%nat ∧ 0 ≤ v ≤ Z.of_nat (length s).

Definition result_ok (s : list ascii) (r : option Z) : Prop :=
  ∀ v, r = Some v → -1 ≤ v ≤ Z.of_nat (length s).

Lemma engine_plain sg a s flags :
  wfp a = true → NUL ∉ s →
  ∃ r ps, _OS_Regex sg (alt_text a ++ [NUL]) (s ++ [NUL]) None flags [] = Ret (r, ps) ∧ result_ok s r.
Proof.
  intros Hw Hs. destruct (_OS_Regex_ok sg (alt_text a) s [] None flags 0 0) with (ps := @nil (option Z))
    as (r & ps & E & Hr & _); [by apply wfp_parse_alt|done|done|done|]. by exists r, ps.
Qed.

Lemma engine_closure sg a s flags m :
  wfp a = true → NUL ∉ s → (nprts a < m)%nat →
  ∃ r ps, _OS_Regex sg (alt_text a ++ [NUL]) (s ++ [NUL]) (Some (alt_closure a)) flags (replicate m None) =
      Ret (r, ps) ∧ result_ok s r ∧ length ps = m ∧ positions_ok a s ps.
Proof.
  intros Hw Hs Hm. destruct (_OS_Regex_ok sg (alt_text a) s [] (Some (alt_closure a)) flags (nprts a) m)
    with (ps := @replicate (option Z) m None) as (r & ps & E & Hr & Hl & Hps & Hmark).
  - by apply wfp_parse_alt.
  - done.
  - split; [lia|]. by exists (prts_offsets 0 (alt_text a)).
  - split; [by rewrite length_replicate|]. split.
    + by apply Forall_replicate.
    + intros i v [Hi _]%lookup_replicate_1. done.
  - exists r, ps. split; [done|]. split; [done|]. split; [done|]. split; [lia|]. intros i v Hi.
    split; [by eapply Hmark|]. by apply (proj1 (Forall_lookup _ _) Hps i (Some v) Hi).
Qed.

Lemma w_FreeArray_ok {A} (l : list (option A)) :
  None ∈ l → ∃ l', w_FreeArray l = Ret l' ∧ length l' = length l ∧ None ∈ l'.
Proof.
  induction l as [|[x|] l IH]; intros Hn; [by apply elem_of_nil in Hn|..].
  - apply elem_of_cons in Hn as [?|Hn]; [done|]. destruct (IH Hn) as (l' & E & Hl & Hn').
    exists (None :: l'). cbn [w_FreeArray]. rewrite E. split; [done|]. split; [simpl; lia|].
    apply elem_of_cons. by left.
  - exists (None :: l). split; [done|]. split; [done|]. apply elem_of_cons. by left.
Qed.

Section malloc.
Context (sg : bool) (malloc_ok : Z → bool).

(** Without memory for an empty block, what lies between the parentheses can be copied
    whatever their positions are. *)
Lemma copy_sub_strings_ok fuel a s ps j k subs :
  malloc_ok 0 = false → positions_ok a s ps → (j ≤ nprts a)%nat → (nprts a < j + fuel)%nat →
  (k + k ≤ j)%nat → (nprts a < length subs)%nat → None ∈ subs →
  ∃ ok subs', copy_sub_strings malloc_ok fuel (s ++ [NUL]) ps j k subs = Ret (ok, subs') ∧
    length subs' = length subs ∧ None ∈ subs'.
Proof.
  intros Hm [Hlen Hpos]. revert j k subs.
  induction fuel as [|fuel IH]; intros j k subs Hj Hf Hk Hsubs Hn; [lia|]. cbn [copy_sub_strings].
  destruct (lookup_lt_is_Some_2 ps j) as [o Ho]; [lia|]. rewrite (c_read_Some _ _ _ Ho).
  cbn [mbind outcome_bind]. destruct o as [o|]; [|by eexists _, _].
  destruct (Hpos j o Ho) as [Hj' Hov].
  destruct (lookup_lt_is_Some_2 ps (j + 1)) as [c Hc]; [lia|]. rewrite (c_read_Some _ _ _ Hc).
  cbn [mbind outcome_bind]. destruct c as [c|]; [|by eexists _, _].
  destruct (Hpos _ c Hc) as [Hj2 Hcv]. set (len := size_t (c - o)). set (size := size_t (len + 1)).
  destruct (malloc_ok size) eqn:Hsize; cbn [negb].
  - assert (len < size) as Hlt.
    { assert (0 ≤ len < 2 ^ 64) by (apply Z.mod_pos_bound; lia).
      destruct (decide (len = 2 ^ 64 - 1)) as [E|E].
      - exfalso. assert (size = 0) as E0 by (subst size; by rewrite E). congruence.
      - subst size. unfold size_t at 1. rewrite Z.mod_small; lia. }
    rewrite (proj2 (Z.leb_gt _ _)) by done. rewrite (proj2 (Z.ltb_ge _ _)) by lia.
    unfold c_at, advance. rewrite decide_True by (rewrite length_app; simpl; lia).
    cbn [mbind outcome_bind]. rewrite c_write_lt by lia. cbn [mbind outcome_bind].
    rewrite c_write_lt by (rewrite length_insert; lia). cbn [mbind outcome_bind].
    match goal with |- context [copy_sub_strings _ _ _ _ _ _ ?l] => destruct (IH (j + 2)%nat (k + 1)%nat l)
      as (ok & subs' & E & Hl & Hn') end; [lia|lia|lia|by rewrite !length_insert| |].
    + eapply list_elem_of_lookup_2, (list_lookup_insert_eq _ (k + 1)). rewrite length_insert. lia.
    + exists ok, subs'. rewrite !length_insert in Hl. done.
  - destruct (w_FreeArray_ok subs Hn) as (l' & -> & Hl & Hn'). by eexists _, _.
Qed.

(** The arrays [m] have room for the alternatives. *)
Definition usable (alts : list (list ascii)) (m : regex_matching) : Prop :=
  ∃ subs all have, m = mk_matching (Some subs) (Some all)
      (mk_size (sub_strings_size (rm_size m)) (Some have) (prts_str_alloc_size (rm_size m))) ∧
    (max_prts true alts < length subs)%nat ∧ None ∈ subs ∧
    ∀ i a, alts !! i = Some a →
      ∃ ps, all !! i = Some (Some ps) ∧ have !! i = Some (Z.of_nat (length ps) * PTR) ∧
        (nprts a < length ps)%nat.

Definition cell_len (o : option (list (option Z))) : option nat := length <$> o.

(** Two sets of arrays of the same shape. *)
Definition same_shape (m m' : regex_matching) : Prop :=
  rm_size m' = rm_size m ∧
  (∃ subs subs', rm_sub_strings m = Some subs ∧ rm_sub_strings m' = Some subs' ∧
     length subs' = length subs ∧ None ∈ subs') ∧
  (∃ all all', rm_prts_str m = Some all ∧ rm_prts_str m' = Some all' ∧
     cell_len <$> all' = cell_len <$> all).

Lemma cells_of_bytes n : cells_of (Z.of_nat n * PTR) = n.
Proof. unfold cells_of, PTR. rewrite Z.div_mul by done. apply Nat2Z.id. Qed.

Lemma max_prts_le alts i a : alts !! i = Some a → (nprts a ≤ max_prts true alts)%nat.
Proof.
  unfold max_prts. assert (∀ m, (m ≤ foldl (λ m a, Nat.max m (nprts a)) m alts)%nat ∧
    (alts !! i = Some a → nprts a ≤ foldl (λ m a, Nat.max m (nprts a)) m alts)%nat) as H; [|apply H].
  revert i. induction alts as [|b alts IH]; intros i m; [done|]. cbn [foldl].
  destruct (IH (pred i) (Nat.max m (nprts b))) as [H1 H2]. split; [lia|].
  destruct i as [|i]; cbn; [intros [= ->]; lia|exact H2].
Qed.

Lemma usable_shape alts m m' : usable alts m → same_shape m m' → usable alts m'.
Proof.
  intros (subs & all & have & Em & Hmax & _ & Hall) (Hsz & (subs0 & subs' & E1 & E2 & Hl & Hn) &
    (all0 & all' & E3 & E4 & Hlen)). rewrite Em in E1, E3, Hsz. simpl in E1, E3, Hsz. simplify_eq.
  exists subs', all', have. split; [by destruct m'; simpl in *; subst|]. split; [lia|]. split; [done|].
  intros i a Ha. destruct (Hall i a Ha) as (ps & Hps & Hh & Hlt).
  assert ((cell_len <$> all') !! i = Some (Some (length ps))) as Hi
    by (rewrite Hlen, list_lookup_fmap, Hps; done).
  rewrite list_lookup_fmap in Hi. destruct (all' !! i) as [[ps'|]|]; simplify_eq/=.
  exists ps'. split; [done|]. rewrite Hi. done.
Qed.

Lemma same_shape_trans m1 m2 m3 : same_shape m1 m2 → same_shape m2 m3 → same_shape m1 m3.
Proof.
  intros (E1 & (s1 & s2 & H1 & H2 & H3 & H4) & (a1 & a2 & H5 & H6 & H7))
    (E2 & (t2 & t3 & K1 & K2 & K3 & K4) & (b2 & b3 & K5 & K6 & K7)). simplify_eq.
  split; [congruence|]. split.
  - exists s1, t3. split_and!; [done..|lia|done].
  - exists a1, b3. split_and!; [done..|congruence].
Qed.

Lemma same_shape_none m m' :
  same_shape m m' → (∀ all, rm_prts_str m = Some all → None ∈ all) → ∀ all, rm_prts_str m' = Some all → None ∈ all.
Proof.
  intros (_ & _ & (all & all' & E1 & E2 & E)) Hn x Hx. rewrite E2 in Hx. simplify_eq.
  specialize (Hn all E1). assert (None ∈ cell_len <$> x) as Hc by (rewrite E; by apply (list_elem_of_fmap_2' _ _ None)).
  apply list_elem_of_fmap in Hc as ([ps|] & Hc & ?); done.
Qed.

Lemma same_shape_cell i ps ps' subs subs' all size :
  all !! i = Some (Some ps) → length ps' = length ps → length subs' = length subs → None ∈ subs' →
  same_shape (mk_matching (Some subs) (Some all) size) (mk_matching (Some subs') (Some (<[i:=Some ps']> all)) size).
Proof.
  intros Hi Hps Hsubs Hn. split; [done|]. split; [by exists subs, subs'|]. exists all, (<[i:=Some ps']> all).
  split; [done|]. split; [done|]. rewrite list_fmap_insert. apply list_insert_id.
  rewrite list_lookup_fmap, Hi. cbn. by rewrite Hps.
Qed.

Lemma execute_closures_ok fuel reg raw alts s i m :
  malloc_ok 0 = false → NUL ∉ s → Forall (λ a, wfp a = true) alts → usable alts m →
  or_patterns reg = or_patterns (compiled_regex true raw alts) →
  or_flags reg = or_flags (compiled_regex true raw alts) →
  (i ≤ length alts)%nat → (length alts < i + fuel)%nat →
  ∃ r m', execute_closures sg malloc_ok fuel (s ++ [NUL]) reg
      (((λ a, Some (alt_closure a)) <$> alts) ++ [None]) i m = Ret (r, m') ∧
    result_ok s r ∧ (m' = m ∨ same_shape m m').
Proof.
  intros Hm Hs Hw Hu Hpat Hfl. revert i m Hu.
  induction fuel as [|fuel IH]; intros i m Hu Hi Hf; [lia|]. cbn [execute_closures].
  rewrite Hpat, Hfl. cbn [compiled_regex or_patterns or_flags].
  destruct (alts !! i) as [a|] eqn:Ha.
  - rewrite (c_read_alt (λ a, Some (alt_text a ++ [NUL])) _ _ _ _ Ha). cbn [mbind outcome_bind].
    destruct Hu as (subs & all & have & Em & Hmax & Hn & Hall). rewrite Em.
    cbn [rm_prts_str c_deref mbind outcome_bind rm_size prts_str_size].
    destruct (Hall i a Ha) as (ps & Hps & Hh & Hlt). rewrite (c_read_Some _ _ _ Hps), (c_read_Some _ _ _ Hh).
    cbn [c_deref mbind outcome_bind]. rewrite cells_of_bytes, c_store_ok by (rewrite length_replicate; lia).
    cbn [mbind outcome_bind]. rewrite (c_read_alt (λ a, Some (alt_closure a)) _ _ _ _ Ha), (c_read_alt alt_flags _ _ _ _ Ha).
    cbn [mbind outcome_bind].
    assert (splice ps 0 (replicate (length ps) None) = replicate (length ps) None) as ->.
    { unfold splice. cbn [take app Nat.add]. rewrite length_replicate, drop_all. by rewrite app_nil_r. }
    assert (wfp a = true) as Hwa by (by eapply (proj1 (Forall_lookup _ _) Hw)).
    destruct (engine_closure sg a s (alt_flags a) (length ps) Hwa Hs Hlt) as (r & ps' & -> & Hr & Hl' & Hpos).
    cbn [mbind outcome_bind rm_sub_strings rm_prts_str].
    destruct r as [v|].
    + destruct (copy_sub_strings_ok (length ps') a s ps' 0 0 subs) as (ok & subs' & -> & Hls & Hn');
        [done|done|lia|lia|lia|pose proof (max_prts_le alts i a Ha); lia|done|].
      cbn [mbind outcome_bind]. eexists _, _. split; [done|]. split; [by destruct ok|]. right.
      by apply (same_shape_cell i ps ps').
    + match goal with |- context [execute_closures _ _ _ _ _ _ _ ?m1] => set (m' := m1) end.
      assert (same_shape m m') as Hsh by (rewrite Em; by apply (same_shape_cell i ps ps')).
      destruct (IH (S i) m') as (r' & m2 & E & Hr' & Hm2); [|apply lookup_lt_Some in Ha; lia|lia|].
      { eapply usable_shape; [|exact Hsh]. by exists subs, all, have. }
      exists r', m2. split; [exact E|]. split; [done|]. right. rewrite <-Em.
      destruct Hm2 as [->|Hm2]; [done|]. by eapply same_shape_trans.
  - apply lookup_ge_None_1 in Ha. assert (i = length alts) as -> by lia.
    rewrite (c_read_alts_end (λ a, Some (alt_text a ++ [NUL]))). cbn [mbind outcome_bind].
    eexists _, _. split; [done|]. split; [done|by left].
Qed.

Lemma execute_plain_ok fuel reg sub raw alts s i :
  NUL ∉ s → Forall (λ a, wfp a = true) alts →
  or_patterns reg = or_patterns (compiled_regex sub raw alts) →
  or_flags reg = or_flags (compiled_regex sub raw alts) →
  (i ≤ length alts)%nat → (length alts < i + fuel)%nat →
  ∃ r, execute_plain sg fuel (s ++ [NUL]) reg i = Ret r ∧ result_ok s r.
Proof.
  intros Hs Hw Hpat Hfl. revert i.
  induction fuel as [|fuel IH]; intros i Hi Hf; [lia|]. cbn [execute_plain].
  rewrite Hpat, Hfl. cbn [compiled_regex or_patterns or_flags].
  destruct (alts !! i) as [a|] eqn:Ha.
  - rewrite (c_read_alt (λ a, Some (alt_text a ++ [NUL])) _ _ _ _ Ha). cbn [mbind outcome_bind].
    rewrite (c_read_alt alt_flags _ _ _ _ Ha). cbn [mbind outcome_bind].
    assert (wfp a = true) as Hwa by (by eapply (proj1 (Forall_lookup _ _) Hw)).
    destruct (engine_plain sg a s (alt_flags a) Hwa Hs) as (r & ps & -> & Hr). cbn [mbind outcome_bind].
    destruct r as [v|]; [by eexists|]. apply IH; [apply lookup_lt_Some in Ha; lia|lia].
  - apply lookup_ge_None_1 in Ha. assert (i = length alts) as -> by lia.
    rewrite (c_read_alts_end (λ a, Some (alt_text a ++ [NUL]))). cbn [mbind outcome_bind].
    by eexists.
Qed.

(** ** The arrays of a compiled pattern *)

(** A compiled pattern, with arrays that may hold the result of an earlier execution. *)
Definition reg_ok (sub : bool) (raw : string) (alts : list (list ascii)) (reg : OSRegex) : Prop :=
  let c := compiled_regex sub raw alts in
  alts ≠ [] ∧ Forall (λ a, wfp a = true) alts ∧
  ∃ d, reg = mk_OSRegex 0 (Some raw) (or_flags c) (or_patterns c) (or_closure c) d ∧
    rm_size d = rm_size (or_d c) ∧ (∃ l, rm_sub_strings d = Some l ∧ None ∈ l) ∧
    (sub = true → usable alts d) ∧ (∀ all, rm_prts_str d = Some all → None ∈ all).

Lemma compiled_reg_ok sub raw alts :
  alts ≠ [] → Forall (λ a, wfp a = true) alts → reg_ok sub raw alts (compiled_regex sub raw alts).
Proof.
  intros Hne Hw. split; [done|]. split; [done|]. exists (or_d (compiled_regex sub raw alts)).
  split; [done|]. split; [done|].
  assert (None ∈ @replicate (option (list ascii)) (max_prts sub alts + 1) None) as Hn.
  { rewrite Nat.add_1_r. apply elem_of_cons. by left. }
  split; [by eexists|]. split.
  2: { cbn. destruct sub; intros all [= <-]. apply elem_of_app. right. by apply list_elem_of_singleton. }
  intros ->. cbn [compiled_regex or_d]. eexists _, _, (default [] (prts_sizes alts)). split.
  { cbn [rm_size sub_strings_size prts_str_alloc_size]. by destruct alts. }
  split; [rewrite length_replicate; lia|]. split; [done|]. intros i a Ha.
  apply lookup_lt_Some in Ha as Hlt. exists (replicate (nprts a + 1) None).
  rewrite length_replicate, lookup_app_l, list_lookup_fmap, Ha by (by rewrite length_fmap).
  split; [done|]. split; [|lia]. destruct alts as [|b alts]; [done|]. unfold prts_sizes, default.
  cbn [from_option id]. by rewrite lookup_app_l, list_lookup_fmap, Ha by (by rewrite length_fmap).
Qed.

(** Freeing the strings keeps the shape of the arrays. *)
Lemma free_sub_strings_ok m l :
  rm_sub_strings m = Some l → None ∈ l →
  ∃ l', free_sub_strings m = Ret (mk_matching (Some l') (rm_prts_str m) (rm_size m)) ∧
    length l' = length l ∧ None ∈ l'.
Proof.
  intros Hl Hn. unfold free_sub_strings. rewrite Hl.
  destruct (w_FreeArray_ok l Hn) as (l' & -> & Hlen & Hn'). by exists l'.
Qed.

(** Execution on the arrays of the pattern itself. *)
Lemma OSRegex_Execute_own sub raw alts reg s :
  malloc_ok 0 = false → reg_ok sub raw alts reg → NUL ∉ s →
  ∃ r reg', OSRegex_Execute sg malloc_ok (Some (s ++ [NUL])) reg = Ret (r, reg') ∧
    result_ok s r ∧ reg_ok sub raw alts reg'.
Proof.
  intros Hm (Hne & Hw & d & Ereg & Hsz & (l & Hl & Hn) & Hu & Hnone) Hs.
  destruct (free_sub_strings_ok d l Hl Hn) as (l' & Hfree & Hlen & Hn').
  set (d1 := mk_matching (Some l') (rm_prts_str d) (rm_size d)) in *.
  assert (sub = true → usable alts d1) as Hu1.
  { intros Hsub. eapply usable_shape; [by apply Hu|]. destruct (Hu Hsub) as (? & all & ? & Ed & _).
    split; [done|]. split; [by exists l, l'|]. exists all, all.
    assert (rm_prts_str d = Some all) as Ha by (by rewrite Ed). by split_and!. }
  unfold OSRegex_Execute, OSRegex_Execute_ex. rewrite Ereg. cbn [or_d]. rewrite Hfree.
  cbn [mbind outcome_bind or_patterns or_closure].
  destruct sub.
  - destruct (execute_closures_ok (length (or_patterns (compiled_regex true raw alts))) reg raw alts s 0 d1)
      as (r & d2 & E & Hr & Hd2); [done|done|done|by apply Hu1|by rewrite Ereg|by rewrite Ereg|lia| |].
    { cbn [compiled_regex or_patterns]. rewrite length_app, length_fmap. simpl. lia. }
    rewrite <-Ereg. cbn [compiled_regex or_closure]. rewrite E. cbn [mbind outcome_bind].
    eexists r, _. split; [by rewrite Ereg|]. split; [done|]. split; [done|]. split; [done|].
    exists d2. split; [by rewrite Ereg|]. destruct Hd2 as [->|Hd2].
    + split; [done|]. by split; [by exists l'|].
    + pose proof Hd2 as (E1 & (? & l2 & _ & E2 & _ & Hn2) & _). split; [by rewrite E1|].
      split; [by exists l2|]. split; [intros _; by eapply usable_shape, Hd2; apply Hu1|].
      exact (same_shape_none _ _ Hd2 Hnone).
  - destruct (execute_plain_ok (length (or_patterns (compiled_regex false raw alts))) reg false raw alts s 0)
      as (r & E & Hr); [done|done|by rewrite Ereg|by rewrite Ereg|lia| |].
    { cbn [compiled_regex or_patterns]. rewrite length_app, length_fmap. simpl. lia. }
    rewrite <-Ereg. cbn [compiled_regex or_closure]. rewrite E. cbn [mbind outcome_bind].
    eexists r, _. split; [by rewrite Ereg|]. split; [done|]. split; [done|]. split; [done|].
    exists d1. split; [by rewrite Ereg|]. split; [done|]. by split; [by exists l'|].
Qed.

(** ** Contexts *)

(** The size noted for an array of positions. *)
Definition cell_bytes (o : option (list (option Z))) : Z :=
  match o with None => 0 | Some ps => Z.of_nat (length ps) * PTR end.

(** Every array of positions has its size noted, and only missing ones have size 0; there
    are two [int]s for each pointer, the second half of them unused. *)
Definition cells_ok (all : list (option (list (option Z)))) (have : list Z) : Prop :=
  length have = (2 * length all)%nat ∧
  (∀ i o, all !! i = Some o → have !! i = Some (cell_bytes o) ∧ o ≠ Some []) ∧
  (∀ i, (length all ≤ i < length have)%nat → have !! i = Some 0).

(** A context: its sizes are those of its arrays. *)
Definition ctx_ok (m : regex_matching) : Prop :=
  match rm_sub_strings m with
  | None => sub_strings_size (rm_size m) = 0
  | Some l => sub_strings_size (rm_size m) = Z.of_nat (length l) * PTR ∧ None ∈ l
  end ∧
  match rm_prts_str m, prts_str_size (rm_size m) with
  | None, None => prts_str_alloc_size (rm_size m) = 0
  | Some all, Some have =>
      prts_str_alloc_size (rm_size m) = Z.of_nat (length all) * PTR ∧ all ≠ [] ∧ cells_ok all have
  | _, _ => False
  end.

Lemma no_matching_ok : ctx_ok no_matching.
Proof. done. Qed.

Lemma grow_spec {A} (zero : A) l old n :
  length l = old → (old ≤ n)%nat → grow zero (Some l) old n = l ++ replicate (n - old) zero.
Proof.
  intros <- Hn. unfold grow, c_realloc. rewrite (take_ge l n) by lia. by rewrite take_app_length.
Qed.

Lemma grow_sub_strings_ok reg raw sub alts m :
  reg_ok sub raw alts reg → ctx_ok m →
  ∃ l, rm_sub_strings (grow_sub_strings reg m) = Some l ∧ None ∈ l ∧
    (max_prts sub alts < length l)%nat ∧
    sub_strings_size (rm_size (grow_sub_strings reg m)) = Z.of_nat (length l) * PTR ∧
    rm_prts_str (grow_sub_strings reg m) = rm_prts_str m ∧
    prts_str_size (rm_size (grow_sub_strings reg m)) = prts_str_size (rm_size m) ∧
    prts_str_alloc_size (rm_size (grow_sub_strings reg m)) = prts_str_alloc_size (rm_size m).
Proof.
  intros (_ & _ & d & -> & Hsz & _) [Hsub _]. unfold grow_sub_strings. cbn [or_d]. rewrite Hsz.
  cbn [compiled_regex or_d rm_size sub_strings_size]. set (k := max_prts sub alts).
  destruct (Z.ltb_spec (sub_strings_size (rm_size m)) (Z.of_nat (k + 1) * PTR)) as [Hlt|Hge].
  - cbn [rm_sub_strings rm_size sub_strings_size rm_prts_str prts_str_size prts_str_alloc_size].
    rewrite cells_of_bytes. destruct (rm_sub_strings m) as [l|].
    + destruct Hsub as [E Hn]. rewrite E, cells_of_bytes in *. unfold PTR in Hlt.
      rewrite grow_spec by lia. eexists. split; [done|]. rewrite length_app, length_replicate.
      split; [apply elem_of_app; by left|]. split_and!; try done; [lia|]. unfold PTR. lia.
    + eexists. split; [done|]. cbn [grow]. rewrite length_replicate.
      split; [rewrite Nat.add_1_r; apply elem_of_cons; by left|]. split_and!; (done || lia).
  - destruct (rm_sub_strings m) as [l|]; [|unfold PTR in Hge; lia]. destruct Hsub as [E Hn].
    rewrite E in Hge. unfold PTR in Hge. exists l. split_and!; (done || lia).
Qed.

Lemma cells_ok_app all have n :
  cells_ok all have → cells_ok (all ++ replicate n None) (have ++ replicate (2 * n) 0).
Proof.
  intros (Hl & Hc & Hz). split; [rewrite !length_app, !length_replicate; lia|]. split.
  - intros i o. rewrite lookup_app. destruct (all !! i) as [o'|] eqn:Ho.
    + intros [= <-]. destruct (Hc i o' Ho) as [Hh Hne]. split; [|done]. rewrite lookup_app_l; [done|].
      apply lookup_lt_Some in Ho. lia.
    + apply lookup_ge_None_1 in Ho. intros [-> Hi]%lookup_replicate. split; [|done]. cbn [cell_bytes].
      destruct (decide (i < length have)%nat) as [Hlt|Hge]; [rewrite lookup_app_l by done; apply Hz; lia|].
      rewrite lookup_app_r by lia. apply lookup_replicate. split; [done|lia].
  - rewrite !length_app, !length_replicate. intros i Hi.
    destruct (decide (i < length have)%nat) as [Hlt|Hge]; [rewrite lookup_app_l by done; apply Hz; lia|].
    rewrite lookup_app_r by lia. apply lookup_replicate. split; [done|lia].
Qed.

Lemma cells_ok_insert all have i ps :
  cells_ok all have → (i < length all)%nat → ps ≠ [] →
  cells_ok (<[i:=Some ps]> all) (<[i:=Z.of_nat (length ps) * PTR]> have).
Proof.
  intros (Hl & Hc & Hz) Hi Hne. split; [by rewrite !length_insert|]. split.
  - intros j o. rewrite list_lookup_insert_Some. intros [(<- & <- & _)|[Hij Hj]].
    + split; [|congruence]. rewrite list_lookup_insert_eq by lia. done.
    + rewrite list_lookup_insert_ne by done. by apply Hc.
  - rewrite !length_insert. intros j Hj. rewrite list_lookup_insert_ne by lia. by apply Hz.
Qed.

(** An array of positions gets room for [k] parentheses. *)
Lemma grow_cell_ok k i all have :
  cells_ok all have → (i < length all)%nat →
  ∃ all' have' ps, grow_cell (Z.of_nat (k + 1) * PTR) i all have = Ret (all', have') ∧
    cells_ok all' have' ∧ length all' = length all ∧
    (∀ j, (j ≠ i)%nat → all' !! j = all !! j) ∧ all' !! i = Some (Some ps) ∧ (k < length ps)%nat.
Proof.
  intros Hok Hi. assert (∀ ps : list (option Z), length ps = (k + 1)%nat →
    cells_ok (<[i:=Some ps]> all) (<[i:=Z.of_nat (k + 1) * PTR]> have)) as Hins.
  { intros ps Elen. rewrite <-Elen. apply cells_ok_insert; [done|lia|]. intros ->. simpl in Elen. lia. }
  assert (∀ j o, (j ≠ i)%nat → <[i:=o]> all !! j = all !! j) as Hother
    by (intros; by apply list_lookup_insert_ne).
  destruct Hok as (Hl & Hc & Hz). destruct (lookup_lt_is_Some_2 all i Hi) as [o Ho].
  destruct (Hc i o Ho) as [Hh Hne]. unfold grow_cell.
  rewrite (c_read_Some _ _ _ Hh), (c_read_Some _ _ _ Ho). cbn [mbind outcome_bind].
  rewrite cells_of_bytes, !c_write_lt by lia. cbn [mbind outcome_bind].
  destruct o as [ps|]; cbn [cell_bytes].
  - assert (0 < length ps)%nat by (destruct ps; [done|simpl; lia]).
    rewrite (proj2 (Z.eqb_neq _ _)) by (unfold PTR; lia).
    destruct (Z.ltb_spec (Z.of_nat (length ps) * PTR) (Z.of_nat (k + 1) * PTR)) as [H1|H1];
      unfold PTR in H1; [|by exists all, have, ps; split_and!; (done || lia)].
    rewrite cells_of_bytes, grow_spec by lia.
    assert (length (ps ++ replicate (k + 1 - length ps) None) = k + 1)%nat as Elen
      by (rewrite length_app, length_replicate; lia).
    eexists _, _, _. split; [done|]. split; [by apply Hins|]. rewrite length_insert.
    split_and!; [done|by auto|by apply list_lookup_insert_eq|lia].
  - eexists _, _, _. split; [done|]. split; [apply Hins; by rewrite length_replicate|].
    rewrite length_insert. split_and!; [done|by auto|by apply list_lookup_insert_eq|].
    rewrite length_replicate. lia.
Qed.

(** The arrays of positions from [i] on get room for the parentheses of the alternatives. *)
Lemma grow_prts_ok alts i all have :
  cells_ok all have → (i + length alts ≤ length all)%nat →
  ∃ all' have', grow_prts (((λ a, Z.of_nat (nprts a + 1) * PTR) <$> alts) ++ [0]) i all have = Ret (all', have') ∧
    cells_ok all' have' ∧ length all' = length all ∧
    (∀ j, (j < i)%nat → all' !! j = all !! j) ∧
    (∀ j a, alts !! j = Some a → ∃ ps, all' !! (i + j)%nat = Some (Some ps) ∧ (nprts a < length ps)%nat).
Proof.
  revert i all have. induction alts as [|a alts IH]; intros i all have Hok Hi.
  { exists all, have. split_and!; try done. }
  cbn [fmap list_fmap app grow_prts]. simpl in Hi. unfold PTR at 1. rewrite (proj2 (Z.eqb_neq _ _)) by lia.
  destruct (grow_cell_ok (nprts a) i all have Hok) as (all1 & have1 & ps & -> & Hok1 & Hl1 & Hsame & Hps & Hlt); [lia|].
  cbn [mbind outcome_bind].
  destruct (IH (S i) all1 have1 Hok1) as (all' & have' & -> & Hok' & Hl' & Hbefore & Hafter); [lia|].
  exists all', have'. split; [done|]. split; [done|]. split; [lia|]. split.
  - intros j Hj. rewrite Hbefore by lia. apply Hsame. lia.
  - intros [|j] b Hb; simpl in Hb; [simplify_eq|].
    + exists ps. rewrite Nat.add_0_r, Hbefore by lia. done.
    + destruct (Hafter j b Hb) as (qs & Hqs & ?). exists qs. by rewrite Nat.add_succ_r.
Qed.

(** There is a cell for every alternative of [reg]. *)
Lemma grow_prts_alloc_ok raw alts reg m :
  reg_ok true raw alts reg → ctx_ok m →
  ∃ all have, grow_prts_alloc reg m = mk_matching (rm_sub_strings m) (Some all)
      (mk_size (sub_strings_size (rm_size m)) (Some have) (Z.of_nat (length all) * PTR)) ∧
    cells_ok all have ∧ (length alts < length all)%nat.
Proof.
  intros (_ & _ & d & -> & Hsz & _) [_ Hprts]. unfold grow_prts_alloc. cbn [or_d]. rewrite Hsz.
  cbn [compiled_regex or_d rm_size prts_str_alloc_size prts_str_size]. set (k := S (length alts)).
  destruct (rm_prts_str m) as [all|] eqn:Eall, (prts_str_size (rm_size m)) as [have|] eqn:Ehave; try done.
  - destruct Hprts as (Ealloc & _ & Hok). rewrite Ealloc.
    destruct (Z.ltb_spec (Z.of_nat (length all) * PTR) (Z.of_nat k * PTR)) as [Hlt|Hge]; unfold PTR in *.
    + eexists (all ++ replicate (k - length all) None), (have ++ replicate (2 * (k - length all)) 0).
      rewrite !(cells_of_bytes _ : cells_of (Z.of_nat _ * 8) = _). unfold default. cbn [from_option id].
      rewrite !grow_spec by (destruct Hok; lia). split; [|split; [by apply cells_ok_app|]].
      * f_equal. rewrite length_app, length_replicate. f_equal; [f_equal; f_equal; f_equal; lia|lia].
      * rewrite length_app, length_replicate. lia.
    + exists all, have. split; [|split; [done|lia]]. destruct m as [? ? []]. simpl in *. by simplify_eq.
  - rewrite Hprts. rewrite (proj2 (Z.ltb_lt _ _)) by (unfold PTR; lia).
    change (cells_of 0) with 0%nat. rewrite cells_of_bytes. cbn [default grow].
    exists (replicate k None), (replicate (2 * k) 0). rewrite length_replicate. split; [|split; [|lia]].
    + cbn [take app]. by rewrite Nat.sub_0_r.
    + apply (cells_ok_app [] [] k). split; [done|]. split; [done|]. simpl. lia.
Qed.

(** The arrays of positions of a context before the execution of [reg]. *)
Lemma grow_prts_str_ok sub raw alts reg m l :
  reg_ok sub raw alts reg → ctx_ok m →
  rm_sub_strings m = Some l → (max_prts sub alts < length l)%nat →
  ∃ m', grow_prts_str reg m = Ret m' ∧ ctx_ok m' ∧ rm_sub_strings m' = Some l ∧ (sub = true → usable alts m').
Proof.
  intros Hreg Hctx Hl Hmax. unfold grow_prts_str. destruct sub.
  - destruct (grow_prts_alloc_ok raw alts reg m Hreg Hctx) as (all & have & -> & Hok & Hlen).
    destruct Hreg as (Hne & _ & d & -> & Hsz & _). cbn [or_d]. rewrite Hsz.
    cbn [compiled_regex or_d rm_size prts_str_size]. destruct alts as [|b alts]; [done|].
    cbn [prts_sizes]. set (alts' := b :: alts) in *. cbn [rm_prts_str rm_size prts_str_size c_deref mbind outcome_bind].
    destruct (grow_prts_ok alts' 0 all have Hok) as (all' & have' & -> & Hok' & Hl' & _ & Hroom); [lia|].
    cbn [mbind outcome_bind rm_sub_strings sub_strings_size prts_str_alloc_size]. rewrite Hl, <-Hl'.
    destruct Hctx as [Hsub _]. rewrite Hl in Hsub. eexists. split; [done|].
    split; [split; [done|split; [done|split; [intros ->; simpl in Hl'; lia|done]]]|].
    split; [done|]. intros _. exists l, all', have'. split; [done|]. split; [done|]. split; [apply Hsub|].
    intros i a Ha. destruct (Hroom i a Ha) as (ps & Hps & Hlt). exists ps. split; [done|]. split; [|done].
    destruct Hok' as (_ & Hc & _). by destruct (Hc i (Some ps) Hps).
  - destruct Hreg as (_ & _ & d & -> & Hsz & _). unfold grow_prts_alloc. cbn [or_d]. rewrite Hsz.
    cbn [compiled_regex or_d rm_size prts_str_alloc_size prts_str_size]. exists m.
    split; [|split; [done|by split]]. assert (0 ≤ prts_str_alloc_size (rm_size m)).
    { destruct Hctx as [_ Hp]. destruct (rm_prts_str m), (prts_str_size (rm_size m)); try done;
        [destruct Hp; unfold PTR in *; lia|lia]. }
    by rewrite (proj2 (Z.ltb_ge _ _)) by done.
Qed.

Lemma ctx_ok_shape m m' : ctx_ok m → same_shape m m' → ctx_ok m'.
Proof.
  intros [Hsub Hprts] (Hsz & (l & l' & E1 & E2 & Hl & Hn) & (all & all' & E3 & E4 & Hlen)).
  unfold ctx_ok. rewrite Hsz, E2, E4. rewrite E1 in Hsub. rewrite E3 in Hprts.
  split; [split; [by rewrite Hl; apply Hsub|done]|].
  destruct (prts_str_size (rm_size m)) as [have|]; [|done]. destruct Hprts as (Ha & Hne0 & (Hh & Hc & Hz)).
  assert (length all' = length all) as Elen by (rewrite <-(length_fmap cell_len all'), Hlen; apply length_fmap).
  split; [by rewrite Elen|]. split; [intros ->; by destruct all|].
  split; [by rewrite Elen|]. split; [|by rewrite Elen].
  intros i o Ho. assert ((cell_len <$> all) !! i = Some (cell_len o)) as Hi
    by (by rewrite <-Hlen, list_lookup_fmap, Ho).
  rewrite list_lookup_fmap in Hi. destruct (all !! i) as [o'|] eqn:Ho'; [|done]. simpl in Hi.
  destruct (Hc i o' Ho') as [Hb Hne]. rewrite Hb. unfold cell_len in Hi.
  destruct o as [ps|], o' as [ps'|]; simplify_eq/=; [|done]. rewrite Hi. split; [done|].
  intros [= ->]. destruct ps'; [done|]. simpl in Hi. lia.
Qed.

(** Execution on a context. *)
Lemma OSRegex_Execute_context sub raw alts reg m s :
  malloc_ok 0 = false → reg_ok sub raw alts reg → ctx_ok m → NUL ∉ s →
  ∃ r m', OSRegex_Execute_ex sg malloc_ok (Some (s ++ [NUL])) reg (Some m) = Ret (r, reg, Some m') ∧
    result_ok s r ∧ ctx_ok m'.
Proof.
  intros Hm Hreg Hctx Hs. unfold OSRegex_Execute_ex.
  destruct (grow_sub_strings_ok reg raw sub alts m Hreg Hctx) as (l & Hl & Hn & Hmax & E1 & E2 & E3 & E4).
  destruct (free_sub_strings_ok (grow_sub_strings reg m) l Hl Hn) as (l' & -> & Hlen & Hn').
  cbn [mbind outcome_bind]. set (m1 := mk_matching (Some l') _ _).
  assert (ctx_ok m1) as Hctx1.
  { destruct Hctx as [_ Hp]. split; simpl; [by rewrite E1, Hlen|]. by rewrite E2, E3, E4. }
  destruct (grow_prts_str_ok sub raw alts reg m1 l') as (m2 & -> & Hctx2 & Hl2 & Hu); [done|done|done|lia|].
  cbn [mbind outcome_bind]. destruct Hreg as (Hne & Hw & d & Ereg & _).
  assert (length alts < 0 + length (or_patterns reg))%nat as Hfuel.
  { rewrite Ereg. cbn [compiled_regex or_patterns]. rewrite length_app, length_fmap. simpl. lia. }
  assert (or_closure reg = or_closure (compiled_regex sub raw alts)) as -> by (by rewrite Ereg).
  destruct sub; cbn [or_closure compiled_regex].
  - destruct (execute_closures_ok (length (or_patterns reg)) reg raw alts s 0 m2)
      as (r & m3 & E & Hr & Hm3); [done|done|done|by apply Hu|by rewrite Ereg|by rewrite Ereg|lia|done|].
    rewrite E. cbn [mbind outcome_bind]. exists r, m3. split; [done|]. split; [done|].
    destruct Hm3 as [->|Hm3]; [done|]. by eapply ctx_ok_shape.
  - destruct (execute_plain_ok (length (or_patterns reg)) reg false raw alts s 0)
      as (r & E & Hr); [done|done|by rewrite Ereg|by rewrite Ereg|lia|done|].
    rewrite E. cbn [mbind outcome_bind]. by exists r, m2.
Qed.

(** ** Release *)

Lemma free_cells_ok {A} (l : list (option A)) : None ∈ l → free_cells l = Ret tt.
Proof.
  induction l as [|[x|] l IH]; intros Hn; [by apply elem_of_nil in Hn| |done].
  apply elem_of_cons in Hn as [?|Hn]; [done|]. by apply IH.
Qed.

Lemma OSRegex_FreePattern_ok sub raw alts reg :
  reg_ok sub raw alts reg → ∃ reg', OSRegex_FreePattern reg = Ret reg'.
Proof.
  intros (Hne & _ & d & -> & _ & (l & Hl & Hn) & _ & Hall). unfold OSRegex_FreePattern.
  assert (∀ {A B} (g : A → option B) r, None ∈ (g <$> r) ++ [None]) as Hend.
  { intros. apply elem_of_app. right. by apply list_elem_of_singleton. }
  assert (∀ {A B} (g : A → option B) r,
    match (g <$> r) ++ [None] with [] => Ret tt | l => free_cells l end = Ret tt) as Hpat.
  { intros A B g r. pose proof (free_cells_ok _ (Hend _ _ g r)). by destruct ((g <$> r) ++ [None]). }
  cbn [or_patterns or_closure or_d compiled_regex or_error]. rewrite Hpat. cbn [mbind outcome_bind].
  assert (free_array (if sub then Some (((λ a, Some (alt_closure a)) <$> alts) ++ [None]) else None) = Ret tt) as ->
    by (destruct sub; [by apply free_cells_ok, Hend|done]).
  assert (free_array (rm_prts_str d) = Ret tt) as ->.
  { destruct (rm_prts_str d) as [all|]; [|done]. by apply free_cells_ok, Hall. }
  rewrite Hl. cbn [free_array mbind outcome_bind]. rewrite free_cells_ok by done. by eexists.
Qed.

Lemma free_prts_ok have all :
  (length all < length have)%nat → have !! length all = Some 0 → free_prts have all = Ret tt.
Proof.
  revert have. induction all as [|o all IH]; intros [|h have] Hl H0; simpl in *; try lia.
  - by simplify_eq.
  - destruct (h =? 0); [done|]. destruct o; [|done]. apply IH; [lia|done].
Qed.

Lemma OSRegex_free_regex_matching_ok m : ctx_ok m → ∃ m', OSRegex_free_regex_matching m = Ret m'.
Proof.
  intros [Hsub Hprts]. unfold OSRegex_free_regex_matching.
  assert (free_array (rm_sub_strings m) = Ret tt) as ->.
  { destruct (rm_sub_strings m) as [l|]; [|done]. apply free_cells_ok, Hsub. }
  cbn [mbind outcome_bind]. destruct (rm_prts_str m) as [all|]; [|by eexists].
  destruct (prts_str_size (rm_size m)) as [have|]; [|done]. destruct Hprts as (_ & Hne & Hlen & _ & Hz).
  cbn [c_deref mbind outcome_bind]. assert (length all ≠ 0%nat) by (by destruct all).
  rewrite free_prts_ok; [by eexists|lia|]. apply Hz. lia.
Qed.

(** ** Sequences of executions *)

(** Some compiled patterns and a context that they share. *)
Record rx_state : Type := mk_rx_state { rs_regs : list OSRegex; rs_context : regex_matching }.

Inductive rx_op : Type :=
  | ExecuteOwn (i : nat) (s : string)
  | ExecuteContext (i : nat) (s : string).

Definition rx_run1 (q : rx_state) (op : rx_op) : outcome (option Z * rx_state) :=
  match op with
  | ExecuteOwn i s =>
      reg ← c_read (rs_regs q) i;
      '(r, reg) ← OSRegex_Execute sg malloc_ok (Some (c_str s)) reg;
      Ret (r, mk_rx_state (<[i:=reg]> (rs_regs q)) (rs_context q))
  | ExecuteContext i s =>
      reg ← c_read (rs_regs q) i;
      '(r, _, m) ← OSRegex_Execute_ex sg malloc_ok (Some (c_str s)) reg (Some (rs_context q));
      Ret (r, mk_rx_state (rs_regs q) (default no_matching m))
  end.

Fixpoint rx_run (q : rx_state) (ops : list rx_op) : outcome (list (option Z) * rx_state) :=
  match ops with
  | [] => Ret ([], q)
  | op :: ops =>
      '(r, q) ← rx_run1 q op; '(rs, q) ← rx_run q ops; Ret (r :: rs, q)
  end.

Definition op_subject (op : rx_op) : string :=
  match op with ExecuteOwn _ s | ExecuteContext _ s => s end.
Definition op_index (op : rx_op) : nat :=
  match op with ExecuteOwn i _ | ExecuteContext i _ => i end.

Definition state_ok (q : rx_state) : Prop :=
  Forall (λ reg, ∃ sub raw alts, reg_ok sub raw alts reg) (rs_regs q) ∧ ctx_ok (rs_context q).

Lemma rx_run_ok q ops :
  malloc_ok 0 = false → state_ok q →
  Forall (λ op, (op_index op < length (rs_regs q))%nat ∧ has_char NUL (op_subject op) = false) ops →
  ∃ rs q', rx_run q ops = Ret (rs, q') ∧ Forall2 (λ op r, result_ok (chars (op_subject op)) r) ops rs ∧ state_ok q'.
Proof.
  intros Hm. revert q. induction ops as [|op ops IH]; intros q [Hregs Hctx] Hops.
  { eexists _, _. split; [done|]. by split; [constructor|]. }
  apply Forall_cons in Hops as [[Hi Hs%chars_nul] Hops].
  destruct (lookup_lt_is_Some_2 (rs_regs q) (op_index op) Hi) as [reg Hreg].
  destruct (proj1 (Forall_lookup _ _) Hregs _ _ Hreg) as (sub & raw & alts & Hok).
  assert (∃ r q1, rx_run1 q op = Ret (r, q1) ∧ result_ok (chars (op_subject op)) r ∧ state_ok q1 ∧
    length (rs_regs q1) = length (rs_regs q)) as (r & q1 & E & Hr & Hq1 & Hl).
  { destruct op as [i s|i s]; cbn [rx_run1 op_index op_subject] in *; rewrite (c_read_Some _ _ _ Hreg);
      cbn [mbind outcome_bind]; unfold c_str.
    - destruct (OSRegex_Execute_own sub raw alts reg (chars s) Hm Hok Hs) as (r & reg' & -> & Hr & Hok').
      cbn [mbind outcome_bind]. eexists _, _. split; [done|]. split; [done|]. split; [|apply length_insert].
      split; [|done]. apply Forall_insert; [done|]. by eexists _, _, _.
    - destruct (OSRegex_Execute_context sub raw alts reg (rs_context q) (chars s) Hm Hok Hctx Hs)
        as (r & m & -> & Hr & Hm').
      cbn [mbind outcome_bind]. by eexists _, _. }
  destruct (IH q1 Hq1) as (rs & q2 & E2 & Hrs & Hq2); [by rewrite Hl|].
  exists (r :: rs), q2. cbn [rx_run]. rewrite E. cbn [mbind outcome_bind]. rewrite E2.
  split; [done|]. by split; [constructor|].
Qed.

End malloc.

(** C7: every sequence of executions of compiled patterns, on their own arrays or on a
    shared context, comes to an end without any access outside a block, and every result
    lies in the subject or is the position before it; the patterns and the context can then
    be released; with a [malloc] that gives nothing
    for an empty block, so that the copy of a string of length -1 is not attempted. *)
Theorem regex_execution_safe sg malloc_ok regs ops :
  malloc_ok 0 = false →
  Forall (λ reg, ∃ pattern flags, has_char NUL pattern = false ∧
    OSRegex_Compile (Some pattern) flags = Ret (1, reg)) regs →
  Forall (λ op, (op_index op < length regs)%nat ∧ has_char NUL (op_subject op) = false) ops →
  ∃ rs q, rx_run sg malloc_ok (mk_rx_state regs no_matching) ops = Ret (rs, q) ∧
    Forall2 (λ op r, ∀ v, r = Some v → -1 ≤ v ≤ Z.of_nat (String.length (op_subject op))) ops rs ∧
    Forall (λ reg, ∃ reg', OSRegex_FreePattern reg = Ret reg') (rs_regs q) ∧
    (∃ m, OSRegex_free_regex_matching (rs_context q) = Ret m).
Proof.
  intros Hm Hregs Hops. destruct (rx_run_ok sg malloc_ok (mk_rx_state regs no_matching) ops Hm)
    as (rs & q & E & Hrs & [Hq1 Hq2]); [|done|].
  - split; [|apply no_matching_ok]. eapply Forall_impl; [exact Hregs|]. intros reg (p & f & Hp & Hc).
    destruct (OSRegex_Compile_spec p f Hp) as (r & Hr & [(e & n & ->)|(sub & alts & -> & Hne & Hw & _)]);
      rewrite Hr in Hc; simplify_eq/=. exists sub, p, alts. by apply compiled_reg_ok.
  - exists rs, q. split; [done|]. split; [|split; [|by apply OSRegex_free_regex_matching_ok]].
    + eapply Forall2_impl; [exact Hrs|]. intros op r H v Hv. specialize (H v Hv). by rewrite length_chars in H.
    + eapply Forall_impl; [exact Hq1|]. intros reg (? & ? & ? & H). by eapply OSRegex_FreePattern_ok.
Qed.

Definition sample_regex (pattern : string) (flags : Z) : OSRegex :=
  match OSRegex_Compile (Some pattern) flags with Ret (_, reg) => reg | Stuck _ => (OSRegex_fail 0 0).2 end.

Lemma regex_execution_safe_witness :
  ∃ rs q, rx_run true (λ size, negb (size =? 0))
      (mk_rx_state [sample_regex "(\w+)@(\w+)|^root" OS_RETURN_SUBSTRING; sample_regex "\d+$" 0] no_matching)
      [ExecuteContext 0 "mail from joe@host"; ExecuteOwn 1 "port 22"; ExecuteContext 1 "x";
       ExecuteOwn 0 "ROOT login"] = Ret (rs, q) ∧
    Forall2 (λ op r, ∀ v, r = Some v → -1 ≤ v ≤ Z.of_nat (String.length (op_subject op)))
      [ExecuteContext 0 "mail from joe@host"; ExecuteOwn 1 "port 22"; ExecuteContext 1 "x";
       ExecuteOwn 0 "ROOT login"] rs ∧
    Forall (λ reg, ∃ reg', OSRegex_FreePattern reg = Ret reg') (rs_regs q) ∧
    (∃ m, OSRegex_free_regex_matching (rs_context q) = Ret m).
Proof.
  apply (regex_execution_safe true (λ size, negb (size =? 0))).
  - reflexivity.
  - constructor; [|constructor; [|constructor]].
    + exists "(\w+)@(\w+)|^root"%string, OS_RETURN_SUBSTRING. split; vm_compute; reflexivity.
    + exists "\d+$"%string, 0. split; vm_compute; reflexivity.
  - repeat (constructor; [split; [simpl; lia|reflexivity]|]). constructor.
Defined.



(** The position returned for a pattern that matches nothing lies before the subject. *)
Lemma regex_returns_before_subject sg malloc_ok :
  ∃ reg reg', OSRegex_Compile (Some "\d*"%string) 0 = Ret (1, reg) ∧
    OSRegex_Execute sg malloc_ok (Some (c_str "a")) reg = Ret (Some (-1), reg').
Proof. eexists _, _. split; [vm_compute; reflexivity|]. destruct sg; vm_compute; reflexivity. Qed.
