(* ===== verification/RegexFixed.v ===== *)
(** * Regular expressions without repetition

    For a pattern of characters and escapes, each possibly after one parenthesis, the engine
    finds the leftmost occurrence and the positions of the parentheses in it. *)

From Stdlib Require Import Lia ZArith Ascii String.
From stdpp Require Import base numbers list strings.
From S2P Require Import Prelude CString RegexMaps OSMatch OSRegex RegexSafe RegexCompile.

#[local] Open Scope list_scope.
#[local] Open Scope Z_scope.

(** ** Patterns *)

Inductive item : Type :=
  | ILit (c : ascii)
  | IEsc (k : ascii).

(** Each item, and whether a parenthesis stands before it. *)
Definition items := list (bool * item).

Definition item_text (it : item) : list ascii :=
  match it with ILit c => [c] | IEsc k => [BACKSLASH; k] end.

Definition paren (b : bool) : list ascii := if b then [PRTS] else [].

Fixpoint items_text (its : items) : list ascii :=
  match its with
  | [] => []
  | (b, it) :: its => paren b ++ item_text it ++ items_text its
  end.

(** The whole pattern; [tl] says whether a parenthesis ends it. *)
Definition pattern_text (its : items) (tl : bool) : list ascii := items_text its ++ paren tl.

Definition item_ok (it : item) : bool :=
  match it with
  | ILit c => negb (bool_decide (c = NUL) || bool_decide (c = BACKSLASH) || prts c)
  | IEsc k => is_code k
  end.

(** No escape is followed by a plus or a star. *)
Fixpoint no_quantifier (its : items) : bool :=
  match its with
  | (_, IEsc _) :: its' =>
      match its' with (false, ILit c) :: _ => negb (isPlus c) | _ => true end && no_quantifier its'
  | _ :: its' => no_quantifier its'
  | [] => true
  end.

Definition items_ok (its : items) : bool := forallb (λ x, item_ok x.2) its && no_quantifier its.

Section fixed.
Context (sg : bool).

(** The character fits the item. *)
Definition fits (it : item) (c : ascii) : bool :=
  match it with ILit p => literal_eq sg p c | IEsc k => class_of (uchar k) c end.

(** The items fit the start of [s]. *)
Fixpoint fit_all (its : items) (s : list ascii) : bool :=
  match its, s with
  | [], _ => true
  | (_, it) :: its, c :: s => fits it c && fit_all its s
  | _ :: _, [] => false
  end.

(** The items are found at the offset [p], with the anchors of [flags]. *)
Definition found_at (its : items) (flags : Z) (s : list ascii) (p : nat) : Prop :=
  fit_all its (drop p s) = true ∧ (flag_set flags BEGIN_SET = true → p = 0%nat) ∧
  (flag_set flags END_SET = true → (p + length its = length s)%nat).

(** The number of parentheses before the item [j]. *)
Definition nparens (its : items) (j : nat) : nat := length (filter (λ x, x.1 = true) (take j its)).

(** The positions of the parentheses of the occurrence at [p]. *)
Definition at_positions (its : items) (tl : bool) (p : nat) (ps : list (option Z)) : Prop :=
  (∀ j it, its !! j = Some (true, it) → ps !! nparens its j = Some (Some (Z.of_nat (p + j)))) ∧
  (tl = true → ps !! nparens its (length its) = Some (Some (Z.of_nat (p + length its)))).

Lemma fit_all_spec its s :
  fit_all its s = true ↔ ∀ j x, its !! j = Some x → ∃ c, s !! j = Some c ∧ fits x.2 c = true.
Proof.
  revert s. induction its as [|[b it] its IH]; intros s; [by split|].
  destruct s as [|c s]; cbn [fit_all].
  - split; [done|]. intros H. by destruct (H 0%nat (b, it) eq_refl) as (? & ? & _).
  - rewrite andb_true_iff, IH. split.
    + intros [Hc Hs] [|j] x; simpl; [intros [= <-]; by exists c|apply Hs].
    + intros H. split; [|intros j x; apply (H (S j))].
      by destruct (H 0%nat (b, it) eq_refl) as (? & [= <-] & ?).
Qed.

(** ** Where things are in the pattern *)

Lemma items_text_app a b : items_text (a ++ b) = items_text a ++ items_text b.
Proof. induction a as [|[? ?] a IH]; [done|]. cbn [app items_text]. by rewrite IH, <-!app_assoc. Qed.

Lemma prts_offsets_app off a b :
  prts_offsets off (a ++ b) = prts_offsets off a ++ prts_offsets (off + length a) b.
Proof.
  revert off. induction a as [|c a IH]; intros off; [by rewrite Nat.add_0_r|].
  cbn [app prts_offsets length]. rewrite IH, Nat.add_succ_comm. by destruct (prts c).
Qed.

Lemma prts_offsets_bound off a q : q ∈ prts_offsets off a → (off ≤ q < off + length a)%nat.
Proof.
  revert off. induction a as [|c a IH]; intros off; [by intros ?%elem_of_nil|]. cbn [prts_offsets length].
  destruct (prts c); [intros [->|H]%elem_of_cons; [lia|]|intros H]; apply IH in H; lia.
Qed.

Lemma prts_offsets_item off it : item_ok it = true → prts_offsets off (item_text it) = [].
Proof.
  destruct it as [c|k]; cbn [item_ok item_text prts_offsets].
  - intros H%negb_true_iff. apply orb_false_iff in H as [_ ->]. done.
  - intros Hk. change (prts BACKSLASH) with false. cbn iota.
    assert (prts k = false) as ->; [|done]. unfold prts. apply bool_decide_eq_false_2. by intros ->.
Qed.

Lemma length_prts_items off its :
  forallb (λ x, item_ok x.2) its = true →
  length (prts_offsets off (items_text its)) = length (filter (λ x, x.1 = true) its).
Proof.
  revert off. induction its as [|[b it] its IH]; intros off; [done|]. cbn [forallb snd].
  intros [Hit Hits]%andb_true_iff. cbn [items_text]. rewrite !prts_offsets_app, prts_offsets_item by done.
  cbn [app]. rewrite length_app, IH by done. rewrite filter_cons. cbn [fst]. by destruct b.
Qed.

Section run.
Context (its : items) (tl : bool) (flags : Z) (subj junk : list ascii).
Context (closure : option (list (option nat))).

Abbreviation body := (pattern_text its tl).
Abbreviation P := (body ++ [NUL]).
Abbreviation T := (subj ++ NUL :: junk).
Abbreviation n := (length subj).
Abbreviation len := (length its).

Context (Hits : items_ok its = true) (Hne : its ≠ []) (Hsubj : NUL ∉ subj).
Context (Hclosure : closure = None ∨ closure = Some ((Some <$> prts_offsets 0 body) ++ [None])).

Definition offset (j : nat) : nat := length (items_text (take j its)).

Lemma drop_offset j b it :
  its !! j = Some (b, it) →
  drop (offset j) body = paren b ++ item_text it ++ pattern_text (drop (S j) its) tl.
Proof.
  intros Hj. unfold pattern_text, offset. rewrite <-(take_drop j its) at 2.
  rewrite items_text_app, <-app_assoc, drop_app_length. rewrite (drop_S _ _ _ Hj).
  cbn [items_text]. by rewrite <-!app_assoc.
Qed.

Lemma drop_offset_end : drop (offset len) body = paren tl.
Proof. unfold pattern_text, offset. by rewrite firstn_all, drop_app_length. Qed.

Lemma rd_drop k c l : drop k body = c :: l → rd P k = Ret c ∧ drop (S k) body = l.
Proof.
  intros E. assert (body !! k = Some c) as Hk.
  { rewrite <-(Nat.add_0_r k), <-lookup_drop, E. done. }
  split.
  - apply c_read_Some. rewrite lookup_app_l; [done|]. by eapply lookup_lt_Some.
  - rewrite (drop_S _ _ _ Hk) in E. by simplify_eq.
Qed.

Lemma rd_drop_nil k : drop k body = [] → (k ≤ length body)%nat → rd P k = Ret NUL.
Proof.
  intros E Hk. apply (f_equal length) in E. rewrite length_drop in E. simpl in E.
  assert (k = length body) as -> by lia. apply c_read_head.
Qed.

Lemma item_ok_at j b it : its !! j = Some (b, it) → item_ok it = true.
Proof.
  intros Hj. unfold items_ok in Hits. apply andb_true_iff in Hits as [H _]. rewrite forallb_forall in H.
  apply (H (b, it)). apply list_elem_of_In. by eapply list_elem_of_lookup_2.
Qed.

Lemma no_quantifier_at (l : items) j b k c :
  no_quantifier l = true → l !! j = Some (b, IEsc k) → l !! S j = Some (false, ILit c) → isPlus c = false.
Proof.
  revert j. induction l as [|[b' it] l IH]; intros j Hq Hj Hj'; [done|].
  destruct j as [|j]; simpl in Hj, Hj'.
  - simplify_eq. cbn [no_quantifier] in Hq. destruct l as [|x l]; [done|]. simpl in Hj'. simplify_eq.
    apply andb_true_iff in Hq as [Hq _]. by apply negb_true_iff in Hq.
  - apply (IH j); [|done|done]. cbn [no_quantifier] in Hq. destruct it; [done|]. by apply andb_true_iff in Hq as [_ ?].
Qed.

Lemma offset_S j b it :
  its !! j = Some (b, it) → offset (S j) = (offset j + length (paren b) + length (item_text it))%nat.
Proof.
  intros Hj. unfold offset. rewrite (take_S_r _ _ _ Hj), items_text_app, length_app. cbn [items_text].
  rewrite app_nil_r, length_app. lia.
Qed.

(** The parenthesis before an item. *)
Lemma rd_paren j it : its !! j = Some (true, it) → rd P (offset j) = Ret PRTS.
Proof. intros Hj. by destruct (rd_drop _ _ _ (drop_offset j true it Hj)). Qed.

(** An item and what follows it. *)
Lemma rd_item j b it :
  its !! j = Some (b, it) → let o := (offset j + length (paren b))%nat in
  match it with
  | ILit c => rd P o = Ret c ∧ c ≠ NUL ∧ c ≠ BACKSLASH ∧ prts c = false ∧ offset (S j) = S o
  | IEsc k =>
      rd P o = Ret BACKSLASH ∧ rd P (o + 1) = Ret k ∧ (1 ≤ uchar k ≤ 15)%nat ∧
      offset (S j) = (o + 2)%nat ∧
      ∃ q, rd P (o + 2) = Ret q ∧ isPlus q = false ∧ (q = NUL ∨ ∃ c, rd P (o + 3) = Ret c)
  end.
Proof.
  intros Hj o. pose proof (drop_offset j b it Hj) as Hd. pose proof (item_ok_at j b it Hj) as Hok.
  pose proof (offset_S j b it Hj) as Ho.
  assert (drop o body = item_text it ++ pattern_text (drop (S j) its) tl) as Hdo.
  { subst o. rewrite <-drop_drop, Hd. by rewrite drop_app_length. }
  destruct it as [c|k]; cbn [item_text app length item_ok] in *.
  - destruct (rd_drop _ _ _ Hdo) as [Hr _]. apply negb_true_iff in Hok.
    apply orb_false_iff in Hok as [[Hn Hb]%orb_false_iff Hp].
    apply bool_decide_eq_false in Hn, Hb. split_and!; try done. lia.
  - destruct (rd_drop _ _ _ Hdo) as [Hr Hd1]. destruct (rd_drop _ _ _ Hd1) as [Hr1 Hd2].
    rewrite Nat.add_1_r. replace (o + 2)%nat with (S (S o)) by lia. replace (o + 3)%nat with (S (S (S o))) by lia.
    apply andb_true_iff in Hok as [H1%Nat.leb_le H2%Nat.leb_le]. split_and!; try done; [lia|].
    assert (S (S o) ≤ length body)%nat as Hle.
    { apply (f_equal length) in Hdo. rewrite length_drop in Hdo. simpl in Hdo. lia. }
    destruct (drop (S (S o)) body) as [|q l] eqn:Hq.
    { exists NUL. split; [by apply rd_drop_nil|]. split; [done|by left]. }
    destruct (rd_drop _ _ _ Hq) as [Hrq _]. exists q. split; [done|]. split.
    + unfold pattern_text in Hd2. destruct (drop (S j) its) as [|[b' it'] r] eqn:Er.
      * destruct tl; simpl in Hd2; by simplify_eq.
      * destruct b'; [simpl in Hd2; by simplify_eq|]. destruct it' as [c|k']; simpl in Hd2; simplify_eq; [|done].
        apply (no_quantifier_at its j b k).
        -- unfold items_ok in Hits. by apply andb_true_iff in Hits as [_ ?].
        -- done.
        -- assert (drop (S j) its !! 0%nat = Some (false, ILit c)) as H by (by rewrite Er).
           by rewrite lookup_drop, Nat.add_0_r in H.
    + right. destruct (rd_le body (S (S (S o)))) as (c & Hc); [|by exists c].
      apply (f_equal length) in Hq. rewrite length_drop in Hq. simpl in Hq. lia.
Qed.

(** The end of the pattern. *)
Lemma rd_end :
  rd P (offset len) = Ret (if tl then PRTS else NUL) ∧ rd P (offset len + length (paren tl)) = Ret NUL.
Proof.
  pose proof drop_offset_end as Hd. assert (length body = offset len + length (paren tl))%nat as Hl.
  { unfold pattern_text, offset. by rewrite firstn_all, length_app. }
  rewrite <-Hl. split; [|apply c_read_head].
  pose proof (rd_drop (offset len) PRTS []) as H1. pose proof (rd_drop_nil (offset len)) as H2.
  destruct tl; simpl in *; [by destruct (H1 Hd)|apply H2; [done|lia]].
Qed.

(** ** The positions *)

Definition recorded (ps : list (option Z)) (i : nat) (v : Z) : list (option Z) :=
  match closure with None => ps | Some _ => <[i:=Some v]> ps end.

Lemma find_closure_at A q rest i v ps :
  q ∉ A → (i + length A < length ps)%nat →
  find_closure ((Some <$> A) ++ Some q :: rest) i q v ps = Ret (<[(i + length A)%nat:=Some v]> ps).
Proof.
  revert i. induction A as [|a A IH]; intros i Hq Hl; cbn [fmap list_fmap app find_closure length].
  - rewrite Nat.eqb_refl, Nat.add_0_r in *. apply c_write_lt. simpl in Hl. lia.
  - apply not_elem_of_cons in Hq as [Hq HA]. rewrite (proj2 (Nat.eqb_neq _ _)) by congruence.
    simpl in Hl. rewrite IH by (done || lia). by rewrite Nat.add_succ_comm.
Qed.

(** A parenthesis after the first [j] items is recorded in the cell of its number. *)
Lemma record_prts_at s j rest v :
  (j ≤ len)%nat → drop (offset j) body = PRTS :: rest → (nparens its j < length (prts_str s))%nat ∨ closure = None →
  record_prts closure s (offset j) v = Ret (set_prts s (recorded (prts_str s) (nparens its j) v)).
Proof.
  intros Hj Hd Hl. unfold record_prts, recorded. destruct Hclosure as [->| ->]; [by destruct s|].
  destruct Hl as [Hl|]; [|done].
  assert (take (offset j) body = items_text (take j its)) as Ht.
  { unfold pattern_text. rewrite <-(take_drop j its) at 1. rewrite items_text_app, <-app_assoc.
    unfold offset. by rewrite take_app_length. }
  assert (length (prts_offsets 0 (items_text (take j its))) = nparens its j) as Hlen.
  { apply length_prts_items. unfold items_ok in Hits. apply andb_true_iff in Hits as [H _].
    rewrite forallb_forall in H |- *. intros x Hx. apply H. apply list_elem_of_In in Hx. apply list_elem_of_In.
    rewrite <-(take_drop j its). apply elem_of_app. by left. }
  assert (prts_offsets 0 body = prts_offsets 0 (items_text (take j its)) ++
    offset j :: prts_offsets (S (offset j)) rest) as ->.
  { rewrite <-(take_drop (offset j) body), Hd, Ht, prts_offsets_app. done. }
  rewrite fmap_app, <-app_assoc, fmap_cons. cbn [app].
  rewrite find_closure_at; [by rewrite Hlen| |by rewrite Hlen].
  intros Hin%prts_offsets_bound. unfold offset in Hin. lia.
Qed.

(** ** An attempt *)

Definition total : nat := length (prts_offsets 0 body).

Lemma nparens_S j (b : bool) (it : item) :
  its !! j = Some (b, it) → nparens its (S j) = (nparens its j + if b then 1 else 0)%nat.
Proof.
  intros Hj. unfold nparens. rewrite (take_S_r _ _ _ Hj), filter_app, length_app.
  cbn [filter list_filter]. destruct b; simpl; [|lia]. done.
Qed.

Lemma nparens_mono j j' : (j ≤ j')%nat → (nparens its j ≤ nparens its j')%nat.
Proof.
  intros Hj. unfold nparens. rewrite <-(take_drop j (take j' its)), take_take, Nat.min_l by done.
  rewrite filter_app, length_app. lia.
Qed.

Lemma nparens_lt j j' it :
  its !! j = Some (true, it) → (j < j')%nat → (nparens its j < nparens its j')%nat.
Proof.
  intros Hj Hlt. pose proof (nparens_S j true it Hj) as Hs. cbn iota in Hs. pose proof (nparens_mono (S j) j' Hlt). lia.
Qed.

Lemma nparens_total : total = (nparens its len + length (paren tl))%nat.
Proof using Hits.
  unfold total, pattern_text, nparens. rewrite prts_offsets_app, length_app, firstn_all.
  rewrite length_prts_items by (unfold items_ok in Hits; by apply andb_true_iff in Hits as [? _]).
  f_equal. generalize tl. by intros [].
Qed.

(** The positions of the parentheses before the first [j] items, for an occurrence at [p]. *)
Definition ps_ok (p j : nat) (ps : list (option Z)) : Prop :=
  closure ≠ None →
  (total < length ps)%nat ∧
  ∀ i it, (i < j)%nat → its !! i = Some (true, it) → ps !! nparens its i = Some (Some (Z.of_nat (p + i))).

(** The first [j] items fit the subject at [p], and there is no occurrence before. *)
Record attempt (p j : nat) (s : rx) : Prop := {
  at_st : st s = Z.of_nat (p + j);
  at_le : (p + j ≤ n)%nat ∧ (j ≤ len)%nat;
  at_pt : pt s = offset j;
  at_stack : pt_error s = stack4 [];
  at_matched : regex_matched s = false;
  at_error : st_error s = if (j =? 0)%nat then None else Some (Z.of_nat p);
  at_code : (0 < j)%nat → r_code s = Some (Z.of_nat (p + j) - 1);
  at_begin : flag_set flags BEGIN_SET = true → p = 0%nat;
  at_fits : ∀ i x, (i < j)%nat → its !! i = Some x →
    ∃ c, subj !! (p + i)%nat = Some c ∧ fits x.2 c = true;
  at_least : ∀ p', (p' < p)%nat → ¬ found_at its flags subj p';
  at_ps : ps_ok p j (prts_str s)
}.

(** After the parenthesis before the item [j]. *)
Definition after_paren (s : rx) (j : nat) (b : bool) : rx :=
  if b then set_pt (set_prts s (recorded (prts_str s) (nparens its j) (st s))) (S (pt s)) else s.

Lemma rd_st_subj i c : subj !! i = Some c → rd_st T (Z.of_nat i) = Ret c.
Proof.
  intros Hi. unfold rd_st. rewrite (proj2 (Z.ltb_ge _ _)) by lia. rewrite Nat2Z.id. apply c_read_Some.
  rewrite lookup_app_l; [done|]. by eapply lookup_lt_Some.
Qed.

Lemma subj_not_nul i c : subj !! i = Some c → c ≠ NUL.
Proof. intros Hi ->. by apply Hsubj, (list_elem_of_lookup_2 _ i). Qed.

Lemma ps_room p j s : attempt p j s → (j < len)%nat ∨ tl = true → (nparens its j < length (prts_str s))%nat ∨ closure = None.
Proof.
  intros Ha Hj. destruct Hclosure as [Hc|Hc]; [by right|left].
  destruct (at_ps _ _ _ Ha) as [Hl _]; [by rewrite Hc|]. rewrite nparens_total in Hl.
  destruct (at_le _ _ _ Ha) as [_ Hle]. pose proof (nparens_mono j len Hle). lia.
Qed.

Lemma switch_item p j s b it :
  attempt p j s → its !! j = Some (b, it) →
  rx_switch P T closure flags s = Ret (CFall (after_paren s j b)).
Proof.
  intros Ha Hj. pose proof (rd_item j b it Hj) as Hi. cbn zeta in Hi. unfold rx_switch, after_paren.
  rewrite (at_pt _ _ _ Ha). destruct b; cbn [paren length] in Hi.
  - rewrite (rd_paren j it Hj). cbn [mbind outcome_bind]. rewrite bool_decide_eq_false_2 by done.
    change (prts PRTS) with true. cbn iota.
    rewrite (record_prts_at s j (item_text it ++ pattern_text (drop (S j) its) tl) (st s));
      [|by destruct (at_le _ _ _ Ha)|by rewrite (drop_offset j true it Hj)
       |apply (ps_room p); [done|left; by eapply lookup_lt_Some]].
    cbn [mbind outcome_bind pt set_prts set_pt]. rewrite (at_pt _ _ _ Ha). rewrite Nat.add_1_r in Hi.
    assert (∃ c, rd P (S (offset j)) = Ret c ∧ c ≠ NUL) as (c & -> & Hc).
    { destruct it as [c|k]; [destruct Hi as (H1 & H2 & _); by exists c|destruct Hi as (H1 & _); by exists BACKSLASH]. }
    cbn [mbind outcome_bind]. by rewrite bool_decide_eq_false_2 by done.
  - rewrite Nat.add_0_r in Hi.
    assert (∃ c, rd P (offset j) = Ret c ∧ c ≠ NUL ∧ prts c = false) as (c & -> & Hc & Hp).
    { destruct it as [c|k]; [destruct Hi as (H1 & H2 & _ & H3 & _); by exists c|destruct Hi as (H1 & _); by exists BACKSLASH]. }
    cbn [mbind outcome_bind]. by rewrite bool_decide_eq_false_2, Hp by done.
Qed.

Lemma after_paren_fields s j b :
  st (after_paren s j b) = st s ∧ st_error (after_paren s j b) = st_error s ∧
  pt_error (after_paren s j b) = pt_error s ∧ regex_matched (after_paren s j b) = regex_matched s ∧
  r_code (after_paren s j b) = r_code s ∧ pt (after_paren s j b) = (pt s + length (paren b))%nat.
Proof. unfold after_paren. destruct b; cbn; split_and!; try done; lia. Qed.

(** The comparison with the item. *)
Lemma item_step p j s b it d :
  attempt p j s → its !! j = Some (b, it) → subj !! (p + j)%nat = Some d →
  let s1 := after_paren s j b in
  rx_item sg P T closure flags s1 = Ret
    (if fits it d
     then CContinue (set_r_code (note_start (set_pt s1 (offset (S j)))) (Some (st (note_start (set_pt s1 (offset (S j)))))))
     else CFall s1).
Proof.
  intros Ha Hj Hd s1. pose proof (rd_item j b it Hj) as Hi. cbn zeta in Hi.
  destruct (after_paren_fields s j b) as (E1 & E2 & E3 & E4 & E5 & E6). fold s1 in E1, E2, E3, E4, E5, E6.
  unfold rx_item. rewrite E6, (at_pt _ _ _ Ha). set (o := (offset j + length (paren b))%nat) in *.
  assert (rd_st T (st s1) = Ret d) as Hst by (rewrite E1, (at_st _ _ _ Ha); by apply rd_st_subj).
  destruct it as [c|k].
  - destruct Hi as (Hc & Hn & Hb & Hp & Ho). rewrite Hc, Hst. cbn [mbind outcome_bind].
    rewrite bool_decide_eq_false_2 by done. rewrite charmap_spec. cbn [mbind outcome_bind fits].
    rewrite lit_eqb, (bool_decide_ext (lit sg c d) (literal_eq sg c d = true)) by done.
    rewrite Ho. case_bool_decide as Hl; [by rewrite Hl|].
    apply not_true_is_false in Hl. by rewrite Hl.
  - destruct Hi as (Hc & Hk & Hcode & Ho & q & Hq & Hplus & Hq3). rewrite Hc, Hst. cbn [mbind outcome_bind].
    rewrite bool_decide_eq_true_2 by done. rewrite Hk. cbn [mbind outcome_bind].
    rewrite regexmap_spec by done. cbn [mbind outcome_bind fits]. destruct (class_of (uchar k) d).
    + unfold rx_hit. rewrite E6, (at_pt _ _ _ Ha). fold o. rewrite Hq. cbn [mbind outcome_bind].
      rewrite Hplus. cbn [negb mbind outcome_bind]. by rewrite Ho.
    + unfold rx_miss. rewrite E6, (at_pt _ _ _ Ha). fold o. rewrite Hq. cbn [mbind outcome_bind].
      rewrite E4, (at_matched _ _ _ Ha).
      unfold isPlus in Hplus. apply orb_false_iff in Hplus as [-> ->].
      assert (set_matched s1 false = s1) as ->.
      { rewrite <-(at_matched _ _ _ Ha), <-E4. by destruct s1. }
      assert (∃ b, (if bool_decide (q = NUL) then Ret true
        else c ← rd P (o + 3); Ret (bool_decide (c = NUL))) = Ret b) as (e & ->).
      { case_bool_decide; [by eexists|]. destruct Hq3 as [?|(c & ->)]; [done|by eexists]. }
      cbn [mbind outcome_bind]. by rewrite andb_false_r.
Qed.

(** ** The rounds of the loop *)

(** What the engine returns: the last character of the leftmost occurrence, with the positions
    of the parentheses in it, or nothing when there is none. *)
Definition result_ok (r : option Z) (ps : list (option Z)) : Prop :=
  match r with
  | Some v => ∃ p, found_at its flags subj p ∧ (∀ p', (p' < p)%nat → ¬ found_at its flags subj p') ∧
      v = Z.of_nat (p + len) - 1 ∧ (closure ≠ None → at_positions its tl p ps)
  | None => ∀ p, ¬ found_at its flags subj p
  end.

Lemma found_le p : found_at its flags subj p → (p + len ≤ n)%nat.
Proof using Hne.
  intros [Hf _]. rewrite fit_all_spec in Hf.
  assert (len ≠ 0%nat) by (by intros ?%length_zero_iff_nil).
  destruct (lookup_lt_is_Some_2 its (len - 1)) as [x Hx]; [lia|].
  destruct (Hf _ _ Hx) as (c & Hc & _). rewrite lookup_drop in Hc. apply lookup_lt_Some in Hc.
  apply lookup_lt_Some in Hx. lia.
Qed.

(** A complete attempt is an occurrence. *)
Lemma attempt_found p s :
  attempt p len s → (flag_set flags END_SET = true → (p + len = n)%nat) → found_at its flags subj p.
Proof.
  intros Ha He. split; [|split; [apply (at_begin _ _ _ Ha)|done]]. apply fit_all_spec. intros j x Hx.
  destruct (at_fits _ _ _ Ha j x) as (c & Hc & Hf); [by eapply lookup_lt_Some|done|].
  exists c. by rewrite lookup_drop.
Qed.

Lemma ps_ok_recorded p j ps :
  ps_ok p j ps → ps_ok p j (recorded ps (nparens its j) (Z.of_nat (p + j))).
Proof.
  intros Hps Hc. destruct (Hps Hc) as [Hl Hi]. unfold recorded. destruct closure; [|done]. split.
  { by rewrite length_insert. }
  intros i it Hlt Hit. rewrite list_lookup_insert_ne; [by apply (Hi i it)|].
  pose proof (nparens_lt i j it Hit Hlt). lia.
Qed.

Lemma recorded_cell ps j v :
  closure ≠ None → (nparens its j < length ps)%nat → recorded ps (nparens its j) v !! nparens its j = Some (Some v).
Proof. intros Hc Hl. unfold recorded. destruct closure; [|done]. by apply list_lookup_insert_eq. Qed.

Lemma after_paren_ps p j s b it :
  attempt p j s → its !! j = Some (b, it) → ps_ok p (S j) (prts_str (after_paren s j b)).
Proof.
  intros Ha Hj Hc. pose proof (at_ps _ _ _ Ha) as Hps. unfold after_paren.
  destruct (ps_room p j s Ha) as [Hroom|]; [left; by eapply lookup_lt_Some| |done].
  destruct b; cbn [prts_str set_pt set_prts].
  - rewrite (at_st _ _ _ Ha). destruct (ps_ok_recorded _ _ _ Hps Hc) as [Hl Hi]. split; [done|].
    intros i it' Hlt Hit. destruct (decide (i = j)) as [->|]; [by apply recorded_cell|]. apply (Hi i it'); [lia|done].
  - destruct (Hps Hc) as [Hl Hi]. split; [done|]. intros i it' Hlt Hit.
    destruct (decide (i = j)) as [->|]; [congruence|]. apply (Hi i it'); [lia|done].
Qed.

(** After the last item and the parenthesis that may follow it. *)
Lemma after_paren_end p s :
  attempt p len s → closure ≠ None → at_positions its tl p (prts_str (after_paren s len tl)).
Proof.
  intros Ha Hc. pose proof (at_ps _ _ _ Ha) as Hps. pose proof (ps_room p len s Ha) as Hroom.
  unfold after_paren. split.
  - intros j it Hj. pose proof (lookup_lt_Some _ _ _ Hj) as Hlt.
    pose proof (ps_ok_recorded _ _ _ Hps Hc) as [_ Hr]. destruct tl; cbn [prts_str set_pt set_prts].
    + rewrite (at_st _ _ _ Ha). by apply (Hr j it).
    + destruct (Hps Hc) as [_ Hi]. by apply (Hi j it).
  - intros Ht. destruct (Hroom (or_intror Ht)) as [Hr|]; [|done]. rewrite Ht. cbn [prts_str set_pt set_prts].
    rewrite (at_st _ _ _ Ha). by apply recorded_cell.
Qed.

Lemma end_result p s :
  attempt p len s → (flag_set flags END_SET = true → (p + len = n)%nat) →
  result_ok (r_code s) (prts_str (after_paren s len tl)).
Proof.
  intros Ha He. rewrite (at_code _ _ _ Ha) by (destruct its; simpl; [done|lia]). exists p.
  split_and!; [by apply (attempt_found p s)|apply (at_least _ _ _ Ha)|done|by apply after_paren_end].
Qed.

(** The item fits: the attempt goes on. *)
Lemma attempt_hit p j s b it d :
  attempt p j s → its !! j = Some (b, it) → subj !! (p + j)%nat = Some d → fits it d = true →
  let s1 := note_start (set_pt (after_paren s j b) (offset (S j))) in
  attempt p (S j) (set_st (set_r_code s1 (Some (st s1))) (st s1 + 1)).
Proof.
  intros Ha Hj Hd Hf s1. destruct (after_paren_fields s j b) as (E1 & E2 & E3 & E4 & E5 & E6).
  pose proof (after_paren_ps p j s b it Ha Hj) as Hps.
  assert (st s1 = Z.of_nat (p + j) ∧ pt s1 = offset (S j) ∧ pt_error s1 = stack4 [] ∧ regex_matched s1 = false ∧
    st_error s1 = Some (Z.of_nat p) ∧ prts_str s1 = prts_str (after_paren s j b)) as (F1 & F2 & F3 & F4 & F5 & F6).
  { unfold s1, note_start. cbn [st_error set_pt]. pose proof (at_error _ _ _ Ha) as He. rewrite E2, He.
    destruct (Nat.eqb_spec j 0) as [->|]; cbn [set_st_error set_pt st pt pt_error regex_matched st_error prts_str];
      rewrite ?E1, ?E2, ?He, ?E3, ?E4, ?(at_st _ _ _ Ha), ?(at_stack _ _ _ Ha), ?(at_matched _ _ _ Ha), ?Nat.add_0_r; done. }
  pose proof (lookup_lt_Some _ _ _ Hj). pose proof (lookup_lt_Some _ _ _ Hd).
  split; cbn [set_st set_r_code st pt pt_error regex_matched st_error prts_str r_code].
  - lia.
  - lia.
  - done.
  - done.
  - done.
  - done.
  - intros _. rewrite F1. f_equal. lia.
  - apply (at_begin _ _ _ Ha).
  - intros i x Hi Hx. destruct (decide (i = j)) as [->|]; [|apply (at_fits _ _ _ Ha); [lia|done]].
    simplify_eq. by exists d.
  - apply (at_least _ _ _ Ha).
  - by rewrite F6.
Qed.

(** The attempt at [p] fails: the next one starts at the following character. *)
Lemma attempt_restart p j s s1 :
  attempt p j s → (p + j < n)%nat → ¬ found_at its flags subj p →
  st s1 = st s → st_error s1 = st_error s → pt_error s1 = pt_error s → regex_matched s1 = regex_matched s →
  (closure ≠ None → (total < length (prts_str s1))%nat) →
  match rx_error flags s1 with
  | CReturn r ps => result_ok r ps
  | CContinue s2 | CFall s2 => attempt (S p) 0 (set_st s2 (st s2 + 1))
  end.
Proof.
  intros Ha Hlt Hno E1 E2 E3 E4 Hl. unfold rx_error. rewrite E3, (at_stack _ _ _ Ha).
  change (last_error (stack4 [])) with (@None (nat * Z * list (option (nat * Z)))). cbn iota.
  destruct (flag_set flags BEGIN_SET) eqn:Eb.
  { intros p' Hp'. pose proof (at_begin _ _ _ Ha Eb) as ->. apply Hno.
    destruct Hp' as (H1 & H2 & H3). by rewrite H2 in *. }
  rewrite E2, (at_error _ _ _ Ha).
  assert (∀ p', (p' < S p)%nat → ¬ found_at its flags subj p') as Hleast.
  { intros p' Hp'. destruct (decide (p' = p)) as [->|]; [done|]. apply (at_least _ _ _ Ha). lia. }
  pose proof (at_st _ _ _ Ha) as Hst. pose proof (at_stack _ _ _ Ha). pose proof (at_matched _ _ _ Ha).
  destruct (Nat.eqb_spec j 0) as [->|Hj];
    (split; cbn [set_st set_r_code set_st_error set_pt st pt pt_error regex_matched st_error prts_str r_code];
      [lia|lia|done|congruence|congruence| |lia|congruence|lia|done|]).
  1, 3: rewrite ?E2, ?(at_error _ _ _ Ha); done.
  all: intros Hc; split; [by apply Hl|lia].
Qed.

(** A round at an item. *)
Lemma body_item p j s b it d :
  attempt p j s → its !! j = Some (b, it) → subj !! (p + j)%nat = Some d →
  ∃ c, rx_body sg P T closure flags s = Ret c ∧
  match c with
  | CReturn r ps => result_ok r ps
  | CContinue s' | CFall s' =>
      attempt p (S j) (set_st s' (st s' + 1)) ∨ attempt (S p) 0 (set_st s' (st s' + 1))
  end.
Proof.
  intros Ha Hj Hd. unfold rx_body. rewrite (switch_item p j s b it Ha Hj). cbn [mbind outcome_bind].
  rewrite (item_step p j s b it d Ha Hj Hd). cbn [mbind outcome_bind]. destruct (fits it d) eqn:Ef.
  { eexists. split; [done|]. left. by apply (attempt_hit p j s b it d). }
  destruct (after_paren_fields s j b) as (E1 & E2 & E3 & E4 & _).
  eexists. split; [done|]. opose proof* (attempt_restart p j s (after_paren s j b)) as Hr; try done.
  - by eapply lookup_lt_Some.
  - intros [Hf _]. rewrite fit_all_spec in Hf. destruct (Hf _ _ Hj) as (c & Hc & Hfc).
    rewrite lookup_drop in Hc. cbn in Hfc. congruence.
  - intros Hc. by destruct (after_paren_ps p j s b it Ha Hj Hc).
  - destruct (rx_error _ _); [done|by right..].
Qed.

Lemma switch_end p s :
  attempt p len s → (p + len < n)%nat →
  rx_switch P T closure flags s = Ret
    (if flag_set flags END_SET then CFall (after_paren s len tl)
     else CReturn (r_code s) (prts_str (after_paren s len tl))).
Proof.
  intros Ha Hlt. destruct rd_end as [He1 He2]. pose proof drop_offset_end as Hde.
  assert (∃ d, subj !! (p + len)%nat = Some d) as (d & Hd) by (by apply lookup_lt_is_Some_2).
  pose proof (subj_not_nul _ _ Hd) as Hdn. apply rd_st_subj in Hd.
  pose proof (record_prts_at s len [] (st s) (le_n _)) as Hrec.
  pose proof (ps_room p len s Ha) as Hroom.
  unfold rx_switch, after_paren. rewrite (at_pt _ _ _ Ha), He1. cbn [mbind outcome_bind].
  destruct tl; cbn [paren length] in *.
  - rewrite bool_decide_eq_false_2 by done. change (prts PRTS) with true. cbn iota.
    rewrite Hrec by (done || by apply Hroom; right). cbn [mbind outcome_bind pt set_pt set_prts].
    rewrite (at_pt _ _ _ Ha). rewrite Nat.add_1_r in He2. rewrite He2. cbn [mbind outcome_bind].
    rewrite bool_decide_eq_true_2 by done. unfold end_ok. cbn [st set_pt set_prts].
    rewrite (at_st _ _ _ Ha), Hd. destruct (flag_set flags END_SET); cbn [negb mbind outcome_bind]; [|done].
    by rewrite bool_decide_eq_false_2.
  - rewrite bool_decide_eq_true_2 by done. unfold end_ok. rewrite (at_st _ _ _ Ha), Hd.
    destruct (flag_set flags END_SET); cbn [negb mbind outcome_bind]; [|done].
    by rewrite bool_decide_eq_false_2.
Qed.

Lemma charmap_nonzero d : d ≠ NUL → Z.of_nat (uchar (tolower d)) ≠ 0.
Proof. revert d. apply (forall_ascii (λ d, d ≠ NUL → Z.of_nat (uchar (tolower d)) ≠ 0)). vm_compute. naive_solver. Qed.

(** A round after the last item. *)
Lemma body_end p s :
  attempt p len s → (p + len < n)%nat →
  ∃ c, rx_body sg P T closure flags s = Ret c ∧
  match c with
  | CReturn r ps => result_ok r ps
  | CContinue s' | CFall s' => attempt (S p) 0 (set_st s' (st s' + 1))
  end.
Proof.
  intros Ha Hlt. unfold rx_body. rewrite (switch_end p s Ha Hlt). cbn [mbind outcome_bind].
  destruct (flag_set flags END_SET) eqn:Ee.
  2: { eexists. split; [done|]. apply (end_result p); [done|]. by rewrite Ee. }
  destruct (after_paren_fields s len tl) as (E1 & E2 & E3 & E4 & E5 & E6).
  assert (∃ d, subj !! (p + len)%nat = Some d) as (d & Hd) by (by apply lookup_lt_is_Some_2).
  unfold rx_item. rewrite E6, (at_pt _ _ _ Ha), (proj2 rd_end), E1, (at_st _ _ _ Ha), (rd_st_subj _ _ Hd).
  cbn [mbind outcome_bind]. rewrite bool_decide_eq_false_2 by done. rewrite charmap_spec. cbn [mbind outcome_bind].
  rewrite (proj2 (Z.eqb_neq _ _)).
  2: { intros E. apply (charmap_nonzero d (subj_not_nul _ _ Hd)). rewrite <-E. by destruct sg. }
  cbn [mbind outcome_bind]. eexists. split; [done|].
  opose proof* (attempt_restart p len s (after_paren s len tl) Ha Hlt) as Hr; try done.
  - intros (_ & _ & He). rewrite He in Hlt by done. lia.
  - intros Hc. unfold after_paren, recorded. destruct (at_ps _ _ _ Ha Hc) as [Hl _].
    destruct tl, closure; cbn [prts_str set_pt set_prts]; by rewrite ?length_insert.
Qed.

(** Each round continues the attempt, starts the next one, or ends as it should. *)
Lemma fixed_step p j s :
  attempt p j s →
  ∃ r, rx_step sg P T closure flags s = Ret r ∧
  match r with
  | inl s' => attempt p (S j) s' ∨ attempt (S p) 0 s'
  | inr (inl (r, ps)) => result_ok r ps
  | inr (inr s') => attempt p j s' ∧ (p + j = n)%nat
  end.
Proof.
  intros Ha. destruct (at_le _ _ _ Ha) as [Hn Hj]. unfold rx_step. rewrite (at_st _ _ _ Ha).
  destruct (decide (p + j = n)%nat) as [E|Hlt].
  { assert (rd_st T (Z.of_nat (p + j)) = Ret NUL) as ->.
    { unfold rd_st. rewrite (proj2 (Z.ltb_ge _ _)) by lia. rewrite Nat2Z.id, E. apply c_read_head. }
    cbn [mbind outcome_bind]. rewrite bool_decide_eq_true_2 by done. by eexists. }
  assert (∃ d, subj !! (p + j)%nat = Some d) as (d & Hd) by (apply lookup_lt_is_Some_2; lia).
  rewrite (rd_st_subj _ _ Hd). cbn [mbind outcome_bind].
  rewrite bool_decide_eq_false_2 by (by apply (subj_not_nul _ _ Hd)).
  destruct (decide (j = len)) as [->|Hne'].
  - destruct (body_end p s Ha) as (c & -> & Hc); [lia|]. cbn [mbind outcome_bind].
    destruct c; (eexists; split; [done|]); [done|by right..].
  - assert (∃ x, its !! j = Some x) as ([b it] & Hx) by (apply lookup_lt_is_Some_2; lia).
    destruct (body_item p j s b it d Ha Hx Hd) as (c & -> & Hc). cbn [mbind outcome_bind].
    destruct c; by (eexists; split; [done|]).
Qed.

(** ** The end of the subject *)

(** The clean-up skips no escape with a star, and records the parenthesis it stands at. *)
Lemma skip_stars_stop p j s b it :
  attempt p j s → its !! j = Some (b, it) → skip_stars P (length P) (offset j) = Ret (offset j).
Proof.
  intros Ha Hj. pose proof (rd_item j b it Hj) as Hi. cbn zeta in Hi.
  rewrite length_app, Nat.add_1_r. cbn [skip_stars]. destruct b.
  { by rewrite (rd_paren j it Hj). }
  cbn [paren length] in Hi. rewrite Nat.add_0_r in Hi. destruct it as [c|k].
  - destruct Hi as (-> & Hn & Hb & Hp & _). cbn [mbind outcome_bind].
    by rewrite Hp, !bool_decide_eq_false_2.
  - destruct Hi as (-> & _ & _ & _ & q & Hq & Hplus & _). cbn [mbind outcome_bind].
    change (prts BACKSLASH || bool_decide (BACKSLASH = NUL)) with false. cbn iota.
    rewrite bool_decide_eq_true_2, Hq by done. cbn [mbind outcome_bind].
    unfold isPlus in Hplus. by apply orb_false_iff in Hplus as [_ ->].
Qed.

(** The subject ends inside the pattern: nothing is found. *)
Lemma final_item s j b it :
  its !! j = Some (b, it) → regex_matched s = false → rx_final P s (offset j) = Ret false.
Proof.
  intros Hj Hm. pose proof (rd_item j b it Hj) as Hi. cbn zeta in Hi.
  assert (∃ c, rd P (offset j + length (paren b)) = Ret c ∧ c ≠ NUL ∧ prts c = false) as (c & Hc & Hn & Hp).
  { destruct it as [c|k]; [destruct Hi as (? & ? & _ & ? & _); by exists c|destruct Hi as (? & _); by exists BACKSLASH]. }
  unfold rx_final, or_else, and_then.
  assert (endoffile P (offset j) = Ret (false, (offset j + length (paren b))%nat)) as ->.
  { unfold endoffile. destruct b; cbn [paren length] in *.
    - rewrite (rd_paren j it Hj). cbn [mbind outcome_bind]. change (prts PRTS) with true. cbn iota.
      rewrite Nat.add_1_r in *. rewrite Hc. cbn [mbind outcome_bind]. by rewrite bool_decide_eq_false_2.
    - rewrite Nat.add_0_r in *. rewrite Hc. cbn [mbind outcome_bind]. rewrite Hp, Hc. cbn [mbind outcome_bind].
      by rewrite bool_decide_eq_false_2. }
  cbn [mbind outcome_bind]. rewrite Hc. cbn [mbind outcome_bind]. rewrite Hm, andb_false_r.
  cbn [mbind outcome_bind]. unfold star_to_end, and_then, skip_if. rewrite Hc. cbn [mbind outcome_bind].
  unfold is_backslash. destruct it as [c'|k].
  - destruct Hi as (Hc' & _ & Hb & _). rewrite Hc in Hc'. simplify_eq.
    by rewrite bool_decide_eq_false_2.
  - destruct Hi as (Hc' & _ & _ & _ & q & Hq & Hplus & _). rewrite Hc in Hc'. simplify_eq.
    rewrite bool_decide_eq_true_2 by done. cbn [mbind outcome_bind]. rewrite Hq. cbn [mbind outcome_bind].
    unfold is_star, isPlus in *. apply orb_false_iff in Hplus as [_ ->]. done.
Qed.

Lemma finish_item p j s b it :
  attempt p j s → (p + j = n)%nat → its !! j = Some (b, it) →
  ∃ ps, rx_finish P closure s = Ret (None, ps) ∧ result_ok None ps.
Proof.
  intros Ha Hn Hj. pose proof (lookup_lt_Some _ _ _ Hj).
  assert (∀ ps, result_ok None ps) as Hno.
  { intros _ p' Hp'. destruct (decide (p' < p)%nat); [by apply (at_least _ _ _ Ha p')|].
    apply found_le in Hp'. lia. }
  pose proof (skip_stars_stop p j s b it Ha Hj) as Hskip. pose proof (final_item s j b it Hj (at_matched _ _ _ Ha)) as Hf.
  assert (set_pt s (offset j) = s) as Hpt by (rewrite <-(at_pt _ _ _ Ha); by destruct s).
  assert (∃ ps, (c ← rd P (offset j); if prts c then record_prts closure s (offset j) (st s) else Ret s) =
    Ret (set_prts s ps)) as (ps & Hps).
  { destruct b.
    - rewrite (rd_paren j it Hj). cbn [mbind outcome_bind]. change (prts PRTS) with true. cbn iota.
      erewrite record_prts_at; [by eexists|lia|by rewrite (drop_offset j true it Hj)|].
      apply (ps_room p); [done|by left].
    - pose proof (rd_item j false it Hj) as Hi. cbn zeta in Hi. cbn [paren length] in Hi. rewrite Nat.add_0_r in Hi.
      exists (prts_str s). assert (set_prts s (prts_str s) = s) as -> by (by destruct s).
      destruct it as [c|k].
      + destruct Hi as (-> & _ & _ & Hp & _). cbn [mbind outcome_bind]. by rewrite Hp.
      + by destruct Hi as (-> & _). }
  exists (match closure with None => prts_str s | Some _ => ps end). split; [|apply Hno].
  unfold rx_finish. rewrite (at_pt _ _ _ Ha), Hskip. cbn [mbind outcome_bind] in *. rewrite Hpt.
  destruct closure; cbn [mbind outcome_bind] in *.
  - rewrite Hps. cbn [mbind outcome_bind pt set_prts]. rewrite (at_pt _ _ _ Ha).
    unfold rx_final in *. cbn [regex_matched set_prts]. by rewrite Hf.
  - rewrite (at_pt _ _ _ Ha), Hf. done.
Qed.

(** The subject ends with the pattern. *)
Lemma finish_end p s :
  attempt p len s → (p + len = n)%nat →
  ∃ r ps, rx_finish P closure s = Ret (r, ps) ∧ result_ok r ps.
Proof.
  intros Ha Hn. destruct rd_end as [He1 He2]. pose proof drop_offset_end as Hde.
  pose proof (record_prts_at s len [] (st s) (le_n _)) as Hrec. pose proof (ps_room p len s Ha) as Hroom.
  pose proof (end_result p s Ha (λ _, Hn)) as Hres.
  assert (set_pt s (offset len) = s) as Hpt by (rewrite <-(at_pt _ _ _ Ha); by destruct s).
  assert (skip_stars P (length P) (offset len) = Ret (offset len)) as Hskip.
  { rewrite length_app, Nat.add_1_r. cbn [skip_stars]. rewrite He1. by destruct tl. }
  assert (∀ s', rx_final P s' (offset len) = Ret true) as Hf.
  { intros s'. unfold rx_final, or_else, endoffile. rewrite He1. cbn [mbind outcome_bind].
    assert ((if prts (if tl then PRTS else NUL) then S (offset len) else offset len) =
      (offset len + length (paren tl))%nat) as -> by (destruct tl; simpl; lia). by rewrite He2. }
  exists (r_code s), (prts_str (after_paren s len tl)). split; [|done].
  unfold rx_finish, after_paren in *. rewrite (at_pt _ _ _ Ha), Hskip. cbn [mbind outcome_bind].
  rewrite Hpt, He1. cbn [mbind outcome_bind]. destruct tl; cbn [prts_str set_pt set_prts].
  - change (prts PRTS) with true. cbn iota. rewrite Hrec by (done || by apply Hroom; right).
    unfold recorded. destruct closure; cbn [mbind outcome_bind pt set_prts];
      rewrite (at_pt _ _ _ Ha), Hf; by destruct s.
  - change (prts NUL) with false. cbn iota.
    destruct closure; cbn [mbind outcome_bind]; rewrite (at_pt _ _ _ Ha), Hf; done.
Qed.

(** ** The engine *)

Lemma length_items_text (l : items) : (length l ≤ length (items_text l))%nat.
Proof.
  induction l as [|[b it] l IH]; [done|]. cbn [items_text length]. rewrite !length_app.
  destruct it; simpl; lia.
Qed.

Lemma fuel_enough :
  (Z.of_nat n + 1 - Z.of_nat 0) * (Z.of_nat len + 2) + (Z.of_nat len + 1 - Z.of_nat 0) < Zpos (rx_fuel P T).
Proof.
  unfold rx_fuel. set (B := Z.of_nat (length T) + Z.of_nat (length P) + 2).
  assert (Z.of_nat n + 2 ≤ B ∧ Z.of_nat len + 2 ≤ B) as [H1 H2].
  { subst B. unfold pattern_text. rewrite !length_app. pose proof (length_items_text its). simpl. lia. }
  assert (B ^ 2 ≤ B ^ 7) by (apply Z.pow_le_mono_r; lia). rewrite Z2Pos.id by lia.
  rewrite Z.pow_2_r in *. nia.
Qed.

Lemma fixed_engine ps :
  (closure ≠ None → (total < length ps)%nat) →
  ∃ r ps', _OS_Regex sg P T closure flags ps = Ret (r, ps') ∧ result_ok r ps'.
Proof.
  intros Hps. unfold _OS_Regex. set (s0 := mk_rx _ _ _ _ _ _ _).
  assert (attempt 0 0 s0) as Ha0.
  { split; cbn; try done; try lia. intros Hc. split; [by apply Hps|lia]. }
  destruct (iterate_result (rx_step sg P T closure flags) (λ g s, attempt g.1 g.2 s)
    (λ g _, (Z.of_nat n + 1 - Z.of_nat g.1) * (Z.of_nat len + 2) + (Z.of_nat len + 1 - Z.of_nat g.2))
    (λ r, match r with inl (r, ps) => result_ok r ps | inr s => ∃ p j, attempt p j s ∧ (p + j = n)%nat end))
    with (p := rx_fuel P T) (g := (0%nat, 0%nat)) (s := s0) as (r & -> & Hr).
  - intros [p j] s Ha. cbn [fst snd] in *. destruct (at_le _ _ _ Ha).
    assert (0 ≤ (Z.of_nat n + 1 - Z.of_nat p) * (Z.of_nat len + 2)) by (apply Z.mul_nonneg_nonneg; lia). lia.
  - intros [p j] s Ha. cbn [fst snd] in *. destruct (fixed_step p j s Ha) as (r & Hstep & Hr). exists r. split; [done|].
    destruct (at_le _ _ _ Ha). destruct r as [s'|[[r ps']|s']]; [|done|by eexists _, _].
    destruct Hr as [Hr|Hr]; [exists (p, S j)|exists (S p, 0%nat)]; (split; [done|]); cbn [fst snd].
    + rewrite Nat2Z.inj_succ. lia.
    + rewrite Nat2Z.inj_succ.
      replace (Z.of_nat n + 1 - Z.succ (Z.of_nat p)) with (Z.of_nat n + 1 - Z.of_nat p - 1) by lia.
      rewrite Z.mul_sub_distr_r. lia.
  - done.
  - apply fuel_enough.
  - cbn [mbind outcome_bind]. destruct r as [[r ps']|s]; [by eexists _, _|].
    destruct Hr as (p & j & Ha & Hn). destruct (at_le _ _ _ Ha) as [_ Hj].
    destruct (decide (j = len)) as [->|]; [by apply (finish_end p)|].
    assert (∃ x, its !! j = Some x) as ([b it] & Hx) by (apply lookup_lt_is_Some_2; lia).
    destruct (finish_item p j s b it Ha Hn Hx) as (ps' & ? & ?). by eexists _, _.
Qed.

End run.

End fixed.
