(* ===== verification/RegexSource.v ===== *)
(** * Regular expressions without repetition, as they are written

    A pattern of alternatives without plus and star is compiled and executed: the first
    alternative that occurs in the subject is found at its leftmost occurrence, and the
    strings returned are those between its parentheses. *)

From Stdlib Require Import Lia ZArith Ascii String.
From stdpp Require Import base numbers list strings.
From S2P Require Import Prelude CString RegexMaps OSMatch OSRegex RegexSafe RegexCompile RegexFixed.

#[local] Open Scope list_scope.
#[local] Open Scope Z_scope.

(** ** Source patterns *)

(** An alternative as it is written: the anchors, the items, in which an escape has its
    letter, and whether a parenthesis ends it. *)
Record alternative : Type := mk_alt {
  al_begin : bool;
  al_items : items;
  al_tail : bool;
  al_end : bool
}.

Definition special (c : ascii) : bool :=
  bool_decide (c ∈ [NUL; BACKSLASH; "("%char; ")"%char; OR; BEGINREGEX; ENDREGEX]).

Definition source_item_ok (it : item) : bool :=
  match it with ILit c => negb (special c) | IEsc d => bool_decide (is_Some (escape_code d)) end.

(** The text of the items; the parentheses open and close in turn. *)
Fixpoint items_source (opened : bool) (its : items) : list ascii :=
  match its with
  | [] => []
  | (b, it) :: its =>
      (if b then [if opened then ")"%char else "("%char] else []) ++ item_text it ++
      items_source (xorb opened b) its
  end.

Definition alt_source (a : alternative) : list ascii :=
  (if al_begin a then [BEGINREGEX] else []) ++ items_source false (al_items a) ++
  (if al_tail a then [")"%char] else []) ++ (if al_end a then [ENDREGEX] else []).

Fixpoint join_alts (l : list (list ascii)) : list ascii :=
  match l with
  | [] => []
  | [a] => a
  | a :: l => a ++ OR :: join_alts l
  end.

Definition regex_source (alts : list alternative) : string := string_of_list_ascii (join_alts (alt_source <$> alts)).

(** A parenthesis is left open after the items. *)
Fixpoint left_open (opened : bool) (its : items) : bool :=
  match its with [] => opened | (b, _) :: its => left_open (xorb opened b) its end.

Definition alt_ok (a : alternative) : bool :=
  forallb (λ x, source_item_ok x.2) (al_items a) && no_quantifier (al_items a) &&
  bool_decide (al_items a ≠ []) && Bool.eqb (left_open false (al_items a)) (al_tail a).

(** ** Compiled items *)

Definition fold_case (flags : Z) (c : ascii) : ascii :=
  if flag_set flags OS_CASE_SENSITIVE then c else tolower c.

Definition compile_item (flags : Z) (it : item) : item :=
  match it with
  | ILit c => ILit (fold_case flags c)
  | IEsc d => IEsc (default NUL (escape_code d))
  end.

Definition compile_items (flags : Z) (its : items) : items :=
  (λ x, (x.1, compile_item flags x.2)) <$> its.

Definition alt_compiled (flags : Z) (a : alternative) : list ascii :=
  (if al_begin a then [BEGINREGEX] else []) ++
  pattern_text (compile_items flags (al_items a)) (al_tail a) ++
  (if al_end a then [ENDREGEX] else []).

Lemma special_spec c :
  special c = false →
  c ≠ NUL ∧ c ≠ BACKSLASH ∧ c ≠ "("%char ∧ c ≠ ")"%char ∧ c ≠ OR ∧ c ≠ BEGINREGEX ∧ c ≠ ENDREGEX.
Proof. unfold special. intros H%bool_decide_eq_false. rewrite !not_elem_of_cons in H. naive_solver. Qed.

Lemma fold_special flags c : special c = false → special (fold_case flags c) = false.
Proof.
  unfold fold_case. case_match; [done|]. revert c.
  apply (forall_ascii (λ c, special c = false → special (tolower c) = false)). vm_compute. reflexivity.
Qed.

Lemma fold_isPlus flags c : isPlus (fold_case flags c) = isPlus c.
Proof.
  unfold fold_case. case_match; [done|]. revert c.
  apply (forall_ascii (λ c, isPlus (tolower c) = isPlus c)). vm_compute. reflexivity.
Qed.

Lemma compile_items_ok flags its :
  forallb (λ x, source_item_ok x.2) its = true → no_quantifier its = true →
  items_ok (compile_items flags its) = true.
Proof.
  intros Hi Hq. unfold items_ok. apply andb_true_iff. split.
  - clear Hq. induction its as [|[b it] its IH]; [done|]. cbn [forallb snd] in Hi |- *.
    apply andb_true_iff in Hi as [Hit Hi]. cbn [compile_items fmap list_fmap forallb snd].
    apply andb_true_iff. split; [|by apply IH]. destruct it as [c|d]; cbn [compile_item item_ok source_item_ok] in *.
    + apply negb_true_iff, (fold_special flags), special_spec in Hit as (? & ? & ? & _).
      unfold prts, PRTS. by rewrite !bool_decide_eq_false_2.
    + apply bool_decide_eq_true in Hit as [k Hk]. rewrite Hk. by destruct (escape_code_spec d k Hk).
  - clear Hi. induction its as [|[b it] its IH]; [done|]. destruct it as [c|d].
    + by apply IH.
    + cbn [no_quantifier] in Hq. apply andb_true_iff in Hq as [Hp Hq]. cbn [compile_items fmap list_fmap fst snd].
      cbn [no_quantifier compile_item]. apply andb_true_iff. split; [|by apply IH].
      destruct its as [|[[] [c'|d']] its]; try done. cbn. by rewrite fold_isPlus.
Qed.

(** ** Compilation *)

Section compile.
Context (flags : Z).

(** The first loop rewrites [src] into [text], from the parentheses opened and the counters
    given to those given last. *)
Definition scans (src text : list ascii) (opened opened' : bool) (ps ps' cnt cnt' : nat) : Prop :=
  ∀ rest r a b n, OSRegex_scan flags rest (if opened' then 1 else 0) ps' cnt' = Ret (inr (r, a, b, n)) →
  OSRegex_scan flags (src ++ rest) (if opened then 1 else 0) ps cnt = Ret (inr (text ++ r, a, b, n)).

Lemma scans_nil o ps cnt : scans [] [] o o ps ps cnt cnt.
Proof. by intros rest r a b n. Qed.

Lemma scans_app s1 t1 s2 t2 o1 o2 o3 ps1 ps2 ps3 c1 c2 c3 :
  scans s1 t1 o1 o2 ps1 ps2 c1 c2 → scans s2 t2 o2 o3 ps2 ps3 c2 c3 →
  scans (s1 ++ s2) (t1 ++ t2) o1 o3 ps1 ps3 c1 c3.
Proof. intros H1 H2 rest r a b n Hr. rewrite <-!app_assoc. by apply H1, H2. Qed.

Lemma scans_fold c : (if flag_set flags OS_CASE_SENSITIVE then Ret c else to_char <$> charmap_at c) = Ret (fold_case flags c).
Proof. unfold fold_case. case_match; [done|]. by rewrite to_char_charmap. Qed.

Lemma scans_plain c o ps cnt :
  c ∉ [NUL; BACKSLASH; "("%char; ")"%char; OR] → scans [c] [fold_case flags c] o o ps ps cnt cnt.
Proof.
  rewrite !not_elem_of_cons. intros (H1 & H2 & H3 & H4 & H5 & _) rest r a b n Hr. cbn [app OSRegex_scan].
  rewrite (bool_decide_eq_false_2 (c = NUL)), (bool_decide_eq_false_2 (c = BACKSLASH)),
    (bool_decide_eq_false_2 (c = "("%char)), (bool_decide_eq_false_2 (c = ")"%char)) by done.
  rewrite scans_fold. destruct (negb _ && _) eqn:Eo; [by destruct o|].
  assert (fold_case flags c ≠ OR) as Hor.
  { unfold fold_case. destruct (flag_set _ _); [done|]. clear -H5. revert c H5.
    apply (forall_ascii (λ c, c ≠ OR → tolower c ≠ OR)). vm_compute. reflexivity. }
  cbn [mbind outcome_bind]. rewrite bool_decide_eq_false_2 by done. cbn [andb]. by rewrite Hr.
Qed.

Lemma scans_prts (o : bool) ps cnt :
  scans [if o then ")"%char else "("%char] [PRTS] o (negb o) ps (if o then S ps else ps) cnt cnt.
Proof.
  intros rest r a b n Hr. cbn [app OSRegex_scan].
  assert (fold_case flags "(" = "("%char) as Hf by (unfold fold_case; by destruct (flag_set _ _)).
  destruct o; cbn [negb] in Hr.
  - rewrite !(bool_decide_eq_false_2 (")"%char = _)) by done. rewrite bool_decide_eq_true_2 by done.
    cbn [negb andb]. change (1 - 1 =? 0) with true. cbn [negb andb]. rewrite scans_fold, Hf. cbn [mbind outcome_bind].
    rewrite bool_decide_eq_false_2 by done. cbn [andb]. change (1 - 1) with 0. by rewrite Hr.
  - rewrite !bool_decide_eq_false_2 by done. rewrite bool_decide_eq_true_2 by done.
    change (0 + 1) with 1. cbn [Z.eqb Pos.eqb negb andb]. rewrite scans_fold, Hf. cbn [mbind outcome_bind].
    change (bool_decide ("("%char = OR)) with false. cbn [andb]. by rewrite Hr.
Qed.

Lemma scans_escape d k o ps cnt :
  escape_code d = Some k → scans [BACKSLASH; d] [BACKSLASH; k] o o ps ps cnt cnt.
Proof.
  intros Hd rest r a b n Hr. cbn [app OSRegex_scan]. rewrite bool_decide_eq_false_2 by done.
  rewrite bool_decide_eq_true_2 by done. rewrite Hd, Hr. done.
Qed.

Lemma scans_or ps cnt : scans [OR] [OR] false false ps ps cnt (S cnt).
Proof.
  intros rest r a b n Hr. cbn [app OSRegex_scan]. rewrite !bool_decide_eq_false_2 by done.
  cbn [Z.eqb negb andb]. rewrite scans_fold. cbn [mbind outcome_bind].
  assert (fold_case flags OR = OR) as -> by (unfold fold_case; by destruct (flag_set _ _)).
  rewrite bool_decide_eq_true_2 by done. cbn [andb negb]. by rewrite Hr.
Qed.

Lemma scans_item it o ps cnt :
  source_item_ok it = true → scans (item_text it) (item_text (compile_item flags it)) o o ps ps cnt cnt.
Proof.
  destruct it as [c|d]; cbn [source_item_ok item_text compile_item].
  - intros (? & ? & ? & ? & ? & _)%negb_true_iff%special_spec. apply scans_plain.
    rewrite !not_elem_of_cons. split_and!; try done. apply not_elem_of_nil.
  - intros [k Hk]%bool_decide_eq_true. rewrite Hk. by apply scans_escape.
Qed.

(** The number of parentheses closed in the items. *)
Fixpoint closings (opened : bool) (its : items) : nat :=
  match its with
  | [] => 0
  | (b, _) :: its => ((if b && opened then 1 else 0) + closings (xorb opened b) its)%nat
  end.

Lemma scans_items its o ps cnt :
  forallb (λ x, source_item_ok x.2) its = true →
  scans (items_source o its) (items_text (compile_items flags its)) o (left_open o its)
    ps (ps + closings o its) cnt cnt.
Proof.
  revert o ps. induction its as [|[b it] its IH]; intros o ps; cbn [forallb snd].
  { intros _. rewrite Nat.add_0_r. apply scans_nil. }
  intros [Hit Hits]%andb_true_iff. cbn [items_source compile_items fmap list_fmap items_text left_open closings fst snd].
  destruct b; cbn [paren andb].
  - eapply scans_app; [apply scans_prts|]. eapply scans_app; [by apply scans_item|].
    rewrite (xorb_comm o true). change (xorb true o) with (negb o). rewrite Nat.add_assoc.
    replace (ps + (if o then 1 else 0))%nat with (if o then S ps else ps) by (destruct o; lia). by apply IH.
  - cbn [app]. rewrite xorb_false_r. eapply scans_app; [by apply scans_item|]. by apply IH.
Qed.

Definition alt_closings (a : alternative) : nat :=
  (closings false (al_items a) + if al_tail a then 1 else 0)%nat.

Lemma scans_alt a ps cnt :
  alt_ok a = true → scans (alt_source a) (alt_compiled flags a) false false ps (ps + alt_closings a) cnt cnt.
Proof.
  intros [[[Hi _]%andb_true_iff _]%andb_true_iff Hopen%eqb_prop]%andb_true_iff.
  unfold alt_source, alt_compiled, alt_closings, pattern_text. rewrite Nat.add_assoc, <-!app_assoc.
  eapply scans_app.
  { destruct (al_begin a); [|apply scans_nil].
    assert (fold_case flags BEGINREGEX = BEGINREGEX) as E by (unfold fold_case; by destruct (flag_set _ _)).
    rewrite <-E at 2. apply scans_plain. rewrite !not_elem_of_cons. split_and!; try done. apply not_elem_of_nil. }
  eapply scans_app; [by apply scans_items|]. rewrite Hopen.
  eapply scans_app with (o2 := false) (c2 := cnt)
    (ps2 := (ps + closings false (al_items a) + if al_tail a then 1 else 0)%nat).
  { destruct (al_tail a); cbn [paren]; [|rewrite Nat.add_0_r; apply scans_nil].
    rewrite Nat.add_1_r. apply (scans_prts true). }
  destruct (al_end a); [|apply scans_nil].
  assert (fold_case flags ENDREGEX = ENDREGEX) as E by (unfold fold_case; by destruct (flag_set _ _)).
  rewrite <-E at 2. apply scans_plain. rewrite !not_elem_of_cons. split_and!; try done. apply not_elem_of_nil.
Qed.

Lemma scans_alts alts ps cnt :
  alts ≠ [] → Forall (λ a, alt_ok a = true) alts →
  scans (join_alts (alt_source <$> alts)) (join_alts (alt_compiled flags <$> alts)) false false
    ps (ps + sum_list (alt_closings <$> alts)) cnt (cnt + (length alts - 1)).
Proof.
  intros Hne Hok. revert ps cnt Hne. induction Hok as [|a alts Ha Hok IH]; intros ps cnt Hne; [done|].
  destruct alts as [|a' alts].
  { cbn. rewrite !Nat.add_0_r. by apply scans_alt. }
  change (join_alts (?f <$> a :: a' :: alts)) with (f a ++ [OR] ++ join_alts (f <$> a' :: alts)).
  eapply scans_app; [by apply scans_alt|]. eapply scans_app; [apply scans_or|].
  replace (cnt + (length (a :: a' :: alts) - 1))%nat with (S cnt + (length (a' :: alts) - 1))%nat by (simpl; lia).
  change (sum_list (alt_closings <$> a :: a' :: alts)) with
    (alt_closings a + sum_list (alt_closings <$> a' :: alts))%nat.
  rewrite Nat.add_assoc. by apply IH.
Qed.

(** *** The compiled text *)

Lemma compiled_char its tl c :
  forallb (λ x, source_item_ok x.2) its = true → c ∈ pattern_text (compile_items flags its) tl →
  c ≠ NUL ∧ c ≠ OR ∧ c ≠ BEGINREGEX ∧ c ≠ ENDREGEX.
Proof.
  intros Hok Hc. unfold pattern_text in Hc.
  assert (∀ b, c ∈ paren b → c ≠ NUL ∧ c ≠ OR ∧ c ≠ BEGINREGEX ∧ c ≠ ENDREGEX) as Hparen.
  { intros [] H; [by apply list_elem_of_singleton in H as ->|by apply elem_of_nil in H]. }
  induction its as [|[b it] its IH]; cbn [forallb snd] in Hok; [by apply (Hparen tl)|].
  apply andb_true_iff in Hok as [Hit Hok]. cbn [compile_items fmap list_fmap items_text fst snd] in Hc.
  rewrite <-!app_assoc, !elem_of_app in Hc. destruct Hc as [Hc|[Hc|Hc]]; [by apply (Hparen b)| |].
  - destruct it as [d|d]; cbn [compile_item item_text source_item_ok] in *.
    + apply list_elem_of_singleton in Hc as ->.
      apply negb_true_iff, (fold_special flags), special_spec in Hit as (? & _ & _ & _ & ? & ? & ?). done.
    + apply bool_decide_eq_true in Hit as [k Hk]. rewrite Hk in Hc. unfold default in Hc. cbn [from_option id] in Hc.
      destruct (escape_code_spec d k Hk) as (Hcode & ? & ?).
      apply elem_of_cons in Hc as [->|Hc]; [done|]. apply list_elem_of_singleton in Hc as ->.
      split_and!; try done; intros ->; done.
  - apply IH; [done|]. by rewrite elem_of_app.
Qed.

Lemma wfp_items its r :
  forallb (λ x, item_ok x.2) its = true → wfp r = true → wfp (items_text its ++ r) = true.
Proof.
  intros Hok Hr. induction its as [|[b it] its IH]; [done|]. cbn [forallb snd] in Hok.
  apply andb_true_iff in Hok as [Hit Hok]. specialize (IH Hok). cbn [items_text]. rewrite <-!app_assoc.
  assert (wfp (item_text it ++ items_text its ++ r) = true) as Hi.
  { destruct it as [c|k]; cbn [item_text app wfp item_ok] in *.
    - apply negb_true_iff in Hit. apply orb_false_iff in Hit as [[Hn Hb]%orb_false_iff _]. rewrite Hb, Hn. by rewrite IH.
    - rewrite bool_decide_eq_true_2 by done. by rewrite Hit, IH. }
  destruct b; cbn [paren app]; [|done]. cbn [wfp]. rewrite !bool_decide_eq_false_2 by done. by rewrite Hi.
Qed.

Lemma alt_ok_items a :
  alt_ok a = true →
  forallb (λ x, source_item_ok x.2) (al_items a) = true ∧ items_ok (compile_items flags (al_items a)) = true ∧
  compile_items flags (al_items a) ≠ [].
Proof.
  intros [[[Hi Hq]%andb_true_iff Hne%bool_decide_eq_true]%andb_true_iff _]%andb_true_iff.
  split; [done|]. split; [by apply compile_items_ok|]. by destruct (al_items a).
Qed.

Lemma alt_compiled_wfp a : alt_ok a = true → wfp (alt_compiled flags a) = true.
Proof.
  intros Ha. destruct (alt_ok_items a Ha) as (_ & Hok & _).
  unfold items_ok in Hok. apply andb_true_iff in Hok as [Hok _]. unfold alt_compiled, pattern_text. rewrite <-!app_assoc.
  assert (wfp (items_text (compile_items flags (al_items a)) ++ paren (al_tail a) ++
    (if al_end a then [ENDREGEX] else [])) = true) as Hw.
  { apply wfp_items; [done|]. by destruct (al_tail a), (al_end a). }
  destruct (al_begin a); cbn [app]; [|done]. cbn [wfp]. rewrite !bool_decide_eq_false_2 by done. by rewrite Hw.
Qed.

Lemma alt_compiled_or a : alt_ok a = true → OR ∉ alt_compiled flags a.
Proof.
  intros Ha. destruct (alt_ok_items a Ha) as (Hi & _ & _). unfold alt_compiled. rewrite !elem_of_app.
  intros [H|[H|H]].
  - destruct (al_begin a); [by apply list_elem_of_singleton in H|by apply elem_of_nil in H].
  - by apply (compiled_char _ _ _ Hi) in H as (_ & ? & _).
  - destruct (al_end a); [by apply list_elem_of_singleton in H|by apply elem_of_nil in H].
Qed.

(** The anchors are found again. *)
Lemma alt_compiled_parse a :
  alt_ok a = true →
  parse_alt (alt_compiled flags a) =
    (al_begin a, al_end a, pattern_text (compile_items flags (al_items a)) (al_tail a)).
Proof.
  intros Ha. destruct (alt_ok_items a Ha) as (Hi & _ & Hne).
  pose proof (λ c, compiled_char _ (al_tail a) c Hi) as Hc. unfold alt_compiled.
  set (t := pattern_text _ _) in *. assert (t ≠ []) as Ht.
  { subst t. unfold pattern_text. destruct (compile_items flags (al_items a)) as [|[b it] l]; [done|].
    destruct b, it; done. }
  assert (parse_end (t ++ if al_end a then [ENDREGEX] else []) = (al_end a, t)) as Hend.
  { unfold parse_end. destruct (al_end a).
    - rewrite last_snoc, bool_decide_eq_true_2 by done. by rewrite length_app, Nat.add_sub, take_app_length.
    - rewrite app_nil_r. destruct (last t) as [c|] eqn:El; [|done].
      assert (c ∈ t) as Hin by (apply last_Some in El as (q & ->); apply elem_of_app; right; by apply list_elem_of_singleton).
      rewrite bool_decide_eq_false_2; [done|]. by apply Hc in Hin as (_ & _ & _ & ?). }
  unfold parse_alt. destruct (al_begin a); cbn [app parse_begin].
  - rewrite bool_decide_eq_true_2 by done. by rewrite Hend.
  - destruct t as [|c t]; [done|]. cbn [app parse_begin].
    rewrite bool_decide_eq_false_2 by (by destruct (Hc c (list_elem_of_here _ _)) as (_ & _ & ? & _)).
    cbn [app] in Hend. by rewrite Hend.
Qed.

Lemma alternatives_join l : l ≠ [] → Forall (λ a, OR ∉ a) l → alternatives (join_alts l) = l.
Proof.
  intros Hne Hl. induction Hl as [|a l Ha Hl IH]; [done|]. destruct l as [|b l].
  - by apply alternatives_one.
  - change (join_alts (a :: b :: l)) with (a ++ OR :: join_alts (b :: l)). rewrite alternatives_cons by done. by rewrite IH.
Qed.

Lemma join_alts_nul l : Forall (λ a, NUL ∉ a) l → NUL ∉ join_alts l.
Proof.
  intros Hl. induction Hl as [|a l Ha Hl IH]; [apply not_elem_of_nil|]. destruct l as [|b l]; [done|].
  change (join_alts (a :: b :: l)) with (a ++ OR :: join_alts (b :: l)).
  rewrite not_elem_of_app, not_elem_of_cons. done.
Qed.

Lemma chars_of_list l : chars (string_of_list_ascii l) = l.
Proof. induction l as [|c l IH]; [done|]. cbn. by rewrite IH. Qed.

(** The strings between parentheses are wanted, and there are some. *)
Definition wants_strings (alts : list alternative) : bool :=
  (0 <? sum_list (alt_closings <$> alts))%nat && flag_set flags OS_RETURN_SUBSTRING.

Lemma compile_source alts :
  alts ≠ [] → Forall (λ a, alt_ok a = true) alts →
  Z.of_nat (String.length (regex_source alts)) ≤ OS_PATTERN_MAXSIZE →
  OSRegex_Compile (Some (regex_source alts)) flags =
    Ret (1, compiled_regex (wants_strings alts) (regex_source alts) (alt_compiled flags <$> alts)).
Proof.
  intros Hne Hok Hmax. set (l := join_alts (alt_compiled flags <$> alts)).
  assert (alternatives l = alt_compiled flags <$> alts) as El.
  { apply alternatives_join; [by destruct alts|]. apply Forall_fmap. eapply Forall_impl; [exact Hok|].
    intros a. apply alt_compiled_or. }
  rewrite (OSRegex_Compile_scan _ flags l (sum_list (alt_closings <$> alts)) (length alts - 1)).
  - by rewrite El.
  - done.
  - unfold c_str, regex_source. rewrite chars_of_list. by apply (scans_alts alts 0 0 Hne Hok).
  - apply join_alts_nul, Forall_fmap. eapply Forall_impl; [exact Hok|]. intros a Ha.
    by apply (wfp_nul _ _ (le_n _)), alt_compiled_wfp.
  - rewrite El, length_fmap. destruct alts; [done|simpl; lia].
Qed.

End compile.

(** ** What is searched *)

Section search.
Context (sg : bool) (flags : Z).

(** The alternative occurs in [s] at [p]. *)
Definition occurs (a : alternative) (s : list ascii) (p : nat) : bool :=
  fit_all sg (compile_items flags (al_items a)) (drop p s) &&
  implb (al_begin a) (p =? 0)%nat &&
  implb (al_end a) (p + length (al_items a) =? length s)%nat.

Definition first_occurrence (a : alternative) (s : list ascii) : option nat :=
  fst <$> list_find (λ p, occurs a s p = true) (seq 0 (S (length s))).

(** The first alternative that occurs, and its leftmost occurrence. *)
Fixpoint search (alts : list alternative) (s : list ascii) : option (alternative * nat) :=
  match alts with
  | [] => None
  | a :: alts =>
      match first_occurrence a s with
      | Some p => Some (a, p)
      | None => search alts s
      end
  end.

(** The last character of an occurrence. *)
Definition occurrence_end (x : alternative * nat) : Z := Z.of_nat (x.2 + length (al_items x.1)) - 1.

(** The items before which a parenthesis stands. *)
Fixpoint paren_offsets (j : nat) (its : items) : list nat :=
  match its with
  | [] => []
  | (b, _) :: its => if b then j :: paren_offsets (S j) its else paren_offsets (S j) its
  end.

Definition alt_parens (a : alternative) : list nat :=
  paren_offsets 0 (al_items a) ++ if al_tail a then [length (al_items a)] else [].

(** The texts between each two positions. *)
Fixpoint groups (s : list ascii) (ps : list nat) : list (list ascii) :=
  match ps with
  | o :: c :: ps => take (c - o) (drop o s) :: groups s ps
  | _ => []
  end.

Definition captures (s : list ascii) (x : alternative * nat) : list (list ascii) :=
  groups s (Nat.add x.2 <$> alt_parens x.1).

Lemma first_occurrence_Some a s p :
  occurs a s p = true → (∀ p', (p' < p)%nat → occurs a s p' = false) → (p ≤ length s)%nat →
  first_occurrence a s = Some p.
Proof.
  intros Hp Hleast Hle. unfold first_occurrence. apply fmap_Some. exists (p, p). split; [|done].
  apply list_find_Some. rewrite lookup_seq. split; [lia|]. split; [done|].
  intros j y [-> Hj]%lookup_seq Hlt. by rewrite Hleast by lia.
Qed.

Lemma first_occurrence_None a s :
  (∀ p, occurs a s p = false) → first_occurrence a s = None.
Proof.
  intros Hno. unfold first_occurrence. apply fmap_None, list_find_None. apply Forall_forall. intros p _. by rewrite Hno.
Qed.

Lemma alt_flags_compiled a f :
  alt_ok a = true → f = BEGIN_SET ∨ f = END_SET →
  flag_set (alt_flags (alt_compiled flags a)) f = if bool_decide (f = BEGIN_SET) then al_begin a else al_end a.
Proof.
  intros Ha Hf. unfold alt_flags. rewrite alt_compiled_parse by done.
  by destruct Hf as [-> | ->], (al_begin a), (al_end a).
Qed.

(** The engine looks for the same occurrences. *)
Lemma occurs_found a s p :
  alt_ok a = true →
  occurs a s p = true ↔
    found_at sg (compile_items flags (al_items a)) (alt_flags (alt_compiled flags a)) s p.
Proof.
  intros Ha. unfold occurs, found_at. rewrite !alt_flags_compiled by (done || by left + by right).
  change (bool_decide (BEGIN_SET = BEGIN_SET)) with true. change (bool_decide (END_SET = BEGIN_SET)) with false.
  unfold compile_items at 3. rewrite length_fmap. cbn iota. rewrite !andb_true_iff.
  destruct (al_begin a), (al_end a); cbn [implb]; rewrite ?Nat.eqb_eq; naive_solver.
Qed.

Lemma engine_first a s r ps closure :
  alt_ok a = true →
  result_ok sg (compile_items flags (al_items a)) (al_tail a) (alt_flags (alt_compiled flags a)) s closure r ps →
  r = occurrence_end ∘ pair a <$> first_occurrence a s ∧
  ∀ p, first_occurrence a s = Some p → closure ≠ None →
    at_positions (compile_items flags (al_items a)) (al_tail a) p ps.
Proof.
  intros Ha Hr. destruct r as [v|]; cbn [result_ok] in Hr.
  - destruct Hr as (p & Hp & Hleast & -> & Hps). destruct (alt_ok_items flags a Ha) as (_ & _ & Hne).
    apply found_le in Hp as Hle; [|done]. apply (occurs_found a s p Ha) in Hp.
    rewrite (first_occurrence_Some a s p); [|done| |lia].
    + split; [|by intros ? [= <-]]. cbn. unfold occurrence_end, compile_items. cbn [fst snd]. by rewrite length_fmap.
    + intros p' Hp'. apply not_true_is_false. rewrite occurs_found by done. by apply Hleast.
  - rewrite first_occurrence_None; [done|]. intros p. apply not_true_is_false. rewrite occurs_found by done. apply Hr.
Qed.

(** The positions of the engine are those of the parentheses. *)
Lemma paren_offsets_spec its off k o :
  paren_offsets off its !! k = Some o →
  ∃ j it, o = (off + j)%nat ∧ its !! j = Some (true, it) ∧ nparens its j = k.
Proof.
  revert off k. induction its as [|[b it] its IH]; intros off k; [done|]. cbn [paren_offsets]. destruct b.
  - destruct k as [|k]; cbn.
    + intros [= <-]. exists 0%nat, it. split_and!; [lia|done..].
    + intros (j & it' & -> & Hj & <-)%IH. exists (S j), it'. split_and!; [lia|done..].
  - intros (j & it' & -> & Hj & <-)%IH. exists (S j), it'. split_and!; [lia|done..].
Qed.

Lemma length_paren_offsets (its : list (bool * item)) off :
  length (paren_offsets off its) = length (filter (λ x, x.1 = true) its).
Proof.
  revert off. induction its as [|[b it] its IH]; intros off; [done|]. cbn [paren_offsets].
  rewrite filter_cons. cbn [fst]. destruct b; cbn [length]; by rewrite IH.
Qed.

Lemma paren_offsets_compile off its : paren_offsets off (compile_items flags its) = paren_offsets off its.
Proof. revert off. induction its as [|[b it] its IH]; intros off; [done|]. cbn. by rewrite <-!IH. Qed.

Lemma at_positions_parens a p ps k o :
  at_positions (compile_items flags (al_items a)) (al_tail a) p ps → alt_parens a !! k = Some o →
  ps !! k = Some (Some (Z.of_nat (p + o))).
Proof.
  intros [Hi Ht]. unfold alt_parens. rewrite <-(paren_offsets_compile 0).
  intros [(j & it & -> & Hj & <-)%paren_offsets_spec|[Hk Ho]]%lookup_app_Some.
  - by apply (Hi j it).
  - destruct (al_tail a); [|done]. apply list_lookup_singleton_Some in Ho as [Hk0 <-].
    specialize (Ht eq_refl). assert (k = nparens (compile_items flags (al_items a)) (length (compile_items flags (al_items a)))) as ->.
    { unfold nparens. rewrite firstn_all, <-(length_paren_offsets _ 0). lia. }
    rewrite Ht. unfold compile_items at 1. by rewrite length_fmap.
Qed.

Lemma nprts_parens a : alt_ok a = true → nprts (alt_compiled flags a) = length (alt_parens a).
Proof.
  intros Ha. destruct (alt_ok_items flags a Ha) as (_ & Hok & Hne). unfold nprts, alt_text.
  rewrite alt_compiled_parse by done. cbn [snd].
  rewrite (nparens_total (compile_items flags (al_items a)) (al_tail a) Hok : length (prts_offsets 0 _) = _).
  unfold alt_parens, nparens. rewrite firstn_all, length_app, <-(paren_offsets_compile 0), length_paren_offsets.
  by destruct (al_tail a).
Qed.

End search.

(** ** Execution *)

Section run_source.
Context (sg : bool) (malloc_ok : Z → bool) (flags : Z) (s : list ascii).
Context (Hmalloc : ∀ z, 0 < z → malloc_ok z = true) (Hs : NUL ∉ s) (Hlen : Z.of_nat (length s) < 2 ^ 63).

Lemma text_upto_take n l : NUL ∉ l → (n ≤ length l)%nat → text_upto (l ++ [NUL]) (Z.of_nat n) = take n l.
Proof.
  revert n. induction l as [|c l IH]; intros n Hl Hn.
  - assert (n = 0%nat) as -> by (simpl in Hn; lia). done.
  - apply not_elem_of_cons in Hl as [Hc Hl]. cbn [app text_upto]. rewrite bool_decide_eq_false_2 by congruence.
    destruct n as [|n]; [done|]. rewrite (proj2 (Z.leb_gt _ _)) by lia. cbn [orb take].
    replace (Z.of_nat (S n) - 1) with (Z.of_nat n) by lia. simpl in Hn. by rewrite IH by (done || lia).
Qed.

(** Increasing positions in the subject, of which there is an even number. *)
Fixpoint positions_even (pos : list nat) : Prop :=
  match pos with
  | [] => True
  | [_] => False
  | o :: c :: pos => (o ≤ c ≤ length s)%nat ∧ positions_even pos
  end.

(** The texts are copied one after the other, and [NULL] ends them. *)
Lemma copy_groups fuel pre pos rest dn more :
  positions_even pos → (length pos < fuel)%nat → (length pos ≤ length more)%nat →
  ∃ more', copy_sub_strings malloc_ok fuel (s ++ [NUL])
      (pre ++ (Some ∘ Z.of_nat <$> pos) ++ None :: rest) (length pre) (length dn) (dn ++ None :: more) =
    Ret (true, dn ++ (Some <$> groups s pos) ++ None :: more') ∧
    (length (groups s pos) + length more' = length more)%nat.
Proof.
  revert pre pos dn more. induction fuel as [|fuel IH]; intros pre pos dn more Hpos Hf Hm; [lia|].
  cbn [copy_sub_strings]. destruct pos as [|o [|c pos]]; [|done|].
  { cbn [fmap list_fmap app groups]. rewrite c_read_head. by exists more. }
  cbn [positions_even] in Hpos. destruct Hpos as [[Hoc Hcs] Hpos]. cbn [fmap list_fmap app]. cbn [length] in Hf, Hm.
  rewrite c_read_head. cbn [mbind outcome_bind compose].
  rewrite (c_read_Some _ (length pre + 1) (Some (Z.of_nat c))).
  2: { rewrite lookup_app_r by lia. by replace (length pre + 1 - length pre)%nat with 1%nat by lia. }
  cbn [mbind outcome_bind compose]. assert (size_t (Z.of_nat c - Z.of_nat o) = Z.of_nat (c - o)) as ->.
  { unfold size_t. rewrite Z.mod_small; lia. }
  assert (size_t (Z.of_nat (c - o) + 1) = Z.of_nat (c - o) + 1) as -> by (unfold size_t; rewrite Z.mod_small; lia).
  rewrite Hmalloc by lia. cbn [negb]. rewrite (proj2 (Z.leb_gt _ _)), (proj2 (Z.ltb_ge _ _)), Nat2Z.id by lia.
  unfold c_at, advance. rewrite decide_True by (rewrite length_app; simpl; lia). cbn [mbind outcome_bind].
  rewrite drop_app_le, text_upto_take by (rewrite ?length_drop; try lia; by apply not_elem_of_drop).
  destruct more as [|x more]; [simpl in Hm; lia|].
  rewrite c_write_lt by (rewrite length_app; simpl; lia). cbn [mbind outcome_bind].
  rewrite c_write_lt by (rewrite length_insert, length_app; simpl; lia). cbn [mbind outcome_bind].
  rewrite !insert_app_r_alt by lia. replace (length dn + 1 - length dn)%nat with 1%nat by lia.
  rewrite Nat.sub_diag. cbn [insert list_insert].
  destruct (IH (pre ++ [Some (Z.of_nat o); Some (Z.of_nat c)]) pos (dn ++ [Some (take (c - o) (drop o s))]) more)
    as (more' & E & Hl); [done|lia|simpl in Hm; lia|].
  exists more'. split; [|cbn [groups length]; lia]. rewrite !length_app in E. cbn [length] in E.
  rewrite <-!app_assoc in E. cbn [app] in E. exact E.
Qed.

(** The positions of an occurrence are such. *)
Lemma paren_offsets_even p its (opened : bool) off (x : nat) :
  (p + off + length its ≤ length s)%nat → (opened = true → (x ≤ p + off)%nat) →
  positions_even ((if opened then [x] else []) ++
    (Nat.add p <$> paren_offsets off its ++ if left_open opened its then [(off + length its)%nat] else [])).
Proof.
  revert opened off x. induction its as [|[b it] its IH]; intros opened off x Hl Hx; cbn [paren_offsets left_open length] in *.
  { destruct opened; cbn; [|done]. specialize (Hx eq_refl). split; [lia|done]. }
  assert ((off + S (length its))%nat = (S off + length its)%nat) as -> by lia.
  destruct b.
  - rewrite xorb_true_r. destruct opened; cbn [negb app fmap list_fmap].
    + split; [specialize (Hx eq_refl); lia|]. apply (IH false (S off) 0%nat); [lia|done].
    + apply (IH true (S off) (p + off)%nat); [lia|lia].
  - rewrite xorb_false_r. apply IH; [lia|]. intros Ho. specialize (Hx Ho). lia.
Qed.

Lemma alt_parens_even a p :
  alt_ok a = true → (p + length (al_items a) ≤ length s)%nat → positions_even (Nat.add p <$> alt_parens a).
Proof.
  intros Ha Hp. pose proof (paren_offsets_even p (al_items a) false 0 0) as He. cbn [app] in He.
  unfold alt_ok in Ha. apply andb_true_iff in Ha as [_ Ho%eqb_prop]. rewrite Ho in He. apply He; [lia|done].
Qed.

Lemma occurs_le a p : alt_ok a = true → occurs sg flags a s p = true → (p + length (al_items a) ≤ length s)%nat.
Proof.
  intros Ha Hp%occurs_found; [|done]. destruct (alt_ok_items flags a Ha) as (_ & _ & Hne).
  apply found_le in Hp; [|done]. unfold compile_items in Hp. by rewrite length_fmap in Hp.
Qed.

Lemma first_occurrence_occurs a p : first_occurrence sg flags a s = Some p → occurs sg flags a s p = true.
Proof.
  unfold first_occurrence. intros ([i p'] & (Hi & Ho & _)%list_find_Some & ->)%fmap_Some.
  by apply lookup_seq in Hi as [-> _].
Qed.

(** The engine on one alternative. *)
Lemma engine_source a closure ps :
  alt_ok a = true → closure = None ∨ closure = Some (alt_closure (alt_compiled flags a)) →
  (closure ≠ None → (nprts (alt_compiled flags a) < length ps)%nat) →
  ∃ ps', _OS_Regex sg (alt_text (alt_compiled flags a) ++ [NUL]) (s ++ [NUL]) closure
      (alt_flags (alt_compiled flags a)) ps =
    Ret (occurrence_end ∘ pair a <$> first_occurrence sg flags a s, ps') ∧
    ∀ p, first_occurrence sg flags a s = Some p → closure ≠ None →
      at_positions (compile_items flags (al_items a)) (al_tail a) p ps'.
Proof.
  intros Ha Hc Hl. destruct (alt_ok_items flags a Ha) as (_ & Hok & Hne).
  assert (alt_text (alt_compiled flags a) = pattern_text (compile_items flags (al_items a)) (al_tail a)) as Ht
    by (unfold alt_text; by rewrite alt_compiled_parse).
  unfold nprts, alt_closure in *. rewrite Ht in *.
  destruct (fixed_engine sg _ (al_tail a) (alt_flags (alt_compiled flags a)) s [] closure Hok Hne Hs Hc ps Hl)
    as (r & ps' & E & Hr). exists ps'. rewrite E.
  by destruct (engine_first sg flags a s r ps' closure Ha Hr) as [-> ?].
Qed.

Lemma execute_plain_source fuel reg sub raw alts i :
  Forall (λ a, alt_ok a = true) alts →
  or_patterns reg = or_patterns (compiled_regex sub raw (alt_compiled flags <$> alts)) →
  or_flags reg = or_flags (compiled_regex sub raw (alt_compiled flags <$> alts)) →
  (i ≤ length alts)%nat → (length alts < i + fuel)%nat →
  execute_plain sg fuel (s ++ [NUL]) reg i = Ret (occurrence_end <$> search sg flags (drop i alts) s).
Proof.
  intros Hok Hpat Hfl. revert i. induction fuel as [|fuel IH]; intros i Hi Hf; [lia|]. cbn [execute_plain].
  rewrite Hpat, Hfl. cbn [compiled_regex or_patterns or_flags].
  destruct (alts !! i) as [a|] eqn:Ha.
  - assert ((alt_compiled flags <$> alts) !! i = Some (alt_compiled flags a)) as Hc by (by rewrite list_lookup_fmap, Ha).
    rewrite (c_read_alt (λ a, Some (alt_text a ++ [NUL])) _ _ _ _ Hc), (c_read_alt alt_flags _ _ _ _ Hc).
    cbn [mbind outcome_bind]. assert (alt_ok a = true) as Hoka by (by apply (proj1 (Forall_lookup _ _) Hok i)).
    destruct (engine_source a None [] Hoka) as (ps & -> & _); [by left|done|]. cbn [mbind outcome_bind].
    rewrite (drop_S _ _ _ Ha). cbn [search]. destruct (first_occurrence sg flags a s) as [p|]; [done|].
    cbn [fmap option_fmap option_map]. apply IH; [apply lookup_lt_Some in Ha; lia|lia].
  - apply lookup_ge_None_1 in Ha. assert (i = length (alt_compiled flags <$> alts)) as -> by (rewrite length_fmap; lia).
    rewrite (c_read_alts_end (λ a, Some (alt_text a ++ [NUL]))). cbn [mbind outcome_bind].
    by rewrite drop_ge by (by rewrite length_fmap).
Qed.

Lemma positions_split pos (ps : list (option Z)) :
  (∀ k o, pos !! k = Some o → ps !! k = Some (Some (Z.of_nat o))) → ps !! length pos = Some None →
  ∃ rest, ps = (Some ∘ Z.of_nat <$> pos) ++ None :: rest.
Proof.
  revert ps. induction pos as [|o pos IH]; intros ps Hpos Hend.
  - destruct ps as [|x ps]; [done|]. cbn in Hend. simplify_eq. by exists ps.
  - pose proof (Hpos 0%nat o eq_refl) as H0. destruct ps as [|x ps]; [done|]. cbn in H0. simplify_eq.
    destruct (IH ps) as (rest & ->); [intros k o'; apply (Hpos (S k))|done|]. by exists rest.
Qed.

(** What is copied out of an occurrence. *)
Lemma copy_captures a p ps subs :
  alt_ok a = true → occurs sg flags a s p = true →
  at_positions (compile_items flags (al_items a)) (al_tail a) p ps →
  positions_ok (alt_compiled flags a) s ps → (nprts (alt_compiled flags a) ≤ length subs)%nat →
  ∃ more, copy_sub_strings malloc_ok (length ps) (s ++ [NUL]) ps 0 0 (None :: subs) =
    Ret (true, (Some <$> captures s (a, p)) ++ None :: more) ∧
    length ((Some <$> captures s (a, p)) ++ None :: more) = length (None :: subs).
Proof.
  intros Ha Hp Hat [Hlt Hpos] Hsubs. rewrite nprts_parens in Hlt, Hpos, Hsubs by done.
  destruct (positions_split (Nat.add p <$> alt_parens a) ps) as (rest & E).
  { intros k o. rewrite list_lookup_fmap. intros (o' & Ho & ->)%fmap_Some. by apply (at_positions_parens flags a). }
  { rewrite length_fmap. destruct (lookup_lt_is_Some_2 ps (length (alt_parens a)) Hlt) as [[v|] Hv]; [|done].
    apply Hpos in Hv. lia. }
  pose proof (copy_groups (length ps) [] (Nat.add p <$> alt_parens a) rest [] subs) as Hcopy.
  cbn [app length] in Hcopy. rewrite <-E in Hcopy.
  destruct Hcopy as (more & Hrun & Hl); [..|exists more; split; [done|]].
  - apply alt_parens_even; [done|]. by apply occurs_le.
  - by rewrite length_fmap.
  - by rewrite length_fmap.
  - unfold captures. rewrite length_app, length_fmap. cbn [length fst snd]. lia.
Qed.

Lemma execute_closures_source fuel reg raw alts i m :
  Forall (λ a, alt_ok a = true) alts → usable (alt_compiled flags <$> alts) m →
  (∃ more, rm_sub_strings m = Some (None :: more)) →
  or_patterns reg = or_patterns (compiled_regex true raw (alt_compiled flags <$> alts)) →
  or_flags reg = or_flags (compiled_regex true raw (alt_compiled flags <$> alts)) →
  (i ≤ length alts)%nat → (length alts < i + fuel)%nat →
  ∃ m', execute_closures sg malloc_ok fuel (s ++ [NUL]) reg
      (((λ a, Some (alt_closure a)) <$> (alt_compiled flags <$> alts)) ++ [None]) i m =
    Ret (occurrence_end <$> search sg flags (drop i alts) s, m') ∧
    (m' = m ∨ same_shape m m') ∧
    ∀ x, search sg flags (drop i alts) s = Some x →
      ∃ more, rm_sub_strings m' = Some ((Some <$> captures s x) ++ None :: more).
Proof.
  intros Hok Hu Hsub Hpat Hfl. revert i m Hu Hsub.
  induction fuel as [|fuel IH]; intros i m Hu (more & Hsub) Hi Hf; [lia|]. cbn [execute_closures].
  rewrite Hpat, Hfl. cbn [compiled_regex or_patterns or_flags].
  destruct (alts !! i) as [a|] eqn:Ha.
  - assert ((alt_compiled flags <$> alts) !! i = Some (alt_compiled flags a)) as Hc by (by rewrite list_lookup_fmap, Ha).
    assert (alt_ok a = true) as Hoka by (by apply (proj1 (Forall_lookup _ _) Hok i)).
    rewrite (c_read_alt (λ a, Some (alt_text a ++ [NUL])) _ _ _ _ Hc). cbn [mbind outcome_bind].
    pose proof Hu as (subs & all & have & Em & Hmax & Hn & Hall). rewrite Em in Hsub. cbn in Hsub. simplify_eq Hsub. intros ->.
    rewrite Em. cbn [rm_prts_str c_deref mbind outcome_bind rm_size prts_str_size].
    destruct (Hall i _ Hc) as (ps & Hps & Hh & Hlt). rewrite (c_read_Some _ _ _ Hps), (c_read_Some _ _ _ Hh).
    cbn [c_deref mbind outcome_bind]. rewrite cells_of_bytes, c_store_ok by (rewrite length_replicate; lia).
    cbn [mbind outcome_bind]. rewrite (c_read_alt (λ a, Some (alt_closure a)) _ _ _ _ Hc), (c_read_alt alt_flags _ _ _ _ Hc).
    cbn [mbind outcome_bind].
    assert (splice ps 0 (replicate (length ps) None) = replicate (length ps) None) as ->.
    { unfold splice. cbn [take app Nat.add]. rewrite length_replicate, drop_all. by rewrite app_nil_r. }
    destruct (engine_source a (Some (alt_closure (alt_compiled flags a))) (replicate (length ps) None) Hoka)
      as (ps' & E & Hat); [by right|by rewrite length_replicate|].
    destruct (engine_closure sg (alt_compiled flags a) s (alt_flags (alt_compiled flags a)) (length ps)
      (alt_compiled_wfp flags a Hoka) Hs Hlt) as (r & ps2 & E2 & _ & Hl' & Hpos).
    rewrite E in E2 |- *. simplify_eq E2. intros <- <-. cbn [mbind outcome_bind rm_sub_strings rm_prts_str].
    rewrite (drop_S _ _ _ Ha). cbn [search]. destruct (first_occurrence sg flags a s) as [p|] eqn:Ep; cbn [fmap option_fmap option_map].
    + destruct (copy_captures a p ps' more) as (more' & -> & Hl2); [done|by apply first_occurrence_occurs|by apply Hat|done| |].
      { pose proof (max_prts_le _ i _ Hc). cbn [length] in Hmax. lia. }
      cbn [mbind outcome_bind]. eexists. split; [done|]. split; [|intros x [= <-]; by exists more'].
      right. apply (same_shape_cell i ps ps'); [done|done|done|]. apply elem_of_app. right. apply list_elem_of_here.
    + match goal with |- context [execute_closures _ _ _ _ _ _ _ ?m1] => set (m' := m1) end.
      assert (same_shape m m') as Hsh by (rewrite Em; by apply (same_shape_cell i ps ps')).
      rewrite <-Em. destruct (IH (S i) m') as (m2 & E3 & Hm2 & Hx);
        [by eapply usable_shape|by exists more|apply lookup_lt_Some in Ha; lia|lia|].
      exists m2. split; [done|]. split; [|done]. right. destruct Hm2 as [->|]; [done|]. by eapply same_shape_trans.
  - apply lookup_ge_None_1 in Ha. assert (i = length (alt_compiled flags <$> alts)) as -> by (rewrite length_fmap; lia).
    rewrite (c_read_alts_end (λ a, Some (alt_text a ++ [NUL]))). cbn [mbind outcome_bind].
    rewrite drop_ge by (by rewrite length_fmap). exists m. split; [done|]. by split; [left|].
Qed.

Lemma w_FreeArray_head {A} (l l' : list (option A)) : w_FreeArray l = Ret l' → ∃ more, l' = None :: more.
Proof.
  destruct l as [|[x|] l]; cbn [w_FreeArray]; [done| |].
  - destruct (w_FreeArray l); cbn; [|done]. intros [= <-]. by eexists.
  - intros [= <-]. by eexists.
Qed.

Lemma execute_source sub raw alts reg :
  Forall (λ a, alt_ok a = true) alts → reg_ok sub raw (alt_compiled flags <$> alts) reg →
  ∃ reg', OSRegex_Execute sg malloc_ok (Some (s ++ [NUL])) reg =
      Ret (occurrence_end <$> search sg flags alts s, reg') ∧
    reg_ok sub raw (alt_compiled flags <$> alts) reg' ∧
    (sub = true → ∀ x, search sg flags alts s = Some x →
      ∃ more, rm_sub_strings (or_d reg') = Some ((Some <$> captures s x) ++ None :: more)).
Proof.
  intros Hok (Hne & Hw & d & Ereg & Hsz & (l & Hl & Hn) & Hu & Hnone).
  destruct (free_sub_strings_ok d l Hl Hn) as (l' & Hfree & Hlen' & Hn').
  assert (∃ more, l' = None :: more) as (more & El).
  { unfold free_sub_strings in Hfree. rewrite Hl in Hfree. destruct (w_FreeArray l) eqn:E; [|done].
    cbn in Hfree. simplify_eq Hfree. intros ->. by apply (w_FreeArray_head l). }
  set (d1 := mk_matching (Some l') (rm_prts_str d) (rm_size d)) in *.
  assert (sub = true → usable (alt_compiled flags <$> alts) d1) as Hu1.
  { intros Hsub. eapply usable_shape; [by apply Hu|]. destruct (Hu Hsub) as (? & all & ? & Ed & _).
    split; [done|]. split; [by exists l, l'|]. exists all, all.
    assert (rm_prts_str d = Some all) as Ha by (by rewrite Ed). by split_and!. }
  unfold OSRegex_Execute, OSRegex_Execute_ex. rewrite Ereg. cbn [or_d]. rewrite Hfree.
  cbn [mbind outcome_bind or_patterns or_closure].
  assert (length alts < 0 + length (or_patterns (compiled_regex sub raw (alt_compiled flags <$> alts))))%nat as Hf.
  { cbn [compiled_regex or_patterns]. rewrite length_app, !length_fmap. simpl. lia. }
  destruct sub.
  - destruct (execute_closures_source (length (or_patterns (compiled_regex true raw (alt_compiled flags <$> alts))))
      reg raw alts 0 d1 Hok (Hu1 eq_refl)) as (d2 & E & Hd2 & Hx);
      [exists more; by rewrite <-El|by rewrite Ereg|by rewrite Ereg|lia|exact Hf|].
    rewrite <-Ereg. cbn [compiled_regex or_closure] in *. rewrite E. cbn [mbind outcome_bind drop] in *.
    eexists. split; [by rewrite Ereg|]. split; [|done]. split; [done|]. split; [done|].
    exists d2. split; [by rewrite Ereg|]. destruct Hd2 as [->|Hd2].
    + split; [done|]. by split; [by exists l'|].
    + pose proof Hd2 as (E1 & (? & l2 & _ & E2 & _ & Hn2) & _). split; [by rewrite E1|].
      split; [by exists l2|]. split; [intros _; by eapply usable_shape, Hd2; apply Hu1|].
      exact (same_shape_none _ _ Hd2 Hnone).
  - rewrite <-Ereg. cbn [compiled_regex or_closure]. rewrite (execute_plain_source _ reg false raw alts 0 Hok)
      by (rewrite ?Ereg; done || lia). cbn [mbind outcome_bind drop].
    eexists. split; [by rewrite Ereg|]. split; [|done]. split; [done|]. split; [done|].
    exists d1. split; [by rewrite Ereg|]. split; [done|]. by split; [by exists l'|].
Qed.

End run_source.

(** ** Searching *)

(** A compiled pattern is executed on one subject after the other; after each execution the
    strings are read. *)
Fixpoint execute_all (sg : bool) (malloc_ok : Z → bool) (reg : OSRegex) (subjects : list string)
    : outcome (list (option Z * option (list (option (list ascii))))) :=
  match subjects with
  | [] => Ret []
  | str :: subjects =>
      '(r, reg) ← OSRegex_Execute sg malloc_ok (Some (c_str str)) reg;
      out ← execute_all sg malloc_ok reg subjects;
      Ret ((r, rm_sub_strings (or_d reg)) :: out)
  end.

(** The result for one subject: the end of the occurrence found and, when [sub] is set, the
    strings between its parentheses. *)
Definition search_result (sg : bool) (flags : Z) (alts : list alternative) (sub : bool) (str : string)
    (out : option Z * option (list (option (list ascii)))) : Prop :=
  out.1 = occurrence_end <$> search sg flags alts (chars str) ∧
  (sub = true → ∀ x, search sg flags alts (chars str) = Some x →
    ∃ more, out.2 = Some ((Some <$> captures (chars str) x) ++ None :: more)).

Definition subject_ok (str : string) : Prop :=
  has_char NUL str = false ∧ Z.of_nat (String.length str) < 2 ^ 63.

Lemma execute_all_ok sg malloc_ok flags alts sub raw reg subjects :
  (∀ z, 0 < z → malloc_ok z = true) → Forall (λ a, alt_ok a = true) alts → Forall subject_ok subjects →
  reg_ok sub raw (alt_compiled flags <$> alts) reg →
  ∃ out, execute_all sg malloc_ok reg subjects = Ret out ∧
    Forall2 (search_result sg flags alts sub) subjects out.
Proof.
  intros Hm Hok Hsubj. revert reg. induction Hsubj as [|str subjects [Hn Hl] Hsubj IH]; intros reg Hreg.
  { exists []. split; [done|constructor]. }
  cbn [execute_all]. unfold c_str. rewrite <-length_chars in Hl.
  destruct (execute_source sg malloc_ok flags (chars str) Hm (chars_nul _ Hn) Hl sub raw alts reg Hok Hreg)
    as (reg' & -> & Hreg' & Hsub). cbn [mbind outcome_bind]. destruct (IH reg' Hreg') as (out & -> & Hout).
  eexists. split; [done|]. by constructor.
Qed.


(** The pattern [^id (\d\d)|user (\w\w)\p] on three subjects. *)
Definition sample_alts : list alternative :=
  let lits b w := match (ILit <$> w) with [] => [] | x :: l => (b, x) :: (pair false <$> l) end in
  [mk_alt true (lits false ["i"; "d"; " "]%char ++ [(true, IEsc "d"); (false, IEsc "d")]) true false;
   mk_alt false (lits false ["u"; "s"; "e"; "r"; " "]%char ++
     [(true, IEsc "w"); (false, IEsc "w"); (true, IEsc "p")]) false false].

