(* ===== verification/Utf8.v ===== *)
(** * UTF-8 (shared/src/utf8_op.c)

    The checks of the byte patterns accept exactly the encodings of Unicode scalar values,
    and the filter keeps them and drops or replaces every other byte, inside the memory it
    allocates. *)

From Stdlib Require Import Lia ZArith Ascii String.
From stdpp Require Import base numbers list strings.
From S2P Require Import Prelude CString RegexMaps OSMatch.

#[local] Open Scope list_scope.
#[local] Open Scope Z_scope.

(** ** The macros *)

(** A byte as a number. *)
Definition byte (c : ascii) : Z := Z.of_nat (uchar c).

(** [a && b] *)
Definition c_and (a b : outcome bool) : outcome bool := x ← a; if (x : bool) then b else Ret false.

(** [(( x )[i] & mask) == v] *)
Definition masked (x : list ascii) (i : nat) (mask v : Z) : outcome bool :=
  c ← c_read x i; Ret (Z.land (byte c) mask =? v).

(** [( x )[0] != ( char )c || p(( unsigned char )( x )[1])] *)
Definition unless_first (x : list ascii) (c : ascii) (p : Z → bool) : outcome bool :=
  a ← c_read x 0;
  if bool_decide (a ≠ c) then Ret true else b ← c_read x 1; Ret (p (byte b)).

Definition valid_1 (x : list ascii) : outcome bool := masked x 0 128 0.

Definition valid_2 (char_signed : bool) (x : list ascii) : outcome bool :=
  c_and (masked x 0 224 192)
    (c_and (c ← c_read x 0; Ret (char_int char_signed "194" <=? char_int char_signed c))
       (masked x 1 192 128)).

Definition valid_3 (x : list ascii) : outcome bool :=
  c_and (masked x 0 240 224)
    (c_and (masked x 1 192 128)
       (c_and (masked x 2 192 128)
          (c_and (unless_first x "224" (λ b, 160 <=? b))
             (c_and (unless_first x "237" (λ b, b <? 160))
                (unless_first x "239" (λ b, b <=? 191)))))).

Definition valid_4 (x : list ascii) : outcome bool :=
  c_and (masked x 0 248 240)
    (c_and (c ← c_read x 0; Ret (byte c <=? 244))
       (c_and (masked x 1 192 128)
          (c_and (masked x 2 192 128)
             (c_and (masked x 3 192 128)
                (c_and (unless_first x "240" (λ b, 144 <=? b))
                   (unless_first x "244" (λ b, b <=? 143))))))).

(** ** The functions *)

Section utf8.
Context (char_signed : bool) (uninit : nat → ascii).

(** The length of the sequence at [x]: the chain of conditions of both loops. *)
Definition sequence_length (x : list ascii) : outcome (option nat) :=
  v1 ← valid_1 x;
  if (v1 : bool) then Ret (Some 1%nat)
  else
    v2 ← valid_2 char_signed x;
    if (v2 : bool) then Ret (Some 2%nat)
    else
      v3 ← valid_3 x;
      if (v3 : bool) then Ret (Some 3%nat)
      else v4 ← valid_4 x; Ret (if (v4 : bool) then Some 4%nat else None).

(** The pointer returned is an offset in [string]. *)
Fixpoint utf8_drop_from (fuel : nat) (string : list ascii) (i : nat) : outcome nat :=
  match fuel with
  | O => Stuck OutOfFuel
  | S fuel =>
      x ← c_at string i;
      c ← c_read x 0;
      if bool_decide (c = NUL) then Ret i
      else
        n ← sequence_length x;
        match n with
        | Some n => utf8_drop_from fuel string (i + n)
        | None => Ret i
        end
  end.

Definition w_utf8_drop (string : list ascii) : outcome nat :=
  utf8_drop_from (length string) string 0.

Definition w_utf8_valid (string : list ascii) : outcome bool :=
  i ← w_utf8_drop string; c ← c_read string i; Ret (bool_decide (c = NUL)).

Definition REPLACEMENT_INC : nat := 4096.

(** [copy[i++] = *valid++], [n] times. *)
Fixpoint copy_bytes (n : nat) (copy string : list ascii) (i valid : nat)
    : outcome (list ascii * nat * nat) :=
  match n with
  | O => Ret (copy, i, valid)
  | S n =>
      c ← c_read string valid;
      copy ← c_write copy i c;
      copy_bytes n copy string (S i) (S valid)
  end.

(** The else branch of the loop with [replacement]: the block, its size and what remains of
    its growth. *)
Definition put_replacement (copy : list ascii) (i size repl : nat)
    : outcome (list ascii * nat * nat * nat) :=
  let '(copy, size, repl) :=
    if (repl <? 3)%nat then
      (c_realloc uninit copy (size + REPLACEMENT_INC), size + REPLACEMENT_INC, repl + REPLACEMENT_INC)%nat
    else (copy, size, repl) in
  copy ← c_write copy i "239"%char;
  copy ← c_write copy (i + 1) "191"%char;
  copy ← c_write copy (i + 2) "189"%char;
  Ret (copy, i + 3, size, repl - 3)%nat.

Fixpoint utf8_filter_from (fuel : nat) (replacement : bool) (string copy : list ascii)
    (valid i size repl : nat) : outcome (list ascii) :=
  match fuel with
  | O => Stuck OutOfFuel
  | S fuel =>
      x ← c_at string valid;
      c ← c_read x 0;
      if bool_decide (c = NUL) then c_write copy i NUL
      else
        n ← sequence_length x;
        match n with
        | Some n =>
            '(copy, i, valid) ← copy_bytes n copy string i valid;
            utf8_filter_from fuel replacement string copy valid i size repl
        | None =>
            '(copy, i, size, repl) ←
              (if replacement then put_replacement copy i size repl else Ret (copy, i, size, repl));
            utf8_filter_from fuel replacement string copy (S valid) i size repl
        end
  end.

Definition w_utf8_filter (string : list ascii) (replacement : bool) : outcome (list ascii) :=
  valid ← w_utf8_drop string;
  c ← c_read string valid;
  if bool_decide (c = NUL) then c_strdup string
  else
    len ← c_strlen string;
    let size := (len + 1)%nat in
    let copy := uninit <$> seq 0 size in
    copy ← c_store copy 0 (take valid string);
    utf8_filter_from (length string) replacement string copy valid valid size 0.

End utf8.

(** ** Sequences of bytes *)

Definition between (lo hi : Z) (c : ascii) : bool := (lo <=? byte c) && (byte c <=? hi).

(** A continuation byte. *)
Definition cont (c : ascii) : bool := between 128 191 c.

(** The length of the well-formed sequence at the start of a text. *)
Definition seq_len (s : list ascii) : option nat :=
  match s with
  | [] => None
  | a :: s =>
      if byte a <? 128 then Some 1%nat
      else if between 194 223 a then
        match s with b :: _ => if cont b then Some 2%nat else None | _ => None end
      else if between 224 239 a then
        match s with
        | b :: c :: _ =>
            if cont b && cont c && implb (byte a =? 224) (160 <=? byte b) &&
               implb (byte a =? 237) (byte b <? 160)
            then Some 3%nat else None
        | _ => None
        end
      else if between 240 244 a then
        match s with
        | b :: c :: d :: _ =>
            if cont b && cont c && cont d && implb (byte a =? 240) (144 <=? byte b) &&
               implb (byte a =? 244) (byte b <=? 143)
            then Some 4%nat else None
        | _ => None
        end
      else None
  end.

(** The masks are comparisons. *)
Lemma masks c :
  (Z.land (byte c) 128 =? 0) = (byte c <? 128) ∧
  (Z.land (byte c) 224 =? 192) = between 192 223 c ∧
  (Z.land (byte c) 240 =? 224) = between 224 239 c ∧
  (Z.land (byte c) 248 =? 240) = between 240 247 c ∧
  (Z.land (byte c) 192 =? 128) = cont c.
Proof.
  revert c. apply (forall_ascii (λ c, _ = _ ∧ _ = _ ∧ _ = _ ∧ _ = _ ∧ _ = _)). vm_compute. reflexivity.
Qed.

Lemma second_half sg c :
  between 192 223 c = true → (char_int sg "194" <=? char_int sg c) = (194 <=? byte c).
Proof.
  destruct sg; revert c;
    [apply (forall_ascii (λ c, between 192 223 c = true → (char_int true "194" <=? char_int true c) = (194 <=? byte c)))
    |apply (forall_ascii (λ c, between 192 223 c = true → (char_int false "194" <=? char_int false c) = (194 <=? byte c)))];
    vm_compute; reflexivity.
Qed.

Lemma byte_eq c k : bool_decide (c ≠ k) = negb (byte c =? byte k).
Proof.
  destruct (decide (c = k)) as [->|H].
  - rewrite bool_decide_eq_false_2, Z.eqb_refl by (by intros ?). done.
  - rewrite bool_decide_eq_true_2, (proj2 (Z.eqb_neq _ _)); [done|..|done].
    unfold byte. by intros E%Nat2Z.inj%uchar_inj.
Qed.

Lemma byte_range c : 0 ≤ byte c < 256.
Proof. unfold byte, uchar. pose proof (nat_ascii_bounded c). lia. Qed.

Lemma masked_at x i mask v c : x !! i = Some c → masked x i mask v = Ret (Z.land (byte c) mask =? v).
Proof. intros Hi. unfold masked. by rewrite (c_read_Some _ _ _ Hi). Qed.

(** What each macro tests, on a text that a NUL follows. *)
Lemma c_and_Ret a b : c_and (Ret a) (Ret b) = Ret (a && b).
Proof. by destruct a. Qed.

Lemma unless_at a b x c p :
  unless_first (a :: b :: x) c p = Ret (implb (byte a =? byte c) (p (byte b))).
Proof. unfold unless_first. cbn. rewrite byte_eq. by destruct (byte a =? byte c). Qed.

Section spec.
Context (sg : bool) (s r : list ascii).

Lemma valid_1_spec a : valid_1 (a :: s ++ NUL :: r) = Ret (byte a <? 128).
Proof. unfold valid_1. rewrite (masked_at _ 0 _ _ a) by done. by destruct (masks a) as (-> & _). Qed.

Lemma valid_2_spec a :
  valid_2 sg (a :: s ++ NUL :: r) =
    Ret (between 194 223 a && match s with b :: _ => cont b | _ => false end).
Proof.
  unfold valid_2. rewrite (masked_at _ 0 _ _ a) by done. destruct (masks a) as (_ & -> & _).
  cbn [c_read lookup list_lookup mbind outcome_bind].
  assert (∃ b, (s ++ NUL :: r) !! 0%nat = Some b ∧ cont b = match s with b :: _ => cont b | _ => false end)
    as (b & Hb & <-) by (destruct s as [|b s']; eexists; done).
  rewrite (masked_at _ 1 _ _ b) by done. destruct (masks b) as (_ & _ & _ & _ & ->). rewrite !c_and_Ret.
  destruct (between 192 223 a) eqn:E.
  - rewrite second_half by done. f_equal. unfold between in *. apply andb_true_iff in E as [_ ->]. by rewrite andb_true_r.
  - f_equal. symmetry. apply andb_false_iff. left. unfold between in *.
    apply andb_false_iff in E as [E|E]; [|by rewrite E, andb_false_r]. apply andb_false_iff. left. lia.
Qed.

Lemma valid_3_spec a :
  valid_3 (a :: s ++ NUL :: r) =
    Ret (between 224 239 a &&
      match s with
      | b :: c :: _ => cont b && cont c && implb (byte a =? 224) (160 <=? byte b) && implb (byte a =? 237) (byte b <? 160)
      | _ => false
      end).
Proof.
  unfold valid_3. rewrite (masked_at _ 0 _ _ a) by done. destruct (masks a) as (_ & _ & -> & _).
  destruct s as [|b [|c s']]; cbn [app].
  - rewrite (masked_at _ 1 _ _ NUL) by done. by destruct (between 224 239 a).
  - rewrite (masked_at _ 1 _ _ b), (masked_at _ 2 _ _ NUL) by done. destruct (masks b) as (_ & _ & _ & _ & ->).
    by destruct (between 224 239 a), (cont b).
  - rewrite (masked_at _ 1 _ _ b), (masked_at _ 2 _ _ c) by done. destruct (masks b) as (_ & _ & _ & _ & ->).
    destruct (masks c) as (_ & _ & _ & _ & ->). rewrite !unless_at, !c_and_Ret. f_equal.
    change (byte "224") with 224. change (byte "237") with 237. change (byte "239") with 239.
    destruct (cont b) eqn:Eb; [|by rewrite !andb_false_r]. unfold cont, between in Eb.
    assert ((byte b <=? 191) = true) as -> by lia. rewrite implb_true_r, andb_true_r. cbn [andb]. by rewrite <-!andb_assoc.
Qed.

Lemma valid_4_spec a :
  valid_4 (a :: s ++ NUL :: r) =
    Ret (between 240 244 a &&
      match s with
      | b :: c :: d :: _ =>
          cont b && cont c && cont d && implb (byte a =? 240) (144 <=? byte b) && implb (byte a =? 244) (byte b <=? 143)
      | _ => false
      end).
Proof.
  unfold valid_4. rewrite (masked_at _ 0 _ _ a) by done. destruct (masks a) as (_ & _ & _ & -> & _).
  cbn [c_read lookup list_lookup mbind outcome_bind].
  assert (∀ x, c_and (Ret (between 240 247 a)) (c_and (Ret (byte a <=? 244)) x) = c_and (Ret (between 240 244 a)) x) as ->.
  { intros x. unfold between. destruct (240 <=? byte a); [|done]. cbn [andb].
    destruct (Z.leb_spec (byte a) 247), (Z.leb_spec (byte a) 244); try done; lia. }
  destruct s as [|b [|c [|d s']]]; cbn [app].
  - rewrite (masked_at _ 1 _ _ NUL) by done. by destruct (between 240 244 a).
  - rewrite (masked_at _ 1 _ _ b), (masked_at _ 2 _ _ NUL) by done. destruct (masks b) as (_ & _ & _ & _ & ->).
    by destruct (between 240 244 a), (cont b).
  - rewrite (masked_at _ 1 _ _ b), (masked_at _ 2 _ _ c), (masked_at _ 3 _ _ NUL) by done.
    destruct (masks b) as (_ & _ & _ & _ & ->). destruct (masks c) as (_ & _ & _ & _ & ->).
    by destruct (between 240 244 a), (cont b), (cont c).
  - rewrite (masked_at _ 1 _ _ b), (masked_at _ 2 _ _ c), (masked_at _ 3 _ _ d) by done.
    destruct (masks b) as (_ & _ & _ & _ & ->). destruct (masks c) as (_ & _ & _ & _ & ->).
    destruct (masks d) as (_ & _ & _ & _ & ->). rewrite !unless_at, !c_and_Ret. f_equal. by rewrite <-!andb_assoc.
Qed.

Lemma sequence_length_spec a : sequence_length sg (a :: s ++ NUL :: r) = Ret (seq_len (a :: s)).
Proof.
  unfold sequence_length. rewrite valid_1_spec, valid_2_spec, valid_3_spec, valid_4_spec. cbn [mbind outcome_bind seq_len].
  destruct (byte a <? 128); [done|]. unfold between.
  destruct (Z.leb_spec 194 (byte a)), (Z.leb_spec (byte a) 223), (Z.leb_spec 224 (byte a)), (Z.leb_spec (byte a) 239),
    (Z.leb_spec 240 (byte a)), (Z.leb_spec (byte a) 244); try lia; cbn [andb mbind outcome_bind]; try done;
    repeat match goal with |- context [match ?l with [] => _ | _ :: _ => _ end] => is_var l; destruct l end;
    try done; by case_match.
Qed.

End spec.

(** ** Unicode *)

(** The scalar values: the code points that are no surrogates. *)
Definition scalar (cp : Z) : Prop := 0 ≤ cp < 55296 ∨ 57344 ≤ cp ≤ 1114111.

Definition chr (z : Z) : ascii := ascii_of_nat (Z.to_nat z).

(** The encoding of RFC 3629. *)
Definition utf8_encode (cp : Z) : list ascii :=
  if cp <? 128 then [chr cp]
  else if cp <? 2048 then [chr (192 + cp / 64); chr (128 + cp mod 64)]
  else if cp <? 65536 then
    [chr (224 + cp / 4096); chr (128 + cp / 64 mod 64); chr (128 + cp mod 64)]
  else
    [chr (240 + cp / 262144); chr (128 + cp / 4096 mod 64); chr (128 + cp / 64 mod 64);
     chr (128 + cp mod 64)].

(** A text is well formed if it is the encoding of some scalar values. *)
Definition wellformed (s : list ascii) : Prop :=
  ∃ cps, Forall scalar cps ∧ s = mjoin (utf8_encode <$> cps).

Lemma byte_chr z : 0 ≤ z < 256 → byte (chr z) = z.
Proof. intros Hz. unfold byte, chr, uchar. rewrite nat_ascii_embedding; lia. Qed.

Lemma chr_byte c z : byte c = z → chr z = c.
Proof. intros <-. unfold chr, byte, uchar. rewrite Nat2Z.id. apply ascii_nat_embedding. Qed.

Lemma encode_1 a : byte a < 128 → scalar (byte a) ∧ utf8_encode (byte a) = [a].
Proof.
  intros H. pose proof (byte_range a). split; [left; lia|]. unfold utf8_encode.
  rewrite (proj2 (Z.ltb_lt _ _)) by lia. by rewrite (chr_byte a).
Qed.

Lemma encode_2 a b :
  194 ≤ byte a ≤ 223 → 128 ≤ byte b ≤ 191 →
  let cp := (byte a - 192) * 64 + (byte b - 128) in scalar cp ∧ utf8_encode cp = [a; b].
Proof.
  intros Ha Hb cp. subst cp. split; [left; lia|]. unfold utf8_encode.
  rewrite (proj2 (Z.ltb_ge _ _)), (proj2 (Z.ltb_lt _ _)) by lia.
  by rewrite (chr_byte a), (chr_byte b) by (Z.to_euclidean_division_equations; lia).
Qed.

Lemma encode_3 a b c :
  224 ≤ byte a ≤ 239 → 128 ≤ byte b ≤ 191 → 128 ≤ byte c ≤ 191 →
  (byte a = 224 → 160 ≤ byte b) → (byte a = 237 → byte b < 160) →
  let cp := (byte a - 224) * 4096 + (byte b - 128) * 64 + (byte c - 128) in
  scalar cp ∧ utf8_encode cp = [a; b; c].
Proof.
  intros Ha Hb Hc H1 H2 cp. subst cp. split.
  { destruct (decide (byte a < 237)); [left; lia|]. destruct (decide (byte a = 237)); [left|right]; lia. }
  unfold utf8_encode. rewrite (proj2 (Z.ltb_ge _ 128)), (proj2 (Z.ltb_ge _ 2048)), (proj2 (Z.ltb_lt _ _)) by lia.
  by rewrite (chr_byte a), (chr_byte b), (chr_byte c) by (Z.to_euclidean_division_equations; lia).
Qed.

Lemma encode_4 a b c d :
  240 ≤ byte a ≤ 244 → 128 ≤ byte b ≤ 191 → 128 ≤ byte c ≤ 191 → 128 ≤ byte d ≤ 191 →
  (byte a = 240 → 144 ≤ byte b) → (byte a = 244 → byte b ≤ 143) →
  let cp := (byte a - 240) * 262144 + (byte b - 128) * 4096 + (byte c - 128) * 64 + (byte d - 128) in
  scalar cp ∧ utf8_encode cp = [a; b; c; d].
Proof.
  intros Ha Hb Hc Hd H1 H2 cp. subst cp. split; [right; lia|]. unfold utf8_encode.
  rewrite (proj2 (Z.ltb_ge _ 128)), (proj2 (Z.ltb_ge _ 2048)), (proj2 (Z.ltb_ge _ 65536)) by lia.
  by rewrite (chr_byte a), (chr_byte b), (chr_byte c), (chr_byte d) by (Z.to_euclidean_division_equations; lia).
Qed.

(** The sequence at the start of a text is an encoding, and every encoding is found. *)
Lemma seq_len_decodes s k :
  seq_len s = Some k → ∃ cp, scalar cp ∧ utf8_encode cp = take k s.
Proof.
  destruct s as [|a s]; [done|]. cbn [seq_len].
  destruct (Z.ltb_spec (byte a) 128) as [H1|H1].
  { intros [= <-]. exists (byte a). by apply encode_1. }
  destruct (between 194 223 a) eqn:E2; unfold between in E2.
  { destruct s as [|b s]; [done|]. destruct (cont b) eqn:Eb; [|done]. intros [= <-].
    unfold cont, between in Eb. eexists. apply (encode_2 a b); lia. }
  destruct (between 224 239 a) eqn:E3; unfold between in E3.
  { destruct s as [|b [|c s]]; [done..|]. destruct (cont b && _ && _ && _) eqn:Eb; [|done]. intros [= <-].
    unfold cont, between in Eb. rewrite !andb_true_iff, !implb_true_iff in Eb. eexists. apply (encode_3 a b c); lia. }
  destruct (between 240 244 a) eqn:E4; [|done]. unfold between in E4.
  destruct s as [|b [|c [|d s]]]; [done..|]. destruct (cont b && _ && _ && _ && _) eqn:Eb; [|done]. intros [= <-].
  unfold cont, between in Eb. rewrite !andb_true_iff, !implb_true_iff in Eb. eexists. apply (encode_4 a b c d); lia.
Qed.

Lemma between_chr lo hi z : 0 ≤ z < 256 → between lo hi (chr z) = (lo <=? z) && (z <=? hi).
Proof. intros Hz. unfold between. by rewrite byte_chr. Qed.

Lemma seq_len_encode cp s :
  scalar cp → seq_len (utf8_encode cp ++ s) = Some (length (utf8_encode cp)).
Proof.
  intros Hcp. unfold utf8_encode. assert (0 ≤ cp ≤ 1114111) as R by (destruct Hcp; lia).
  assert (∀ z, cont (chr (128 + z mod 64)) = true) as Hcont.
  { intros z. unfold cont. rewrite between_chr; Z.to_euclidean_division_equations; lia. }
  destruct (Z.ltb_spec cp 128); [|destruct (Z.ltb_spec cp 2048); [|destruct (Z.ltb_spec cp 65536)]];
    cbn [app seq_len length]; rewrite ?Hcont.
  - rewrite byte_chr by lia. by rewrite (proj2 (Z.ltb_lt _ _)) by lia.
  - assert (194 ≤ 192 + cp / 64 ≤ 223) by (Z.to_euclidean_division_equations; lia).
    rewrite byte_chr, (proj2 (Z.ltb_ge _ _)), between_chr by lia.
    by rewrite (proj2 (Z.leb_le _ _)), (proj2 (Z.leb_le _ _)) by lia.
  - set (q := cp / 4096). set (m := cp / 64 mod 64).
    assert (0 ≤ q ≤ 15 ∧ 0 ≤ m < 64 ∧ (q = 0 → 32 ≤ m) ∧ (q = 13 → m < 32)) as (Hq & Hm & Hlow & Hsur).
    { unfold scalar in Hcp. subst q m. Z.to_euclidean_division_equations; lia. }
    rewrite !byte_chr, (proj2 (Z.ltb_ge _ _)), !between_chr by lia.
    rewrite (proj2 (Z.leb_gt (224 + q) 223)), andb_false_r by lia.
    rewrite (proj2 (Z.leb_le 224 _)), (proj2 (Z.leb_le _ 239)) by lia. cbn [andb].
    destruct (Z.eqb_spec (224 + q) 224), (Z.eqb_spec (224 + q) 237); cbn [implb andb]; try lia.
    + by rewrite (proj2 (Z.leb_le _ _)) by lia.
    + by rewrite (proj2 (Z.ltb_lt _ _)) by lia.
    + done.
  - set (q := cp / 262144). set (m := cp / 4096 mod 64).
    assert (0 ≤ q ≤ 4 ∧ 0 ≤ m < 64 ∧ (q = 0 → 16 ≤ m) ∧ (q = 4 → m ≤ 15)) as (Hq & Hm & Hlow & Hhigh).
    { subst q m. Z.to_euclidean_division_equations; lia. }
    rewrite !byte_chr, (proj2 (Z.ltb_ge _ _)), !between_chr by lia.
    rewrite (proj2 (Z.leb_gt (240 + q) 223)), (proj2 (Z.leb_gt (240 + q) 239)), !andb_false_r by lia.
    rewrite (proj2 (Z.leb_le 240 _)), (proj2 (Z.leb_le _ 244)) by lia. cbn [andb].
    destruct (Z.eqb_spec (240 + q) 240), (Z.eqb_spec (240 + q) 244); cbn [implb andb]; try lia.
    + by rewrite (proj2 (Z.leb_le _ _)) by lia.
    + by rewrite (proj2 (Z.leb_le _ _)) by lia.
    + done.
Qed.

Lemma length_encode cp : scalar cp → (1 ≤ length (utf8_encode cp))%nat.
Proof. intros _. unfold utf8_encode. repeat case_match; simpl; lia. Qed.

(** A text is well formed if it is empty, or starts with a sequence that a well-formed text
    follows. *)
Lemma wellformed_nil : wellformed [].
Proof. by exists []. Qed.

Lemma wellformed_app cp s : scalar cp → wellformed s → wellformed (utf8_encode cp ++ s).
Proof. intros Hcp (cps & Hs & ->). exists (cp :: cps). by split; [constructor|]. Qed.

Lemma wellformed_inv s :
  s ≠ [] → wellformed s → ∃ cp t, scalar cp ∧ s = utf8_encode cp ++ t ∧ wellformed t.
Proof.
  intros Hne (cps & Hs & ->). destruct Hs as [|cp cps Hcp Hs]; [done|].
  exists cp, (mjoin (utf8_encode <$> cps)). split; [done|]. split; [done|]. by exists cps.
Qed.

Lemma seq_len_split s k :
  seq_len s = Some k → ∃ cp t, scalar cp ∧ s = utf8_encode cp ++ t ∧ k = length (utf8_encode cp).
Proof.
  intros Hk. destruct (seq_len_decodes s k Hk) as (cp & Hcp & E). exists cp, (drop k s).
  assert (s = utf8_encode cp ++ drop k s) as Es by (by rewrite E, take_drop). split; [done|]. split; [done|].
  pose proof (seq_len_encode cp (drop k s) Hcp) as Hl. rewrite <-Es in Hl. congruence.
Qed.

Lemma encode_inj_app cp t cp' t' :
  scalar cp → scalar cp' → utf8_encode cp ++ t = utf8_encode cp' ++ t' → t = t'.
Proof.
  intros H H' E. pose proof (seq_len_encode cp t H) as Hl. rewrite E, (seq_len_encode cp' t' H') in Hl.
  simplify_eq Hl. intros Hlen. by apply app_inj_1 in E as [_ ?].
Qed.

Lemma wellformed_app_inv s t : wellformed s → wellformed (s ++ t) → wellformed t.
Proof.
  intros (cps & Hs & ->). induction Hs as [|cp cps Hcp Hs IH]; [done|]. intros Hw.
  change (mjoin (utf8_encode <$> cp :: cps)) with (utf8_encode cp ++ mjoin (utf8_encode <$> cps)) in Hw.
  rewrite <-app_assoc in Hw. apply IH. apply wellformed_inv in Hw as (cp' & t' & Hcp' & E & Hw).
  - by rewrite (encode_inj_app _ _ _ _ Hcp Hcp' E).
  - pose proof (length_encode cp Hcp). destruct (utf8_encode cp); [simpl in *; lia|done].
Qed.

Lemma not_wellformed s : s ≠ [] → seq_len s = None → ¬ wellformed s.
Proof.
  intros Hne Hn (cp & t & Hcp & -> & _)%wellformed_inv; [|done]. by rewrite seq_len_encode in Hn.
Qed.

(** ** The functions *)

(** What the filter makes of a text: encodings are kept, any other byte is left out or
    replaced. *)
Inductive filters (replacement : bool) : list ascii → list ascii → Prop :=
  | filters_nil : filters replacement [] []
  | filters_keep cp s t :
      scalar cp → filters replacement s t →
      filters replacement (utf8_encode cp ++ s) (utf8_encode cp ++ t)
  | filters_bad c s t :
      (∀ cp u, scalar cp → c :: s ≠ utf8_encode cp ++ u) → filters replacement s t →
      filters replacement (c :: s) ((if replacement then utf8_encode 65533 else []) ++ t).

Lemma filters_wellformed rp s t : filters rp s t → wellformed t.
Proof.
  induction 1; [apply wellformed_nil|by apply wellformed_app|].
  destruct rp; [|done]. apply wellformed_app; [right; lia|done].
Qed.

Lemma filters_app_good rp s t u : wellformed s → filters rp t u → filters rp (s ++ t) (s ++ u).
Proof.
  intros (cps & Hs & ->) Hf. induction Hs as [|cp cps Hcp Hs IH]; [done|].
  change (mjoin (utf8_encode <$> cp :: cps)) with (utf8_encode cp ++ mjoin (utf8_encode <$> cps)).
  rewrite <-!app_assoc. by constructor.
Qed.

(** A well-formed text is not changed. *)
Lemma filters_same rp s t : filters rp s t → wellformed s → t = s.
Proof.
  induction 1 as [|cp s t Hcp Hf IH|c s t Hn Hf IH]; intros Hw; [done| |].
  - f_equal. apply IH. apply (wellformed_app_inv (utf8_encode cp)); [|done].
    rewrite <-(app_nil_r (utf8_encode cp)). by apply wellformed_app; [|apply wellformed_nil].
  - apply wellformed_inv in Hw as (cp & u & Hcp & E & _); [|done]. by destruct (Hn cp u).
Qed.

Section run.
Context (sg : bool) (uninit : nat → ascii).

Lemma utf8_drop_from_spec fuel pre s r :
  NUL ∉ s → (length s < fuel)%nat →
  ∃ good bad, s = good ++ bad ∧ wellformed good ∧ (bad = [] ∨ seq_len bad = None) ∧
    utf8_drop_from sg fuel (pre ++ s ++ NUL :: r) (length pre) = Ret (length pre + length good)%nat.
Proof.
  revert pre s. induction fuel as [|fuel IH]; intros pre s Hs Hf; [lia|]. cbn [utf8_drop_from].
  rewrite c_at_app by done. cbn [mbind outcome_bind]. destruct s as [|a s].
  { exists [], []. split; [done|]. split; [apply wellformed_nil|]. split; [by left|]. cbn. by rewrite Nat.add_0_r. }
  pose proof Hs as [Ha _]%not_elem_of_cons. cbn [app c_read lookup list_lookup mbind outcome_bind].
  rewrite bool_decide_eq_false_2 by congruence. rewrite sequence_length_spec. cbn [mbind outcome_bind].
  destruct (seq_len (a :: s)) as [k|] eqn:Ek.
  - destruct (seq_len_split _ _ Ek) as (cp & t & Hcp & E & ->). pose proof (length_encode cp Hcp).
    change (a :: s ++ NUL :: r) with ((a :: s) ++ NUL :: r). rewrite E in Hs, Hf |- *.
    rewrite length_app in Hf. apply not_elem_of_app in Hs as [_ Hs].
    destruct (IH (pre ++ utf8_encode cp) t Hs) as (good & bad & -> & Hw & Hbad & Hrun); [lia|].
    exists (utf8_encode cp ++ good), bad. split; [by rewrite app_assoc|]. split; [by apply wellformed_app|].
    split; [done|]. rewrite length_app, <-!app_assoc in Hrun. rewrite <-!app_assoc, Hrun, length_app. f_equal. lia.
  - exists [], (a :: s). split; [done|]. split; [apply wellformed_nil|]. split; [by right|]. by rewrite Nat.add_0_r.
Qed.

Lemma w_utf8_drop_spec s r :
  NUL ∉ s →
  ∃ good bad, s = good ++ bad ∧ wellformed good ∧ (bad = [] ∨ seq_len bad = None) ∧
    w_utf8_drop sg (s ++ NUL :: r) = Ret (length good) ∧
    c_read (s ++ NUL :: r) (length good) = Ret (default NUL (head bad)).
Proof.
  intros Hs. destruct (utf8_drop_from_spec (length (s ++ NUL :: r)) [] s r Hs)
    as (good & bad & E & Hw & Hbad & Hrun); [rewrite length_app; simpl; lia|].
  exists good, bad. split_and!; try done. rewrite E, <-app_assoc. destruct bad; apply c_read_head.
Qed.

Lemma w_utf8_valid_spec s r :
  NUL ∉ s → ∃ b, w_utf8_valid sg (s ++ NUL :: r) = Ret b ∧ (b = true ↔ wellformed s).
Proof.
  intros Hs. destruct (w_utf8_drop_spec s r Hs) as (good & bad & -> & Hw & Hbad & Hrun & Hread).
  unfold w_utf8_valid. rewrite Hrun. cbn [mbind outcome_bind]. rewrite Hread. cbn [mbind outcome_bind].
  eexists. split; [done|]. destruct bad as [|c bad]; [by rewrite app_nil_r|]. cbn [head default].
  rewrite bool_decide_eq_true. split.
  - intros E. unfold default in E. cbn [from_option id] in E. subst c.
    destruct Hs. apply elem_of_app. right. apply list_elem_of_here.
  - intros Hall%(wellformed_app_inv good _ Hw). destruct Hbad as [?|Hn]; [done|].
    by apply not_wellformed in Hn.
Qed.

(** Writing the next byte of the copy. *)
Lemma write_next (o : list ascii) x junk c :
  c_write (o ++ x :: junk) (length o) c = Ret ((o ++ [c]) ++ junk).
Proof.
  rewrite c_write_lt by (rewrite length_app; simpl; lia). f_equal.
  rewrite insert_app_r_alt, Nat.sub_diag by lia. cbn. by rewrite <-app_assoc.
Qed.

Lemma copy_bytes_spec e pre rest o junk :
  (length e ≤ length junk)%nat →
  copy_bytes (length e) (o ++ junk) (pre ++ e ++ rest) (length o) (length pre) =
    Ret ((o ++ e) ++ drop (length e) junk, length o + length e, length pre + length e)%nat.
Proof.
  revert pre o junk. induction e as [|c e IH]; intros pre o junk Hl; cbn [copy_bytes length].
  { by rewrite app_nil_r, drop_0, !Nat.add_0_r. }
  destruct junk as [|x junk]; [simpl in Hl; lia|]. cbn [app]. rewrite c_read_head. cbn [mbind outcome_bind].
  rewrite write_next. cbn [mbind outcome_bind drop].
  specialize (IH (pre ++ [c]) (o ++ [c]) junk). rewrite !length_app, <-!app_assoc in IH. cbn [app length] in IH.
  rewrite !Nat.add_1_r in IH. rewrite <-!app_assoc. cbn [app]. rewrite IH by (simpl in Hl; lia). by rewrite !Nat.add_succ_comm.
Qed.

Lemma put_replacement_spec o junk repl :
  (repl + 2 ≤ length junk)%nat →
  ∃ junk' repl', put_replacement uninit (o ++ junk) (length o) (length (o ++ junk)) repl =
      Ret ((o ++ utf8_encode 65533) ++ junk', length o + 3, length ((o ++ utf8_encode 65533) ++ junk'), repl')%nat ∧
    (repl' + length junk ≤ repl + length junk')%nat.
Proof.
  intros Hl. unfold put_replacement.
  set (g := if (repl <? 3)%nat then _ else _).
  assert (∃ junk1 repl1, g = (o ++ junk1, length (o ++ junk1), repl1) ∧ (3 ≤ repl1)%nat ∧
    (length junk1 + repl = length junk + repl1)%nat) as (junk1 & repl1 & -> & H3 & Hsize).
  { subst g. destruct (Nat.ltb_spec repl 3).
    - set (fresh := uninit <$> seq (length (o ++ junk)) REPLACEMENT_INC).
      assert (length fresh = REPLACEMENT_INC) as Hfresh by (subst fresh; by rewrite length_fmap, length_seq).
      exists (junk ++ fresh), (repl + REPLACEMENT_INC)%nat. split; [|unfold REPLACEMENT_INC in *; rewrite length_app; lia].
      assert (c_realloc uninit (o ++ junk) (length (o ++ junk) + REPLACEMENT_INC) = o ++ junk ++ fresh) as ->.
      { unfold c_realloc. rewrite take_ge by lia. rewrite (Nat.add_comm (length _)), Nat.add_sub. by rewrite <-app_assoc. }
      by rewrite (app_assoc o), (length_app _ fresh), Hfresh.
    - by exists junk, repl. }
  destruct junk1 as [|x1 [|x2 [|x3 junk']]]; simpl in Hsize; try lia.
  rewrite write_next. cbn [mbind outcome_bind].
  replace (length o + 1)%nat with (length (o ++ ["239"%char])) by (by rewrite length_app).
  rewrite write_next. cbn [mbind outcome_bind].
  replace (length o + 2)%nat with (length ((o ++ ["239"%char]) ++ ["191"%char])) by (rewrite !length_app; simpl; lia).
  rewrite write_next. cbn [mbind outcome_bind]. exists junk', (repl1 - 3)%nat. split; [|lia].
  replace (length (o ++ x1 :: x2 :: x3 :: junk')) with (length ((o ++ utf8_encode 65533) ++ junk'))
    by (rewrite !length_app; simpl; lia). by rewrite <-(app_assoc _ ["191"%char]), <-(app_assoc o).
Qed.

Lemma utf8_filter_from_spec rp fuel pre s r o junk repl :
  NUL ∉ s → (length s < fuel)%nat → (length s + repl < length junk)%nat →
  ∃ t junk', utf8_filter_from sg uninit fuel rp (pre ++ s ++ NUL :: r) (o ++ junk) (length pre) (length o)
      (length (o ++ junk)) repl = Ret ((o ++ t) ++ NUL :: junk') ∧ filters rp s t.
Proof.
  revert pre s o junk repl. induction fuel as [|fuel IH]; intros pre s o junk repl Hs Hf Hj; [lia|].
  cbn [utf8_filter_from]. rewrite c_at_app by done. cbn [mbind outcome_bind]. destruct s as [|a s].
  { destruct junk as [|x junk]; [simpl in Hj; lia|]. cbn [app c_read lookup list_lookup mbind outcome_bind].
    rewrite bool_decide_eq_true_2 by done. rewrite write_next. exists [], junk.
    rewrite app_nil_r, <-app_assoc. split; [done|constructor]. }
  pose proof Hs as [Ha Hs']%not_elem_of_cons. cbn [app c_read lookup list_lookup mbind outcome_bind].
  rewrite bool_decide_eq_false_2 by congruence. rewrite sequence_length_spec. cbn [mbind outcome_bind].
  destruct (seq_len (a :: s)) as [k|] eqn:Ek.
  - destruct (seq_len_split _ _ Ek) as (cp & t & Hcp & E & ->). pose proof (length_encode cp Hcp).
    change (a :: s ++ NUL :: r) with ((a :: s) ++ NUL :: r). rewrite E in Hs, Hf, Hj |- *.
    rewrite length_app in Hf, Hj. apply not_elem_of_app in Hs as [_ Hs]. rewrite <-(app_assoc (utf8_encode cp)).
    rewrite copy_bytes_spec by lia. cbn [mbind outcome_bind].
    destruct (IH (pre ++ utf8_encode cp) t (o ++ utf8_encode cp) (drop (length (utf8_encode cp)) junk) repl Hs)
      as (u & junk' & Hrun & Hu); [lia|rewrite length_drop; lia|].
    exists (utf8_encode cp ++ u), junk'. split; [|by constructor].
    rewrite <-!app_assoc, !length_app, length_drop in Hrun. rewrite <-!app_assoc, !length_app.
    replace (length o + length junk)%nat
      with (length o + (length (utf8_encode cp) + (length junk - length (utf8_encode cp))))%nat by lia. exact Hrun.
  - assert (∀ cp u, scalar cp → a :: s ≠ utf8_encode cp ++ u) as Hbad
      by (intros cp u Hcp E; by rewrite E, seq_len_encode in Ek).
    change (pre ++ a :: s ++ NUL :: r) with (pre ++ [a] ++ s ++ NUL :: r). rewrite (app_assoc pre [a]).
    replace (S (length pre)) with (length (pre ++ [a])) by (rewrite length_app; simpl; lia).
    simpl in Hf, Hj. destruct rp.
    + destruct (put_replacement_spec o junk repl) as (junk1 & repl1 & -> & Hl1); [lia|]. cbn [mbind outcome_bind].
      destruct (IH (pre ++ [a]) s (o ++ utf8_encode 65533) junk1 repl1 Hs') as (u & junk' & Hrun & Hu); [lia|lia|].
      exists (utf8_encode 65533 ++ u), junk'. rewrite (length_app o) in Hrun. rewrite (app_assoc o).
      split; [exact Hrun|by apply filters_bad].
    + cbn [mbind outcome_bind]. destruct (IH (pre ++ [a]) s o junk repl Hs') as (u & junk' & Hrun & Hu); [lia|lia|].
      exists u, junk'. split; [exact Hrun|]. by apply (filters_bad false).
Qed.

Lemma w_utf8_filter_spec rp s r :
  NUL ∉ s → ∃ t junk, w_utf8_filter sg uninit (s ++ NUL :: r) rp = Ret (t ++ NUL :: junk) ∧ filters rp s t.
Proof.
  intros Hs. destruct (w_utf8_drop_spec s r Hs) as (good & bad & E & Hw & Hbad & Hrun & Hread).
  unfold w_utf8_filter. rewrite Hrun. cbn [mbind outcome_bind]. rewrite Hread. cbn [mbind outcome_bind].
  destruct bad as [|c bad].
  - cbn [head]. unfold default. cbn [from_option id]. rewrite bool_decide_eq_true_2 by done.
    rewrite app_nil_r in E. subst s. rewrite c_strdup_spec by done. exists good, []. split; [done|].
    rewrite <-(app_nil_r good). apply filters_app_good; [done|constructor].
  - cbn [head]. unfold default. cbn [from_option id].
    rewrite bool_decide_eq_false_2.
    2: { intros ->. destruct Hs. rewrite E. apply elem_of_app. right. apply list_elem_of_here. }
    rewrite c_strlen_spec by done. cbn [mbind outcome_bind]. set (copy := uninit <$> seq 0 (length s + 1)).
    assert (length copy = length s + 1)%nat as Hcopy by (subst copy; by rewrite length_fmap, length_seq).
    rewrite E, <-app_assoc, take_app_length. rewrite E, length_app in Hcopy. rewrite c_store_ok by lia.
    cbn [mbind outcome_bind]. unfold splice. cbn [take app Nat.add].
    rewrite E in Hs. apply not_elem_of_app in Hs as [_ Hs].
    destruct (utf8_filter_from_spec rp (length (good ++ (c :: bad) ++ NUL :: r)) good (c :: bad) r good
      (drop (length good) copy) 0 Hs) as (t & junk & Hf & Ht); [rewrite !length_app; simpl; lia|rewrite length_drop; lia|].
    exists (good ++ t), junk. split; [|by apply filters_app_good].
    rewrite (length_app good (drop _ _)), length_drop in Hf.
    replace (length good + (length copy - length good))%nat with (length (good ++ c :: bad) + 1)%nat in Hf
      by (rewrite length_app; lia). exact Hf.
Qed.

End run.

(** ** Results *)

(** C23: [w_utf8_valid] returns for every string, without reading past it, and tells whether
    the string is the UTF-8 encoding (RFC 3629) of a sequence of Unicode scalar values: no
    overlong form, no surrogate, nothing above U+10FFFF. *)
Theorem utf8_valid_correct sg s :
  has_char NUL s = false →
  ∃ b, w_utf8_valid sg (c_str s) = Ret b ∧
    (b = true ↔ ∃ cps, Forall scalar cps ∧ chars s = mjoin (utf8_encode <$> cps)).
Proof. intros Hs%chars_nul. by apply (w_utf8_valid_spec sg (chars s) []). Qed.

(** The Euro sign, and an encoded surrogate. *)
Definition euro : string := String "226" (String "130" (String "172" "")).
Definition surrogate : string := String "237" (String "160" (String "128" "")).

Lemma utf8_valid_correct_witness :
  (∃ b, w_utf8_valid true (c_str euro) = Ret b ∧
    (b = true ↔ ∃ cps, Forall scalar cps ∧ chars euro = mjoin (utf8_encode <$> cps))) ∧
  w_utf8_valid true (c_str euro) = Ret true ∧ w_utf8_valid true (c_str surrogate) = Ret false.
Proof. split; [by apply (utf8_valid_correct true euro)|split; vm_compute; reflexivity]. Defined.

(** C24: [w_utf8_filter] writes only inside the block it allocates and enlarges.  The string it
    returns keeps every encoded scalar value and leaves out every other byte, or puts
    U+FFFD in its place; it is always well formed, and it is the string itself if that
    was. *)
Theorem utf8_filter_correct sg uninit replacement s :
  has_char NUL s = false →
  ∃ t junk, w_utf8_filter sg uninit (c_str s) replacement = Ret (t ++ NUL :: junk) ∧
    filters replacement (chars s) t ∧ wellformed t ∧ (wellformed (chars s) → t = chars s).
Proof.
  intros Hs%chars_nul. destruct (w_utf8_filter_spec sg uninit replacement (chars s) [] Hs) as (t & junk & E & Hf).
  exists t, junk. split; [exact E|]. split; [done|]. split; [by eapply filters_wellformed|]. by apply filters_same with replacement.
Qed.

Lemma utf8_filter_correct_witness :
  (∃ t junk, w_utf8_filter true (λ _, "x"%char) (c_str ("a" ++ surrogate)) true = Ret (t ++ NUL :: junk) ∧
    filters true (chars ("a" ++ surrogate)) t ∧ wellformed t ∧
    (wellformed (chars ("a" ++ surrogate)) → t = chars ("a" ++ surrogate))) ∧
  w_utf8_filter true (λ _, "x"%char) (c_str ("a" ++ surrogate)) false =
    Ret (["a"%char; NUL; "x"%char; "x"%char; "x"%char]).
Proof. split; [by apply (utf8_filter_correct true)|vm_compute; reflexivity]. Defined.
