(* ===== verification/Base64.v ===== *)
(** * Base64 (shared/src/b64.c)

    What is encoded is read back, whatever bytes it has, and decoding any string stays
    inside its blocks. *)

From Stdlib Require Import Lia ZArith Ascii String.
From stdpp Require Import base numbers list strings.
From S2P Require Import Prelude CString RegexMaps OSMatch Utf8.

#[local] Open Scope list_scope.
#[local] Open Scope Z_scope.

(** ** The code *)

(** The conversion to [unsigned char]. *)
Definition u8 (z : Z) : Z := Z.land z 255.

(** [encode] and [decode] of one character. *)
Definition encode (u : Z) : ascii :=
  if u <? 26 then chr (65 + u)
  else if u <? 52 then chr (97 + (u - 26))
  else if u <? 62 then chr (48 + (u - 52))
  else if u =? 62 then "+"%char
  else "/"%char.

Definition decode (c : ascii) : Z :=
  if between 65 90 c then byte c - 65
  else if between 97 122 c then byte c - 97 + 26
  else if between 48 57 c then byte c - 48 + 52
  else if bool_decide (c = "+"%char) then 62
  else 63.

Definition is_base64 (c : ascii) : bool :=
  between 65 90 c || between 97 122 c || between 48 57 c || bool_decide (c = "+"%char) ||
  bool_decide (c = "/"%char) || bool_decide (c = "="%char).

Section b64.
Context (malloc_ok : Z → bool).

(** The four characters for the bytes from [i] on. *)
Definition encode_group (size i : Z) (src : list ascii) : outcome (list ascii) :=
  c1 ← c_read src (Z.to_nat i);
  c2 ← (if i + 1 <? size then byte <$> c_read src (Z.to_nat (i + 1)) else Ret 0);
  c3 ← (if i + 2 <? size then byte <$> c_read src (Z.to_nat (i + 2)) else Ret 0);
  let b1 := byte c1 in let b2 := c2 in let b3 := c3 in
  let b4 := Z.shiftr b1 2 in
  let b5 := u8 (Z.lor (Z.shiftl (Z.land b1 3) 4) (Z.shiftr b2 4)) in
  let b6 := u8 (Z.lor (Z.shiftl (Z.land b2 15) 2) (Z.shiftr b3 6)) in
  let b7 := Z.land b3 63 in
  Ret [encode b4; encode b5; if i + 1 <? size then encode b6 else "="%char;
       if i + 2 <? size then encode b7 else "="%char].

Fixpoint encode_loop (fuel : nat) (size i : Z) (src out : list ascii) (p : nat) : outcome (list ascii) :=
  match fuel with
  | O => Stuck OutOfFuel
  | S fuel =>
      if i <? size then
        g ← encode_group size i src;
        out ← c_store out p g;
        encode_loop fuel size (i + 3) src out (p + 4)
      else Ret out
  end.

(** [size * 4 / 3 + 4] is computed with [int], and wraps around. *)
Definition encode_base64 (size : Z) (src : option (list ascii)) : outcome (option (list ascii)) :=
  match src with
  | None => Ret None
  | Some src =>
      size ← (if size =? 0 then wrap_int <$> (Z.of_nat <$> c_strlen src) else Ret size);
      let n := Z.quot (wrap_int (size * 4)) 3 + 4 in
      if (n <? 0) || negb (malloc_ok n) then Ret None
      else
        out ← encode_loop (S (Z.to_nat size)) size 0 src (replicate (Z.to_nat n) NUL) 0;
        Ret (Some out)
  end.

(** The characters that are kept, written to [buf]. *)
Fixpoint keep_base64 (src buf : list ascii) (l : nat) : outcome (list ascii * nat) :=
  match src with
  | [] => Stuck OutOfBounds
  | c :: src =>
      if bool_decide (c = NUL) then Ret (buf, l)
      else if is_base64 c then buf ← c_write buf l c; keep_base64 src buf (S l)
      else keep_base64 src buf l
  end.

(** The bytes of the characters from [k] on. *)
Definition decode_group (buf : list ascii) (k l : nat) : outcome (list ascii) :=
  c1 ← c_read buf k;
  c2 ← (if (k + 1 <? l)%nat then c_read buf (k + 1) else Ret "A"%char);
  c3 ← (if (k + 2 <? l)%nat then c_read buf (k + 2) else Ret "A"%char);
  c4 ← (if (k + 3 <? l)%nat then c_read buf (k + 3) else Ret "A"%char);
  let b1 := decode c1 in let b2 := decode c2 in let b3 := decode c3 in let b4 := decode c4 in
  Ret ([chr (u8 (Z.lor (Z.shiftl b1 2) (Z.shiftr b2 4)))] ++
       (if bool_decide (c3 = "="%char) then []
        else [chr (u8 (Z.lor (Z.shiftl (Z.land b2 15) 4) (Z.shiftr b3 2)))]) ++
       (if bool_decide (c4 = "="%char) then []
        else [chr (u8 (Z.lor (Z.shiftl (Z.land b3 3) 6) b4))])).

Fixpoint decode_loop (fuel : nat) (buf : list ascii) (k l : nat) (dest : list ascii) (p : nat)
    : outcome (list ascii) :=
  match fuel with
  | O => Stuck OutOfFuel
  | S fuel =>
      if (k <? l)%nat then
        g ← decode_group buf k l;
        dest ← c_store dest p g;
        decode_loop fuel buf (k + 4) l dest (p + length g)
      else Ret dest
  end.

Definition decode_base64 (uninit : nat → ascii) (src : option (list ascii)) : outcome (option (list ascii)) :=
  match src with
  | None => Ret None
  | Some src =>
      c ← c_read src 0;
      if bool_decide (c = NUL) then Ret None
      else
        n ← c_strlen src;
        let l := (n + 1)%nat in
        if negb (malloc_ok (Z.of_nat l + 13)) then Ret None
        else if negb (malloc_ok (Z.of_nat l)) then Ret None
        else
          '(buf, l') ← keep_base64 src (uninit <$> seq 0 l) 0;
          dest ← decode_loop (S l') buf 0 l' (replicate (l + 13) NUL) 0;
          Ret (Some dest)
  end.

End b64.

(** ** Groups of three bytes *)

(** The encoded text. *)
Definition e1 (a : ascii) : ascii := encode (Z.shiftr (byte a) 2).
Definition e2 (a : ascii) (b : Z) : ascii := encode (u8 (Z.lor (Z.shiftl (Z.land (byte a) 3) 4) (Z.shiftr b 4))).
Definition e3 (b : ascii) (c : Z) : ascii := encode (u8 (Z.lor (Z.shiftl (Z.land (byte b) 15) 2) (Z.shiftr c 6))).
Definition e4 (c : ascii) : ascii := encode (Z.land (byte c) 63).

Fixpoint b64_text (s : list ascii) : list ascii :=
  match s with
  | [] => []
  | [a] => [e1 a; e2 a 0; "="%char; "="%char]
  | [a; b] => [e1 a; e2 a (byte b); e3 b 0; "="%char]
  | a :: b :: c :: s => [e1 a; e2 a (byte b); e3 b (byte c); e4 c] ++ b64_text s
  end.

Lemma list_ind3 {A} (P : list A → Prop) :
  P [] → (∀ a, P [a]) → (∀ a b, P [a; b]) → (∀ a b c s, P s → P (a :: b :: c :: s)) → ∀ s, P s.
Proof.
  intros H0 H1 H2 H3. fix IH 1. intros [|a [|b [|c s]]]; [done|apply H1|apply H2|]. apply H3, IH.
Qed.

Lemma encode_decode u :
  0 ≤ u < 64 → decode (encode u) = u ∧ encode u ≠ "="%char ∧ encode u ≠ NUL ∧ is_base64 (encode u) = true.
Proof.
  intros Hu. rewrite <-(Z2Nat.id u) by lia. generalize (Z.to_nat u), (proj1 (Z2Nat.inj_lt u 64 ltac:(lia) ltac:(lia)) (proj2 Hu)).
  apply (forall_below (λ n, decode (encode (Z.of_nat n)) = Z.of_nat n ∧ _ ≠ _ ∧ _ ≠ _ ∧ _ = _) 64). vm_compute. reflexivity.
Qed.

(** A property of two characters, checked on all of them. *)
Lemma forall_ascii_below (P : ascii → nat → Prop) `{∀ c n, Decision (P c n)} N :
  bool_decide (Forall (λ c, Forall (P c) (seq 0 N)) (ascii_of_nat <$> seq 0 256)) = true →
  ∀ c n, (n < N)%nat → P c n.
Proof.
  intros Hb c n Hn. pose proof (forall_ascii (λ c, Forall (P c) (seq 0 N)) Hb c) as Hc.
  rewrite Forall_forall in Hc. apply Hc, elem_of_seq. lia.
Qed.

(** The sextets are sextets, and they give the bytes back. *)
Lemma sextet_1 a : 0 ≤ Z.shiftr (byte a) 2 < 64.
Proof.
  revert a. apply (forall_ascii (λ a, 0 ≤ Z.shiftr (byte a) 2 < 64)). vm_compute. reflexivity.
Qed.

Definition sextet_2 (a : ascii) (h : Z) : Z := u8 (Z.lor (Z.shiftl (Z.land (byte a) 3) 4) h).
Definition sextet_3 (b : ascii) (l : Z) : Z := u8 (Z.lor (Z.shiftl (Z.land (byte b) 15) 2) l).

Lemma sextet_2_ok a h :
  0 ≤ h < 16 → 0 ≤ sextet_2 a h < 64 ∧ Z.land (sextet_2 a h) 15 = h ∧
  chr (u8 (Z.lor (Z.shiftl (Z.shiftr (byte a) 2) 2) (Z.shiftr (sextet_2 a h) 4))) = a.
Proof.
  intros Hh. rewrite <-(Z2Nat.id h) by lia. assert (Z.to_nat h < 16)%nat as Hn by lia. revert a Hn.
  generalize (Z.to_nat h). intros n a. revert a n.
  apply (forall_ascii_below (λ a n, 0 ≤ sextet_2 a (Z.of_nat n) < 64 ∧ Z.land (sextet_2 a (Z.of_nat n)) 15 = Z.of_nat n ∧
    chr (u8 (Z.lor (Z.shiftl (Z.shiftr (byte a) 2) 2) (Z.shiftr (sextet_2 a (Z.of_nat n)) 4))) = a)).
  vm_compute. reflexivity.
Qed.

Lemma sextet_3_ok b l :
  0 ≤ l < 4 → 0 ≤ sextet_3 b l < 64 ∧ Z.land (sextet_3 b l) 3 = l ∧
  chr (u8 (Z.lor (Z.shiftl (Z.shiftr (byte b) 4) 4) (Z.shiftr (sextet_3 b l) 2))) = b.
Proof.
  intros Hl. rewrite <-(Z2Nat.id l) by lia. assert (Z.to_nat l < 4)%nat as Hn by lia. revert b Hn.
  generalize (Z.to_nat l). intros n b. revert b n.
  apply (forall_ascii_below (λ b n, 0 ≤ sextet_3 b (Z.of_nat n) < 64 ∧ Z.land (sextet_3 b (Z.of_nat n)) 3 = Z.of_nat n ∧
    chr (u8 (Z.lor (Z.shiftl (Z.shiftr (byte b) 4) 4) (Z.shiftr (sextet_3 b (Z.of_nat n)) 2))) = b)).
  vm_compute. reflexivity.
Qed.

Lemma sextet_4_ok c :
  0 ≤ Z.land (byte c) 63 < 64 ∧ 0 ≤ Z.shiftr (byte c) 4 < 16 ∧ 0 ≤ Z.shiftr (byte c) 6 < 4 ∧
  chr (u8 (Z.lor (Z.shiftl (Z.shiftr (byte c) 6) 6) (Z.land (byte c) 63))) = c.
Proof.
  revert c. apply (forall_ascii (λ c, 0 ≤ Z.land (byte c) 63 < 64 ∧ 0 ≤ Z.shiftr (byte c) 4 < 16 ∧
    0 ≤ Z.shiftr (byte c) 6 < 4 ∧ chr (u8 (Z.lor (Z.shiftl (Z.shiftr (byte c) 6) 6) (Z.land (byte c) 63))) = c)).
  vm_compute. reflexivity.
Qed.

(** Every character of an encoded text is kept by the decoder. *)
Lemma b64_text_kept s : Forall (λ c, c ≠ NUL ∧ is_base64 c = true) (b64_text s).
Proof.
  assert (∀ u, 0 ≤ u < 64 → encode u ≠ NUL ∧ is_base64 (encode u) = true) as He
    by (intros u Hu; by destruct (encode_decode u Hu) as (_ & _ & ? & ?)).
  assert (∀ a, e1 a ≠ NUL ∧ is_base64 (e1 a) = true) as H1 by (intros a; apply He, sextet_1).
  assert (∀ a b, e2 a (byte b) ≠ NUL ∧ is_base64 (e2 a (byte b)) = true) as H2
    by (intros a b; apply He, sextet_2_ok, sextet_4_ok).
  assert (∀ a, e2 a 0 ≠ NUL ∧ is_base64 (e2 a 0) = true) as H2' by (intros a; apply He, sextet_2_ok; done).
  assert (∀ b c, e3 b (byte c) ≠ NUL ∧ is_base64 (e3 b (byte c)) = true) as H3
    by (intros b c; apply He, sextet_3_ok, sextet_4_ok).
  assert (∀ b, e3 b 0 ≠ NUL ∧ is_base64 (e3 b 0) = true) as H3' by (intros b; apply He, sextet_3_ok; done).
  assert (∀ c, e4 c ≠ NUL ∧ is_base64 (e4 c) = true) as H4 by (intros c; apply He, sextet_4_ok).
  induction s as [|a|a b|a b c s IH] using list_ind3; cbn [b64_text app]; repeat (constructor; [by (apply H1 || apply H2' || apply H2 || apply H3' || apply H3 || apply H4 || done)|]); done.
Qed.

(** ** Encoding *)

Lemma length_b64_text s : (3 * length (b64_text s) ≤ 4 * length s + 8)%nat.
Proof. induction s using list_ind3; simpl in *; lia. Qed.

Lemma c_read_off {A} (pre s : list A) k : c_read (pre ++ s) (length pre + k) = c_read s k.
Proof. unfold c_read. by rewrite lookup_app_r, Nat.add_comm, Nat.add_sub by lia. Qed.

Lemma encode_group_spec pre s rest :
  s ≠ [] →
  encode_group (Z.of_nat (length pre + length s)) (Z.of_nat (length pre)) (pre ++ s ++ rest) =
    Ret (take 4 (b64_text s)).
Proof.
  intros Hs. unfold encode_group. rewrite Nat2Z.id.
  replace (Z.to_nat (Z.of_nat (length pre) + 1)) with (length pre + 1)%nat by lia.
  replace (Z.to_nat (Z.of_nat (length pre) + 2)) with (length pre + 2)%nat by lia.
  rewrite <-(Nat.add_0_r (length pre)) at 1. rewrite !c_read_off.
  destruct s as [|a [|b [|c s]]]; [done|..]; cbn [app length c_read lookup list_lookup mbind outcome_bind fmap outcome_fmap].
  - rewrite !(proj2 (Z.ltb_ge _ _)) by lia. done.
  - rewrite (proj2 (Z.ltb_lt _ _)), (proj2 (Z.ltb_ge _ _)) by lia. done.
  - rewrite !(proj2 (Z.ltb_lt _ _)) by lia. done.
Qed.

Lemma encode_loop_spec fuel pre s rest dn junk :
  (length s < fuel)%nat → (length (b64_text s) ≤ length junk)%nat →
  encode_loop fuel (Z.of_nat (length pre + length s)) (Z.of_nat (length pre)) (pre ++ s ++ rest)
    (dn ++ junk) (length dn) = Ret (dn ++ b64_text s ++ drop (length (b64_text s)) junk).
Proof.
  revert pre s dn junk. induction fuel as [|fuel IH]; intros pre s dn junk Hf Hj; [lia|]. cbn [encode_loop].
  destruct s as [|a s].
  { rewrite (proj2 (Z.ltb_ge _ _)) by (simpl; lia). done. }
  rewrite (proj2 (Z.ltb_lt _ _)) by (simpl; lia). rewrite encode_group_spec by done. cbn [mbind outcome_bind].
  set (g := take 4 (b64_text (a :: s))).
  assert (∃ h t, a :: s = h ++ t ∧ b64_text (a :: s) = g ++ b64_text t ∧ length g = 4%nat ∧ (length h ≤ 3)%nat ∧
    (1 ≤ length h)%nat ∧ (t ≠ [] → length h = 3%nat)) as (h & t & E & Et & Hg & Hh & Hh1 & H3).
  { subst g. destruct s as [|b [|c s]]; [exists [a], []|exists [a; b], []|exists [a; b; c], s];
      (split_and!; try done; simpl; lia). }
  rewrite Et in Hj. rewrite length_app in Hj.
  rewrite c_store_ok by (rewrite length_app; lia). cbn [mbind outcome_bind].
  assert (splice (dn ++ junk) (length dn) g = (dn ++ g) ++ drop 4 junk) as ->.
  { unfold splice. rewrite take_app_length, Hg. rewrite <-drop_drop, drop_app_length. by rewrite app_assoc. }
  replace (length dn + 4)%nat with (length (dn ++ g)) by (rewrite length_app; lia). rewrite E, Et in *.
  rewrite length_app in Hf. destruct t as [|x t].
  - rewrite ?app_nil_r in *. destruct fuel; [lia|]. cbn [encode_loop]. rewrite (proj2 (Z.ltb_ge _ _)) by lia.
    by rewrite Hg, <-app_assoc.
  - specialize (H3 ltac:(done)). replace (Z.of_nat (length pre) + 3) with (Z.of_nat (length (pre ++ h))) by (rewrite length_app; lia).
    specialize (IH (pre ++ h) (x :: t) (dn ++ g) (drop 4 junk)). rewrite <-!app_assoc in IH. rewrite <-!app_assoc.
    replace (length pre + length (h ++ x :: t))%nat with (length (pre ++ h) + length (x :: t))%nat by (rewrite !length_app; lia).
    rewrite IH by (rewrite ?length_drop; lia). f_equal. f_equal. f_equal. rewrite length_app, Hg, drop_drop. done.
Qed.

(** ** Decoding *)

Lemma keep_base64_spec s r out junk :
  NUL ∉ s → (length s ≤ length junk)%nat →
  ∃ junk', keep_base64 (s ++ NUL :: r) (out ++ junk) (length out) =
      Ret (out ++ filter (λ c, is_base64 c = true) s ++ junk', length out + length (filter (λ c, is_base64 c = true) s))%nat.
Proof.
  revert out junk. induction s as [|c s IH]; intros out junk Hs Hj.
  { exists junk. cbn. by rewrite Nat.add_0_r. }
  apply not_elem_of_cons in Hs as [Hc Hs]. cbn [app keep_base64]. rewrite bool_decide_eq_false_2 by congruence.
  simpl in Hj. rewrite filter_cons. destruct (is_base64 c).
  - rewrite decide_True by done. destruct junk as [|x junk]; [simpl in Hj; lia|]. rewrite write_next.
    cbn [mbind outcome_bind]. destruct (IH (out ++ [c]) junk Hs) as (junk' & E); [simpl in Hj; lia|].
    exists junk'. rewrite length_app in E. cbn [length] in E. rewrite Nat.add_1_r in E. rewrite E, <-app_assoc.
    cbn [length app]. by rewrite Nat.add_succ_comm.
  - rewrite decide_False by done. apply IH; [done|lia].
Qed.

(** A group that is decoded has at most three bytes for four characters. *)
Lemma decode_group_safe buf k l :
  (k < l ≤ length buf)%nat → ∃ g, decode_group buf k l = Ret g ∧ (1 ≤ length g ≤ 3)%nat.
Proof.
  intros Hk. unfold decode_group. destruct (lookup_lt_is_Some_2 buf k) as [c1 H1]; [lia|].
  rewrite (c_read_Some _ _ _ H1). cbn [mbind outcome_bind].
  assert (∀ j, ∃ c, (if (k + j <? l)%nat then c_read buf (k + j) else Ret "A"%char) = Ret c) as Hget.
  { intros j. destruct (Nat.ltb_spec (k + j) l); [|by eexists].
    destruct (lookup_lt_is_Some_2 buf (k + j)) as [c Hc]; [lia|]. rewrite (c_read_Some _ _ _ Hc). by eexists. }
  destruct (Hget 1%nat) as (c2 & ->), (Hget 2%nat) as (c3 & ->), (Hget 3%nat) as (c4 & ->). cbn [mbind outcome_bind].
  eexists. split; [done|]. repeat case_bool_decide; simpl; lia.
Qed.

Lemma decode_loop_safe fuel buf k l dest p :
  (l ≤ length buf)%nat → (1 ≤ fuel)%nat → (l + 4 ≤ k + 4 * fuel)%nat →
  ((k < l)%nat → (p + (l - k) + 2 ≤ length dest)%nat) →
  ∃ dest', decode_loop fuel buf k l dest p = Ret dest' ∧ length dest' = length dest.
Proof.
  intros Hl. revert k dest p. induction fuel as [|fuel IH]; intros k dest p H1 Hf Hd; [lia|]. cbn [decode_loop].
  destruct (Nat.ltb_spec k l) as [Hk|Hk]; [|by exists dest]. specialize (Hd Hk).
  destruct (decode_group_safe buf k l) as (g & -> & Hg); [lia|]. cbn [mbind outcome_bind].
  rewrite c_store_ok by lia. cbn [mbind outcome_bind].
  destruct (IH (k + 4)%nat (splice dest p g) (p + length g)%nat) as (dest' & -> & Hlen).
  - lia.
  - lia.
  - rewrite length_splice by lia. lia.
  - exists dest'. split; [done|]. rewrite Hlen. apply length_splice. lia.
Qed.

(** The first group of an encoded text gives its bytes back. *)
Lemma decode_group_spec pre s rest :
  s ≠ [] →
  decode_group (pre ++ b64_text s ++ rest) (length pre) (length pre + length (b64_text s)) = Ret (take 3 s).
Proof.
  intros Hs. unfold decode_group. rewrite <-(Nat.add_0_r (length pre)) at 1. rewrite !c_read_off.
  assert (∀ u, 0 ≤ u < 64 → decode (encode u) = u ∧ bool_decide (encode u = "="%char) = false) as He.
  { intros u Hu. destruct (encode_decode u Hu) as (? & ? & _). by rewrite bool_decide_eq_false_2. }
  destruct s as [|a [|b [|c s]]]; [done|..]; cbn [b64_text app length c_read lookup list_lookup mbind outcome_bind];
    rewrite !(proj2 (Nat.ltb_lt _ _)) by lia; cbn [mbind outcome_bind]; unfold e1, e2, e3, e4.
  - fold (sextet_2 a (Z.shiftr 0 4)). destruct (sextet_2_ok a (Z.shiftr 0 4)) as (H1 & H2 & H3); [done|].
    destruct (He _ (sextet_1 a)) as [-> _]. destruct (He _ H1) as [-> _]. rewrite H3.
    by rewrite !bool_decide_eq_true_2.
  - fold (sextet_2 a (Z.shiftr (byte b) 4)). fold (sextet_3 b (Z.shiftr 0 6)).
    destruct (sextet_4_ok b) as (_ & Hb & _). destruct (sextet_2_ok a _ Hb) as (H1 & H2 & H3).
    destruct (sextet_3_ok b (Z.shiftr 0 6)) as (K1 & K2 & K3); [done|].
    destruct (He _ (sextet_1 a)) as [-> _]. destruct (He _ H1) as [-> _]. destruct (He _ K1) as [-> ->].
    rewrite H2, H3, K3. by rewrite bool_decide_eq_true_2.
  - fold (sextet_2 a (Z.shiftr (byte b) 4)). fold (sextet_3 b (Z.shiftr (byte c) 6)).
    destruct (sextet_4_ok b) as (_ & Hb & _). destruct (sextet_2_ok a _ Hb) as (H1 & H2 & H3).
    destruct (sextet_4_ok c) as (L1 & _ & Hc & L2). destruct (sextet_3_ok b _ Hc) as (K1 & K2 & K3).
    destruct (He _ (sextet_1 a)) as [-> _]. destruct (He _ H1) as [-> _]. destruct (He _ K1) as [-> ->].
    destruct (He _ L1) as [-> ->]. by rewrite H2, H3, K3, K2, L2.
Qed.

Lemma b64_text_drop s : b64_text s = take 4 (b64_text s) ++ b64_text (drop 3 s).
Proof. destruct s as [|a [|b [|c s]]]; done. Qed.

Lemma decode_loop_spec fuel pre s rest dn junk :
  (length s < fuel)%nat → (length s ≤ length junk)%nat →
  decode_loop fuel (pre ++ b64_text s ++ rest) (length pre) (length pre + length (b64_text s)) (dn ++ junk) (length dn) =
    Ret (dn ++ s ++ drop (length s) junk).
Proof.
  revert pre s dn junk. induction fuel as [|fuel IH]; intros pre s dn junk Hf Hj; [lia|]. cbn [decode_loop].
  destruct (decide (s = [])) as [->|Hs].
  { rewrite (proj2 (Nat.ltb_ge _ _)) by (simpl; lia). done. }
  assert (length (b64_text s) = (4 + length (b64_text (drop 3 s)))%nat) as Hl.
  { rewrite b64_text_drop, length_app. f_equal. by destruct s as [|a [|b [|c s]]]. }
  rewrite (proj2 (Nat.ltb_lt _ _)) by lia. rewrite decode_group_spec by done. cbn [mbind outcome_bind].
  set (g := take 3 s). assert (s = g ++ drop 3 s) as Es by (subst g; by rewrite take_drop).
  assert (1 ≤ length g)%nat by (subst g; rewrite length_take; destruct s; [done|simpl; lia]).
  assert (length s = length g + length (drop 3 s))%nat as Hls by (by rewrite Es at 1; rewrite length_app).
  rewrite c_store_ok by (rewrite length_app; lia). cbn [mbind outcome_bind].
  assert (splice (dn ++ junk) (length dn) g = (dn ++ g) ++ drop (length g) junk) as ->.
  { unfold splice. rewrite take_app_length. rewrite <-drop_drop, drop_app_length. by rewrite app_assoc. }
  specialize (IH (pre ++ take 4 (b64_text s)) (drop 3 s) (dn ++ g) (drop (length g) junk)).
  assert (length (take 4 (b64_text s)) = 4%nat) as H4 by (rewrite length_take, Hl; lia).
  rewrite !length_app, H4, <-!app_assoc, (app_assoc (take 4 _)), <-b64_text_drop in IH.
  assert (length (drop (length g) junk) = length junk - length g)%nat by apply length_drop.
  rewrite <-app_assoc, Hl, Nat.add_assoc. rewrite IH by lia.
  f_equal. f_equal. rewrite Es at 3. rewrite <-app_assoc. f_equal. f_equal. by rewrite drop_drop, <-Hls.
Qed.

(** ** Results *)

(** Decoding any string returns: nothing is read or written outside the blocks. *)
Lemma decode_base64_returns malloc_ok uninit s :
  has_char NUL s = false →
  ∃ r, decode_base64 malloc_ok uninit (Some (c_str s)) = Ret r ∧
    ∀ dest, r = Some dest → length dest = (String.length s + 14)%nat.
Proof.
  intros Hs%chars_nul. unfold decode_base64, c_str. destruct (chars s) as [|c l] eqn:E.
  { by eexists. }
  cbn [app c_read lookup list_lookup mbind outcome_bind]. case_bool_decide; [by eexists|].
  rewrite <-(length_chars s), E. change (c :: l ++ [NUL]) with ((c :: l) ++ NUL :: []).
  rewrite c_strlen_spec by done. cbn [mbind outcome_bind].
  destruct (negb _); [by eexists|]. destruct (negb _); [by eexists|].
  set (t := c :: l) in *. set (buf := uninit <$> seq 0 (length t + 1)).
  assert (length buf = length t + 1)%nat as Hbuf by (subst buf; by rewrite length_fmap, length_seq).
  destruct (keep_base64_spec t [] [] buf Hs) as (junk & Hkeep); [lia|]. cbn [app length Nat.add] in Hkeep.
  rewrite Hkeep. cbn [mbind outcome_bind]. set (kept := filter _ _) in *.
  assert (length kept ≤ length t)%nat as Hk by (apply length_filter).
  destruct (decode_loop_safe (S (length kept)) (kept ++ junk) 0 (length kept) (replicate (length t + 1 + 13) NUL) 0)
    as (dest & -> & Hd); [rewrite length_app; lia|lia|lia|rewrite length_replicate; lia|].
  cbn [mbind outcome_bind]. eexists. split; [done|]. intros ? [= <-]. rewrite Hd, length_replicate. lia.
Qed.

Lemma encode_base64_spec malloc_ok src rest :
  (∀ z, 0 < z → malloc_ok z = true) → src ≠ [] → Z.of_nat (length src) * 4 < 2 ^ 31 →
  ∃ n, encode_base64 malloc_ok (Z.of_nat (length src)) (Some (src ++ rest)) =
    Ret (Some (b64_text src ++ NUL :: replicate n NUL)).
Proof.
  intros Hm Hne Hlt. unfold encode_base64. rewrite (proj2 (Z.eqb_neq _ _)) by (destruct src; [done|simpl; lia]).
  cbn [mbind outcome_bind].
  assert (wrap_int (Z.of_nat (length src) * 4) = Z.of_nat (length src) * 4) as ->.
  { unfold wrap_int. rewrite Z.mod_small; lia. }
  rewrite Z.quot_div_nonneg by lia. set (n := Z.of_nat (length src) * 4 / 3 + 4).
  assert (0 < n) by (subst n; Z.to_euclidean_division_equations; lia).
  rewrite (proj2 (Z.ltb_ge _ _)), Hm by lia. cbn [orb negb]. rewrite Nat2Z.id.
  pose proof (length_b64_text src) as Hl.
  assert (length (b64_text src) < Z.to_nat n)%nat as Hn by (subst n; Z.to_euclidean_division_equations; lia).
  pose proof (encode_loop_spec (S (length src)) [] src rest [] (replicate (Z.to_nat n) NUL)) as E.
  cbn [app length Nat.add] in E. rewrite length_replicate in E. change (Z.of_nat 0) with 0 in E. rewrite E by lia. cbn [mbind outcome_bind].
  exists (Z.to_nat n - length (b64_text src) - 1)%nat. f_equal. f_equal. f_equal. rewrite drop_replicate.
  destruct (Z.to_nat n - length (b64_text src))%nat as [|k] eqn:?; [lia|]. simpl. by rewrite Nat.sub_0_r.
Qed.


