(* ===== verification/MathOp.v ===== *)
(** * Primes for table sizes (shared/src/math_op.c)

    [os_getprime] looks for a prime by trial division with odd numbers, on 32-bit
    unsigned integers.  Both of its loops are iterated with the bounds their counters
    have, 2^31 for the divisors and 2^32 for the candidates. *)

From stdpp Require Import base numbers list.
From Stdlib Require Import Lia Zdivisibility.
From S2P Require Import Prelude.

#[local] Open Scope Z_scope.

Definition uint (z : Z) : Z := z mod 2 ^ 32.

(** One round of the inner loop: it ends with the divisor it stopped at. *)
Definition trial_step (val max_i i : Z) : outcome (Z + Z) :=
  if i <=? max_i then
    if i =? 0 then Stuck DivByZero
    else if val mod i =? 0 then Ret (inr i)
    else Ret (inl (uint (i + 2)))
  else Ret (inr i).

(** One round of the outer loop: it ends with the result of the function. *)
Definition candidate_step (val : Z) : outcome (Z + Z) :=
  let max_i := val / 2 in
  r ← iterate (trial_step val max_i) (2 ^ 31) 3;
  match r with
  | inl _ => Stuck OutOfFuel
  | inr i =>
      if max_i <=? i then Ret (inr val)
      else let val := uint (val + 2) in if val =? 0 then Ret (inr 0) else Ret (inl val)
  end.

Definition os_getprime (val : Z) : outcome Z :=
  let val := if val mod 2 =? 0 then uint (val + 1) else val in
  r ← iterate candidate_step (2 ^ 32) val;
  match r with inl _ => Stuck OutOfFuel | inr v => Ret v end.

(** ** Trial division *)

Lemma uint_small z : 0 ≤ z < 2 ^ 32 → uint z = z.
Proof. apply Z.mod_small. Qed.

(** No odd number from 3 to [m] divides [n]. *)
Definition no_odd_factor (n m : Z) : Prop := ∀ d, Z.Odd d → 3 ≤ d ≤ m → ¬ (d | n).

Lemma trial_division val max_i p :
  0 ≤ max_i < 2 ^ 31 → max_i ≤ Zpos p →
  ∃ i, iterate (trial_step val max_i) p 3 = Ret (inr i) ∧ 3 ≤ i ∧
    ((max_i < i ∧ no_odd_factor val max_i) ∨ (i ≤ max_i ∧ Z.Odd i ∧ (i | val))).
Proof.
  intros Hm Hp.
  apply (iterate_result (G := unit) _
    (λ _ i, Z.Odd i ∧ 3 ≤ i ≤ max_i `max` 1 + 2 ∧ no_odd_factor val (i - 1)) (λ _ i, max_i `max` 1 + 2 - i)
    (λ i, 3 ≤ i ∧ ((max_i < i ∧ no_odd_factor val max_i) ∨ (i ≤ max_i ∧ Z.Odd i ∧ (i | val))))) with (g := tt).
  - intros _ i (_ & ? & _). lia.
  - intros _ i (Ho & Hi & Hn). unfold trial_step. destruct (Z.leb_spec i max_i) as [Hle|Hlt].
    + rewrite (proj2 (Z.eqb_neq i 0)) by lia. destruct (Z.eqb_spec (val mod i) 0) as [E|E].
      * eexists. split; [done|]. split; [lia|]. right. split_and!; [lia|done|]. by apply Z.mod_divide; [lia|].
      * eexists. split; [done|]. exists tt. rewrite uint_small by lia. split; [|lia]. split_and!.
        -- destruct Ho as [k ->]. exists (k + 1). lia.
        -- lia.
        -- lia.
        -- intros d Hd Hr Hdiv. destruct (decide (d = i)) as [->|Hne]; [by apply E, Z.mod_divide; [lia|]|].
           destruct (decide (d = i + 1)) as [->|Hne'].
           { destruct Ho as [k ->], Hd as [j ?]. lia. }
           apply (Hn d); [done|lia|done].
    + eexists. split; [done|]. split; [lia|]. left. split; [done|].
      intros d Hd Hr. apply Hn; [done|lia].
  - split_and!; [by exists 1|lia|lia|]. intros d _ ?. lia.
  - lia.
Qed.

Lemma odd_not_even n d : Z.Odd n → (d | n) → Z.Odd d.
Proof.
  intros Hn [q ->]. destruct (Z.Even_or_Odd d) as [[k ->]|]; [|done]. destruct Hn as [j ?]. lia.
Qed.

(** An odd number with no odd factor up to [m], where a proper factor above [m] has a
    cofactor that is at most [m], is prime. *)
Lemma prime_no_factor n m :
  Z.Odd n → 3 ≤ n → 0 ≤ m → n < 3 * (m + 1) ∨ n < (m + 1) * (m + 1) → no_odd_factor n m → Z.prime n.
Proof.
  intros Ho H3 H0 Hm Hf. split; [lia|]. intros d Hd [q E].
  assert (Z.Odd d) as Hdo by (apply (odd_not_even n); [done|by exists q]).
  assert (Z.Odd q) as Hqo by (apply (odd_not_even n); [done|by exists d; lia]).
  assert (3 ≤ d) by (destruct Hdo; lia).
  assert (1 < q) by nia. assert (3 ≤ q) by (destruct Hqo; lia).
  destruct (decide (d ≤ m)) as [Hle|Hgt]; [apply (Hf d Hdo); [lia|by exists q]|].
  destruct (decide (q ≤ m)) as [Hle|Hgt']; [apply (Hf q Hqo); [lia|by exists d; lia]|].
  destruct Hm as [Hm|Hm].
  - pose proof (Z.mul_le_mono_nonneg 3 q (m + 1) d). lia.
  - pose proof (Z.mul_le_mono_nonneg (m + 1) q (m + 1) d). lia.
Qed.

Lemma odd_prime_no_factor n d : Z.prime n → Z.Odd d → 3 ≤ d ≤ n / 2 → ¬ (d | n).
Proof.
  intros Hp _ Hd Hdiv. pose proof (Z.prime_ge_2 _ Hp).
  destruct (Z.divide_prime_r d n Hp Hdiv) as [->|[->|[->| ->]]]; Z.to_euclidean_division_equations; lia.
Qed.

(** A candidate is taken exactly when it is prime. *)
Lemma candidate_step_spec val :
  Z.Odd val → 3 ≤ val < 2 ^ 32 - 2 →
  (Z.prime val ∧ candidate_step val = Ret (inr val)) ∨ (¬ Z.prime val ∧ candidate_step val = Ret (inl (val + 2))).
Proof.
  intros Ho Hv. unfold candidate_step.
  assert (0 ≤ val / 2 < 2 ^ 31) as Hm by (Z.to_euclidean_division_equations; lia).
  destruct (trial_division val (val / 2) (2 ^ 31) Hm) as (i & -> & Hi & Hc); [lia|]. cbn [mbind outcome_bind].
  destruct Hc as [[Hlt Hn]|(Hle & Hio & Hd)].
  - left. rewrite (proj2 (Z.leb_le _ _)) by lia. split; [|done].
    apply (prime_no_factor val (val / 2)); [done|lia|lia| |done]. left. Z.to_euclidean_division_equations; lia.
  - right. split; [intros Hp; by apply (odd_prime_no_factor val i)|].
    assert (i ≠ val / 2) as Hne.
    { intros ->. destruct Hd as [q Hq], Ho as [k ->]. replace ((2 * k + 1) / 2) with k in * by (Z.to_euclidean_division_equations; lia).
      destruct (decide (q ≤ 2)); nia. }
    rewrite (proj2 (Z.leb_gt _ _)) by lia. rewrite uint_small by lia. by rewrite (proj2 (Z.eqb_neq _ _)) by lia.
Qed.

(** The greatest prime below 2^32. *)
Definition max_prime : Z := 4294967291.

Lemma prime_max_prime : Z.prime max_prime.
Proof.
  assert (iterate (trial_step max_prime 65536) 65536 3 = Ret (inr 65537)) as E by (vm_compute; reflexivity).
  destruct (trial_division max_prime 65536 65536) as (i & E' & _ & Hc); [lia|lia|].
  rewrite E in E'. injection E' as <-. destruct Hc as [[_ Hn]|[? _]]; [|lia].
  apply (prime_no_factor max_prime 65536); [by exists 2147483645| | |right|done]; unfold max_prime; lia.
Qed.

Lemma getprime_loop val :
  Z.Odd val → 3 ≤ val ≤ max_prime →
  ∃ p, iterate candidate_step (2 ^ 32) val = Ret (inr p) ∧
    Z.prime p ∧ val ≤ p ≤ max_prime ∧ ∀ q, Z.prime q → val ≤ q → p ≤ q.
Proof.
  intros Ho Hv.
  apply (iterate_result (G := unit) _
    (λ _ v, Z.Odd v ∧ val ≤ v ≤ max_prime ∧ ∀ q, Z.prime q → val ≤ q → v ≤ q) (λ _ v, max_prime - v)
    (λ p, Z.prime p ∧ val ≤ p ≤ max_prime ∧ ∀ q, Z.prime q → val ≤ q → p ≤ q)) with (g := tt).
  - intros _ v (_ & ? & _). lia.
  - intros _ v (Hvo & Hr & Hleast).
    destruct (candidate_step_spec v Hvo) as [[Hp ->]|[Hn ->]]; [unfold max_prime in *; lia|by eexists|].
    eexists. split; [done|]. exists tt.
    assert (∀ q, Z.prime q → val ≤ q → v + 2 ≤ q) as Hleast'.
    { intros q Hq Hle. specialize (Hleast q Hq Hle). assert (q ≠ v) by (by intros ->).
      assert (q ≠ v + 1); [|lia]. intros ->. destruct Hvo as [k ->].
      assert (2 | 2 * k + 1 + 1) as Hd by (exists (k + 1); lia).
      apply (Z.divide_prime_r _ _ Hq) in Hd. lia. }
    split; [|lia]. split_and!; [destruct Hvo as [k ->]; exists (k + 1); lia|lia| |done].
    apply Hleast'; [apply prime_max_prime|lia].
  - split_and!; [done|lia|lia|]. by intros.
  - unfold max_prime in *. lia.
Qed.

Lemma os_getprime_prime val :
  2 ≤ val ≤ max_prime →
  ∃ p, os_getprime val = Ret p ∧ Z.prime p ∧ Z.Odd p ∧ val ≤ p ≤ max_prime ∧
    ∀ q, Z.prime q → Z.Odd q → val ≤ q → p ≤ q.
Proof.
  intros Hr. unfold os_getprime. set (v := if val mod 2 =? 0 then uint (val + 1) else val).
  assert (Z.Odd v ∧ 3 ≤ v ≤ max_prime ∧ val ≤ v ∧ ∀ q, Z.Odd q → val ≤ q → v ≤ q) as (Ho & H3 & Hvv & Hq).
  { subst v. pose proof (Z.mod_pos_bound val 2 eq_refl). pose proof (Z.div_mod val 2 ltac:(done)) as Hdm.
    unfold max_prime in *. set (k := val / 2) in *.
    destruct (Z.eqb_spec (val mod 2) 0) as [E|E]; [rewrite uint_small by lia|]; split_and!;
      try lia; try (exists k; lia); intros q [j ->] ?; lia. }
  destruct (getprime_loop v Ho H3) as (p & -> & Hp & Hle & Hl). cbn [mbind outcome_bind].
  exists p. split_and!; [done|done| |lia|lia|].
  - destruct (Z.Even_or_Odd p) as [[k ->]|]; [|done].
    assert (2 | 2 * k) as Hd by (exists k; lia). apply (Z.divide_prime_r _ _ Hp) in Hd. lia.
  - intros q Hqp Hqo Hle'. apply Hl; [done|]. by apply Hq.
Qed.

Lemma os_getprime_wraps val : 0 ≤ val < 2 ^ 32 → val < 2 ∨ max_prime < val → os_getprime val = Ret 1.
Proof.
  intros Hv Hr.
  assert (val = 0 ∨ val = 1 ∨ val = 4294967292 ∨ val = 4294967293 ∨ val = 4294967294 ∨ val = 4294967295)
    as [->|[->|[->|[->|[->| ->]]]]] by (unfold max_prime in *; lia); vm_compute; reflexivity.
Qed.

Lemma os_getprime_returns val : 0 ≤ val < 2 ^ 32 → ∃ p, os_getprime val = Ret p.
Proof.
  intros Hv. destruct (decide (2 ≤ val ≤ max_prime)) as [Hr|Hr].
  - destruct (os_getprime_prime val Hr) as (p & E & _). by exists p.
  - exists 1. apply os_getprime_wraps; [done|lia].
Qed.

(** C40: [os_getprime] always returns.  From 2 to the greatest prime below 2^32 it gives the
    least odd prime that is not below its argument; for 0 and 1, and above that prime,
    where the candidate wraps around, it gives 1. *)
Theorem os_getprime_correct val :
  0 ≤ val < 2 ^ 32 →
  (2 ≤ val ≤ max_prime ∧
     ∃ p, os_getprime val = Ret p ∧ Z.prime p ∧ Z.Odd p ∧ val ≤ p ≤ max_prime ∧
       ∀ q, Z.prime q → Z.Odd q → val ≤ q → p ≤ q) ∨
  (val < 2 ∨ max_prime < val) ∧ os_getprime val = Ret 1.
Proof.
  intros Hv. destruct (decide (2 ≤ val ≤ max_prime)) as [Hr|Hr].
  - left. split; [done|]. by apply os_getprime_prime.
  - right. assert (val < 2 ∨ max_prime < val) by lia. split; [done|]. by apply os_getprime_wraps.
Qed.

Lemma os_getprime_correct_witness : ∃ p, os_getprime 2048 = Ret p ∧ Z.prime p ∧ 2048 ≤ p.
Proof.
  destruct (os_getprime_correct 2048) as [(_ & p & E & Hp & _ & Hle & _)|[H _]]; [lia| |unfold max_prime in H; lia].
  exists p. split_and!; [done|done|lia].
Defined.
