(* ===== verification/OSHash.v ===== *)
(** * The chained hash table (shared/src/hash_op.c)

    [OSHash] is an array of rows, each a doubly linked list of heap nodes.  The nodes of
    all tables live in one memory, a finite map from addresses, beside the trace of the
    calls made through function pointers (the functions that dispose of the data).  A
    dereference of an address that holds no node faults, which covers [NULL] and use after
    [free].  The lock of a table is a field of it; an operation that takes it twice
    faults.  Walking a row has the number of nodes in memory as fuel, walking the rows
    their number. *)

From stdpp Require Import base numbers list gmap strings.
From Stdlib Require Import Lia Ascii.
From S2P Require Import Prelude CString RegexMaps MathOp.

#[local] Open Scope Z_scope.

Abbreviation loc := positive.

Inductive rwlock : Type := Unlocked | ReadLocked | WriteLocked.

#[export] Instance rwlock_eq_dec : EqDecision rwlock.
Proof. solve_decision. Defined.

Definition OSHASH_ERROR : Z := 0.
Definition OSHASH_DUPLICATE : Z := 1.
Definition OSHASH_SUCCESS : Z := 2.

(** [snprintf (s, 12, "%d", key)]: every [int] fits. *)
Definition print_d (z : Z) : string :=
  if z <? 0 then String "-" (print_u (- z)) else print_u z.

Fixpoint str_lowercase (s : string) : string :=
  match s with EmptyString => EmptyString | String c s => String (tolower c) (str_lowercase s) end.

Section oshash.
(** [D] are the data, [F] the functions that dispose of them. *)
Context {D F : Type}.

Record OSHashNode : Type := mk_OSHashNode {
  next : option loc;
  prev : option loc;
  key : option string;
  data : option D;
}.

Record memory : Type := mk_memory {
  nodes : gmap loc OSHashNode;
  calls : list (F * D);
}.

Record OSHash : Type := mk_OSHash {
  rows : Z;
  initial_seed : Z;
  constant : Z;
  mutex : rwlock;
  elements : Z;
  free_data_function : option F;
  table : list (option loc);
}.

(** [malloc] gives an address for a node, or none; [strdup_ok] tells whether a key can be
    copied; [sg] whether [char] is signed. *)
Context (malloc : gmap loc OSHashNode → option loc) (strdup_ok : string → bool) (sg : bool).

(** ** Assignments *)

Definition with_nodes (m : memory) (h : gmap loc OSHashNode) : memory := mk_memory h (calls m).
Definition with_table (self : OSHash) (t : list (option loc)) : OSHash :=
  mk_OSHash (rows self) (initial_seed self) (constant self) (mutex self) (elements self) (free_data_function self) t.
Definition with_elements (self : OSHash) (n : Z) : OSHash :=
  mk_OSHash (rows self) (initial_seed self) (constant self) (mutex self) n (free_data_function self) (table self).
Definition with_rows (self : OSHash) (n : Z) : OSHash :=
  mk_OSHash n (initial_seed self) (constant self) (mutex self) (elements self) (free_data_function self) (table self).
Definition with_mutex (self : OSHash) (l : rwlock) : OSHash :=
  mk_OSHash (rows self) (initial_seed self) (constant self) l (elements self) (free_data_function self) (table self).

Definition node_at (m : memory) (a : loc) : outcome OSHashNode := c_deref (nodes m !! a).

Definition set_next (m : memory) (a : loc) (v : option loc) : outcome memory :=
  n ← node_at m a; Ret (with_nodes m (<[a := mk_OSHashNode v (prev n) (key n) (data n)]> (nodes m))).
Definition set_prev (m : memory) (a : loc) (v : option loc) : outcome memory :=
  n ← node_at m a; Ret (with_nodes m (<[a := mk_OSHashNode (next n) v (key n) (data n)]> (nodes m))).
Definition set_data (m : memory) (a : loc) (v : option D) : outcome memory :=
  n ← node_at m a; Ret (with_nodes m (<[a := mk_OSHashNode (next n) (prev n) (key n) v]> (nodes m))).
Definition free_node (m : memory) (a : loc) : outcome memory :=
  _ ← node_at m a; Ret (with_nodes m (delete a (nodes m))).

(** [if (data && f) f (data)]. *)
Definition dispose (m : memory) (f : option F) (d : option D) : memory :=
  match f, d with Some f, Some d => mk_memory (nodes m) (calls m ++ [(f, d)]) | _, _ => m end.

Definition walk_fuel (m : memory) : nat := S (size (nodes m)).

(** ** Creation *)

(** [self_ok] and [table_ok] tell whether the allocations succeed, [r1] and [r2] are what
    [os_random] returns. *)
Definition OSHash_Create (self_ok table_ok : bool) (r1 r2 : Z) : outcome (option OSHash) :=
  if negb self_ok then Ret None
  else
    n ← os_getprime 32;
    if n =? 0 then Ret None
    else if negb table_ok then Ret None
    else
      s ← os_getprime (uint r1 mod n);
      c ← os_getprime (uint r2 mod n);
      Ret (Some (mk_OSHash n s c Unlocked 0 None (replicate (Z.to_nat (uint (n + 1))) None))).

Definition OSHash_SetFreeDataPointer (self : OSHash) (f : F) : Z * OSHash :=
  (1, mk_OSHash (rows self) (initial_seed self) (constant self) (mutex self) (elements self) (Some f) (table self)).

(** ** Release *)

Fixpoint free_chain (fuel : nat) (f : option F) (m : memory) (curr_node : option loc) : outcome memory :=
  match fuel with
  | O => Stuck OutOfFuel
  | S fuel =>
      match curr_node with
      | None => Ret m
      | Some a =>
          n ← node_at m a;
          let m := dispose m f (data n) in
          m ← free_node m a;
          free_chain fuel f m (next n)
      end
  end.

(** [n] rows from the [i]-th on. *)
Fixpoint free_rows (n i : nat) (f : option F) (t : list (option loc)) (m : memory) : outcome memory :=
  match n with
  | O => Ret m
  | S n =>
      p ← c_read t i;
      m ← free_chain (walk_fuel m) f m p;
      free_rows n (S i) f t m
  end.

Definition OSHash_Free (self : OSHash) (m : memory) : outcome memory :=
  free_rows (Z.to_nat (rows self + 1)) 0 (free_data_function self) (table self) m.

(** ** Rows *)

Fixpoint genhash_from (self : OSHash) (hash_key : Z) (key : string) : Z :=
  match key with
  | EmptyString => hash_key
  | String c key => genhash_from self (uint (uint (hash_key * constant self) + uint (char_int sg c))) key
  end.

Definition _os_genhash (self : OSHash) (key : string) : Z := genhash_from self (initial_seed self) key.

Definition OSHash_GetIndex (self : OSHash) (key : string) : outcome nat :=
  let hash_key := _os_genhash self key in
  if rows self =? 0 then Stuck DivByZero else Ret (Z.to_nat (hash_key mod rows self)).

Fixpoint zero_rows (n i : nat) (t : list (option loc)) : outcome (list (option loc)) :=
  match n with
  | O => Ret t
  | S n => t ← c_write t i None; zero_rows n (S i) t
  end.

(** [realloc_ok] tells whether the table can be resized, [uninit] is what its new cells
    hold. *)
Definition OSHash_setSize (realloc_ok : bool) (uninit : nat → option loc) (self : OSHash) (new_size : Z) (m : memory)
    : outcome (Z * OSHash * memory) :=
  let orig_size := rows self in
  if new_size <=? rows self then Ret (1, self, m)
  else
    n ← os_getprime new_size;
    let self := with_rows self n in
    if n =? 0 then Ret (0, self, m)
    else if negb realloc_ok then Ret (0, self, m)
    else
      let t := c_realloc uninit (table self) (Z.to_nat (uint (n + 1))) in
      m ← free_rows (Z.to_nat orig_size) 0 (free_data_function self) t m;
      t ← zero_rows (Z.to_nat (n + 1)) 0 t;
      s ← os_getprime (456 mod n);
      c ← os_getprime (789 mod n);
      Ret (1, mk_OSHash n s c (mutex self) (elements self) (free_data_function self) t, m).

(** ** Lookup and update *)

(** The node of a row that has the key. *)
Fixpoint find_node (fuel : nat) (m : memory) (curr_node : option loc) (k : string) : outcome (option loc) :=
  match fuel with
  | O => Stuck OutOfFuel
  | S fuel =>
      match curr_node with
      | None => Ret None
      | Some a =>
          n ← node_at m a;
          k' ← c_deref (key n);
          if bool_decide (k' = k) then Ret (Some a) else find_node fuel m (next n) k
      end
  end.

Definition OSHash_Update (self : OSHash) (k : string) (d : option D) (m : memory) : outcome (Z * memory) :=
  index ← OSHash_GetIndex self k;
  p ← c_read (table self) index;
  r ← find_node (walk_fuel m) m p k;
  match r with
  | Some a =>
      n ← node_at m a;
      m ← set_data (dispose m (free_data_function self) (data n)) a d;
      Ret (1, m)
  | None => Ret (0, m)
  end.

Definition _OSHash_Add (self : OSHash) (k : string) (d : option D) (update : bool) (m : memory)
    : outcome (Z * OSHash * memory) :=
  index ← OSHash_GetIndex self k;
  p ← c_read (table self) index;
  r ← find_node (walk_fuel m) m p k;
  match r with
  | Some a =>
      m ← (if update then set_data m a d else Ret m);
      Ret (OSHASH_DUPLICATE, self, m)
  | None =>
      match malloc (nodes m) with
      | None => Ret (OSHASH_ERROR, self, m)
      | Some new_node =>
          let m1 := with_nodes m (<[new_node := mk_OSHashNode None None None d]> (nodes m)) in
          if negb (strdup_ok k) then m2 ← free_node m1 new_node; Ret (OSHASH_ERROR, self, m2)
          else
            let m2 := with_nodes m (<[new_node := mk_OSHashNode None None (Some k) d]> (nodes m)) in
            m3 ← match p with
                 | None => Ret m2
                 | Some head => m3 ← set_next m2 new_node (Some head); set_prev m3 head (Some new_node)
                 end;
            t ← c_write (table self) index (Some new_node);
            Ret (OSHASH_SUCCESS, with_elements (with_table self t) (uint (elements self + 1)), m3)
      end
  end.

Definition OSHash_Add (self : OSHash) (k : string) (d : option D) (m : memory) := _OSHash_Add self k d false m.
Definition OSHash_Set (self : OSHash) (k : string) (d : option D) (m : memory) := _OSHash_Add self k d true m.

(** [OSHash_Get] passes over nodes without a key. *)
Fixpoint get_data (fuel : nat) (m : memory) (curr_node : option loc) (k : string) : outcome (option D) :=
  match fuel with
  | O => Stuck OutOfFuel
  | S fuel =>
      match curr_node with
      | None => Ret None
      | Some a =>
          n ← node_at m a;
          if bool_decide (key n = Some k) then Ret (data n) else get_data fuel m (next n) k
      end
  end.

Definition OSHash_Get (self : OSHash) (k : string) (m : memory) : outcome (option D) :=
  index ← OSHash_GetIndex self k;
  p ← c_read (table self) index;
  get_data (walk_fuel m) m p k.

(** The loop of [OSHash_Delete]: the data, the table and the memory if the key is found. *)
Fixpoint delete_node (fuel : nat) (m : memory) (t : list (option loc)) (index : nat)
    (prev_node curr_node : option loc) (k : string) : outcome (option (option D * list (option loc) * memory)) :=
  match fuel with
  | O => Stuck OutOfFuel
  | S fuel =>
      match curr_node with
      | None => Ret None
      | Some a =>
          n ← node_at m a;
          k' ← c_deref (key n);
          if bool_decide (k' = k) then
            '(m, t) ← match prev_node with
                      | None => t ← c_write t index (next n); Ret (m, t)
                      | Some b => m ← set_next m b (next n); Ret (m, t)
                      end;
            m ← match next n with Some c => set_prev m c prev_node | None => Ret m end;
            m ← free_node m a;
            Ret (Some (data n, t, m))
          else delete_node fuel m t index curr_node (next n) k
      end
  end.

Definition OSHash_Delete (self : OSHash) (k : string) (m : memory) : outcome (option D * OSHash * memory) :=
  index ← OSHash_GetIndex self k;
  p ← c_read (table self) index;
  r ← delete_node (walk_fuel m) m (table self) index None p k;
  match r with
  | Some (d, t, m) => Ret (d, with_elements (with_table self t) (uint (elements self - 1)), m)
  | None => Ret (None, self, m)
  end.

(** ** Copies *)

(** [at_node] is the node whose [next] field is assigned, [None] for the cell of the row.
    [None] as result stands for the end of the process ([os_calloc]). *)
Fixpoint duplicate_chain (fuel : nat) (m : memory) (curr_node at_node row : option loc)
    : outcome (option (option loc * memory)) :=
  match fuel with
  | O => Stuck OutOfFuel
  | S fuel =>
      match curr_node with
      | None => Ret (Some (row, m))
      | Some a =>
          n ← node_at m a;
          match malloc (nodes m) with
          | None => Ret None
          | Some p =>
              k ← c_deref (key n);
              let k := if strdup_ok k then Some k else None in
              let m := with_nodes m (<[p := mk_OSHashNode None None k (data n)]> (nodes m)) in
              match at_node with
              | None => duplicate_chain fuel m (next n) (Some p) (Some p)
              | Some b => m ← set_next m b (Some p); duplicate_chain fuel m (next n) (Some p) row
              end
          end
      end
  end.

Fixpoint duplicate_rows (n i : nat) (t t' : list (option loc)) (m : memory)
    : outcome (option (list (option loc) * memory)) :=
  match n with
  | O => Ret (Some (t', m))
  | S n =>
      p ← c_read t i;
      row ← c_read t' i;
      r ← duplicate_chain (walk_fuel m) m p None row;
      match r with
      | None => Ret None
      | Some (row, m) => t' ← c_write t' i row; duplicate_rows n (S i) t t' m
      end
  end.

Definition OSHash_Duplicate (hash : OSHash) (m : memory) : outcome (option (OSHash * memory)) :=
  r ← duplicate_rows (Z.to_nat (rows hash + 1)) 0 (table hash) (replicate (Z.to_nat (uint (rows hash + 1))) None) m;
  match r with
  | None => Ret None
  | Some (t, m) =>
      Ret (Some (mk_OSHash (rows hash) (initial_seed hash) (constant hash) Unlocked 0 (free_data_function hash) t, m))
  end.

(** ** Iteration *)

(** The loops of [OSHash_Begin] and [OSHash_Next]: [n] rows are left from the [i]-th on. *)
Fixpoint first_node (n i : nat) (t : list (option loc)) (m : memory) : outcome (nat * option loc) :=
  match n with
  | O => Ret (i, None)
  | S n =>
      p ← c_read t i;
      match p with
      | Some a =>
          nd ← node_at m a;
          match key nd with Some _ => Ret (i, Some a) | None => first_node n (S i) t m end
      | None => first_node n (S i) t m
      end
  end.

Definition OSHash_Begin (self : option OSHash) (m : memory) : outcome (nat * option loc) :=
  match self with
  | Some self => first_node (Z.to_nat (rows self + 1)) 0 (table self) m
  | None => Ret (0%nat, None)
  end.

Definition OSHash_Next (self : OSHash) (i : nat) (current : option loc) (m : memory) : outcome (nat * option loc) :=
  c ← match current with Some a => n ← node_at m a; Ret (next n) | None => Ret None end;
  match c with
  | Some _ => Ret (i, c)
  | None => first_node (Z.to_nat (rows self + 1) - S i) (S i) (table self) m
  end.

(** The loop of [OSHash_Clean]. *)
Fixpoint clean_nodes (fuel : nat) (self : OSHash) (cleaner : F) (i : nat) (curr_node : option loc) (m : memory)
    : outcome memory :=
  match fuel with
  | O => Stuck OutOfFuel
  | S fuel =>
      match curr_node with
      | None => Ret m
      | Some a =>
          '(i, next_node) ← OSHash_Next self i curr_node m;
          n ← node_at m a;
          let m := dispose m (Some cleaner) (data n) in
          m ← free_node m a;
          clean_nodes fuel self cleaner i next_node m
      end
  end.

Definition OSHash_Clean (self : OSHash) (cleaner : F) (m : memory) : outcome memory :=
  '(i, curr_node) ← OSHash_Begin (Some self) m;
  clean_nodes (walk_fuel m) self cleaner i curr_node m.

(** The function that is given to [OSHash_It] may change the row and the node it is
    called on, the memory and its own data [I]. *)
Definition iterating_function (I : Type) : Type :=
  option loc → option loc → I → memory → outcome (option loc * option loc * I * memory).

Fixpoint iterate_row {I} (fuel : nat) (f : iterating_function I) (t : list (option loc)) (i : nat)
    (node_it : option loc) (x : I) (m : memory) : outcome (list (option loc) * I * memory) :=
  match fuel with
  | O => Stuck OutOfFuel
  | S fuel =>
      match node_it with
      | None => Ret (t, x, m)
      | Some a =>
          n ← node_at m a;
          match key n with
          | None => Ret (t, x, m)
          | Some _ =>
              row ← c_read t i;
              '(row, node_it', x, m) ← f row node_it x m;
              t ← c_write t i row;
              node_it'' ← (if bool_decide (node_it = node_it')
                           then n ← node_at m a; Ret (next n) else Ret node_it');
              iterate_row fuel f t i node_it'' x m
          end
      end
  end.

Fixpoint iterate_rows {I} (fuel n i : nat) (f : iterating_function I) (t : list (option loc)) (x : I) (m : memory)
    : outcome (list (option loc) * I * memory) :=
  match n with
  | O => Ret (t, x, m)
  | S n =>
      p ← c_read t i;
      '(t, x, m) ← iterate_row fuel f t i p x m;
      iterate_rows fuel n (S i) f t x m
  end.

Definition OSHash_It {I} (fuel : nat) (hash : OSHash) (x : I) (f : iterating_function I) (m : memory)
    : outcome (OSHash * I * memory) :=
  '(t, x, m) ← iterate_rows fuel (Z.to_nat (rows hash)) 0 f (table hash) x m;
  Ret (with_table hash t, x, m).

(** ** The operations that take the lock *)

Definition w_rwlock_lock (l : rwlock) (self : OSHash) : outcome OSHash :=
  _ ← c_assert (bool_decide (mutex self = Unlocked)); Ret (with_mutex self l).
Definition w_rwlock_unlock (self : OSHash) : outcome OSHash :=
  _ ← c_assert (negb (bool_decide (mutex self = Unlocked))); Ret (with_mutex self Unlocked).

(** An operation that changes the table, with the lock taken for writing. *)
Definition with_wrlock {R} (self : OSHash) (op : OSHash → outcome (R * OSHash * memory)) : outcome (R * OSHash * memory) :=
  self ← w_rwlock_lock WriteLocked self;
  '(result, self, m) ← op self;
  self ← w_rwlock_unlock self;
  Ret (result, self, m).

(** An operation that only reads the table. *)
Definition with_rdlock {R} (l : rwlock) (self : OSHash) (op : OSHash → outcome R) : outcome (R * OSHash) :=
  self ← w_rwlock_lock l self;
  result ← op self;
  self ← w_rwlock_unlock self;
  Ret (result, self).

Definition OSHash_setSize_ex (realloc_ok : bool) (uninit : nat → option loc) (self : OSHash) (new_size : Z) (m : memory) :=
  with_wrlock self (λ self, OSHash_setSize realloc_ok uninit self new_size m).
Definition OSHash_Update_ex (self : OSHash) (k : string) (d : option D) (m : memory) :=
  with_wrlock self (λ self, '(result, m) ← OSHash_Update self k d m; Ret (result, self, m)).
Definition OSHash_Add_ex (self : OSHash) (k : string) (d : option D) (m : memory) :=
  with_wrlock self (λ self, OSHash_Add self k d m).
Definition OSHash_Set_ex (self : OSHash) (k : string) (d : option D) (m : memory) :=
  with_wrlock self (λ self, OSHash_Set self k d m).
Definition OSHash_Get_ex (self : OSHash) (k : string) (m : memory) :=
  with_rdlock ReadLocked self (λ self, OSHash_Get self k m).
Definition OSHash_Get_ex_dup (duplicator : option D → option D) (self : OSHash) (k : string) (m : memory) :=
  with_rdlock ReadLocked self (λ self, d ← OSHash_Get self k m; Ret (duplicator d)).
Definition OSHash_Get_Elem_ex (self : OSHash) := with_rdlock ReadLocked self (λ self, Ret (elements self)).
Definition OSHash_Delete_ex (self : OSHash) (k : string) (m : memory) :=
  with_wrlock self (λ self, OSHash_Delete self k m).
Definition OSHash_Duplicate_ex (self : OSHash) (m : memory) :=
  with_rdlock ReadLocked self (λ self, OSHash_Duplicate self m).
Definition OSHash_Begin_ex (self : OSHash) (m : memory) :=
  with_rdlock WriteLocked self (λ self, OSHash_Begin (Some self) m).

(** [mode] 2 also sleeps for a second; another mode than 0, 1 and 2 does nothing. *)
Definition OSHash_It_ex {I} (fuel : nat) (hash : OSHash) (mode : Z) (x : I) (f : iterating_function I) (m : memory)
    : outcome (OSHash * I * memory) :=
  if (mode <? 0) || (2 <? mode) then Ret (hash, x, m)
  else
    hash ← w_rwlock_lock (if mode =? 0 then ReadLocked else WriteLocked) hash;
    '(hash, x, m) ← OSHash_It fuel hash x f m;
    hash ← w_rwlock_unlock hash;
    Ret (hash, x, m).

Definition OSHash_Numeric_Add_ex (self : OSHash) (k : Z) (d : option D) (m : memory) := OSHash_Add_ex self (print_d k) d m.
Definition OSHash_Numeric_Get_ex (self : OSHash) (k : Z) (m : memory) := OSHash_Get_ex self (print_d k) m.
Definition OSHash_Numeric_Delete_ex (self : OSHash) (k : Z) (m : memory) := OSHash_Delete_ex self (print_d k) m.

(** The copy of the key is not checked before it is written to. *)
Definition lowercase_copy (k : string) : outcome string :=
  k ← c_deref (if strdup_ok k then Some k else None); Ret (str_lowercase k).
Definition OSHash_Add_ins (self : OSHash) (k : string) (d : option D) (m : memory) :=
  k ← lowercase_copy k; OSHash_Add_ex self k d m.
Definition OSHash_Get_ins (self : OSHash) (k : string) (m : memory) :=
  k ← lowercase_copy k; OSHash_Get_ex self k m.
Definition OSHash_Delete_ins (self : OSHash) (k : string) (m : memory) :=
  k ← lowercase_copy k; OSHash_Delete_ex self k m.

(** ** Representation *)

(** A node with its key and its data. *)
Abbreviation entry := (loc * (string * option D))%type.

(** The nodes of [r] are linked from [p] on.  The back links are right unless the row has
    been made by [OSHash_Duplicate], which leaves them out ([dbl]). *)
Fixpoint chain_at (dbl : bool) (h : gmap loc OSHashNode) (prv p : option loc) (r : list entry) : Prop :=
  match r with
  | [] => p = None
  | (a, (k, d)) :: r =>
      p = Some a ∧ ∃ nxt prv', h !! a = Some (mk_OSHashNode nxt prv' (Some k) d) ∧
        (dbl = true → prv' = prv) ∧ chain_at dbl h (Some a) nxt r
  end.

Abbreviation row_locs r := (fst <$> r : list loc).
Abbreviation row_keys r := (fst ∘ snd <$> r : list string).

(** The data of a key in a row. *)
Fixpoint row_lookup (k : string) (r : list entry) : option (option D) :=
  match r with
  | [] => None
  | (_, (k', d)) :: r => if bool_decide (k' = k) then Some d else row_lookup k r
  end.

Definition index_of (self : OSHash) (k : string) : nat := Z.to_nat (_os_genhash self k mod rows self).

Record repr (dbl : bool) (h : gmap loc OSHashNode) (self : OSHash) (rs : list (list entry)) : Prop := mk_repr {
  repr_rows : 0 < rows self < 2 ^ 32 - 1;
  repr_table : length (table self) = Z.to_nat (rows self + 1);
  repr_chains : Forall2 (chain_at dbl h None) (table self) rs;
  repr_nodup : ∀ i r, rs !! i = Some r → NoDup (row_locs r) ∧ NoDup (row_keys r);
  repr_index : ∀ i r k, rs !! i = Some r → k ∈ row_keys r → index_of self k = i;
  repr_disjoint : ∀ i j r r' a, rs !! i = Some r → rs !! j = Some r' → a ∈ row_locs r → a ∈ row_locs r' → i = j;
}.

(** The map that the rows hold. *)
Definition holds (self : OSHash) (rs : list (list entry)) (M : gmap string (option D)) : Prop :=
  ∀ k, M !! k = rs !! index_of self k ≫= row_lookup k.

(** [h0] is the rest of the memory: the nodes of the table were not in it. *)
Definition owned (rs : list (list entry)) (a : loc) : Prop := ∃ i r, rs !! i = Some r ∧ a ∈ row_locs r.
Definition framed (h0 h : gmap loc OSHashNode) (rs : list (list entry)) : Prop :=
  ∀ a, (owned rs a → h0 !! a = None) ∧ (¬ owned rs a → h !! a = h0 !! a).

(** ** Chains *)

Lemma chain_at_frame dbl h h' prv p r :
  chain_at dbl h prv p r → (∀ a, a ∈ row_locs r → h' !! a = h !! a) → chain_at dbl h' prv p r.
Proof.
  revert prv p. induction r as [|[a [k d]] r IH]; intros prv p; [done|]. cbn [chain_at].
  intros (-> & nxt & prv' & Ha & Hp & Hc) Hf. split; [done|]. exists nxt, prv'. split_and!; [|done|].
  - rewrite Hf; [done|]. apply list_elem_of_here.
  - apply IH; [done|]. intros b Hb. apply Hf. by apply list_elem_of_further.
Qed.

Lemma chain_at_lookup dbl h prv p r a : chain_at dbl h prv p r → a ∈ row_locs r → is_Some (h !! a).
Proof.
  revert prv p. induction r as [|[b [k d]] r IH]; intros prv p; [by intros _ ?%elem_of_nil|].
  intros (-> & nxt & prv' & Ha & _ & Hc) [->|Hin]%elem_of_cons; [by eexists|by eapply IH].
Qed.

(** The number of nodes in memory is enough to walk a row. *)
Lemma chain_at_length dbl h prv p r : chain_at dbl h prv p r → NoDup (row_locs r) → (length r ≤ size h)%nat.
Proof.
  intros Hc Hn. rewrite <-(length_fmap fst r), <-(size_list_to_set (C := gset loc)) by done. rewrite <-size_dom.
  apply subseteq_size. intros a Ha%elem_of_list_to_set. apply elem_of_dom. by eapply chain_at_lookup.
Qed.

Lemma find_node_spec dbl m fuel prv p r k :
  chain_at dbl (nodes m) prv p r → (length r < fuel)%nat →
  match row_lookup k r with
  | Some d => ∃ r1 a r2, r = r1 ++ (a, (k, d)) :: r2 ∧ k ∉ row_keys r1 ∧ find_node fuel m p k = Ret (Some a)
  | None => k ∉ row_keys r ∧ find_node fuel m p k = Ret None
  end.
Proof.
  revert fuel prv p. induction r as [|[a [k' d]] r IH]; intros [|fuel] prv p Hc Hf; cbn [length] in Hf; try lia.
  { simpl in Hc. subst. split; [by apply not_elem_of_nil|done]. }
  destruct Hc as (-> & nxt & prv' & Ha & _ & Hc). cbn [row_lookup find_node]. unfold node_at. rewrite Ha.
  cbn [c_deref mbind outcome_bind key next]. case_bool_decide as Hk.
  - subst. exists [], a, r. split_and!; [done|by apply not_elem_of_nil|done].
  - specialize (IH fuel (Some a) nxt Hc). destruct (row_lookup k r) as [d'|].
    + destruct IH as (r1 & b & r2 & -> & Hn & E); [lia|]. exists ((a, (k', d)) :: r1), b, r2.
      split_and!; [done| |done]. by apply not_elem_of_cons.
    + destruct IH as [Hn E]; [lia|]. split; [|done]. by apply not_elem_of_cons.
Qed.

Lemma get_data_spec dbl m fuel prv p r k :
  chain_at dbl (nodes m) prv p r → (length r < fuel)%nat → get_data fuel m p k = Ret (mjoin (row_lookup k r)).
Proof.
  revert fuel prv p. induction r as [|[a [k' d]] r IH]; intros [|fuel] prv p Hc Hf; cbn [length] in Hf; try lia.
  { simpl in Hc. by subst. }
  destruct Hc as (-> & nxt & prv' & Ha & _ & Hc). cbn [row_lookup get_data]. unfold node_at. rewrite Ha.
  cbn [c_deref mbind outcome_bind key next data]. destruct (decide (k' = k)) as [->|Hk].
  - by rewrite !bool_decide_eq_true_2.
  - rewrite !bool_decide_eq_false_2 by congruence. apply (IH fuel (Some a)); [done|lia].
Qed.

Lemma row_lookup_None k r : row_lookup k r = None ↔ k ∉ row_keys r.
Proof.
  induction r as [|[a [k' d]] r IH]; simpl; [split; [intros _; apply not_elem_of_nil|done]|].
  rewrite not_elem_of_cons. case_bool_decide as Hk; [by split; [|intros [? _]]|].
  rewrite IH. split; [intros ?; split; [congruence|done]|tauto].
Qed.

Lemma row_lookup_app k r1 r2 :
  row_lookup k (r1 ++ r2) = match row_lookup k r1 with Some d => Some d | None => row_lookup k r2 end.
Proof. induction r1 as [|[a [k' d]] r1 IH]; simpl; [done|]. by case_bool_decide. Qed.

Lemma row_lookup_here k a d r1 r2 : k ∉ row_keys r1 → row_lookup k (r1 ++ (a, (k, d)) :: r2) = Some d.
Proof.
  intros Hn%row_lookup_None. rewrite row_lookup_app, Hn. simpl. by rewrite bool_decide_eq_true_2.
Qed.

Lemma row_lookup_other k k' a d r1 r2 :
  k ≠ k' → row_lookup k (r1 ++ (a, (k', d)) :: r2) = row_lookup k (r1 ++ r2).
Proof.
  intros Hk. rewrite !row_lookup_app. simpl. by rewrite bool_decide_eq_false_2 by congruence.
Qed.

Lemma elem_of_row_locs (r1 r2 : list entry) (e : entry) a :
  a ∈ row_locs (r1 ++ e :: r2) ↔ a ∈ row_locs r1 ∨ a = e.1 ∨ a ∈ row_locs r2.
Proof. rewrite fmap_app, fmap_cons, elem_of_app, elem_of_cons. done. Qed.

(** Writing the data of a node. *)
Lemma chain_at_set_data dbl h prv p r1 a k d r2 d' :
  chain_at dbl h prv p (r1 ++ (a, (k, d)) :: r2) → NoDup (row_locs (r1 ++ (a, (k, d)) :: r2)) →
  ∃ n, h !! a = Some n ∧ data n = d ∧
    chain_at dbl (<[a := mk_OSHashNode (next n) (prev n) (key n) d']> h) prv p (r1 ++ (a, (k, d')) :: r2).
Proof.
  revert prv p. induction r1 as [|[b [k' e]] r1 IH]; intros prv p.
  - intros (-> & nxt & prv' & Ha & Hp & Hc) [Hn _]%NoDup_cons. eexists. split_and!; [done|done|]. split; [done|].
    cbn [next prev key]. exists nxt, prv'. rewrite lookup_insert_eq. split_and!; [done|done|].
    apply (chain_at_frame dbl h); [done|]. intros x Hx. apply lookup_insert_ne. by intros ->.
  - cbn [app]. rewrite fmap_cons. intros (-> & nxt & prv' & Hb & Hp & Hc) [Hnb Hn]%NoDup_cons.
    destruct (IH (Some b) nxt Hc Hn) as (n & Ha & Hd & Hc'). exists n. split_and!; [done|done|]. split; [done|].
    exists nxt, prv'. split_and!; [|done|done]. rewrite lookup_insert_ne; [done|]. intros ->.
    apply Hnb, elem_of_row_locs. auto.
Qed.

(** Putting a node before a row. *)
Lemma chain_at_add dbl h p r a k d :
  chain_at dbl h None p r → NoDup (row_locs r) → h !! a = None →
  let h' := <[a := mk_OSHashNode p None (Some k) d]> h in
  let h'' := match p with
             | None => h'
             | Some b => alter (λ n, mk_OSHashNode (next n) (Some a) (key n) (data n)) b h' end in
  chain_at dbl h'' None (Some a) ((a, (k, d)) :: r) ∧
  ∀ x, x ∉ row_locs r → x ≠ a → h'' !! x = h !! x.
Proof.
  intros Hc Hn Ha h' h''.
  assert (a ∉ row_locs r) as Hna by (intros [? ?]%(chain_at_lookup _ _ _ _ _ _ Hc); congruence).
  destruct r as [|[b [k' e]] r].
  { simpl in Hc. subst p h'' h'. split; [|intros x _ Hx; by rewrite lookup_insert_ne].
    split; [done|]. exists None, None. by rewrite lookup_insert_eq. }
  destruct Hc as (-> & nxt & prv' & Hb & Hp & Hc). rewrite fmap_cons in Hn, Hna. cbn [fst] in Hn, Hna.
  apply NoDup_cons in Hn as [Hnb Hn]. apply not_elem_of_cons in Hna as [Hab Hna]. subst h'' h'. cbv zeta. split.
  - split; [done|]. exists (Some b), None. rewrite lookup_alter_ne, lookup_insert_eq by done. split_and!; [done|done|].
    split; [done|]. exists nxt, (Some a). rewrite lookup_alter_eq, lookup_insert_ne, Hb by done. split_and!; [done|done|].
    apply (chain_at_frame dbl h); [done|]. intros x Hx. rewrite lookup_alter_ne by (by intros ->).
    apply lookup_insert_ne. by intros ->.
  - intros x [Hxb _]%not_elem_of_cons Hxa. by rewrite lookup_alter_ne, lookup_insert_ne by done.
Qed.

(** The case of [OSHash_Delete] in which the node is the first one. *)
Lemma delete_node_here dbl m t index prv a nxt prv' k d r :
  nodes m !! a = Some (mk_OSHashNode nxt prv' (Some k) d) → chain_at dbl (nodes m) (Some a) nxt r →
  a ∉ row_locs r → NoDup (row_locs r) →
  match prv with
  | None => t !! index = Some (Some a)
  | Some b => b ∉ row_locs ((a, (k, d)) :: r) ∧ ∃ nb, nodes m !! b = Some nb ∧ next nb = Some a
  end →
  ∃ r1 a0 r2 t' m' p',
    (a, (k, d)) :: r = r1 ++ (a0, (k, d)) :: r2 ∧ k ∉ row_keys r1 ∧
    (('(m, t) ← match prv with
               | None => t ← c_write t index nxt; Ret (m, t)
               | Some b => m ← set_next m b nxt; Ret (m, t)
               end;
      m ← match nxt with Some c => set_prev m c prv | None => Ret m end;
      m ← free_node m a; Ret (Some (d, t, m))) = Ret (Some (d, t', m'))) ∧ calls m' = calls m ∧
    chain_at dbl (nodes m') prv p' (r1 ++ r2) ∧ nodes m' !! a0 = None ∧
    (∀ x, x ∉ row_locs ((a, (k, d)) :: r) → Some x ≠ prv → nodes m' !! x = nodes m !! x) ∧
    match prv with
    | None => t' = <[index := p']> t
    | Some b => t' = t ∧ ∃ nb, nodes m !! b = Some nb ∧
        nodes m' !! b = Some (mk_OSHashNode p' (prev nb) (key nb) (data nb))
    end.
Proof.
  intros Ha Hc Hna Hn Hprv. rewrite fmap_cons in *. cbn [fst] in *.
  (* the assignment to the link that pointed to the node *)
  assert (∃ m1 t1, match prv with
                   | None => t ← c_write t index nxt; Ret (m, t)
                   | Some b => m ← set_next m b nxt; Ret (m, t)
                   end = Ret (m1, t1) ∧ calls m1 = calls m ∧
    (∀ x, Some x ≠ prv → nodes m1 !! x = nodes m !! x) ∧
    match prv with
    | None => t1 = <[index := nxt]> t
    | Some b => t1 = t ∧ b ≠ a ∧ b ∉ row_locs r ∧ ∃ nb, nodes m !! b = Some nb ∧
        nodes m1 !! b = Some (mk_OSHashNode nxt (prev nb) (key nb) (data nb))
    end) as (m1 & t1 & -> & Hc1 & Hf1 & Hp1).
  { destruct prv as [b|].
    - destruct Hprv as ([Hba Hbr]%not_elem_of_cons & nb & Hnb & _). unfold set_next, node_at. rewrite Hnb.
      eexists _, _. split; [done|]. split; [done|]. split; [intros x Hx; apply lookup_insert_ne; congruence|].
      split_and!; [done|done|done|]. exists nb. split; [done|]. apply lookup_insert_eq.
    - rewrite c_write_lt by (by eapply lookup_lt_Some). eexists _, _. done. }
  cbn [mbind outcome_bind].
  assert (Some a ≠ prv) as Hap by (destruct prv; [|done]; destruct Hp1 as (_ & ? & _); congruence).
  assert (∀ x, x ∈ row_locs r → Some x ≠ prv) as Hrp.
  { intros x Hx <-. by destruct Hp1 as (_ & _ & ? & _). }
  (* the back link of the node that follows *)
  assert (∃ m2, match nxt with Some c => set_prev m1 c prv | None => Ret m1 end = Ret m2 ∧ calls m2 = calls m1 ∧
    (∀ x, x ∉ row_locs r → nodes m2 !! x = nodes m1 !! x) ∧ chain_at dbl (nodes m2) prv nxt r) as (m2 & -> & Hc2 & Hf2 & Hch).
  { destruct r as [|[c [k' e]] r]; [simpl in Hc; subst; by exists m1|].
    destruct Hc as (-> & nxt' & prv'' & Hcn & _ & Hc). rewrite fmap_cons in *. cbn [fst] in *.
    apply NoDup_cons in Hn as [Hnc Hn]. unfold set_prev, node_at. rewrite Hf1, Hcn by (apply Hrp, list_elem_of_here).
    eexists. split; [done|]. split; [done|]. cbn [nodes with_nodes next key data]. split.
    - intros x [Hx _]%not_elem_of_cons. by apply lookup_insert_ne.
    - split; [done|]. exists nxt', prv. rewrite lookup_insert_eq. split_and!; [done|done|].
      apply (chain_at_frame dbl (nodes m)); [done|]. intros x Hx. rewrite lookup_insert_ne by (by intros ->).
      apply Hf1, Hrp. by apply list_elem_of_further. }
  cbn [mbind outcome_bind]. unfold free_node, node_at. rewrite Hf2, Hf1, Ha by done. cbn [c_deref mbind outcome_bind].
  eexists [], a, r, t1, _, nxt. split_and!; [done|apply not_elem_of_nil|done|by rewrite <-Hc1, <-Hc2| | | |].
  - apply (chain_at_frame dbl (nodes m2)); [done|]. intros x Hx. apply lookup_delete_ne. by intros ->.
  - apply lookup_delete_eq.
  - intros x [Hxa Hxr]%not_elem_of_cons Hxp. cbn [nodes with_nodes].
    by rewrite lookup_delete_ne, Hf2, Hf1 by done.
  - destruct prv as [b|]; [|done]. destruct Hp1 as (-> & Hba & Hbr & nb & Hnb & Hb). split; [done|]. exists nb.
    split; [done|]. cbn [nodes with_nodes]. by rewrite lookup_delete_ne, Hf2 by done.
Qed.

(** The loop of [OSHash_Delete], started behind [prv]. *)
Lemma OSHash_delete_node_spec dbl m fuel t index prv p r k :
  chain_at dbl (nodes m) prv p r → NoDup (row_locs r) → (length r < fuel)%nat →
  match prv with
  | None => t !! index = Some p
  | Some b => b ∉ row_locs r ∧ ∃ nb, nodes m !! b = Some nb ∧ next nb = p
  end →
  match row_lookup k r with
  | None => delete_node fuel m t index prv p k = Ret None
  | Some d => ∃ r1 a r2 t' m' p',
      r = r1 ++ (a, (k, d)) :: r2 ∧ k ∉ row_keys r1 ∧
      delete_node fuel m t index prv p k = Ret (Some (d, t', m')) ∧ calls m' = calls m ∧
      chain_at dbl (nodes m') prv p' (r1 ++ r2) ∧ nodes m' !! a = None ∧
      (∀ x, x ∉ row_locs r → Some x ≠ prv → nodes m' !! x = nodes m !! x) ∧
      match prv with
      | None => t' = <[index := p']> t
      | Some b => t' = t ∧ ∃ nb, nodes m !! b = Some nb ∧
          nodes m' !! b = Some (mk_OSHashNode p' (prev nb) (key nb) (data nb))
      end
  end.
Proof.
  revert fuel prv p. induction r as [|[a [k' d]] r IH]; intros [|fuel] prv p Hc Hn Hf Hprv; cbn [length] in Hf; try lia.
  { simpl in Hc. by subst. }
  destruct Hc as (-> & nxt & prv' & Ha & Hp & Hc). cbn [row_lookup].
  rewrite fmap_cons in Hn. cbn [fst] in Hn. apply NoDup_cons in Hn as [Hna Hn].
  destruct (decide (k' = k)) as [->|Hk].
  - rewrite bool_decide_eq_true_2 by done. cbn [delete_node]. unfold node_at. rewrite Ha.
    cbn [c_deref mbind outcome_bind key next data]. rewrite bool_decide_eq_true_2 by done. by eapply delete_node_here.
  - rewrite bool_decide_eq_false_2 by done.
    assert (delete_node (S fuel) m t index prv (Some a) k = delete_node fuel m t index (Some a) nxt k) as ->.
    { cbn [delete_node]. unfold node_at. rewrite Ha. cbn [c_deref mbind outcome_bind key next data].
      by rewrite bool_decide_eq_false_2 by done. }
    specialize (IH fuel (Some a) nxt Hc Hn ltac:(lia) (conj Hna (ex_intro _ _ (conj Ha eq_refl)))).
    destruct (row_lookup k r) as [e|]; [|done].
    destruct IH as (r1 & x & r2 & t' & m' & p' & -> & Hr1 & E & Hcalls & Hch & Hx & Hfr & -> & nb & Hnb & Hma).
    assert (nb = mk_OSHashNode nxt prv' (Some k') d) as -> by congruence. cbn [prev key data] in Hma.
    eexists ((a, (k', d)) :: r1), x, r2, _, m', (Some a). split_and!; [done| |exact E|done| |done| |].
    + by apply not_elem_of_cons.
    + split; [done|]. by exists p', prv'.
    + intros y [Hya Hy]%not_elem_of_cons Hyp. cbn [fst] in Hya. apply Hfr; [done|congruence].
    + destruct prv as [b|]; [|by rewrite list_insert_id].
      rewrite fmap_cons in Hprv. cbn [fst] in Hprv.
      destruct Hprv as ([Hba Hbr]%not_elem_of_cons & nb & Hnb' & Hnxt). split; [done|]. exists nb. split; [done|].
      cbn [fst] in Hba. rewrite Hfr by (done || congruence). rewrite Hnb'. destruct nb. simpl in *. by subst.
Qed.

(** ** Rows of a table *)

(** The fields that decide in which row a key is. *)
Definition same_hash (self self' : OSHash) : Prop :=
  rows self' = rows self ∧ initial_seed self' = initial_seed self ∧ constant self' = constant self.

Lemma index_of_same self self' k : same_hash self self' → index_of self' k = index_of self k.
Proof.
  intros (Hr & Hs & Hc). unfold index_of, _os_genhash. rewrite Hr, Hs. f_equal. f_equal. generalize (initial_seed self) as s.
  induction k as [|c k IH]; intros s; [done|]. cbn [genhash_from]. by rewrite IH, Hc.
Qed.

Lemma index_of_lt self k : 0 < rows self → (index_of self k < Z.to_nat (rows self))%nat.
Proof. intros H. unfold index_of. pose proof (Z.mod_pos_bound (_os_genhash self k) _ H). lia. Qed.

Lemma GetIndex_ok dbl h self rs k : repr dbl h self rs → OSHash_GetIndex self k = Ret (index_of self k).
Proof.
  intros [Hr _ _ _ _ _]. unfold OSHash_GetIndex. by rewrite (proj2 (Z.eqb_neq _ _)) by lia.
Qed.

Lemma repr_length dbl h self rs : repr dbl h self rs → length rs = Z.to_nat (rows self + 1).
Proof. intros [_ Ht Hc _ _ _]. by rewrite <-(Forall2_length _ _ _ Hc). Qed.

(** The row of a key. *)
Lemma repr_row dbl h self rs k :
  repr dbl h self rs →
  ∃ p r, rs !! index_of self k = Some r ∧ table self !! index_of self k = Some p ∧ chain_at dbl h None p r ∧
    (length r < S (size h))%nat.
Proof.
  intros H. pose proof (repr_length _ _ _ _ H) as Hlen. destruct H as [Hr Ht Hc Hn Hi Hd].
  pose proof (index_of_lt self k ltac:(lia)) as Hlt.
  destruct (lookup_lt_is_Some_2 rs (index_of self k)) as [r Er]; [lia|].
  destruct (Forall2_lookup_r _ _ _ _ _ Hc Er) as (p & Ep & Hch). exists p, r. split_and!; [done..|].
  pose proof (chain_at_length _ _ _ _ _ Hch (proj1 (Hn _ _ Er))). lia.
Qed.

Lemma repr_owned dbl h self rs a : repr dbl h self rs → owned rs a → is_Some (h !! a).
Proof.
  intros [_ _ Hc _ _ _] (i & r & Er & Ha). destruct (Forall2_lookup_r _ _ _ _ _ Hc Er) as (p & _ & Hch).
  by eapply chain_at_lookup.
Qed.

Lemma owned_insert rs i r r' a :
  rs !! i = Some r → owned (<[i := r']> rs) a → a ∈ row_locs r' ∨ ∃ j r0, j ≠ i ∧ rs !! j = Some r0 ∧ a ∈ row_locs r0.
Proof.
  intros Er (j & r0 & Ej & Ha). apply list_lookup_insert_Some in Ej as [(-> & -> & _)|[Hj Ej]]; [by left|].
  right. by exists j, r0.
Qed.

(** A row replaced: nothing but its nodes and new ones changes. *)
Record row_change (dbl : bool) (h h' : gmap loc OSHashNode) (self self' : OSHash) (i : nat) (p' : option loc)
    (r r' : list entry) : Prop := {
  rc_hash : same_hash self self';
  rc_table : table self' = <[i := p']> (table self);
  rc_chain : chain_at dbl h' None p' r';
  rc_locs : NoDup (row_locs r');
  rc_keys : NoDup (row_keys r');
  rc_index : ∀ k, k ∈ row_keys r' → index_of self k = i;
  rc_new : ∀ a, a ∈ row_locs r' → a ∈ row_locs r ∨ h !! a = None;
  rc_old : ∀ a, a ∈ row_locs r → a ∉ row_locs r' → h' !! a = None;
  rc_rest : ∀ a, a ∉ row_locs r → a ∉ row_locs r' → h' !! a = h !! a;
}.

Lemma repr_row_change dbl h h' self self' rs i p' r r' :
  repr dbl h self rs → rs !! i = Some r → row_change dbl h h' self self' i p' r r' →
  repr dbl h' self' (<[i := r']> rs).
Proof.
  intros H Er [Hs Ht Hch Hl Hk Hix Hnew _ Hrest]. pose proof H as [Hr Htl Hc Hn Hi Hd].
  assert (∀ j r0 a, j ≠ i → rs !! j = Some r0 → a ∈ row_locs r0 → a ∉ row_locs r ∧ a ∉ row_locs r') as Hout.
  { intros j r0 a Hj Ej Ha. assert (a ∉ row_locs r) as Hnr by (intros ?; by apply Hj, (Hd j i r0 r a)).
    split; [done|]. intros [?|Hnone]%Hnew; [done|].
    destruct (repr_owned dbl h self rs a H) as [? ?]; [by exists j, r0|congruence]. }
  destruct Hs as (Hrows & Hseed & Hconst). split.
  - by rewrite Hrows.
  - by rewrite Ht, length_insert, Hrows.
  - rewrite Ht. apply Forall2_same_length_lookup. split; [rewrite !length_insert; by eapply Forall2_length|].
    intros j p0 r0 Ep [(-> & -> & _)|[Hj Ej]]%list_lookup_insert_Some.
    { apply list_lookup_insert_Some in Ep as [(_ & -> & _)|[? _]]; done. }
    rewrite list_lookup_insert_ne in Ep by done.
    apply (chain_at_frame dbl h); [by eapply Forall2_lookup_lr|]. intros a Ha.
    destruct (Hout j r0 a (not_eq_sym Hj) Ej Ha). by apply Hrest.
  - intros j r0 [(-> & -> & _)|[Hj Ej]]%list_lookup_insert_Some; [done|by apply (Hn j)].
  - intros j r0 k Ej Hin. rewrite (index_of_same self) by done.
    apply list_lookup_insert_Some in Ej as [(-> & -> & _)|[Hj Ej]]; [by apply Hix|by apply (Hi j r0)].
  - intros j1 j2 r1 r2 a [(-> & -> & _)|[Hj1 E1]]%list_lookup_insert_Some [(-> & -> & _)|[Hj2 E2]]%list_lookup_insert_Some Ha1 Ha2;
      [done|by destruct (Hout j2 r2 a)|by destruct (Hout j1 r1 a)|by apply (Hd j1 j2 r1 r2 a)].
Qed.

Lemma framed_row_change dbl h0 h h' self self' rs i p' r r' :
  repr dbl h self rs → rs !! i = Some r → row_change dbl h h' self self' i p' r r' →
  framed h0 h rs → framed h0 h' (<[i := r']> rs).
Proof.
  intros H Er C Hf a. pose proof (repr_disjoint _ _ _ _ H) as Hd. destruct C as [_ _ _ _ _ _ Hnew Hold Hrest]. split.
  - intros [Ha|(j & r0 & _ & Ej & Ha)]%(owned_insert rs i r r'); [|by apply (proj1 (Hf a)); exists j, r0|done].
    destruct (Hnew a Ha) as [Hin|Hnone]; [by apply (proj1 (Hf a)); exists i, r|].
    rewrite <-(proj2 (Hf a)); [done|]. intros [? ?]%(repr_owned _ _ _ _ _ H). congruence.
  - intros Hno. assert (a ∉ row_locs r') as Hr'.
    { intros ?. apply Hno. exists i, r'. split; [|done]. apply list_lookup_insert_eq. by eapply lookup_lt_Some. }
    destruct (decide (a ∈ row_locs r)) as [Hin|Hout].
    + rewrite (Hold a Hin Hr'). symmetry. apply (proj1 (Hf a)). by exists i, r.
    + rewrite Hrest by done. apply (proj2 (Hf a)). intros (j & r0 & Ej & Ha). apply Hno. exists j, r0.
      split; [|done]. rewrite list_lookup_insert_ne; [done|]. intros ->. by simplify_eq.
Qed.

Lemma holds_row_change self self' rs i r r' M M' :
  same_hash self self' → holds self rs M → rs !! i = Some r →
  (∀ k, index_of self k = i → M' !! k = row_lookup k r') → (∀ k, index_of self k ≠ i → M' !! k = M !! k) →
  holds self' (<[i := r']> rs) M'.
Proof.
  intros Hs HM Er H1 H2 k. rewrite (index_of_same self) by done. destruct (decide (index_of self k = i)) as [E|E].
  - rewrite H1, E, list_lookup_insert_eq by (done || by eapply lookup_lt_Some). done.
  - rewrite H2, list_lookup_insert_ne by done. apply HM.
Qed.

(** ** The operations on the map

    [table_ok dbl h0 h self M]: in the memory [h] the table holds [M], and [h] is [h0] but
    for the nodes of the table. *)
Definition table_ok (dbl : bool) (h0 h : gmap loc OSHashNode) (self : OSHash) (M : gmap string (option D)) : Prop :=
  ∃ rs, repr dbl h self rs ∧ framed h0 h rs ∧ holds self rs M.

Context (malloc_fresh : ∀ h p, malloc h = Some p → h !! p = None).

Lemma Get_spec dbl h0 m self M k :
  table_ok dbl h0 (nodes m) self M → OSHash_Get self k m = Ret (mjoin (M !! k)).
Proof.
  intros (rs & H & _ & HM). destruct (repr_row _ _ _ _ k H) as (p & r & Er & Ep & Hc & Hlen).
  unfold OSHash_Get. rewrite (GetIndex_ok dbl (nodes m) self rs) by done. cbn [mbind outcome_bind].
  rewrite (c_read_Some _ _ _ Ep). cbn [mbind outcome_bind]. rewrite (get_data_spec dbl m _ None p r) by done.
  by rewrite HM, Er.
Qed.

(** What the search of a row finds. *)
Lemma find_spec dbl h0 m self M k :
  table_ok dbl h0 (nodes m) self M →
  ∃ p, c_read (table self) (index_of self k) = Ret p ∧
    match M !! k with
    | None => find_node (walk_fuel m) m p k = Ret None
    | Some d0 => ∃ a n, find_node (walk_fuel m) m p k = Ret (Some a) ∧ nodes m !! a = Some n ∧ data n = d0 ∧
        ∀ d, table_ok dbl h0 (<[a := mk_OSHashNode (next n) (prev n) (key n) d]> (nodes m)) self (<[k := d]> M)
    end.
Proof.
  intros (rs & H & Hf & HM). destruct (repr_row _ _ _ _ k H) as (p & r & Er & Ep & Hc & Hlen).
  exists p. split; [by apply c_read_Some|]. rewrite HM, Er. cbn [mbind option_bind].
  pose proof (find_node_spec dbl m (walk_fuel m) None p r k Hc Hlen) as Hfind.
  destruct (row_lookup k r) as [d0|] eqn:El; [|by destruct Hfind].
  destruct Hfind as (r1 & a & r2 & -> & Hk & Hfind). destruct (repr_nodup _ _ _ _ H _ _ Er) as [Hnl Hnk].
  destruct (chain_at_set_data dbl (nodes m) None p r1 a k d0 r2 d0 Hc Hnl) as (n & Ha & Hd0 & _).
  exists a, n. split_and!; [done..|]. intros d.
  destruct (chain_at_set_data dbl (nodes m) None p r1 a k d0 r2 d Hc Hnl) as (n' & Ha' & _ & Hc'). simplify_eq.
  assert (row_change dbl (nodes m) (<[a := mk_OSHashNode (next n) (prev n) (key n) d]> (nodes m)) self self
    (index_of self k) p (r1 ++ (a, (k, data n)) :: r2) (r1 ++ (a, (k, d)) :: r2)) as Hrc.
  { split; rewrite ?fmap_app, ?fmap_cons in *; try done.
    - by rewrite list_insert_id.
    - intros k' Hk'. apply (repr_index _ _ _ _ H _ _ k' Er). by rewrite ?fmap_app, ?fmap_cons.
    - by left.
    - intros x _ [_ [Hx _]%not_elem_of_cons]%not_elem_of_app. by apply lookup_insert_ne. }
  exists (<[index_of self k := r1 ++ (a, (k, d)) :: r2]> rs). split_and!.
  - by eapply repr_row_change.
  - by eapply framed_row_change.
  - eapply holds_row_change; [by split_and!|done|done| |].
    + intros k' Hi. destruct (decide (k' = k)) as [->|Hne].
      * by rewrite lookup_insert_eq, row_lookup_here.
      * rewrite lookup_insert_ne, HM, Hi, Er by done. cbn [mbind option_bind]. by rewrite !row_lookup_other.
    + intros k' Hi. apply lookup_insert_ne. by intros ->.
Qed.

Lemma Update_spec dbl h0 m self M k d :
  table_ok dbl h0 (nodes m) self M →
  match M !! k with
  | None => OSHash_Update self k d m = Ret (0, m)
  | Some d0 => ∃ m', OSHash_Update self k d m = Ret (1, m') ∧
      calls m' = calls (dispose m (free_data_function self) d0) ∧ table_ok dbl h0 (nodes m') self (<[k := d]> M)
  end.
Proof.
  intros H. destruct (find_spec _ _ _ _ _ k H) as (p & Ep & Hfind). destruct H as (rs & H & _).
  unfold OSHash_Update. rewrite (GetIndex_ok dbl (nodes m) self rs) by done. cbn [mbind outcome_bind].
  rewrite Ep. cbn [mbind outcome_bind]. destruct (M !! k) as [d0|].
  - destruct Hfind as (a & n & -> & Ha & Hd & Hok). cbn [mbind outcome_bind]. unfold node_at at 1. rewrite Ha.
    cbn [c_deref mbind outcome_bind]. rewrite Hd.
    assert (nodes (dispose m (free_data_function self) d0) = nodes m) as Hnd by (by destruct (free_data_function self), d0).
    unfold set_data, node_at. rewrite Hnd, Ha. cbn [c_deref mbind outcome_bind].
    eexists. split; [done|]. split; [done|]. apply Hok.
  - by rewrite Hfind.
Qed.

Lemma Add_duplicate_spec dbl h0 m self M k d d0 update :
  table_ok dbl h0 (nodes m) self M → M !! k = Some d0 →
  ∃ m', _OSHash_Add self k d update m = Ret (OSHASH_DUPLICATE, self, m') ∧ calls m' = calls m ∧
    table_ok dbl h0 (nodes m') self (if update then <[k := d]> M else M).
Proof.
  intros H Hk. destruct (find_spec _ _ _ _ _ k H) as (p & Ep & Hfind). rewrite Hk in Hfind.
  unfold _OSHash_Add. destruct (H) as (rs & Hr & _). rewrite (GetIndex_ok dbl (nodes m) self rs) by done.
  cbn [mbind outcome_bind]. rewrite Ep. destruct Hfind as (a & n & E & Ha & Hd & Hok). cbn [mbind outcome_bind].
  rewrite E. cbn [mbind outcome_bind]. destruct update; [|by exists m].
  unfold set_data, node_at. rewrite Ha. cbn [c_deref mbind outcome_bind]. eexists. split; [done|]. split; [done|apply Hok].
Qed.

Lemma Add_failure_spec dbl h0 m self M k d update :
  table_ok dbl h0 (nodes m) self M → M !! k = None → malloc (nodes m) = None ∨ strdup_ok k = false →
  _OSHash_Add self k d update m = Ret (OSHASH_ERROR, self, m).
Proof.
  intros H Hk Hfail. destruct (find_spec _ _ _ _ _ k H) as (p & Ep & Hfind). rewrite Hk in Hfind.
  unfold _OSHash_Add. destruct (H) as (rs & Hr & _). rewrite (GetIndex_ok dbl (nodes m) self rs) by done.
  cbn [mbind outcome_bind]. rewrite Ep. cbn [mbind outcome_bind]. rewrite Hfind. cbn [mbind outcome_bind].
  destruct (malloc (nodes m)) as [a|] eqn:Ea; [|done]. destruct Hfail as [|Hdup]; [done|]. rewrite Hdup. cbn [negb].
  unfold free_node, node_at. cbn [nodes with_nodes]. rewrite lookup_insert_eq. cbn [c_deref mbind outcome_bind].
  unfold with_nodes. cbn [nodes calls]. rewrite delete_insert_id by (by apply malloc_fresh). by destruct m.
Qed.

Lemma alter_insert_eq {A} (f : A → A) (h : gmap loc A) a x : h !! a = Some x → alter f a h = <[a := f x]> h.
Proof.
  intros Ha. apply map_eq. intros b. destruct (decide (b = a)) as [->|Hb].
  - by rewrite lookup_alter_eq, lookup_insert_eq, Ha.
  - by rewrite lookup_alter_ne, lookup_insert_ne by done.
Qed.

(** Linking a new node in front of a row. *)
Lemma link_spec dbl m p r a k d :
  chain_at dbl (nodes m) None p r → NoDup (row_locs r) → nodes m !! a = None →
  ∃ m', match p with
        | None => Ret (with_nodes m (<[a := mk_OSHashNode None None (Some k) d]> (nodes m)))
        | Some head =>
            m3 ← set_next (with_nodes m (<[a := mk_OSHashNode None None (Some k) d]> (nodes m))) a (Some head);
            set_prev m3 head (Some a)
        end = Ret m' ∧ calls m' = calls m ∧ chain_at dbl (nodes m') None (Some a) ((a, (k, d)) :: r) ∧
    ∀ x, x ∉ row_locs r → x ≠ a → nodes m' !! x = nodes m !! x.
Proof.
  intros Hc Hn Ha. pose proof (chain_at_add dbl (nodes m) p r a k d Hc Hn Ha) as Hadd. cbv zeta in Hadd.
  destruct p as [b|]; [|by eexists].
  destruct r as [|[b' [k' e]] r]; [done|]. destruct Hc as ([= <-] & nxt & prv & Hb & _).
  unfold set_next, set_prev, node_at. cbn [nodes with_nodes]. rewrite lookup_insert_eq.
  cbn [c_deref mbind outcome_bind nodes with_nodes prev key data]. rewrite insert_insert_eq.
  assert (b ≠ a) as Hba by congruence. rewrite lookup_insert_ne, Hb by done.
  cbn [c_deref mbind outcome_bind nodes with_nodes next key data]. eexists. split; [done|]. split; [done|].
  erewrite alter_insert_eq in Hadd by (rewrite lookup_insert_ne; done). exact Hadd.
Qed.

Lemma Add_success_spec dbl h0 m self M k d update a :
  table_ok dbl h0 (nodes m) self M → M !! k = None → malloc (nodes m) = Some a → strdup_ok k = true →
  ∃ t m', _OSHash_Add self k d update m = Ret (OSHASH_SUCCESS, with_elements (with_table self t) (uint (elements self + 1)), m') ∧
    calls m' = calls m ∧
    table_ok dbl h0 (nodes m') (with_elements (with_table self t) (uint (elements self + 1))) (<[k := d]> M).
Proof.
  intros H Hk Ha Hdup. destruct (find_spec _ _ _ _ _ k H) as (p & Ep & Hfind). rewrite Hk in Hfind.
  destruct H as (rs & H & Hf & HM). destruct (repr_row _ _ _ _ k H) as (p' & r & Er & Ep' & Hc & Hlen).
  rewrite (c_read_Some _ _ _ Ep') in Ep. injection Ep as ->. unfold _OSHash_Add.
  rewrite (GetIndex_ok dbl (nodes m) self rs) by done. cbn [mbind outcome_bind].
  rewrite (c_read_Some _ _ _ Ep'). cbn [mbind outcome_bind]. rewrite Hfind. cbn [mbind outcome_bind].
  rewrite Ha, Hdup. cbn [negb]. apply malloc_fresh in Ha. destruct (repr_nodup _ _ _ _ H _ _ Er) as [Hnl Hnk].
  destruct (link_spec dbl m p r a k d Hc Hnl Ha) as (m' & -> & Hcalls & Hch & Hrest). cbn [mbind outcome_bind].
  rewrite c_write_lt by (by eapply lookup_lt_Some). cbn [mbind outcome_bind].
  eexists _, m'. split; [done|]. split; [done|]. set (self' := with_elements _ _).
  assert (k ∉ row_keys r) as Hkr by (apply row_lookup_None; by rewrite HM, Er in Hk).
  assert (a ∉ row_locs r) as Har by (intros [? ?]%(chain_at_lookup _ _ _ _ _ _ Hc); congruence).
  assert (row_change dbl (nodes m) (nodes m') self self' (index_of self k) (Some a) r ((a, (k, d)) :: r)) as Hrc.
  { split; rewrite ?fmap_cons; try done.
    - by apply NoDup_cons.
    - by apply NoDup_cons.
    - intros k' [->|Hk']%elem_of_cons; [done|]. by apply (repr_index _ _ _ _ H _ r).
    - intros x [->|Hx]%elem_of_cons; [by right|by left].
    - intros x Hx [_ Hx']%not_elem_of_cons. done.
    - intros x Hx [Hxa _]%not_elem_of_cons. by apply Hrest. }
  exists (<[index_of self k := (a, (k, d)) :: r]> rs). split_and!.
  - by eapply repr_row_change.
  - by eapply framed_row_change.
  - apply (holds_row_change self self' rs _ r _ M); [by split_and!|done|done| |].
    + intros k' Hi. cbn [row_lookup]. destruct (decide (k' = k)) as [->|Hne].
      * by rewrite lookup_insert_eq, bool_decide_eq_true_2.
      * rewrite lookup_insert_ne, HM, Hi, Er by done. by rewrite bool_decide_eq_false_2 by congruence.
    + intros k' Hi. apply lookup_insert_ne. by intros ->.
Qed.

Lemma Delete_spec dbl h0 m self M k :
  table_ok dbl h0 (nodes m) self M →
  match M !! k with
  | None => OSHash_Delete self k m = Ret (None, self, m)
  | Some d => ∃ t m', OSHash_Delete self k m = Ret (d, with_elements (with_table self t) (uint (elements self - 1)), m') ∧
      calls m' = calls m ∧
      table_ok dbl h0 (nodes m') (with_elements (with_table self t) (uint (elements self - 1))) (delete k M)
  end.
Proof.
  intros (rs & H & Hf & HM). destruct (repr_row _ _ _ _ k H) as (p & r & Er & Ep & Hc & Hlen).
  unfold OSHash_Delete. rewrite (GetIndex_ok dbl (nodes m) self rs) by done. cbn [mbind outcome_bind].
  rewrite (c_read_Some _ _ _ Ep). cbn [mbind outcome_bind]. destruct (repr_nodup _ _ _ _ H _ _ Er) as [Hnl Hnk].
  pose proof (OSHash_delete_node_spec dbl m (walk_fuel m) (table self) (index_of self k) None p r k Hc Hnl Hlen Ep) as Hdel.
  rewrite HM, Er. cbn [mbind option_bind]. destruct (row_lookup k r) as [d|] eqn:El; [|by rewrite Hdel].
  destruct Hdel as (r1 & a & r2 & t' & m' & p' & -> & Hk & -> & Hcalls & Hch & Ha & Hrest & ->). cbn [mbind outcome_bind].
  eexists _, m'. split; [done|]. split; [done|]. set (self' := with_elements _ _).
  rewrite fmap_app, fmap_cons in Hnl. rewrite fmap_app, fmap_cons in Hnk.
  assert (row_change dbl (nodes m) (nodes m') self self' (index_of self k) p' (r1 ++ (a, (k, d)) :: r2) (r1 ++ r2)) as Hrc.
  { split; rewrite ?fmap_app, ?fmap_cons; cbn [fst snd compose]; try done.
    - apply (sublist_NoDup _ _ Hnl). by apply sublist_app, sublist_cons.
    - apply (sublist_NoDup _ _ Hnk). by apply sublist_app, sublist_cons.
    - intros k' Hk'. apply (repr_index _ _ _ _ H _ _ k' Er). rewrite fmap_app, fmap_cons. set_solver.
    - set_solver.
    - intros x Hx Hx'. assert (x = a) as -> by set_solver. done.
    - intros x Hx Hx'. apply Hrest; [|done]. by rewrite fmap_app, fmap_cons. }
  exists (<[index_of self k := r1 ++ r2]> rs). split_and!.
  - by eapply repr_row_change.
  - by eapply framed_row_change.
  - apply (holds_row_change self self' rs _ (r1 ++ (a, (k, d)) :: r2) _ M); [by split_and!|done|done| |].
    + intros k' Hi. destruct (decide (k' = k)) as [->|Hne].
      * rewrite lookup_delete_eq. symmetry. apply row_lookup_None. rewrite fmap_app.
        apply NoDup_app in Hnk as (_ & _ & [Hk2 _]%NoDup_cons). by intros [|]%elem_of_app.
      * rewrite lookup_delete_ne, HM, Hi, Er by done. cbn [mbind option_bind]. by rewrite row_lookup_other.
    + intros k' Hi. apply lookup_delete_ne. by intros ->.
Qed.

(** ** Release *)

(** The calls that dispose of data. *)
Definition disposals (f : option F) (l : list (string * option D)) : list (F * D) :=
  omap (λ kd : string * option D, match f, kd.2 with Some f, Some d => Some (f, d) | _, _ => None end) l.

Lemma disposals_app f l1 l2 : disposals f (l1 ++ l2) = disposals f l1 ++ disposals f l2.
Proof. apply omap_app. Qed.

Lemma dispose_spec m f k d : dispose m f d = mk_memory (nodes m) (calls m ++ disposals f [(k, d)]).
Proof. destruct m, f, d; cbn; by rewrite ?app_nil_r. Qed.

Definition remove_nodes (l : list loc) (h : gmap loc OSHashNode) : gmap loc OSHashNode := foldr delete h l.

Lemma lookup_remove_nodes l h x : remove_nodes l h !! x = if bool_decide (x ∈ l) then None else h !! x.
Proof.
  induction l as [|a l IH]; simpl; [done|]. destruct (decide (x = a)) as [->|Hx].
  - rewrite lookup_delete_eq, bool_decide_eq_true_2; [done|]. by left.
  - rewrite lookup_delete_ne, IH by done.
    by rewrite (bool_decide_ext (x ∈ a :: l) (x ∈ l)) by (rewrite elem_of_cons; tauto).
Qed.

Lemma remove_nodes_cons a l h : remove_nodes (a :: l) h = remove_nodes l (delete a h).
Proof. unfold remove_nodes. simpl. induction l as [|b l IH]; simpl; [done|]. by rewrite delete_delete, IH. Qed.

Lemma remove_nodes_app l1 l2 h : remove_nodes (l1 ++ l2) h = remove_nodes l2 (remove_nodes l1 h).
Proof.
  revert h. induction l1 as [|a l1 IH]; intros h; [done|].
  by rewrite <-app_comm_cons, !remove_nodes_cons, IH.
Qed.

(** The memory after the entries [l] have been disposed of with [f] and freed. *)
Definition released (f : option F) (l : list entry) (m : memory) : memory :=
  mk_memory (remove_nodes (row_locs l) (nodes m)) (calls m ++ disposals f l.*2).

Lemma released_cons f a k d l m :
  released f ((a, (k, d)) :: l) m = released f l (mk_memory (delete a (nodes m)) (calls m ++ disposals f [(k, d)])).
Proof.
  unfold released. rewrite !fmap_cons, remove_nodes_cons. cbn [nodes calls fst snd]. f_equal.
  change ((k, d) :: l.*2) with ([(k, d)] ++ l.*2). by rewrite disposals_app, app_assoc.
Qed.

Lemma released_app f l1 l2 m : released f (l1 ++ l2) m = released f l2 (released f l1 m).
Proof.
  unfold released. cbn [nodes calls]. by rewrite !fmap_app, remove_nodes_app, disposals_app, app_assoc.
Qed.

Lemma lookup_released_other f l m a : a ∉ row_locs l → nodes (released f l m) !! a = nodes m !! a.
Proof. intros Ha. cbn [released nodes]. by rewrite lookup_remove_nodes, bool_decide_eq_false_2. Qed.

Lemma free_chain_spec dbl fuel f m prv p r :
  chain_at dbl (nodes m) prv p r → NoDup (row_locs r) → (length r < fuel)%nat →
  free_chain fuel f m p = Ret (released f r m).
Proof.
  revert fuel m prv p. induction r as [|[a [k d]] r IH]; intros [|fuel] m prv p Hc Hn Hf; cbn [length] in Hf; try lia.
  { simpl in Hc. subst. unfold released. simpl. rewrite app_nil_r. by destruct m. }
  destruct Hc as (-> & nxt & prv' & Ha & _ & Hc). rewrite fmap_cons in Hn. apply NoDup_cons in Hn as [Hna Hn].
  cbn [free_chain]. unfold node_at. rewrite Ha. cbn [c_deref mbind outcome_bind data next].
  rewrite (dispose_spec m f k d). unfold free_node, node_at. cbn [nodes]. rewrite Ha. cbn [c_deref mbind outcome_bind].
  rewrite released_cons. unfold with_nodes. cbn [nodes calls]. apply (IH _ _ (Some a)); [|done|lia].
  cbn [nodes]. apply (chain_at_frame dbl (nodes m)); [done|]. intros x Hx. apply lookup_delete_ne. by intros <-.
Qed.

(** A list of rows keeps its chains where its nodes are not changed. *)
Lemma chains_frame dbl h h' ts rs :
  Forall2 (chain_at dbl h None) ts rs → (∀ a, a ∈ row_locs (mjoin rs) → h' !! a = h !! a) →
  Forall2 (chain_at dbl h' None) ts rs.
Proof.
  intros HF Hf. apply Forall2_same_length_lookup. split; [by eapply Forall2_length|]. intros i p r Hp Hr.
  apply (chain_at_frame dbl h); [by eapply Forall2_lookup_lr|]. intros a (e & -> & He)%list_elem_of_fmap.
  apply Hf, list_elem_of_fmap_2, list_elem_of_join. exists r. split; [done|]. by eapply list_elem_of_lookup_2.
Qed.

Lemma chains_lookup dbl h ts rs a :
  Forall2 (chain_at dbl h None) ts rs → a ∈ row_locs (mjoin rs) → is_Some (h !! a).
Proof.
  intros HF (e & -> & (r & He & [i Hr]%list_elem_of_lookup)%list_elem_of_join)%list_elem_of_fmap.
  destruct (Forall2_lookup_r _ _ _ _ _ HF Hr) as (p & _ & Hc). eapply chain_at_lookup; [done|]. by apply list_elem_of_fmap_2.
Qed.

Lemma free_rows_spec dbl f m pre ts post rs :
  Forall2 (chain_at dbl (nodes m) None) ts rs → NoDup (row_locs (mjoin rs)) →
  free_rows (length ts) (length pre) f (pre ++ ts ++ post) m = Ret (released f (mjoin rs) m).
Proof.
  revert m pre ts. induction rs as [|r rs IH]; intros m pre ts HF Hn.
  { apply Forall2_nil_inv_r in HF as ->. simpl. unfold released. simpl. rewrite app_nil_r. by destruct m. }
  apply Forall2_cons_inv_r in HF as (p & ts' & Hc & HF & ->). cbn [length free_rows].
  rewrite (c_read_Some _ _ p) by (by rewrite lookup_app_r, Nat.sub_diag by lia). cbn [mbind outcome_bind].
  cbn [mjoin list_join] in Hn |- *. rewrite fmap_app in Hn. apply NoDup_app in Hn as (Hn1 & Hdis & Hn2).
  rewrite (free_chain_spec dbl _ f m None p r) by (done || (unfold walk_fuel; pose proof (chain_at_length _ _ _ _ _ Hc Hn1); lia)).
  cbn [mbind outcome_bind]. rewrite released_app. specialize (IH (released f r m) (pre ++ [p]) ts').
  rewrite length_app, Nat.add_1_r, <-app_assoc in IH. apply IH; [|done].
  apply (chains_frame dbl (nodes m)); [done|]. intros x Hx. apply lookup_released_other. intros Hx'. by apply (Hdis x Hx').
Qed.

(** ** All the entries of a table *)

Lemma NoDup_concat {B} (g : entry → B) (rs : list (list entry)) :
  (∀ i r, rs !! i = Some r → NoDup (g <$> r)) →
  (∀ i j r r' b, rs !! i = Some r → rs !! j = Some r' → b ∈ g <$> r → b ∈ g <$> r' → i = j) →
  NoDup (g <$> mjoin rs).
Proof.
  induction rs as [|r rs IH]; intros Hn Hd; [apply NoDup_nil_2|]. cbn [mjoin list_join]. rewrite fmap_app. apply NoDup_app.
  split_and!; [by apply (Hn 0%nat)| |].
  - intros b Hb (e & -> & (r' & He & [j Hj]%list_elem_of_lookup)%list_elem_of_join)%list_elem_of_fmap.
    by pose proof (Hd 0%nat (S j) r r' (g e) eq_refl Hj Hb (list_elem_of_fmap_2 _ _ _ He)).
  - apply IH; [intros i r' Hi; by apply (Hn (S i))|]. intros i j r1 r2 b Hi Hj H1 H2.
    by injection (Hd (S i) (S j) r1 r2 b Hi Hj H1 H2).
Qed.

Lemma repr_nodup_all dbl h self rs : repr dbl h self rs → NoDup (row_locs (mjoin rs)) ∧ NoDup (row_keys (mjoin rs)).
Proof.
  intros [_ _ _ Hn Hi Hd]. split; apply NoDup_concat.
  - intros i r Hr. apply (Hn i r Hr).
  - exact Hd.
  - intros i r Hr. apply (Hn i r Hr).
  - intros i j r r' k Hr Hr' H1 H2. by rewrite <-(Hi i r k), <-(Hi j r' k).
Qed.

Lemma row_lookup_Some k d r : NoDup (row_keys r) → (row_lookup k r = Some d ↔ (k, d) ∈ r.*2).
Proof.
  induction r as [|[a [k' d']] r IH]; cbn [row_lookup]; [by split; [|intros ?%elem_of_nil]|].
  rewrite !fmap_cons. intros [Hk Hn]%NoDup_cons. cbn [snd]. rewrite elem_of_cons, <-IH by done. case_bool_decide as E.
  - subst. split; [intros [= ->]; by left|intros [[= ->]|Hl]; [done|]]. exfalso. apply Hk.
    apply (proj1 (IH Hn)) in Hl. apply list_elem_of_fmap in Hl as ([x e] & ? & He). simpl in *. subst.
    apply list_elem_of_fmap. by exists (x, (k, d)).
  - split; [by right|]. intros [[= <- <-]|?]; done.
Qed.

Lemma entries_permutation dbl h self rs M :
  repr dbl h self rs → holds self rs M → (mjoin rs).*2 ≡ₚ map_to_list M.
Proof.
  intros H HM. destruct (repr_nodup_all _ _ _ _ H) as [_ Hn]. apply NoDup_Permutation.
  - apply (NoDup_fmap_1 fst). by rewrite <-list_fmap_compose.
  - apply NoDup_map_to_list.
  - intros [k d]. rewrite elem_of_map_to_list, HM. split.
    + intros ([a kd] & E & (r & He & [i Hi]%list_elem_of_lookup)%list_elem_of_join)%list_elem_of_fmap.
      cbn [snd] in E. subst kd.
      assert (index_of self k = i) as ->.
      { apply (repr_index _ _ _ _ H i r k Hi). apply list_elem_of_fmap. by exists (a, (k, d)). }
      rewrite Hi. cbn [mbind option_bind]. apply row_lookup_Some; [by apply (repr_nodup _ _ _ _ H i)|].
      apply list_elem_of_fmap. by exists (a, (k, d)).
    + destruct (rs !! index_of self k) as [r|] eqn:Er; [|done]. cbn [mbind option_bind].
      intros Hl%row_lookup_Some; [|by apply (repr_nodup _ _ _ _ H _ _ Er)].
      apply list_elem_of_fmap in Hl as (e & -> & He). apply list_elem_of_fmap. exists e. split; [done|].
      apply list_elem_of_join. exists r. split; [done|]. by eapply list_elem_of_lookup_2.
Qed.

Lemma owned_join rs a : owned rs a ↔ a ∈ row_locs (mjoin rs).
Proof.
  split.
  - intros (i & r & Hi & (e & -> & He)%list_elem_of_fmap). apply list_elem_of_fmap_2, list_elem_of_join.
    exists r. split; [done|]. by eapply list_elem_of_lookup_2.
  - intros (e & -> & (r & He & [i Hi]%list_elem_of_lookup)%list_elem_of_join)%list_elem_of_fmap.
    exists i, r. split; [done|]. by apply list_elem_of_fmap_2.
Qed.

(** The memory without the nodes of the table is what it was around it. *)
Lemma framed_released h0 h rs : framed h0 h rs → remove_nodes (row_locs (mjoin rs)) h = h0.
Proof.
  intros Hf. apply map_eq. intros a. rewrite lookup_remove_nodes.
  case_bool_decide as Ha.
  - symmetry. by apply (proj1 (Hf a)), owned_join.
  - apply (proj2 (Hf a)). by rewrite owned_join.
Qed.

Lemma Free_spec dbl h0 m self M :
  table_ok dbl h0 (nodes m) self M →
  ∃ m', OSHash_Free self m = Ret m' ∧ nodes m' = h0 ∧
    ∃ l, calls m' = calls m ++ l ∧ l ≡ₚ disposals (free_data_function self) (map_to_list M).
Proof.
  intros (rs & H & Hf & HM). destruct (repr_nodup_all _ _ _ _ H) as [Hn _]. pose proof H as [_ Ht Hc _ _ _].
  unfold OSHash_Free. rewrite <-Ht.
  pose proof (free_rows_spec dbl (free_data_function self) m [] (table self) [] rs Hc Hn) as E.
  cbn [app length] in E. rewrite app_nil_r in E. rewrite E. eexists. split; [done|]. cbn [released nodes calls].
  split; [by apply framed_released|]. eexists. split; [done|]. unfold disposals.
  by rewrite (entries_permutation _ _ _ _ _ H HM).
Qed.

(** ** New and resized tables *)

Lemma empty_table_ok dbl h self :
  0 < rows self < 2 ^ 32 - 1 → table self = replicate (Z.to_nat (rows self + 1)) None → table_ok dbl h h self ∅.
Proof.
  intros Hr Ht. assert (∀ i (r : list entry), replicate (Z.to_nat (rows self + 1)) ([] : list entry) !! i = Some r → r = []) as Hnil.
  { by intros i r [-> _]%lookup_replicate. }
  exists (replicate (Z.to_nat (rows self + 1)) []). split_and!.
  - split; [done|by rewrite Ht, length_replicate|rewrite Ht; by apply Forall2_replicate|..].
    + intros i r ->%Hnil. split; apply NoDup_nil_2.
    + by intros i r k ->%Hnil ?%elem_of_nil.
    + by intros i j r r' a ->%Hnil _ ?%elem_of_nil.
  - intros a. split; [|done]. by intros (i & r & ->%Hnil & ?%elem_of_nil).
  - intros k. rewrite lookup_empty. destruct (_ !! index_of self k) as [r|] eqn:E; [|done]. by apply Hnil in E as ->.
Qed.

Lemma getprime_mod v n : 0 < n < 2 ^ 32 → ∃ p, os_getprime (v mod n) = Ret p.
Proof. intros Hn. apply os_getprime_returns. pose proof (Z.mod_pos_bound v n). lia. Qed.

Lemma Create_spec r1 r2 :
  ∃ s c, OSHash_Create true true r1 r2 = Ret (Some (mk_OSHash 37 s c Unlocked 0 None (replicate 38 None))).
Proof.
  unfold OSHash_Create. assert (os_getprime 32 = Ret 37) as -> by (vm_compute; reflexivity). cbn [negb mbind outcome_bind].
  rewrite (proj2 (Z.eqb_neq 37 0)) by lia.
  destruct (getprime_mod (uint r1) 37) as [s ->]; [lia|]. destruct (getprime_mod (uint r2) 37) as [c ->]; [lia|].
  by exists s, c.
Qed.

Lemma zero_rows_spec n pre ts : length ts = n → zero_rows n (length pre) (pre ++ ts) = Ret (pre ++ replicate n None).
Proof.
  revert pre ts. induction n as [|n IH]; intros pre [|p ts] Hl; cbn [length] in Hl; try lia; [done|]. cbn [zero_rows].
  rewrite c_write_lt by (rewrite length_app; simpl; lia). cbn [mbind outcome_bind].
  rewrite insert_app_r_alt, Nat.sub_diag by lia. cbn [list_insert insert]. specialize (IH (pre ++ [None]) ts).
  rewrite length_app, Nat.add_1_r, <-!app_assoc in IH. apply IH. lia.
Qed.

(** The last row is never used. *)
Lemma repr_last dbl h self rs :
  repr dbl h self rs →
  ∃ ts rs', table self = ts ++ [None] ∧ rs = rs' ++ [[]] ∧ length ts = Z.to_nat (rows self) ∧
    Forall2 (chain_at dbl h None) ts rs'.
Proof.
  intros H. pose proof (repr_length _ _ _ _ H) as Hl. destruct H as [Hr Ht Hc _ Hi _].
  destruct (exists_last (l := rs)) as (rs' & r & ->); [intros ->; simpl in Hl; lia|].
  apply Forall2_app_inv_r in Hc as (ts & tl & Hc & Hlast & Et). rewrite length_app in Hl. simpl in Hl.
  apply Forall2_cons_inv_r in Hlast as (p & tl' & Hp & ->%Forall2_nil_inv_r & ->).
  assert (r = []) as ->.
  { destruct r as [|[a [k d]] r]; [done|]. exfalso.
    assert (index_of self k = length rs') as E.
    { apply (Hi _ ((a, (k, d)) :: r) k); [by apply list_lookup_middle|by left]. }
    pose proof (index_of_lt self k ltac:(lia)). lia. }
  simpl in Hp. subst p. exists ts, rs'. split_and!; [done|done| |done]. rewrite (Forall2_length _ _ _ Hc). lia.
Qed.

(** Resizing empties the table, and disposes of its data; the number of elements is kept. *)
Lemma setSize_spec dbl h0 m self M uninit new_size :
  table_ok dbl h0 (nodes m) self M → rows self < new_size ≤ max_prime →
  ∃ self' m', OSHash_setSize true uninit self new_size m = Ret (1, self', m') ∧
    (∀ dbl', table_ok dbl' h0 (nodes m') self' ∅) ∧ nodes m' = h0 ∧ new_size ≤ rows self' ∧ elements self' = elements self ∧
    mutex self' = mutex self ∧ free_data_function self' = free_data_function self ∧
    ∃ l, calls m' = calls m ++ l ∧ l ≡ₚ disposals (free_data_function self) (map_to_list M).
Proof.
  intros (rs & H & Hf & HM) Hn. destruct (repr_nodup_all _ _ _ _ H) as [Hnd _].
  pose proof (repr_rows _ _ _ _ H) as Hr. pose proof (repr_table _ _ _ _ H) as Ht.
  destruct (repr_last _ _ _ _ H) as (ts & rs' & Et & -> & Hlen & Hc). unfold OSHash_setSize.
  rewrite (proj2 (Z.leb_gt _ _)) by lia. destruct (os_getprime_prime new_size) as (n & -> & _ & _ & Hnn & _); [lia|].
  cbn [mbind outcome_bind with_rows table free_data_function negb]. rewrite (proj2 (Z.eqb_neq n 0)) by lia.
  unfold max_prime in *. rewrite (uint_small (n + 1)) by lia. set (t := c_realloc _ _ _).
  assert (∃ post, t = ts ++ post) as [post Ett].
  { subst t. unfold c_realloc. rewrite take_ge, Et, <-app_assoc by lia. by eexists. }
  assert (length t = Z.to_nat (n + 1)) as Hlt by apply length_c_realloc. clearbody t.
  assert (mjoin (rs' ++ [[]]) = mjoin rs') as Ej by (rewrite join_app; simpl; by rewrite app_nil_r). rewrite Ej in Hnd.
  pose proof (free_rows_spec dbl (free_data_function self) m [] ts post rs' Hc Hnd) as Efree.
  cbn [app length] in Efree. rewrite Hlen, <-Ett in Efree. rewrite Efree. cbn [mbind outcome_bind].
  pose proof (zero_rows_spec (Z.to_nat (n + 1)) [] t Hlt) as Ezero. cbn [app length] in Ezero.
  destruct (getprime_mod 456 n) as [s Es]; [lia|]. destruct (getprime_mod 789 n) as [c Ec]; [lia|].
  rewrite Ezero, outcome_bind_ret, Es, outcome_bind_ret, Ec, outcome_bind_ret.
  assert (nodes (released (free_data_function self) (mjoin rs') m) = h0) as Enodes.
  { rewrite <-Ej. by apply framed_released. }
  eexists _, _. split; [done|]. split_and!; [|done|cbn [rows]; lia|done..|].
  - intros dbl'. rewrite Enodes. by apply empty_table_ok; cbn [rows table]; [lia|].
  - eexists. split; [done|]. unfold disposals. rewrite <-Ej. by rewrite (entries_permutation _ _ _ _ _ H HM).
Qed.

(** Rows with no node in common, as the concatenation of their nodes has no repetition. *)
Lemma NoDup_join_disjoint (rs : list (list entry)) i j r r' a :
  NoDup (row_locs (mjoin rs)) → rs !! i = Some r → rs !! j = Some r' → a ∈ row_locs r → a ∈ row_locs r' → i = j.
Proof.
  assert (∀ rs' n (x : list entry), rs' !! n = Some x → a ∈ row_locs x → a ∈ row_locs (mjoin rs')) as Hin.
  { intros rs' n x Hx (e & -> & He)%list_elem_of_fmap. apply list_elem_of_fmap_2, list_elem_of_join.
    exists x. split; [done|]. by eapply list_elem_of_lookup_2. }
  revert i j. induction rs as [|r0 rs IH]; intros i j Hn Hr Hr' Ha Ha'; [done|].
  cbn [mjoin list_join] in Hn. rewrite fmap_app in Hn. apply NoDup_app in Hn as (_ & Hdis & Hn).
  destruct i as [|i], j as [|j]; cbn in Hr, Hr'; simplify_eq.
  - done.
  - exfalso. apply (Hdis a Ha). by apply (Hin rs j r').
  - exfalso. apply (Hdis a Ha'). by apply (Hin rs i r).
  - f_equal. by apply IH.
Qed.

(** ** Copies *)

Lemma row_lookup_snd k (r r' : list entry) : r'.*2 = r.*2 → row_lookup k r' = row_lookup k r.
Proof.
  revert r'. induction r as [|[a [k0 d]] r IH]; intros [|[a' [k0' d']] r'] E; try done.
  cbn in E. injection E as -> -> E. cbn [row_lookup]. by rewrite (IH r').
Qed.

Lemma row_keys_snd (r r' : list entry) : r'.*2 = r.*2 → row_keys r' = row_keys r.
Proof. intros E. rewrite (list_fmap_compose snd fst r'), (list_fmap_compose snd fst r). by rewrite E. Qed.

Section duplicate.
Context (malloc_total : ∀ h, is_Some (malloc h)) (strdup_total : ∀ k, strdup_ok k = true).

(** The rest of a row is copied behind [at_node]. *)
Lemma duplicate_chain_spec dbl m fuel prv p at_node row r :
  chain_at dbl (nodes m) prv p r → (length r < fuel)%nat →
  match at_node with
  | None => row = None
  | Some b => b ∉ row_locs r ∧ ∃ nb, nodes m !! b = Some nb ∧ next nb = None
  end →
  ∃ row' m' q r', duplicate_chain fuel m p at_node row = Ret (Some (row', m')) ∧ calls m' = calls m ∧
    chain_at false (nodes m') at_node q r' ∧ r'.*2 = r.*2 ∧ NoDup (row_locs r') ∧
    (∀ a, a ∈ row_locs r' → nodes m !! a = None) ∧
    (∀ a, a ∉ row_locs r' → Some a ≠ at_node → nodes m' !! a = nodes m !! a) ∧
    match at_node with
    | None => row' = q
    | Some b => row' = row ∧ ∃ nb, nodes m !! b = Some nb ∧ nodes m' !! b = Some (mk_OSHashNode q (prev nb) (key nb) (data nb))
    end.
Proof using malloc_fresh malloc_total strdup_total.
  revert m fuel prv p at_node row. induction r as [|[a [k d]] r IH]; intros m [|fuel] prv p at_node row Hc Hf Hat; cbn [length] in Hf; try lia.
  { simpl in Hc. subst p. eexists row, m, None, []. split_and!; try done; [apply NoDup_nil_2|by intros ? ?%elem_of_nil|].
    destruct at_node as [b|]; [|done]. destruct Hat as (_ & nb & Hb & Hnx). split; [done|]. exists nb. split; [done|].
    rewrite Hb. destruct nb. simpl in *. by subst. }
  destruct Hc as (-> & nxt & prv' & Ha & _ & Hc). cbn [duplicate_chain]. unfold node_at at 1. rewrite Ha.
  cbn [c_deref mbind outcome_bind]. destruct (malloc_total (nodes m)) as [a' Ea']. rewrite Ea'. apply malloc_fresh in Ea'.
  cbn [key c_deref mbind outcome_bind data next]. rewrite strdup_total.
  set (n' := mk_OSHashNode None None (Some k) d). set (m1 := with_nodes m (<[a' := n']> (nodes m))).
  (* the assignment through next_addr *)
  assert (∃ m2 row2, match at_node with
                | None => duplicate_chain fuel m1 nxt (Some a') (Some a')
                | Some b => m ← set_next m1 b (Some a'); duplicate_chain fuel m nxt (Some a') row
                end = duplicate_chain fuel m2 nxt (Some a') row2 ∧ calls m2 = calls m ∧ nodes m2 !! a' = Some n' ∧
    (∀ x, x ≠ a' → Some x ≠ at_node → nodes m2 !! x = nodes m !! x) ∧
    match at_node with
    | None => row2 = Some a'
    | Some b => row2 = row ∧ b ≠ a' ∧ b ∉ row_locs ((a, (k, d)) :: r) ∧ ∃ nb, nodes m !! b = Some nb ∧
        nodes m2 !! b = Some (mk_OSHashNode (Some a') (prev nb) (key nb) (data nb))
    end) as (m2 & row2 & -> & Hc2 & Ha' & Hf2 & Hat2).
  { destruct at_node as [b|].
    - destruct Hat as (Hbr & nb & Hb & _). assert (b ≠ a') by congruence. unfold set_next, node_at, m1. cbn [nodes with_nodes].
      rewrite lookup_insert_ne, Hb by done. cbn [c_deref mbind outcome_bind]. eexists _, row. split; [done|]. split; [done|].
      cbn [nodes with_nodes]. rewrite lookup_insert_ne, lookup_insert_eq by done. split; [done|]. split.
      + intros x Hx Hxb. rewrite !lookup_insert_ne by congruence. done.
      + split_and!; [done..|]. exists nb. by rewrite lookup_insert_eq.
    - eexists m1, _. split; [done|]. split; [done|]. unfold m1. cbn [nodes with_nodes]. rewrite lookup_insert_eq.
      split; [done|]. split; [|done]. intros x Hx _. by apply lookup_insert_ne. }
  assert (a' ∉ row_locs r) as Har by (intros [? ?]%(chain_at_lookup _ _ _ _ _ _ Hc); congruence).
  assert (∀ x, x ∈ row_locs r → nodes m2 !! x = nodes m !! x) as Hsrc.
  { intros x Hx. apply Hf2; [by intros ->|]. destruct at_node as [b|]; [|done]. intros [= ->].
    destruct Hat2 as (_ & _ & Hb & _). apply Hb. rewrite fmap_cons. by right. }
  destruct (IH m2 fuel (Some a) nxt (Some a') row2) as (row' & m' & q & r' & E & Hcl & Hch & Hsnd & Hnd & Hfresh & Hfr & -> & nb & Hnb & Hm').
  { by apply (chain_at_frame dbl (nodes m)). }
  { lia. }
  { split; [done|]. by exists n'. }
  rewrite E. simplify_eq. eexists row2, m', (Some a'), ((a', (k, d)) :: r'). rewrite !fmap_cons. cbn [fst snd].
  assert (a' ∉ row_locs r') as Har' by (intros ?%Hfresh; congruence).
  split_and!; [done|congruence| |by rewrite Hsnd|by apply NoDup_cons| | |].
  - split; [done|]. by exists q, None.
  - intros x [->|Hx]%elem_of_cons; [done|]. destruct (decide (Some x = at_node)) as [<-|Hne].
    + destruct Hat2 as (_ & _ & _ & nb & _ & Hb). rewrite (Hfresh x Hx) in Hb. done.
    + rewrite <-Hf2; [by apply Hfresh| |done]. intros ->. done.
  - intros x [Hx Hxr]%not_elem_of_cons Hxat. rewrite Hfr by congruence. by apply Hf2.
  - destruct at_node as [b|]; [|done]. destruct Hat2 as (-> & Hba & _ & nb & Hb & Hb2). split; [done|]. exists nb.
    split; [done|]. rewrite Hfr, Hb2; [done| |congruence]. intros ?%Hfresh. congruence.
Qed.

(** The rows that are left are copied behind those that are done. *)
Lemma duplicate_rows_spec dbl m pre ts dn rs :
  Forall2 (chain_at dbl (nodes m) None) ts rs → NoDup (row_locs (mjoin rs)) → length dn = length pre →
  ∃ ts' m' rs', duplicate_rows (length ts) (length pre) (pre ++ ts) (dn ++ replicate (length ts) None) m =
      Ret (Some (dn ++ ts', m')) ∧ calls m' = calls m ∧
    Forall2 (chain_at false (nodes m') None) ts' rs' ∧ Forall2 (λ r' r : list entry, r'.*2 = r.*2) rs' rs ∧
    NoDup (row_locs (mjoin rs')) ∧ (∀ a, a ∈ row_locs (mjoin rs') → nodes m !! a = None) ∧
    (∀ a, a ∉ row_locs (mjoin rs') → nodes m' !! a = nodes m !! a).
Proof using malloc_fresh malloc_total strdup_total.
  revert m pre ts dn. induction rs as [|r rs IH]; intros m pre ts dn HF Hn Hdn.
  { apply Forall2_nil_inv_r in HF as ->. exists [], m, []. simpl. split_and!; try done; try apply NoDup_nil_2;
      by intros ? ?%elem_of_nil. }
  apply Forall2_cons_inv_r in HF as (p & ts0 & Hc & HF & ->). cbn [length duplicate_rows replicate].
  rewrite (c_read_Some (pre ++ p :: ts0) _ p) by (by apply list_lookup_middle). cbn [mbind outcome_bind].
  rewrite (c_read_Some (dn ++ None :: replicate (length ts0) None) _ None) by (by apply list_lookup_middle).
  cbn [mbind outcome_bind].
  cbn [mjoin list_join] in Hn. rewrite fmap_app in Hn. apply NoDup_app in Hn as (Hn1 & _ & Hn2).
  destruct (duplicate_chain_spec dbl m (walk_fuel m) None p None None r Hc) as (row & m1 & q & r' & E & Hc1 & Hch & Hsnd & Hnd & Hfresh & Hfr & ->); [|done|].
  { unfold walk_fuel. pose proof (chain_at_length _ _ _ _ _ Hc Hn1). lia. }
  rewrite E. cbn [mbind outcome_bind]. rewrite c_write_lt by (rewrite length_app; simpl; lia). cbn [mbind outcome_bind].
  rewrite insert_app_r_alt, <-Hdn, Nat.sub_diag by lia. cbn [list_insert insert].
  destruct (IH m1 (pre ++ [p]) ts0 (dn ++ [q])) as (ts' & m' & rs' & E' & Hc' & HF' & Hs' & Hn' & Hf' & Hfr').
  { apply (chains_frame dbl (nodes m)); [done|]. intros a Ha. apply Hfr; [|done]. intros ?%Hfresh.
    destruct (chains_lookup _ _ _ _ a HF Ha). congruence. }
  { done. }
  { rewrite !length_app. simpl. lia. }
  rewrite length_app, Nat.add_1_r, <-!app_assoc in E'. cbn [app] in E'. rewrite Hdn, E'.
  assert (∀ a, a ∈ row_locs r' → a ∉ row_locs (mjoin rs')) as Hdis.
  { intros a Ha ?%Hf'. destruct (chain_at_lookup _ _ _ _ _ a Hch Ha). congruence. }
  exists (q :: ts'), m', (r' :: rs'). split; [done|]. split; [congruence|].
  cbn [mjoin list_join]. rewrite fmap_app. split_and!.
  - constructor; [|done]. apply (chain_at_frame false (nodes m1)); [done|]. intros a Ha. by apply Hfr', Hdis.
  - by constructor.
  - apply NoDup_app. split_and!; done.
  - intros a [Ha|Ha]%elem_of_app; [by apply Hfresh|]. destruct (decide (a ∈ row_locs r')) as [Hin|Hout]; [by apply Hfresh|].
    rewrite <-Hfr by done. by apply Hf'.
  - intros a [Ha1 Ha2]%not_elem_of_app. rewrite Hfr' by done. by apply Hfr.
Qed.

(** A copy holds the same map in nodes of its own, and the memory around it, which
    includes the original table, is not changed.  Its elements are not counted. *)
Lemma Duplicate_spec dbl h0 m hash M :
  table_ok dbl h0 (nodes m) hash M →
  ∃ self' m', OSHash_Duplicate hash m = Ret (Some (self', m')) ∧ calls m' = calls m ∧
    table_ok false (nodes m) (nodes m') self' M ∧ elements self' = 0 ∧ mutex self' = Unlocked ∧
    free_data_function self' = free_data_function hash ∧ same_hash hash self'.
Proof using malloc_fresh malloc_total strdup_total.
  intros (rs & H & _ & HM). destruct (repr_nodup_all _ _ _ _ H) as [Hn _]. pose proof H as [Hr Ht Hc Hnd Hi Hd].
  unfold OSHash_Duplicate. rewrite uint_small by lia. rewrite <-Ht.
  destruct (duplicate_rows_spec dbl m [] (table hash) [] rs Hc Hn eq_refl) as (ts' & m' & rs' & E & Hcl & HF & Hs & Hn' & Hf & Hfr).
  cbn [app length] in E. rewrite E. cbn [mbind outcome_bind]. eexists _, m'. split; [done|]. split; [done|].
  split; [|done]. set (self' := mk_OSHash _ _ _ _ _ _ _).
  assert (same_hash hash self') as Hsame by done.
  assert (∀ i r', rs' !! i = Some r' → ∃ r, rs !! i = Some r ∧ r'.*2 = r.*2) as Hrow.
  { intros i r' Er'. by destruct (Forall2_lookup_l _ _ _ _ _ Hs Er') as (r & ? & ?); exists r. }
  exists rs'. split_and!.
  - split; [done| |done| | |].
    + cbn [table rows self']. by rewrite (Forall2_length _ _ _ HF), (Forall2_length _ _ _ Hs), <-(Forall2_length _ _ _ Hc).
    + intros i r' Er'. destruct (Hrow i r' Er') as (r & Er & E2). rewrite (row_keys_snd r) by done.
      split; [|by apply (Hnd i r)]. apply (sublist_NoDup _ _ Hn').
      apply list_elem_of_split_length in Er' as (l1 & l2 & -> & _). rewrite join_app. cbn [mjoin list_join].
      rewrite !fmap_app. apply sublist_inserts_l, sublist_inserts_r. done.
    + intros i r' k Er' Hk. destruct (Hrow i r' Er') as (r & Er & E2). rewrite (row_keys_snd r) in Hk by done.
      rewrite (index_of_same hash) by done. by apply (Hi i r).
    + intros i j r r' a Hr1 Hr2 Ha1 Ha2. by apply (NoDup_join_disjoint rs' i j r r' a).
  - intros a. rewrite owned_join. split; [apply Hf|apply Hfr].
  - intros k. rewrite HM, (index_of_same hash self') by done. destruct (rs' !! index_of hash k) as [r'|] eqn:Er'.
    + destruct (Hrow _ _ Er') as (r & -> & E2). cbn [mbind option_bind]. by rewrite (row_lookup_snd k r r').
    + apply lookup_ge_None in Er'. rewrite (Forall2_length _ _ _ Hs) in Er'.
      by rewrite (proj2 (lookup_ge_None rs _)).
Qed.
End duplicate.

(** ** Iteration *)

Lemma first_node_spec dbl m pre ts rs :
  Forall2 (chain_at dbl (nodes m) None) ts rs →
  (mjoin rs = [] ∧ first_node (length ts) (length pre) (pre ++ ts) m = Ret ((length pre + length ts)%nat, None)) ∨
  ∃ ts1 q ts2 r rs2, ts = ts1 ++ q :: ts2 ∧ r ≠ [] ∧ mjoin rs = r ++ mjoin rs2 ∧
    first_node (length ts) (length pre) (pre ++ ts) m = Ret ((length pre + length ts1)%nat, q) ∧
    chain_at dbl (nodes m) None q r ∧ Forall2 (chain_at dbl (nodes m) None) ts2 rs2.
Proof.
  revert pre ts. induction rs as [|r rs IH]; intros pre ts HF.
  { apply Forall2_nil_inv_r in HF as ->. left. split; [done|]. simpl. by rewrite Nat.add_0_r. }
  apply Forall2_cons_inv_r in HF as (p & ts0 & Hc & HF & ->). cbn [length first_node].
  rewrite (c_read_Some _ _ p) by (by apply list_lookup_middle). cbn [mbind outcome_bind].
  destruct r as [|[a [k d]] r].
  - simpl in Hc. subst p. cbn [mjoin list_join app]. specialize (IH (pre ++ [None]) ts0 HF).
    rewrite length_app, Nat.add_1_r, <-app_assoc in IH. cbn [app] in IH.
    destruct IH as [[Hj E]|(ts1 & q & ts2 & r & rs2 & -> & Hr & Hj & E & Hq & HF2)].
    + left. split; [done|]. rewrite E. f_equal. f_equal. lia.
    + right. exists (None :: ts1), q, ts2, r, rs2. split_and!; try done. rewrite E. cbn [length]. f_equal. f_equal. lia.
  - right. exists [], p, ts0, ((a, (k, d)) :: r), rs. destruct (Hc) as (-> & nxt & prv & Ha & _).
    unfold node_at. rewrite Ha. cbn [c_deref mbind outcome_bind key]. by rewrite Nat.add_0_r.
Qed.

(** The loop of [OSHash_Clean]: [r] is the rest of the row it is in. *)
Lemma clean_nodes_spec dbl fuel self cleaner m pre p0 ts prv curr r rs :
  table self = pre ++ p0 :: ts → length (table self) = Z.to_nat (rows self + 1) →
  chain_at dbl (nodes m) prv curr r → Forall2 (chain_at dbl (nodes m) None) ts rs →
  NoDup (row_locs (r ++ mjoin rs)) → (length (r ++ mjoin rs) < fuel)%nat → r ≠ [] →
  clean_nodes fuel self cleaner (length pre) curr m = Ret (released (Some cleaner) (r ++ mjoin rs) m).
Proof.
  intros Et Hlen. revert m pre p0 ts Et prv curr r rs.
  induction fuel as [|fuel IH]; intros m pre p0 ts Et prv curr r rs Hc HF Hn Hf Hne; [lia|].
  destruct r as [|[a [k d]] r]; [done|]. destruct Hc as (-> & nxt & prv' & Ha & _ & Hc).
  rewrite <-app_comm_cons, fmap_cons in Hn. apply NoDup_cons in Hn as [Hna Hn]. cbn [fst] in Hna. cbn [clean_nodes].
  set (m' := mk_memory (delete a (nodes m)) (calls m ++ disposals (Some cleaner) [(k, d)])).
  assert (∀ x, x ∈ row_locs (r ++ mjoin rs) → nodes m' !! x = nodes m !! x) as Hframe.
  { intros x Hx. apply lookup_delete_ne. by intros ->. }
  assert (Forall2 (chain_at dbl (nodes m') None) ts rs) as HF'.
  { apply (chains_frame dbl (nodes m)); [done|]. intros x Hx. apply Hframe. rewrite fmap_app. by apply elem_of_app; right. }
  assert (∀ i q (X : outcome memory), clean_nodes fuel self cleaner i q m' = X →
    ('(i, next_node) ← Ret (i, q);
     n ← node_at m a; m ← free_node (dispose m (Some cleaner) (data n)) a; clean_nodes fuel self cleaner i next_node m) = X) as Hstep.
  { intros i q X <-. cbn [mbind outcome_bind]. unfold node_at. rewrite Ha. cbn [c_deref mbind outcome_bind data].
    rewrite (dispose_spec m (Some cleaner) k d). unfold free_node, node_at. cbn [nodes]. by rewrite Ha. }
  assert (OSHash_Next self (length pre) (Some a) m = match nxt with
          | Some _ => Ret (length pre, nxt)
          | None => first_node (Z.to_nat (rows self + 1) - S (length pre)) (S (length pre)) (table self) m end) as ->.
  { unfold OSHash_Next, node_at. by rewrite Ha. }
  rewrite <-app_comm_cons, released_cons. cbn [length app] in Hf.
  destruct r as [|[b [k' e]] r].
  - simpl in Hc. subst nxt. cbn [app] in *.
    assert (Z.to_nat (rows self + 1) - S (length pre) = length ts)%nat as ->.
    { rewrite <-Hlen, Et, length_app. simpl. lia. }
    replace (table self) with ((pre ++ [p0]) ++ ts) by (by rewrite Et, <-app_assoc).
    replace (S (length pre)) with (length (pre ++ [p0])) by (rewrite length_app; simpl; lia).
    destruct (first_node_spec dbl m (pre ++ [p0]) ts rs HF) as [[Hj ->]|(ts1 & q & ts2 & r2 & rs2 & -> & Hr2 & Hj & -> & Hq & HF2)].
    + apply Hstep. rewrite Hj. destruct fuel as [|fuel]; [lia|]. unfold released. simpl. by rewrite app_nil_r.
    + apply Hstep. rewrite <-length_app, Hj in *.
      apply (IH m' _ q ts2) with (prv := None); [by rewrite Et, <-!app_assoc| | |done|lia|done].
      * apply (chain_at_frame dbl (nodes m)); [done|]. intros x Hx. apply Hframe. rewrite fmap_app. by apply elem_of_app; left.
      * apply (chains_frame dbl (nodes m)); [done|]. intros x Hx. apply Hframe. rewrite fmap_app. by apply elem_of_app; right.
  - destruct (Hc) as (-> & _). apply Hstep. apply (IH m' pre p0 ts) with (prv := Some a); [done| |done|done|simpl in *; lia|done].
    apply (chain_at_frame dbl (nodes m)); [done|]. intros x Hx. apply Hframe. rewrite fmap_app. by apply elem_of_app; left.
Qed.

(** All the nodes of a table are in memory. *)
Lemma OSHash_repr_size dbl h self rs : repr dbl h self rs → (length (mjoin rs) ≤ size h)%nat.
Proof.
  intros H. destruct (repr_nodup_all _ _ _ _ H) as [Hn _].
  rewrite <-(length_fmap fst (mjoin rs)), <-(size_list_to_set (C := gset loc)) by done. rewrite <-size_dom.
  apply subseteq_size. intros a Ha%elem_of_list_to_set. apply elem_of_dom.
  by apply (chains_lookup dbl h (table self) rs); [apply H|].
Qed.

(** [OSHash_Clean] frees every node and gives every datum to the cleaner, once. *)
Lemma Clean_spec dbl h0 m self M cleaner :
  table_ok dbl h0 (nodes m) self M →
  ∃ m', OSHash_Clean self cleaner m = Ret m' ∧ nodes m' = h0 ∧
    ∃ l, calls m' = calls m ++ l ∧ l ≡ₚ disposals (Some cleaner) (map_to_list M).
Proof.
  intros (rs & H & Hf & HM). destruct (repr_nodup_all _ _ _ _ H) as [Hn _]. pose proof H as [_ Ht Hc _ _ _].
  exists (released (Some cleaner) (mjoin rs) m). split; [|cbn [released nodes calls]; split; [by apply framed_released|]].
  - unfold OSHash_Clean, OSHash_Begin. rewrite <-Ht. pose proof (OSHash_repr_size _ _ _ _ H) as Hs.
    destruct (first_node_spec dbl m [] (table self) rs Hc) as [[Hj E]|(ts1 & q & ts2 & r & rs2 & Et & Hr & Hj & E & Hq & HF)];
      cbn [app length Nat.add] in E; rewrite E; cbn [mbind outcome_bind].
    + rewrite Hj. unfold released. simpl. rewrite app_nil_r. by destruct m.
    + rewrite Hj in *. eapply (clean_nodes_spec dbl _ self cleaner m ts1 q ts2 None q); try done. unfold walk_fuel. lia.
  - eexists. split; [done|]. unfold disposals. by rewrite (entries_permutation _ _ _ _ _ H HM).
Qed.

(** A function that reads the node it is called on and changes its own data only. *)
Definition reads_only {I} (f : iterating_function I) (g : I → string * option D → I) : Prop :=
  ∀ row a x m n k, nodes m !! a = Some n → key n = Some k → f row (Some a) x m = Ret (row, Some a, g x (k, data n), m).

Lemma iterate_row_spec {I} dbl (f : iterating_function I) g fuel t i row prv p r x m :
  reads_only f g → t !! i = Some row → chain_at dbl (nodes m) prv p r → (length r < fuel)%nat →
  iterate_row fuel f t i p x m = Ret (t, foldl g x r.*2, m).
Proof.
  intros Hg Ht. revert fuel prv p x. induction r as [|[a [k d]] r IH]; intros [|fuel] prv p x Hc Hf; cbn [length] in Hf; try lia.
  { simpl in Hc. by subst. }
  destruct Hc as (-> & nxt & prv' & Ha & _ & Hc). cbn [iterate_row]. unfold node_at. rewrite Ha.
  cbn [c_deref mbind outcome_bind key]. rewrite (c_read_Some _ _ _ Ht). cbn [mbind outcome_bind].
  erewrite Hg by done. cbn [mbind outcome_bind data]. rewrite c_write_lt by (by eapply lookup_lt_Some).
  cbn [mbind outcome_bind]. rewrite list_insert_id, bool_decide_eq_true_2 by done. rewrite Ha.
  cbn [c_deref mbind outcome_bind next]. by apply (IH fuel (Some a)); [|lia].
Qed.

Lemma iterate_rows_spec {I} dbl (f : iterating_function I) g fuel pre ts post rs x m :
  reads_only f g → Forall2 (chain_at dbl (nodes m) None) ts rs → Forall (λ r, (length r < fuel)%nat) rs →
  iterate_rows fuel (length ts) (length pre) f (pre ++ ts ++ post) x m = Ret (pre ++ ts ++ post, foldl g x (mjoin rs).*2, m).
Proof.
  intros Hg. revert pre ts x. induction rs as [|r rs IH]; intros pre ts x HF Hlen.
  { by apply Forall2_nil_inv_r in HF as ->. }
  apply Forall2_cons_inv_r in HF as (p & ts0 & Hc & HF & ->). apply Forall_cons in Hlen as [Hr Hlen]. cbn [length iterate_rows].
  assert ((pre ++ (p :: ts0) ++ post) !! length pre = Some p) as Hp by (by apply list_lookup_middle).
  rewrite (c_read_Some _ _ _ Hp). cbn [mbind outcome_bind]. rewrite (iterate_row_spec dbl f g _ _ _ p None p r) by done.
  cbn [mbind outcome_bind mjoin list_join]. rewrite fmap_app, foldl_app.
  specialize (IH (pre ++ [p]) ts0 (foldl g x r.*2) HF Hlen).
  rewrite length_app, Nat.add_1_r, <-!app_assoc in IH. exact IH.
Qed.

(** [OSHash_It] with such a function visits every entry once. *)
Lemma It_spec {I} dbl h0 m hash M (f : iterating_function I) g x :
  table_ok dbl h0 (nodes m) hash M → reads_only f g →
  ∃ l, l ≡ₚ map_to_list M ∧ OSHash_It (walk_fuel m) hash x f m = Ret (hash, foldl g x l, m).
Proof.
  intros (rs & H & Hf & HM) Hg. exists (mjoin rs).*2. split; [by eapply entries_permutation|].
  pose proof (repr_nodup _ _ _ _ H) as Hnd.
  destruct (repr_last _ _ _ _ H) as (ts & rs' & Et & -> & Hlen & Hc). unfold OSHash_It. rewrite Et, <-Hlen.
  pose proof (iterate_rows_spec dbl f g (walk_fuel m) [] ts [None] rs' x m Hg Hc) as E. cbn [app length] in E.
  rewrite E.
  - cbn [mbind outcome_bind]. rewrite join_app. simpl. rewrite app_nil_r. f_equal. f_equal. f_equal.
    unfold with_table. destruct hash. simpl in *. by subst.
  - apply Forall_lookup. intros i r Hr. destruct (Forall2_lookup_r _ _ _ _ _ Hc Hr) as (p & _ & Hch).
    unfold walk_fuel. assert (length r ≤ size (nodes m))%nat; [|lia].
    eapply chain_at_length; [done|]. apply (Hnd i r). by apply lookup_app_l_Some.
Qed.

(** ** Sessions *)

(** The calls a program makes on one table. *)
Inductive op : Type :=
  | OpAdd (k : string) (d : option D)
  | OpSet (k : string) (d : option D)
  | OpUpdate (k : string) (d : option D)
  | OpGet (k : string)
  | OpDelete (k : string)
  | OpCount
  | OpFreeFunction (f : F).

Inductive res : Type := RInt (z : Z) | RData (d : option D).

Definition run_op (o : op) (st : OSHash * memory) : outcome (res * (OSHash * memory)) :=
  let '(self, m) := st in
  match o with
  | OpAdd k d => '(r, self, m) ← OSHash_Add_ex self k d m; Ret (RInt r, (self, m))
  | OpSet k d => '(r, self, m) ← OSHash_Set_ex self k d m; Ret (RInt r, (self, m))
  | OpUpdate k d => '(r, self, m) ← OSHash_Update_ex self k d m; Ret (RInt r, (self, m))
  | OpGet k => '(d, self) ← OSHash_Get_ex self k m; Ret (RData d, (self, m))
  | OpDelete k => '(d, self, m) ← OSHash_Delete_ex self k m; Ret (RData d, (self, m))
  | OpCount => '(n, self) ← OSHash_Get_Elem_ex self; Ret (RInt n, (self, m))
  | OpFreeFunction f => let '(r, self) := OSHash_SetFreeDataPointer self f in Ret (RInt r, (self, m))
  end.

Fixpoint run_ops (os : list op) (st : OSHash * memory) : outcome (list res * (OSHash * memory)) :=
  match os with
  | [] => Ret ([], st)
  | o :: os => '(r, st) ← run_op o st; '(rs, st) ← run_ops os st; Ret (r :: rs, st)
  end.

(** What they promise: a finite map, the function that disposes of data, and the calls of
    it.  [enough] tells whether there is memory for a new entry. *)
Definition astate : Type := (gmap string (option D) * option F * list (F * D))%type.

Definition spec_add (enough update : bool) (k : string) (d : option D) (s : astate) : res * astate :=
  let '(M, f, cs) := s in
  match M !! k with
  | Some _ => (RInt OSHASH_DUPLICATE, (if update then <[k := d]> M else M, f, cs))
  | None => if enough then (RInt OSHASH_SUCCESS, (<[k := d]> M, f, cs)) else (RInt OSHASH_ERROR, s)
  end.

Definition spec_op (enough : bool) (o : op) (s : astate) : res * astate :=
  let '(M, f, cs) := s in
  match o with
  | OpAdd k d => spec_add enough false k d s
  | OpSet k d => spec_add enough true k d s
  | OpUpdate k d =>
      match M !! k with
      | Some d0 => (RInt 1, (<[k := d]> M, f, cs ++ disposals f [(k, d0)]))
      | None => (RInt 0, s)
      end
  | OpGet k => (RData (mjoin (M !! k)), s)
  | OpDelete k => (RData (mjoin (M !! k)), (delete k M, f, cs))
  | OpCount => (RInt (uint (Z.of_nat (size M))), s)
  | OpFreeFunction f => (RInt 1, (M, Some f, cs))
  end.

Definition memory_may_run_out : Prop := (∃ h, malloc h = None) ∨ ∃ k, strdup_ok k = false.

Inductive spec_ops : list op → astate → list res → astate → Prop :=
  | spec_ops_nil s : spec_ops [] s [] s
  | spec_ops_cons o os s r s' rs s'' enough :
      spec_op enough o s = (r, s') → (enough = false → memory_may_run_out) → spec_ops os s' rs s'' →
      spec_ops (o :: os) s (r :: rs) s''.

(** The table and the memory represent an abstract state, around the memory [h0]. *)
Record session_ok (h0 : gmap loc OSHashNode) (st : OSHash * memory) (s : astate) : Prop := {
  so_table : table_ok true h0 (nodes st.2) st.1 s.1.1;
  so_elements : elements st.1 = uint (Z.of_nat (size s.1.1));
  so_mutex : mutex st.1 = Unlocked;
  so_free : free_data_function st.1 = s.1.2;
  so_calls : calls st.2 = s.2;
}.

Lemma table_ok_fields dbl h0 h self self' M :
  same_hash self self' → table self' = table self → table_ok dbl h0 h self M → table_ok dbl h0 h self' M.
Proof.
  intros Hs Ht (rs & [Hr Hl Hc Hn Hi Hd] & Hf & HM). pose proof Hs as (Er & _ & _). exists rs. split_and!; [|done|].
  - split; [by rewrite Er|by rewrite Ht, Er|by rewrite Ht|done| |done].
    intros i r k Hr' Hk. rewrite (index_of_same self) by done. by apply (Hi i r).
  - intros k. rewrite (index_of_same self self') by done. apply HM.
Qed.

Lemma uint_add_l a b : uint (uint a + b) = uint (a + b).
Proof. unfold uint. apply Zplus_mod_idemp_l. Qed.

Lemma with_wrlock_ok {R} self (op : OSHash → outcome (R * OSHash * memory)) r self' m' :
  mutex self = Unlocked → op (with_mutex self WriteLocked) = Ret (r, self', m') → mutex self' = WriteLocked →
  with_wrlock self op = Ret (r, with_mutex self' Unlocked, m').
Proof.
  intros Hu E Hw. unfold with_wrlock, w_rwlock_lock, w_rwlock_unlock. rewrite bool_decide_eq_true_2 by done.
  cbn [c_assert mbind outcome_bind]. rewrite E. cbn [mbind outcome_bind]. by rewrite bool_decide_eq_false_2 by (by rewrite Hw).
Qed.

Lemma with_rdlock_ok {R} l self (op : OSHash → outcome R) r :
  mutex self = Unlocked → l ≠ Unlocked → op (with_mutex self l) = Ret r → with_rdlock l self op = Ret (r, self).
Proof.
  intros Hu Hl E. unfold with_rdlock, w_rwlock_lock, w_rwlock_unlock. rewrite bool_decide_eq_true_2 by done.
  cbn [c_assert mbind outcome_bind]. rewrite E. cbn [mbind outcome_bind]. rewrite bool_decide_eq_false_2 by done.
  cbn. do 3 f_equal. destruct self. simpl in *. by subst.
Qed.

Lemma add_op_ok h0 self m M f cs k d update :
  session_ok h0 (self, m) (M, f, cs) →
  ∃ r self' m' enough, with_wrlock self (λ self, _OSHash_Add self k d update m) = Ret (r, self', m') ∧
    (enough = false → memory_may_run_out) ∧
    ∃ s', spec_add enough update k d (M, f, cs) = (RInt r, s') ∧ session_ok h0 (self', m') s'.
Proof using malloc_fresh.
  intros [Ht He Hu Hf Hcs]. cbn [fst snd] in *.
  assert (table_ok true h0 (nodes m) (with_mutex self WriteLocked) M) as Ht' by (by apply (table_ok_fields _ _ _ self)).
  unfold spec_add. destruct (M !! k) as [d0|] eqn:Ek.
  - destruct (Add_duplicate_spec true h0 m _ M k d d0 update Ht' Ek) as (m' & E & Hc & Hok).
    eexists _, _, m', true. split; [by apply with_wrlock_ok|]. split; [done|]. eexists. split; [done|].
    split; cbn [fst snd]; [by apply (table_ok_fields _ _ _ (with_mutex self WriteLocked))| |done|done|by rewrite Hc].
    cbn [elements with_mutex]. rewrite He. destruct update; [|done]. by rewrite map_size_insert_Some by (by eexists).
  - destruct (malloc (nodes m)) as [a|] eqn:Ea; [destruct (strdup_ok k) eqn:Es|].
    + destruct (Add_success_spec true h0 m _ M k d update a Ht' Ek Ea Es) as (t & m' & E & Hc & Hok).
      eexists _, _, m', true. split; [by apply with_wrlock_ok|]. split; [done|]. eexists. split; [done|].
      split; cbn [fst snd]; [by eapply table_ok_fields, Hok| |done|done|by rewrite Hc].
      cbn [elements with_mutex with_elements]. rewrite He, uint_add_l, map_size_insert_None by done. f_equal. lia.
    + eexists _, _, m, false. split; [apply with_wrlock_ok; [done|eapply Add_failure_spec; [done..|by right]|done]|].
      split; [intros _; right; by exists k|]. eexists. split; [done|]. split; cbn [fst snd]; try done.
      by apply (table_ok_fields _ _ _ self).
    + eexists _, _, m, false. split; [apply with_wrlock_ok; [done|eapply Add_failure_spec; [done..|by left]|done]|].
      split; [intros _; left; by exists (nodes m)|]. eexists. split; [done|]. split; cbn [fst snd]; try done.
      by apply (table_ok_fields _ _ _ self).
Qed.

Lemma update_op_ok h0 self m M f cs k d :
  session_ok h0 (self, m) (M, f, cs) →
  ∃ r self' m', OSHash_Update_ex self k d m = Ret (r, self', m') ∧
    ∃ s', spec_op true (OpUpdate k d) (M, f, cs) = (RInt r, s') ∧ session_ok h0 (self', m') s'.
Proof.
  intros [Ht He Hu Hf Hcs]. cbn [fst snd spec_op] in *.
  assert (table_ok true h0 (nodes m) (with_mutex self WriteLocked) M) as Ht' by (by apply (table_ok_fields _ _ _ self)).
  pose proof (Update_spec true h0 m _ M k d Ht') as Hup. destruct (M !! k) as [d0|] eqn:Ek.
  - destruct Hup as (m' & E & Hc & Hok). eexists _, _, m'.
    split; [unfold OSHash_Update_ex; apply with_wrlock_ok; [done|by rewrite E|done]|].
    eexists. split; [done|]. split; cbn [fst snd]; [by eapply table_ok_fields, Hok| |done|done|].
    + cbn [elements with_mutex]. by rewrite He, map_size_insert_Some by (by eexists).
    + rewrite Hc, (dispose_spec m _ k d0). cbn [calls free_data_function with_mutex]. by rewrite Hf, Hcs.
  - eexists _, _, m. split; [unfold OSHash_Update_ex; apply with_wrlock_ok; [done|by rewrite Hup|done]|].
    eexists. split; [done|]. split; cbn [fst snd]; try done. by apply (table_ok_fields _ _ _ self).
Qed.

Lemma delete_op_ok h0 self m M f cs k :
  session_ok h0 (self, m) (M, f, cs) →
  ∃ self' m', OSHash_Delete_ex self k m = Ret (mjoin (M !! k), self', m') ∧ session_ok h0 (self', m') (delete k M, f, cs).
Proof.
  intros [Ht He Hu Hf Hcs]. cbn [fst snd] in *.
  assert (table_ok true h0 (nodes m) (with_mutex self WriteLocked) M) as Ht' by (by apply (table_ok_fields _ _ _ self)).
  pose proof (Delete_spec true h0 m _ M k Ht') as Hdel. destruct (M !! k) as [d|] eqn:Ek.
  - destruct Hdel as (t & m' & E & Hc & Hok). eexists _, m'. split; [by apply with_wrlock_ok|].
    split; cbn [fst snd]; [by eapply table_ok_fields, Hok| |done|done|by rewrite Hc].
    cbn [elements with_mutex with_elements]. rewrite He. unfold Z.sub. rewrite uint_add_l.
    rewrite map_size_delete_Some by (by eexists). f_equal.
    assert (size M ≠ 0)%nat by (apply map_size_ne_0_lookup; by exists k). lia.
  - eexists _, m. split; [by apply with_wrlock_ok|]. rewrite delete_id by done.
    split; cbn [fst snd]; try done. by apply (table_ok_fields _ _ _ self).
Qed.

(** One call. *)
Lemma run_op_ok h0 st s o :
  session_ok h0 st s →
  ∃ r st' s' enough, run_op o st = Ret (r, st') ∧ spec_op enough o s = (r, s') ∧
    (enough = false → memory_may_run_out) ∧ session_ok h0 st' s'.
Proof using malloc_fresh.
  destruct st as [self m], s as [[M f] cs]. intros H. destruct o as [k d|k d|k d|k|k| |f']; cbn [run_op spec_op].
  - destruct (add_op_ok h0 self m M f cs k d false H) as (r & self' & m' & enough & E & Hen & s' & Es & H').
    exists (RInt r), (self', m'), s', enough. unfold OSHash_Add_ex, OSHash_Add. rewrite E. done.
  - destruct (add_op_ok h0 self m M f cs k d true H) as (r & self' & m' & enough & E & Hen & s' & Es & H').
    exists (RInt r), (self', m'), s', enough. unfold OSHash_Set_ex, OSHash_Set. rewrite E. done.
  - destruct (update_op_ok h0 self m M f cs k d H) as (r & self' & m' & E & s' & Es & H').
    exists (RInt r), (self', m'), s', true. rewrite E. done.
  - pose proof H as [Ht _ Hu _ _]. unfold OSHash_Get_ex. erewrite with_rdlock_ok; [|done|done|].
    + by eexists _, _, _, true.
    + apply (Get_spec true h0). by apply (table_ok_fields _ _ _ self).
  - destruct (delete_op_ok h0 self m M f cs k H) as (self' & m' & E & H'). rewrite E.
    by eexists _, _, _, true.
  - pose proof H as [_ He Hu _ _]. unfold OSHash_Get_Elem_ex. erewrite with_rdlock_ok by done.
    eexists _, _, _, true. split; [done|]. split; [|done]. cbn [elements with_mutex fst snd] in *. by rewrite He.
  - destruct H as [Ht He Hu Hf Hcs]. eexists _, _, _, true. split; [done|]. split; [done|]. split; [done|].
    split; cbn [fst snd] in *; try done. by apply (table_ok_fields _ _ _ self).
Qed.

Lemma run_ops_ok h0 os st s :
  session_ok h0 st s → ∃ rs st' s', run_ops os st = Ret (rs, st') ∧ spec_ops os s rs s' ∧ session_ok h0 st' s'.
Proof using malloc_fresh.
  revert st s. induction os as [|o os IH]; intros st s H.
  { exists [], st, s. split_and!; [done|constructor|done]. }
  destruct (run_op_ok h0 st s o H) as (r & st1 & s1 & enough & E & Es & Hen & H1).
  destruct (IH st1 s1 H1) as (rs & st2 & s2 & E2 & Hs2 & H2). exists (r :: rs), st2, s2. split_and!; [|by econstructor|done].
  cbn [run_ops]. by rewrite E; cbn [mbind outcome_bind]; rewrite E2.
Qed.

(** ** Results *)

(** C14: whatever is done with a new table through its locked operations, the results are
    those of a finite map, with the number of its entries; an entry for which there is no
    memory is refused and nothing changes.  No freed node is reached.  [OSHash_Free] then
    frees every node, and nothing else, and disposes of every datum of the map once. *)
Theorem oshash_refines_map r1 r2 (m0 : memory) (os : list op) :
  ∃ self0 rs self m M f cs,
    OSHash_Create true true r1 r2 = Ret (Some self0) ∧
    run_ops os (self0, m0) = Ret (rs, (self, m)) ∧ spec_ops os (∅, None, calls m0) rs (M, f, cs) ∧ calls m = cs ∧
    ∃ m', OSHash_Free self m = Ret m' ∧ nodes m' = nodes m0 ∧
      ∃ l, calls m' = cs ++ l ∧ l ≡ₚ disposals f (map_to_list M).
Proof using malloc_fresh.
  destruct (Create_spec r1 r2) as (s & c & E). eexists _.
  destruct (run_ops_ok (nodes m0) os (mk_OSHash 37 s c Unlocked 0 None (replicate 38 None), m0) (∅, None, calls m0))
    as (rs & [self m] & [[M f] cs] & Er & Hs & [Ht _ _ Hf Hc]).
  { split; cbn [fst snd]; try done; by apply empty_table_ok. }
  cbn [fst snd] in *. destruct (Free_spec _ _ _ _ _ Ht) as (m' & Em & Hn & l & Hl & Hp).
  exists rs, self, m, M, f, cs. split_and!; [done..|]. exists m'. split_and!; [done..|]. exists l. by rewrite <-Hc, <-Hf.
Qed.

(** C15: resizing a table empties it, frees all its nodes and disposes of every datum once,
    and leaves a table that is in order; but the number of its elements stays what it was.
    A copy holds the same map in nodes of its own without touching the original, and
    counts no element. *)
Theorem oshash_resize_and_copy h0 m self M uninit new_size :
  (∀ h, is_Some (malloc h)) → (∀ k, strdup_ok k = true) →
  session_ok h0 (self, m) (M, free_data_function self, calls m) → rows self < new_size ≤ max_prime →
  (∃ self' m', OSHash_setSize true uninit self new_size m = Ret (1, self', m') ∧ nodes m' = h0 ∧
     table_ok true h0 (nodes m') self' ∅ ∧ new_size ≤ rows self' ∧ elements self' = uint (Z.of_nat (size M)) ∧
     ∃ l, calls m' = calls m ++ l ∧ l ≡ₚ disposals (free_data_function self) (map_to_list M)) ∧
  (∃ self' m', OSHash_Duplicate self m = Ret (Some (self', m')) ∧ calls m' = calls m ∧
     table_ok false (nodes m) (nodes m') self' M ∧ elements self' = 0).
Proof using malloc_fresh.
  intros Hm Hk [Ht He _ _ _] Hn. cbn [fst snd] in *. split.
  - destruct (setSize_spec true h0 m self M uninit new_size Ht Hn) as (self' & m' & E & Hok & Hnod & Hrows & Hel & _ & _ & Hl).
    exists self', m'. split_and!; [done|done|apply Hok|done|congruence|done].
  - destruct (Duplicate_spec Hm Hk true h0 m self M Ht) as (self' & m' & E & Hc & Hok & Hel & _). by exists self', m'.
Qed.

End oshash.

(** A concrete memory manager: the least free address. *)
Definition first_free {D} (h : gmap loc (OSHashNode (D := D))) : option loc := Some (fresh (dom h)).

Lemma first_free_fresh {D} (h : gmap loc (OSHashNode (D := D))) p : first_free h = Some p → h !! p = None.
Proof. intros [= <-]. apply not_elem_of_dom, is_fresh. Qed.

Definition demo_ops : list (@op nat nat) :=
  [OpFreeFunction 7%nat; OpAdd "a" (Some 1%nat); OpAdd "b" (Some 2%nat); OpAdd "a" (Some 3%nat); OpUpdate "b" (Some 4%nat);
   OpGet "b"; OpSet "c" None; OpDelete "a"; OpGet "a"; OpCount].

Lemma oshash_refines_map_witness :
  (∃ self0 rs self m M f cs,
    OSHash_Create (F := nat) true true 5 9 = Ret (Some self0) ∧
    run_ops first_free (λ _, true) true demo_ops (self0, mk_memory ∅ []) = Ret (rs, (self, m)) ∧
    spec_ops first_free (λ _, true) demo_ops (∅, None, []) rs (M, f, cs) ∧ calls m = cs ∧
    ∃ m', OSHash_Free self m = Ret m' ∧ nodes m' = ∅ ∧
      ∃ l, calls m' = cs ++ l ∧ l ≡ₚ disposals f (map_to_list M)) ∧
  fst <$> (self0 ← OSHash_Create (F := nat) true true 5 9;
           match self0 with
           | Some self0 => run_ops first_free (λ _, true) true demo_ops (self0, mk_memory ∅ [])
           | None => Stuck NullDeref
           end) =
    Ret [RInt 1; RInt 2; RInt 2; RInt 1; RInt 1; RData (Some 4%nat); RInt 2; RData (Some 1%nat); RData None; RInt 2].
Proof.
  split; [|vm_compute; reflexivity].
  exact (oshash_refines_map first_free (λ _, true) true first_free_fresh 5 9 (mk_memory ∅ []) demo_ops).
Defined.

Definition demo_table : OSHash (F := nat) := mk_OSHash 37 1 3 Unlocked 0 None (replicate 38 None).

Lemma oshash_resize_and_copy_witness :
  (∃ self' m', OSHash_setSize true (λ _, None) demo_table 2048 (mk_memory (D := nat) ∅ []) = Ret (1, self', m') ∧
     nodes m' = ∅ ∧ table_ok true true ∅ (nodes m') self' ∅ ∧ 2048 ≤ rows self' ∧
     elements self' = uint (Z.of_nat (size (∅ : gmap string (option nat)))) ∧
     ∃ l, calls m' = [] ++ l ∧ l ≡ₚ disposals None (map_to_list (∅ : gmap string (option nat)))) ∧
  (∃ self' m', OSHash_Duplicate first_free (λ _, true) demo_table (mk_memory (D := nat) ∅ []) = Ret (Some (self', m')) ∧
     calls m' = [] ∧ table_ok true false ∅ (nodes m') self' ∅ ∧ elements self' = 0).
Proof.
  apply (oshash_resize_and_copy first_free (λ _, true) true first_free_fresh ∅ (mk_memory ∅ []) demo_table ∅ (λ _, None) 2048).
  - intros h. by eexists.
  - done.
  - split; cbn [fst snd]; try done. by apply empty_table_ok.
  - unfold max_prime. cbn [rows demo_table]. lia.
Defined.

(** When the memory for a larger table cannot be had, the table keeps its size but [rows]
    does not: a later lookup reads past the table. *)
Example failed_resize_overreads :
  let m := mk_memory (D := nat) ∅ [] in let self' := with_rows demo_table 2053 in
  OSHash_setSize false (λ _, None) demo_table 2048 m = Ret (0, self', m) ∧ OSHash_Get true self' "x" m = Stuck OutOfBounds.
Proof. split; vm_compute; reflexivity. Qed.
